(* ===== verification/_CoqProject ===== *)
-Q . S2P
Prelude.v
Path.v
Errors.v
Database.v
Memory.v
RocksDb.v
Statements.v
Sqlite.v
MapConn.v
Conformance.v
Store.v
TestActor.v
StoreSpec.v
StoreCorrect.v
Crash.v
Backends.v
Persistent.v
PersistentCorrect.v
Lives.v
Supervision.v
Runner.v
RunnerCorrect.v
RunnerStop.v
Messaging.v
Serving.v
StoreActor.v
Family.v
Tree.v
Retries.v
Sinks.v
System.v
SystemCorrect.v
RetryTarget.v
Shutdown.v
