(* ===== verification/Prelude.v ===== *)
(** * Rush: actors and event-sourced stores

    A verification of the Rust workspace: the crate [actor] (actor/src), an
    actor system on tokio, the crate [store] (store/src), persistence of actors
    as logs of events, and the storage backends.

    ** The program

    An actor has a path ([ActorPath]), a task ([ActorRunner]) and a context.
    The task runs the lifecycle loop of [init], which starts the actor, retries
    a failed start after the waits of a supervision strategy, and in the started
    state runs a [select!] loop over its channels: stop requests, errors of its
    children, its own events and failures, and its mailbox. The system keeps the
    registry of actors by path and shuts the root actors down. A persistent actor
    keeps a child actor [Store]: every event goes into a collection under its
    number, and the state into a snapshot with the number of the last event it
    includes; recovery replays the later events on the snapshot. The store is
    written against the traits of database.rs, which backends implement.

    ** The files

    - [Prelude]: outcomes with [Ok], [Err] and [Panic]; the monads [outcome] and
      [stM] (state passing that keeps the state on an early return, as [&mut]
      does); [u64] and [isize] with both overflow modes; text, its UTF-8
      encoding and the decimal format of the event numbers; lists and the order
      on texts.
    - [Path] (actor/src/path.rs): module [ActorPath], one definition per method.
    - [Errors] (actor/src/error.rs, store/src/error.rs): the error enums and
      their texts.
    - [Database] (store/src/database.rs): the traits [Collection], [State] and
      [DbManager] as classes over a world of storage; [CollectionLaws],
      [StateLaws] and [BackendLaws] say what a backend promises; the default
      methods [last] ([last_entry]) and [get_by_range] are proved from the laws.
      Sessions of operations on a collection ([run_ops]) refine a finite map for
      every backend that is [Reliable].
    - [Memory] (store/src/memory.rs): the manager and the shared trees behind
      their locks, modules [MemoryState] and [MemoryCollection] for the two trait
      implementations, the instances of the laws, and the refinement of a map.
    - [RocksDb] (databases/rocksdb_db/src/rocksdb.rs): the manager, modules
      [RocksDbState] and [RocksDbCollection] and the iterator [rocks_next] over
      the column families of the class [RocksDB]; the laws follow from
      [RocksDBLaws], for collections whose prefixes do not start one another.
    - [Statements]: what SQLite, which is not in the repository, does with a
      text: a lexer and a parser for the four kinds of statement that occur, and
      what a statement does to the tables and which rows it selects.
    - [Sqlite] (databases/sqlite_db/src/sqlite.rs): the manager, the texts of the
      statements (module [Sql]), modules [SqliteState] and [SqliteEvents] and the
      mutex of the connection over the class [Rusqlite]; [RusqliteLaws] says that
      the connection does with a text what [Statements] says, and the laws of a
      backend follow from what the texts say. [MapConn]: a connection that runs
      the statements on finite maps, for the witnesses. [Conformance] (the macro
      [test_store_trait!] of database.rs): module [Suite], its tests as
      computations that panic where an assertion fails, and the backends.
    - [Store] (store/src/store.rs): module [Store], every method of the struct
      and its message handler. [StoreSpec]: the relation [holds] between the
      storage and an abstract log with a snapshot, the invariant [running], and
      what each method does to it, for any backend with the laws.
      [StoreCorrect]: the abstract machine and the simulation, recovery,
      encryption, purge. [Crash]: the backend that dies after a number of writes,
      and the store opened on what is left. [Backends]: the store on the two
      persistent backends.
    - [Persistent] (store/src/store.rs, [PersistentActor]; the parts of
      actor/src/handler.rs and actor.rs it uses): module [PersistentMethods],
      [persist], [snapshot], [start_store] and [stop_store] over the mailbox of
      the child store, which may be dead. [PersistentCorrect]: their outcomes.
      [Lives]: the lives of such an actor, each of them a process that runs
      [start_store] on the storage of the one before, persists, takes snapshots,
      and is killed after a number of writes.
    - [Supervision] (actor/src/supervision.rs): the strategies.
    - [Runner] (actor/src/runner.rs and the context of actor/src/actor.rs):
      module [ActorRunner], the turns of [init] and the branches of [run] as
      steps on a record, with the trace of what others observe; a task that waits
      for room in its own stop channel keeps what is left to do ([pending]) until
      the step [Unblock]. [RunnerCorrect]: invariants and termination. [RunnerStop]: the course of stops, failures
      and restarts.
    - [Messaging] (actor/src/handler.rs, [ActorRef] of actor/src/actor.rs):
      modules [HandleHelper] and [ActorRefOps], what the holder of a reference
      does to the channels of a runner and what it gets back; the mailbox as a
      queue. [Serving] (the provided methods of [Actor] and [Handler] of
      actor.rs): module [ActorDefaults], and the task of an actor that has a
      handler only, as a fold of the handler. [StoreActor] (store.rs): the store
      in that task, and the child of [Persistent] as such a task.
    - [Family] (runner.rs): the runners of a parent and its child joined by their
      channels, with what each waits for inside its branches. [Tree] (runner.rs,
      [stop_childs] of actor.rs): any number of runners joined by their stop
      channels.
    - [Sinks] (actor/src/sink.rs, the event channel of runner.rs): module [Sink],
      the receiving loop, interleaved with the actor that publishes; the channel
      is the class [Broadcast].
    - [Retries] (actor/src/retries.rs): module [RetryOps], the retry actor.
      [RetryTarget]: its target and itself in the registry.
    - [System] (actor/src/system.rs): module [SystemOps], the registry, the
      creation of actors as interleaved accesses, the shutdown.
      [SystemCorrect]: the registry under interleaving, the shutdown. Module
      [ActorContext]: what an actor finds in the registry. [Shutdown]: the task
      of the shutdown, with the lock that it holds, among the other tasks.
    - [TestActor]: the actor of the tests and concrete instances of the external
      code, on which the theorems are evaluated.

    ** How the code is modelled

    A method with [&mut self] is a function of the state; [?] is the bind of the
    monad; slices, conversions and arithmetic that can panic have the outcome
    [Panic]. A task that awaits a channel is a step that is enabled when the
    channel has something; the choice between ready branches, the answers of
    other actors and the order of the accesses to a shared lock are the labels
    of the steps, so the theorems hold for every choice. A send on the bounded
    stop channel goes on when there is room: a branch that must wait in it is
    left in the middle, and that the wait can last for ever is a theorem
    ([fail_with_a_full_stop_queue_deadlocks]), not part of the step. A hook of an actor is a
    function that returns the actor, the calls it made on its context and its
    result. Bodies of external crates are classes with laws that state their
    documented behaviour (of SQLite, on the text of a statement): [Bincode], [ChaCha], [MemSecurity] (and the random
    generator as a stream), [RocksDB], [Rusqlite], [Broadcast]. [TestActor],
    [RocksDb.MapDb], [MapConn] and [Sinks.Ring] give instances. A call that
    waits on a oneshot is split in two: what it sends, and what it returns in a
    later state of the actor.

    ** What the theorems show

    - The store is a log: whatever the schedule of its task, the commands other
      than a purge are a run of the abstract machine
      ([store_actor_refines_log], from the simulation [handle_refines]); after a
      crash at any write the storage holds what was acknowledged
      ([acknowledged_events_survive_a_crash]); recovery is a replay of the
      log ([recovery_replays_the_log]); stopping and starting a persistent actor
      restores its state ([stop_then_start_restores_the_actor]); every branch of
      [persist] and [start_store] is characterised. A persistent actor whose
      storage has a snapshot from which its log is recovered and, under full
      persistence, an event, survives any number of kills, whatever it was doing:
      it comes back with every event that [persist] accepted
      ([stored_actor_survives_its_crashes]); before that it loses the first
      ([killed_actor_loses_its_first_event]). Values are assumed to encode
      ([Seals]), the storage to find its tables again ([Reopens], proved of
      RocksDB and of SQLite) and to refuse no write before the kill, and [update]
      to assign; the other theorems that replay events assume that [apply] does
      not panic.
    - The task of an actor: the start loop ends ([start_loop_terminates]), its
      creator is answered once ([creator_is_told_exactly_once]), and the traces
      of a stop, a failure and a failing start are exact; an actor that only
      handles messages is the fold of its handler
      ([actor_is_a_fold_of_its_handler]) and serves every message.
    - A tree of actors stops from below: who left [run] or confirmed has no
      running descendant ([stopped_actor_has_no_running_descendant]), and the
      stop needs a bounded number of steps and is never blocked
      ([stop_of_a_tree_ends]).
    - An actor serves its mailbox in order, each message once, and an ask
      returns what the handler returned for its message
      ([mailbox_serves_in_order], [ask_gets_the_answer_to_its_message]); a
      parent and its child are runs of the single task whatever the interleaving
      ([family_runs_are_runner_runs]), and a stop waits for the child; a
      subscriber is told of the events in order, up to the lag
      ([sink_notifies_in_order]).
    - A shutdown asks the roots that it finds to stop, from the last, whatever
      runs besides, and when it has finished each of them has confirmed or its
      task has ended ([shutdown_stops_every_root]); a root that confirmed may go
      on, after post_stop to its end or to a restart.
    - The three backends are finite maps to their users and pass the suite of
      tests of the workspace ([backends_pass_the_suite]); a store on SQLite is
      isolated from the others of its table, because of the clauses of the
      statements; paths round-trip through their text
      and their relations are the ones of the tree; the registry only holds
      actors that were created, whatever the interleaving.
    - Where the code does not do what it means to, a theorem states what it
      does: the first event that recovery skips, the state kept after a failed
      persist, the state kept by a light persist that
      crashed, the snapshot written in the clear, the purge that keeps the
      counter, the restarted child that hears nothing, the root that restarts
      when stopped, the full stop channel, the race of two creations, the
      shutdown that gives up, the deadlock of an actor that creates a root while
      the shutdown stops it, the root that comes too late for it, the fault of a
      child whose parent is stopping, the second of two stop requests, the
      RocksDB keys of a longer prefix.

    ** Bounds

    Recursion is structural, except [turns] and [drive], which take a number of
    steps: [turns_left] turns are proved enough for the start loop, and any fuel
    above the retries of the strategy for a retry actor. Event numbers are
    [u64]s; the theorems on the log assume room for one more event. A crash is a
    number of writes, each of which the backend makes or does not make as a whole.

    ** Not modelled

    Logging; the wall-clock time of the waits; the re-exports of the crate roots;
    what the I/O of the external databases does when it fails, beyond the error
    that the backends make of it; SQL beyond the statements that occur, and tables
    whose names would need quotes; the lifetime cast of the RocksDB iterator. The
    steps of [Runner] are those of one actor, whose other children and parents
    are labels and observations, its children being assumed to answer a stop or
    to have ended; [Family] joins the errors, faults and stops of a parent and one
    child, and [Tree] the stops of any number of actors, whose faults stay labels:
    its theorems are about actors whose hooks do not fail or stop themselves and
    create no child after their start. The default [flush] of the storage traits
    does nothing and has no definition, and [stop] is that of [Suite]; those of
    SQLite and memory are the default ones. *)

From stdpp Require Export base tactics list list_numbers gmap strings sorting fin_maps pretty.
From Stdlib Require Export NArith ZArith Lia.
From Stdlib Require Export Ascii.
From Stdlib Require Export Strings.Byte.

#[global] Open Scope stdpp_scope.

(** ** Automation *)

Create HintDb rush discriminated.
Create Rewrite HintDb rush_str.

(** [case_all] destructs every match or conditional of the goal, keeping the
    equations. *)
Ltac case_all :=
  repeat (case_match; simplify_eq/=; try done).

(** [split_and_all] splits conjunctions and closes what is immediate. *)
Ltac split_and_all := repeat split; try done; auto with rush.

(** ** Fallible computations

    A Rust function that returns [Result<A, E>] has three outcomes here: [Ok],
    [Err], and [Panic] where a slice, an arithmetic operation or an [expect]
    unwinds. The [?] operator of Rust is the bind. *)

Inductive outcome (E A : Type) : Type :=
| Ok (a : A)
| Err (e : E)
| Panic.
Arguments Ok {E A} a.
Arguments Err {E A} e.
Arguments Panic {E A}.

#[global] Instance outcome_ret {E} : MRet (outcome E) := fun A a => Ok a.

#[global] Instance outcome_bind {E} : MBind (outcome E) := fun A B f m =>
  match m with
  | Ok a => f a
  | Err e => Err e
  | Panic => Panic
  end.

#[global] Instance outcome_fmap {E} : FMap (outcome E) := fun A B f m =>
  match m with
  | Ok a => Ok (f a)
  | Err e => Err e
  | Panic => Panic
  end.

(** [Result::map_err]. *)
Definition map_err {E F A} (f : E -> F) (m : outcome E A) : outcome F A :=
  match m with
  | Ok a => Ok a
  | Err e => Err (f e)
  | Panic => Panic
  end.

(** [Result::is_ok], on a result that is known not to have unwound. *)
Definition is_ok {E A} (m : outcome E A) : bool :=
  match m with Ok _ => true | _ => false end.

Definition no_panic {E A} (m : outcome E A) : Prop :=
  match m with Panic => False | _ => True end.

Lemma bind_Ok {E A B} (f : A -> outcome E B) (m : outcome E A) b :
  m ≫= f = Ok b <-> exists a, m = Ok a /\ f a = Ok b.
Proof.
  destruct m as [a|e|]; cbn; (split; [|intros (a' & ? & ?); congruence]);
    intros; eauto; discriminate.
Qed.

Lemma map_err_Ok {E F A} (f : E -> F) (m : outcome E A) a :
  map_err f m = Ok a <-> m = Ok a.
Proof. destruct m; cbn; split; congruence. Qed.

(** ** Stateful fallible computations

    [stM S E A] is a method with [&mut self]: the state reached so far is kept
    when the computation returns early, as a Rust method's mutations are. *)

Definition stM (S E A : Type) : Type := S -> S * outcome E A.

#[global] Instance stM_ret {S E} : MRet (stM S E) := fun A a s => (s, Ok a).

#[global] Instance stM_bind {S E} : MBind (stM S E) := fun A B f m s =>
  match m s with
  | (s', Ok a) => f a s'
  | (s', Err e) => (s', Err e)
  | (s', Panic) => (s', Panic)
  end.

Definition getM {S E} : stM S E S := fun s => (s, Ok s).
Definition modifyM {S E} (f : S -> S) : stM S E unit := fun s => (f s, Ok tt).
Definition liftM {S E A} (m : outcome E A) : stM S E A := fun s => (s, m).
Definition errM {S E A} (e : E) : stM S E A := fun s => (s, Err e).

(** A call that changes the state and whose error is mapped. *)
Definition callM {S X E A} (err : X -> E) (f : S -> S * outcome X A) : stM S E A := fun s =>
  let '(s', r) := f s in (s', map_err err r).

(** The result of a call as a value, for a [match] on it: only a panic goes on
    unwinding. *)
Definition tryM {S E A} (m : stM S E A) : stM S E (outcome E A) := fun s =>
  match m s with
  | (s', Panic) => (s', Panic)
  | (s', r) => (s', Ok r)
  end.

Lemma stM_bind_Ok {S E A B} (f : A -> stM S E B) (m : stM S E A) s s1 a :
  m s = (s1, Ok a) -> (m ≫= f) s = f a s1.
Proof. intros Hm. unfold mbind, stM_bind. by rewrite Hm. Qed.

Lemma stM_bind_Err {S E A B} (f : A -> stM S E B) (m : stM S E A) s s1 e :
  m s = (s1, Err e) -> (m ≫= f) s = (s1, Err e).
Proof. intros Hm. unfold mbind, stM_bind. by rewrite Hm. Qed.

(** ** Machine integers

    [u64] and [usize] (64 bits) are [N]; [isize] is [Z]. A build either checks
    arithmetic overflow (the debug profile: it panics) or wraps around. *)

Class BuildMode := { overflow_checks : bool }.

Definition u64_size : N := 18446744073709551616.

(** [lia] on goals that mention the width. *)
Ltac u64_lia := unfold u64_size in *; zify; Z.to_euclidean_division_equations; lia.

(** [n + 1] on [u64]. *)
Definition u64_succ {E} `{BuildMode} (n : N) : outcome E N :=
  if decide (n + 1 < u64_size)%N then Ok (n + 1)%N
  else if overflow_checks then Panic else Ok 0%N.

Definition isize_min : Z := -9223372036854775808.
Definition isize_max : Z := 9223372036854775807.

(** [isize::abs]. *)
Definition isize_abs {E} `{BuildMode} (q : Z) : outcome E Z :=
  if decide (q = isize_min) then (if overflow_checks then Panic else Ok isize_min)
  else Ok (Z.abs q).

Lemma u64_succ_Ok {E} `{BuildMode} n :
  (n + 1 < u64_size)%N -> u64_succ (E:=E) n = Ok (n + 1)%N.
Proof. intros. unfold u64_succ. by rewrite decide_True. Qed.

(** ** Bytes and text

    A Rust [String] is its UTF-8 bytes: a [string] of the standard library,
    whose characters are bytes. *)

Definition bytes : Type := list Byte.byte.

#[global] Instance byte_eq_dec : EqDecision Byte.byte := Byte.byte_eq_dec.

(** [str::starts_with]. *)
Definition starts_with (s p : string) : bool := String.prefix p s.

(** [str::split] on an ASCII separator. *)
Fixpoint split_on (sep : ascii) (s : string) : list string :=
  match s with
  | EmptyString => [EmptyString]
  | String c r =>
      if decide (c = sep) then EmptyString :: split_on sep r
      else match split_on sep r with
           | [] => [String c EmptyString]
           | t :: ts => String c t :: ts
           end
  end.

(** [[String]::join] with a separator. *)
Fixpoint join (sep : string) (l : list string) : string :=
  match l with
  | [] => EmptyString
  | [t] => t
  | t :: ts => t +:+ sep +:+ join sep ts
  end.

(** The ASCII characters with the property White_Space. *)
Definition is_ascii_space (c : ascii) : bool :=
  let n := N_of_ascii c in ((9 <=? n) && (n <=? 13) || (n =? 32))%N.

(** The non-ASCII White_Space characters, as UTF-8: U+0085 and U+00A0 take two
    bytes, U+1680, U+2000 to U+200A, U+2028, U+2029, U+202F, U+205F and U+3000
    three. *)
Definition is_space2 (a b : ascii) : bool :=
  let x := N_of_ascii a in let y := N_of_ascii b in
  ((x =? 194) && ((y =? 133) || (y =? 160)))%N.

Definition is_space3 (a b c : ascii) : bool :=
  let x := N_of_ascii a in let y := N_of_ascii b in let z := N_of_ascii c in
  ((x =? 225) && (y =? 154) && (z =? 128)
   || (x =? 226) && (y =? 128)
        && ((128 <=? z) && (z <=? 138) || (z =? 168) || (z =? 169) || (z =? 175))
   || (x =? 226) && (y =? 129) && (z =? 159)
   || (x =? 227) && (y =? 128) && (z =? 128))%N.

(** [s.trim().is_empty()]: every character of [s] is White_Space. *)
Fixpoint is_blank (s : string) : bool :=
  match s with
  | EmptyString => true
  | String a r =>
      if is_ascii_space a then is_blank r
      else match r with
           | String b r2 =>
               if is_space2 a b then is_blank r2
               else match r2 with
                    | String c r3 => if is_space3 a b c then is_blank r3 else false
                    | EmptyString => false
                    end
           | EmptyString => false
           end
  end.

(** A continuation byte [10xxxxxx]: an offset before one is not a character
    boundary. *)
Definition is_continuation (c : ascii) : bool :=
  let n := N_of_ascii c in ((128 <=? n) && (n <? 192))%N.

(** The text does not start inside a character, which every UTF-8 text
    satisfies. *)
Definition str_head_ok (s : string) : bool :=
  match s with String c _ => negb (is_continuation c) | EmptyString => true end.

(** [&s[n..]]: panics past the end and inside a character. *)
Fixpoint slice_from {E} (s : string) (n : nat) : outcome E string :=
  match n, s with
  | O, _ => if str_head_ok s then Ok s else Panic
  | S n', String _ r => slice_from r n'
  | S _, EmptyString => Panic
  end.

(** ** UTF-8

    [str::from_utf8] with the position and the length of what it rejects. *)

(** The second byte that may follow the first byte [x] of a three-byte
    character. *)
Definition utf8_second3 (x : N) (b : ascii) : bool :=
  let y := N_of_ascii b in
  (if x =? 224 then (160 <=? y) && (y <? 192)
   else if x =? 237 then (128 <=? y) && (y <? 160)
   else (128 <=? y) && (y <? 192))%N.

(** The same for a four-byte character. *)
Definition utf8_second4 (x : N) (b : ascii) : bool :=
  let y := N_of_ascii b in
  (if x =? 240 then (144 <=? y) && (y <? 192)
   else if x =? 244 then (128 <=? y) && (y <? 144)
   else (128 <=? y) && (y <? 192))%N.

(** The number of bytes of a character, from its first byte. *)
Definition utf8_width (x : N) : nat :=
  if (x <? 128)%N then 1
  else if ((194 <=? x) && (x <? 224))%N then 2
  else if ((224 <=? x) && (x <? 240))%N then 3
  else if ((240 <=? x) && (x <? 245))%N then 4
  else 0.

(** The first error at or after the offset [i], where [s] starts: its offset and
    the number of bytes to skip, [None] when the text ends inside a character. *)
Fixpoint utf8_error (i : N) (s : string) : option (N * option N) :=
  match s with
  | EmptyString => None
  | String a r =>
      let x := N_of_ascii a in
      match utf8_width x with
      | 1 => utf8_error (i + 1) r
      | 2 =>
          match r with
          | EmptyString => Some (i, None)
          | String b r =>
              if is_continuation b then utf8_error (i + 2) r else Some (i, Some 1%N)
          end
      | 3 =>
          match r with
          | EmptyString => Some (i, None)
          | String b r =>
              if utf8_second3 x b then
                match r with
                | EmptyString => Some (i, None)
                | String c r =>
                    if is_continuation c then utf8_error (i + 3) r else Some (i, Some 2%N)
                end
              else Some (i, Some 1%N)
          end
      | 4 =>
          match r with
          | EmptyString => Some (i, None)
          | String b r =>
              if utf8_second4 x b then
                match r with
                | EmptyString => Some (i, None)
                | String c r =>
                    if is_continuation c then
                      match r with
                      | EmptyString => Some (i, None)
                      | String d r =>
                          if is_continuation d then utf8_error (i + 4) r
                          else Some (i, Some 3%N)
                      end
                    else Some (i, Some 2%N)
                end
              else Some (i, Some 1%N)
          end
      | _ => Some (i, Some 1%N)
      end
  end.

Definition is_utf8 (s : string) : bool :=
  match utf8_error 0 s with None => true | Some _ => false end.

(** [String::from_utf8], with the text of its error. *)
Definition from_utf8 (b : string) : outcome string string :=
  match utf8_error 0 b with
  | None => Ok b
  | Some (i, Some n) =>
      Err ("invalid utf-8 sequence of " +:+ pretty n +:+ " bytes from index " +:+ pretty i)
  | Some (i, None) => Err ("incomplete utf-8 byte sequence from index " +:+ pretty i)
  end.

(** [Display] of the error of a lock that a panicking thread left poisoned. *)
Definition poison_message : string := "poisoned lock: another task failed inside".

(** ** Decimal numbers *)

(** The digit [d] as a character. *)
Definition digit (d : N) : ascii := ascii_of_N (48 + d).

(** [n] in decimal on exactly [w] digits, put before [acc]. *)
Fixpoint fmt_go (w : nat) (n : N) (acc : string) : string :=
  match w with
  | O => acc
  | S w' => fmt_go w' (n / 10)%N (String (digit (n mod 10)) acc)
  end.

(** [format!("{:020}", n)]: zero-padded to 20 digits, which every [u64] fits. *)
Definition fmt020 (n : N) : string := fmt_go 20 n EmptyString.
#[global] Arguments fmt020 : simpl never.

(** The value of a decimal digit. *)
Definition digit_val (c : ascii) : option N :=
  let n := N_of_ascii c in
  if decide (48 <= n /\ n <= 57)%N then Some (n - 48)%N else None.

(** The loop of [u64::from_str]: multiply and add; the error names the cause as
    [ParseIntError] prints it. *)
Fixpoint parse_go (acc : N) (s : string) : outcome string N :=
  match s with
  | EmptyString => Ok acc
  | String c r =>
      match digit_val c with
      | Some d =>
          let v := (acc * 10 + d)%N in
          if decide (v < u64_size)%N then parse_go v r
          else Err "number too large to fit in target type"
      | None => Err "invalid digit found in string"
      end
  end.

(** [str::parse::<u64>]: a leading plus sign is skipped and at least one digit
    is needed. *)
Definition parse_u64 (s : string) : outcome string N :=
  match s with
  | EmptyString => Err "cannot parse integer from empty string"
  | String c r =>
      match (if decide (c = "+"%char) then r else s) with
      | EmptyString => Err "invalid digit found in string"
      | ds => parse_go 0 ds
      end
  end.

(** ** Lemmas on text *)

Lemma append_cons c (a b : string) : String c a +:+ b = String c (a +:+ b).
Proof. done. Qed.

Lemma append_nil_l (a : string) : EmptyString +:+ a = a.
Proof. done. Qed.

Lemma append_assoc (a b c : string) : (a +:+ b) +:+ c = a +:+ (b +:+ c).
Proof. induction a as [|x a IH]; [done|]. by rewrite !append_cons, IH. Qed.

Lemma append_nil_r (a : string) : a +:+ EmptyString = a.
Proof. induction a as [|x a IH]; [done|]. by rewrite append_cons, IH. Qed.

Lemma length_append (a b : string) :
  String.length (a +:+ b) = String.length a + String.length b.
Proof. induction a as [|x a IH]; [done|]. rewrite append_cons. cbn. by rewrite IH. Qed.

#[export] Hint Rewrite append_assoc append_nil_r append_cons length_append : rush_str.

Lemma starts_with_spec s p : starts_with s p = true <-> exists r, s = p +:+ r.
Proof.
  unfold starts_with. revert s. induction p as [|c p IH]; intros s.
  { split; [by exists s|by destruct s]. }
  destruct s as [|d s]; [split; [done|intros [r Hr]; done]|]. cbn.
  destruct (ascii_dec c d) as [->|Hne].
  - rewrite IH. setoid_rewrite append_cons. naive_solver.
  - setoid_rewrite append_cons. naive_solver.
Qed.

Lemma starts_with_app p r : starts_with (p +:+ r) p = true.
Proof. apply starts_with_spec. eauto. Qed.

Lemma starts_with_refl p : starts_with p p = true.
Proof. apply starts_with_spec. exists EmptyString. by rewrite append_nil_r. Qed.

Lemma slice_from_app {E} p r :
  str_head_ok r = true -> slice_from (E:=E) (p +:+ r) (String.length p) = Ok r.
Proof.
  intros Hr. induction p as [|c p IH]; [|done]. rewrite append_nil_l.
  by destruct r; cbn in *; rewrite ?Hr.
Qed.

(** Comparison is lexicographic on bytes, so a shared prefix does not count. *)
Lemma compare_app p a b : String.compare (p +:+ a) (p +:+ b) = String.compare a b.
Proof.
  induction p as [|c p IH]; [done|]. rewrite !append_cons. cbn.
  unfold Ascii.compare. by rewrite N.compare_refl.
Qed.

Lemma le_app p a b : String.le (p +:+ a) (p +:+ b) <-> String.le a b.
Proof. unfold String.le, String.leb. by rewrite compare_app. Qed.

(** ** Lemmas on decimal numbers *)

Lemma digit_val_digit d : (d < 10)%N -> digit_val (digit d) = Some d.
Proof.
  intros Hd. unfold digit_val, digit. rewrite N_ascii_embedding by lia.
  rewrite decide_True by lia. f_equal. lia.
Qed.

Lemma fmt_go_app w n acc : fmt_go w n acc = fmt_go w n EmptyString +:+ acc.
Proof.
  revert n acc. induction w as [|w IH]; intros n acc; [done|]. cbn [fmt_go].
  rewrite IH, (IH _ (String _ EmptyString)), append_assoc. done.
Qed.

Lemma length_fmt_go w n acc : String.length (fmt_go w n acc) = w + String.length acc.
Proof.
  revert n acc. induction w as [|w IH]; intros n acc; [done|]. cbn [fmt_go].
  rewrite IH. cbn. lia.
Qed.

Lemma pow10_S w : (10 ^ N.of_nat (S w) = 10 * 10 ^ N.of_nat w)%N.
Proof. rewrite Nat2N.inj_succ, N.pow_succ_r'. done. Qed.

Lemma div10_lt w n : (n < 10 ^ N.of_nat (S w) -> n / 10 < 10 ^ N.of_nat w)%N.
Proof. rewrite pow10_S. intros. apply N.Div0.div_lt_upper_bound; lia. Qed.

Lemma parse_go_fmt w a n s :
  (n < 10 ^ N.of_nat w)%N -> (a * 10 ^ N.of_nat w + n < u64_size)%N ->
  parse_go a (fmt_go w n s) = parse_go (a * 10 ^ N.of_nat w + n) s.
Proof.
  revert a n s. induction w as [|w IH]; intros a n s Hn Hb.
  { cbn in *. f_equal. lia. }
  pose proof (div10_lt _ _ Hn) as Hd.
  pose proof (N.Div0.div_mod n 10) as Hdm.
  pose proof (N.mod_lt n 10 ltac:(done)) as Hm.
  rewrite pow10_S in *. cbn [fmt_go].
  replace (a * (10 * 10 ^ N.of_nat w))%N with (10 * (a * 10 ^ N.of_nat w))%N in * by ring.
  rewrite IH; [|done|]; generalize dependent (a * 10 ^ N.of_nat w)%N; intros ap Hb; [|u64_lia].
  cbn [parse_go]. rewrite digit_val_digit by done. cbn zeta.
  rewrite decide_True by u64_lia. f_equal. lia.
Qed.

(** The printed width keeps the numeric order as the byte order. *)
Lemma fmt_go_lt w n m s t :
  (n < m)%N -> (m < 10 ^ N.of_nat w)%N ->
  String.compare (fmt_go w n s) (fmt_go w m t) = Lt.
Proof.
  revert n m s t. induction w as [|w IH]; intros n m s t Hlt Hm.
  { cbn in Hm. lia. }
  pose proof (div10_lt _ _ Hm) as Hd.
  pose proof (N.Div0.div_mod n 10). pose proof (N.Div0.div_mod m 10).
  pose proof (N.mod_lt n 10 ltac:(done)). pose proof (N.mod_lt m 10 ltac:(done)).
  cbn [fmt_go].
  destruct (N.lt_ge_cases (n / 10) (m / 10)) as [Hq|Hq]; [by apply IH|].
  assert (n / 10 = m / 10)%N as Hqq by u64_lia.
  rewrite <- Hqq.
  rewrite fmt_go_app, (fmt_go_app _ _ (String (digit (m mod 10)) t)), compare_app.
  cbn. unfold Ascii.compare, digit. rewrite !N_ascii_embedding by lia.
  replace (48 + n mod 10 ?= 48 + m mod 10)%N with Lt; [done|].
  symmetry. apply N.compare_lt_iff. u64_lia.
Qed.

Lemma u64_fits20 n : (n < u64_size)%N -> (n < 10 ^ N.of_nat 20)%N.
Proof. intros. transitivity u64_size; [done|]. done. Qed.

Lemma fmt_head w n acc : 0 < w -> exists d r, (d < 10)%N /\ fmt_go w n acc = String (digit d) r.
Proof.
  revert n acc. induction w as [|w IH]; intros n acc Hw; [lia|]. cbn [fmt_go].
  destruct w as [|w].
  - exists (n mod 10)%N, acc. split; [by apply N.mod_lt|done].
  - apply IH. lia.
Qed.

Lemma digit_cases (P : ascii -> Prop) d :
  (d < 10)%N ->
  P "0"%char -> P "1"%char -> P "2"%char -> P "3"%char -> P "4"%char ->
  P "5"%char -> P "6"%char -> P "7"%char -> P "8"%char -> P "9"%char ->
  P (digit d).
Proof.
  intros Hd. intros.
  assert (d = 0 \/ d = 1 \/ d = 2 \/ d = 3 \/ d = 4 \/ d = 5 \/ d = 6 \/ d = 7
          \/ d = 8 \/ d = 9)%N as Hc by lia.
  by destruct_or! Hc; subst d.
Qed.

(** Printing then parsing gives the number back. *)
Lemma parse_fmt020 n : (n < u64_size)%N -> parse_u64 (fmt020 n) = Ok n.
Proof.
  intros Hn. destruct (fmt_head 20 n EmptyString) as (d & r & Hd & Hf); [lia|].
  unfold fmt020, parse_u64. rewrite Hf.
  rewrite decide_False; cycle 1.
  { by apply (digit_cases (fun c => c <> "+"%char)). }
  rewrite <- Hf, parse_go_fmt; [done|by apply u64_fits20|lia].
Qed.

(** What is parsed is a [u64]. *)
Lemma parse_go_bound v s n : parse_go v s = Ok n -> (v < u64_size)%N -> (n < u64_size)%N.
Proof.
  revert v. induction s as [|c s IH]; intros v; cbn; [by intros [= <-]|].
  repeat case_match; try done. intros Hp _. by eapply IH.
Qed.

Lemma parse_u64_bound s n : parse_u64 s = Ok n -> (n < u64_size)%N.
Proof.
  unfold parse_u64. repeat case_match; try done; intros Hp; by eapply parse_go_bound.
Qed.

Lemma u64_succ_bound {E} `{BuildMode} n m : u64_succ (E:=E) n = Ok m -> (m < u64_size)%N.
Proof. unfold u64_succ. repeat case_match; by intros [= <-]. Qed.

Lemma fmt020_inj n m :
  (n < u64_size)%N -> (m < u64_size)%N -> fmt020 n = fmt020 m -> n = m.
Proof.
  intros Hn Hm Heq. pose proof (parse_fmt020 n Hn) as H.
  rewrite Heq, parse_fmt020 in H by done. by inv H.
Qed.

Lemma fmt020_lt n m :
  (n < m)%N -> (m < u64_size)%N -> String.compare (fmt020 n) (fmt020 m) = Lt.
Proof. intros. apply fmt_go_lt; [done|]. by apply u64_fits20. Qed.

(** ** Lemmas on UTF-8 *)

Lemma utf8_error_app a b i j :
  utf8_error i a = None ->
  utf8_error j (a +:+ b) = utf8_error (j + N.of_nat (String.length a)) b.
Proof.
  remember (String.length a) as n eqn:Hn. revert a i j Hn.
  induction n as [n IH] using lt_wf_ind. intros a i j Hn Ha.
  assert (forall w r k, n = w + String.length r -> w <> 0 -> utf8_error k r = None ->
    utf8_error (j + N.of_nat w) (r +:+ b) = utf8_error (j + N.of_nat n) b) as Hgo.
  { intros w r k Hw Hz Hr. rewrite (IH (String.length r)) with (i:=k); [f_equal; lia|lia|done|done]. }
  clear IH. 
  destruct a as [|x r]; [cbn in *; subst n; by rewrite N.add_0_r|].
  rewrite append_cons. cbn [utf8_error] in *.
  destruct (utf8_width (N_of_ascii x)) as [|[|[|[|[|w]]]]]; try done.
  - eapply (Hgo 1); [cbn in *; lia|done|exact Ha].
  - destruct r as [|x2 r]; [done|]. rewrite append_cons. case_match; [|done].
    eapply (Hgo 2); [cbn in *; lia|done|exact Ha].
  - destruct r as [|x2 r]; [done|]. rewrite append_cons. case_match; [|done].
    destruct r as [|x3 r]; [done|]. rewrite append_cons. case_match; [|done].
    eapply (Hgo 3); [cbn in *; lia|done|exact Ha].
  - destruct r as [|x2 r]; [done|]. rewrite append_cons. case_match; [|done].
    destruct r as [|x3 r]; [done|]. rewrite append_cons. case_match; [|done].
    destruct r as [|x4 r]; [done|]. rewrite append_cons. case_match; [|done].
    eapply (Hgo 4); [cbn in *; lia|done|exact Ha].
Qed.

Lemma is_utf8_app a b : is_utf8 a = true -> is_utf8 (a +:+ b) = is_utf8 b.
Proof.
  unfold is_utf8. intros Ha. destruct (utf8_error 0 a) eqn:He; [done|].
  rewrite (utf8_error_app a b 0 0 He), N.add_0_l.
  destruct (utf8_error 0 b) as [e|] eqn:Hb.
  - destruct (utf8_error (N.of_nat _) b) eqn:Hb'; [done|].
    pose proof (utf8_error_app b EmptyString _ 0 Hb') as H.
    rewrite append_nil_r in H. cbn in H. congruence.
  - rewrite <- (append_nil_r b). by rewrite (utf8_error_app b EmptyString _ _ Hb).
Qed.

Lemma is_utf8_head s : is_utf8 s = true -> str_head_ok s = true.
Proof.
  unfold is_utf8. destruct s as [|c s]; [done|]. cbn.
  unfold is_continuation. destruct (utf8_width (N_of_ascii c)) eqn:Hw; [done|].
  intros _. revert Hw. unfold utf8_width. generalize (N_of_ascii c). intros x.
  repeat case_match; intros [=]; subst; cbn; try done;
  repeat match goal with H : _ && _ = true |- _ => apply andb_true_iff in H as [? ?] end;
  rewrite ?N.leb_le, ?N.ltb_lt in *; destruct (128 <=? x)%N eqn:E1, (x <? 192)%N eqn:E2; cbn; try done;
  rewrite ?N.leb_le, ?N.ltb_lt, ?N.leb_gt, ?N.ltb_ge in *; lia.
Qed.

Lemma from_utf8_ok s : is_utf8 s = true -> from_utf8 s = Ok s.
Proof. unfold is_utf8, from_utf8. by destruct (utf8_error 0 s). Qed.

Lemma is_utf8_digits w n acc : is_utf8 acc = true -> is_utf8 (fmt_go w n acc) = true.
Proof.
  revert n acc. induction w as [|w IH]; intros n acc Ha; [done|]. cbn [fmt_go]. apply IH.
  change (is_utf8 (String (digit (n mod 10)) EmptyString +:+ acc) = true).
  rewrite is_utf8_app; [done|].
  apply (digit_cases (fun c => is_utf8 (String c EmptyString) = true)); [by apply N.mod_lt|done..].
Qed.

Lemma fmt020_utf8 n : is_utf8 (fmt020 n) = true.
Proof. by apply is_utf8_digits. Qed.

(** ** The byte order on text *)

Definition str_lt (a b : string) : Prop := String.compare a b = Lt.

#[global] Instance str_lt_dec : RelDecision str_lt.
Proof. intros a b. unfold str_lt. apply _. Defined.

Lemma str_lt_le a b : str_lt a b <-> String.le a b /\ a <> b.
Proof.
  unfold str_lt, String.le, String.leb. split.
  - intros Hc. rewrite Hc. split; [done|]. intros ->.
    pose proof (compare_app b "" "") as He. rewrite !append_nil_r in He.
    rewrite He in Hc. done.
  - intros [Hl Hn]. destruct (String.compare a b) eqn:Hc; [|done..].
    by apply String.compare_eq_iff in Hc.
Qed.

#[global] Instance str_lt_strict : StrictOrder str_lt.
Proof.
  split.
  - intros a [_ Ha]%str_lt_le. done.
  - intros a b c [Hab Hn]%str_lt_le [Hbc Hn']%str_lt_le. apply str_lt_le.
    split; [by etrans|]. intros ->. apply Hn. by apply (anti_symm String.le).
Qed.

Lemma str_lt_gt a b : String.compare a b = Gt <-> str_lt b a.
Proof.
  unfold str_lt. rewrite (String.compare_antisym a b).
  destruct (String.compare b a); cbn; split; congruence.
Qed.

Lemma str_lt_total a b : str_lt a b \/ a = b \/ str_lt b a.
Proof.
  destruct (String.compare a b) eqn:Hc; [right; left|by left|right; right].
  - by apply String.compare_eq_iff.
  - by apply str_lt_gt.
Qed.

Lemma str_lt_app p a b : str_lt (p +:+ a) (p +:+ b) <-> str_lt a b.
Proof. unfold str_lt. by rewrite compare_app. Qed.

(** ** Lists sorted by a strict order *)

Lemma StronglySorted_app_inv {A} (R : relation A) l1 l2 :
  StronglySorted R (l1 ++ l2) -> forall x y, x ∈ l1 -> y ∈ l2 -> R x y.
Proof.
  induction l1 as [|z l1 IH]; intros Hs x y Hx Hy; [by apply not_elem_of_nil in Hx|].
  inv Hs. apply elem_of_cons in Hx as [->|Hx]; [|by eapply IH].
  match goal with H : Forall _ _ |- _ => rewrite Forall_forall in H; apply H end.
  apply elem_of_app. by right.
Qed.

Lemma StronglySorted_reverse {A} (R : relation A) l :
  StronglySorted R l -> StronglySorted (flip R) (reverse l).
Proof.
  induction l as [|x l IH]; intros Hs; [by rewrite reverse_nil; constructor|].
  inv Hs. rewrite reverse_cons.
  match goal with H : Forall _ _ |- _ => rename H into Hf end.
  match goal with H : StronglySorted _ _ |- _ => specialize (IH H) end.
  assert (Forall (R x) (reverse l)) as Hr by (by apply Forall_reverse).
  clear Hf. induction (reverse l) as [|y k IHk]; cbn.
  - repeat constructor.
  - inv IH. inv Hr. constructor; [by apply IHk|].
    apply Forall_app. split; [done|by repeat constructor].
Qed.

(** A filter that keeps everything. *)
Lemma filter_all {A} (f : A -> bool) l : Forall (fun x => f x = true) l -> List.filter f l = l.
Proof. induction 1 as [|x l Hx Hl IH]; [done|]. cbn. by rewrite Hx, IH. Qed.
