(* ===== verification/Path.v ===== *)
(** * Actor paths (actor/src/path.rs)

    An [ActorPath] is the list of the keys from the root of the actor tree down
    to an actor. The module follows the [impl] blocks of the source: the
    accessors, the relations between two paths (some of which the code decides
    on the printed text), parsing from text, extension with [/] and printing. *)

From S2P Require Import Prelude.

(** [struct ActorPath(Vec<String>)]. *)
Record ActorPath : Type := mk_path { tokens : list string }.

#[global] Instance ActorPath_eq_dec : EqDecision ActorPath.
Proof. solve_decision. Defined.

#[global] Instance ActorPath_countable : Countable ActorPath.
Proof. apply (inj_countable' tokens mk_path). by intros []. Defined.

Module ActorPath.

(** [level]: the number of keys. *)
Definition level (p : ActorPath) : nat := length (tokens p).

Definition root (p : ActorPath) : ActorPath :=
  if decide (length (tokens p) = 1) then p
  else if decide (tokens p <> []) then mk_path (take 1 (tokens p))
  else mk_path [].

Definition parent (p : ActorPath) : ActorPath :=
  if decide (1 < length (tokens p))
  then mk_path (take (length (tokens p) - 1) (tokens p))
  else mk_path [].

Definition key (p : ActorPath) : string := default "" (last (tokens p)).

Definition is_top_level (p : ActorPath) : bool := bool_decide (length (tokens p) = 1).

Definition is_empty (p : ActorPath) : bool := bool_decide (tokens p = []).

Definition at_level (p : ActorPath) (lvl : nat) : ActorPath :=
  if decide (lvl < 1 \/ level p <= lvl) then p
  else if is_top_level p then root p
  else if decide (lvl = level p - 1) then parent p
  else mk_path (take lvl (tokens p)).

(** [Display] (and [Debug], which prints the same text). *)
Definition to_string (p : ActorPath) : string :=
  match tokens p with
  | [] => "/"
  | [t] => "/" +:+ t
  | ts => "/" +:+ join "/" ts
  end.

Definition is_ancestor_of (p other : ActorPath) : bool :=
  starts_with (to_string other) (to_string p +:+ "/").

Definition is_descendant_of (p other : ActorPath) : bool :=
  starts_with (to_string p) (to_string other +:+ "/").

Definition is_parent_of (p other : ActorPath) : bool := bool_decide (p = parent other).

Definition is_child_of (p other : ActorPath) : bool := bool_decide (parent p = other).

(** The keys of a text: what [/] separates, without the blank pieces. *)
Definition keys_of (s : string) : list string :=
  List.filter (fun x => negb (is_blank x)) (split_on "/" s).

(** [From<&str>]; [From<String>] and [From<&String>] call it. *)
Definition from (s : string) : ActorPath := mk_path (keys_of s).

(** [Div<&str>]: [path / text]. *)
Definition div (p : ActorPath) (rhs : string) : ActorPath :=
  mk_path (tokens p ++ keys_of rhs).

(** ** Well-formed paths *)

(** No separator inside the text. *)
Fixpoint slash_free (s : string) : bool :=
  match s with
  | EmptyString => true
  | String c r => negb (bool_decide (c = "/"%char)) && slash_free r
  end.

(** A key as the parser produces it. *)
Definition key_ok (t : string) : bool := slash_free t && negb (is_blank t).

Definition wf (p : ActorPath) : Prop := Forall (fun t => key_ok t = true) (tokens p).

(** ** Parsing *)

Lemma slash_free_cons c s :
  slash_free (String c s) = true <-> c <> "/"%char /\ slash_free s = true.
Proof.
  cbn. rewrite andb_true_iff, negb_true_iff, bool_decide_eq_false. done.
Qed.

Lemma split_on_slash_free s : Forall (fun t => slash_free t = true) (split_on "/" s).
Proof.
  induction s as [|c s IH]; [by repeat constructor|]. cbn [split_on].
  case_decide as Hc; [by constructor|].
  destruct (split_on "/" s) as [|t ts].
  - repeat constructor. by apply slash_free_cons.
  - inv IH. constructor; [|done]. by apply slash_free_cons.
Qed.

Lemma keys_of_ok s : Forall (fun t => key_ok t = true) (keys_of s).
Proof.
  apply Forall_forall. intros t Ht. unfold keys_of in Ht.
  apply list_elem_of_In, List.filter_In in Ht. destruct Ht as [Hin Hb].
  pose proof (split_on_slash_free s) as Hs. rewrite Forall_forall in Hs.
  unfold key_ok. by rewrite Hb, Hs by by apply list_elem_of_In.
Qed.

Lemma split_on_slash_free_id t : slash_free t = true -> split_on "/" t = [t].
Proof.
  induction t as [|c t IH]; [done|]. intros [Hc Ht]%slash_free_cons.
  cbn [split_on]. by rewrite decide_False, IH.
Qed.

Lemma split_on_app t s :
  slash_free t = true -> split_on "/" (t +:+ "/" +:+ s) = t :: split_on "/" s.
Proof.
  induction t as [|c t IH]; intros Ht.
  - done.
  - apply slash_free_cons in Ht as [Hc Ht]. rewrite append_cons. cbn [split_on].
    by rewrite decide_False, IH.
Qed.

Lemma key_ok_spec t : key_ok t = true <-> slash_free t = true /\ is_blank t = false.
Proof. unfold key_ok. by rewrite andb_true_iff, negb_true_iff. Qed.

Lemma keys_of_join ts :
  Forall (fun t => key_ok t = true) ts -> keys_of (join "/" ts) = ts.
Proof.
  unfold keys_of. induction ts as [|t ts IH]; intros Hok; [done|].
  inv Hok. match goal with H : key_ok t = true |- _ => apply key_ok_spec in H as [Hs Hb] end.
  destruct ts as [|u ts].
  - cbn [join]. rewrite split_on_slash_free_id by done. cbn. by rewrite Hb.
  - cbn [join] in *. rewrite split_on_app by done. cbn [List.filter]. rewrite Hb. cbn [negb].
    f_equal. by apply IH.
Qed.

Lemma keys_of_slash s : keys_of ("/" +:+ s) = keys_of s.
Proof. done. Qed.

(** The three cases of the printer are one formula on non-empty paths. *)
Lemma to_string_nonempty p :
  tokens p <> [] -> to_string p = "/" +:+ join "/" (tokens p).
Proof. unfold to_string. by destruct (tokens p) as [|? [|??]]. Qed.

(** ** The text of a path as a fold

    [flat] prints every key with its separator, so that prefixes of texts can be
    compared key by key. *)
Fixpoint flat (ts : list string) : string :=
  match ts with
  | [] => ""
  | t :: ts => "/" +:+ t +:+ flat ts
  end.

Lemma flat_join ts : ts <> [] -> flat ts = "/" +:+ join "/" ts.
Proof.
  induction ts as [|t ts IH]; [done|]. intros _. destruct ts as [|u ts].
  - cbn [flat join]. by rewrite append_nil_r.
  - cbn [flat join] in *. by rewrite IH.
Qed.

Lemma to_string_flat p : tokens p <> [] -> to_string p = flat (tokens p).
Proof. intros. by rewrite to_string_nonempty, flat_join. Qed.

(** Two keys that are read up to the next separator are equal. *)
Lemma key_prefix t u x y :
  slash_free t = true -> slash_free u = true ->
  (y = "" \/ exists y', y = String "/" y') ->
  starts_with (u +:+ y) (t +:+ String "/" x) = true ->
  t = u /\ starts_with y (String "/" x) = true.
Proof.
  revert u. induction t as [|c t IH]; intros [|d u] Ht Hu Hy Hp.
  - done.
  - apply slash_free_cons in Hu as [Hd _]. apply starts_with_spec in Hp as [r Hr].
    rewrite append_nil_l, !append_cons in Hr. congruence.
  - apply slash_free_cons in Ht as [Hc _]. apply starts_with_spec in Hp as [r Hr].
    rewrite append_nil_l in Hr. rewrite !append_cons in Hr.
    destruct Hy as [->|[y' ->]]; congruence.
  - apply slash_free_cons in Ht as [Hc Ht], Hu as [Hd Hu].
    apply starts_with_spec in Hp as [r Hr]. rewrite !append_cons in Hr. inv Hr.
    destruct (IH u) as [-> Hs]; [done..| |done].
    apply starts_with_spec. by exists r.
Qed.

Lemma flat_head ts : flat ts = "" \/ exists s, flat ts = String "/" s.
Proof. destruct ts; [by left|right]. by eexists. Qed.

Lemma flat_app ts us : flat (ts ++ us) = flat ts +:+ flat us.
Proof.
  induction ts as [|t ts IH]; [done|]. cbn [flat app].
  by rewrite IH, !append_assoc.
Qed.

Lemma flat_prefix ts us :
  Forall (fun t => slash_free t = true) ts -> Forall (fun t => slash_free t = true) us ->
  starts_with (flat us) (flat ts +:+ "/") = true <-> exists r, r <> [] /\ us = ts ++ r.
Proof.
  revert us. induction ts as [|t ts IH]; intros us Hts Hus.
  - cbn [flat]. rewrite append_nil_l. destruct us as [|u us]; cbn.
    + split; [done|]. intros (r & Hr & He). by destruct r.
    + split; [intros _; by exists (u :: us)|intros _].
      apply starts_with_spec. by exists (u +:+ flat us).
  - inv Hts. split.
    + intros Hp. destruct us as [|u us]; [done|]. inv Hus.
      cbn [flat] in Hp. apply starts_with_spec in Hp as [x Hx].
      rewrite !append_assoc in Hx. change "/" with (String "/" "") in Hx at 1 2.
      rewrite !append_cons, !append_nil_l in Hx. inv Hx as [Hx'].
      assert (exists z, flat ts +:+ "/" = String "/" z) as [z Hz].
      { destruct (flat_head ts) as [->|[s ->]]; [by exists ""|by eexists]. }
      destruct (key_prefix t u z (flat us)) as [-> Hs]; [done..| | |].
      * apply flat_head.
      * apply starts_with_spec. exists x. by rewrite <- Hz, !append_assoc.
      * rewrite <- Hz in Hs. apply IH in Hs as (r & Hr & ->); [|done..]. by exists r.
    + intros (r & Hr & ->). apply Forall_app in Hus as [_ Hrs].
      rewrite flat_app. destruct r as [|v r]; [done|]. cbn [flat].
      apply starts_with_spec. exists (v +:+ flat r). by rewrite !append_assoc.
Qed.

Lemma wf_slash_free p : wf p -> Forall (fun t => slash_free t = true) (tokens p).
Proof. intros Hp. apply (Forall_impl _ _ _ Hp). by intros t [? ?]%key_ok_spec. Qed.

Lemma join_slash_nonempty t : key_ok t = true -> t <> "".
Proof. intros [_ Hb]%key_ok_spec ->. done. Qed.

Lemma is_ancestor_of_iff p q :
  wf p -> wf q ->
  is_ancestor_of p q = true <->
    tokens p <> [] /\ exists r, r <> [] /\ tokens q = tokens p ++ r.
Proof.
  intros Hp Hq. unfold is_ancestor_of.
  destruct (decide (tokens p = [])) as [He|He].
  { split; [|by intros []]. intros Hs. exfalso.
    unfold to_string at 2 in Hs. rewrite He in Hs. unfold wf in Hq.
    destruct q as [[|u us]]; [done|]. rewrite to_string_flat in Hs by done.
    cbn [tokens flat] in *. inv Hq.
    destruct u as [|c u]; [done|].
    match goal with H : key_ok _ = true |- _ =>
      apply key_ok_spec in H as [[Hc _]%slash_free_cons _] end.
    apply starts_with_spec in Hs as [r Hr]. by inv Hr. }
  rewrite (to_string_flat p) by done.
  destruct (decide (tokens q = [])) as [Hq0|Hq0].
  { split.
    - unfold to_string. rewrite Hq0. destruct p as [[|t ts]]; [done|]. cbn [tokens flat].
      intros [r Hr]%starts_with_spec. exfalso. unfold wf in Hp. cbn in Hp. inv Hp.
      destruct t as [|c t]; [done|]. by inv Hr.
    - intros (_ & r & Hr & Hqr). rewrite Hq0 in Hqr. by destruct (tokens p). }
  rewrite to_string_flat, flat_prefix by (done || by apply wf_slash_free).
  split; [done|by intros [_ ?]].
Qed.

Lemma wf_from s : wf (from s).
Proof. apply keys_of_ok. Qed.

(** Extending by a key appends it. *)
Lemma tokens_div p k : key_ok k = true -> tokens (div p k) = tokens p ++ [k].
Proof.
  intros [Hs Hb]%key_ok_spec. unfold div, keys_of. cbn. rewrite split_on_slash_free_id by done.
  cbn. by rewrite Hb.
Qed.

Lemma div_ne p k : key_ok k = true -> div p k <> p.
Proof.
  intros Hk Hp. apply (f_equal (fun q => length (tokens q))) in Hp.
  rewrite tokens_div, length_app in Hp by done. cbn in Hp. lia.
Qed.

Lemma wf_div p s : wf p -> wf (div p s).
Proof. intros Hp. apply Forall_app. split; [done|apply keys_of_ok]. Qed.

#[export] Hint Resolve wf_from wf_div : rush.

(** ** Properties *)

(** C28: Parsing the text of a well-formed path gives the path back. *)
Theorem from_to_string p : wf p -> from (to_string p) = p.
Proof.
  intros Hwf. destruct p as [[|t ts]]; [done|].
  unfold from. rewrite to_string_nonempty by done.
  by rewrite keys_of_slash, keys_of_join.
Qed.

(** Parsing always gives a well-formed path, and the root, the parent, an extension and a level
    of a well-formed path are well formed. *)
Theorem paths_stay_well_formed p s n :
  wf p -> wf (from s) /\ wf (root p) /\ wf (parent p) /\ wf (div p s) /\ wf (at_level p n).
Proof.
  intros Hp.
  assert (forall n, Forall (fun t => key_ok t = true) (take n (tokens p))) as Ht
    by (intros; by apply Forall_take).
  assert (wf (root p)) as Hr by (unfold root; repeat case_decide; try done; [by apply Ht|constructor]).
  assert (wf (parent p)) as Hpa by (unfold parent; case_decide; [by apply Ht|constructor]).
  split_and!; [auto with rush|done|done|auto with rush|].
  unfold at_level. repeat case_decide; [done|destruct (is_top_level p); done|].
  destruct (is_top_level p); [done|by apply Ht].
Qed.

(** at_level keeps the first n keys when n is a proper level of the path and returns the path
    itself otherwise. *)
Theorem at_level_spec p n :
  tokens (at_level p n) =
    if decide (1 <= n /\ n < level p) then take n (tokens p) else tokens p.
Proof.
  unfold at_level, is_top_level, root, parent, level. destruct p as [ts]. cbn.
  repeat (case_decide || case_bool_decide); cbn; try done; try lia.
  all: by subst n.
Qed.

(** The test on texts is the relation on trees: a path is an ancestor of another when its keys
    are a proper prefix of the other's and it is not the empty path; is_descendant_of is the
    converse relation. *)
Theorem is_ancestor_of_spec p q :
  wf p -> wf q ->
  (is_ancestor_of p q = true <->
     tokens p <> [] /\ exists r, r <> [] /\ tokens q = tokens p ++ r) /\
  is_descendant_of q p = is_ancestor_of p q.
Proof. intros. split; [by apply is_ancestor_of_iff|done]. Qed.

(** Extending a well-formed path with a key gives a child: the parent, key and level are the
    expected ones and both parent tests hold; the ancestor test holds unless the path is the
    empty one. *)
Theorem child_of_extended_path p k :
  wf p -> key_ok k = true ->
  let q := div p k in
  parent q = p /\ key q = k /\ level q = S (level p) /\
  is_parent_of p q = true /\ is_child_of q p = true /\
  is_ancestor_of p q = negb (is_empty p).
Proof.
  intros Hp Hk. cbn zeta. apply key_ok_spec in Hk as Hk'. destruct Hk' as [Hs Hb].
  pose proof (tokens_div p k Hk) as Ht.
  assert (parent (div p k) = p) as Hpar.
  { unfold parent. rewrite Ht, length_app. cbn. destruct p as [ts]. case_decide; cbn in *.
    - f_equal. replace (length ts + 1 - 1) with (length ts) by lia. by apply take_app_length.
    - destruct ts; [done|]. cbn in *. lia. }
  assert (wf (div p k)) as Hq by auto with rush.
  split_and!; [done| | | | |].
  - unfold key. by rewrite Ht, last_snoc.
  - unfold level. rewrite Ht, length_app. cbn. lia.
  - unfold is_parent_of. by rewrite bool_decide_eq_true, Hpar.
  - unfold is_child_of. by rewrite bool_decide_eq_true, Hpar.
  - apply eq_true_iff_eq. unfold is_empty. rewrite negb_true_iff, bool_decide_eq_false.
    rewrite (is_ancestor_of_iff p (div p k) Hp Hq), Ht.
    split; [by intros [? _]|]. intros. split; [done|]. by exists [k].
Qed.

(** ** Witnesses *)

Definition sensor : ActorPath := from "/acme/building/room/sensor".

Lemma sensor_wf : wf sensor.
Proof. apply wf_from. Qed.

Lemma from_to_string_witness :
  from (to_string sensor) = sensor /\ to_string sensor = "/acme/building/room/sensor".
Proof. split; [exact (from_to_string sensor sensor_wf)|vm_compute; reflexivity]. Defined.

Lemma paths_stay_well_formed_witness : wf (div sensor " /a//b/") /\ wf (at_level sensor 2).
Proof.
  destruct (paths_stay_well_formed sensor " /a//b/" 2 sensor_wf) as (_ & _ & _ & Hd & Ha).
  split; [exact Hd|exact Ha].
Defined.

Lemma is_ancestor_of_spec_witness :
  is_descendant_of sensor (root sensor) = is_ancestor_of (root sensor) sensor /\
  is_ancestor_of (root sensor) sensor = true.
Proof.
  split; [|vm_compute; reflexivity].
  refine (proj2 (is_ancestor_of_spec (root sensor) sensor _ sensor_wf)).
  vm_compute. repeat constructor.
Defined.

Lemma child_of_extended_path_witness :
  is_parent_of (from "/") (div (from "/") "acme") = true /\
  is_ancestor_of (from "/") (div (from "/") "acme") = false.
Proof.
  destruct (child_of_extended_path (from "/") "acme" (wf_from "/") eq_refl)
    as (_ & _ & _ & Hp & _ & Ha).
  split; [exact Hp|exact Ha].
Defined.

End ActorPath.
