(* ===== verification/Errors.v ===== *)
(** * Error types (actor/src/error.rs, store/src/error.rs)

    Both crates call their error enum [Error]: here [ActorError.Error]
    and [StoreError.Error]. [Display] is the text that [thiserror] derives from the
    [#[error]] attributes; a store error reaches an actor through it. *)

From S2P Require Import Prelude Path.

(** [store::Error]. *)
Module StoreError.

Inductive Error : Type :=
| CreateStore (s : string)
| Get (s : string)
| EntryNotFound (s : string)
| Store (s : string).

#[global] Instance Error_eq_dec : EqDecision Error.
Proof. solve_decision. Defined.

(** [Display]. *)
Definition display (e : Error) : string :=
  match e with
  | CreateStore s => "Can't create store: " +:+ s
  | Get s => "Get error: " +:+ s
  | EntryNotFound s => "Entry not found: " +:+ s
  | Store s => "Store error: " +:+ s
  end.

End StoreError.

Module ActorError.

(** [actor::Error]. *)
Inductive Error : Type :=
| Send (s : string)
| UnexpectedResponse (p : ActorPath) (s : string)
| Create (p : ActorPath) (s : string)
| Exists (p : ActorPath)
| NotFound (p : ActorPath)
| Stop
| Start (s : string)
| SendEvent (s : string)
| CreateStore (s : string)
| Get (s : string)
| EntryNotFound (s : string)
| Store (s : string)
| Functional (s : string)
| FunctionalFail (s : string)
| State (s : string)
| ReTry
| NotHelper (s : string).

#[global] Instance actor_Error_eq_dec : EqDecision Error.
Proof. solve_decision. Defined.

(** [Display] of [actor::Error]. *)
Definition to_string (e : Error) : string :=
  match e with
  | Send s => "An error occurred while sending a message to actor: " +:+ s +:+ "."
  | UnexpectedResponse p s =>
      "Actor " +:+ ActorPath.to_string p
      +:+ " returned a response that was not expected, expected response: " +:+ s
  | Create p s =>
      "An error occurred while creating an actor: " +:+ ActorPath.to_string p +:+ "/" +:+ s
      +:+ "."
  | Exists p => "Actor " +:+ ActorPath.to_string p +:+ " exist."
  | NotFound p => "Actor " +:+ ActorPath.to_string p +:+ " not found."
  | Stop => "An error occurred while stopping an actor."
  | Start s => "An error occurred while starting the actor system: " +:+ s
  | SendEvent s => "An error occurred while sending an event to event bus: " +:+ s
  | CreateStore s => "Can't create store: " +:+ s
  | Get s => "Get error: " +:+ s
  | EntryNotFound s => "Entry not found: " +:+ s
  | Store s => "Store error: " +:+ s
  | Functional s => "Error: " +:+ s
  | FunctionalFail s => "Error: " +:+ s
  | State s => "State error: " +:+ s
  | ReTry => "The maximum number of retries has been reached."
  | NotHelper s => "Helper " +:+ s +:+ " could not be accessed."
  end.

End ActorError.
