(* ===== verification/Database.v ===== *)
(** * The storage interface (store/src/database.rs)

    The traits [Collection], [State] and [DbManager] are classes over a world [W]
    that holds the storage every handle refers to: two handles of one backend
    may share data, so a write returns the new world. The laws of a backend are
    separate classes: the clients are proved against them and the backends
    discharge them. [last] and [get_by_range] are the default methods. *)

From S2P Require Import Prelude Errors.
Import StoreError.

(** ** Iterators

    The successive results of [next] on a boxed iterator over key/value pairs;
    computing an element may panic. *)

Inductive yield : Type :=
| Yield (kv : string * bytes)
| YieldPanic.

Definition iterator : Type := list yield.

(** [Iterator::next]. *)
Definition iter_next (it : iterator) : outcome Error (option (string * bytes) * iterator) :=
  match it with
  | [] => Ok (None, [])
  | Yield kv :: it' => Ok (Some kv, it')
  | YieldPanic :: _ => Panic
  end.

(** ** The traits *)

Class Collection (W C : Type) := {
  coll_name : C -> string;
  coll_get : W -> C -> string -> outcome Error bytes;
  coll_put : W -> C -> string -> bytes -> W * outcome Error unit;
  coll_del : W -> C -> string -> W * outcome Error unit;
  coll_purge : W -> C -> W * outcome Error unit;
  coll_iter : W -> C -> bool -> outcome Error iterator;
}.

Class State (W S : Type) := {
  st_name : S -> string;
  st_get : W -> S -> outcome Error bytes;
  st_put : W -> S -> bytes -> W * outcome Error unit;
  st_del : W -> S -> W * outcome Error unit;
  st_purge : W -> S -> W * outcome Error unit;
}.

Class DbManager (W M C S : Type) := {
  create_collection : W -> M -> string -> string -> W * outcome Error C;
  create_state : W -> M -> string -> string -> W * outcome Error S;
}.

(** ** The default methods of [Collection] *)

Section Defaults.
Context {W C : Type} `{Collection W C} `{BuildMode}.

Definition last_entry (w : W) (c : C) : outcome Error (option (string * bytes)) :=
  it ← coll_iter w c true;
  r ← iter_next it;
  mret r.1.

(** The loop over [peek]: the elements from the first one whose key is [key]. *)
Fixpoint seek (key : string) (it : iterator) : outcome Error iterator :=
  match it with
  | [] => Err (EntryNotFound "None")
  | YieldPanic :: _ => Panic
  | Yield (current_key, _) :: it' =>
      if decide (current_key = key) then Ok it else seek key it'
  end.

(** The loop [while counter < quantity]. *)
Fixpoint collect (it : iterator) (counter quantity : Z) : outcome Error (list bytes) :=
  if decide (counter < quantity)%Z then
    match it with
    | [] => Ok []
    | YieldPanic :: _ => Panic
    | Yield (_, event) :: it' =>
        result ← collect it' (counter + 1) quantity;
        mret (event :: result)
    end
  else Ok [].

Definition get_by_range (w : W) (c : C) (from : option string) (quantity : Z)
    : outcome Error (list bytes) :=
  p ← match from with
      | Some key =>
          it ← (if decide (0 <= quantity)%Z then coll_iter w c false else coll_iter w c true);
          it ← seek key it;
          r ← iter_next it;
          q ← isize_abs quantity;
          mret (r.2, q)
      | None =>
          if decide (0 <= quantity)%Z then
            it ← coll_iter w c false; mret (it, quantity)
          else
            it ← coll_iter w c true; q ← isize_abs quantity; mret (it, q)
      end;
  collect p.1 0 p.2.

End Defaults.

(** ** Laws *)

Definition key_lt (x y : string * bytes) : Prop := String.compare x.1 y.1 = Lt.

(** [l] lists the bindings of [f] in the increasing order of the keys. *)
Definition sorted_bindings (l : list (string * bytes)) (f : string -> option bytes) : Prop :=
  StronglySorted key_lt l /\ forall k v, (k, v) ∈ l <-> f k = Some v.

Class CollectionLaws (W C : Type) `{Collection W C} := {
  coll_inv : W -> C -> Prop;
  coll_view : W -> C -> string -> option bytes;
  coll_get_law : forall w c k, coll_inv w c ->
    match coll_view w c k with
    | Some v => coll_get w c k = Ok v
    | None => exists m, coll_get w c k = Err (EntryNotFound m)
    end;
  coll_put_law : forall w c k v w' r, coll_inv w c -> is_utf8 k = true ->
    coll_put w c k v = (w', r) ->
    coll_inv w' c /\
    match r with
    | Ok _ => forall k', coll_view w' c k' = if decide (k' = k) then Some v else coll_view w c k'
    | Err _ => forall k', coll_view w' c k' = coll_view w c k'
    | Panic => False
    end;
  coll_del_law : forall w c k w' r, coll_inv w c -> coll_del w c k = (w', r) ->
    coll_inv w' c /\
    match r with
    | Ok _ => forall k', coll_view w' c k' = if decide (k' = k) then None else coll_view w c k'
    | Err _ => forall k', coll_view w' c k' = coll_view w c k'
    | Panic => False
    end;
  coll_purge_law : forall w c w' r, coll_inv w c -> coll_purge w c = (w', r) ->
    coll_inv w' c /\
    match r with
    | Ok _ => forall k, coll_view w' c k = None
    | Err _ => forall k, coll_view w' c k = None \/ coll_view w' c k = coll_view w c k
    | Panic => False
    end;
  coll_iter_law : forall w c, coll_inv w c ->
    exists l, sorted_bindings l (coll_view w c) /\
      coll_iter w c false = Ok (Yield <$> l) /\
      coll_iter w c true = Ok (Yield <$> reverse l);
}.

Class StateLaws (W S : Type) `{State W S} := {
  st_inv : W -> S -> Prop;
  st_view : W -> S -> option bytes;
  st_get_law : forall w s, st_inv w s ->
    match st_view w s with
    | Some v => st_get w s = Ok v
    | None => exists m, st_get w s = Err (EntryNotFound m)
    end;
  st_put_law : forall w s v w' r, st_inv w s -> st_put w s v = (w', r) ->
    st_inv w' s /\
    match r with
    | Ok _ => st_view w' s = Some v
    | Err _ => st_view w' s = st_view w s
    | Panic => False
    end;
  st_purge_law : forall w s w' r, st_inv w s -> st_purge w s = (w', r) ->
    st_inv w' s /\
    match r with Ok _ => st_view w' s = None | Err _ => True | Panic => False end;
}.

(** A collection and a state that do not share data: a write through one handle
    is not seen through the other. *)
Class BackendLaws (W C S : Type) `{CollectionLaws W C} `{StateLaws W S} := {
  separate : W -> C -> S -> Prop;
  separate_inv : forall w c s, separate w c s -> coll_inv w c /\ st_inv w s;
  coll_put_frame : forall w c s k v w' r, separate w c s -> is_utf8 k = true ->
    coll_put w c k v = (w', r) -> separate w' c s /\ st_view w' s = st_view w s;
  coll_purge_frame : forall w c s w' r, separate w c s ->
    coll_purge w c = (w', r) -> separate w' c s /\ st_view w' s = st_view w s;
  st_put_frame : forall w c s v w' r, separate w c s ->
    st_put w s v = (w', r) ->
    separate w' c s /\ forall k, coll_view w' c k = coll_view w c k;
  st_purge_frame : forall w c s w' r, separate w c s ->
    st_purge w s = (w', r) ->
    separate w' c s /\ forall k, coll_view w' c k = coll_view w c k;
}.

Lemma sorted_bindings_unique l1 l2 f g :
  sorted_bindings l1 f -> sorted_bindings l2 g -> (forall k, f k = g k) -> l1 = l2.
Proof.
  intros [Hs1 H1] [Hs2 H2] Hfg.
  assert (forall l, StronglySorted key_lt l -> NoDup l) as Hnd.
  { induction 1 as [|x l Hs IH Hf]; constructor; [|done].
    rewrite Forall_forall in Hf. intros Hx. by apply (irreflexivity str_lt x.1), Hf. }
  assert (AntiSymm (=) key_lt) as Ha.
  { intros x y Hxy Hyx. exfalso. apply (irreflexivity str_lt x.1).
    by transitivity y.1. }
  apply (StronglySorted_unique key_lt); [done..|].
  apply NoDup_Permutation; [by apply Hnd..|]. intros [k v].
  by rewrite H1, H2, Hfg.
Qed.

(** ** Prefixed keys

    A backend that keeps several collections in one ordered map puts the prefix of
    the collection and a dot before the keys. *)
Definition prefixed (prefix : string) (y : string * bytes) : string * bytes :=
  (prefix +:+ "." +:+ y.1, y.2).

Lemma slice_prefixed prefix k :
  str_head_ok k = true ->
  slice_from (E:=Error) (prefix +:+ "." +:+ k) (String.length prefix + 1) = Ok k.
Proof.
  intros Hk. rewrite <- append_assoc.
  replace (String.length prefix + 1) with (String.length (prefix +:+ "."))
    by (rewrite length_append; done).
  by apply slice_from_app.
Qed.

Lemma prefixed_sorted prefix l :
  StronglySorted key_lt (prefixed prefix <$> l) -> StronglySorted key_lt l.
Proof.
  induction l as [|x l IH]; cbn; intros Hs; [constructor|]. inv Hs.
  constructor; [by apply IH|]. apply Forall_forall. intros y Hy.
  match goal with Hf : Forall _ _ |- _ => rewrite Forall_forall in Hf;
    specialize (Hf (prefixed prefix y) (list_elem_of_fmap_2 _ _ _ Hy)) end.
  unfold key_lt, prefixed in *. cbn in *. by rewrite !compare_app in *.
Qed.

(** ** B-trees *)

(** [BTreeMap<String, Vec<u8>>]. *)
Abbreviation btree := (gmap string bytes).

(** [BTreeMap::iter]: the bindings in the order of the keys. *)
Definition btree_iter (t : btree) : list (string * bytes) :=
  merge_sort (fun x y => String.le x.1 y.1) (map_to_list t).

Lemma btree_iter_elem t k v : (k, v) ∈ btree_iter t <-> t !! k = Some v.
Proof.
  unfold btree_iter. rewrite merge_sort_Permutation. apply elem_of_map_to_list.
Qed.

Lemma btree_iter_sorted t : StronglySorted key_lt (btree_iter t).
Proof.
  unfold btree_iter. set (R := fun x y : string * bytes => String.le x.1 y.1).
  assert (Total R) as Ht by (intros x y; unfold R; apply (total String.le)).
  assert (Transitive R) as Htr by (intros x y z; unfold R; apply (transitivity (R:=String.le))).
  pose proof (StronglySorted_merge_sort R (map_to_list t)) as Hs.
  pose proof (NoDup_fst_map_to_list t) as Hn.
  rewrite <- (merge_sort_Permutation R (map_to_list t)) in Hn.
  induction Hs as [|x l Hs IH Hf]; [constructor|].
  cbn in Hn. apply NoDup_cons in Hn as [Hx Hn]. constructor; [by apply IH|].
  apply Forall_forall. intros y Hy. rewrite Forall_forall in Hf.
  apply str_lt_le. split; [by apply Hf|]. intros He. apply Hx. rewrite He.
  by apply list_elem_of_fmap_2.
Qed.

(** ** Ranges

    Proved for any collection that satisfies the laws. *)

Section Ranges.
Context {W C : Type} `{CollectionLaws W C} `{BuildMode}.

Lemma collect_take l counter quantity :
  (0 <= counter)%Z ->
  collect (Yield <$> l) counter quantity =
    Ok (take (Z.to_nat (quantity - counter)) (snd <$> l)).
Proof.
  revert counter. induction l as [|[k v] l IH]; intros counter Hc; cbn [collect fmap list_fmap].
  - rewrite take_nil. by case_decide.
  - case_decide as Hlt.
    + rewrite IH by lia. cbn.
      replace (Z.to_nat (quantity - counter))
        with (S (Z.to_nat (quantity - (counter + 1)))) by lia. done.
    + by replace (Z.to_nat (quantity - counter)) with 0 by lia.
Qed.

(** Seeking in a list whose keys are sorted by [R] leaves the key and what is
    beyond it. *)
Lemma seek_sorted (R : relation string) `{!StrictOrder R} key (l : list (string * bytes)) :
  StronglySorted (fun x y => R x.1 y.1) l ->
  match seek key (Yield <$> l) with
  | Ok it => exists v l2, it = Yield (key, v) :: (Yield <$> l2) /\ (key, v) ∈ l /\
      exists l1, l = l1 ++ (key, v) :: l2
  | Err e => e = EntryNotFound "None" /\ forall v, (key, v) ∉ l
  | Panic => False
  end.
Proof.
  intros Hs. induction l as [|[k v] l IH]; cbn [seek fmap list_fmap].
  { split; [done|]. intros v. apply not_elem_of_nil. }
  case_decide as Hk.
  - subst k. exists v, l. split_and!; [done|by constructor|by exists []].
  - inv Hs. match goal with Hl : StronglySorted _ l |- _ => specialize (IH Hl) end.
    destruct (seek key (Yield <$> l)) as [it|e|]; [|..|done].
    + destruct IH as (v' & l2 & Hit & Hin & l1 & ->). exists v', l2.
      split_and!; [done|by constructor|by exists ((k, v) :: l1)].
    + destruct IH as [-> Hn]. split; [done|]. intros v'.
      rewrite not_elem_of_cons. split; [congruence|apply Hn].
Qed.

Lemma filter_beyond (R : relation string) `{!StrictOrder R} `{!RelDecision R} key (v : bytes) l1 l2 :
  StronglySorted (fun x y => R x.1 y.1) (l1 ++ (key, v) :: l2) ->
  List.filter (fun x => bool_decide (R key x.1)) (l1 ++ (key, v) :: l2) = l2.
Proof.
  intros Hs. rewrite List.filter_app. cbn [List.filter].
  rewrite bool_decide_eq_false_2 by apply irreflexivity, _.
  assert (List.filter (fun x => bool_decide (R key x.1)) l1 = []) as ->.
  { assert (forall x, x ∈ l1 -> R x.1 key) as Hl.
    { intros x Hx. eapply (StronglySorted_app_inv _ _ _ Hs x (key, v)); [done|by constructor]. }
    clear Hs. induction l1 as [|x l1 IH]; [done|]. cbn.
    rewrite bool_decide_eq_false_2.
    - apply IH. intros y Hy. apply Hl. by constructor.
    - intros Hc. apply (irreflexivity R key). etrans; [done|]. apply Hl. by constructor. }
  cbn. assert (forall x, x ∈ l2 -> R key x.1) as Hl.
  { intros x Hx. rewrite cons_middle, app_assoc in Hs.
    eapply (StronglySorted_app_inv _ _ _ Hs (key, v) x); [|done].
    apply elem_of_app. right. by constructor. }
  clear Hs. induction l2 as [|x l2 IH]; [done|]. cbn.
  rewrite bool_decide_eq_true_2 by (apply Hl; by constructor). f_equal.
  apply IH. intros y Hy. apply Hl. by constructor.
Qed.

Lemma get_by_range_sorted (R : relation string) `{!StrictOrder R} `{!RelDecision R} key l q f :
  StronglySorted (fun x y => R x.1 y.1) l ->
  (forall k v, (k, v) ∈ l <-> f k = Some v) ->
  q <> isize_min ->
  (p ← (it ← seek key (Yield <$> l);
        r ← iter_next it;
        q ← isize_abs q;
        mret (r.2, q));
   collect p.1 0 p.2)
  = match f key with
    | Some _ => Ok (take (Z.to_nat (Z.abs q))
                      (snd <$> List.filter (fun x => bool_decide (R key x.1)) l))
    | None => Err (EntryNotFound "None")
    end.
Proof.
  intros Hs Hf Hq. pose proof (seek_sorted R key l Hs) as Hk.
  destruct (seek key (Yield <$> l)) as [it|e|]; [|..|done].
  - destruct Hk as (v & l2 & -> & Hin%Hf & l1 & ->). rewrite Hin. cbn.
    unfold isize_abs. rewrite decide_False by done. cbn.
    rewrite collect_take, (filter_beyond R) by done. by rewrite Z.sub_0_r.
  - destruct Hk as [-> Hn]. cbn. destruct (f key) as [v|] eqn:Hv; [|done].
    exfalso. by apply (Hn v), Hf.
Qed.

Lemma last_entry_law w c :
  coll_inv w c ->
  match last_entry w c with
  | Ok None => forall k, coll_view w c k = None
  | Ok (Some (k, v)) => coll_view w c k = Some v /\
      forall k' v', coll_view w c k' = Some v' -> k' = k \/ str_lt k' k
  | _ => False
  end.
Proof.
  intros Hinv. destruct (coll_iter_law w c Hinv) as (l & [Hs Hl] & _ & Hr).
  unfold last_entry. rewrite Hr. cbn.
  destruct l as [|[k v] l _] using rev_ind; cbn.
  - intros k. destruct (coll_view w c k) eqn:Hv; [|done].
    apply Hl in Hv. by apply not_elem_of_nil in Hv.
  - rewrite reverse_app. cbn. split.
    + apply Hl, elem_of_app. right. by constructor.
    + intros k' v' [Hin|Heq%list_elem_of_singleton]%Hl%elem_of_app; [|left; congruence].
      right. apply (StronglySorted_app_inv _ _ _ Hs (k', v') (k, v)); [done|by constructor].
Qed.

(** What the second argument of [get_by_range] selects from the bindings [l] in
    increasing order: those beyond the key in the direction of the sign. *)
Definition range_of (l : list (string * bytes)) (from : option string) (quantity : Z)
    : list (string * bytes) :=
  match from with
  | Some key =>
      if decide (0 <= quantity)%Z
      then List.filter (fun x => bool_decide (str_lt key x.1)) l
      else List.filter (fun x => bool_decide (str_lt x.1 key)) (reverse l)
  | None => if decide (0 <= quantity)%Z then l else reverse l
  end.

(** C23: get_by_range returns the values of at most |quantity| entries, those after (or, for a
    negative quantity, before) the given key in the order of the keys, or from the start (the
    end) without a key, and an error when the key is absent. *)
Theorem get_by_range_spec w c from quantity :
  coll_inv w c -> quantity <> isize_min ->
  exists l, sorted_bindings l (coll_view w c) /\
    get_by_range w c from quantity =
      match from with
      | Some key =>
          match coll_view w c key with
          | None => Err (EntryNotFound "None")
          | Some _ => Ok (take (Z.to_nat (Z.abs quantity)) (snd <$> range_of l from quantity))
          end
      | None => Ok (take (Z.to_nat (Z.abs quantity)) (snd <$> range_of l from quantity))
      end.
Proof.
  intros Hinv Hq. destruct (coll_iter_law w c Hinv) as (l & [Hs Hl] & Hf & Hr).
  exists l. split; [done|]. unfold get_by_range, range_of.
  assert (forall k v, (k, v) ∈ reverse l <-> coll_view w c k = Some v) as Hl'
    by (intros; by rewrite elem_of_reverse).
  destruct from as [key|]; case_decide as Hpos.
  - rewrite Hf. by apply (get_by_range_sorted str_lt).
  - rewrite Hr. apply StronglySorted_reverse in Hs.
    exact (get_by_range_sorted (flip str_lt) key (reverse l) quantity _ Hs Hl' Hq).
  - rewrite Hf. cbn. rewrite collect_take, Z.sub_0_r, Z.abs_eq by done. done.
  - rewrite Hr. cbn. unfold isize_abs. rewrite decide_False by done. cbn.
    by rewrite collect_take, Z.sub_0_r by done.
Qed.

(** get_by_range with the least isize and no key panics in a build that checks overflow and
    returns nothing in one that wraps. *)
Theorem get_by_range_min w c :
  coll_inv w c ->
  get_by_range w c None isize_min = if overflow_checks then Panic else Ok [].
Proof.
  intros Hinv. destruct (coll_iter_law w c Hinv) as (l & _ & _ & Hr).
  unfold get_by_range. rewrite decide_False by (unfold isize_min; lia). rewrite Hr. cbn.
  unfold isize_abs. rewrite decide_True by done.
  destruct overflow_checks; [done|]. cbn.
  rewrite collect_take by lia. reflexivity.
Qed.

End Ranges.

(** ** Sessions

    What a client sees of a collection, operation by operation. *)

Inductive coll_op : Type :=
| OpGet (k : string)
| OpPut (k : string) (v : bytes)
| OpDel (k : string)
| OpPurge
| OpIter (rev : bool).

Inductive coll_result : Type :=
| RGet (r : outcome Error bytes)
| RUnit (r : outcome Error unit)
| RIter (r : outcome Error iterator).

(** A key is a Rust [&str]. *)
Definition op_ok (o : coll_op) : Prop :=
  match o with OpPut k _ => is_utf8 k = true | _ => True end.

Definition run_op {W C} `{Collection W C} (c : C) (w : W) (o : coll_op) : W * coll_result :=
  match o with
  | OpGet k => (w, RGet (coll_get w c k))
  | OpPut k v => let '(w', r) := coll_put w c k v in (w', RUnit r)
  | OpDel k => let '(w', r) := coll_del w c k in (w', RUnit r)
  | OpPurge => let '(w', r) := coll_purge w c in (w', RUnit r)
  | OpIter rev => (w, RIter (coll_iter w c rev))
  end.

(** The same operation on a finite map: [nf] is the error for a missing key and
    [del_missing] what deleting it answers. *)
Definition spec_op (nf : Error) (del_missing : outcome Error unit) (m : btree) (o : coll_op)
    : btree * coll_result :=
  match o with
  | OpGet k => (m, RGet (match m !! k with Some v => Ok v | None => Err nf end))
  | OpPut k v => (<[k := v]> m, RUnit (Ok tt))
  | OpDel k => (delete k m, RUnit (match m !! k with Some _ => Ok tt | None => del_missing end))
  | OpPurge => (∅, RUnit (Ok tt))
  | OpIter rev =>
      (m, RIter (Ok (Yield <$> (if rev then reverse (btree_iter m) else btree_iter m))))
  end.

Fixpoint run_ops {A} (step : A -> coll_op -> A * coll_result) (a : A) (os : list coll_op)
    : A * list coll_result :=
  match os with
  | [] => (a, [])
  | o :: os =>
      let '(a', r) := step a o in
      let '(a'', rs) := run_ops step a' os in
      (a'', r :: rs)
  end.

(** A backend whose storage does not fail while the invariant holds: its
    results are those of the finite map. *)
Class Reliable (W C : Type) `{CollectionLaws W C} (nf : Error) (del_missing : outcome Error unit) := {
  coll_get_missing : forall w c k, coll_inv w c -> coll_view w c k = None ->
    coll_get w c k = Err nf;
  coll_put_ok : forall w c k v, coll_inv w c -> is_utf8 k = true ->
    (coll_put w c k v).2 = Ok tt;
  coll_del_exact : forall w c k, coll_inv w c ->
    (coll_del w c k).2 = match coll_view w c k with Some _ => Ok tt | None => del_missing end;
  coll_purge_ok : forall w c, coll_inv w c -> (coll_purge w c).2 = Ok tt;
}.

(** The collection holds the bindings of [m]. *)
Definition represents {W C} `{CollectionLaws W C} (w : W) (c : C) (m : btree) : Prop :=
  coll_inv w c /\ forall k, coll_view w c k = m !! k.

Section Sessions.
Context {W C : Type} {nf : Error} {del_missing : outcome Error unit}.
Context `{HR : Reliable W C nf del_missing}.

Lemma run_op_del w c m k :
  represents w c m ->
  represents (run_op c w (OpDel k)).1 c (delete k m) /\
  (run_op c w (OpDel k)).2
    = RUnit (match m !! k with Some _ => Ok tt | None => del_missing end).
Proof.
  intros [Hi Hv]. pose proof (coll_del_exact w c k Hi) as He. cbn.
  destruct (coll_del w c k) as [w' r] eqn:Hd. cbn in He. rewrite <- Hv. subst r. split; [|done].
  destruct (coll_del_law w c k w' _ Hi Hd) as [Hi' Hr]. split; [done|]. intros k'.
  rewrite lookup_delete, <- Hv. destruct (coll_view w c k) as [v|] eqn:Hk; cbn in Hr.
  - rewrite Hr. repeat case_decide; congruence.
  - destruct del_missing; [| |done]; rewrite Hr; repeat case_decide; congruence.
Qed.

Lemma run_op_refines w c m o :
  represents w c m -> op_ok o ->
  represents (run_op c w o).1 c (spec_op nf del_missing m o).1 /\
  (run_op c w o).2 = (spec_op nf del_missing m o).2.
Proof.
  intros Hr Ho. destruct o as [k|k v|k| |rev]; [..|by apply run_op_del| |];
    destruct Hr as [Hi Hv]; cbn.
  - split; [done|]. f_equal. rewrite <- Hv. pose proof (coll_get_law w c k Hi) as Hg.
    destruct (coll_view w c k) eqn:Hk; [done|by apply coll_get_missing].
  - pose proof (coll_put_ok w c k v Hi Ho) as Hp.
    destruct (coll_put w c k v) as [w' r] eqn:Hput. cbn in Hp. subst r.
    destruct (coll_put_law w c k v w' _ Hi Ho Hput) as [Hi' Hv'].
    split; [|done]. split; [done|]. intros k'. rewrite Hv', Hv, lookup_insert.
    repeat case_decide; congruence.
  - pose proof (coll_purge_ok w c Hi) as Hp.
    destruct (coll_purge w c) as [w' r] eqn:Hpurge. cbn in Hp. subst r.
    destruct (coll_purge_law w c w' _ Hi Hpurge) as [Hi' Hv'].
    split; [|done]. split; [done|]. intros k'. by rewrite Hv', lookup_empty.
  - split; [done|]. f_equal. destruct (coll_iter_law w c Hi) as (l & Hl & Hf & Hb).
    assert (l = btree_iter m) as ->.
    { eapply sorted_bindings_unique; [exact Hl| |exact Hv].
      split; [apply btree_iter_sorted|]. intros k v. apply btree_iter_elem. }
    by destruct rev.
Qed.

(** A session on a reliable collection answers as on the finite map. *)
Lemma sessions_refine w c m os :
  represents w c m -> Forall op_ok os ->
  (run_ops (run_op c) w os).2 = (run_ops (spec_op nf del_missing) m os).2 /\
  represents (run_ops (run_op c) w os).1 c (run_ops (spec_op nf del_missing) m os).1.
Proof.
  intros Hr Hos. revert w m Hr.
  induction Hos as [|o os Ho Hos IH]; intros w m Hr; [done|]. cbn.
  destruct (run_op_refines w c m o Hr Ho) as [Hr' He].
  destruct (run_op c w o) as [w' r], (spec_op nf del_missing m o) as [m' r']. cbn in *. subst r'.
  specialize (IH w' m' Hr').
  destruct (run_ops _ w' os), (run_ops (spec_op _ _) m' os). cbn in *.
  by destruct IH as [-> ?].
Qed.

End Sessions.
