(* ===== verification/Memory.v ===== *)
(** * The memory backend (store/src/memory.rs)

    A [MemoryManager] holds an [Arc<RwLock<HashMap<..>>>] of the B-trees of its
    stores, each behind its own [Arc<RwLock<..>>]. An [Arc] is a location of the
    world [MemWorld]; handles are values that hold locations, so two handles
    opened with one name and prefix share their B-tree. Dereferencing a location
    that was never allocated cannot happen in Rust and is [Panic] here. *)

From S2P Require Import Prelude Errors Database.
Import StoreError.

(** ** Locks and the heap *)

(** [RwLock<A>]: a writer that panicked leaves it poisoned, and then [read] and
    [write] fail. *)
Record RwLock (A : Type) : Type := mk_lock { poisoned : bool; inner : A }.
Arguments mk_lock {A} _ _.
Arguments poisoned {A} _.
Arguments inner {A} _.

Record MemWorld : Type := mk_world {
  managers : gmap nat (RwLock (gmap (string * string) nat));
  trees : gmap nat (RwLock btree);
}.

(** [read] and [write] on the lock at a location: the guarded value, or the
    error the code maps the poisoning to. *)
Definition lock_at {A} (locks : gmap nat (RwLock A)) (loc : nat) (what : string)
    : outcome Error A :=
  match locks !! loc with
  | Some l =>
      if poisoned l then Err (Store (what +:+ poison_message)) else Ok (inner l)
  | None => Panic
  end.

(** The world in which the tree at [loc] is [t]. *)
Definition set_tree (w : MemWorld) (loc : nat) (t : btree) : MemWorld :=
  mk_world (managers w) (<[loc := mk_lock false t]> (trees w)).

(** ** [MemoryManager] *)

Record MemoryManager : Type := mk_manager { mgr_data : nat }.

Record MemoryStore : Type := mk_store {
  ms_name : string;
  ms_prefix : string;
  ms_data : nat;
}.

Module MemoryManager.

(** [MemoryManager::default()]. *)
Definition default (w : MemWorld) : MemWorld * MemoryManager :=
  let loc := fresh (dom (managers w)) in
  (mk_world (<[loc := mk_lock false ∅]> (managers w)) (trees w), mk_manager loc).

(** The body that both factory methods share: the B-tree registered under the
    name and prefix, a new one if there is none. *)
Definition open_store (w : MemWorld) (m : MemoryManager) (name prefix : string)
    : MemWorld * outcome Error MemoryStore :=
  match lock_at (managers w) (mgr_data m) "Can not lock manager data: " with
  | Ok data =>
      match data !! (name, prefix) with
      | Some loc => (w, Ok (mk_store name prefix loc))
      | None =>
          let loc := fresh (dom (trees w)) in
          (mk_world (<[mgr_data m := mk_lock false (<[(name, prefix) := loc]> data)]> (managers w))
                    (<[loc := mk_lock false ∅]> (trees w)),
           Ok (mk_store name prefix loc))
      end
  | Err e => (w, Err e)
  | Panic => (w, Panic)
  end.

Definition create_state (w : MemWorld) (m : MemoryManager) (name prefix : string)
    : MemWorld * outcome Error MemoryStore := open_store w m name prefix.

Definition create_collection (w : MemWorld) (m : MemoryManager) (name prefix : string)
    : MemWorld * outcome Error MemoryStore := open_store w m name prefix.

End MemoryManager.

#[export] Instance memory_manager
  : DbManager MemWorld MemoryManager MemoryStore MemoryStore :=
  {| create_collection := MemoryManager.create_collection;
     create_state := MemoryManager.create_state |}.

(** ** Operations on one tree *)

Definition not_found : Error := EntryNotFound "Query returned no rows".

Definition tree_of (w : MemWorld) (s : MemoryStore) : outcome Error btree :=
  lock_at (trees w) (ms_data s) "Can not lock data: ".

(** [lock.get(key)]. *)
Definition tree_get (w : MemWorld) (s : MemoryStore) (key : string) : outcome Error bytes :=
  t ← tree_of w s;
  match t !! key with
  | Some value => Ok value
  | None => Err not_found
  end.

(** [lock.insert(key, data)]. *)
Definition tree_insert (w : MemWorld) (s : MemoryStore) (key : string) (data : bytes)
    : MemWorld * outcome Error unit :=
  match tree_of w s with
  | Ok t => (set_tree w (ms_data s) (<[key := data]> t), Ok tt)
  | Err e => (w, Err e)
  | Panic => (w, Panic)
  end.

(** [lock.remove(key)], an error when there was no binding. *)
Definition tree_remove (w : MemWorld) (s : MemoryStore) (key : string)
    : MemWorld * outcome Error unit :=
  match tree_of w s with
  | Ok t =>
      match t !! key with
      | Some _ => (set_tree w (ms_data s) (delete key t), Ok tt)
      | None => (w, Err not_found)
      end
  | Err e => (w, Err e)
  | Panic => (w, Panic)
  end.

(** The keys that start with the prefix are collected, then removed one by one. *)
Definition tree_purge (w : MemWorld) (s : MemoryStore) : MemWorld * outcome Error unit :=
  match tree_of w s with
  | Ok t =>
      let keys_to_remove :=
        List.filter (fun key => starts_with key (ms_prefix s)) (fst <$> btree_iter t) in
      (set_tree w (ms_data s) (fold_left (fun t key => delete key t) keys_to_remove t), Ok tt)
  | Err e => (w, Err e)
  | Panic => (w, Panic)
  end.

(** ** [impl State for MemoryStore] *)

Module MemoryState.

Definition get (w : MemWorld) (s : MemoryStore) : outcome Error bytes :=
  tree_get w s (ms_prefix s).

Definition put (w : MemWorld) (s : MemoryStore) (data : bytes) : MemWorld * outcome Error unit :=
  tree_insert w s (ms_prefix s) data.

Definition del (w : MemWorld) (s : MemoryStore) : MemWorld * outcome Error unit :=
  tree_remove w s (ms_prefix s).

Definition purge (w : MemWorld) (s : MemoryStore) : MemWorld * outcome Error unit :=
  tree_purge w s.

End MemoryState.

(** ** [impl Collection for MemoryStore] *)

Module MemoryCollection.

(** [format!("{}.{}", self.prefix, key)]. *)
Definition full_key (s : MemoryStore) (key : string) : string :=
  ms_prefix s +:+ "." +:+ key.

Definition get (w : MemWorld) (s : MemoryStore) (key : string) : outcome Error bytes :=
  tree_get w s (full_key s key).

Definition put (w : MemWorld) (s : MemoryStore) (key : string) (data : bytes)
    : MemWorld * outcome Error unit :=
  tree_insert w s (full_key s key) data.

Definition del (w : MemWorld) (s : MemoryStore) (key : string) : MemWorld * outcome Error unit :=
  tree_remove w s (full_key s key).

Definition purge (w : MemWorld) (s : MemoryStore) : MemWorld * outcome Error unit :=
  tree_purge w s.

(** [&key[self.prefix.len() + 1..]] on every key of the list; collecting them
    panics if one of the slices does. *)
Fixpoint strip_keys (prefix : string) (l : list (string * bytes))
    : outcome Error (list (string * bytes)) :=
  match l with
  | [] => Ok []
  | (key, value) :: l =>
      key' ← slice_from key (String.length prefix + 1);
      l' ← strip_keys prefix l;
      mret ((key', value) :: l')
  end.

(** A poisoned lock gives the empty iterator. *)
Definition iter (w : MemWorld) (s : MemoryStore) (rev : bool) : outcome Error iterator :=
  match tree_of w s with
  | Ok t =>
      let items := if rev then reverse (btree_iter t) else btree_iter t in
      fmap (fmap (M:=list) Yield)
        (strip_keys (ms_prefix s)
           (List.filter (fun kv => starts_with kv.1 (ms_prefix s)) items))
  | Err _ => Ok []
  | Panic => Panic
  end.

End MemoryCollection.

#[export] Instance memory_collection : Collection MemWorld MemoryStore :=
  {| coll_name := ms_name;
     coll_get := MemoryCollection.get;
     coll_put := MemoryCollection.put;
     coll_del := MemoryCollection.del;
     coll_purge := MemoryCollection.purge;
     coll_iter := MemoryCollection.iter |}.

#[export] Instance memory_state : State MemWorld MemoryStore :=
  {| st_name := ms_name;
     st_get := MemoryState.get;
     st_put := MemoryState.put;
     st_del := MemoryState.del;
     st_purge := MemoryState.purge |}.

(** ** The backend satisfies the laws *)

Section Laws.
Implicit Types (w : MemWorld) (s c : MemoryStore) (t : btree).

(** The handle's tree exists and its lock is healthy. *)
Definition has_tree w s t : Prop := trees w !! ms_data s = Some (mk_lock false t).

(** Every key of the tree was written through a collection with this prefix. *)
Definition keys_prefixed (prefix : string) t : Prop :=
  forall k v, t !! k = Some v ->
    exists k', k = prefix +:+ "." +:+ k' /\ str_head_ok k' = true.

Definition mem_coll_inv w s : Prop := exists t, has_tree w s t /\ keys_prefixed (ms_prefix s) t.

Definition mem_st_inv w s : Prop := exists t, has_tree w s t.

(** The bindings of the tree of a handle, as a total function. *)
Definition tree_lookup w s (k : string) : option bytes :=
  match trees w !! ms_data s with Some l => inner l !! k | None => None end.

Definition mem_coll_view w s (k : string) : option bytes :=
  tree_lookup w s (MemoryCollection.full_key s k).

Definition mem_st_view w s : option bytes := tree_lookup w s (ms_prefix s).

Lemma tree_of_has w s t : has_tree w s t -> tree_of w s = Ok t.
Proof. unfold has_tree, tree_of, lock_at. by intros ->. Qed.

Lemma tree_lookup_has w s t k : has_tree w s t -> tree_lookup w s k = t !! k.
Proof. unfold has_tree, tree_lookup. by intros ->. Qed.

Lemma has_tree_set w s t : has_tree (set_tree w (ms_data s) t) s t.
Proof. unfold has_tree, set_tree. cbn. apply lookup_insert_eq. Qed.

Lemma has_tree_set_ne w s c t t' :
  ms_data c <> ms_data s -> has_tree w c t -> has_tree (set_tree w (ms_data s) t') c t.
Proof. intros Hn Ht. unfold has_tree, set_tree. cbn. by rewrite lookup_insert_ne. Qed.

Lemma tree_lookup_set_ne w s c t k :
  ms_data c <> ms_data s -> tree_lookup (set_tree w (ms_data s) t) c k = tree_lookup w c k.
Proof. intros Hn. unfold tree_lookup, set_tree. cbn. by rewrite lookup_insert_ne. Qed.

Hint Resolve tree_of_has has_tree_set has_tree_set_ne : rush.

Lemma full_key_inj s k k' :
  MemoryCollection.full_key s k = MemoryCollection.full_key s k' -> k = k'.
Proof. unfold MemoryCollection.full_key. intros H. by do 2 apply (inj _) in H. Qed.

(** A write to the tree of a handle: what it reads afterwards. *)
Lemma tree_insert_has w s t k v :
  has_tree w s t ->
  tree_insert w s k v = (set_tree w (ms_data s) (<[k := v]> t), Ok tt).
Proof. intros Ht. unfold tree_insert. by rewrite (tree_of_has _ _ _ Ht). Qed.

Lemma foldl_delete_lookup ks t k :
  fold_left (fun t key => delete key t) ks t !! k = if decide (k ∈ ks) then None else t !! k.
Proof.
  revert t. induction ks as [|k' ks IH]; intros t; cbn.
  { by rewrite decide_False by apply not_elem_of_nil. }
  rewrite IH. destruct (decide (k ∈ ks)) as [Hin|Hn].
  { by rewrite decide_True by by constructor. }
  destruct (decide (k = k')) as [->|Hne].
  - rewrite decide_True by constructor. apply lookup_delete_eq.
  - rewrite lookup_delete_ne, decide_False by (rewrite ?not_elem_of_cons; done). done.
Qed.

(** Purging removes exactly the keys that start with the prefix. *)
Lemma purged_lookup prefix t k :
  fold_left (fun t key => delete key t)
    (List.filter (fun key => starts_with key prefix) (fst <$> btree_iter t)) t !! k
  = if starts_with k prefix then None else t !! k.
Proof.
  rewrite foldl_delete_lookup. case_decide as Hin.
  - apply list_elem_of_In, List.filter_In in Hin as [_ Hp]. by rewrite Hp.
  - destruct (starts_with k prefix) eqn:Hp; [|done].
    destruct (t !! k) as [v|] eqn:Hv; [|done]. exfalso. apply Hin.
    apply list_elem_of_In, List.filter_In. split; [|done].
    apply list_elem_of_In. apply btree_iter_elem in Hv.
    by apply (list_elem_of_fmap_2 fst) in Hv.
Qed.

Lemma tree_purge_has w s t :
  has_tree w s t ->
  exists t', tree_purge w s = (set_tree w (ms_data s) t', Ok tt) /\
    forall k, t' !! k = if starts_with k (ms_prefix s) then None else t !! k.
Proof.
  intros Ht. unfold tree_purge. rewrite (tree_of_has _ _ _ Ht).
  eexists. split; [done|]. apply purged_lookup.
Qed.

Lemma keys_prefixed_insert prefix t k v :
  keys_prefixed prefix t -> is_utf8 k = true ->
  keys_prefixed prefix (<[prefix +:+ "." +:+ k := v]> t).
Proof.
  intros Ht Hk k0 v0 Hl. destruct (decide (k0 = prefix +:+ "." +:+ k)) as [->|Hn]; [by eauto using is_utf8_head|].
  rewrite lookup_insert_ne in Hl by done. by eapply Ht.
Qed.

Lemma keys_prefixed_start prefix t k v :
  keys_prefixed prefix t -> t !! k = Some v -> starts_with k prefix = true.
Proof. intros Ht Hv. destruct (Ht k v Hv) as (k' & -> & _). apply starts_with_app. Qed.

Lemma strip_prefixed prefix l :
  Forall (fun y => str_head_ok y.1 = true) l ->
  MemoryCollection.strip_keys prefix (prefixed prefix <$> l) = Ok l.
Proof.
  induction l as [|[k v] l IH]; intros Hl; [done|]. inv Hl.
  cbn. rewrite slice_prefixed by done. cbn. by rewrite IH.
Qed.

Lemma unprefix prefix t l :
  keys_prefixed prefix t -> (forall k v, (k, v) ∈ l -> t !! k = Some v) ->
  exists l', l = prefixed prefix <$> l' /\ Forall (fun y => str_head_ok y.1 = true) l'.
Proof.
  intros Ht. induction l as [|[k v] l IH]; intros Hl; [by exists []|].
  destruct IH as (l' & -> & Hf); [intros; apply Hl; by constructor|].
  destruct (Ht k v) as (k' & -> & Hk); [apply Hl; by constructor|].
  exists ((k', v) :: l'). split; [done|by constructor].
Qed.

Lemma mem_iter_law w s :
  mem_coll_inv w s ->
  exists l, sorted_bindings l (mem_coll_view w s) /\
    MemoryCollection.iter w s false = Ok (Yield <$> l) /\
    MemoryCollection.iter w s true = Ok (Yield <$> reverse l).
Proof.
  intros (t & Ht & Hk).
  destruct (unprefix (ms_prefix s) t (btree_iter t) Hk) as (l & Hl & Hf).
  { intros k v. apply btree_iter_elem. }
  exists l. unfold MemoryCollection.iter. rewrite (tree_of_has _ _ _ Ht).
  assert (forall k : list (string * bytes), (forall x, x ∈ k -> x ∈ btree_iter t) ->
    List.filter (fun kv => starts_with kv.1 (ms_prefix s)) k = k) as Hfil.
  { intros k Hin. apply filter_all, Forall_forall. intros [k0 v0] Hx. cbn.
    eapply keys_prefixed_start; [done|]. by apply btree_iter_elem, Hin. }
  rewrite !Hfil by (intros x; rewrite ?elem_of_reverse; done).
  split_and!.
  - split.
    + apply (prefixed_sorted (ms_prefix s)). rewrite <- Hl. apply btree_iter_sorted.
    + intros k v. unfold mem_coll_view. rewrite (tree_lookup_has _ _ _ _ Ht).
      rewrite <- btree_iter_elem, Hl, list_elem_of_fmap. split.
      * intros Hin. by exists (k, v).
      * intros ([k' v'] & He & Hin). unfold prefixed in He. cbn in He.
        inv He as [[He1 He2]]. by apply full_key_inj in He1 as ->.
  - cbn. rewrite Hl, strip_prefixed by done. done.
  - cbn. rewrite Hl, <- fmap_reverse, strip_prefixed by by apply Forall_reverse. done.
Qed.

#[export] Program Instance memory_collection_laws : CollectionLaws MemWorld MemoryStore :=
  {| coll_inv := mem_coll_inv; coll_view := mem_coll_view |}.
Next Obligation.
  intros w c k (t & Ht & _). cbn. unfold mem_coll_view, MemoryCollection.get, tree_get.
  rewrite (tree_lookup_has _ _ _ _ Ht), (tree_of_has _ _ _ Ht). cbn.
  destruct (t !! MemoryCollection.full_key c k); [done|by eexists].
Qed.
Next Obligation.
  intros w c k v w' r (t & Ht & Hp) Hk. cbn. unfold MemoryCollection.put.
  rewrite (tree_insert_has _ _ _ _ _ Ht). intros [= <- <-]. split.
  - eexists. split; [apply has_tree_set|by apply keys_prefixed_insert].
  - intros k'. unfold mem_coll_view.
    rewrite (tree_lookup_has _ _ _ _ (has_tree_set w c _)), (tree_lookup_has _ _ _ _ Ht).
    case_decide as Hkk; [subst; apply lookup_insert_eq|].
    apply lookup_insert_ne. intros ?%full_key_inj. congruence.
Qed.
Next Obligation.
  intros w c k w' r (t & Ht & Hp). cbn. unfold MemoryCollection.del.
  unfold tree_remove. rewrite (tree_of_has _ _ _ Ht).
  destruct (t !! MemoryCollection.full_key c k) as [v|] eqn:Hv; intros [= <- <-]; split.
  - eexists. split; [apply has_tree_set|]. intros k0 v0 [_ Hl]%lookup_delete_Some. eauto.
  - intros k'. unfold mem_coll_view.
    rewrite (tree_lookup_has _ _ _ _ (has_tree_set w c _)), (tree_lookup_has _ _ _ _ Ht).
    case_decide as Hkk; [subst; apply lookup_delete_eq|].
    apply lookup_delete_ne. intros ?%full_key_inj. congruence.
  - by exists t.
  - done.
Qed.
Next Obligation.
  intros w c w' r (t & Ht & Hp). cbn. unfold MemoryCollection.purge.
  destruct (tree_purge_has w c t Ht) as (t' & -> & Hl). intros [= <- <-]. split.
  - exists t'. split; [apply has_tree_set|]. intros k v. rewrite Hl.
    case_match; [done|]. apply Hp.
  - intros k. unfold mem_coll_view. rewrite (tree_lookup_has _ _ _ _ (has_tree_set w c _)), Hl.
    unfold MemoryCollection.full_key. by rewrite starts_with_app.
Qed.
Next Obligation. intros w c. apply mem_iter_law. Qed.

#[export] Program Instance memory_state_laws : StateLaws MemWorld MemoryStore :=
  {| st_inv := mem_st_inv; st_view := mem_st_view |}.
Next Obligation.
  intros w s (t & Ht). cbn. unfold mem_st_view, MemoryState.get, tree_get.
  rewrite (tree_lookup_has _ _ _ _ Ht), (tree_of_has _ _ _ Ht). cbn.
  destruct (t !! ms_prefix s); [done|by eexists].
Qed.
Next Obligation.
  intros w s v w' r (t & Ht). cbn. unfold MemoryState.put.
  rewrite (tree_insert_has _ _ _ _ _ Ht). intros [= <- <-]. split.
  - eexists. apply has_tree_set.
  - unfold mem_st_view. rewrite (tree_lookup_has _ _ _ _ (has_tree_set w s _)).
    apply lookup_insert_eq.
Qed.
Next Obligation.
  intros w s w' r (t & Ht). cbn. unfold MemoryState.purge.
  destruct (tree_purge_has w s t Ht) as (t' & -> & Hl). intros [= <- <-]. split.
  - eexists. apply has_tree_set.
  - unfold mem_st_view. rewrite (tree_lookup_has _ _ _ _ (has_tree_set w s _)), Hl.
    by rewrite starts_with_refl.
Qed.

Definition mem_separate w c s : Prop :=
  mem_coll_inv w c /\ mem_st_inv w s /\ ms_data c <> ms_data s.

(** Writing the tree of one handle keeps what the other one reads. *)
Lemma mem_coll_other w c s t :
  ms_data c <> ms_data s -> mem_coll_inv w c ->
  mem_coll_inv (set_tree w (ms_data s) t) c /\
  forall k, mem_coll_view (set_tree w (ms_data s) t) c k = mem_coll_view w c k.
Proof.
  intros Hn (tc & Hc & Hk). split; [exists tc; split; [by apply has_tree_set_ne|done]|].
  intros k. by apply tree_lookup_set_ne.
Qed.

Lemma mem_st_other w c s t :
  ms_data c <> ms_data s -> mem_st_inv w s ->
  mem_st_inv (set_tree w (ms_data c) t) s /\
  mem_st_view (set_tree w (ms_data c) t) s = mem_st_view w s.
Proof.
  intros Hn (ts & Hs). split; [exists ts; by apply has_tree_set_ne|].
  by apply tree_lookup_set_ne.
Qed.

#[export] Program Instance memory_backend_laws : BackendLaws MemWorld MemoryStore MemoryStore :=
  {| separate := mem_separate |}.
Next Obligation. intros w c s (Hc & Hs & _). done. Qed.
Next Obligation.
  intros w c s k v w' r (Hc & Hs & Hn) Hk Hput.
  destruct (@coll_put_law _ _ _ memory_collection_laws w c k v w' r Hc Hk Hput) as [Hc' _].
  destruct Hc as (t & Ht & _). cbn in Hput. unfold MemoryCollection.put in Hput.
  rewrite (tree_insert_has _ _ _ _ _ Ht) in Hput. inv Hput.
  destruct (mem_st_other w c s (<[MemoryCollection.full_key c k:=v]> t) Hn Hs). split; done.
Qed.
Next Obligation.
  intros w c s w' r (Hc & Hs & Hn) Hput.
  destruct (@coll_purge_law _ _ _ memory_collection_laws w c w' r Hc Hput) as [Hc' _].
  destruct Hc as (t & Ht & _). cbn in Hput. unfold MemoryCollection.purge in Hput.
  destruct (tree_purge_has w c t Ht) as (t' & Hp & _). rewrite Hp in Hput. inv Hput.
  destruct (mem_st_other w c s t' Hn Hs). split; done.
Qed.
Next Obligation.
  intros w c s v w' r (Hc & Hs & Hn) Hput.
  destruct (@st_put_law _ _ _ memory_state_laws w s v w' r Hs Hput) as [Hs' _].
  destruct Hs as (t & Ht). cbn in Hput. unfold MemoryState.put in Hput.
  rewrite (tree_insert_has _ _ _ _ _ Ht) in Hput. inv Hput.
  destruct (mem_coll_other w c s (<[ms_prefix s:=v]> t) Hn Hc). split; done.
Qed.
Next Obligation.
  intros w c s w' r (Hc & Hs & Hn) Hput.
  destruct (@st_purge_law _ _ _ memory_state_laws w s w' r Hs Hput) as [Hs' _].
  destruct Hs as (t & Ht). cbn in Hput. unfold MemoryState.purge in Hput.
  destruct (tree_purge_has w s t Ht) as (t' & Hp & _). rewrite Hp in Hput. inv Hput.
  destruct (mem_coll_other w c s t' Hn Hc). split; done.
Qed.

End Laws.

(** ** Opening stores *)

(** The manager's table is consistent: its lock is healthy, it points at healthy
    trees, and no two names share a tree. *)
Definition mgr_wf (w : MemWorld) (m : MemoryManager) : Prop :=
  exists data, managers w !! mgr_data m = Some (mk_lock false data) /\
    (forall k loc, data !! k = Some loc -> exists t, trees w !! loc = Some (mk_lock false t)) /\
    (forall k1 k2 loc, data !! k1 = Some loc -> data !! k2 = Some loc -> k1 = k2).

Lemma default_wf w w' m : MemoryManager.default w = (w', m) -> mgr_wf w' m.
Proof.
  unfold MemoryManager.default. intros [= <- <-]. exists ∅. cbn.
  rewrite lookup_insert_eq. split_and!; [done| |]; intros *; by rewrite lookup_empty.
Qed.

Lemma open_store_Ok w m name prefix :
  mgr_wf w m ->
  exists w' loc data,
    MemoryManager.open_store w m name prefix = (w', Ok (mk_store name prefix loc)) /\
    mgr_wf w' m /\
    managers w' !! mgr_data m = Some (mk_lock false data) /\ data !! (name, prefix) = Some loc /\
    forall l t, trees w !! l = Some t -> trees w' !! l = Some t.
Proof.
  intros (data & Hd & Ht & Hi). unfold MemoryManager.open_store, lock_at. rewrite Hd. cbn.
  destruct (data !! (name, prefix)) as [loc|] eqn:Hl.
  { exists w, loc, data. split_and!; [done|by exists data|done..]. }
  set (loc := fresh (dom (trees w))).
  assert (trees w !! loc = None) as Hf by (apply not_elem_of_dom, is_fresh).
  assert (forall l t, trees w !! l = Some t ->
    <[loc:=mk_lock false ∅]> (trees w) !! l = Some t) as Hkeep.
  { intros l t Hlt. rewrite lookup_insert_ne; [done|congruence]. }
  eexists _, loc, (<[(name, prefix):=loc]> data).
  split; [done|]. cbn. rewrite !lookup_insert_eq. split_and!; [|done..].
  eexists. cbn. rewrite lookup_insert_eq. split_and!; [done| |].
  - intros k l. rewrite lookup_insert_Some. intros [[_ <-]|[_ Hk]].
    + exists ∅. apply lookup_insert_eq.
    + destruct (Ht k l Hk) as [t Htl]. exists t. by apply Hkeep.
  - intros k1 k2 l. rewrite !lookup_insert_Some.
    assert (forall k, data !! k <> Some loc) as Hno.
    { intros k Hk. destruct (Ht k loc Hk) as [t Htl]. congruence. }
    intros [[<- <-]|[_ H1]] [[<- Hl2]|[_ H2]]; subst;
      [done|by destruct (Hno k2)|by destruct (Hno k1)|by eapply Hi].
Qed.

(** A memory manager creates an empty tree for a new name and prefix and returns the same tree,
    with its contents, when the name and prefix are opened again, as a collection or as a state. *)
Theorem reopening_finds_the_same_tree w m name prefix :
  mgr_wf w m ->
  exists w' s,
    MemoryManager.create_collection w m name prefix = (w', Ok s) /\ mgr_wf w' m /\
    (forall l t, trees w !! l = Some t -> trees w' !! l = Some t) /\
    (forall w2, managers w2 = managers w' ->
       MemoryManager.create_collection w2 m name prefix = (w2, Ok s) /\
       MemoryManager.create_state w2 m name prefix = (w2, Ok s)) /\
    (forall name' prefix' w2 s', (name', prefix') <> (name, prefix) ->
       MemoryManager.create_state w' m name' prefix' = (w2, Ok s') -> ms_data s' <> ms_data s).
Proof.
  intros Hm. destruct (open_store_Ok w m name prefix Hm)
    as (w' & loc & data & Ho & Hm' & Hd & Hl & Hk).
  exists w', (mk_store name prefix loc). split_and!; [done..| |].
  - intros w2 Hw2. unfold MemoryManager.create_collection, MemoryManager.create_state,
      MemoryManager.open_store, lock_at. rewrite Hw2, Hd. cbn. by rewrite Hl.
  - intros name' prefix' w2 s' Hne Ho2. unfold MemoryManager.create_state in Ho2.
    destruct (open_store_Ok w' m name' prefix' Hm')
      as (w3 & loc' & data' & Ho3 & (data3 & Hd3 & _ & Hi3) & Hd' & Hl' & Hk').
    rewrite Ho2 in Ho3. injection Ho3 as <- ->. cbn. intros ->.
    assert (data' !! (name, prefix) = Some loc) as Hl3.
    { revert Ho2. unfold MemoryManager.open_store, lock_at. rewrite Hd. cbn.
      case_match; intros [= <- _].
      - congruence.
      - cbn in Hd'. rewrite lookup_insert_eq in Hd'. injection Hd' as <-.
        by rewrite lookup_insert_ne. }
    rewrite Hd3 in Hd'. injection Hd' as ->. by destruct (Hne (Hi3 _ _ _ Hl' Hl3)).
Qed.

(** A state written under the name and prefix of a collection lives in the
    collection's tree under the bare prefix, which the iterator cannot strip. *)
Lemma strip_bare_prefix prefix l v :
  (prefix, v) ∈ l -> MemoryCollection.strip_keys prefix l = Panic.
Proof.
  assert (forall s n, match slice_from (E:=Error) s n with Err _ => False | _ => True end) as Hne.
  { induction s as [|c s IH]; intros [|n]; cbn; try done; [|apply IH].
    by destruct (is_continuation c). }
  assert (forall s, slice_from (E:=Error) s (String.length s + 1) = Panic) as Hs.
  { induction s as [|c s IH]; [done|]. cbn. apply IH. }
  induction l as [|[k v'] l IH]; intros Hin; [by apply not_elem_of_nil in Hin|].
  cbn [MemoryCollection.strip_keys]. apply elem_of_cons in Hin as [[= -> ->]|Hin].
  - by rewrite Hs.
  - rewrite (IH Hin). pose proof (Hne k (String.length prefix + 1)).
    by destruct (slice_from k (String.length prefix + 1)).
Qed.

(** A state and a collection opened under one name and prefix share a tree: once the state is
    written, iterating the collection panics. *)
Theorem state_under_a_collection_name_breaks_iteration w s data w' rev :
  mem_coll_inv w s ->
  MemoryState.put w s data = (w', Ok tt) -> MemoryCollection.iter w' s rev = Panic.
Proof.
  intros (t & Ht & _). unfold MemoryState.put. rewrite (tree_insert_has _ _ _ _ _ Ht).
  intros [= <-]. unfold MemoryCollection.iter.
  rewrite (tree_of_has _ _ _ (has_tree_set w s _)).
  rewrite (strip_bare_prefix _ _ data); [done|].
  apply list_elem_of_In, List.filter_In. split; [|by apply starts_with_refl].
  apply list_elem_of_In.
  assert ((ms_prefix s, data) ∈ btree_iter (<[ms_prefix s:=data]> t)).
  { apply btree_iter_elem, lookup_insert_eq. }
  destruct rev; by rewrite ?elem_of_reverse.
Qed.

(** ** Refinement of a finite map *)

#[export] Instance memory_reliable : Reliable MemWorld MemoryStore not_found (Err not_found).
Proof.
  split.
  - intros w c k (t & Ht & _) Hk. cbn in *. unfold MemoryCollection.get, tree_get, mem_coll_view in *.
    rewrite (tree_lookup_has _ _ _ _ Ht) in Hk. rewrite (tree_of_has _ _ _ Ht). cbn. by rewrite Hk.
  - intros w c k v (t & Ht & _) _. cbn. unfold MemoryCollection.put.
    by rewrite (tree_insert_has _ _ _ _ _ Ht).
  - intros w c k (t & Ht & _). cbn. unfold MemoryCollection.del, tree_remove, mem_coll_view.
    rewrite (tree_of_has _ _ _ Ht), (tree_lookup_has _ _ _ _ Ht).
    by destruct (t !! MemoryCollection.full_key c k).
  - intros w c (t & Ht & _). cbn. unfold MemoryCollection.purge.
    by destruct (tree_purge_has w c t Ht) as (t' & -> & _).
Qed.

(** C15: Any sequence of get, put, del, purge and iter on a memory collection answers as the
    same sequence on a finite map: the prefix of the keys is invisible and iteration is in the
    order of the keys or its reverse. *)
Theorem memory_collection_refines_map w s m os :
  represents w s m -> Forall op_ok os ->
  let impl := run_ops (run_op s) w os in
  let spec := run_ops (spec_op not_found (Err not_found)) m os in
  impl.2 = spec.2 /\ represents impl.1 s spec.1.
Proof. apply sessions_refine. Qed.

(** ** Witnesses *)

Definition empty_world : MemWorld := mk_world ∅ ∅.

Definition demo_mgr : MemWorld * MemoryManager := MemoryManager.default empty_world.

Lemma demo_mgr_wf : mgr_wf demo_mgr.1 demo_mgr.2.
Proof. by apply (default_wf empty_world). Qed.

Lemma reopening_finds_the_same_tree_witness :
  exists w' s,
    MemoryManager.create_collection demo_mgr.1 demo_mgr.2 "store_events" "u1" = (w', Ok s) /\
    MemoryManager.create_collection w' demo_mgr.2 "store_events" "u1" = (w', Ok s).
Proof.
  destruct (reopening_finds_the_same_tree demo_mgr.1 demo_mgr.2 "store_events" "u1" demo_mgr_wf)
    as (w' & s & Hc & _ & _ & Hr & _).
  exists w', s. split; [exact Hc|]. exact (proj1 (Hr w' eq_refl)).
Defined.

(** A world with one empty tree, and the handle of it. *)
Definition one_tree : MemWorld := mk_world ∅ {[ 0 := mk_lock false ∅ ]}.
Definition one_store : MemoryStore := mk_store "test" "p" 0.

Lemma one_store_represents : represents one_tree one_store ∅.
Proof.
  split; [|by intros k]. exists ∅. split; [done|]. intros k v. by rewrite lookup_empty.
Qed.

Lemma state_under_a_collection_name_breaks_iteration_witness :
  exists w', MemoryState.put one_tree one_store [] = (w', Ok tt) /\
    MemoryCollection.iter w' one_store false = Panic.
Proof.
  eexists. split; [vm_compute; reflexivity|].
  refine (state_under_a_collection_name_breaks_iteration one_tree one_store [] _ false
            (proj1 one_store_represents) _).
  vm_compute. reflexivity.
Defined.

Definition demo_ops : list coll_op :=
  [OpPut "k2" [Byte.x02]; OpPut "k1" [Byte.x01]; OpIter true; OpDel "k3"; OpGet "k1"].

Lemma demo_ops_ok : Forall op_ok demo_ops.
Proof. by repeat constructor. Qed.

Lemma memory_collection_refines_map_witness :
  (run_ops (run_op one_store) one_tree demo_ops).2
  = [RUnit (Ok tt); RUnit (Ok tt);
     RIter (Ok [Yield ("k2", [Byte.x02]); Yield ("k1", [Byte.x01])]);
     RUnit (Err not_found); RGet (Ok [Byte.x01])].
Proof.
  etransitivity.
  - exact (proj1 (memory_collection_refines_map one_tree one_store ∅ demo_ops
                    one_store_represents demo_ops_ok)).
  - vm_compute. reflexivity.
Defined.

(** The ranges of [Database], on a tree with two entries. *)
Definition two_entries : MemWorld := (run_ops (run_op one_store) one_tree demo_ops).1.

Lemma two_entries_inv : coll_inv two_entries one_store.
Proof.
  assert (trees two_entries !! 0
          = Some (mk_lock false (<["p.k1" := [Byte.x01]]> (<["p.k2" := [Byte.x02]]> ∅)))) as Ht
    by (vm_compute; reflexivity).
  eexists. split; [exact Ht|]. intros k v. rewrite !lookup_insert.
  repeat case_decide; subst; [by exists "k1"|by exists "k2"|by rewrite lookup_empty].
Qed.

#[local] Instance checked_build : BuildMode := { overflow_checks := true }.

Lemma get_by_range_spec_witness :
  exists l, sorted_bindings l (mem_coll_view two_entries one_store) /\
    get_by_range two_entries one_store (Some "k2") (-1)
    = Ok (take 1 (snd <$> range_of l (Some "k2") (-1))).
Proof.
  destruct (get_by_range_spec two_entries one_store (Some "k2") (-1) two_entries_inv ltac:(done))
    as (l & Hl & Hr).
  exists l. split; [exact Hl|]. rewrite Hr.
  change (coll_view two_entries one_store "k2") with (mem_coll_view two_entries one_store "k2").
  replace (mem_coll_view two_entries one_store "k2") with (Some [Byte.x02]) by (vm_compute; reflexivity).
  reflexivity.
Defined.

Lemma get_by_range_min_witness : get_by_range two_entries one_store None isize_min = Panic.
Proof. exact (get_by_range_min two_entries one_store two_entries_inv). Defined.
