(* ===== verification/RocksDb.v ===== *)
(** * The RocksDB backend (databases/rocksdb_db/src/rocksdb.rs)

    The crate [rocksdb] is a parameter: the class [RocksDB] has the calls the
    backend makes, and [RocksDBLaws] what its documentation promises of a healthy
    database. The world of the backend is the database behind the shared
    [Arc<DB>]. All collections of one name share a column family, where the keys
    of each start with its prefix; what happens when one prefix starts with
    another is shown at the end. *)

From S2P Require Import Prelude Errors Database.
Import StoreError.

(** ** The crate [rocksdb]

    Column families are named; a handle is a name that exists. Errors are the
    texts that the backend prints. *)

Inductive IteratorMode : Type := ModeStart | ModeEnd.

Class RocksDB (D O : Type) := {
  default_options : O;
  cf_handle : D -> string -> bool;
  create_cf : D -> string -> O -> D * outcome string unit;
  get_cf : D -> string -> string -> outcome string (option bytes);
  put_cf : D -> string -> string -> bytes -> D * outcome string unit;
  delete_cf : D -> string -> string -> D * outcome string unit;
  flush_cf : D -> string -> D * outcome string unit;
  iterator_cf : D -> string -> IteratorMode -> list (outcome string (string * bytes));
}.

(** The file system and the databases on it. *)
Class RocksDisk (F D O : Type) := {
  path_exists : F -> string -> bool;
  create_dir_all : F -> string -> F * outcome string unit;
  create_if_missing : O -> bool -> O;
  list_cf : F -> O -> string -> outcome string (list string);
  open_cf_descriptors : F -> O -> string -> list (string * O) -> F * outcome string D;
}.

(** ** The backend *)

Record RocksDbManager (O : Type) : Type := mk_rocks_manager { rm_opts : O }.
Arguments mk_rocks_manager {O} _.
Arguments rm_opts {O} _.

Record RocksDbStore : Type := mk_rocks { rs_name : string; rs_prefix : string }.

Module RocksDbManager.

Section New.
Context {F D O : Type} `{RocksDB D O, RocksDisk F D O}.

(** [RocksDbManager::new]: the manager and the database it opened, with all the
    column families that exist. *)
Definition new (path : string) : stM F Error (RocksDbManager O * D) :=
  fs ← getM;
  _ ← (if path_exists fs path then mret tt
       else callM (fun e => CreateStore ("fail RockDB create directory: " +:+ e))
              (fun fs => create_dir_all fs path));
  let options := create_if_missing default_options true in
  fs ← getM;
  cfs ← match list_cf fs options path with
        | Ok cf_names => mret cf_names
        | Err _ => mret ["default"]
        | Panic => liftM Panic
        end;
  let cf_descriptors := (fun cf => (cf, default_options)) <$> cfs in
  db ← callM (fun e => CreateStore ("Can not open RockDB: " +:+ e))
         (fun fs => open_cf_descriptors fs options path cf_descriptors);
  mret (mk_rocks_manager options, db).

End New.

Section Factory.
Context {D O : Type} `{RocksDB D O}.

(** The body that both factory methods share. *)
Definition open_store (d : D) (m : RocksDbManager O) (name prefix : string)
    : D * outcome Error RocksDbStore :=
  let '(d, r) := if cf_handle d name then (d, Ok tt) else create_cf d name (rm_opts m) in
  (d, _ ← map_err CreateStore r; mret (mk_rocks name prefix)).

Definition create_collection (d : D) (m : RocksDbManager O) (name prefix : string)
    : D * outcome Error RocksDbStore := open_store d m name prefix.

Definition create_state (d : D) (m : RocksDbManager O) (name prefix : string)
    : D * outcome Error RocksDbStore := open_store d m name prefix.

End Factory.

End RocksDbManager.

#[export] Instance rocks_manager {D O} `{RocksDB D O}
  : DbManager D (RocksDbManager O) RocksDbStore RocksDbStore :=
  {| create_collection := RocksDbManager.create_collection;
     create_state := RocksDbManager.create_state |}.

(** ** Operations on the column family of a store *)

Module RocksDbStore.

Definition cf_missing : Error := Store "RocksDB column for the store does not exist.".
Definition no_rows : Error := EntryNotFound "Query returned no rows".

Section Operations.
Context {D O : Type} `{RocksDB D O}.

Definition get_key (d : D) (s : RocksDbStore) (key : string) : outcome Error bytes :=
  if cf_handle d (rs_name s) then
    result ← map_err Get (get_cf d (rs_name s) key);
    match result with
    | Some value => Ok value
    | None => Err no_rows
    end
  else Err cf_missing.

Definition put_key (d : D) (s : RocksDbStore) (key : string) (data : bytes)
    : D * outcome Error unit :=
  if cf_handle d (rs_name s) then
    callM Get (fun d => put_cf d (rs_name s) key data) d
  else (d, Err cf_missing).

Definition delete_key (d : D) (s : RocksDbStore) (key : string) : D * outcome Error unit :=
  if cf_handle d (rs_name s) then
    callM Get (fun d => delete_cf d (rs_name s) key) d
  else (d, Err cf_missing).

Definition flush_family (d : D) (s : RocksDbStore) : D * outcome Error unit :=
  if cf_handle d (rs_name s) then
    callM Get (fun d => flush_cf d (rs_name s)) d
  else (d, Err cf_missing).

(** The loop of [purge] over the flattened iterator, which skips the errors. *)
Fixpoint purge_loop (s : RocksDbStore) (items : list (outcome string (string * bytes)))
    : stM D Error unit :=
  match items with
  | [] => mret tt
  | Err _ :: items => purge_loop s items
  | Panic :: _ => liftM Panic
  | Ok (key, _) :: items =>
      key ← liftM (map_err (fun e => Store ("Can not convert key to string: " +:+ e))
                     (from_utf8 key));
      if starts_with key (rs_prefix s) then
        _ ← callM Get (fun d => delete_cf d (rs_name s) key);
        purge_loop s items
      else purge_loop s items
  end.

(** The iterator reads the database as it is when it is created. *)
Definition purge_keys (d : D) (s : RocksDbStore) : D * outcome Error unit :=
  if cf_handle d (rs_name s) then purge_loop s (iterator_cf d (rs_name s) ModeStart) d
  else (d, Err cf_missing).

End Operations.

End RocksDbStore.

(** ** [RocksDbIterator]

    [RocksDbIterator::next], repeated on what the iterator of the database gives:
    the first error ends it. *)
Fixpoint rocks_next (prefix : string) (items : list (outcome string (string * bytes))) : iterator :=
  match items with
  | Ok (key, value) :: items =>
      match from_utf8 key with
      | Ok key =>
          if starts_with key prefix then
            match slice_from (E:=Error) key (String.length prefix + 1) with
            | Ok key => Yield (key, value) :: rocks_next prefix items
            | _ => [YieldPanic]
            end
          else rocks_next prefix items
      | _ => [YieldPanic]
      end
  | Panic :: _ => [YieldPanic]
  | _ => []
  end.

(** ** [impl State for RocksDbStore] *)

Module RocksDbState.
Section Operations.
Context {D O : Type} `{RocksDB D O}.

Definition get (d : D) (s : RocksDbStore) : outcome Error bytes :=
  RocksDbStore.get_key d s (rs_prefix s).

Definition put (d : D) (s : RocksDbStore) (data : bytes) : D * outcome Error unit :=
  RocksDbStore.put_key d s (rs_prefix s) data.

Definition del (d : D) (s : RocksDbStore) : D * outcome Error unit :=
  RocksDbStore.delete_key d s (rs_prefix s).

Definition purge (d : D) (s : RocksDbStore) : D * outcome Error unit :=
  RocksDbStore.purge_keys d s.

Definition flush (d : D) (s : RocksDbStore) : D * outcome Error unit :=
  RocksDbStore.flush_family d s.

End Operations.
End RocksDbState.

(** ** [impl Collection for RocksDbStore] *)

Module RocksDbCollection.
Section Operations.
Context {D O : Type} `{RocksDB D O}.

(** [format!("{}.{}", self.prefix, key)]. *)
Definition full_key (s : RocksDbStore) (key : string) : string :=
  rs_prefix s +:+ "." +:+ key.

Definition get (d : D) (s : RocksDbStore) (key : string) : outcome Error bytes :=
  RocksDbStore.get_key d s (full_key s key).

Definition put (d : D) (s : RocksDbStore) (key : string) (data : bytes) : D * outcome Error unit :=
  RocksDbStore.put_key d s (full_key s key) data.

Definition del (d : D) (s : RocksDbStore) (key : string) : D * outcome Error unit :=
  RocksDbStore.delete_key d s (full_key s key).

Definition purge (d : D) (s : RocksDbStore) : D * outcome Error unit :=
  RocksDbStore.purge_keys d s.

Definition flush (d : D) (s : RocksDbStore) : D * outcome Error unit :=
  RocksDbStore.flush_family d s.

(** The first [next] looks the column family up and panics without it. *)
Definition iter (d : D) (s : RocksDbStore) (reverse : bool) : outcome Error iterator :=
  let mode := if reverse then ModeEnd else ModeStart in
  Ok (if cf_handle d (rs_name s)
      then rocks_next (rs_prefix s) (iterator_cf d (rs_name s) mode)
      else [YieldPanic]).

End Operations.
End RocksDbCollection.

#[export] Instance rocks_collection {D O} `{RocksDB D O} : Collection D RocksDbStore :=
  {| coll_name := rs_name;
     coll_get := RocksDbCollection.get;
     coll_put := RocksDbCollection.put;
     coll_del := RocksDbCollection.del;
     coll_purge := RocksDbCollection.purge;
     coll_iter := RocksDbCollection.iter |}.

#[export] Instance rocks_state {D O} `{RocksDB D O} : State D RocksDbStore :=
  {| st_name := rs_name;
     st_get := RocksDbState.get;
     st_put := RocksDbState.put;
     st_del := RocksDbState.del;
     st_purge := RocksDbState.purge |}.

(** ** A healthy database

    What the documentation of RocksDB says of calls that meet no I/O error: a
    column family is an ordered map on bytes, and an iterator reads the map as it
    was when the iterator was created. *)
Class RocksDBLaws (D O : Type) `{RocksDB D O} := {
  db_ok : D -> Prop;
  cf_view : D -> string -> string -> option bytes;
  get_cf_law : forall d cf k, db_ok d -> cf_handle d cf = true ->
    get_cf d cf k = Ok (cf_view d cf k);
  put_cf_law : forall d cf k v, db_ok d -> cf_handle d cf = true ->
    exists d', put_cf d cf k v = (d', Ok tt) /\ db_ok d' /\
      (forall cf', cf_handle d' cf' = cf_handle d cf') /\
      forall cf' k', cf_view d' cf' k' =
        if decide (cf' = cf /\ k' = k) then Some v else cf_view d cf' k';
  delete_cf_law : forall d cf k, db_ok d -> cf_handle d cf = true ->
    exists d', delete_cf d cf k = (d', Ok tt) /\ db_ok d' /\
      (forall cf', cf_handle d' cf' = cf_handle d cf') /\
      forall cf' k', cf_view d' cf' k' =
        if decide (cf' = cf /\ k' = k) then None else cf_view d cf' k';
  create_cf_law : forall d cf o, db_ok d -> cf_handle d cf = false ->
    exists d', create_cf d cf o = (d', Ok tt) /\ db_ok d' /\
      (forall cf', cf_handle d' cf' = bool_decide (cf' = cf) || cf_handle d cf') /\
      forall cf' k, cf_view d' cf' k = if decide (cf' = cf) then None else cf_view d cf' k;
  iterator_cf_law : forall d cf, db_ok d -> cf_handle d cf = true ->
    exists l, sorted_bindings l (cf_view d cf) /\
      iterator_cf d cf ModeStart = Ok <$> l /\ iterator_cf d cf ModeEnd = Ok <$> reverse l;
}.

Section Laws.
Context {D O : Type} `{RocksDBLaws D O}.
Implicit Types (d : D) (s c : RocksDbStore).

(** The family exists and its keys are text. *)
Record rocks_st_inv d s : Prop := {
  ri_ok : db_ok d;
  ri_cf : cf_handle d (rs_name s) = true;
  ri_prefix : is_utf8 (rs_prefix s) = true;
  ri_utf8 : forall k v, cf_view d (rs_name s) k = Some v -> is_utf8 k = true;
}.

(** Moreover the keys that start with the prefix are those of the collection. *)
Definition rocks_coll_inv d c : Prop :=
  rocks_st_inv d c /\
  forall k v, cf_view d (rs_name c) k = Some v -> starts_with k (rs_prefix c) = true ->
    exists k', k = RocksDbCollection.full_key c k' /\ is_utf8 k' = true.

Definition rocks_coll_view d c (k : string) : option bytes :=
  cf_view d (rs_name c) (RocksDbCollection.full_key c k).

Definition rocks_st_view d s : option bytes := cf_view d (rs_name s) (rs_prefix s).

Lemma full_key_utf8 c k :
  is_utf8 (rs_prefix c) = true -> is_utf8 k = true ->
  is_utf8 (RocksDbCollection.full_key c k) = true.
Proof. intros Hp Hk. unfold RocksDbCollection.full_key. by rewrite !is_utf8_app. Qed.

Lemma rocks_key_inj c k k' :
  RocksDbCollection.full_key c k = RocksDbCollection.full_key c k' -> k = k'.
Proof. unfold RocksDbCollection.full_key. intros Hk. by do 2 apply (inj _) in Hk. Qed.

(** [d'] is [d] with the binding of [k] in the family of [s] replaced. *)
Definition rocks_set d d' s k (o : option bytes) : Prop :=
  db_ok d' /\ (forall cf, cf_handle d' cf = cf_handle d cf) /\
  forall cf k', cf_view d' cf k' =
    if decide (cf = rs_name s /\ k' = k) then o else cf_view d cf k'.

Lemma put_key_set d s k v :
  rocks_st_inv d s ->
  exists d', RocksDbStore.put_key d s k v = (d', Ok tt) /\ rocks_set d d' s k (Some v).
Proof.
  intros [Hok Hcf _ _]. unfold RocksDbStore.put_key, callM. rewrite Hcf.
  destruct (put_cf_law d (rs_name s) k v) as (d' & -> & ? & ? & ?); [done..|].
  by exists d'.
Qed.

Lemma delete_key_set d s k :
  rocks_st_inv d s ->
  exists d', RocksDbStore.delete_key d s k = (d', Ok tt) /\ rocks_set d d' s k None.
Proof.
  intros [Hok Hcf _ _]. unfold RocksDbStore.delete_key, callM. rewrite Hcf.
  destruct (delete_cf_law d (rs_name s) k) as (d' & -> & ? & ? & ?); [done..|].
  by exists d'.
Qed.

(** Replacing the binding of a text keeps the invariant of every handle. *)
Lemma rocks_set_inv d d' s s' k o :
  rocks_set d d' s k o -> is_utf8 k = true -> rocks_st_inv d s' -> rocks_st_inv d' s'.
Proof.
  intros (Hok & Hcf & Hv) Hk [_ Hcf' Hp Hu]. split; [done|by rewrite Hcf|done|].
  intros k' v. rewrite Hv. case_decide as Hd; [by destruct Hd as [_ ->]|apply Hu].
Qed.

Lemma rocks_get_key d s k :
  rocks_st_inv d s ->
  RocksDbStore.get_key d s k
  = match cf_view d (rs_name s) k with Some v => Ok v | None => Err RocksDbStore.no_rows end.
Proof.
  intros [Hok Hcf _ _]. unfold RocksDbStore.get_key. by rewrite Hcf, get_cf_law.
Qed.

(** What [purge] does to the family: the loop deletes the listed keys that start
    with the prefix. *)
Lemma purge_loop_spec s l d :
  db_ok d -> cf_handle d (rs_name s) = true -> Forall (fun x => is_utf8 x.1 = true) l ->
  exists d', RocksDbStore.purge_loop s (Ok <$> l) d = (d', Ok tt) /\ db_ok d' /\
    (forall cf, cf_handle d' cf = cf_handle d cf) /\
    forall cf k, cf_view d' cf k =
      if decide (cf = rs_name s /\ starts_with k (rs_prefix s) = true /\ k ∈ l.*1)
      then None else cf_view d cf k.
Proof.
  intros Hok Hcf Hl. revert d Hok Hcf. induction Hl as [|[k v] l Hk Hl IH]; intros d Hok Hcf.
  { exists d. split_and!; [done..|]. intros cf k. rewrite decide_False; [done|].
    intros (_ & _ & Hin). by apply not_elem_of_nil in Hin. }
  cbn [fmap list_fmap RocksDbStore.purge_loop fst] in *.
  unfold mbind at 1, stM_bind at 1, liftM. rewrite from_utf8_ok by done. cbn [map_err].
  destruct (starts_with k (rs_prefix s)) eqn:Hs.
  - destruct (delete_cf_law d (rs_name s) k Hok Hcf) as (d1 & Hd & Hok1 & Hcf1 & Hv1).
    destruct (IH d1 Hok1) as (d' & Hp & Hok' & Hcf' & Hv'); [by rewrite Hcf1|].
    exists d'. unfold mbind, stM_bind, callM. rewrite Hd. cbn [map_err].
    split_and!; [done|done|intros cf; by rewrite Hcf', Hcf1|].
    intros cf k'. rewrite Hv', Hv1. pose proof (elem_of_cons l.*1 k' k).
    repeat case_decide; naive_solver.
  - destruct (IH d Hok Hcf) as (d' & Hp & Hok' & Hcf' & Hv'). exists d'.
    split_and!; [done..|]. intros cf k'. rewrite Hv'.
    pose proof (elem_of_cons l.*1 k' k). repeat case_decide; naive_solver congruence.
Qed.

(** Purging removes from the family exactly the keys that start with the prefix. *)
Lemma purge_keys_spec d s :
  rocks_st_inv d s ->
  exists d', RocksDbStore.purge_keys d s = (d', Ok tt) /\ rocks_st_inv d' s /\
    (forall cf, cf_handle d' cf = cf_handle d cf) /\
    forall cf k, cf_view d' cf k =
      if decide (cf = rs_name s /\ starts_with k (rs_prefix s) = true) then None
      else cf_view d cf k.
Proof.
  intros [Hok Hcf Hp Hu].
  destruct (iterator_cf_law d (rs_name s) Hok Hcf) as (l & [_ Hl] & Hs & _).
  destruct (purge_loop_spec s l d Hok Hcf) as (d' & Hd & Hok' & Hcf' & Hv).
  { apply Forall_forall. intros [k v] Hin. by eapply Hu, Hl. }
  assert (forall cf k, cf_view d' cf k =
    if decide (cf = rs_name s /\ starts_with k (rs_prefix s) = true) then None
    else cf_view d cf k) as Hv'.
  { intros cf k. rewrite Hv. repeat case_decide; try done; [naive_solver|].
    destruct (cf_view d cf k) as [v|] eqn:Hk; [|done]. exfalso.
    destruct_and!. subst cf. apply Hl, (list_elem_of_fmap_2 fst) in Hk. naive_solver. }
  exists d'. unfold RocksDbStore.purge_keys. rewrite Hcf, Hs. split_and!; [done| |done..].
  split; [done|by rewrite Hcf'|done|]. intros k v. rewrite Hv'. case_decide; [done|apply Hu].
Qed.

(** The iterator strips the prefix off the keys that start with it and skips the
    others. *)
Lemma rocks_next_spec prefix (l : list (string * bytes)) :
  (forall k v, (k, v) ∈ l -> is_utf8 k = true /\
    (starts_with k prefix = true -> exists k', k = prefix +:+ "." +:+ k' /\ is_utf8 k' = true)) ->
  exists l', List.filter (fun x => starts_with x.1 prefix) l = prefixed prefix <$> l' /\
    rocks_next prefix (Ok <$> l) = Yield <$> l'.
Proof.
  induction l as [|[k v] l IH]; intros Hl; [by exists []|].
  destruct IH as (l' & Hf & Hn); [intros k1 v1 H1; apply (Hl k1 v1); by constructor|].
  destruct (Hl k v) as [Hk Hp]; [by constructor|].
  cbn [fmap list_fmap rocks_next List.filter fst]. rewrite from_utf8_ok by done.
  destruct (starts_with k prefix); [|by exists l'].
  destruct (Hp eq_refl) as (k' & -> & Hk'). exists ((k', v) :: l').
  rewrite slice_prefixed by by apply is_utf8_head. cbn. by rewrite Hf, Hn.
Qed.

#[local] Instance prefixed_inj prefix : Inj (=) (=) (prefixed prefix).
Proof.
  intros [k v] [k' v']. unfold prefixed. cbn. intros [= Hk ->].
  do 2 apply (inj _) in Hk. by subst.
Qed.

Lemma StronglySorted_filter {A} (R : relation A) (f : A -> bool) l :
  StronglySorted R l -> StronglySorted R (List.filter f l).
Proof.
  induction 1 as [|x l Hs IH Hf]; cbn; [constructor|]. destruct (f x); [|done].
  constructor; [done|]. apply Forall_forall. intros y [Hy _]%list_elem_of_In%List.filter_In.
  rewrite Forall_forall in Hf. by apply Hf, list_elem_of_In.
Qed.

Lemma rocks_iter_law d c :
  rocks_coll_inv d c ->
  exists l, sorted_bindings l (rocks_coll_view d c) /\
    RocksDbCollection.iter d c false = Ok (Yield <$> l) /\
    RocksDbCollection.iter d c true = Ok (Yield <$> reverse l).
Proof.
  intros [[Hok Hcf Hp Hu] Hown].
  destruct (iterator_cf_law d (rs_name c) Hok Hcf) as (l & [Hsort Hl] & Hs & He).
  unfold RocksDbCollection.iter. rewrite Hcf, Hs, He.
  assert (forall k v, (k, v) ∈ l -> is_utf8 k = true /\
    (starts_with k (rs_prefix c) = true ->
     exists k', k = rs_prefix c +:+ "." +:+ k' /\ is_utf8 k' = true)) as Hkeys.
  { intros k v Hin%Hl. split; [by eapply Hu|by eapply Hown]. }
  destruct (rocks_next_spec (rs_prefix c) l Hkeys) as (l1 & Hf1 & ->).
  destruct (rocks_next_spec (rs_prefix c) (reverse l)) as (l2 & Hf2 & ->).
  { intros k v. rewrite elem_of_reverse. apply Hkeys. }
  assert (l2 = reverse l1) as ->.
  { apply (inj (fmap (prefixed (rs_prefix c)))). rewrite <- Hf2, fmap_reverse, <- Hf1.
    unfold reverse. rewrite <- !rev_alt. apply List.filter_rev. }
  exists l1. split_and!; [|done..]. split.
  - apply (prefixed_sorted (rs_prefix c)). rewrite <- Hf1. by apply StronglySorted_filter.
  - intros k v. unfold rocks_coll_view. rewrite <- Hl.
    transitivity (prefixed (rs_prefix c) (k, v) ∈ prefixed (rs_prefix c) <$> l1).
    { symmetry. apply list_elem_of_fmap_inj, _. }
    rewrite <- Hf1, list_elem_of_In, List.filter_In, <- list_elem_of_In.
    unfold prefixed, RocksDbCollection.full_key. cbn [fst snd].
    rewrite starts_with_app. naive_solver.
Qed.

(** Replacing one key of a collection. *)
Lemma rocks_coll_set d d' c k o :
  rocks_set d d' c (RocksDbCollection.full_key c k) o -> is_utf8 k = true \/ o = None ->
  rocks_coll_inv d c ->
  rocks_coll_inv d' c /\
  forall k', rocks_coll_view d' c k' = if decide (k' = k) then o else rocks_coll_view d c k'.
Proof.
  intros (Hok & Hcf & Hv) Hk [[_ Hcf' Hp Hu] Hown]. split; [split|].
  - split; [done|by rewrite Hcf|done|]. intros k' v. rewrite Hv.
    case_decide as Hd; [|apply Hu]. destruct Hd as [_ ->]. intros ->.
    destruct Hk as [Hk|[=]]. by apply full_key_utf8.
  - intros k' v. rewrite Hv. case_decide as Hd; [|apply Hown]. destruct Hd as [_ ->].
    intros -> _. destruct Hk as [Hk|[=]]. by exists k.
  - intros k'. unfold rocks_coll_view. rewrite Hv.
    repeat case_decide; destruct_and?; subst; try done; [|naive_solver].
    match goal with Hq : _ = _ |- _ => by apply rocks_key_inj in Hq end.
Qed.

#[export] Program Instance rocks_collection_laws : CollectionLaws D RocksDbStore :=
  {| coll_inv := rocks_coll_inv; coll_view := rocks_coll_view |}.
Next Obligation.
  intros d c k [Hi _]. cbn. unfold RocksDbCollection.get, rocks_coll_view.
  rewrite rocks_get_key by done. case_match; [done|by eexists].
Qed.
Next Obligation.
  intros d c k v d' r Hi Hk. cbn. unfold RocksDbCollection.put.
  destruct (put_key_set d c (RocksDbCollection.full_key c k) v (proj1 Hi)) as (d1 & -> & Hs).
  intros [= <- <-]. apply (rocks_coll_set d d1 c k (Some v)); auto.
Qed.
Next Obligation.
  intros d c k d' r Hi. cbn. unfold RocksDbCollection.del.
  destruct (delete_key_set d c (RocksDbCollection.full_key c k) (proj1 Hi)) as (d1 & -> & Hs).
  intros [= <- <-]. apply (rocks_coll_set d d1 c k None); auto.
Qed.
Next Obligation.
  intros d c d' r [Hi Hown]. cbn. unfold RocksDbCollection.purge.
  destruct (purge_keys_spec d c Hi) as (d1 & -> & Hi1 & _ & Hv). intros [= <- <-].
  split; [split; [done|]|].
  - intros k v. rewrite Hv. case_decide; [done|apply Hown].
  - intros k. unfold rocks_coll_view. rewrite Hv, decide_True; [done|].
    split; [done|]. apply starts_with_app.
Qed.
Next Obligation. intros d c. apply rocks_iter_law. Qed.

#[export] Program Instance rocks_state_laws : StateLaws D RocksDbStore :=
  {| st_inv := rocks_st_inv; st_view := rocks_st_view |}.
Next Obligation.
  intros d s Hi. cbn. unfold RocksDbState.get, rocks_st_view.
  rewrite rocks_get_key by done. case_match; [done|by eexists].
Qed.
Next Obligation.
  intros d s v d' r Hi. cbn. unfold RocksDbState.put.
  destruct (put_key_set d s (rs_prefix s) v Hi) as (d1 & -> & Hs). intros [= <- <-].
  split; [by eapply rocks_set_inv; [| |done]; [|apply Hi]|].
  destruct Hs as (_ & _ & Hv). unfold rocks_st_view. by rewrite Hv, decide_True.
Qed.
Next Obligation.
  intros d s d' r Hi. cbn. unfold RocksDbState.purge.
  destruct (purge_keys_spec d s Hi) as (d1 & -> & Hi1 & _ & Hv). intros [= <- <-].
  split; [done|]. unfold rocks_st_view. rewrite Hv, decide_True; [done|].
  split; [done|apply starts_with_refl].
Qed.

#[export] Instance rocks_reliable : Reliable D RocksDbStore RocksDbStore.no_rows (Ok tt).
Proof.
  split.
  - intros d c k [Hi _] Hk. cbn in *. unfold RocksDbCollection.get, rocks_coll_view in *.
    by rewrite rocks_get_key, Hk.
  - intros d c k v [Hi _] _. cbn. unfold RocksDbCollection.put.
    by destruct (put_key_set d c (RocksDbCollection.full_key c k) v Hi) as (d' & -> & _).
  - intros d c k [Hi _]. cbn. unfold RocksDbCollection.del.
    destruct (delete_key_set d c (RocksDbCollection.full_key c k) Hi) as (d' & -> & _).
    by case_match.
  - intros d c [Hi _]. cbn. unfold RocksDbCollection.purge.
    by destruct (purge_keys_spec d c Hi) as (d' & -> & _).
Qed.

(** A step that leaves the family of a handle alone. *)
Definition same_family d d' s : Prop :=
  db_ok d' /\ (forall cf, cf_handle d' cf = cf_handle d cf) /\
  forall k, cf_view d' (rs_name s) k = cf_view d (rs_name s) k.

Lemma same_family_st d d' s :
  same_family d d' s -> rocks_st_inv d s ->
  rocks_st_inv d' s /\ rocks_st_view d' s = rocks_st_view d s.
Proof.
  intros (Hok & Hcf & Hv) [_ Hcf' Hp Hu]. split; [|apply Hv].
  split; [done|by rewrite Hcf|done|]. intros k v. rewrite Hv. apply Hu.
Qed.

Lemma same_family_coll d d' c :
  same_family d d' c -> rocks_coll_inv d c ->
  rocks_coll_inv d' c /\ forall k, rocks_coll_view d' c k = rocks_coll_view d c k.
Proof.
  intros Hs [Hi Hown]. split; [split|].
  - by eapply same_family_st.
  - intros k v. destruct Hs as (_ & _ & Hv). rewrite Hv. apply Hown.
  - intros k. apply Hs.
Qed.

Lemma rocks_set_other d d' s s' k o :
  rocks_set d d' s k o -> rs_name s <> rs_name s' -> same_family d d' s'.
Proof.
  intros (Hok & Hcf & Hv) Hn. split_and!; [done..|]. intros k'.
  rewrite Hv, decide_False by naive_solver. done.
Qed.

Lemma purge_keys_other d d' s s' r :
  rocks_st_inv d s -> RocksDbStore.purge_keys d s = (d', r) -> rs_name s <> rs_name s' ->
  same_family d d' s'.
Proof.
  intros Hi Hp Hn. destruct (purge_keys_spec d s Hi) as (d1 & Hp1 & Hi1 & Hcf & Hv).
  rewrite Hp1 in Hp. injection Hp as -> _. split_and!; [apply Hi1|done|]. intros k.
  rewrite Hv, decide_False by naive_solver. done.
Qed.

Definition rocks_separate d c s : Prop :=
  rocks_coll_inv d c /\ rocks_st_inv d s /\ rs_name c <> rs_name s.

#[export] Program Instance rocks_backend_laws : BackendLaws D RocksDbStore RocksDbStore :=
  {| separate := rocks_separate |}.
Next Obligation. intros d c s (Hc & Hs & _). done. Qed.
Next Obligation.
  intros d c s k v d' r (Hc & Hs & Hn) Hk Hput.
  destruct (@coll_put_law _ _ _ rocks_collection_laws d c k v d' r Hc Hk Hput) as [Hc' _].
  cbn in Hput. unfold RocksDbCollection.put in Hput.
  destruct (put_key_set d c (RocksDbCollection.full_key c k) v (proj1 Hc)) as (d1 & Hp & Hset).
  rewrite Hp in Hput. injection Hput as <- <-.
  destruct (same_family_st d d1 s (rocks_set_other _ _ _ _ _ _ Hset Hn) Hs). done.
Qed.
Next Obligation.
  intros d c s d' r (Hc & Hs & Hn) Hput.
  destruct (@coll_purge_law _ _ _ rocks_collection_laws d c d' r Hc Hput) as [Hc' _].
  destruct (same_family_st d d' s (purge_keys_other _ _ _ _ _ (proj1 Hc) Hput Hn) Hs). done.
Qed.
Next Obligation.
  intros d c s v d' r (Hc & Hs & Hn) Hput.
  destruct (@st_put_law _ _ _ rocks_state_laws d s v d' r Hs Hput) as [Hs' _].
  cbn in Hput. unfold RocksDbState.put in Hput.
  destruct (put_key_set d s (rs_prefix s) v Hs) as (d1 & Hp & Hset).
  rewrite Hp in Hput. injection Hput as <- <-.
  destruct (same_family_coll d d1 c (rocks_set_other _ _ _ _ _ _ Hset (not_eq_sym Hn)) Hc). done.
Qed.
Next Obligation.
  intros d c s d' r (Hc & Hs & Hn) Hput.
  destruct (@st_purge_law _ _ _ rocks_state_laws d s d' r Hs Hput) as [Hs' _].
  destruct (same_family_coll d d' c (purge_keys_other _ _ _ _ _ Hs Hput (not_eq_sym Hn)) Hc). done.
Qed.

(** *** The collection refines a finite map *)

(** C16: Any sequence of get, put, del, purge and iter on a RocksDB collection whose prefix
    starts no other key of the family answers as the same sequence on a finite map, although the
    family holds the keys of all collections and purge and iter walk through all of them; a
    deletion of an absent key succeeds. *)
Theorem rocksdb_collection_refines_map d c m os :
  represents d c m -> Forall op_ok os ->
  let impl := run_ops (run_op c) d os in
  let spec := run_ops (spec_op RocksDbStore.no_rows (Ok tt)) m os in
  impl.2 = spec.2 /\ represents impl.1 c spec.1.
Proof. apply sessions_refine. Qed.

(** *** Opening a store *)

(** Opening a store creates its family when it is missing, keeps the contents of the others, and
    gives an empty collection in a new family. *)
Theorem rocksdb_open_store d (m : RocksDbManager O) name prefix :
  db_ok d -> is_utf8 prefix = true ->
  (forall k v, cf_handle d name = true -> cf_view d name k = Some v -> is_utf8 k = true) ->
  let s := mk_rocks name prefix in
  exists d', RocksDbManager.create_collection d m name prefix = (d', Ok s) /\
    RocksDbManager.create_state d' m name prefix = (d', Ok s) /\ rocks_st_inv d' s /\
    (forall cf k, cf_handle d cf = true -> cf_view d' cf k = cf_view d cf k) /\
    (cf_handle d name = false -> represents d' s ∅).
Proof.
  intros Hok Hp Hu. cbn zeta.
  unfold RocksDbManager.create_collection, RocksDbManager.create_state, RocksDbManager.open_store.
  destruct (cf_handle d name) eqn:Hcf.
  { exists d. rewrite Hcf. split_and!; [done..| |done|done].
    split; [done..|]. intros k v. by apply Hu. }
  destruct (create_cf_law d name (rm_opts m) Hok Hcf) as (d' & -> & Hok' & Hcf' & Hv).
  assert (cf_handle d' name = true) as Hn by (by rewrite Hcf', bool_decide_true).
  assert (forall k, cf_view d' name k = None) as He by (intros k; by rewrite Hv, decide_True).
  assert (rocks_st_inv d' (mk_rocks name prefix)) as Hi.
  { split; [done..|]. intros k v. cbn. by rewrite He. }
  exists d'. rewrite Hn. split; [done|]. split; [done|]. split; [done|]. split.
  - intros cf k Hcf2. rewrite Hv, decide_False; [done|]. congruence.
  - intros _. split; [split; [done|]|].
    + intros k v. cbn. by rewrite He.
    + intros k. apply He.
Qed.

(** *** Failures *)

(** Without its family every call fails, and iterating panics; the errors of the database are
    reported with Error::Get, writes and deletions included. *)
Theorem rocksdb_failures d s key data :
  (cf_handle d (rs_name s) = false ->
     RocksDbCollection.get d s key = Err RocksDbStore.cf_missing /\
     RocksDbCollection.put d s key data = (d, Err RocksDbStore.cf_missing) /\
     RocksDbCollection.del d s key = (d, Err RocksDbStore.cf_missing) /\
     RocksDbCollection.purge d s = (d, Err RocksDbStore.cf_missing) /\
     RocksDbCollection.flush d s = (d, Err RocksDbStore.cf_missing) /\
     last_entry d s = Panic) /\
  (cf_handle d (rs_name s) = true -> forall d' e,
     (get_cf d (rs_name s) (RocksDbCollection.full_key s key) = Err e ->
        RocksDbCollection.get d s key = Err (Get e)) /\
     (put_cf d (rs_name s) (RocksDbCollection.full_key s key) data = (d', Err e) ->
        RocksDbCollection.put d s key data = (d', Err (Get e))) /\
     (delete_cf d (rs_name s) (RocksDbCollection.full_key s key) = (d', Err e) ->
        RocksDbCollection.del d s key = (d', Err (Get e)))).
Proof.
  unfold RocksDbCollection.get, RocksDbCollection.put, RocksDbCollection.del,
    RocksDbCollection.purge, RocksDbCollection.flush, RocksDbStore.flush_family,
    RocksDbStore.get_key, RocksDbStore.put_key, RocksDbStore.delete_key,
    RocksDbStore.purge_keys, callM, last_entry.
  change (coll_iter d s true) with (RocksDbCollection.iter d s true).
  unfold RocksDbCollection.iter. split; intros ->.
  - split_and!; reflexivity.
  - intros d' e. split; [by intros ->|]. split; by intros ->.
Qed.

(** *** Prefixes that start with another prefix *)

(** A purge also deletes the keys of every collection of the family whose prefix starts with
    that of the purged one. *)
Theorem rocksdb_purge_reaches_longer_prefixes d c c' k :
  rocks_st_inv d c -> rs_name c' = rs_name c -> starts_with (rs_prefix c') (rs_prefix c) = true ->
  exists d', RocksDbCollection.purge d c = (d', Ok tt) /\
    RocksDbCollection.get d' c' k = Err RocksDbStore.no_rows.
Proof.
  intros Hi Hn Hp. destruct (purge_keys_spec d c Hi) as (d' & Hd & Hi' & _ & Hv).
  exists d'. split; [done|]. unfold RocksDbCollection.get, RocksDbStore.get_key.
  destruct Hi' as [Hok Hcf _ _]. rewrite Hn, Hcf, get_cf_law by done.
  rewrite Hv, decide_True; [done|]. split; [done|].
  apply starts_with_spec in Hp as [x Hx]. unfold RocksDbCollection.full_key.
  rewrite Hx, append_assoc. apply starts_with_app.
Qed.

End Laws.

(** ** A database on finite maps

    An instance of the crate for the witnesses. *)
Module MapDb.

Abbreviation map_db := (gmap string btree).

Definition map_set (d : map_db) (cf : string) (f : btree -> btree)
    : map_db * outcome string unit :=
  match d !! cf with
  | Some t => (<[cf := f t]> d, Ok tt)
  | None => (d, Err "column family not found")
  end.

#[export] Instance map_rocksdb : RocksDB map_db unit := {|
  default_options := tt;
  cf_handle := fun d cf => bool_decide (is_Some (d !! cf));
  create_cf := fun d cf _ => (<[cf := ∅]> d, Ok tt);
  get_cf := fun d cf k =>
    match d !! cf with Some t => Ok (t !! k) | None => Err "column family not found" end;
  put_cf := fun d cf k v => map_set d cf (insert k v);
  delete_cf := fun d cf k => map_set d cf (delete k);
  flush_cf := fun d cf => (d, Ok tt);
  iterator_cf := fun d cf mode =>
    match d !! cf with
    | Some t => Ok <$> match mode with
                       | ModeStart => btree_iter t
                       | ModeEnd => reverse (btree_iter t)
                       end
    | None => []
    end;
|}.

Definition map_view (d : map_db) (cf k : string) : option bytes :=
  match d !! cf with Some t => t !! k | None => None end.

Lemma map_set_spec d cf f :
  cf_handle d cf = true ->
  exists d' t, map_set d cf f = (d', Ok tt) /\ d !! cf = Some t /\
    (forall cf', cf_handle d' cf' = cf_handle d cf') /\
    forall cf' k, map_view d' cf' k = if decide (cf' = cf) then f t !! k else map_view d cf' k.
Proof.
  intros [t Ht]%bool_decide_eq_true. exists (<[cf := f t]> d), t. unfold map_set. rewrite Ht.
  split; [done|]. split; [done|]. split.
  - intros cf'. cbn. apply bool_decide_ext. rewrite lookup_insert. case_decide as Hc; [subst|done].
    rewrite Ht. by split; eauto.
  - intros cf' k. unfold map_view. rewrite lookup_insert.
    destruct (decide (cf = cf')) as [->|Hn]; [by rewrite decide_True|by rewrite decide_False].
Qed.

#[export] Program Instance map_rocksdb_laws : RocksDBLaws map_db unit :=
  {| db_ok := fun _ => True; cf_view := map_view |}.
Next Obligation.
  intros d cf k _ [t Ht]%bool_decide_eq_true. cbn. unfold map_view. by rewrite Ht.
Qed.
Next Obligation.
  intros d cf k v _ Hcf. cbn.
  destruct (map_set_spec d cf (insert k v) Hcf) as (d' & t & Hs & Ht & Hh & Hv).
  exists d'. split; [done|]. split; [done|]. split; [done|]. intros cf' k'. rewrite Hv.
  unfold map_view. destruct (decide (cf' = cf)) as [->|Hn].
  - rewrite Ht, lookup_insert. destruct (decide (k = k')) as [->|Hk].
    + by rewrite decide_True.
    + rewrite decide_False; [done|]. intros [_ ?]. congruence.
  - by rewrite decide_False by (intros [? _]; done).
Qed.
Next Obligation.
  intros d cf k _ Hcf. cbn.
  destruct (map_set_spec d cf (delete k) Hcf) as (d' & t & Hs & Ht & Hh & Hv).
  exists d'. split; [done|]. split; [done|]. split; [done|]. intros cf' k'. rewrite Hv.
  unfold map_view. destruct (decide (cf' = cf)) as [->|Hn].
  - rewrite Ht, lookup_delete. destruct (decide (k = k')) as [->|Hk].
    + by rewrite decide_True.
    + rewrite decide_False; [done|]. intros [_ ?]. congruence.
  - by rewrite decide_False by (intros [? _]; done).
Qed.
Next Obligation.
  intros d cf o _ Hcf. cbn. eexists. split; [done|]. split; [done|]. split.
  - intros cf'. rewrite lookup_insert. destruct (decide (cf = cf')) as [->|Hn].
    + by rewrite !bool_decide_true by eauto.
    + by rewrite (bool_decide_false (cf' = cf)) by congruence.
  - intros cf' k. unfold map_view. rewrite lookup_insert.
    destruct (decide (cf = cf')) as [->|Hn].
    + by rewrite decide_True.
    + by rewrite decide_False by congruence.
Qed.
Next Obligation.
  intros d cf _ [t Ht]%bool_decide_eq_true. cbn. exists (btree_iter t). rewrite Ht.
  split; [|done]. split; [apply btree_iter_sorted|]. intros k v. unfold map_view. rewrite Ht.
  apply btree_iter_elem.
Qed.

End MapDb.

(** ** Witnesses *)

Import MapDb.

(** A database with one empty family, and a collection in it. *)
Definition one_family : map_db := {[ "test" := ∅ ]}.
Definition rocks_demo : RocksDbStore := mk_rocks "test" "user1".

Lemma one_family_st_inv s :
  rs_name s = "test" -> is_utf8 (rs_prefix s) = true -> rocks_st_inv one_family s.
Proof.
  intros Hn Hp. split; rewrite ?Hn; [done| |done|]; [vm_compute; reflexivity|].
  intros k v. cbn. unfold map_view, one_family. rewrite lookup_singleton_eq.
  by rewrite lookup_empty.
Qed.

Lemma one_family_represents : represents one_family rocks_demo ∅.
Proof.
  split; [split; [by apply one_family_st_inv|]|].
  - intros k v. cbn. unfold map_view, one_family. by rewrite lookup_singleton_eq, lookup_empty.
  - intros k. cbn. unfold rocks_coll_view. cbn. unfold map_view, one_family. cbn.
    by rewrite lookup_singleton_eq.
Qed.

Definition rocks_ops : list coll_op :=
  [OpPut "k2" [Byte.x02]; OpPut "k1" [Byte.x01]; OpIter true; OpDel "k3"; OpGet "k3"].

Lemma rocks_ops_ok : Forall op_ok rocks_ops.
Proof. by repeat constructor. Qed.

Lemma rocksdb_collection_refines_map_witness :
  (run_ops (run_op rocks_demo) one_family rocks_ops).2
  = [RUnit (Ok tt); RUnit (Ok tt);
     RIter (Ok [Yield ("k2", [Byte.x02]); Yield ("k1", [Byte.x01])]);
     RUnit (Ok tt); RGet (Err RocksDbStore.no_rows)].
Proof.
  etransitivity.
  - exact (proj1 (rocksdb_collection_refines_map one_family rocks_demo ∅ rocks_ops
                    one_family_represents rocks_ops_ok)).
  - vm_compute. reflexivity.
Defined.

Lemma rocksdb_open_store_witness :
  exists d', RocksDbManager.create_collection (∅ : map_db) (mk_rocks_manager tt) "e" "user1"
    = (d', Ok (mk_rocks "e" "user1")) /\ represents d' (mk_rocks "e" "user1") ∅.
Proof.
  assert (forall k v, cf_handle (∅ : map_db) "e" = true -> cf_view (∅ : map_db) "e" k = Some v ->
    is_utf8 k = true) as Hu by (intros k v Hf; discriminate Hf).
  assert (db_ok (∅ : map_db)) as Hok by exact I.
  destruct (rocksdb_open_store (∅ : map_db) (mk_rocks_manager tt) "e" "user1" Hok eq_refl Hu)
    as (d' & Hc & _ & _ & _ & He).
  exists d'. split; [exact Hc|]. apply He. reflexivity.
Defined.

Lemma rocksdb_failures_witness :
  RocksDbCollection.get (∅ : map_db) rocks_demo "k" = Err RocksDbStore.cf_missing.
Proof. exact (proj1 (proj1 (rocksdb_failures (∅ : map_db) rocks_demo "k" []) eq_refl)). Defined.

(** The collection of another actor, whose key starts with the first one's. *)
Definition rocks_longer : RocksDbStore := mk_rocks "test" "user10".

Definition two_actors : map_db :=
  (RocksDbCollection.put one_family rocks_longer (fmt020 0) [Byte.x07]).1.

Lemma two_actors_st_inv : rocks_st_inv two_actors rocks_demo.
Proof.
  destruct (put_key_set one_family rocks_longer
    (RocksDbCollection.full_key rocks_longer (fmt020 0)) [Byte.x07]) as (d & Hd & Hs).
  { by apply one_family_st_inv. }
  unfold two_actors, RocksDbCollection.put. rewrite Hd. cbn [fst].
  eapply rocks_set_inv; [exact Hs| |by apply one_family_st_inv].
  apply full_key_utf8; [done|apply fmt020_utf8].
Qed.

Lemma rocksdb_purge_reaches_longer_prefixes_witness :
  RocksDbCollection.get two_actors rocks_longer (fmt020 0) = Ok [Byte.x07] /\
  exists d', RocksDbCollection.purge two_actors rocks_demo = (d', Ok tt) /\
    RocksDbCollection.get d' rocks_longer (fmt020 0) = Err RocksDbStore.no_rows.
Proof.
  split; [vm_compute; reflexivity|].
  exact (rocksdb_purge_reaches_longer_prefixes two_actors rocks_demo rocks_longer (fmt020 0)
           two_actors_st_inv eq_refl eq_refl).
Defined.
