(* ===== verification/Statements.v ===== *)
(** * The statements of SQLite that the backend writes

    SQLite itself is not under [src/]: this file says what its documentation says
    of the four kinds of statement that occur in the SQLite backend. A statement
    is a text: [parse] reads it in the grammar of SQLite, cut down to those kinds,
    and [exec] and [matching] say what it does to the tables of the database and
    which rows it selects. Nothing here mentions the texts of the backend, so that
    a wrong clause in one of them is a wrong statement. *)

From S2P Require Import Prelude.

(** ** Values *)

Inductive sql_value : Type :=
| SqlText (s : string)
| SqlBlob (b : bytes).

#[global] Instance byte_countable : Countable Byte.byte.
Proof. refine (inj_countable Byte.to_N Byte.of_N _). intros b. apply Byte.of_to_N. Defined.

#[global] Instance sql_value_eq_dec : EqDecision sql_value.
Proof. solve_decision. Defined.

#[global] Instance sql_value_countable : Countable sql_value.
Proof.
  refine (inj_countable'
    (fun v => match v with SqlText s => inl s | SqlBlob b => inr b end)
    (fun v => match v with inl s => SqlText s | inr b => SqlBlob b end) _).
  by intros [].
Defined.

(** ** Text to statements *)

Inductive token : Type :=
| Word (s : string)
| Sym (c : ascii).

Definition token_eqb (x y : token) : bool :=
  match x, y with
  | Word s, Word s' => String.eqb s s'
  | Sym c, Sym c' => Ascii.eqb c c'
  | _, _ => false
  end.

Definition is_lower (c : ascii) : bool := (97 <=? N_of_ascii c)%N && (N_of_ascii c <=? 122)%N.
Definition is_upper (c : ascii) : bool := (65 <=? N_of_ascii c)%N && (N_of_ascii c <=? 90)%N.
Definition is_digit (c : ascii) : bool := (48 <=? N_of_ascii c)%N && (N_of_ascii c <=? 57)%N.

(** The characters of a keyword, a name or a parameter [?n]. *)
Definition is_word (c : ascii) : bool :=
  is_lower c || is_upper c || is_digit c || Ascii.eqb c "_" || Ascii.eqb c "?".

Definition flush (w : string) : list token :=
  match w with EmptyString => [] | _ => [Word w] end.

(** [w] is the word read so far. *)
Fixpoint lex (w s : string) : list token :=
  match s with
  | EmptyString => flush w
  | String c s =>
      if is_word c then lex (w +:+ String c EmptyString) s
      else if is_ascii_space c then flush w ++ lex EmptyString s
      else flush w ++ Sym c :: lex EmptyString s
  end.

(** The keywords of SQLite, which cannot be names without quotes. *)
Definition sql_keywords : list string :=
  ["abort"; "action"; "add"; "after"; "all"; "alter"; "always"; "analyze"; "and"; "as"; "asc";
   "attach"; "autoincrement"; "before"; "begin"; "between"; "by"; "cascade"; "case"; "cast";
   "check"; "collate"; "column"; "commit"; "conflict"; "constraint"; "create"; "cross";
   "current"; "current_date"; "current_time"; "current_timestamp"; "database"; "default";
   "deferrable"; "deferred"; "delete"; "desc"; "detach"; "distinct"; "do"; "drop"; "each";
   "else"; "end"; "escape"; "except"; "exclude"; "exclusive"; "exists"; "explain"; "fail";
   "filter"; "first"; "following"; "for"; "foreign"; "from"; "full"; "generated"; "glob";
   "group"; "groups"; "having"; "if"; "ignore"; "immediate"; "in"; "index"; "indexed";
   "initially"; "inner"; "insert"; "instead"; "intersect"; "into"; "is"; "isnull"; "join";
   "key"; "last"; "left"; "like"; "limit"; "match"; "materialized"; "natural"; "no"; "not";
   "nothing"; "notnull"; "null"; "nulls"; "of"; "offset"; "on"; "or"; "order"; "others";
   "outer"; "over"; "partition"; "plan"; "pragma"; "preceding"; "primary"; "query"; "raise";
   "range"; "recursive"; "references"; "regexp"; "reindex"; "release"; "rename"; "replace";
   "restrict"; "returning"; "right"; "rollback"; "row"; "rows"; "savepoint"; "select"; "set";
   "table"; "temp"; "temporary"; "then"; "ties"; "to"; "transaction"; "trigger"; "unbounded";
   "union"; "unique"; "update"; "using"; "vacuum"; "values"; "view"; "virtual"; "when";
   "where"; "window"; "with"; "without"].

(** A name that stands in a statement without quotes: in lower case, since SQLite
    folds the case of names, no keyword, and none that SQLite keeps for itself. *)
Definition is_name (s : string) : bool :=
  match s with
  | EmptyString => false
  | String c _ => negb (is_digit c)
  end
  && forallb (fun c => is_lower c || is_digit c || Ascii.eqb c "_") (String.list_ascii_of_string s)
  && negb (existsb (String.eqb s) sql_keywords) && negb (starts_with s "sqlite_").

Inductive sql_type : Type := TEXT | BLOB.

#[global] Instance sql_type_eq_dec : EqDecision sql_type.
Proof. solve_decision. Defined.

(** Parameters count from 1. The conditions of a WHERE are joined by AND; an order
    is a column and whether it is descending. *)
Inductive statement : Type :=
| CreateTable (table : string) (columns : list (string * sql_type)) (key : list string)
| InsertOrReplace (table : string) (columns : list string) (values : list nat)
| Delete (table : string) (cond : list (string * nat))
| Select (columns : list string) (table : string) (cond : list (string * nat))
    (order : option (string * bool)).

(** *** The grammar *)

Definition parser (A : Type) : Type := stM (list token) unit A.

Definition fail {A} : parser A := errM tt.

Definition next : parser token := fun toks =>
  match toks with [] => ([], Err tt) | x :: toks => (toks, Ok x) end.

(** Reads the token [x] if it is the next one. *)
Definition next_is (x : token) : parser bool := fun toks =>
  match toks with
  | y :: toks' => if token_eqb x y then (toks', Ok true) else (toks, Ok false)
  | [] => (toks, Ok false)
  end.

Definition expect (x : token) : parser unit := b ← next_is x; if b : bool then mret tt else fail.

Fixpoint phrase (words : list string) : parser unit :=
  match words with
  | [] => mret tt
  | w :: words => _ ← expect (Word w); phrase words
  end.

Definition identifier : parser string :=
  x ← next;
  match x with Word s => if is_name s then mret s else fail | Sym _ => fail end.

(** [?n]; one digit is enough here. *)
Definition parameter : parser nat :=
  x ← next;
  match x with
  | Word (String "?" (String d EmptyString)) =>
      if is_digit d && negb (Ascii.eqb d "0") then mret (N.to_nat (N_of_ascii d - 48)) else fail
  | _ => fail
  end.

Fixpoint items {A} (fuel : nat) (sep : token) (item : parser A) : parser (list A) :=
  x ← item;
  more ← next_is sep;
  if more : bool then
    match fuel with
    | 0 => fail
    | S fuel => xs ← items fuel sep item; mret (x :: xs)
    end
  else mret [x].

(** One or more, separated. *)
Definition sep_by {A} (sep : token) (item : parser A) : parser (list A) :=
  toks ← getM;
  items (length toks) sep item.

Definition parens {A} (p : parser A) : parser A :=
  _ ← expect (Sym "(");
  x ← p;
  _ ← expect (Sym ")");
  mret x.

Definition commas {A} (item : parser A) : parser (list A) := sep_by (Sym ",") item.

Definition column_type : parser sql_type :=
  b ← next_is (Word "TEXT");
  if b : bool then mret TEXT else _ ← expect (Word "BLOB"); mret BLOB.

Definition column_def : parser (string * sql_type) :=
  c ← identifier;
  ty ← column_type;
  _ ← phrase ["NOT"; "NULL"];
  mret (c, ty).

(** A column, or the key of the table. *)
Definition definition : parser ((string * sql_type) + list string) :=
  b ← next_is (Word "PRIMARY");
  if b : bool then _ ← phrase ["KEY"]; key ← parens (commas identifier); mret (inr key)
  else c ← column_def; mret (inl c).

(** The columns, then the key. *)
Fixpoint columns_and_key (l : list ((string * sql_type) + list string))
    : option (list (string * sql_type) * list string) :=
  match l with
  | [inr key] => Some ([], key)
  | inl c :: l => '(cs, key) ← columns_and_key l; Some (c :: cs, key)
  | _ => None
  end.

Definition create_table : parser statement :=
  _ ← phrase ["TABLE"; "IF"; "NOT"; "EXISTS"];
  t ← identifier;
  defs ← parens (commas definition);
  match columns_and_key defs with
  | Some (cs, key) => mret (CreateTable t cs key)
  | None => fail
  end.

Definition insert_or_replace : parser statement :=
  _ ← phrase ["OR"; "REPLACE"; "INTO"];
  t ← identifier;
  cs ← parens (commas identifier);
  _ ← phrase ["VALUES"];
  ps ← parens (commas parameter);
  mret (InsertOrReplace t cs ps).

Definition condition : parser (string * nat) :=
  c ← identifier;
  _ ← expect (Sym "=");
  n ← parameter;
  mret (c, n).

Definition where_clause : parser (list (string * nat)) :=
  b ← next_is (Word "WHERE");
  if b : bool then sep_by (Word "AND") condition else mret [].

Definition order_clause : parser (option (string * bool)) :=
  b ← next_is (Word "ORDER");
  if b : bool then
    _ ← phrase ["BY"];
    c ← identifier;
    desc ← next_is (Word "DESC");
    if desc : bool then mret (Some (c, true))
    else _ ← next_is (Word "ASC"); mret (Some (c, false))
  else mret None.

Definition delete_from : parser statement :=
  _ ← phrase ["FROM"];
  t ← identifier;
  cond ← where_clause;
  mret (Delete t cond).

Definition select_from : parser statement :=
  cs ← commas identifier;
  _ ← phrase ["FROM"];
  t ← identifier;
  cond ← where_clause;
  order ← order_clause;
  mret (Select cs t cond order).

Definition any_statement : parser statement :=
  x ← next;
  if token_eqb x (Word "CREATE") then create_table
  else if token_eqb x (Word "INSERT") then insert_or_replace
  else if token_eqb x (Word "DELETE") then delete_from
  else if token_eqb x (Word "SELECT") then select_from
  else fail.

Definition parse (sql : string) : option statement :=
  match any_statement (lex EmptyString sql) with
  | ([], Ok s) => Some s
  | _ => None
  end.

(** ** What a statement does *)

(** The rows of a table, each under the values of its primary key. *)
Abbreviation row := (list sql_value).

Record table : Type := mk_table {
  t_columns : list (string * sql_type);
  t_key : list string;
  t_rows : gmap (list sql_value) row;
}.

Abbreviation database := (gmap string table).

Definition has_type (ty : sql_type) (v : sql_value) : bool :=
  match ty, v with TEXT, SqlText _ | BLOB, SqlBlob _ => true | _, _ => false end.

(** The value that [l] pairs with a name. *)
Fixpoint assoc {A} (l : list (string * A)) (c : string) : option A :=
  match l with
  | [] => None
  | (c', x) :: l => if String.eqb c c' then Some x else assoc l c
  end.

(** The value of a column in a row. *)
Definition cell (tb : table) (r : row) (c : string) : option sql_value :=
  assoc (zip (t_columns tb).*1 r) c.

Definition cells (tb : table) (cs : list string) (r : row) : option (list sql_value) :=
  mapM (cell tb r) cs.

Definition bound (params : list sql_value) (n : nat) : option sql_value := params !! pred n.

Definition has_column (tb : table) (c : string) : bool := existsb (String.eqb c) (t_columns tb).*1.

(** A row satisfies the conditions of a WHERE. *)
Definition satisfies (tb : table) (params : list sql_value) (cond : list (string * nat)) (r : row)
    : bool :=
  forallb (fun '(c, n) => bool_decide (cell tb r c = bound params n)) cond.

(** As many values are bound as the statement has parameters. *)
Definition all_bound (ns : list nat) (params : list sql_value) : bool :=
  length params =? list_max ns.

Definition well_named (tb : table) (cs : list string) : bool := forallb (has_column tb) cs.

(** The row that INSERT builds: every column has a value of its type. *)
Fixpoint new_row (columns : list (string * sql_type)) (values : list (string * sql_value))
    : option row :=
  match columns with
  | [] => Some []
  | (c, ty) :: columns =>
      v ← assoc values c;
      r ← new_row columns values;
      if has_type ty v then Some (v :: r) else None
  end.

(** What [execute] does to the database, where it succeeds: CREATE does nothing
    when the table exists, INSERT OR REPLACE takes the place of the row with the
    same primary key, DELETE removes the rows that satisfy its conditions. *)
Definition exec (s : statement) (params : list sql_value) (db : database) : option database :=
  match s with
  | CreateTable t cs key =>
      if all_bound [] params && bool_decide (NoDup cs.*1)
         && forallb (fun c => existsb (String.eqb c) cs.*1) key
      then Some (match db !! t with Some _ => db | None => <[t := mk_table cs key ∅]> db end)
      else None
  | InsertOrReplace t cs ns =>
      tb ← db !! t;
      vs ← mapM (bound params) ns;
      r ← new_row (t_columns tb) (zip cs vs);
      k ← cells tb (t_key tb) r;
      if all_bound ns params && (length cs =? length ns) && well_named tb cs
         && bool_decide (NoDup cs)
      then Some (<[t := mk_table (t_columns tb) (t_key tb) (<[k := r]> (t_rows tb))]> db)
      else None
  | Delete t cond =>
      tb ← db !! t;
      if all_bound cond.*2 params && well_named tb cond.*1
      then Some (<[t := mk_table (t_columns tb) (t_key tb)
                          (filter (fun kr => satisfies tb params cond kr.2 = false) (t_rows tb))]> db)
      else None
  | Select _ _ _ _ => None
  end.

(** A selection: the table, the rows that satisfy the conditions in no order, the
    columns asked for and the order. *)
Record selection : Type := mk_selection {
  sel_table : table;
  sel_rows : list row;
  sel_columns : list string;
  sel_order : option (string * bool);
}.

Definition matching (s : statement) (params : list sql_value) (db : database) : option selection :=
  match s with
  | Select cs t cond order =>
      tb ← db !! t;
      if all_bound cond.*2 params && well_named tb (cs ++ cond.*1)
         && match order with Some (c, _) => has_column tb c | None => true end
      then Some (mk_selection tb
                   (map_to_list (filter (fun kr => satisfies tb params cond kr.2 = true) (t_rows tb))).*2
                   cs order)
      else None
  | _ => None
  end.

(** Texts compare byte by byte. *)
Definition in_order (desc : bool) (x y : option sql_value) : Prop :=
  match x, y with
  | Some (SqlText a), Some (SqlText b) => if desc then String.le b a else String.le a b
  | _, _ => True
  end.

Definition ordered (sel : selection) (rs : list row) : Prop :=
  match sel_order sel with
  | None => True
  | Some (c, desc) =>
      StronglySorted (fun r1 r2 => in_order desc (cell (sel_table sel) r1 c) (cell (sel_table sel) r2 c)) rs
  end.

(** The answers to a selection: all its rows, in the order asked for. *)
Definition answers (sel : selection) (rs : list row) : Prop :=
  rs ≡ₚ sel_rows sel /\ ordered sel rs.

(** ** Lemmas *)

Lemma lex_word w t s :
  forallb is_word (String.list_ascii_of_string t) = true -> lex w (t +:+ s) = lex (w +:+ t) s.
Proof.
  revert w. induction t as [|c t IH]; intros w Ht; [by rewrite append_nil_r|].
  cbn [String.list_ascii_of_string forallb] in Ht. apply andb_true_iff in Ht as [Hc Ht].
  rewrite append_cons. cbn [lex]. by rewrite Hc, IH, append_assoc.
Qed.

Lemma name_words t : is_name t = true -> forallb is_word (String.list_ascii_of_string t) = true.
Proof.
  unfold is_name. rewrite !andb_true_iff, !forallb_forall. intros [[[_ Hw] _] _] c Hc.
  unfold is_word. specialize (Hw c Hc). destruct (is_lower c), (is_digit c), (Ascii.eqb c "_"); try done;
  by destruct (is_upper c).
Qed.

Lemma name_flush t : is_name t = true -> flush t = [Word t].
Proof. by destruct t. Qed.

(** A name in a text is a word of it. *)
Lemma lex_name t c s :
  is_name t = true -> is_word c = false -> is_ascii_space c = true ->
  lex EmptyString (t +:+ String c s) = Word t :: lex EmptyString s.
Proof.
  intros Ht Hc Hs. rewrite lex_word by by apply name_words. cbn [lex]. rewrite Hc, Hs.
  by rewrite append_nil_l, name_flush.
Qed.

Lemma parse_step {A B} (f : A -> parser B) (m : parser A) toks toks' a r :
  m toks = (toks', Ok a) -> f a toks' = r -> mbind f m toks = r.
Proof. intros Hm <-. by apply stM_bind_Ok. Qed.

Lemma identifier_name t toks : is_name t = true -> identifier (Word t :: toks) = (toks, Ok t).
Proof. intros Ht. unfold identifier, mbind, stM_bind, next. cbn -[is_name]. by rewrite Ht. Qed.

Lemma parse_lex sql toks s :
  lex EmptyString sql = toks -> any_statement toks = ([], Ok s) -> parse sql = Some s.
Proof. unfold parse. by intros -> ->. Qed.

Lemma lex_at pre t c s :
  is_name t = true -> is_word c = false -> is_ascii_space c = true ->
  (forall s, lex EmptyString (pre +:+ s) = lex EmptyString pre ++ lex EmptyString s) ->
  lex EmptyString (pre +:+ t +:+ String c s)
  = lex EmptyString pre ++ Word t :: lex EmptyString s.
Proof. intros Ht Hc Hs Hp. by rewrite Hp, lex_name. Qed.

Lemma parse_at pre t c s st :
  is_name t = true -> is_word c = false -> is_ascii_space c = true ->
  (forall s, lex EmptyString (pre +:+ s) = lex EmptyString pre ++ lex EmptyString s) ->
  any_statement (lex EmptyString pre ++ Word t :: lex EmptyString s) = ([], Ok st) ->
  parse (pre +:+ t +:+ String c s) = Some st.
Proof. intros Ht Hc Hs Hp. by apply parse_lex, lex_at. Qed.

(** Reads a text in which the name of the table is a variable. *)
Ltac parse_sql Ht :=
  apply (parse_at _ _ _ _ _ Ht); [reflexivity|reflexivity|intros ?; reflexivity|];
  match goal with |- any_statement ?toks = _ => let v := eval vm_compute in toks in change toks with v end;
  lazymatch goal with
  | |- any_statement (?x :: ?toks) = ?r =>
      first [change (delete_from toks = r)|change (create_table toks = r)
            |change (insert_or_replace toks = r)|change (select_from toks = r)]
  end;
  unfold delete_from, create_table, insert_or_replace, select_from;
  repeat (eapply parse_step; [first [exact (identifier_name _ _ Ht)|reflexivity]|]; cbv beta iota);
  reflexivity.
