(* ===== verification/Sqlite.v ===== *)
(** * The SQLite backend (databases/sqlite_db/src/sqlite.rs)

    The crate [rusqlite] is a parameter: the class [Rusqlite] has the calls the
    backend makes, with the text of the statements, and [RusqliteLaws] says what
    it does with a text: what [Statements] says of the statement that the text
    parses to. That the texts of the backend select the rows of one prefix and no
    others is proved here. The world of the backend is the connection behind the
    shared [Arc<Mutex<Connection>>]. *)

From S2P Require Import Prelude Errors Database Statements.
Import StoreError.

(** ** The crate [rusqlite]

    The values that the backend binds to the parameters of a statement. [query]
    prepares, binds and gives the results of [Rows::next]; errors are their
    [Display]. *)

Class Rusqlite (D Row : Type) := {
  execute : D -> string -> list sql_value -> D * outcome string N;
  execute_batch : D -> string -> D * outcome string unit;
  query_row : D -> string -> list sql_value -> outcome string Row;
  query : D -> string -> list sql_value -> outcome string (list (outcome string Row));
  get_text : Row -> nat -> outcome string string;
  get_blob : Row -> nat -> outcome string bytes;
}.

(** The file system and the connections to files on it: [open_with_flags] takes
    the flags READ_WRITE and CREATE. *)
Class SqliteDisk (F D : Type) := {
  path_exists : F -> string -> bool;
  create_dir_all : F -> string -> F * outcome string unit;
  open_with_flags : F -> string -> F * outcome string D;
}.

(** ** The statements *)

Module Sql.

Definition create_state (table : string) : string :=
  "CREATE TABLE IF NOT EXISTS " +:+ table
  +:+ " (prefix TEXT NOT NULL, value BLOB NOT NULL, PRIMARY KEY (prefix))".

Definition create_collection (table : string) : string :=
  "CREATE TABLE IF NOT EXISTS " +:+ table
  +:+ " (prefix TEXT NOT NULL, sn TEXT NOT NULL, value BLOB NOT NULL, PRIMARY KEY (prefix, sn))".

Definition select_all (table : string) (reverse : bool) : string :=
  let order := if reverse then "DESC" else "ASC" in
  "SELECT sn, value FROM " +:+ table +:+ " WHERE prefix = ?1 ORDER BY sn " +:+ order.

Definition select_state (table : string) : string :=
  "SELECT value FROM " +:+ table +:+ " WHERE prefix = ?1".

Definition select_sn (table : string) : string :=
  "SELECT value FROM " +:+ table +:+ " WHERE prefix = ?1 AND sn = ?2".

Definition insert_state (table : string) : string :=
  "INSERT OR REPLACE INTO " +:+ table +:+ " (prefix, value) VALUES (?1, ?2)".

Definition insert_sn (table : string) : string :=
  "INSERT OR REPLACE INTO " +:+ table +:+ " (prefix, sn, value) VALUES (?1, ?2, ?3)".

Definition delete_prefix (table : string) : string :=
  "DELETE FROM " +:+ table +:+ " WHERE prefix = ?1".

Definition delete_sn (table : string) : string :=
  "DELETE FROM " +:+ table +:+ " WHERE prefix = ?1 AND sn = ?2".

Definition pragmas : string := "
        PRAGMA journal_mode=WAL;
        PRAGMA synchronous=NORMAL;
        ".

End Sql.

(** ** The backend *)

(** The connection and whether its mutex is poisoned. *)
Record SqliteWorld (D : Type) : Type := mk_sqlite_world { conn_poisoned : bool; conn : D }.
Arguments mk_sqlite_world {D} _ _.
Arguments conn_poisoned {D} _.
Arguments conn {D} _.

Record SqliteCollection : Type := mk_sqlite { sq_table : string; sq_prefix : string }.

(** [SqliteCollection::new]. *)
Definition sqlite_new (table prefix : string) : SqliteCollection := mk_sqlite table prefix.

(** A call that panics while it holds the lock poisons it. *)
Definition unwound {E A} (r : outcome E A) : bool := match r with Panic => true | _ => false end.

(** A statement run under the lock: [what] is the error for a poisoned lock and
    [err] that of the statement. *)
Definition with_conn {D A} (what : string) (err : string -> Error)
    (f : D -> D * outcome string A) (w : SqliteWorld D) : SqliteWorld D * outcome Error unit :=
  if conn_poisoned w then (w, Err (Store (what +:+ poison_message)))
  else
    let '(d, r) := f (conn w) in
    (mk_sqlite_world (unwound r) d, _ ← map_err err r; mret tt).

Definition lower_open : string := "sqlite open connection: ".
Definition upper_open : string := "SQLITE open connection: ".

(** [open]. *)
Definition sqlite_open {F D Row} `{Rusqlite D Row, SqliteDisk F D} (path : string) : stM F Error D :=
  d ← callM (fun e => Store ("SQLite failed to open connection: " +:+ e))
        (fun fs => open_with_flags fs path);
  let '(d, r) := execute_batch d Sql.pragmas in
  _ ← liftM (map_err (fun e => Store ("SQLite failed to execute batch: " +:+ e)) r);
  mret d.

Module SqliteManager.

(** [SqliteManager::new]: the world of the manager, with its mutex. *)
Definition new {F D Row} `{Rusqlite D Row, SqliteDisk F D} (path : string)
    : stM F Error (SqliteWorld D) :=
  fs ← getM;
  _ ← (if path_exists fs path then mret tt
       else callM (fun e => CreateStore ("fail SQLite create directory: " +:+ e))
              (fun fs => create_dir_all fs path));
  d ← callM (fun e => CreateStore ("fail SQLite open connection: " +:+ display e))
        (sqlite_open (path +:+ "/database.db"));
  mret (mk_sqlite_world false d).

Section Factory.
Context {D Row : Type} `{Rusqlite D Row}.

(** The lock is taken with [expect]. *)
Definition create_table (w : SqliteWorld D) (stmt identifier prefix : string)
    : SqliteWorld D * outcome Error SqliteCollection :=
  if conn_poisoned w then (w, Panic)
  else
    let '(d, r) := execute (conn w) stmt [] in
    (mk_sqlite_world (unwound r) d,
     _ ← map_err (fun e => CreateStore ("fail SQLite create table: " +:+ e)) r;
     mret (sqlite_new identifier prefix)).

Definition create_state (w : SqliteWorld D) (identifier prefix : string)
    : SqliteWorld D * outcome Error SqliteCollection :=
  create_table w (Sql.create_state identifier) identifier prefix.

Definition create_collection (w : SqliteWorld D) (identifier prefix : string)
    : SqliteWorld D * outcome Error SqliteCollection :=
  create_table w (Sql.create_collection identifier) identifier prefix.

End Factory.

End SqliteManager.

#[export] Instance sqlite_manager {D Row} `{Rusqlite D Row}
  : DbManager (SqliteWorld D) unit SqliteCollection SqliteCollection :=
  {| create_collection := fun w _ => SqliteManager.create_collection w;
     create_state := fun w _ => SqliteManager.create_state w |}.

(** [conn.query_row(.., |row| row.get(0))] under the lock. *)
Definition query_value {D Row} `{Rusqlite D Row} (w : SqliteWorld D) (stmt : string)
    (params : list sql_value) : outcome Error bytes :=
  if conn_poisoned w then Err (Store (lower_open +:+ poison_message))
  else map_err EntryNotFound (row ← query_row (conn w) stmt params; get_blob row 0).

(** ** [impl State for SqliteCollection] *)

Module SqliteState.
Section Operations.
Context {D Row : Type} `{Rusqlite D Row}.

Definition get (w : SqliteWorld D) (s : SqliteCollection) : outcome Error bytes :=
  query_value w (Sql.select_state (sq_table s)) [SqlText (sq_prefix s)].

Definition put (w : SqliteWorld D) (s : SqliteCollection) (data : bytes)
    : SqliteWorld D * outcome Error unit :=
  with_conn lower_open (fun e => Store ("sqlite insert error: " +:+ e))
    (fun d => execute d (Sql.insert_state (sq_table s)) [SqlText (sq_prefix s); SqlBlob data]) w.

Definition del (w : SqliteWorld D) (s : SqliteCollection) : SqliteWorld D * outcome Error unit :=
  with_conn upper_open EntryNotFound
    (fun d => execute d (Sql.delete_prefix (sq_table s)) [SqlText (sq_prefix s)]) w.

Definition purge (w : SqliteWorld D) (s : SqliteCollection) : SqliteWorld D * outcome Error unit :=
  with_conn upper_open (fun e => Store ("SQLITE purge error: " +:+ e))
    (fun d => execute d (Sql.delete_prefix (sq_table s)) [SqlText (sq_prefix s)]) w.

End Operations.
End SqliteState.

(** ** [impl Collection for SqliteCollection] *)

Module SqliteEvents.
Section Operations.
Context {D Row : Type} `{Rusqlite D Row}.

Definition get (w : SqliteWorld D) (s : SqliteCollection) (key : string) : outcome Error bytes :=
  query_value w (Sql.select_sn (sq_table s)) [SqlText (sq_prefix s); SqlText key].

Definition put (w : SqliteWorld D) (s : SqliteCollection) (key : string) (data : bytes)
    : SqliteWorld D * outcome Error unit :=
  with_conn lower_open (fun e => Store ("sqlite insert error: " +:+ e))
    (fun d => execute d (Sql.insert_sn (sq_table s))
                [SqlText (sq_prefix s); SqlText key; SqlBlob data]) w.

Definition del (w : SqliteWorld D) (s : SqliteCollection) (key : string)
    : SqliteWorld D * outcome Error unit :=
  with_conn upper_open EntryNotFound
    (fun d => execute d (Sql.delete_sn (sq_table s)) [SqlText (sq_prefix s); SqlText key]) w.

Definition purge (w : SqliteWorld D) (s : SqliteCollection) : SqliteWorld D * outcome Error unit :=
  with_conn upper_open (fun e => Store ("SQLITE purge error: " +:+ e))
    (fun d => execute d (Sql.delete_prefix (sq_table s)) [SqlText (sq_prefix s)]) w.

(** The loop of [make_iter] over the rows. *)
Fixpoint read_rows (rows : list (outcome string Row)) : outcome string (list (string * bytes)) :=
  match rows with
  | [] => Ok []
  | row :: rows =>
      row ← row;
      key ← get_text row 0;
      value ← get_blob row 1;
      values ← read_rows rows;
      mret ((key, value) :: values)
  end.

Definition make_iter (w : SqliteWorld D) (s : SqliteCollection) (reverse : bool)
    : outcome string (list (string * bytes)) :=
  if conn_poisoned w then Panic
  else
    rows ← query (conn w) (Sql.select_all (sq_table s) reverse) [SqlText (sq_prefix s)];
    read_rows rows.

(** An error gives the empty iterator. *)
Definition iter (w : SqliteWorld D) (s : SqliteCollection) (reverse : bool)
    : outcome Error iterator :=
  match make_iter w s reverse with
  | Ok values => Ok (Yield <$> values)
  | Err _ => Ok []
  | Panic => Panic
  end.

End Operations.
End SqliteEvents.

#[export] Instance sqlite_collection {D Row} `{Rusqlite D Row}
  : Collection (SqliteWorld D) SqliteCollection :=
  {| coll_name := sq_table;
     coll_get := SqliteEvents.get;
     coll_put := SqliteEvents.put;
     coll_del := SqliteEvents.del;
     coll_purge := SqliteEvents.purge;
     coll_iter := SqliteEvents.iter |}.

#[export] Instance sqlite_state {D Row} `{Rusqlite D Row}
  : State (SqliteWorld D) SqliteCollection :=
  {| st_name := sq_table;
     st_get := SqliteState.get;
     st_put := SqliteState.put;
     st_del := SqliteState.del;
     st_purge := SqliteState.purge |}.

(** ** What SQLite does with a text

    For a connection whose I/O does not fail: [contents] are its tables. A text
    that parses does what [exec] says; a query gives the rows that [matching]
    selects, in the order asked for, and [query_row] the first of them. *)

(** [row] shows the columns of [r] that were asked for. *)
Definition shown {D Row} `{Rusqlite D Row} (sel : selection) (row : Row) (r : Statements.row) : Prop :=
  forall i c, sel_columns sel !! i = Some c ->
    match cell (sel_table sel) r c with
    | Some (SqlText s) => get_text row i = Ok s
    | Some (SqlBlob b) => get_blob row i = Ok b
    | None => True
    end.

Class RusqliteLaws (D Row : Type) `{Rusqlite D Row} := {
  sq_works : D -> Prop;
  contents : D -> database;
  no_rows : string;
  execute_law : forall d sql params s db, sq_works d -> parse sql = Some s ->
    exec s params (contents d) = Some db ->
    exists d' n, execute d sql params = (d', Ok n) /\ sq_works d' /\ contents d' = db;
  query_law : forall d sql params s sel, sq_works d -> parse sql = Some s ->
    matching s params (contents d) = Some sel ->
    exists rs rows, answers sel rs /\ query d sql params = Ok (Ok <$> rows) /\
      Forall2 (shown sel) rows rs;
  query_row_law : forall d sql params s sel, sq_works d -> parse sql = Some s ->
    matching s params (contents d) = Some sel ->
    exists rs, answers sel rs /\
      match rs with
      | [] => query_row d sql params = Err no_rows
      | r :: _ => exists row, query_row d sql params = Ok row /\ shown sel row r
      end;
}.

(** ** The tables of the backend *)

(** The statements that the texts are, for a table whose name needs no quotes. *)
Section Texts.
Context (t : string) (Ht : is_name t = true).

Lemma parse_create_state :
  parse (Sql.create_state t)
  = Some (CreateTable t [("prefix", TEXT); ("value", BLOB)] ["prefix"]).
Proof using Ht. unfold Sql.create_state. parse_sql Ht. Qed.

Lemma parse_create_collection :
  parse (Sql.create_collection t)
  = Some (CreateTable t [("prefix", TEXT); ("sn", TEXT); ("value", BLOB)] ["prefix"; "sn"]).
Proof using Ht. unfold Sql.create_collection. parse_sql Ht. Qed.

Lemma parse_select_all reverse :
  parse (Sql.select_all t reverse)
  = Some (Select ["sn"; "value"] t [("prefix", 1)] (Some ("sn", reverse))).
Proof using Ht. unfold Sql.select_all. destruct reverse; parse_sql Ht. Qed.

Lemma parse_select_state :
  parse (Sql.select_state t) = Some (Select ["value"] t [("prefix", 1)] None).
Proof using Ht. unfold Sql.select_state. parse_sql Ht. Qed.

Lemma parse_select_sn :
  parse (Sql.select_sn t) = Some (Select ["value"] t [("prefix", 1); ("sn", 2)] None).
Proof using Ht. unfold Sql.select_sn. parse_sql Ht. Qed.

Lemma parse_insert_state :
  parse (Sql.insert_state t) = Some (InsertOrReplace t ["prefix"; "value"] [1; 2]).
Proof using Ht. unfold Sql.insert_state. parse_sql Ht. Qed.

Lemma parse_insert_sn :
  parse (Sql.insert_sn t) = Some (InsertOrReplace t ["prefix"; "sn"; "value"] [1; 2; 3]).
Proof using Ht. unfold Sql.insert_sn. parse_sql Ht. Qed.

Lemma parse_delete_prefix : parse (Sql.delete_prefix t) = Some (Delete t [("prefix", 1)]).
Proof using Ht. unfold Sql.delete_prefix. parse_sql Ht. Qed.

Lemma parse_delete_sn :
  parse (Sql.delete_sn t) = Some (Delete t [("prefix", 1); ("sn", 2)]).
Proof using Ht. unfold Sql.delete_sn. parse_sql Ht. Qed.

End Texts.

(** The two shapes of a table, and the rows that the backend writes. *)
Inductive shape : Type := EventsShape | StatesShape.

Abbreviation rows_map := (gmap (list sql_value) row).

Definition shaped (sh : shape) (rows : rows_map) : table :=
  match sh with
  | EventsShape =>
      mk_table [("prefix", TEXT); ("sn", TEXT); ("value", BLOB)] ["prefix"; "sn"] rows
  | StatesShape => mk_table [("prefix", TEXT); ("value", BLOB)] ["prefix"] rows
  end.

Definition row_ok (sh : shape) (key : list sql_value) (r : row) : Prop :=
  match sh with
  | EventsShape => exists p k v, key = [SqlText p; SqlText k] /\ r = [SqlText p; SqlText k; SqlBlob v]
  | StatesShape => exists p v, key = [SqlText p] /\ r = [SqlText p; SqlBlob v]
  end.

(** The value in the last column of a row. *)
Definition row_value (r : row) : option bytes :=
  match last r with Some (SqlBlob v) => Some v | _ => None end.

Definition name_ok (t : string) : bool := is_name t.

Section Tables.
Context {D Row : Type} `{RusqliteLaws D Row}.
Implicit Types (d : D) (t p k : string) (sh : shape) (rows : rows_map).

Definition has_table sh d t : Prop :=
  exists rows, contents d !! t = Some (shaped sh rows) /\ map_Forall (row_ok sh) rows.

Definition has_events : D -> string -> Prop := has_table EventsShape.
Definition has_states : D -> string -> Prop := has_table StatesShape.

(** The connection works and its tables are those of the backend. *)
Definition sq_ok d : Prop :=
  sq_works d /\
  forall t tb, contents d !! t = Some tb -> is_name t = true /\ exists sh, has_table sh d t.

(** The value of the row with a primary key. *)
Definition value_at (tb : table) (key : list sql_value) : option bytes :=
  t_rows tb !! key ≫= row_value.

Definition events d t p k : option bytes :=
  contents d !! t ≫= fun tb => value_at tb [SqlText p; SqlText k].

Definition states d t p : option bytes :=
  contents d !! t ≫= fun tb => value_at tb [SqlText p].

(** The connection keeps its tables, and the states or the events in them. *)
Definition keeps_tables d d' : Prop :=
  sq_ok d' /\ (forall t, has_events d t -> has_events d' t) /\
  (forall t, has_states d t -> has_states d' t).
Definition keeps_states d d' : Prop :=
  forall t p, has_states d t -> states d' t p = states d t p.
Definition keeps_events d d' : Prop :=
  forall t p k, has_events d t -> events d' t p k = events d t p k.

(** A table has one shape. *)
Lemma table_shape sh sh' d t : has_table sh d t -> has_table sh' d t -> sh = sh'.
Proof. intros (r & Hr & _) (r' & Hr' & _). rewrite Hr in Hr'. by destruct sh, sh'. Qed.

Lemma one_shape d t : sq_ok d -> has_events d t -> ~ has_states d t.
Proof. intros _ He Hs. by pose proof (table_shape _ _ _ _ He Hs). Qed.

Lemma table_name sh d t : sq_ok d -> has_table sh d t -> is_name t = true.
Proof. intros [_ Hok] (r & Hr & _). by apply (Hok t _ Hr). Qed.

(** Only the tables of another shape than [sh] need be as they were. *)
Definition keeps_other sh d d' : Prop :=
  forall sh' t, sh' <> sh -> has_table sh' d t -> contents d' !! t = contents d !! t.

Lemma keeps_other_states d d' : keeps_other EventsShape d d' -> keeps_states d d'.
Proof. intros Hk t p Ht. unfold states. by rewrite (Hk StatesShape t). Qed.

Lemma keeps_other_events d d' : keeps_other StatesShape d d' -> keeps_events d d'.
Proof. intros Hk t p k Ht. unfold events. by rewrite (Hk EventsShape t). Qed.

(** A statement that puts new rows into the table [t]. *)
Lemma run_on sh d sql params s t rows rows' :
  sq_ok d -> parse sql = Some s ->
  exec s params (contents d) = Some (<[t := shaped sh rows']> (contents d)) ->
  is_name t = true ->
  (contents d !! t = Some (shaped sh rows) \/ contents d !! t = None) ->
  map_Forall (row_ok sh) rows' ->
  exists d' n, execute d sql params = (d', Ok n) /\
    contents d' = <[t := shaped sh rows']> (contents d) /\
    keeps_tables d d' /\ keeps_other sh d d' /\ has_table sh d' t.
Proof.
  intros [Hw Hok] Hp Hx Hn Ht Hr. destruct (execute_law d sql params s _ Hw Hp Hx) as (d' & n & He & Hw' & Hc).
  assert (has_table sh d' t) as Hnew.
  { exists rows'. by rewrite Hc, lookup_insert_eq. }
  assert (forall sh' t', t' <> t -> has_table sh' d t' -> has_table sh' d' t') as Hold.
  { intros sh' t' Hne (r & Hrt & Hf). exists r. by rewrite Hc, lookup_insert_ne. }
  assert (forall sh', has_table sh' d t -> sh' = sh) as Hsame.
  { intros sh' (r & Hrt & _). destruct Ht as [Ht|Ht]; rewrite Ht in Hrt; [|done].
    by destruct sh, sh'. }
  assert (forall sh' t', has_table sh' d t' -> has_table sh' d' t') as Hkeep.
  { intros sh' t' Hh. destruct (decide (t' = t)) as [->|Hne]; [|by apply Hold].
    by rewrite (Hsame sh' Hh). }
  exists d', n. split_and!; [done|done| | |done].
  - split; [split; [done|]|split; intros t'; apply Hkeep].
    intros t' tb. rewrite Hc. destruct (decide (t' = t)) as [->|Hne].
    + intros _. split; [done|by exists sh].
    + rewrite lookup_insert_ne by done. intros Hl. destruct (Hok _ _ Hl) as [Hn' [sh' Hs]].
      split; [done|]. exists sh'. by apply Hkeep.
  - intros sh' t' Hne Hh. rewrite Hc, lookup_insert_ne; [done|]. intros <-.
    by apply Hne, Hsame.
Qed.

(** A CREATE TABLE leaves a table that exists as it is. *)
Lemma create_law sh d sql s t :
  sq_ok d -> parse sql = Some s -> is_name t = true ->
  (forall db : database, exec s [] db
     = Some (match db !! t with Some _ => db | None => <[t := shaped sh ∅]> db end)) ->
  (forall sh', has_table sh' d t -> sh' = sh) ->
  exists d' n, execute d sql [] = (d', Ok n) /\ keeps_tables d d' /\ has_table sh d' t /\
    (forall sh' t', has_table sh' d t' -> contents d' !! t' = contents d !! t') /\
    (~ has_table sh d t -> contents d' !! t = Some (shaped sh ∅)).
Proof.
  intros Hok Hp Hn Hx Hsame. specialize (Hx (contents d)).
  destruct (contents d !! t) as [tb|] eqn:Ht.
  - destruct (proj2 Hok t tb Ht) as (_ & sh' & Hh). rewrite (Hsame _ Hh) in Hh.
    pose proof Hh as (rows & Hrows & Hf).
    rewrite <- (insert_id _ _ _ Hrows) in Hx at 2.
    destruct (run_on sh d sql [] s t rows rows Hok Hp Hx Hn (or_introl Hrows) Hf)
      as (d' & n & He & Hc & Hk & _ & Hnew). rewrite (insert_id _ _ _ Hrows) in Hc.
    exists d', n. split_and!; [done..|by rewrite Hc|by intros []].
  - destruct (run_on sh d sql [] s t ∅ ∅ Hok Hp Hx Hn (or_intror Ht) (map_Forall_empty _))
      as (d' & n & He & Hc & Hk & _ & Hnew).
    exists d', n. split_and!; [done..| |by rewrite Hc, lookup_insert_eq].
    intros sh' t' (r & Hr & _). rewrite Hc, lookup_insert_ne; [done|]. intros <-. congruence.
Qed.

Lemma create_events_law d t :
  sq_ok d -> name_ok t = true -> ~ has_states d t ->
  exists d' n, execute d (Sql.create_collection t) [] = (d', Ok n) /\ keeps_tables d d' /\
    has_events d' t /\ keeps_events d d' /\ keeps_states d d' /\
    (~ has_events d t -> forall p k, events d' t p k = None).
Proof.
  intros Hok Hn Hs.
  destruct (create_law EventsShape d _ _ t Hok (parse_create_collection t Hn) Hn)
    as (d' & n & He & Hk & Hnew & Hold & Hc); [done|by intros []|].
  exists d', n. split_and!; [done..| | |].
  - intros t' p k Ht'. unfold events. by rewrite (Hold _ _ Ht').
  - intros t' p Ht'. unfold states. by rewrite (Hold _ _ Ht').
  - intros Hne p k. unfold events. by rewrite (Hc Hne).
Qed.

Lemma create_states_law d t :
  sq_ok d -> name_ok t = true -> ~ has_events d t ->
  exists d' n, execute d (Sql.create_state t) [] = (d', Ok n) /\ keeps_tables d d' /\
    has_states d' t /\ keeps_events d d' /\ keeps_states d d' /\
    (~ has_states d t -> forall p, states d' t p = None).
Proof.
  intros Hok Hn He.
  destruct (create_law StatesShape d _ _ t Hok (parse_create_state t Hn) Hn)
    as (d' & n & Hx & Hk & Hnew & Hold & Hc); [done|by intros []|].
  exists d', n. split_and!; [done..| | |].
  - intros t' p k Ht'. unfold events. by rewrite (Hold _ _ Ht').
  - intros t' p Ht'. unfold states. by rewrite (Hold _ _ Ht').
  - intros Hne p. unfold states. by rewrite (Hc Hne).
Qed.

(** A statement that changes the rows of an existing table: what it does to the
    values of [sh]'s table follows from the new rows. *)
Lemma change_law sh d (sql : string) (params : list sql_value) (s : statement) t (f : rows_map -> rows_map) :
  sq_ok d -> has_table sh d t -> parse sql = Some s ->
  (forall (db : database) rows, db !! t = Some (shaped sh rows) ->
     exec s params db = Some (<[t := shaped sh (f rows)]> db)) ->
  (forall rows, map_Forall (row_ok sh) rows -> map_Forall (row_ok sh) (f rows)) ->
  exists d' n rows, execute d sql params = (d', Ok n) /\ keeps_tables d d' /\
    keeps_other sh d d' /\ map_Forall (row_ok sh) rows /\
    contents d !! t = Some (shaped sh rows) /\ contents d' !! t = Some (shaped sh (f rows)).
Proof.
  intros Hok Hh Hp Hx Hf. pose proof Hh as (rows & Hr & Hrok).
  destruct (run_on sh d sql params s t rows (f rows) Hok Hp (Hx _ _ Hr)
              (table_name _ _ _ Hok Hh) (or_introl Hr) (Hf _ Hrok))
    as (d' & n & He & Hc & Hk & Ho & _).
  exists d', n, rows. split_and!; [done..|]. by rewrite Hc, lookup_insert_eq.
Qed.

Lemma insert_sn_law d t p k v :
  sq_ok d -> has_events d t ->
  exists d' n, execute d (Sql.insert_sn t) [SqlText p; SqlText k; SqlBlob v] = (d', Ok n) /\
    keeps_tables d d' /\ keeps_states d d' /\
    forall p' k', events d' t p' k' =
      if decide (p' = p /\ k' = k) then Some v else events d t p' k'.
Proof.
  intros Hok Hh.
  destruct (change_law EventsShape d _ [SqlText p; SqlText k; SqlBlob v] _ t
              (fun rows => <[[SqlText p; SqlText k] := [SqlText p; SqlText k; SqlBlob v]]> rows)
              Hok Hh (parse_insert_sn t (table_name _ _ _ Hok Hh)))
    as (d' & n & rows & He & Hk & Ho & _ & Hr & Hr').
  { intros db rows Hl. cbn [exec]. rewrite Hl. reflexivity. }
  { intros rows Hf. apply map_Forall_insert_2; [by repeat eexists|done]. }
  exists d', n. split_and!; [done|done|by apply keeps_other_states|]. intros p' k'.
  unfold events. rewrite Hr, Hr'. cbn. unfold value_at. cbn [t_rows shaped].
  destruct (decide (p' = p /\ k' = k)) as [[-> ->]|Hne]; [by rewrite lookup_insert_eq|].
  rewrite lookup_insert_ne; [done|]. intros [= <- <-]. by apply Hne.
Qed.

Lemma insert_state_law d t p v :
  sq_ok d -> has_states d t ->
  exists d' n, execute d (Sql.insert_state t) [SqlText p; SqlBlob v] = (d', Ok n) /\
    keeps_tables d d' /\ keeps_events d d' /\
    forall p', states d' t p' = if decide (p' = p) then Some v else states d t p'.
Proof.
  intros Hok Hh.
  destruct (change_law StatesShape d _ [SqlText p; SqlBlob v] _ t
              (fun rows => <[[SqlText p] := [SqlText p; SqlBlob v]]> rows)
              Hok Hh (parse_insert_state t (table_name _ _ _ Hok Hh)))
    as (d' & n & rows & He & Hk & Ho & _ & Hr & Hr').
  { intros db rows Hl. cbn [exec]. rewrite Hl. reflexivity. }
  { intros rows Hf. apply map_Forall_insert_2; [by repeat eexists|done]. }
  exists d', n. split_and!; [done|done|by apply keeps_other_events|]. intros p'.
  unfold states. rewrite Hr, Hr'. cbn. unfold value_at. cbn [t_rows shaped].
  destruct (decide (p' = p)) as [->|Hne]; [by rewrite lookup_insert_eq|].
  rewrite lookup_insert_ne; [done|]. intros [= <-]. by apply Hne.
Qed.

(** The rows that a DELETE leaves. *)
Definition remaining sh (params : list sql_value) (cond : list (string * nat)) rows : rows_map :=
  filter (fun kr => satisfies (shaped sh rows) params cond kr.2 = false) rows.

Lemma remaining_ok sh params cond rows :
  map_Forall (row_ok sh) rows -> map_Forall (row_ok sh) (remaining sh params cond rows).
Proof. intros Hf key r [Hl _]%map_lookup_filter_Some. by apply Hf. Qed.

(** A DELETE removes the values of the rows that satisfy its conditions, which
    [hit] describes on the keys. *)
Lemma remaining_value sh params cond rows key (hit : bool) :
  (forall r, row_ok sh key r -> satisfies (shaped sh rows) params cond r = hit) ->
  map_Forall (row_ok sh) rows ->
  value_at (shaped sh (remaining sh params cond rows)) key
  = if hit then None else value_at (shaped sh rows) key.
Proof.
  intros Hh Hf. assert (forall r, t_rows (shaped sh r) = r) as Hr by by destruct sh.
  unfold value_at. rewrite !Hr. unfold remaining. rewrite map_lookup_filter.
  destruct (rows !! key) as [r|] eqn:Hl; [|by destruct hit]. cbn.
  rewrite (Hh r (Hf _ _ Hl)). by destruct hit.
Qed.

Lemma delete_sn_law d t p k :
  sq_ok d -> has_events d t ->
  exists d' n, execute d (Sql.delete_sn t) [SqlText p; SqlText k] = (d', Ok n) /\
    keeps_tables d d' /\ keeps_states d d' /\
    forall p' k', events d' t p' k' =
      if decide (p' = p /\ k' = k) then None else events d t p' k'.
Proof.
  intros Hok Hh.
  destruct (change_law EventsShape d _ [SqlText p; SqlText k] _ t
              (remaining EventsShape [SqlText p; SqlText k] [("prefix", 1); ("sn", 2)])
              Hok Hh (parse_delete_sn t (table_name _ _ _ Hok Hh)))
    as (d' & n & rows & He & Hk & Ho & Hf & Hr & Hr').
  { intros db rows Hl. cbn [exec]. rewrite Hl. reflexivity. }
  { intros rows. apply remaining_ok. }
  exists d', n. split_and!; [done|done|by apply keeps_other_states|]. intros p' k'.
  unfold events. rewrite Hr, Hr'. cbn [mbind option_bind].
  rewrite (remaining_value _ _ _ _ _ (bool_decide (p' = p /\ k' = k))), decide_bool_decide; [done| |done].
  intros r (p2 & k2 & v & [= <- <-] & ->). cbn. repeat case_bool_decide; naive_solver.
Qed.

Lemma delete_events_law d t p :
  sq_ok d -> has_events d t ->
  exists d' n, execute d (Sql.delete_prefix t) [SqlText p] = (d', Ok n) /\
    keeps_tables d d' /\ keeps_states d d' /\
    forall p' k', events d' t p' k' = if decide (p' = p) then None else events d t p' k'.
Proof.
  intros Hok Hh.
  destruct (change_law EventsShape d _ [SqlText p] _ t
              (remaining EventsShape [SqlText p] [("prefix", 1)])
              Hok Hh (parse_delete_prefix t (table_name _ _ _ Hok Hh)))
    as (d' & n & rows & He & Hk & Ho & Hf & Hr & Hr').
  { intros db rows Hl. cbn [exec]. rewrite Hl. reflexivity. }
  { intros rows. apply remaining_ok. }
  exists d', n. split_and!; [done|done|by apply keeps_other_states|]. intros p' k'.
  unfold events. rewrite Hr, Hr'. cbn [mbind option_bind].
  rewrite (remaining_value _ _ _ _ _ (bool_decide (p' = p))), decide_bool_decide; [done| |done].
  intros r (p2 & k2 & v & [= <- <-] & ->). cbn. repeat case_bool_decide; naive_solver.
Qed.

Lemma delete_state_law d t p :
  sq_ok d -> has_states d t ->
  exists d' n, execute d (Sql.delete_prefix t) [SqlText p] = (d', Ok n) /\
    keeps_tables d d' /\ keeps_events d d' /\
    forall p', states d' t p' = if decide (p' = p) then None else states d t p'.
Proof.
  intros Hok Hh.
  destruct (change_law StatesShape d _ [SqlText p] _ t
              (remaining StatesShape [SqlText p] [("prefix", 1)])
              Hok Hh (parse_delete_prefix t (table_name _ _ _ Hok Hh)))
    as (d' & n & rows & He & Hk & Ho & Hf & Hr & Hr').
  { intros db rows Hl. cbn [exec]. rewrite Hl. reflexivity. }
  { intros rows. apply remaining_ok. }
  exists d', n. split_and!; [done|done|by apply keeps_other_events|]. intros p'.
  unfold states. rewrite Hr, Hr'. cbn [mbind option_bind].
  rewrite (remaining_value _ _ _ _ _ (bool_decide (p' = p))), decide_bool_decide; [done| |done].
  intros r (p2 & v & [= <-] & ->). cbn. repeat case_bool_decide; naive_solver.
Qed.

(** The rows that a SELECT finds. *)
Definition found sh (params : list sql_value) (cond : list (string * nat)) rows : rows_map :=
  filter (fun kr => satisfies (shaped sh rows) params cond kr.2 = true) rows.

(** Conditions that fix the primary key find one row at most. *)
Lemma found_key sh params cond rows key :
  (forall key' r, row_ok sh key' r ->
     satisfies (shaped sh rows) params cond r = bool_decide (key' = key)) ->
  map_Forall (row_ok sh) rows ->
  found sh params cond rows = match rows !! key with Some r => {[key := r]} | None => ∅ end.
Proof.
  intros Hh Hf. apply map_eq. intros key'. unfold found. rewrite map_lookup_filter.
  destruct (decide (key' = key)) as [->|Hne].
  - destruct (rows !! key) as [r|] eqn:Hl; [|by rewrite lookup_empty].
    rewrite lookup_singleton_eq. cbn. by rewrite (Hh _ _ (Hf _ _ Hl)), bool_decide_true by done.
  - transitivity (@None row).
    + destruct (rows !! key') as [r|] eqn:Hl; [|done]. cbn.
      by rewrite (Hh _ _ (Hf _ _ Hl)), bool_decide_false by done.
    + destruct (rows !! key); [by rewrite lookup_singleton_ne|by rewrite lookup_empty].
Qed.

(** [query_row] on such conditions, for the value. *)
Lemma one_row_law sh d sql params s t rows cond key :
  sq_ok d -> contents d !! t = Some (shaped sh rows) -> map_Forall (row_ok sh) rows ->
  parse sql = Some s ->
  matching s params (contents d)
  = Some (mk_selection (shaped sh rows) (map_to_list (found sh params cond rows)).*2 ["value"] None) ->
  (forall key' r, row_ok sh key' r ->
     satisfies (shaped sh rows) params cond r = bool_decide (key' = key)) ->
  match value_at (shaped sh rows) key with
  | Some v => exists row, query_row d sql params = Ok row /\ get_blob row 0 = Ok v
  | None => query_row d sql params = Err no_rows
  end.
Proof.
  intros [Hw _] Ht Hf Hp Hm Hkey.
  destruct (query_row_law d sql params s _ Hw Hp Hm) as (rs & [Hrs _] & Hq). cbn [sel_rows] in Hrs.
  rewrite (found_key _ _ _ _ _ Hkey Hf) in Hrs.
  assert (t_rows (shaped sh rows) = rows) as Hr by by destruct sh.
  unfold value_at. rewrite Hr. destruct (rows !! key) as [r|] eqn:Hl; cbn [mbind option_bind].
  - rewrite map_to_list_singleton in Hrs. apply Permutation_singleton_r in Hrs as ->.
    destruct Hq as (row & Hq & Hsh). specialize (Hsh 0 "value" eq_refl). cbn [sel_table] in Hsh.
    destruct sh.
    + destruct (Hf _ _ Hl) as (p & k & v & _ & ->). by exists row.
    + destruct (Hf _ _ Hl) as (p & v & _ & ->). by exists row.
  - rewrite map_to_list_empty in Hrs. by apply Permutation_nil_r in Hrs as ->.
Qed.

Lemma select_sn_law d t p k :
  sq_ok d -> has_events d t ->
  match events d t p k with
  | Some v => exists row, query_row d (Sql.select_sn t) [SqlText p; SqlText k] = Ok row /\
                get_blob row 0 = Ok v
  | None => query_row d (Sql.select_sn t) [SqlText p; SqlText k] = Err no_rows
  end.
Proof.
  intros Hok Hh. pose proof Hh as (rows & Hr & Hf). unfold events. rewrite Hr. cbn [mbind option_bind].
  apply (one_row_law EventsShape d _ _ _ t rows [("prefix", 1); ("sn", 2)] _ Hok Hr Hf
           (parse_select_sn t (table_name _ _ _ Hok Hh))).
  - cbn [matching]. rewrite Hr. reflexivity.
  - intros key r (p' & k' & v & -> & ->). cbn. repeat case_bool_decide; naive_solver.
Qed.

Lemma select_state_law d t p :
  sq_ok d -> has_states d t ->
  match states d t p with
  | Some v => exists row, query_row d (Sql.select_state t) [SqlText p] = Ok row /\
                get_blob row 0 = Ok v
  | None => query_row d (Sql.select_state t) [SqlText p] = Err no_rows
  end.
Proof.
  intros Hok Hh. pose proof Hh as (rows & Hr & Hf). unfold states. rewrite Hr. cbn [mbind option_bind].
  apply (one_row_law StatesShape d _ _ _ t rows [("prefix", 1)] _ Hok Hr Hf
           (parse_select_state t (table_name _ _ _ Hok Hh))).
  - cbn [matching]. rewrite Hr. reflexivity.
  - intros key r (p' & v & -> & ->). cbn. repeat case_bool_decide; naive_solver.
Qed.

(** The key and the value that a row of events holds. *)
Definition binding (r : row) : string * bytes :=
  match r with [_; SqlText k; SqlBlob v] => (k, v) | _ => (EmptyString, []) end.

Definition of_prefix p (r : row) : Prop := exists k v, r = [SqlText p; SqlText k; SqlBlob v].

(** The rows of a prefix. *)
Lemma found_prefix p rows key r :
  map_Forall (row_ok EventsShape) rows ->
  found EventsShape [SqlText p] [("prefix", 1)] rows !! key = Some r <->
  exists k v, key = [SqlText p; SqlText k] /\ r = [SqlText p; SqlText k; SqlBlob v] /\
    rows !! key = Some r.
Proof.
  intros Hf. unfold found. rewrite map_lookup_filter_Some. split.
  - intros [Hl Hs]. destruct (Hf _ _ Hl) as (p' & k & v & -> & ->). exists k, v. cbn in Hs.
    by case_bool_decide; simplify_eq.
  - intros (k & v & -> & -> & Hl). split; [done|]. cbn. by rewrite bool_decide_true.
Qed.

Definition prefix_selection rows p (rev : bool) : selection :=
  mk_selection (shaped EventsShape rows)
    (map_to_list (found EventsShape [SqlText p] [("prefix", 1)] rows)).*2 ["sn"; "value"]
    (Some ("sn", rev)).

Section Answers.
Context (rows : rows_map) (Hf : map_Forall (row_ok EventsShape) rows) (p : string).

Lemma answers_of_prefix rev rs :
  answers (prefix_selection rows p rev) rs -> Forall (of_prefix p) rs.
Proof using Hf.
  intros [Hp _]. rewrite Hp. cbn [sel_rows prefix_selection]. apply Forall_fmap, Forall_forall.
  intros [key r] Hin%elem_of_map_to_list. apply found_prefix in Hin as (k & v & _ & -> & _); [|done].
  by exists k, v.
Qed.

Lemma answers_bindings rev rs k v :
  answers (prefix_selection rows p rev) rs ->
  (k, v) ∈ binding <$> rs <-> value_at (shaped EventsShape rows) [SqlText p; SqlText k] = Some v.
Proof using Hf.
  intros [Hp _]. rewrite Hp. cbn [sel_rows prefix_selection]. unfold value_at. cbn [t_rows shaped].
  rewrite <- list_fmap_compose, list_elem_of_fmap. split.
  - intros ([key r] & Heq & Hin%elem_of_map_to_list).
    apply found_prefix in Hin as (k' & v' & -> & -> & Hl); [|done]. cbn in Heq. simplify_eq.
    by rewrite Hl.
  - destruct (rows !! [SqlText p; SqlText k]) as [r|] eqn:Hl; [|done]. cbn.
    pose proof (Hf _ _ Hl) as (p' & k' & v' & [= <- <-] & ->). intros [= ->].
    exists ([SqlText p; SqlText k], [SqlText p; SqlText k; SqlBlob v]). split; [done|].
    apply elem_of_map_to_list, found_prefix; [done|]. by exists k, v.
Qed.

Lemma answers_NoDup rev rs :
  answers (prefix_selection rows p rev) rs -> NoDup (binding <$> rs).*1.
Proof using Hf.
  intros [Hp _]. rewrite Hp. cbn [sel_rows prefix_selection].
  apply (NoDup_fmap_1 (fun k => [SqlText p; SqlText k])).
  assert (Forall (fun kr => exists k v, kr = ([SqlText p; SqlText k], [SqlText p; SqlText k; SqlBlob v]))
            (map_to_list (found EventsShape [SqlText p] [("prefix", 1)] rows))) as Hall.
  { apply Forall_forall. intros [key r] Hin%elem_of_map_to_list.
    apply found_prefix in Hin as (k & v & -> & -> & _); [|done]. by exists k, v. }
  pose proof (NoDup_fst_map_to_list (found EventsShape [SqlText p] [("prefix", 1)] rows)) as Hn.
  revert Hall Hn. generalize (map_to_list (found EventsShape [SqlText p] [("prefix", 1)] rows)).
  intros l Hall. replace ((fun k => [SqlText p; SqlText k]) <$> (binding <$> l.*2).*1) with l.*1; [done|].
  induction Hall as [|kr l (k & v & ->) _ IH]; [done|]. cbn. by rewrite IH.
Qed.

Lemma answers_sorted rev rs :
  answers (prefix_selection rows p rev) rs ->
  StronglySorted (if rev then flip key_lt else key_lt) (binding <$> rs).
Proof using Hf.
  intros Ha. pose proof (answers_of_prefix _ _ Ha) as Hall. pose proof (answers_NoDup _ _ Ha) as Hn.
  destruct Ha as [_ Ho]. unfold ordered in Ho. cbn [sel_order prefix_selection sel_table] in Ho.
  induction Hall as [|r rs (k & v & ->) Hall IH]; [constructor|].
  inv Ho. apply NoDup_cons in Hn as [Hk Hn]. cbn. constructor; [by apply IH|].
  apply Forall_fmap, Forall_forall. intros r Hin.
  destruct (proj1 (Forall_forall _ _) Hall r Hin) as (k' & v' & ->).
  match goal with Hle : Forall _ rs |- _ =>
    pose proof (proj1 (Forall_forall _ _) Hle _ Hin) as Hlt; cbn in Hlt end.
  assert (k <> k') as Hne.
  { intros ->. apply Hk. apply list_elem_of_fmap. exists (k', v'). split; [done|].
    by apply list_elem_of_fmap_2 with (f := binding) in Hin. }
  destruct rev; unfold compose, flip, key_lt; cbn; apply str_lt_le; by split.
Qed.

End Answers.

Lemma select_all_law d t p :
  sq_ok d -> has_events d t ->
  exists l, sorted_bindings l (events d t p) /\
    forall rev, exists qs : list Row, query d (Sql.select_all t rev) [SqlText p] = Ok (Ok <$> qs) /\
      Forall2 (fun (q : Row) kv => get_text q 0 = Ok kv.1 /\ get_blob q 1 = Ok kv.2)
        qs (if rev then reverse l else l).
Proof.
  intros Hok Hh. pose proof Hh as (rows & Hr & Hf).
  assert (forall rev : bool, exists (l : list (string * bytes)) (qs : list Row), StronglySorted (if rev then flip key_lt else key_lt) l /\
    (forall k v, (k, v) ∈ l <-> events d t p k = Some v) /\
    query d (Sql.select_all t rev) [SqlText p] = Ok (Ok <$> qs) /\
    Forall2 (fun (q : Row) kv => get_text q 0 = Ok kv.1 /\ get_blob q 1 = Ok kv.2) qs l) as Hq.
  { intros rev.
    destruct (query_law d _ [SqlText p] _ (prefix_selection rows p rev) (proj1 Hok)
                (parse_select_all t (table_name _ _ _ Hok Hh) rev)) as (rs & qs & Ha & Hq & Hs).
    { cbn [matching]. rewrite Hr. reflexivity. }
    exists (binding <$> rs), qs. split_and!; [by apply (answers_sorted _ Hf p)| |done|].
    - intros k v. unfold events. rewrite Hr. by apply (answers_bindings _ Hf p rev).
    - apply Forall2_fmap_r. pose proof (answers_of_prefix _ Hf _ _ _ Ha) as Hall. clear Hq Ha.
      induction Hs as [|q r qs rs Hsh _ IH]; [constructor|].
      apply Forall_cons in Hall as [(k & v & ->) Hall]. constructor; [|by apply IH].
      split; [exact (Hsh 0 "sn" eq_refl)|exact (Hsh 1 "value" eq_refl)]. }
  destruct (Hq false) as (l & qs & Hs & Hl & Hq1 & Hf1), (Hq true) as (l' & qs' & Hs' & Hl' & Hq2 & Hf2).
  exists l. split; [done|]. replace l' with (reverse l) in Hf2.
  - intros []; by eexists.
  - rewrite <- (reverse_involutive l'). f_equal.
    apply (sorted_bindings_unique l (reverse l') (events d t p) (events d t p)); [done| |done].
    split; [exact (StronglySorted_reverse _ _ Hs')|]. intros k v. by rewrite elem_of_reverse.
Qed.

End Tables.

Section Laws.
Context {D Row : Type} `{RusqliteLaws D Row}.
Implicit Types (w : SqliteWorld D) (s c : SqliteCollection).

(** The connection works. *)
Definition conn_ok w : Prop := conn_poisoned w = false /\ sq_ok (conn w).

Definition sqlite_coll_inv w c : Prop := conn_ok w /\ has_events (conn w) (sq_table c).
Definition sqlite_st_inv w s : Prop := conn_ok w /\ has_states (conn w) (sq_table s).

Definition sqlite_coll_view w c (k : string) : option bytes :=
  events (conn w) (sq_table c) (sq_prefix c) k.
Definition sqlite_st_view w s : option bytes := states (conn w) (sq_table s) (sq_prefix s).

Definition row_missing : Error := EntryNotFound no_rows.

Lemma with_conn_Ok {A} what err (f : D -> D * outcome string A) w d' a :
  conn_ok w -> f (conn w) = (d', Ok a) ->
  with_conn what err f w = (mk_sqlite_world false d', Ok tt).
Proof. intros [Hp _] Hf. unfold with_conn. by rewrite Hp, Hf. Qed.

(** What a successful statement on the events of a collection changes: the rows
    [f] selects get the value [o]. *)
Definition events_set w w' c (f : string -> string -> bool) (o : option bytes) : Prop :=
  conn_poisoned w' = false /\ keeps_tables (conn w) (conn w') /\
  keeps_states (conn w) (conn w') /\
  forall p k, events (conn w') (sq_table c) p k =
    if f p k then o else events (conn w) (sq_table c) p k.

Definition states_set w w' s (o : option bytes) : Prop :=
  conn_poisoned w' = false /\ keeps_tables (conn w) (conn w') /\
  keeps_events (conn w) (conn w') /\
  forall p, states (conn w') (sq_table s) p =
    if decide (p = sq_prefix s) then o else states (conn w) (sq_table s) p.

Lemma sqlite_put_set w c k v :
  sqlite_coll_inv w c ->
  exists w', SqliteEvents.put w c k v = (w', Ok tt) /\
    events_set w w' c (fun p k' => bool_decide (p = sq_prefix c /\ k' = k)) (Some v).
Proof.
  intros [Hw Ht]. destruct (insert_sn_law (conn w) (sq_table c) (sq_prefix c) k v)
    as (d' & n & He & Hk & Hs & Hv); [apply Hw|done|].
  unfold SqliteEvents.put. rewrite (with_conn_Ok _ _ _ _ _ _ Hw He). eexists. split; [done|].
  split_and!; [done..|]. intros p k'. cbn. by rewrite Hv, decide_bool_decide.
Qed.

Lemma sqlite_del_set w c k :
  sqlite_coll_inv w c ->
  exists w', SqliteEvents.del w c k = (w', Ok tt) /\
    events_set w w' c (fun p k' => bool_decide (p = sq_prefix c /\ k' = k)) None.
Proof.
  intros [Hw Ht]. destruct (delete_sn_law (conn w) (sq_table c) (sq_prefix c) k)
    as (d' & n & He & Hk & Hs & Hv); [apply Hw|done|].
  unfold SqliteEvents.del. rewrite (with_conn_Ok _ _ _ _ _ _ Hw He). eexists. split; [done|].
  split_and!; [done..|]. intros p k'. cbn. by rewrite Hv, decide_bool_decide.
Qed.

Lemma sqlite_purge_set w c :
  sqlite_coll_inv w c ->
  exists w', SqliteEvents.purge w c = (w', Ok tt) /\
    events_set w w' c (fun p _ => bool_decide (p = sq_prefix c)) None.
Proof.
  intros [Hw Ht]. destruct (delete_events_law (conn w) (sq_table c) (sq_prefix c))
    as (d' & n & He & Hk & Hs & Hv); [apply Hw|done|].
  unfold SqliteEvents.purge. rewrite (with_conn_Ok _ _ _ _ _ _ Hw He). eexists. split; [done|].
  split_and!; [done..|]. intros p k'. cbn. by rewrite Hv, decide_bool_decide.
Qed.

Lemma sqlite_st_put_set w s v :
  sqlite_st_inv w s ->
  exists w', SqliteState.put w s v = (w', Ok tt) /\ states_set w w' s (Some v).
Proof.
  intros [Hw Ht]. destruct (insert_state_law (conn w) (sq_table s) (sq_prefix s) v)
    as (d' & n & He & Hk & Hs & Hv); [apply Hw|done|].
  unfold SqliteState.put. rewrite (with_conn_Ok _ _ _ _ _ _ Hw He). by eexists.
Qed.

Lemma sqlite_st_purge_set w s :
  sqlite_st_inv w s ->
  exists w', SqliteState.purge w s = (w', Ok tt) /\ states_set w w' s None.
Proof.
  intros [Hw Ht]. destruct (delete_state_law (conn w) (sq_table s) (sq_prefix s))
    as (d' & n & He & Hk & Hs & Hv); [apply Hw|done|].
  unfold SqliteState.purge. rewrite (with_conn_Ok _ _ _ _ _ _ Hw He). by eexists.
Qed.

(** The invariants survive any statement that keeps the tables. *)
Lemma kept_inv w w' :
  conn_poisoned w' = false -> keeps_tables (conn w) (conn w') ->
  (forall c, sqlite_coll_inv w c -> sqlite_coll_inv w' c) /\
  (forall s, sqlite_st_inv w s -> sqlite_st_inv w' s).
Proof.
  intros Hp (Hok & He & Hs). split; intros x [_ Hx]; (split; [done|]); [by apply He|by apply Hs].
Qed.

Lemma events_set_inv w w' c f o x :
  events_set w w' c f o -> sqlite_coll_inv w x -> sqlite_coll_inv w' x.
Proof. intros (Hp & Hk & _). by apply kept_inv. Qed.

Lemma states_set_inv w w' s o x :
  states_set w w' s o -> sqlite_st_inv w x -> sqlite_st_inv w' x.
Proof. intros (Hp & Hk & _). by apply kept_inv. Qed.

(** A write to one shape leaves what is read of the other. *)
Lemma events_set_states w w' c f o s :
  events_set w w' c f o -> sqlite_st_inv w s ->
  sqlite_st_inv w' s /\ sqlite_st_view w' s = sqlite_st_view w s.
Proof.
  intros (Hp & Hk & Hs & _) Hi. split; [by eapply kept_inv|]. by apply Hs, Hi.
Qed.

Lemma states_set_events w w' s o c :
  states_set w w' s o -> sqlite_coll_inv w c ->
  sqlite_coll_inv w' c /\ forall k, sqlite_coll_view w' c k = sqlite_coll_view w c k.
Proof.
  intros (Hp & Hk & He & _) Hi. split; [by eapply kept_inv|]. intros k. by apply He, Hi.
Qed.

Lemma sqlite_get_value w c k :
  sqlite_coll_inv w c ->
  SqliteEvents.get w c k
  = match sqlite_coll_view w c k with Some v => Ok v | None => Err row_missing end.
Proof.
  intros [[Hp Hok] Ht]. unfold SqliteEvents.get, query_value, sqlite_coll_view. rewrite Hp.
  pose proof (select_sn_law (conn w) (sq_table c) (sq_prefix c) k Hok Ht) as Hs.
  destruct (events (conn w) (sq_table c) (sq_prefix c) k).
  - destruct Hs as (row & -> & Hb). cbn. by rewrite Hb.
  - by rewrite Hs.
Qed.

Lemma sqlite_st_get_value w s :
  sqlite_st_inv w s ->
  SqliteState.get w s
  = match sqlite_st_view w s with Some v => Ok v | None => Err row_missing end.
Proof.
  intros [[Hp Hok] Ht]. unfold SqliteState.get, query_value, sqlite_st_view. rewrite Hp.
  pose proof (select_state_law (conn w) (sq_table s) (sq_prefix s) Hok Ht) as Hs.
  destruct (states (conn w) (sq_table s) (sq_prefix s)).
  - destruct Hs as (row & -> & Hb). cbn. by rewrite Hb.
  - by rewrite Hs.
Qed.

Lemma read_rows_Ok (rows : list Row) l :
  Forall2 (fun (q : Row) kv => get_text q 0 = Ok kv.1 /\ get_blob q 1 = Ok kv.2) rows l ->
  SqliteEvents.read_rows (Ok <$> rows) = Ok l.
Proof.
  induction 1 as [|row [k v] rows l [Hk Hv] Hl IH]; [done|].
  cbn in *. rewrite Hk. cbn. rewrite Hv. cbn. by rewrite IH.
Qed.

Lemma sqlite_iter_law w c :
  sqlite_coll_inv w c ->
  exists l, sorted_bindings l (sqlite_coll_view w c) /\
    SqliteEvents.iter w c false = Ok (Yield <$> l) /\
    SqliteEvents.iter w c true = Ok (Yield <$> reverse l).
Proof.
  intros [[Hp Hok] Ht].
  destruct (select_all_law (conn w) (sq_table c) (sq_prefix c) Hok Ht) as (l & Hl & Hr).
  exists l. split; [done|]. unfold SqliteEvents.iter, SqliteEvents.make_iter. rewrite Hp.
  destruct (Hr false) as (r1 & -> & H1), (Hr true) as (r2 & -> & H2). cbn [mbind outcome_bind].
  by rewrite (read_rows_Ok _ _ H1), (read_rows_Ok _ _ H2).
Qed.

#[export] Program Instance sqlite_collection_laws : CollectionLaws (SqliteWorld D) SqliteCollection :=
  {| coll_inv := sqlite_coll_inv; coll_view := sqlite_coll_view |}.
Next Obligation.
  intros w c k Hi. cbn. rewrite sqlite_get_value by done. case_match; [done|by eexists].
Qed.
Next Obligation.
  intros w c k v w' r Hi _. cbn. destruct (sqlite_put_set w c k v Hi) as (w1 & -> & Hs).
  intros [= <- <-]. split; [by eapply events_set_inv|]. intros k'.
  destruct Hs as (_ & _ & _ & Hv). unfold sqlite_coll_view. rewrite Hv.
  case_bool_decide; case_decide; naive_solver.
Qed.
Next Obligation.
  intros w c k w' r Hi. cbn. destruct (sqlite_del_set w c k Hi) as (w1 & -> & Hs).
  intros [= <- <-]. split; [by eapply events_set_inv|]. intros k'.
  destruct Hs as (_ & _ & _ & Hv). unfold sqlite_coll_view. rewrite Hv.
  case_bool_decide; case_decide; naive_solver.
Qed.
Next Obligation.
  intros w c w' r Hi. cbn. destruct (sqlite_purge_set w c Hi) as (w1 & -> & Hs).
  intros [= <- <-]. split; [by eapply events_set_inv|]. intros k.
  destruct Hs as (_ & _ & _ & Hv). unfold sqlite_coll_view. by rewrite Hv, bool_decide_true.
Qed.
Next Obligation. intros w c. apply sqlite_iter_law. Qed.

#[export] Program Instance sqlite_state_laws : StateLaws (SqliteWorld D) SqliteCollection :=
  {| st_inv := sqlite_st_inv; st_view := sqlite_st_view |}.
Next Obligation.
  intros w s Hi. cbn. rewrite sqlite_st_get_value by done. case_match; [done|by eexists].
Qed.
Next Obligation.
  intros w s v w' r Hi. cbn. destruct (sqlite_st_put_set w s v Hi) as (w1 & -> & Hs).
  intros [= <- <-]. split; [by eapply states_set_inv|].
  destruct Hs as (_ & _ & _ & Hv). unfold sqlite_st_view. by rewrite Hv, decide_True.
Qed.
Next Obligation.
  intros w s w' r Hi. cbn. destruct (sqlite_st_purge_set w s Hi) as (w1 & -> & Hs).
  intros [= <- <-]. split; [by eapply states_set_inv|].
  destruct Hs as (_ & _ & _ & Hv). unfold sqlite_st_view. by rewrite Hv, decide_True.
Qed.

#[export] Instance sqlite_reliable : Reliable (SqliteWorld D) SqliteCollection row_missing (Ok tt).
Proof.
  split.
  - intros w c k Hi Hk. cbn in *. by rewrite sqlite_get_value, Hk.
  - intros w c k v Hi _. cbn. by destruct (sqlite_put_set w c k v Hi) as (w' & -> & _).
  - intros w c k Hi. cbn. destruct (sqlite_del_set w c k Hi) as (w' & -> & _). by case_match.
  - intros w c Hi. cbn. by destruct (sqlite_purge_set w c Hi) as (w' & -> & _).
Qed.

#[export] Program Instance sqlite_backend_laws
  : BackendLaws (SqliteWorld D) SqliteCollection SqliteCollection :=
  {| separate := fun w c s => sqlite_coll_inv w c /\ sqlite_st_inv w s |}.
Next Obligation. done. Qed.
Next Obligation.
  intros w c s k v w' r [Hc Hs] _. cbn. destruct (sqlite_put_set w c k v Hc) as (w1 & -> & Hset).
  intros [= <- <-]. destruct (events_set_states _ _ _ _ _ s Hset Hs).
  split; [|done]. split; [by eapply events_set_inv|done].
Qed.
Next Obligation.
  intros w c s w' r [Hc Hs]. cbn. destruct (sqlite_purge_set w c Hc) as (w1 & -> & Hset).
  intros [= <- <-]. destruct (events_set_states _ _ _ _ _ s Hset Hs).
  split; [|done]. split; [by eapply events_set_inv|done].
Qed.
Next Obligation.
  intros w c s v w' r [Hc Hs]. cbn. destruct (sqlite_st_put_set w s v Hs) as (w1 & -> & Hset).
  intros [= <- <-]. destruct (states_set_events _ _ _ _ c Hset Hc).
  split; [|done]. split; [done|by eapply states_set_inv].
Qed.
Next Obligation.
  intros w c s w' r [Hc Hs]. cbn. destruct (sqlite_st_purge_set w s Hs) as (w1 & -> & Hset).
  intros [= <- <-]. destruct (states_set_events _ _ _ _ c Hset Hc).
  split; [|done]. split; [done|by eapply states_set_inv].
Qed.

(** C17: Any sequence of get, put, del, purge and iter on an SQLite collection answers as the
    same sequence on a finite map, given that SQLite does what the text of a statement says: the
    texts of the backend create, insert, delete and select the rows of the prefix (and key) and
    no others, and order them by the key in the direction asked for. *)
Theorem sqlite_collection_refines_map w c m os :
  represents w c m -> Forall op_ok os ->
  let impl := run_ops (run_op c) w os in
  let spec := run_ops (spec_op row_missing (Ok tt)) m os in
  impl.2 = spec.2 /\ represents impl.1 c spec.1.
Proof. apply sessions_refine. Qed.

(** *** Isolation of the prefixes of a table *)

(** [w'] differs from [w] in the rows of the prefix of [c] at most. *)
Definition only_prefix w w' c : Prop :=
  (forall x, sqlite_coll_inv w x -> sqlite_coll_inv w' x) /\
  (forall s, sqlite_st_inv w s -> sqlite_st_inv w' s /\ sqlite_st_view w' s = sqlite_st_view w s) /\
  forall p k, p <> sq_prefix c -> events (conn w') (sq_table c) p k = events (conn w) (sq_table c) p k.

Lemma events_set_only w w' c f o :
  events_set w w' c f o -> (forall p k, p <> sq_prefix c -> f p k = false) -> only_prefix w w' c.
Proof.
  intros Hs Hf. split; [|split].
  - intros x. by apply (events_set_inv _ _ _ _ _ _ Hs).
  - intros s. by apply (events_set_states _ _ _ _ _ _ Hs).
  - intros p k Hp. destruct Hs as (_ & _ & _ & Hv). by rewrite Hv, Hf.
Qed.

Lemma run_op_only w c o : sqlite_coll_inv w c -> only_prefix w (run_op c w o).1 c.
Proof.
  intros Hi. destruct o as [k|k v|k| |rev]; cbn; [by split| | | |by split].
  - destruct (sqlite_put_set w c k v Hi) as (w' & -> & Hs).
    apply (events_set_only _ _ _ _ _ Hs). intros p k' Hp. apply bool_decide_false. by intros [? _].
  - destruct (sqlite_del_set w c k Hi) as (w' & -> & Hs).
    apply (events_set_only _ _ _ _ _ Hs). intros p k' Hp. apply bool_decide_false. by intros [? _].
  - destruct (sqlite_purge_set w c Hi) as (w' & -> & Hs).
    apply (events_set_only _ _ _ _ _ Hs). intros p k' Hp. by apply bool_decide_false.
Qed.

(** A session on one prefix changes nothing of the others, nor of any state. *)
Lemma run_ops_only w c os : sqlite_coll_inv w c -> only_prefix w (run_ops (run_op c) w os).1 c.
Proof.
  revert w. induction os as [|o os IH]; intros w Hi; [by split|].
  pose proof (run_op_only w c o Hi) as (H1 & H2 & H3). cbn.
  destruct (run_op c w o) as [w' r]. cbn in *. specialize (IH w' (H1 c Hi)).
  destruct (run_ops (run_op c) w' os) as [w'' rs]. destruct IH as (I1 & I2 & I3). split; [|split].
  - auto.
  - intros s [Hs <-]%H2. by apply I2.
  - intros p k Hp. by rewrite I3, H3.
Qed.

Lemma other_prefix_view w w' c c' k :
  only_prefix w w' c -> sq_table c' = sq_table c -> sq_prefix c' <> sq_prefix c ->
  sqlite_coll_view w' c' k = sqlite_coll_view w c' k.
Proof. intros (_ & _ & Hv) Ht Hp. unfold sqlite_coll_view. rewrite Ht. by apply Hv. Qed.

(** *** Opening *)

(** Opening a table keeps what every handle reads. *)
Definition keeps_contents w w' : Prop :=
  (forall c, sqlite_coll_inv w c ->
     sqlite_coll_inv w' c /\ forall k, sqlite_coll_view w' c k = sqlite_coll_view w c k) /\
  (forall s, sqlite_st_inv w s -> sqlite_st_inv w' s /\ sqlite_st_view w' s = sqlite_st_view w s).

Lemma keeps_contents_intro w d' :
  conn_ok w -> keeps_tables (conn w) d' -> keeps_events (conn w) d' -> keeps_states (conn w) d' ->
  keeps_contents w (mk_sqlite_world false d').
Proof.
  intros Hw Hk He Hs. destruct (kept_inv w (mk_sqlite_world false d') eq_refl Hk) as [Hc Ht].
  split; intros x Hx; (split; [by auto|]); [intros k; by apply He, Hx|by apply Hs, Hx].
Qed.

(** Opening a collection or a state creates its table when it is missing and keeps the contents
    of the others. *)
Theorem sqlite_open_store w table prefix :
  conn_ok w -> name_ok table = true ->
  let s := mk_sqlite table prefix in
  (~ has_states (conn w) table ->
     exists w', SqliteManager.create_collection w table prefix = (w', Ok s) /\
       sqlite_coll_inv w' s /\ keeps_contents w w' /\
       (~ has_events (conn w) table -> represents w' s ∅)) /\
  (~ has_events (conn w) table ->
     exists w', SqliteManager.create_state w table prefix = (w', Ok s) /\
       sqlite_st_inv w' s /\ keeps_contents w w' /\
       (~ has_states (conn w) table -> sqlite_st_view w' s = None)).
Proof.
  intros Hw Hn. cbn zeta.
  unfold SqliteManager.create_collection, SqliteManager.create_state, SqliteManager.create_table.
  pose proof Hw as [-> Hok]. split; intros Hno.
  - destruct (create_events_law (conn w) table Hok Hn Hno)
      as (d' & n & -> & Hk & Ht & He & Hs & Hnew).
    assert (sqlite_coll_inv (mk_sqlite_world false d') (mk_sqlite table prefix)) as Hi.
    { split; [split; [done|apply Hk]|done]. }
    eexists. split; [done|]. split; [exact Hi|]. split; [by apply keeps_contents_intro|].
    intros Hn'. split; [exact Hi|]. intros k. by apply Hnew.
  - destruct (create_states_law (conn w) table Hok Hn Hno)
      as (d' & n & -> & Hk & Ht & He & Hs & Hnew).
    eexists. split; [done|]. split; [split; [split; [done|apply Hk]|done]|].
    split; [by apply keeps_contents_intro|]. intros Hn'. by apply Hnew.
Qed.

(** *** Failures *)

(** With a poisoned mutex the calls fail, and iterating panics; a failing query makes the
    iteration empty, so that the last entry is reported absent. *)
Theorem sqlite_failures w s key data :
  (conn_poisoned w = true ->
     SqliteEvents.get w s key = Err (Store (lower_open +:+ poison_message)) /\
     SqliteEvents.put w s key data = (w, Err (Store (lower_open +:+ poison_message))) /\
     SqliteEvents.del w s key = (w, Err (Store (upper_open +:+ poison_message))) /\
     SqliteEvents.purge w s = (w, Err (Store (upper_open +:+ poison_message))) /\
     last_entry w s = Panic) /\
  (conn_poisoned w = false -> forall e d',
     (query_row (conn w) (Sql.select_sn (sq_table s)) [SqlText (sq_prefix s); SqlText key] = Err e ->
        SqliteEvents.get w s key = Err (EntryNotFound e)) /\
     (execute (conn w) (Sql.insert_sn (sq_table s))
        [SqlText (sq_prefix s); SqlText key; SqlBlob data] = (d', Err e) ->
        SqliteEvents.put w s key data
        = (mk_sqlite_world false d', Err (Store ("sqlite insert error: " +:+ e)))) /\
     (query (conn w) (Sql.select_all (sq_table s) true) [SqlText (sq_prefix s)] = Err e ->
        last_entry w s = Ok None)).
Proof.
  unfold SqliteEvents.get, query_value, SqliteEvents.put, SqliteEvents.del, SqliteEvents.purge,
    with_conn, last_entry.
  change (coll_iter w s true) with (SqliteEvents.iter w s true).
  unfold SqliteEvents.iter, SqliteEvents.make_iter. split; intros ->.
  - split_and!; reflexivity.
  - intros e d'. split_and!; by intros ->.
Qed.

End Laws.
