(* ===== verification/MapConn.v ===== *)
(** * A connection on finite maps

    An instance of the crate [rusqlite] that satisfies its laws: the connection is
    the database of [Statements], every text is parsed and run as it is written,
    and the rows of a query are sorted by the column asked for. With it come the
    witnesses of the theorems on the SQLite backend. *)

From S2P Require Import Prelude Errors Database Statements Sqlite.
Import StoreError.

Definition no_such_table : string := "no such table or column, or a syntax error".
Definition no_rows_text : string := "Query returned no rows".

Definition conn_execute (d : database) (sql : string) (params : list sql_value)
    : database * outcome string N :=
  match s ← parse sql; exec s params d with
  | Some d' => (d', Ok 0%N)
  | None => (d, Err no_such_table)
  end.

(** The text that a row is sorted by. *)
Definition sort_text (tb : table) (c : string) (r : row) : string :=
  match cell tb r c with Some (SqlText s) => s | _ => EmptyString end.

Definition sort_le (tb : table) (c : string) (desc : bool) (r1 r2 : row) : Prop :=
  if desc then String.le (sort_text tb c r2) (sort_text tb c r1)
  else String.le (sort_text tb c r1) (sort_text tb c r2).

#[export] Instance sort_le_dec tb c desc : RelDecision (sort_le tb c desc).
Proof. intros r1 r2. unfold sort_le. destruct desc; apply _. Defined.

#[export] Instance sort_le_total tb c desc : Total (sort_le tb c desc).
Proof. intros r1 r2. unfold sort_le. destruct desc; apply String.le_total. Qed.

#[export] Instance sort_le_trans tb c desc : Transitive (sort_le tb c desc).
Proof. intros r1 r2 r3. unfold sort_le. destruct desc; intros; by etrans. Qed.

Definition sorted_rows (sel : selection) : list row :=
  match sel_order sel with
  | None => sel_rows sel
  | Some (c, desc) => merge_sort (sort_le (sel_table sel) c desc) (sel_rows sel)
  end.

Definition project (sel : selection) (r : row) : list sql_value :=
  (fun c => default (SqlText EmptyString) (cell (sel_table sel) r c)) <$> sel_columns sel.

Definition conn_select (d : database) (sql : string) (params : list sql_value)
    : option (list (list sql_value)) :=
  s ← parse sql;
  sel ← matching s params d;
  Some (project sel <$> sorted_rows sel).

Definition conn_query (d : database) (sql : string) (params : list sql_value)
    : outcome string (list (outcome string (list sql_value))) :=
  match conn_select d sql params with Some rs => Ok (Ok <$> rs) | None => Err no_such_table end.

Definition conn_query_row (d : database) (sql : string) (params : list sql_value)
    : outcome string (list sql_value) :=
  match conn_select d sql params with
  | Some (r :: _) => Ok r
  | Some [] => Err no_rows_text
  | None => Err no_such_table
  end.

#[export] Instance map_rusqlite : Rusqlite database (list sql_value) := {|
  execute := conn_execute;
  execute_batch := fun d _ => (d, Ok tt);
  query_row := conn_query_row;
  query := conn_query;
  get_text := fun row i => match row !! i with Some (SqlText s) => Ok s | _ => Err "Invalid column" end;
  get_blob := fun row i => match row !! i with Some (SqlBlob b) => Ok b | _ => Err "Invalid column" end;
|}.

Lemma sorted_rows_answer sel : answers sel (sorted_rows sel).
Proof.
  unfold answers, ordered, sorted_rows. destruct (sel_order sel) as [[c desc]|]; [|done].
  split; [apply merge_sort_Permutation|].
  pose proof (StronglySorted_merge_sort (sort_le (sel_table sel) c desc) (sel_rows sel)) as Hs.
  induction Hs as [|r rs _ IH Hf]; constructor; [done|].
  eapply Forall_impl; [exact Hf|]. intros r'. unfold sort_le, sort_text, in_order.
  destruct (cell (sel_table sel) r c) as [[]|], (cell (sel_table sel) r' c) as [[]|], desc; done.
Qed.

Lemma project_shown sel r : shown sel (project sel r) r.
Proof.
  intros i c Hc. unfold project. cbn. rewrite list_lookup_fmap, Hc. cbn.
  by destruct (cell (sel_table sel) r c) as [[]|].
Qed.

Lemma conn_select_eq d sql params s sel :
  parse sql = Some s -> matching s params d = Some sel ->
  conn_select d sql params = Some (project sel <$> sorted_rows sel).
Proof. unfold conn_select. intros -> Hm. cbn [mbind option_bind]. by rewrite Hm. Qed.

#[export] Program Instance map_rusqlite_laws : RusqliteLaws database (list sql_value) := {|
  sq_works := fun _ => True;
  contents := fun d => d;
  no_rows := no_rows_text;
|}.
Next Obligation.
  intros d sql params s db _ Hp Hx. exists db, 0%N. cbn. unfold conn_execute. rewrite Hp.
  cbn [mbind option_bind]. by rewrite Hx.
Qed.
Next Obligation.
  intros d sql params s sel _ Hp Hm. exists (sorted_rows sel), (project sel <$> sorted_rows sel).
  split; [apply sorted_rows_answer|]. split.
  - cbn. unfold conn_query. by rewrite (conn_select_eq _ _ _ _ _ Hp Hm).
  - apply Forall2_fmap_l. apply Forall2_same_length_lookup_2; [done|].
    intros i r r' Hr Hr'. rewrite Hr in Hr'. simplify_eq. apply project_shown.
Qed.
Next Obligation.
  intros d sql params s sel _ Hp Hm. exists (sorted_rows sel). split; [apply sorted_rows_answer|].
  cbn. unfold conn_query_row. rewrite (conn_select_eq _ _ _ _ _ Hp Hm).
  destruct (sorted_rows sel) as [|r rs]; [done|]. cbn. exists (project sel r).
  split; [done|]. apply project_shown.
Qed.

(** ** Witnesses *)

(** An empty connection, and the same once the tables exist. *)
Definition empty_conn : SqliteWorld database := mk_sqlite_world false ∅.
Definition one_table : SqliteWorld database :=
  mk_sqlite_world false {[ "t_events" := shaped EventsShape ∅ ]}.

Lemma empty_conn_ok : conn_ok empty_conn.
Proof. by repeat split. Qed.

Lemma one_table_ok : conn_ok one_table.
Proof.
  split; [done|]. split; [done|]. intros t tb. cbn. intros [<- <-]%lookup_singleton_Some.
  split; [vm_compute; reflexivity|]. exists EventsShape, ∅. split; [done|apply map_Forall_empty].
Qed.

Lemma one_table_events : has_events (conn one_table) "t_events".
Proof. exists ∅. split; [done|apply map_Forall_empty]. Qed.

Lemma empty_has_no_table sh t : ~ has_table sh (conn empty_conn) t.
Proof. by intros (rows & Hr & _). Qed.

Definition user1 : SqliteCollection := mk_sqlite "t_events" "user1".
Definition user10 : SqliteCollection := mk_sqlite "t_events" "user10".

Lemma one_table_represents c : sq_table c = "t_events" -> represents one_table c ∅.
Proof.
  intros Hc. split; [split; [exact one_table_ok|rewrite Hc; exact one_table_events]|].
  intros k. cbn. unfold sqlite_coll_view. by rewrite Hc.
Qed.

Definition sqlite_ops : list coll_op :=
  [OpPut "k2" [Byte.x02]; OpPut "k1" [Byte.x01]; OpIter true; OpDel "k3"; OpGet "k3"].

Lemma sqlite_ops_ok : Forall op_ok sqlite_ops.
Proof. by repeat constructor. Qed.

Lemma sqlite_collection_refines_map_witness :
  (run_ops (run_op user1) one_table sqlite_ops).2
  = [RUnit (Ok tt); RUnit (Ok tt);
     RIter (Ok [Yield ("k2", [Byte.x02]); Yield ("k1", [Byte.x01])]);
     RUnit (Ok tt); RGet (Err (EntryNotFound no_rows_text))].
Proof.
  etransitivity.
  - exact (proj1 (sqlite_collection_refines_map one_table user1 ∅ sqlite_ops
                    (one_table_represents user1 eq_refl) sqlite_ops_ok)).
  - vm_compute. reflexivity.
Defined.

Lemma sqlite_open_store_witness :
  exists w1 w2, SqliteManager.create_collection empty_conn "t_events" "user1" = (w1, Ok user1) /\
    represents w1 user1 ∅ /\
    SqliteManager.create_state empty_conn "t_states" "user1" = (w2, Ok (mk_sqlite "t_states" "user1")).
Proof.
  destruct (proj1 (sqlite_open_store empty_conn "t_events" "user1" empty_conn_ok eq_refl)
              (empty_has_no_table StatesShape _)) as (w1 & H1 & _ & _ & Hr).
  destruct (proj2 (sqlite_open_store empty_conn "t_states" "user1" empty_conn_ok eq_refl)
              (empty_has_no_table EventsShape _)) as (w2 & H2 & _).
  exists w1, w2. split; [exact H1|]. split; [apply Hr, empty_has_no_table|exact H2].
Defined.

Lemma sqlite_failures_witness :
  last_entry (mk_sqlite_world (D:=database) true ∅) user1 = Panic /\
  last_entry empty_conn user1 = Ok None.
Proof.
  split.
  - exact (proj2 (proj2 (proj2 (proj2
             (proj1 (sqlite_failures (mk_sqlite_world (D:=database) true ∅) user1 "k" []) eq_refl))))).
  - exact (proj2 (proj2 (proj2 (sqlite_failures empty_conn user1 "k" []) eq_refl
             no_such_table ∅)) eq_refl).
Defined.
