(* ===== verification/Conformance.v ===== *)
(** * The suite of the backends (the macro [test_store_trait!] of store/src/database.rs)

    The workspace states what a storage backend must do as a suite of tests that
    each backend runs on a manager of its own. The tests are translated as
    computations on the world of the backend, in which a failed [unwrap] or
    assertion panics. Every backend that satisfies the laws of [Database] and
    answers a missing entry with the text that the suite expects passes them;
    the three backends of the workspace do. *)

From S2P Require Import Prelude Errors Database Memory RocksDb Statements Sqlite MapConn.
Import StoreError.

#[export] Instance outcome_eq_dec {E A} `{EqDecision E, EqDecision A} : EqDecision (outcome E A).
Proof. solve_decision. Defined.

(** A byte string literal. *)
Definition lit (s : string) : bytes := String.list_byte_of_string s.

Module Suite.

Section Tests.
Context {W M S : Type} `{Collection W S, State W S, DbManager W M S S, BuildMode}.

Local Abbreviation testM := (stM W Error).

(** [unwrap] of the result of a call. *)
Definition unwrap {A} (call : W -> W * outcome Error A) : testM A := fun w =>
  match call w with (w, Ok a) => (w, Ok a) | (w, _) => (w, Panic) end.

(** A call on [&self]: its result, unless it panics. *)
Definition look {A} (f : W -> outcome Error A) : testM (outcome Error A) := fun w =>
  (w, match f w with Panic => Panic | r => Ok r end).

Definition assert (P : Prop) `{Decision P} : testM unit := fun w =>
  (w, if decide P then Ok tt else Panic).

(** [DbManager::stop], the provided method. *)
Definition stop (_ : M) : outcome Error unit := Ok tt.

Definition missing : Error := EntryNotFound "Query returned no rows".

Variable manager : M.

Definition new_collection : testM S := unwrap (fun w => create_collection w manager "test" "test").
Definition new_state : testM S := unwrap (fun w => create_state w manager "test" "test").

Definition put (s : S) (key : string) (v : bytes) : testM unit := unwrap (fun w => coll_put w s key v).

Definition stopped : testM unit := assert (stop manager = Ok tt).

Definition test_create_collection : testM unit :=
  store ← new_collection;
  _ ← assert (coll_name store = "test");
  stopped.

Definition test_create_state : testM unit :=
  store ← new_state;
  _ ← assert (st_name store = "test");
  stopped.

Definition test_put_get_collection : testM unit :=
  store ← new_collection;
  _ ← put store "key" (lit "value");
  v ← unwrap (fun w => (w, coll_get w store "key"));
  _ ← assert (v = lit "value");
  stopped.

Definition test_put_get_state : testM unit :=
  store ← new_state;
  _ ← unwrap (fun w => st_put w store (lit "value"));
  v ← unwrap (fun w => (w, st_get w store));
  _ ← assert (v = lit "value");
  stopped.

Definition test_del_collection : testM unit :=
  store ← new_collection;
  _ ← put store "key" (lit "value");
  _ ← unwrap (fun w => coll_del w store "key");
  v ← look (fun w => coll_get w store "key");
  _ ← assert (v = Err missing);
  stopped.

Definition test_del_state : testM unit :=
  store ← new_state;
  _ ← unwrap (fun w => st_put w store (lit "value"));
  _ ← unwrap (fun w => st_del w store);
  v ← look (fun w => st_get w store);
  _ ← assert (v = Err missing);
  stopped.

(** The three entries that the other tests start from. *)
Definition put_three (store : S) : testM unit :=
  _ ← put store "key1" (lit "value1");
  _ ← put store "key2" (lit "value2");
  put store "key3" (lit "value3").

(** [assert_eq!(iter.next(), item)] *)
Definition assert_next (iter : iterator) (item : option (string * bytes)) : testM iterator :=
  r ← unwrap (fun w => (w, iter_next iter));
  _ ← assert (r.1 = item);
  mret r.2.

Definition test_iter : testM unit :=
  store ← new_collection;
  _ ← put_three store;
  iter ← unwrap (fun w => (w, coll_iter w store false));
  iter ← assert_next iter (Some ("key1", lit "value1"));
  iter ← assert_next iter (Some ("key2", lit "value2"));
  iter ← assert_next iter (Some ("key3", lit "value3"));
  _ ← assert_next iter None;
  stopped.

Definition test_iter_reverse : testM unit :=
  store ← new_collection;
  _ ← put_three store;
  iter ← unwrap (fun w => (w, coll_iter w store true));
  iter ← assert_next iter (Some ("key3", lit "value3"));
  iter ← assert_next iter (Some ("key2", lit "value2"));
  iter ← assert_next iter (Some ("key1", lit "value1"));
  _ ← assert_next iter None;
  stopped.

Definition test_last : testM unit :=
  store ← new_collection;
  _ ← put_three store;
  last ← unwrap (fun w => (w, last_entry w store));
  _ ← assert (last = Some ("key3", lit "value3"));
  stopped.

Definition test_get_by_range : testM unit :=
  store ← new_collection;
  _ ← put_three store;
  result ← unwrap (fun w => (w, get_by_range w store None 2));
  _ ← assert (result = [lit "value1"; lit "value2"]);
  result ← unwrap (fun w => (w, get_by_range w store (Some "key3") (-2)));
  _ ← assert (result = [lit "value2"; lit "value1"]);
  stopped.

Definition assert_get (store : S) (key : string) (expected : outcome Error bytes) : testM unit :=
  v ← look (fun w => coll_get w store key); assert (v = expected).

Definition test_purge_collection : testM unit :=
  store ← new_collection;
  _ ← put_three store;
  _ ← assert_get store "key1" (Ok (lit "value1"));
  _ ← assert_get store "key2" (Ok (lit "value2"));
  _ ← assert_get store "key3" (Ok (lit "value3"));
  _ ← unwrap (fun w => coll_purge w store);
  _ ← assert_get store "key1" (Err missing);
  _ ← assert_get store "key2" (Err missing);
  _ ← assert_get store "key3" (Err missing);
  stopped.

Definition assert_state (store : S) (expected : outcome Error bytes) : testM unit :=
  v ← look (fun w => st_get w store); assert (v = expected).

Definition test_purge_state : testM unit :=
  store ← new_state;
  _ ← unwrap (fun w => st_put w store (lit "value1"));
  _ ← assert_state store (Ok (lit "value1"));
  _ ← unwrap (fun w => st_purge w store);
  _ ← assert_state store (Err missing);
  _ ← unwrap (fun w => st_put w store (lit "value2"));
  _ ← assert_state store (Ok (lit "value2"));
  _ ← unwrap (fun w => st_purge w store);
  _ ← assert_state store (Err missing);
  stopped.

(** The whole macro, on the world in which the manager was made. *)
Definition tests : list (string * testM unit) :=
  [("test_create_collection", test_create_collection); ("test_create_state", test_create_state);
   ("test_put_get_collection", test_put_get_collection); ("test_put_get_state", test_put_get_state);
   ("test_del_collection", test_del_collection); ("test_del_state", test_del_state);
   ("test_iter", test_iter); ("test_iter_reverse", test_iter_reverse); ("test_last", test_last);
   ("test_get_by_range", test_get_by_range); ("test_purge_collection", test_purge_collection);
   ("test_purge_state", test_purge_state)].

(** The names of the tests that fail. *)
Definition test_store_trait (w : W) : list string :=
  fst <$> List.filter (fun t : string * testM unit => negb (is_ok (t.2 w).2)) tests.

End Tests.

End Suite.

Import Suite.

(** ** Lawful backends pass *)

(** What the suite needs of a state beyond [StateLaws]: the calls succeed, and
    what a missing value answers. *)
Class ReliableState (W S : Type) `{StateLaws W S} (nf : Error) := {
  st_get_missing : forall w s, st_inv w s -> st_view w s = None -> st_get w s = Err nf;
  st_put_ok : forall w s v, st_inv w s -> (st_put w s v).2 = Ok tt;
  st_purge_ok : forall w s, st_inv w s -> (st_purge w s).2 = Ok tt;
  st_del_ok : forall w s v, st_inv w s -> st_view w s = Some v ->
    exists w', st_del w s = (w', Ok tt) /\ st_inv w' s /\ st_view w' s = None;
}.

Section Lawful.
Context {W M S : Type} {del_missing : outcome Error unit}.
Context `{HR : Reliable W S missing del_missing, HS : ReliableState W S missing}.
Context `{!DbManager W M S S, !BuildMode}.
Implicit Types (w : W) (s : S) (m : btree).

(** A manager on which the name of the tests is new. *)
Record fresh_manager (manager : M) w : Prop := {
  fr_collection : exists w1 s, create_collection w manager "test" "test" = (w1, Ok s) /\
    coll_name s = "test" /\ represents w1 s ∅;
  fr_state : exists w1 s, create_state w manager "test" "test" = (w1, Ok s) /\
    st_name s = "test" /\ st_inv w1 s;
}.

Definition passes (t : stM W Error unit) w : Prop := is_ok (t w).2 = true.

Lemma passes_bind {A} (t : stM W Error A) k w w' a :
  t w = (w', Ok a) -> passes (k a) w' -> passes (t ≫= k) w.
Proof. intros Ht. unfold passes. by rewrite (stM_bind_Ok _ _ _ _ _ Ht). Qed.

Lemma passes_seq {A} (t : stM W Error A) k w w' a :
  t w = (w', Ok a) -> passes k w' -> passes (_ ← t; k) w.
Proof. intros Ht Hk. by eapply (passes_bind _ (fun _ => k)). Qed.

Lemma assert_ok (P : Prop) `{Decision P} w : P -> assert P w = (w, Ok tt).
Proof. intros HP. unfold assert. by rewrite decide_True. Qed.

Lemma passes_stopped (manager : M) w : passes (stopped manager) w.
Proof. reflexivity. Qed.

Lemma coll_get_eq w s m k :
  represents w s m -> coll_get w s k = match m !! k with Some v => Ok v | None => Err missing end.
Proof. intros Hr. destruct (run_op_refines w s m (OpGet k) Hr I) as [_ [=]]. done. Qed.

Lemma coll_iter_eq w s m rev :
  represents w s m ->
  coll_iter w s rev = Ok (Yield <$> if rev then reverse (btree_iter m) else btree_iter m).
Proof. intros Hr. destruct (run_op_refines w s m (OpIter rev) Hr I) as [_ [=]]. done. Qed.

Lemma put_eq w s m k v :
  represents w s m -> is_utf8 k = true ->
  exists w', put s k v w = (w', Ok tt) /\ represents w' s (<[k := v]> m).
Proof.
  intros Hr Hk. destruct (run_op_refines w s m (OpPut k v) Hr Hk) as [Hr' Hres]. revert Hr' Hres.
  unfold put, unwrap. cbn. destruct (coll_put w s k v) as [w' r]. cbn. intros Hr' [= ->].
  by exists w'.
Qed.

Definition three : btree :=
  <["key3" := lit "value3"]> (<["key2" := lit "value2"]> (<["key1" := lit "value1"]> ∅)).

Lemma put_three_eq w s :
  represents w s ∅ -> exists w', put_three s w = (w', Ok tt) /\ represents w' s three.
Proof.
  intros R0. destruct (put_eq w s ∅ "key1" (lit "value1") R0 eq_refl) as (w1 & E1 & R1).
  destruct (put_eq w1 s _ "key2" (lit "value2") R1 eq_refl) as (w2 & E2 & R2).
  destruct (put_eq w2 s _ "key3" (lit "value3") R2 eq_refl) as (w3 & E3 & R3).
  exists w3. split; [|exact R3]. unfold put_three.
  by rewrite (stM_bind_Ok _ _ _ _ _ E1), (stM_bind_Ok _ _ _ _ _ E2).
Qed.

Lemma three_iter :
  btree_iter three = [("key1", lit "value1"); ("key2", lit "value2"); ("key3", lit "value3")].
Proof. vm_compute. reflexivity. Qed.

Lemma three_coll_iter w s rev :
  represents w s three ->
  coll_iter w s rev = Ok (Yield <$> if rev
    then [("key3", lit "value3"); ("key2", lit "value2"); ("key1", lit "value1")]
    else [("key1", lit "value1"); ("key2", lit "value2"); ("key3", lit "value3")]).
Proof. intros Hr. rewrite (coll_iter_eq _ _ _ _ Hr), three_iter. by destruct rev. Qed.

(** The states. *)
Lemma st_put_eq w s v :
  st_inv w s -> exists w', st_put w s v = (w', Ok tt) /\ st_inv w' s /\ st_view w' s = Some v.
Proof.
  intros Hi. pose proof (st_put_ok w s v Hi) as Hok. destruct (st_put w s v) as [w' r] eqn:Hp.
  cbn in Hok. subst r. by destruct (st_put_law w s v w' _ Hi Hp); exists w'.
Qed.

Lemma st_purge_eq w s :
  st_inv w s -> exists w', st_purge w s = (w', Ok tt) /\ st_inv w' s /\ st_view w' s = None.
Proof.
  intros Hi. pose proof (st_purge_ok w s Hi) as Hok. destruct (st_purge w s) as [w' r] eqn:Hp.
  cbn in Hok. subst r. by destruct (st_purge_law w s w' _ Hi Hp); exists w'.
Qed.

Lemma st_get_eq w s :
  st_inv w s -> st_get w s = match st_view w s with Some v => Ok v | None => Err missing end.
Proof.
  intros Hi. pose proof (st_get_law w s Hi) as Hg. destruct (st_view w s) eqn:Hv; [done|].
  by apply st_get_missing.
Qed.

Variable manager : M.

(** *** Test by test *)

Lemma unwrap_eq {A} (call : W -> W * outcome Error A) w w' a :
  call w = (w', Ok a) -> unwrap call w = (w', Ok a).
Proof. unfold unwrap. by intros ->. Qed.

(** A test on a fresh collection, from the world in which it is open. *)
Lemma on_collection (k : S -> stM W Error unit) w :
  fresh_manager manager w ->
  (forall w1 s, coll_name s = "test" -> represents w1 s ∅ -> passes (k s) w1) ->
  passes (new_collection manager ≫= k) w.
Proof.
  intros [(w1 & s & Hc & Hn & Hr) _] Hk. eapply passes_bind; [by apply unwrap_eq|by apply Hk].
Qed.

Lemma on_state (k : S -> stM W Error unit) w :
  fresh_manager manager w ->
  (forall w1 s, st_name s = "test" -> st_inv w1 s -> passes (k s) w1) ->
  passes (new_state manager ≫= k) w.
Proof.
  intros [_ (w1 & s & Hc & Hn & Hi)] Hk. eapply passes_bind; [by apply unwrap_eq|by apply Hk].
Qed.

(** The same after the three entries. *)
Lemma on_three (k : S -> stM W Error unit) w :
  fresh_manager manager w ->
  (forall w1 s, represents w1 s three -> passes (k s) w1) ->
  passes (store ← new_collection manager; _ ← put_three store; k store) w.
Proof.
  intros Hf Hk. apply on_collection; [done|]. intros w1 s _ Hr.
  destruct (put_three_eq w1 s Hr) as (w2 & E & R). eapply passes_bind; [exact E|by apply Hk].
Qed.

Lemma passes_assert (P : Prop) `{Decision P} k w :
  P -> passes k w -> passes (_ ← assert P; k) w.
Proof. intros HP. by eapply passes_seq, assert_ok. Qed.

Lemma passes_unwrap {A} (r : W -> outcome Error A) k w a :
  r w = Ok a -> passes (k a) w -> passes (unwrap (fun w => (w, r w)) ≫= k) w.
Proof. intros Hr. eapply passes_bind, unwrap_eq. by rewrite Hr. Qed.

Lemma passes_look {A} (r : W -> outcome Error A) k w x :
  r w = x -> x <> Panic -> passes (k x) w -> passes (look r ≫= k) w.
Proof. intros Hr Hx. apply passes_bind. unfold look. rewrite Hr. by destruct x. Qed.

Lemma passes_next kv it k w :
  passes (k it) w -> passes (assert_next (Yield kv :: it) (Some kv) ≫= k) w.
Proof.
  eapply passes_bind. unfold assert_next.
  rewrite (stM_bind_Ok _ _ _ w _ (unwrap_eq (fun w => (w, iter_next (Yield kv :: it))) w w _ eq_refl)).
  by rewrite (stM_bind_Ok _ _ _ _ _ (assert_ok _ _ (eq_refl (Some kv)))).
Qed.

Lemma passes_end k w : passes (k []) w -> passes (assert_next [] None ≫= k) w.
Proof.
  eapply passes_bind. unfold assert_next.
  rewrite (stM_bind_Ok _ _ _ w _ (unwrap_eq (fun w => (w, iter_next [])) w w _ eq_refl)).
  by rewrite (stM_bind_Ok _ _ _ _ _ (assert_ok _ _ (eq_refl (None (A:=string * bytes))))).
Qed.

Lemma passes_get s m key x k w :
  represents w s m -> match m !! key with Some v => Ok v | None => Err missing end = x ->
  passes k w -> passes (_ ← assert_get s key x; k) w.
Proof.
  intros Hr Hx Hk. eapply passes_seq; [|exact Hk]. unfold assert_get, mbind, stM_bind, look.
  rewrite (coll_get_eq w s m key Hr), Hx. assert (x <> Panic) as Hp by (subst x; by case_match).
  destruct x; [..|done]; by rewrite assert_ok.
Qed.

Lemma passes_state s x k w :
  st_inv w s -> match st_view w s with Some v => Ok v | None => Err missing end = x ->
  passes k w -> passes (_ ← assert_state s x; k) w.
Proof.
  intros Hi Hx Hk. eapply passes_seq; [|exact Hk]. unfold assert_state, mbind, stM_bind, look.
  rewrite (st_get_eq w s Hi), Hx. assert (x <> Panic) as Hp by (subst x; by case_match).
  destruct x; [..|done]; by rewrite assert_ok.
Qed.

Lemma collection_tests_pass w :
  fresh_manager manager w ->
  passes (test_create_collection manager) w /\ passes (test_put_get_collection manager) w /\
  passes (test_del_collection manager) w /\ passes (test_purge_collection manager) w.
Proof.
  intros Hf. split_and!.
  - apply on_collection; [done|]. intros w1 s Hn _. by apply passes_assert.
  - apply on_collection; [done|]. intros w1 s _ Hr.
    destruct (put_eq w1 s ∅ "key" (lit "value") Hr eq_refl) as (w2 & E2 & R2).
    eapply passes_seq; [exact E2|]. eapply passes_unwrap; [by rewrite (coll_get_eq _ _ _ _ R2)|].
    by apply passes_assert.
  - apply on_collection; [done|]. intros w1 s _ Hr.
    destruct (put_eq w1 s ∅ "key" (lit "value") Hr eq_refl) as (w2 & E2 & R2).
    eapply passes_seq; [exact E2|].
    destruct (run_op_del w2 s _ "key" R2) as [R3 E3]. cbn in R3, E3.
    destruct (coll_del w2 s "key") as [w3 r] eqn:Hd. cbn in R3, E3.
    assert (r = Ok tt) as -> by (by injection E3).
    eapply passes_seq; [by apply unwrap_eq|].
    eapply passes_look; [by rewrite (coll_get_eq _ _ _ _ R3)|done|]. by apply passes_assert.
  - apply on_three; [done|]. intros w1 s Hr.
    do 3 (eapply passes_get; [exact Hr|reflexivity|]).
    destruct (run_op_refines w1 s three OpPurge Hr I) as [R2 E2]. cbn in R2, E2.
    destruct (coll_purge w1 s) as [w2 r] eqn:Hp. cbn in R2, E2.
    assert (r = Ok tt) as -> by (by injection E2).
    eapply passes_seq; [by apply unwrap_eq|].
    by do 3 (eapply passes_get; [exact R2|reflexivity|]).
Qed.

Lemma order_tests_pass w :
  fresh_manager manager w ->
  passes (test_iter manager) w /\ passes (test_iter_reverse manager) w /\
  passes (test_last manager) w /\ passes (test_get_by_range manager) w.
Proof.
  intros Hf. split_and!; (apply on_three; [done|]); intros w1 s Hr;
    pose proof (three_coll_iter w1 s false Hr) as Hi; pose proof (three_coll_iter w1 s true Hr) as Hi'.
  - eapply passes_unwrap; [exact Hi|]. do 3 apply passes_next. by apply passes_end.
  - eapply passes_unwrap; [exact Hi'|]. do 3 apply passes_next. by apply passes_end.
  - eapply passes_unwrap; [unfold last_entry; rewrite Hi'; reflexivity|]. by apply passes_assert.
  - eapply passes_unwrap; [unfold get_by_range; rewrite Hi; reflexivity|].
    apply passes_assert; [done|].
    eapply passes_unwrap; [unfold get_by_range; rewrite Hi'; reflexivity|]. by apply passes_assert.
Qed.

Lemma state_tests_pass w :
  fresh_manager manager w ->
  passes (test_create_state manager) w /\ passes (test_put_get_state manager) w /\
  passes (test_del_state manager) w /\ passes (test_purge_state manager) w.
Proof.
  intros Hf. split_and!; (apply on_state; [done|]); intros w1 s Hn Hi.
  - by apply passes_assert.
  - destruct (st_put_eq w1 s (lit "value") Hi) as (w2 & E2 & I2 & V2).
    eapply passes_seq; [by apply unwrap_eq|].
    eapply passes_unwrap; [by rewrite (st_get_eq _ _ I2), V2|]. by apply passes_assert.
  - destruct (st_put_eq w1 s (lit "value") Hi) as (w2 & E2 & I2 & V2).
    eapply passes_seq; [by apply unwrap_eq|].
    destruct (st_del_ok w2 s _ I2 V2) as (w3 & E3 & I3 & V3).
    eapply passes_seq; [by apply unwrap_eq|].
    eapply passes_look; [by rewrite (st_get_eq _ _ I3), V3|done|]. by apply passes_assert.
  - destruct (st_put_eq w1 s (lit "value1") Hi) as (w2 & E2 & I2 & V2).
    eapply passes_seq; [by apply unwrap_eq|]. eapply passes_state; [exact I2|by rewrite V2|].
    destruct (st_purge_eq w2 s I2) as (w3 & E3 & I3 & V3).
    eapply passes_seq; [by apply unwrap_eq|]. eapply passes_state; [exact I3|by rewrite V3|].
    destruct (st_put_eq w3 s (lit "value2") I3) as (w4 & E4 & I4 & V4).
    eapply passes_seq; [by apply unwrap_eq|]. eapply passes_state; [exact I4|by rewrite V4|].
    destruct (st_purge_eq w4 s I4) as (w5 & E5 & I5 & V5).
    eapply passes_seq; [by apply unwrap_eq|]. eapply passes_state; [exact I5|by rewrite V5|].
    done.
Qed.

Lemma lawful_backend_passes w : fresh_manager manager w -> test_store_trait manager w = [].
Proof.
  intros Hf. destruct (collection_tests_pass w Hf) as (C1 & C2 & C3 & C4).
  destruct (order_tests_pass w Hf) as (O1 & O2 & O3 & O4).
  destruct (state_tests_pass w Hf) as (S1 & S2 & S3 & S4).
  unfold passes, test_store_trait, tests in *. cbn [List.filter snd].
  by rewrite C1, C2, C3, C4, O1, O2, O3, O4, S1, S2, S3, S4.
Qed.

End Lawful.

(** ** The three backends *)

#[export] Instance memory_reliable_state : ReliableState MemWorld MemoryStore missing.
Proof.
  split.
  - intros w s (t & Ht) Hv. cbn in *. unfold MemoryState.get, tree_get, mem_st_view in *.
    rewrite (tree_lookup_has _ _ _ _ Ht) in Hv. rewrite (tree_of_has _ _ _ Ht). cbn. by rewrite Hv.
  - intros w s v (t & Ht). cbn. unfold MemoryState.put. by rewrite (tree_insert_has _ _ _ _ _ Ht).
  - intros w s (t & Ht). cbn. unfold MemoryState.purge.
    by destruct (tree_purge_has w s t Ht) as (t' & -> & _).
  - intros w s v (t & Ht) Hv. cbn in *. unfold MemoryState.del, tree_remove, mem_st_view in *.
    rewrite (tree_lookup_has _ _ _ _ Ht) in Hv. rewrite (tree_of_has _ _ _ Ht), Hv.
    eexists. split; [done|]. split; [eexists; apply has_tree_set|].
    rewrite (tree_lookup_has _ _ _ _ (has_tree_set w s _)). apply lookup_delete_eq.
Qed.

Section RocksDb.
Context {D O : Type} `{RocksDBLaws D O}.

#[export] Instance rocks_reliable_state : ReliableState D RocksDbStore missing.
Proof.
  split.
  - intros d s Hi Hv. cbn in *. unfold RocksDbState.get, rocks_st_view in *.
    by rewrite rocks_get_key, Hv.
  - intros d s v Hi. cbn. unfold RocksDbState.put.
    by destruct (put_key_set d s (rs_prefix s) v Hi) as (d' & -> & _).
  - intros d s Hi. cbn. unfold RocksDbState.purge.
    by destruct (purge_keys_spec d s Hi) as (d' & -> & _).
  - intros d s v Hi Hv. cbn in *. unfold RocksDbState.del.
    destruct (delete_key_set d s (rs_prefix s) Hi) as (d' & -> & Hs). exists d'.
    split; [done|]. split; [by eapply rocks_set_inv; [| |done]; [|apply Hi]|].
    destruct Hs as (_ & _ & Hv'). unfold rocks_st_view. by rewrite Hv', decide_True.
Qed.

Lemma rocks_fresh d (m : RocksDbManager O) :
  db_ok d -> cf_handle d "test" = false -> fresh_manager m d.
Proof.
  intros Hok Hn. destruct (rocksdb_open_store d m "test" "test" Hok eq_refl) as (d' & Hc & Hs & Hi & _ & Hr).
  { intros k v. by rewrite Hn. }
  split; exists d', (mk_rocks "test" "test"); (split; [done|]); (split; [done|]); [by apply Hr|done].
Qed.

End RocksDb.

Section Sqlite.
Context {D Row : Type} `{RusqliteLaws D Row}.

Lemma sqlite_reliable_state : row_missing = missing -> ReliableState (SqliteWorld D) SqliteCollection missing.
Proof.
  intros Hm. split.
  - intros w s Hi Hv. cbn in *. by rewrite sqlite_st_get_value, Hv, Hm.
  - intros w s v Hi. cbn. by destruct (sqlite_st_put_set w s v Hi) as (w' & -> & _).
  - intros w s Hi. cbn. by destruct (sqlite_st_purge_set w s Hi) as (w' & -> & _).
  - intros w s v [Hw Ht] Hv. cbn in *.
    destruct (delete_state_law (conn w) (sq_table s) (sq_prefix s)) as (d' & n & He & Hk & Hs & Hv');
      [apply Hw|done|].
    unfold SqliteState.del. rewrite (with_conn_Ok _ _ _ _ _ _ Hw He). eexists. split; [done|].
    split; [by eapply kept_inv|]. unfold sqlite_st_view. cbn. by rewrite Hv', decide_True.
Qed.

Lemma sqlite_fresh w :
  conn_ok w -> name_ok "test" = true -> ~ has_events (conn w) "test" -> ~ has_states (conn w) "test" ->
  fresh_manager tt w.
Proof.
  intros Hw Hn He Hs. destruct (sqlite_open_store w "test" "test" Hw Hn) as [Hc Ht].
  destruct (Hc Hs) as (w1 & H1 & _ & _ & Hr), (Ht He) as (w2 & H2 & Hi & _).
  split; [exists w1|exists w2]; eexists; (split; [done|]); (split; [done|]); [by apply Hr|done].
Qed.

End Sqlite.

Lemma memory_fresh w : fresh_manager (MemoryManager.default w).2 (MemoryManager.default w).1.
Proof.
  assert (exists w' loc, MemoryManager.open_store (MemoryManager.default w).1
            (MemoryManager.default w).2 "test" "test" = (w', Ok (mk_store "test" "test" loc)) /\
            trees w' !! loc = Some (mk_lock false ∅)) as (w' & loc & Ho & Ht).
  { unfold MemoryManager.default, MemoryManager.open_store, lock_at. cbn.
    rewrite lookup_insert_eq. cbn. do 2 eexists. split; [done|]. cbn. by rewrite lookup_insert_eq. }
  split; exists w', (mk_store "test" "test" loc); (split; [exact Ho|]); (split; [done|]).
  - split; [exists ∅; split; [exact Ht|]; intros k v; by rewrite lookup_empty|].
    intros k. cbn. unfold mem_coll_view, tree_lookup. cbn. by rewrite Ht.
  - by exists ∅.
Qed.

(** C18: The suite of tests that the workspace runs on every storage backend passes on the
    memory backend, on RocksDB over any healthy database and on SQLite over any connection that
    works and does what the texts of the statements say, when its names are new; every test
    follows from the laws that the store relies on. *)
Theorem backends_pass_the_suite `{!BuildMode} :
  (forall w, test_store_trait (MemoryManager.default w).2 (MemoryManager.default w).1 = []) /\
  (forall D O `{HL : RocksDBLaws D O} d (m : RocksDbManager O),
     db_ok d -> cf_handle d "test" = false -> test_store_trait m d = []) /\
  (forall D Row `{HL : RusqliteLaws D Row} w,
     conn_ok w -> name_ok "test" = true -> no_rows = "Query returned no rows" ->
     ~ has_events (conn w) "test" -> ~ has_states (conn w) "test" ->
     test_store_trait tt w = []).
Proof.
  split_and!.
  - intros w. apply lawful_backend_passes, memory_fresh.
  - intros D O HD HL d m Hok Hn. by apply lawful_backend_passes, rocks_fresh.
  - intros D Row HD HL w Hw Hn Hr He Hs.
    assert (row_missing = missing) as Hm by (unfold row_missing, missing; by rewrite Hr).
    pose proof (sqlite_reliable_state Hm) as HS.
    assert (Reliable (SqliteWorld D) SqliteCollection missing (Ok tt)) as HR
      by (rewrite <- Hm; apply sqlite_reliable).
    by apply (lawful_backend_passes (HR:=HR)), sqlite_fresh.
Qed.

(** ** Witnesses *)

Import MapDb.

Definition checked_build : BuildMode := {| overflow_checks := true |}.

Definition no_families : map_db := ∅.

Lemma backends_pass_the_suite_witness :
  test_store_trait (H2:=checked_build) demo_mgr.2 demo_mgr.1 = [] /\
  test_store_trait (S:=RocksDbStore) (H2:=checked_build) (mk_rocks_manager tt) no_families = [] /\
  test_store_trait (H2:=checked_build) tt empty_conn = [].
Proof.
  destruct (@backends_pass_the_suite checked_build) as (Hm & Hr & Hs).
  split_and!; [exact (Hm empty_world)|exact (Hr map_db unit _ _ no_families (mk_rocks_manager tt) I eq_refl)|].
  apply (Hs database (list sql_value) _ _); [exact empty_conn_ok|reflexivity|reflexivity|..]; apply empty_has_no_table.
Defined.
