(* ===== verification/Store.v ===== *)
(** * The event store (store/src/store.rs, [Store] and its message handler)

    The store of a persistent actor keeps a collection of events under
    zero-padded sequence numbers and one snapshot of the actor. The methods of
    [impl Store<P>] are computations over the store record and the world, in the
    order of the source; [handle_message] is the whole [match] of the handler.

    Code that is not in the repository is a class: [Bincode] (serialization),
    [ChaCha] (authenticated encryption), [MemSecurity] (the in-memory key box)
    and the storage backend of [Database]. Their laws are classes of their own
    and state the documented behaviour that the theorems rely on. *)

From S2P Require Import Prelude Path Errors Database.
Import StoreError.

(** ** External code *)

(** [bincode::serde] with the standard configuration; errors are their text. *)
Class Bincode (A : Type) := {
  encode_to_vec : A -> outcome string bytes;
  decode_from_slice : bytes -> outcome string (A * N);
}.

(** Decoding what was encoded gives the value back; neither panics. *)
Class BincodeLaws (A : Type) `{Bincode A} := {
  decode_encode : forall x b, encode_to_vec x = Ok b -> exists n, decode_from_slice b = Ok (x, n);
  encode_no_panic : forall x, encode_to_vec x <> Panic;
}.

(** [ChaCha20Poly1305]: [Aead::encrypt] and [Aead::decrypt] under a key and a
    nonce. *)
Class ChaCha := {
  aead_encrypt : bytes -> bytes -> bytes -> outcome string bytes;
  aead_decrypt : bytes -> bytes -> bytes -> outcome string bytes;
}.

Class ChaChaLaws `{ChaCha} := {
  aead_decrypt_encrypt : forall key nonce m c,
    aead_encrypt key nonce m = Ok c -> aead_decrypt key nonce c = Ok m;
  aead_encrypt_no_panic : forall key nonce m, aead_encrypt key nonce m <> Panic;
}.

(** [memsecurity::EncryptedMem]: a box that keeps a key encrypted in memory. *)
Class MemSecurity := {
  EncryptedMem : Type;
  box_encrypt : bytes -> outcome string EncryptedMem;
  box_decrypt : EncryptedMem -> outcome string bytes;
}.

Class MemSecurityLaws `{MemSecurity} := {
  box_decrypt_encrypt : forall key b, box_encrypt key = Ok b -> box_decrypt b = Ok key;
}.

(** The world of a store: the storage, and the random generator of the system
    with the number of nonces it has given. *)
Record World (W : Type) : Type := mk_sworld {
  db : W;
  osrng : nat -> bytes;
  drawn : nat;
}.
Arguments mk_sworld {W} _ _ _.
Arguments db {W} _.
Arguments osrng {W} _.
Arguments drawn {W} _.

(** ** Persistent actors *)

Inductive PersistenceType : Type := Light | Full.

(** The part of [trait PersistentActor] that the store relies on: how an event
    changes the actor (the state may have changed when it fails), how a
    recovered state replaces it, and the strategy. *)
Class PersistentActor (P E : Type) := {
  apply : P -> E -> P * outcome ActorError.Error unit;
  update : P -> P -> P;
  get_persistence : PersistenceType;
}.

(** The default [update]: [*self = state]. *)
Definition default_update {P : Type} (self state : P) : P := state.

(** ** The store *)

Definition NONCE_SIZE : nat := 12.

Module Store.

Record Store (C T : Type) `{MemSecurity} : Type := mk_store {
  event_counter : N;
  state_counter : N;
  events_c : C;
  states_s : T;
  key_box : option EncryptedMem;
}.
Arguments mk_store {C T _} _ _ _ _ _.
Arguments event_counter {C T _} _.
Arguments state_counter {C T _} _.
Arguments events_c {C T _} _.
Arguments states_s {C T _} _.
Arguments key_box {C T _} _.

(** [StoreCommand] and [StoreResponse]. *)
Module StoreCommand.

Inductive StoreCommand (P E : Type) : Type :=
| Persist (e : E)
| PersistLight (e : E) (p : P)
| Snapshot (p : P)
| LastEvent
| LastEventNumber
| LastEventsFrom (from : N)
| GetEvents (from to : N)
| Recover
| Purge.
Arguments Persist {P E} _.
Arguments PersistLight {P E} _ _.
Arguments Snapshot {P E} _.
Arguments LastEvent {P E}.
Arguments LastEventNumber {P E}.
Arguments LastEventsFrom {P E} _.
Arguments GetEvents {P E} _ _.
Arguments Recover {P E}.
Arguments Purge {P E}.

End StoreCommand.

Module StoreResponse.

Inductive StoreResponse (P E : Type) : Type :=
| NoResponse
| Persisted
| Snapshotted
| State (p : option P)
| LastEvent (e : option E)
| LastEventNumber (n : N)
| Events (l : list E)
| Error (e : StoreError.Error).
Arguments NoResponse {P E}.
Arguments Persisted {P E}.
Arguments Snapshotted {P E}.
Arguments State {P E} _.
Arguments LastEvent {P E} _.
Arguments LastEventNumber {P E} _.
Arguments Events {P E} _.
Arguments Error {P E} _.

End StoreResponse.

Section Methods.
Context {W M C T P E : Type}.
Context `{Collection W C, State W T, DbManager W M C T}.
Context `{MemSecurity, ChaCha, BuildMode}.
Context `{PersistentActor P E, Bincode E, Bincode (P * N)}.

Local Abbreviation storeM := (stM (Store C T * World W) Error).

(** *** Access to the record and the world *)

Definition self : storeM (Store C T) := fun s => (s, Ok s.1).
Definition world : storeM W := fun s => (s, Ok (db s.2)).

Definition set_event_counter (n : N) : storeM unit := fun '(st, w) =>
  ((mk_store n (state_counter st) (events_c st) (states_s st) (key_box st), w), Ok tt).

Definition set_state_counter (n : N) : storeM unit := fun '(st, w) =>
  ((mk_store (event_counter st) n (events_c st) (states_s st) (key_box st), w), Ok tt).

(** A storage call that returns the new storage. *)
Definition on_db {A} (f : Store C T -> W -> W * outcome Error A) : storeM A := fun '(st, w) =>
  let '(d, r) := f st (db w) in ((st, mk_sworld d (osrng w) (drawn w)), r).

(** [ChaCha20Poly1305::generate_nonce(&mut OsRng)]. *)
Definition generate_nonce : storeM bytes := fun '(st, w) =>
  ((st, mk_sworld (db w) (osrng w) (drawn w + 1)), Ok (osrng w (drawn w))).

(** *** Encryption *)

(** [ChaCha20Poly1305::new(key.into())]: the conversion asserts 32 bytes. *)
Definition cipher_new (key : bytes) : outcome Error bytes :=
  if decide (length key = 32) then Ok key else Panic.

Definition encrypt (key data : bytes) : storeM bytes :=
  cipher ← liftM (cipher_new key);
  nonce ← generate_nonce;
  ciphertext ← liftM (map_err (fun e => StoreError.Store ("Encrypt error: " +:+ e))
                        (aead_encrypt cipher nonce data));
  mret (nonce ++ ciphertext).

(** The slices [..NONCE_SIZE] and [NONCE_SIZE..] panic on a shorter text. *)
Definition decrypt (key ciphertext : bytes) : outcome Error bytes :=
  cipher ← cipher_new key;
  if decide (length ciphertext < NONCE_SIZE) then Panic
  else map_err (fun e => StoreError.Store ("Decrypt error: " +:+ e))
         (aead_decrypt cipher (take NONCE_SIZE ciphertext) (drop NONCE_SIZE ciphertext)).

(** The bytes that [persist] and [persist_state] store for an event. *)
Definition seal_event (event : E) : storeM bytes :=
  let encode := liftM (map_err (fun e => StoreError.Store ("Can't encode event: " +:+ e))
                         (encode_to_vec event)) in
  st ← self;
  match key_box st with
  | Some kb =>
      match box_decrypt kb with
      | Ok key => bytes ← encode; encrypt key bytes
      | Err _ => errM (StoreError.Store "Can't decrypt key")
      | Panic => liftM Panic
      end
  | None => encode
  end.

(** What a stored value reads as, before decoding. *)
Definition open_sealed (st : Store C T) (data : bytes) : outcome Error bytes :=
  match key_box st with
  | Some kb =>
      match box_decrypt kb with
      | Ok key => decrypt key data
      | Err _ => Err (StoreError.Store "Can't decrypt key")
      | Panic => Panic
      end
  | None => Ok data
  end.

Definition open_event (st : Store C T) (data : bytes) : outcome Error E :=
  data ← open_sealed st data;
  r ← map_err (fun e => StoreError.Store ("Can't decode event: " +:+ e)) (decode_from_slice data);
  mret r.1.

(** *** Reading *)

Definition last_event (st : Store C T) (w : W) : outcome Error (option E) :=
  l ← last_entry w (events_c st);
  match l with
  | Some (_, data) => event ← open_event st data; mret (Some event)
  | None => mret None
  end.

Definition get_state (st : Store C T) (w : W) : outcome Error (option (P * N)) :=
  match st_get w (states_s st) with
  | Ok data =>
      bytes ← open_sealed st data;
      r ← map_err (fun e => StoreError.Store ("Can't decode state: " +:+ e))
            (decode_from_slice bytes);
      mret (Some r.1)
  | Err (EntryNotFound _) => Ok None
  | Err e => Err e
  | Panic => Panic
  end.

(** [n] turns of the loop [for i in from..=to]; a failing read ends it. *)
Fixpoint events_loop (st : Store C T) (w : W) (n : nat) (i : N) : outcome Error (list E) :=
  match n with
  | O => Ok []
  | S n' =>
      match coll_get w (events_c st) (fmt020 i) with
      | Ok data =>
          event ← open_event st data;
          events ← events_loop st w n' (i + 1);
          mret (event :: events)
      | Err _ => Ok []
      | Panic => Panic
      end
  end.

Definition events (st : Store C T) (w : W) (from to : N) : outcome Error (list E) :=
  events_loop st w (N.to_nat (to + 1 - from)) from.

(** *** Writing *)

(** The bytes that [snapshot] stores for an encoded actor: a key box that does
    not open leaves them in the clear. *)
Definition seal_state (data : bytes) : storeM bytes :=
  st ← self;
  match key_box st with
  | Some kb =>
      match box_decrypt kb with
      | Ok key => encrypt key data
      | Err _ => mret data
      | Panic => liftM Panic
      end
  | None => mret data
  end.

Definition snapshot (actor : P) : storeM unit :=
  st ← self;
  _ ← set_state_counter (event_counter st);
  data ← liftM (map_err (fun e => StoreError.Store ("Can't encode actor: " +:+ e))
                  (encode_to_vec (actor, event_counter st)));
  bytes ← seal_state data;
  on_db (fun st d => st_put d (states_s st) bytes).

(** The index of the next event. *)
Definition next_event_number : storeM N :=
  st ← self;
  if decide (event_counter st <> 0%N) then liftM (u64_succ (event_counter st))
  else
    w ← world;
    match (last_event st w : outcome Error (option E)) with
    | Ok (Some _) => liftM (u64_succ (event_counter st))
    | Panic => liftM Panic
    | _ => mret 0%N
    end.

Definition persist (event : E) : storeM unit :=
  bytes ← seal_event event;
  next ← next_event_number;
  result ← tryM (on_db (fun st d => coll_put d (events_c st) (fmt020 next) bytes));
  _ ← (if is_ok result then set_event_counter next else mret tt);
  liftM result.

Definition persist_state (event : E) (state : P) : storeM unit :=
  bytes ← seal_event event;
  _ ← snapshot state;
  on_db (fun st d => coll_put d (events_c st) (fmt020 (event_counter st)) bytes).

(** The loop of [apply] over the events to replay. *)
Fixpoint replay (state : P) (events : list E) : outcome Error P :=
  match events with
  | [] => Ok state
  | event :: events =>
      match apply state event with
      | (state', Ok _) => replay state' events
      | (_, Err e) => Err (StoreError.Store (ActorError.to_string e))
      | (_, Panic) => Panic
      end
  end.

Definition recover : storeM (option P) :=
  st ← self; w ← world;
  saved ← liftM (get_state st w);
  match saved with
  | Some (state, counter) =>
      _ ← set_state_counter counter;
      l ← liftM (last_entry w (events_c st));
      match l with
      | Some (key, _) =>
          ec ← liftM (map_err (fun e => StoreError.Store ("Can't parse event key: " +:+ e))
                        (parse_u64 key));
          _ ← set_event_counter ec;
          if decide (ec <> counter) then
            from ← liftM (u64_succ counter);
            st ← self;
            evs ← liftM (events st w from ec);
            state' ← liftM (replay state evs);
            _ ← snapshot state';
            mret (Some state')
          else mret (Some state)
      | None => mret (Some state)
      end
  | None => mret None
  end.

Definition purge : storeM unit :=
  _ ← on_db (fun st d => coll_purge d (events_c st));
  on_db (fun st d => st_purge d (states_s st)).

(** *** Construction *)

(** [Store::new]. The names of the collection and the state derive from the
    name of the store. *)
Definition new (w : W) (m : M) (name prefix : string) (password : option bytes)
    : W * outcome Error (Store C T) :=
  match match password with
        | Some key =>
            map_err (fun e => StoreError.Store ("Can't encrypt password: " +:+ e))
              (fmap Some (box_encrypt key))
        | None => Ok None
        end with
  | Ok kb =>
      match create_collection w m (name +:+ "_events") prefix with
      | (w, Ok evs) =>
          match create_state w m (name +:+ "_states") prefix with
          | (w, Ok sts) =>
              (w, l ← last_entry w evs;
                  let initial :=
                    match l with
                    | Some (key, _) => match parse_u64 key with Ok n => n | _ => 0%N end
                    | None => 0%N
                    end in
                  mret (mk_store initial 0 evs sts kb))
          | (w, Err e) => (w, Err e)
          | (w, Panic) => (w, Panic)
          end
      | (w, Err e) => (w, Err e)
      | (w, Panic) => (w, Panic)
      end
  | Err e => (w, Err e)
  | Panic => (w, Panic)
  end.

(** *** The message handler *)

(** [match self.op() { Ok(v) => Ok(ok(v)), Err(e) => Ok(StoreResponse::Error(e)) }] *)
Definition respond {A} (m : storeM A) (ok : A -> StoreResponse.StoreResponse P E)
    : stM (Store C T * World W) ActorError.Error (StoreResponse.StoreResponse P E) := fun s =>
  match m s with
  | (s', Ok a) => (s', Ok (ok a))
  | (s', Err e) => (s', Ok (StoreResponse.Error e))
  | (s', Panic) => (s', Panic)
  end.

Definition handle_message (msg : StoreCommand.StoreCommand P E)
    : stM (Store C T * World W) ActorError.Error (StoreResponse.StoreResponse P E) :=
  match msg with
  | StoreCommand.Persist event => respond (persist event) (fun _ => StoreResponse.Persisted)
  | StoreCommand.PersistLight event actor =>
      respond (persist_state event actor) (fun _ => StoreResponse.Persisted)
  | StoreCommand.Snapshot actor => respond (snapshot actor) (fun _ => StoreResponse.Snapshotted)
  | StoreCommand.Recover => respond recover StoreResponse.State
  | StoreCommand.GetEvents from to => fun s =>
      (s, map_err (fun e => ActorError.Store ("Unable to get events range: "
                                              +:+ StoreError.display e))
            (fmap StoreResponse.Events (events s.1 (db s.2) from to)))
  | StoreCommand.LastEvent =>
      respond (fun s => (s, last_event s.1 (db s.2))) StoreResponse.LastEvent
  | StoreCommand.Purge => respond purge (fun _ => StoreResponse.NoResponse)
  | StoreCommand.LastEventNumber => fun s =>
      (s, Ok (StoreResponse.LastEventNumber (event_counter s.1)))
  | StoreCommand.LastEventsFrom from => fun s =>
      (s, map_err (fun e => ActorError.Store ("Unable to get the latest events: "
                                              +:+ StoreError.display e))
            (fmap StoreResponse.Events (events s.1 (db s.2) from (event_counter s.1))))
  end.

End Methods.

End Store.
