(* ===== verification/TestActor.v ===== *)
(** * A concrete instance

    The actor of the tests of store/src/store.rs and concrete functions in the
    place of the external code (serialization, authenticated encryption, the
    memory box), with which the theorems are evaluated on examples. *)

From S2P Require Import Prelude Errors Database Memory Store.

(** [TestActor { version, value }], whose events add to the value. *)
Record TestActor : Type := mk_test { version : Z; value : Z }.

Abbreviation TestEvent := Z.

#[export] Instance test_actor : PersistentActor TestActor TestEvent := {
  apply a e := (mk_test (version a + 1) (value a + e), Ok tt);
  update := default_update;
  get_persistence := Full;
}.

#[export] Instance TestActor_eq_dec : EqDecision TestActor.
Proof. solve_decision. Defined.

#[export] Instance TestActor_countable : Countable TestActor.
Proof.
  apply (inj_countable' (fun a => (version a, value a)) (fun p => mk_test p.1 p.2)).
  by intros [].
Defined.

(** ** Serialization: the bits of the code of a value *)

Fixpoint bits (p : positive) : bytes :=
  match p with
  | xH => []
  | xO p => Byte.x00 :: bits p
  | xI p => Byte.x01 :: bits p
  end.

Fixpoint unbits (b : bytes) : positive :=
  match b with
  | [] => xH
  | Byte.x00 :: b => xO (unbits b)
  | _ :: b => xI (unbits b)
  end.

Lemma unbits_bits p : unbits (bits p) = p.
Proof. induction p; cbn; congruence. Qed.

#[export] Instance bincode_countable {A} `{Countable A} : Bincode A := {
  encode_to_vec x := Ok (bits (encode x));
  decode_from_slice b :=
    match decode (unbits b) with
    | Some x => Ok (x, N.of_nat (length b))
    | None => Err "UnexpectedEnd"
    end;
}.

#[export] Instance bincode_countable_laws {A} `{Countable A} : BincodeLaws A.
Proof.
  split; [|done]. intros x b [= <-]. cbn. rewrite unbits_bits, countable.decode_encode. eauto.
Qed.

(** ** A cipher that tags the text with its key *)

#[export] Instance tag_cipher : ChaCha := {
  aead_encrypt key nonce m := Ok (key ++ m);
  aead_decrypt key nonce c :=
    if decide (take (length key) c = key) then Ok (drop (length key) c) else Err "aead::Error";
}.

#[export] Instance tag_cipher_laws : ChaChaLaws.
Proof.
  split; [|done]. intros key nonce m c [= <-]. cbn.
  by rewrite take_app_length, drop_app_length, decide_True.
Qed.

#[export] Instance clear_box : MemSecurity := {
  EncryptedMem := bytes;
  box_encrypt := Ok;
  box_decrypt := Ok;
}.

#[export] Instance clear_box_laws : MemSecurityLaws.
Proof. split. by intros key b [= <-]. Qed.

(** The debug profile. *)
#[export] Instance debug_build : BuildMode := { overflow_checks := true }.

(** ** A fresh store of the memory backend *)

Definition demo_rng (i : nat) : bytes := replicate NONCE_SIZE Byte.x07.

Definition demo_key : bytes := replicate 32 Byte.x03.

Definition demo_open (password : option bytes)
    : MemWorld * outcome StoreError.Error (Store.Store MemoryStore MemoryStore) :=
  Store.new demo_mgr.1 demo_mgr.2 "store" "prefix" password.

Definition no_store : Store.Store MemoryStore MemoryStore :=
  Store.mk_store 0 0 one_store one_store None.

Definition demo_store (password : option bytes) : Store.Store MemoryStore MemoryStore :=
  match demo_open password with (_, Ok st) => st | _ => no_store end.

Definition demo_world (password : option bytes) : World MemWorld :=
  mk_sworld (demo_open password).1 demo_rng 0.
