(* ===== verification/StoreSpec.v ===== *)
(** * What the event store promises

    The abstract state of a store is the log of its events and the last snapshot
    with the counter stored in it; [holds] relates it to the storage. Each method
    is shown to act on the abstract state, for any backend that satisfies the
    laws of [Database], and recovery is characterised as a replay of the log. *)

From S2P Require Import Prelude Path Errors Database Store.
Import StoreError.
Import Store.

Section Spec.
Context {W C T P E : Type}.
Context `{BackendLaws W C T}.
Context `{!MemSecurity, !ChaCha, !ChaChaLaws, !BuildMode}.
Context `{!PersistentActor P E, !Bincode E, !BincodeLaws E, !Bincode (P * N), !BincodeLaws (P * N)}.

Implicit Types (st : Store C T) (w : World W) (log : list E) (p : P) (e : E).

(** ** Keys and nonces *)

(** The key box, if any, opens to a key of the cipher's size. *)
Definition key_ok st : Prop :=
  match key_box st with
  | None => True
  | Some kb => exists key, box_decrypt kb = Ok key /\ length key = 32
  end.

(** The generator gives 96-bit nonces. *)
Definition rng_ok w : Prop := forall i, length (osrng w i) = NONCE_SIZE.

(** The world after [n] more nonces. *)
Definition drew w (n : nat) : World W := mk_sworld (db w) (osrng w) (drawn w + n).

Lemma drew_0 w : drew w 0 = w.
Proof. unfold drew. rewrite Nat.add_0_r. by destruct w. Qed.

Lemma encrypt_spec key data st w :
  length key = 32 -> rng_ok w ->
  exists r, encrypt key data (st, w) = ((st, drew w 1), r) /\ r <> Panic /\
    forall b, r = Ok b -> decrypt key b = Ok data.
Proof.
  intros Hk Hw. unfold encrypt, cipher_new, mbind, stM_bind, liftM. rewrite decide_True by done.
  cbn. pose proof (aead_encrypt_no_panic key (osrng w (drawn w)) data) as Hnp.
  destruct (aead_encrypt key (osrng w (drawn w)) data) as [c|er|] eqn:Hc; [|..|done]; cbn;
    (eexists; split; [done|]; split; [done|]); [|done].
  intros b [= <-]. unfold decrypt, cipher_new. rewrite decide_True by done. cbn.
  rewrite decide_False by (rewrite length_app, Hw; unfold NONCE_SIZE; lia).
  rewrite take_app_length', drop_app_length' by (by rewrite Hw).
  by rewrite (aead_decrypt_encrypt _ _ _ _ Hc).
Qed.

(** What a stored snapshot reads as. *)
Definition open_state st (data : bytes) : outcome Error (P * N) :=
  bytes ← open_sealed st data;
  r ← map_err (fun m => StoreError.Store ("Can't decode state: " +:+ m)) (decode_from_slice bytes);
  mret r.1.

Lemma seal_event_spec e st w :
  key_ok st -> rng_ok w ->
  exists n r, seal_event e (st, w) = ((st, drew w n), r) /\ r <> Panic /\
    forall b, r = Ok b -> open_event st b = Ok e.
Proof.
  intros Hk Hw. unfold seal_event, mbind, stM_bind, self, liftM. cbn.
  pose proof (encode_no_panic e) as Hnp. pose proof (decode_encode e) as Hde.
  unfold key_ok in Hk. unfold open_event, open_sealed.
  destruct (key_box st) as [kb|] eqn:Hkb.
  - destruct Hk as (key & -> & Hlen).
    destruct (encode_to_vec e) as [d|er|]; cbn; [|exists 0|done].
    + destruct (encrypt_spec key d st w Hlen Hw) as (r & -> & Hr & Hd).
      exists 1, r. split_and!; [done..|]. intros b Hb. rewrite (Hd b Hb). cbn.
      destruct (Hde d eq_refl) as [n ->]. done.
    + eexists. rewrite drew_0. by split_and!.
  - exists 0. eexists. rewrite drew_0. split; [done|].
    destruct (encode_to_vec e) as [d|er|]; cbn; [|done..].
    split; [done|]. intros b [= <-]. destruct (Hde d eq_refl) as [n ->]. done.
Qed.

Lemma seal_state_spec (pc : P * N) data st w :
  key_ok st -> rng_ok w -> encode_to_vec pc = Ok data ->
  exists n r, seal_state data (st, w) = ((st, drew w n), r) /\ r <> Panic /\
    forall b, r = Ok b -> open_state st b = Ok pc.
Proof.
  intros Hk Hw Henc. destruct (decode_encode _ _ Henc) as [m Hm].
  unfold seal_state, mbind, stM_bind, self. cbn.
  unfold key_ok in Hk. unfold open_state, open_sealed. destruct (key_box st) as [kb|].
  - destruct Hk as (key & -> & Hlen).
    destruct (encrypt_spec key data st w Hlen Hw) as (r & -> & Hr & Hd).
    exists 1, r. split_and!; [done..|]. intros b Hb. rewrite (Hd b Hb). cbn. by rewrite Hm.
  - exists 0, (Ok data). rewrite drew_0. split_and!; [done..|]. intros b [= <-]. cbn. by rewrite Hm.
Qed.

(** ** The abstract state *)

Record holds (st : Store C T) (d : W) (log : list E) (snap : option (P * N)) : Prop := {
  h_separate : separate d (events_c st) (states_s st);
  h_key : key_ok st;
  h_length : (N.of_nat (length log) <= u64_size)%N;
  h_events : forall i e, log !! i = Some e ->
    exists b, coll_view d (events_c st) (fmt020 (N.of_nat i)) = Some b /\ open_event st b = Ok e;
  h_only : forall k b, coll_view d (events_c st) k = Some b ->
    exists i, i < length log /\ k = fmt020 (N.of_nat i);
  h_snap : match snap with
           | None => st_view d (states_s st) = None
           | Some pc => exists b, st_view d (states_s st) = Some b /\ open_state st b = Ok pc
           end;
}.

(** The counter of a store that has written or read the whole log. *)
Definition counter_of log : N := N.of_nat (length log - 1).

(** Updating a counter keeps the abstract state. *)
Lemma holds_counters st d log snap ec sc :
  holds st d log snap ->
  holds (mk_store ec sc (events_c st) (states_s st) (key_box st)) d log snap.
Proof. destruct st. by intros []. Qed.

(** Two boxes with the same key read the same data. *)
Lemma holds_rekey st d log snap ec sc kb :
  holds st d log snap -> (box_decrypt <$> kb) = (box_decrypt <$> key_box st) ->
  holds (mk_store ec sc (events_c st) (states_s st) kb) d log snap.
Proof.
  intros [] Hkb. destruct st as [ec' sc' c t kb']. cbn in *.
  assert (forall data, open_sealed (mk_store ec sc c t kb) data
                       = open_sealed (mk_store ec' sc' c t kb') data) as Hop.
  { intros data. unfold open_sealed. cbn.
    destruct kb as [b|], kb' as [b'|]; cbn in Hkb; [|done..]. by injection Hkb as ->. }
  constructor; cbn; [done| |done| |done|].
  - unfold key_ok in *. cbn in *.
    destruct kb as [b|], kb' as [b'|]; cbn in Hkb; [|done..]. by injection Hkb as ->.
  - intros i e Hi. destruct (h_events0 _ _ Hi) as (b & Hb & Ho). exists b.
    unfold open_event in *. by rewrite Hop.
  - destruct snap as [pc|]; [|done]. destruct h_snap0 as (b & Hb & Ho). exists b.
    unfold open_state in *. by rewrite Hop.
Qed.

Lemma holds_coll_inv st d log snap : holds st d log snap -> coll_inv d (events_c st).
Proof. intros Hh. by apply (separate_inv _ _ _ (h_separate _ _ _ _ Hh)). Qed.

Lemma holds_st_inv st d log snap : holds st d log snap -> st_inv d (states_s st).
Proof. intros Hh. by apply (separate_inv _ _ _ (h_separate _ _ _ _ Hh)). Qed.

(** The last entry of the collection is the last event of the log. *)
Lemma holds_last_entry st d log snap :
  holds st d log snap ->
  match last log with
  | None => last_entry d (events_c st) = Ok None
  | Some e => exists b, last_entry d (events_c st) = Ok (Some (fmt020 (counter_of log), b)) /\
      open_event st b = Ok e
  end.
Proof.
  intros Hh. pose proof (last_entry_law d _ (holds_coll_inv _ _ _ _ Hh)) as Hl.
  destruct (last_entry d (events_c st)) as [[[k b]|]|er|]; [| |done..].
  - destruct Hl as [Hk Hmax]. destruct (h_only _ _ _ _ Hh _ _ Hk) as (i & Hi & ->).
    pose proof (h_length _ _ _ _ Hh) as Hlen.
    assert (i = length log - 1) as ->.
    { destruct (decide (i < length log - 1)) as [Hlt|]; [exfalso|lia].
      assert (is_Some (log !! (length log - 1))) as [e' He'] by (apply lookup_lt_is_Some; lia).
      destruct (h_events _ _ _ _ Hh _ _ He') as (b' & Hb' & _).
      assert (str_lt (fmt020 (N.of_nat i)) (fmt020 (N.of_nat (length log - 1)))) as Hs
        by (apply fmt020_lt; lia).
      destruct (Hmax _ _ Hb') as [Heq|Hgt].
      - rewrite Heq in Hs. by apply (irreflexivity str_lt) in Hs.
      - by apply (asymmetry Hs). }
    assert (is_Some (last log)) as [e He].
    { apply last_is_Some. intros ->. cbn in Hi. lia. }
    rewrite He. exists b. split; [done|].
    rewrite last_lookup in He. replace (pred (length log)) with (length log - 1) in He by lia.
    destruct (h_events _ _ _ _ Hh _ _ He) as (b' & Hb' & Ho). congruence.
  - destruct (last log) as [e|] eqn:He; [exfalso|done].
    rewrite last_lookup in He. destruct (h_events _ _ _ _ Hh _ _ He) as (b & Hb & _).
    specialize (Hl (fmt020 (N.of_nat (pred (length log))))). congruence.
Qed.

Lemma holds_last_event st d log snap :
  holds st d log snap -> last_event st d = Ok (last log).
Proof.
  intros Hh. pose proof (holds_last_entry _ _ _ _ Hh) as Hl. unfold last_event.
  destruct (last log) as [e|]; [destruct Hl as (b & -> & Hb)|rewrite Hl; done].
  cbn. by rewrite Hb.
Qed.

Lemma holds_get_state st d log snap :
  holds st d log snap -> get_state st d = Ok snap.
Proof.
  intros Hh. pose proof (h_snap _ _ _ _ Hh) as Hs.
  pose proof (st_get_law d _ (holds_st_inv _ _ _ _ Hh)) as Hg. unfold get_state.
  destruct snap as [pc|].
  - destruct Hs as (b & Hb & Ho). rewrite Hb in Hg. rewrite Hg.
    unfold open_state in Ho. apply bind_Ok in Ho as (d' & -> & Ho). cbn in *.
    apply bind_Ok in Ho as (r & -> & Ho). cbn in *. by injection Ho as <-.
  - rewrite Hs in Hg. by destruct Hg as [m ->].
Qed.

(** ** A running store

    The counter is the one of the log, which every operation but [purge]
    maintains, and the snapshot does not come from the future. *)

Definition snap_ok log (snap : option (P * N)) : Prop :=
  match snap with Some (_, c) => (c <= counter_of log)%N | None => True end.

Record running (st : Store C T) (w : World W) (log : list E) (snap : option (P * N)) : Prop := {
  r_holds : holds st (db w) log snap;
  r_rng : rng_ok w;
  r_counter : event_counter st = counter_of log;
  r_snap : snap_ok log snap;
}.

Lemma running_drew st w log snap n : running st w log snap -> running st (drew w n) log snap.
Proof. intros []. by constructor. Qed.

Lemma running_state_counter st w log snap sc :
  running st w log snap ->
  running (mk_store (event_counter st) sc (events_c st) (states_s st) (key_box st)) w log snap.
Proof. intros []. constructor; [by apply holds_counters|done..]. Qed.

Lemma counter_of_app log e : counter_of (log ++ [e]) = N.of_nat (length log).
Proof. unfold counter_of. rewrite length_app. cbn. f_equal. lia. Qed.

Lemma counter_le_app log e : (counter_of log <= counter_of (log ++ [e]))%N.
Proof. rewrite counter_of_app. unfold counter_of. lia. Qed.

Lemma next_event_number_spec st w log snap :
  running st w log snap -> (N.of_nat (length log) < u64_size)%N ->
  next_event_number (E:=E) (st, w) = ((st, w), Ok (N.of_nat (length log))).
Proof.
  intros Hr Hlen. pose proof (r_counter _ _ _ _ Hr) as Hc. unfold counter_of in Hc.
  unfold next_event_number, mbind, stM_bind, self, world, liftM. cbn.
  case_decide as Hz; cbn.
  - rewrite Hc, u64_succ_Ok by lia. do 2 f_equal. lia.
  - rewrite (holds_last_event _ _ _ _ (r_holds _ _ _ _ Hr)).
    destruct log as [|e0 log]; [done|].
    destruct (last (e0 :: log)) as [e|] eqn:Hl; [|by apply last_None in Hl].
    cbn [length] in *. rewrite Hc, u64_succ_Ok by lia. do 2 f_equal. lia.
Qed.

(** A successful write at an index of the log or at its end. *)
Lemma holds_put st d log log' snap i e b d' :
  holds st d log snap -> open_event st b = Ok e ->
  (i <= length log)%nat -> (N.of_nat i < u64_size)%N ->
  (forall j, log' !! j = if decide (j = i) then Some e else log !! j) ->
  coll_put d (events_c st) (fmt020 (N.of_nat i)) b = (d', Ok tt) ->
  holds st d' log' snap.
Proof.
  intros Hh Hb Hi Hlen Hlog Hp. pose proof (fmt020_utf8 (N.of_nat i)) as Hhd.
  destruct (coll_put_law _ _ _ _ _ _ (holds_coll_inv _ _ _ _ Hh) Hhd Hp) as [_ Hv].
  destruct (coll_put_frame _ _ _ _ _ _ _ (h_separate _ _ _ _ Hh) Hhd Hp) as [Hsep Hst].
  assert (forall j, (j < length log' <-> j < length log \/ j = i)%nat) as Hlt.
  { intros j. rewrite <- !lookup_lt_is_Some, Hlog. case_decide.
    - split; [by right|by eauto].
    - split; [by left|by intros [?|?]]. }
  destruct Hh. cbn in Hv.
  assert (N.of_nat (length log') <= u64_size)%N as Hlen'.
  { destruct (decide (length log' = 0)) as [->|]; [cbn; lia|].
    destruct (proj1 (Hlt (length log' - 1)) ltac:(lia)); lia. }
  constructor; [done|done|done|..].
  - intros j e' Hj. pose proof (proj1 (Hlt j) (lookup_lt_Some _ _ _ Hj)) as Hjl.
    rewrite Hv. case_decide as Hk; rewrite Hlog in Hj.
    + apply fmt020_inj in Hk; [|lia..]. apply Nat2N.inj in Hk. subst j.
      rewrite decide_True in Hj by done. exists b. split; congruence.
    + rewrite decide_False in Hj by congruence. by apply h_events0.
  - intros k b' Hk. rewrite Hv in Hk. case_decide as Heq.
    + exists i. split; [apply Hlt; lia|done].
    + destruct (h_only0 _ _ Hk) as (j & Hj & ->). exists j. split; [apply Hlt; lia|done].
  - by rewrite Hst.
Qed.

Lemma lookup_snoc log e j :
  (log ++ [e]) !! j = if decide (j = length log) then Some e else log !! j.
Proof.
  case_decide as Hj; [by apply list_lookup_middle|].
  destruct (decide (j < length log)); [by apply lookup_app_l|].
  rewrite !lookup_ge_None_2; [done|lia|rewrite length_app; cbn; lia].
Qed.

(** The log whose last event is replaced. *)
Definition overwrite_last log e : list E := take (length log - 1) log ++ [e].

Lemma lookup_overwrite_last log e j :
  overwrite_last log e !! j
  = if decide (j = length log - 1) then Some e else log !! j.
Proof.
  unfold overwrite_last. rewrite lookup_snoc, length_take.
  replace ((length log - 1) `min` length log) with (length log - 1) by lia.
  case_decide; [done|]. destruct (decide (j < length log - 1)); [by apply lookup_take_lt|].
  rewrite lookup_take_ge by lia. symmetry. apply lookup_ge_None. lia.
Qed.

Lemma counter_of_overwrite log e : counter_of (overwrite_last log e) = counter_of log.
Proof.
  unfold counter_of, overwrite_last. rewrite length_app, length_take. cbn. f_equal. lia.
Qed.

(** A failed write leaves the log. *)
Lemma holds_put_failed st d log snap k b d' err :
  holds st d log snap -> is_utf8 k = true ->
  coll_put d (events_c st) k b = (d', Err err) ->
  holds st d' log snap.
Proof.
  intros Hh Hhd Hp.
  destruct (coll_put_law _ _ _ _ _ _ (holds_coll_inv _ _ _ _ Hh) Hhd Hp) as [_ Hv].
  destruct (coll_put_frame _ _ _ _ _ _ _ (h_separate _ _ _ _ Hh) Hhd Hp) as [Hsep Hst].
  destruct Hh. cbn in Hv. constructor; [done|done|done|..].
  - intros i e' Hi. rewrite Hv. by apply h_events0.
  - intros k' b'. rewrite Hv. apply h_only0.
  - by rewrite Hst.
Qed.

(** The log and the snapshot after [persist]: the event is appended, or nothing
    changes. *)
Lemma persist_running e st w log snap st' w' r :
  running st w log snap -> (N.of_nat (length log) < u64_size)%N ->
  persist e (st, w) = ((st', w'), r) ->
  match r with
  | Ok _ => running st' w' (log ++ [e]) snap
  | Err _ => running st' w' log snap /\ st' = st
  | Panic => False
  end.
Proof.
  intros Hr Hlen. unfold persist. unfold mbind at 1, stM_bind at 1.
  destruct (seal_event_spec e st w (h_key _ _ _ _ (r_holds _ _ _ _ Hr)) (r_rng _ _ _ _ Hr))
    as (n & res & -> & Hres & Hb).
  apply (running_drew _ _ _ _ n) in Hr.
  destruct res as [b|er|]; [|by intros [= <- <- <-]|done].
  rewrite (stM_bind_Ok _ _ _ _ _ (next_event_number_spec _ _ _ _ Hr Hlen)).
  unfold mbind, stM_bind, tryM, on_db.
  destruct (coll_put (db (drew w n)) (events_c st) _ b) as [d' rp] eqn:Hp.
  pose proof (fmt020_utf8 (N.of_nat (length log))) as Hhd.
  pose proof (r_holds _ _ _ _ Hr) as Hh.
  destruct (coll_put_law _ _ _ _ _ _ (holds_coll_inv _ _ _ _ Hh) Hhd Hp) as [_ Hv].
  destruct rp as [[]|er|]; [| |done]; cbn; intros [= <- <- <-].
  - pose proof (holds_put _ _ _ _ _ _ _ _ _ Hh (Hb _ eq_refl) (le_n _) Hlen
                  (lookup_snoc log e) Hp) as Hh'.
    constructor; [by apply holds_counters|apply Hr|by rewrite counter_of_app|].
    pose proof (r_snap _ _ _ _ Hr) as Hs. destruct snap as [[p c]|]; [|done]. cbn in *.
    pose proof (counter_le_app log e). lia.
  - split; [|done]. constructor; [|apply Hr..]. by eapply holds_put_failed.
Qed.

(** The snapshot after [snapshot]. *)
Lemma snapshot_running p st w log snap st' w' r :
  running st w log snap -> snapshot p (st, w) = ((st', w'), r) ->
  match r with
  | Ok _ => running st' w' log (Some (p, counter_of log))
  | Err _ => running st' w' log snap
  | Panic => False
  end.
Proof.
  intros Hr. unfold snapshot. unfold mbind, stM_bind, self, set_state_counter, liftM. cbn.
  apply (running_state_counter _ _ _ _ (event_counter st)) in Hr as Hr1.
  set (st1 := mk_store _ _ _ _ _) in *.
  pose proof (encode_no_panic (p, event_counter st)) as Hnp.
  destruct (encode_to_vec (p, event_counter st)) as [data|er|] eqn:Henc; cbn; [|by intros [= <- <- <-]|done].
  destruct (seal_state_spec (p, event_counter st) data st1 w) as (n & res & Hm & Hres & Hb);
    [apply Hr1..|done|].
  rewrite Hm. destruct res as [b|er|]; [| |done].
  2: { intros [= <- <- <-]. by apply running_drew. }
  unfold on_db. destruct (st_put _ _ b) as [d' rp] eqn:Hp. intros [= <- <- <-].
  apply (running_drew _ _ _ _ n) in Hr1. pose proof (r_holds _ _ _ _ Hr1) as Hh.
  destruct (st_put_law _ _ _ _ _ (holds_st_inv _ _ _ _ Hh) Hp) as [_ Hv].
  destruct (st_put_frame _ _ _ _ _ _ (h_separate _ _ _ _ Hh) Hp) as [Hsep Hcv].
  assert (forall snap', match snap' with
       | Some pc => exists b, st_view d' (states_s st1) = Some b /\ open_state st1 b = Ok pc
       | None => st_view d' (states_s st1) = None end -> holds st1 d' log snap') as Hholds.
  { intros snap' Hs. destruct Hh. constructor; [done..| | |done].
    - intros i e Hi. rewrite Hcv. by apply h_events0.
    - intros k b'. rewrite Hcv. apply h_only0. }
  assert (event_counter st = counter_of log) as Hc by apply Hr.
  destruct rp as [[]|er|]; [| |done].
  - constructor; [|apply Hr1|done|cbn; lia]. apply Hholds. exists b. rewrite <- Hc. auto.
  - constructor; [|apply Hr1..]. apply Hholds. rewrite Hv. apply Hh.
Qed.

Lemma snapshot_counter p st w st' w' r :
  snapshot p (st, w) = ((st', w'), r) ->
  event_counter st' = event_counter st /\ events_c st' = events_c st /\
  states_s st' = states_s st /\ key_box st' = key_box st.
Proof.
  unfold snapshot, seal_state, encrypt, generate_nonce, on_db, self, set_state_counter, mbind,
    stM_bind, liftM, mret, stM_ret. cbn.
  destruct (encode_to_vec _); cbn; [|by intros [= <- <- <-]..].
  case_all; intros; by simplify_eq/=.
Qed.

(** The log and the snapshot after [persist_state]. *)
Lemma persist_state_running e p st w log snap st' w' r :
  running st w log snap -> persist_state e p (st, w) = ((st', w'), r) ->
  match r with
  | Ok _ => running st' w' (overwrite_last log e) (Some (p, counter_of log))
  | Err _ => running st' w' log snap \/ running st' w' log (Some (p, counter_of log))
  | Panic => False
  end.
Proof.
  intros Hr. unfold persist_state. unfold mbind at 1, stM_bind at 1.
  destruct (seal_event_spec e st w (h_key _ _ _ _ (r_holds _ _ _ _ Hr)) (r_rng _ _ _ _ Hr))
    as (n & res & -> & Hres & Hb).
  apply (running_drew _ _ _ _ n) in Hr.
  destruct res as [b|er|]; [|by intros [= <- <- <-]; left|done].
  unfold mbind, stM_bind. destruct (snapshot p _) as [[st1 w1] r1] eqn:Hsn.
  pose proof (snapshot_running _ _ _ _ _ _ _ _ Hr Hsn) as Hr1.
  destruct (snapshot_counter _ _ _ _ _ _ Hsn) as (Hec & Hev & _ & Hkb).
  destruct r1 as [[]|er|]; [|by intros [= <- <- <-]; left|done].
  unfold on_db. destruct (coll_put _ _ _ b) as [d' rp] eqn:Hp. intros [= <- <- <-].
  pose proof (r_holds _ _ _ _ Hr1) as Hh. rewrite (r_counter _ _ _ _ Hr1) in Hp.
  pose proof (fmt020_utf8 (counter_of log)) as Hhd.
  destruct (coll_put_law _ _ _ _ _ _ (holds_coll_inv _ _ _ _ Hh) Hhd Hp) as [_ Hv].
  destruct rp as [[]|er|]; [| |done].
  - specialize (Hb _ eq_refl).
    assert (open_event st1 b = Ok e) as Hb1.
    { unfold open_event, open_sealed in *. by rewrite Hkb. }
    unfold counter_of in Hp. pose proof (h_length _ _ _ _ Hh).
    constructor; [|apply Hr1|by rewrite counter_of_overwrite; apply Hr1|].
    + refine (holds_put _ _ _ _ _ _ _ _ _ Hh Hb1 _ _ (lookup_overwrite_last log e) Hp);
        [lia|u64_lia].
    + cbn. rewrite counter_of_overwrite. lia.
  - right. constructor; [|apply Hr1..]. by eapply holds_put_failed.
Qed.

(** ** Reading the log *)

Lemma view_beyond st d log snap i :
  holds st d log snap -> (length log <= i)%nat -> (N.of_nat i < u64_size)%N ->
  coll_view d (events_c st) (fmt020 (N.of_nat i)) = None.
Proof.
  intros Hh Hi Hb. destruct (coll_view _ _ _) eqn:Hv; [exfalso|done].
  destruct (h_only _ _ _ _ Hh _ _ Hv) as (j & Hj & Heq).
  pose proof (h_length _ _ _ _ Hh).
  apply fmt020_inj in Heq; [|lia..]. lia.
Qed.

Lemma events_loop_spec st d log snap n i :
  holds st d log snap -> (N.of_nat (i + n) <= u64_size)%N ->
  events_loop st d n (N.of_nat i) = Ok (take n (drop i log)).
Proof.
  intros Hh. revert i. induction n as [|n IH]; intros i Hb; [done|]. cbn [events_loop].
  pose proof (coll_get_law d _ (fmt020 (N.of_nat i)) (holds_coll_inv _ _ _ _ Hh)) as Hg.
  destruct (log !! i) as [e|] eqn:Hi.
  - destruct (h_events _ _ _ _ Hh _ _ Hi) as (b & Hv & Ho). rewrite Hv in Hg. rewrite Hg, Ho.
    cbn. replace (N.of_nat i + 1)%N with (N.of_nat (S i)) by lia.
    rewrite IH by lia. cbn. by rewrite (drop_S _ _ _ Hi).
  - apply lookup_ge_None in Hi. rewrite (view_beyond _ _ _ _ _ Hh) in Hg by (done || lia).
    destruct Hg as [m ->]. by rewrite drop_ge, take_nil by done.
Qed.

Lemma events_running st d log snap from to :
  holds st d log snap -> (to < u64_size)%N ->
  events st d from to = Ok (take (N.to_nat (to + 1 - from)) (drop (N.to_nat from) log)).
Proof.
  intros Hh Hb. unfold events.
  destruct (N.le_gt_cases from to) as [Hle|Hgt].
  - replace from with (N.of_nat (N.to_nat from)) at 2 by lia.
    apply (events_loop_spec _ _ _ snap); [done|lia].
  - by replace (to + 1 - from)%N with 0%N by lia.
Qed.

(** ** Replaying *)

Lemma replay_app p log1 log2 :
  replay p (log1 ++ log2) = (p' ← replay p log1; replay p' log2).
Proof.
  revert p. induction log1 as [|e log1 IH]; intros p; [done|]. cbn.
  destruct (apply p e) as [p' [[]|er|]]; [apply IH|done..].
Qed.

(** ** Recovery *)

(** What [recover] answers, in terms of the log and the snapshot. *)
Definition recovered log (snap : option (P * N)) : outcome Error (option P) :=
  match snap with
  | None => Ok None
  | Some (p, c) => p' ← replay p (drop (S (N.to_nat c)) log); mret (Some p')
  end.

Lemma drop_up_to_date log c :
  (counter_of log <= c)%N -> drop (S (N.to_nat c)) log = [].
Proof. intros. apply drop_ge. unfold counter_of in *. lia. Qed.

(** The store with other counters. *)
Definition at_counters st (ec sc : N) : Store C T :=
  mk_store ec sc (events_c st) (states_s st) (key_box st).

Lemma running_at_counters st w log snap sc :
  running st w log snap -> running (at_counters st (counter_of log) sc) w log snap.
Proof. intros []. constructor; [by apply holds_counters|done..]. Qed.

(** [recover] as an equation: the only write is the snapshot after a replay. *)
Lemma recover_eq st w log snap :
  running st w log snap ->
  recover (st, w) =
    match snap with
    | None => ((st, w), Ok None)
    | Some (p, c) =>
        let s1 := (at_counters st (counter_of log) c, w) in
        if decide (counter_of log <> c) then
          match replay p (drop (S (N.to_nat c)) log) with
          | Ok p' =>
              match snapshot p' s1 with
              | (s2, Ok _) => (s2, Ok (Some p'))
              | (s2, Err er) => (s2, Err er)
              | (s2, Panic) => (s2, Panic)
              end
          | Err er => (s1, Err er)
          | Panic => (s1, Panic)
          end
        else (s1, Ok (Some p))
    end.
Proof.
  intros Hr. pose proof (r_holds _ _ _ _ Hr) as Hh.
  unfold recover. unfold mbind at 1 2 3, stM_bind at 1 2 3, self, world, liftM. cbn.
  rewrite (holds_get_state _ _ _ _ Hh).
  destruct snap as [[p c]|]; cbn; [|done].
  pose proof (r_snap _ _ _ _ Hr) as Hs. cbn in Hs.
  unfold mbind at 1 2, stM_bind at 1 2. cbn.
  pose proof (holds_last_entry _ _ _ _ Hh) as Hl.
  destruct (last log) as [e|] eqn:He.
  2: { apply last_None in He. subst log. cbn in Hs. rewrite Hl, (r_counter _ _ _ _ Hr). cbn.
       by rewrite decide_False by (unfold counter_of in *; cbn in *; lia). }
  destruct Hl as (b & -> & _). pose proof (h_length _ _ _ _ Hh) as Hlen.
  rewrite parse_fmt020 by (unfold counter_of; u64_lia).
  unfold mbind at 1 2, stM_bind at 1 2. cbn.
  pose proof (running_at_counters _ _ _ _ c Hr) as Hr1.
  fold (at_counters st (counter_of log) c).
  case_decide as Hne; [|done].
  rewrite u64_succ_Ok by (unfold counter_of in *; u64_lia).
  unfold mbind at 1 2 3, stM_bind at 1 2 3. cbn.
  fold (at_counters st (counter_of log) c).
  rewrite (events_running _ _ _ _ _ _ (r_holds _ _ _ _ Hr1)) by (unfold counter_of; u64_lia).
  replace (N.to_nat (c + 1)) with (S (N.to_nat c)) by lia.
  rewrite take_ge; [|rewrite length_drop; unfold counter_of in *; lia].
  unfold mbind at 1, stM_bind at 1. cbn.
  destruct (replay p (drop (S (N.to_nat c)) log)) as [p'|er|]; cbn; [|done..].
  unfold mbind, stM_bind. by destruct (snapshot p' _) as [s2 [[]|er|]].
Qed.

Lemma recover_running st w log snap st' w' r :
  running st w log snap -> recover (st, w) = ((st', w'), r) ->
  match recovered log snap with
  | Ok res =>
      match r with
      | Ok a => a = res /\
          (running st' w' log snap \/
           exists p, res = Some p /\ running st' w' log (Some (p, counter_of log)))
      | Err _ => running st' w' log snap
      | Panic => False
      end
  | Err er => r = Err er /\ running st' w' log snap
  | Panic => r = Panic
  end.
Proof.
  intros Hr. rewrite (recover_eq _ _ _ _ Hr).
  destruct snap as [[p c]|]; cbn; [|intros [= <- <- <-]; auto].
  pose proof (running_at_counters _ _ _ _ c Hr) as Hr1.
  pose proof (r_snap _ _ _ _ Hr) as Hs. cbn in Hs.
  case_decide as Hne.
  2: { rewrite drop_up_to_date by lia. cbn. intros [= <- <- <-]. auto. }
  destruct (replay p (drop (S (N.to_nat c)) log)) as [p'|er|]; cbn;
    [|by intros [= <- <- <-]|by intros [= <- <- <-]].
  destruct (snapshot p' _) as [[st2 w2] r2] eqn:Hsn.
  pose proof (snapshot_running _ _ _ _ _ _ _ _ Hr1 Hsn) as Hr2.
  destruct r2 as [[]|er|]; intros [= <- <- <-]; [|done..]. eauto.
Qed.

End Spec.
