(* ===== verification/StoreCorrect.v ===== *)
(** * The event store is an append-only log with a snapshot

    The abstract machine [spec_step] acts on a log of events and a snapshot; the
    handler of the store simulates it command by command ([handle_refines]), so
    the theorems on sessions, recovery and snapshots are about the log. The
    properties of encryption and of [purge], which leaves the abstract machine,
    close the file. *)

From S2P Require Import Prelude Path Errors Database Memory Store TestActor StoreSpec.
Import StoreError.
Import Store.

Section Correct.
Context {W C T P E : Type}.
Context `{BackendLaws W C T}.
Context `{!MemSecurity, !ChaCha, !ChaChaLaws, !BuildMode}.
Context `{!PersistentActor P E, !Bincode E, !BincodeLaws E, !Bincode (P * N), !BincodeLaws (P * N)}.

Implicit Types (st : Store C T) (w : World W) (log : list E) (p : P) (e : E).
Implicit Types (snap : option (P * N)) (msg : StoreCommand.StoreCommand P E).

(** ** The abstract machine *)

(** [spec_step (log, snap) msg resp (log', snap')]: the storage may refuse any
    write, and then the answer is an error and the log is as it was. *)
Inductive spec_step : list E * option (P * N) -> StoreCommand.StoreCommand P E ->
    StoreResponse.StoreResponse P E -> list E * option (P * N) -> Prop :=
| step_persist log snap e :
    spec_step (log, snap) (StoreCommand.Persist e) StoreResponse.Persisted (log ++ [e], snap)
| step_persist_failed log snap e er :
    spec_step (log, snap) (StoreCommand.Persist e) (StoreResponse.Error er) (log, snap)
| step_light log snap e p :
    spec_step (log, snap) (StoreCommand.PersistLight e p) StoreResponse.Persisted
      (overwrite_last log e, Some (p, counter_of log))
| step_light_failed log snap e p er snap' :
    snap' = snap \/ snap' = Some (p, counter_of log) ->
    spec_step (log, snap) (StoreCommand.PersistLight e p) (StoreResponse.Error er) (log, snap')
| step_snapshot log snap p :
    spec_step (log, snap) (StoreCommand.Snapshot p) StoreResponse.Snapshotted
      (log, Some (p, counter_of log))
| step_snapshot_failed log snap p er :
    spec_step (log, snap) (StoreCommand.Snapshot p) (StoreResponse.Error er) (log, snap)
| step_last_event log snap :
    spec_step (log, snap) StoreCommand.LastEvent (StoreResponse.LastEvent (last log)) (log, snap)
| step_last_event_number log snap :
    spec_step (log, snap) StoreCommand.LastEventNumber
      (StoreResponse.LastEventNumber (counter_of log)) (log, snap)
| step_last_events_from log snap from :
    spec_step (log, snap) (StoreCommand.LastEventsFrom from)
      (StoreResponse.Events (drop (N.to_nat from) log)) (log, snap)
| step_get_events log snap from to :
    spec_step (log, snap) (StoreCommand.GetEvents from to)
      (StoreResponse.Events (take (N.to_nat (to + 1 - from)) (drop (N.to_nat from) log))) (log, snap)
| step_recover log snap res snap' :
    recovered log snap = Ok res ->
    snap' = snap \/ (exists p, res = Some p /\ snap' = Some (p, counter_of log)) ->
    spec_step (log, snap) StoreCommand.Recover (StoreResponse.State res) (log, snap')
| step_recover_failed log snap er :
    spec_step (log, snap) StoreCommand.Recover (StoreResponse.Error er) (log, snap).

(** The commands with arguments that are [u64]s, and room for one more event;
    [Purge] is apart. *)
Definition cmd_ok log msg : Prop :=
  match msg with
  | StoreCommand.GetEvents _ to => (to < u64_size)%N
  | StoreCommand.Persist _ => (N.of_nat (length log) < u64_size)%N
  | StoreCommand.Purge => False
  | _ => True
  end.

Lemma take_drop_all log from :
  take (N.to_nat (counter_of log + 1 - from)) (drop (N.to_nat from) log) = drop (N.to_nat from) log.
Proof. apply take_ge. rewrite length_drop. unfold counter_of. lia. Qed.

Lemma counter_lt st w log snap : running st w log snap -> (counter_of log < u64_size)%N.
Proof. intros Hr. pose proof (h_length _ _ _ _ (r_holds _ _ _ _ Hr)). unfold counter_of. u64_lia. Qed.

(** The handler simulates the abstract machine; only [apply] may panic. *)
Lemma handle_refines msg st w log snap st' w' r :
  running st w log snap -> cmd_ok log msg ->
  handle_message msg (st, w) = ((st', w'), r) ->
  (exists resp log' snap', r = Ok resp /\ spec_step (log, snap) msg resp (log', snap') /\
     running st' w' log' snap') \/
  (r = Panic /\ msg = StoreCommand.Recover /\ recovered log snap = Panic).
Proof.
  intros Hr Hok. pose proof (r_holds _ _ _ _ Hr) as Hh. unfold handle_message, respond.
  destruct msg as [e|e p|p| | |from|from to| |]; cbn in Hok; [..|done].
  - destruct (persist e (st, w)) as [[st1 w1] r1] eqn:Hp.
    pose proof (persist_running _ _ _ _ _ _ _ _ Hr Hok Hp) as Hr1.
    destruct r1 as [[]|er|]; [| |done]; intros [= <- <- <-]; left; do 3 eexists;
      (split; [done|]); split; [constructor|done|constructor|apply Hr1].
  - destruct (persist_state e p (st, w)) as [[st1 w1] r1] eqn:Hp.
    pose proof (persist_state_running _ _ _ _ _ _ _ _ _ Hr Hp) as Hr1.
    destruct r1 as [[]|er|]; [|destruct Hr1 as [Hr1|Hr1]|done]; intros [= <- <- <-]; left;
      do 3 eexists; (split; [done|]); (split; [|exact Hr1]); constructor; auto.
  - destruct (snapshot p (st, w)) as [[st1 w1] r1] eqn:Hp.
    pose proof (snapshot_running _ _ _ _ _ _ _ _ Hr Hp) as Hr1.
    destruct r1 as [[]|er|]; [| |done]; intros [= <- <- <-]; left; do 3 eexists;
      (split; [done|]); (split; [|exact Hr1]); constructor.
  - cbn. rewrite (holds_last_event _ _ _ _ Hh). intros [= <- <- <-]. left. do 3 eexists.
    split; [done|]. split; [constructor|done].
  - cbn. intros [= <- <- <-]. left. rewrite (r_counter _ _ _ _ Hr). do 3 eexists.
    split; [done|]. split; [constructor|done].
  - cbn. rewrite (r_counter _ _ _ _ Hr), (events_running _ _ _ _ _ _ Hh)
      by (by eapply counter_lt).
    rewrite take_drop_all. intros [= <- <- <-]. left. do 3 eexists.
    split; [done|]. split; [constructor|done].
  - cbn. rewrite (events_running _ _ _ _ _ _ Hh) by done. intros [= <- <- <-]. left.
    do 3 eexists. split; [done|]. split; [constructor|done].
  - destruct (recover (st, w)) as [[st1 w1] r1] eqn:Hp.
    pose proof (recover_running _ _ _ _ _ _ _ Hr Hp) as Hr1.
    destruct (recovered log snap) as [res|er|] eqn:Hrec.
    + destruct r1 as [a|er|]; [destruct Hr1 as [-> Hr1]| |done]; intros [= <- <- <-]; left.
      * destruct Hr1 as [Hr1|(p & -> & Hr1)]; do 3 eexists;
          (split; [done|]); (split; [|exact Hr1]); econstructor; eauto.
      * do 3 eexists. split; [done|]. split; [constructor|done].
    + destruct Hr1 as [-> Hr1]. intros [= <- <- <-]. left. do 3 eexists.
      split; [done|]. split; [constructor|done].
    + subst r1. intros [= <- <- <-]. by right.
Qed.

(** ** Sessions *)

(** The answers to the messages of a mailbox; a panic ends the actor. *)
Fixpoint run_commands (msgs : list (StoreCommand.StoreCommand P E)) (s : Store C T * World W)
    : (Store C T * World W) * list (outcome ActorError.Error (StoreResponse.StoreResponse P E)) :=
  match msgs with
  | [] => (s, [])
  | msg :: msgs =>
      match handle_message msg s with
      | (s', Panic) => (s', [Panic])
      | (s', r) => let '(s'', rs) := run_commands msgs s' in (s'', r :: rs)
      end
  end.

Inductive spec_run : list E * option (P * N) -> list (StoreCommand.StoreCommand P E) ->
    list (StoreResponse.StoreResponse P E) -> list E * option (P * N) -> Prop :=
| spec_done a : spec_run a [] [] a
| spec_more a msg resp a1 msgs resps a2 :
    spec_step a msg resp a1 -> spec_run a1 msgs resps a2 ->
    spec_run a (msg :: msgs) (resp :: resps) a2.

(** A session that the abstract machine covers, with room for its events. *)
Definition session_ok log (msgs : list (StoreCommand.StoreCommand P E)) : Prop :=
  (N.of_nat (length log + length msgs) <= u64_size)%N /\
  Forall (fun msg => match msg with
                     | StoreCommand.GetEvents _ to => (to < u64_size)%N
                     | StoreCommand.Purge => False
                     | _ => True
                     end) msgs.

Lemma session_ok_head log msg msgs : session_ok log (msg :: msgs) -> cmd_ok log msg.
Proof. intros [Hl Hf]. inv Hf. cbn in Hl. destruct msg; cbn in *; done || lia. Qed.

Lemma spec_step_length log snap msg resp log' snap' :
  spec_step (log, snap) msg resp (log', snap') -> (length log' <= S (length log))%nat.
Proof.
  inversion 1; subst; unfold overwrite_last; rewrite ?length_app, ?length_take; cbn; lia.
Qed.

Lemma session_ok_tail log snap msg msgs resp log' snap' :
  session_ok log (msg :: msgs) -> spec_step (log, snap) msg resp (log', snap') ->
  session_ok log' msgs.
Proof.
  intros [Hl Hf] Hs%spec_step_length. inv Hf. cbn in Hl. split; [lia|done].
Qed.

Lemma replay_no_panic p log :
  (forall p e, (apply p e).2 <> Panic) -> replay p log <> Panic.
Proof.
  intros Hnp. revert p. induction log as [|e log IH]; intros p; [done|]. cbn.
  pose proof (Hnp p e). by destruct (apply p e) as [p' [[]|er|]].
Qed.

Lemma recovered_no_panic log snap :
  (forall p e, (apply p e).2 <> Panic) -> recovered log snap <> Panic.
Proof.
  intros Hnp. destruct snap as [[p c]|]; [|done]. cbn.
  pose proof (replay_no_panic p (drop (S (N.to_nat c)) log) Hnp). by destruct (replay _ _).
Qed.

(** Whatever messages a store receives (any but a purge, with room for the events), it never
    panics and each answer and each change of its storage is one that the abstract machine
    allows: a log of events that only grows at its end or has its last event replaced, and one
    snapshot; a refused write leaves the log as it was. *)
Theorem session_refines_log msgs st w log snap st' w' rs :
  running st w log snap -> session_ok log msgs ->
  (StoreCommand.Recover ∈ msgs -> forall p e, (apply p e).2 <> Panic) ->
  run_commands msgs (st, w) = ((st', w'), rs) ->
  exists resps log' snap', rs = Ok <$> resps /\
    spec_run (log, snap) msgs resps (log', snap') /\ running st' w' log' snap'.
Proof.
  revert st w log snap rs.
  induction msgs as [|msg msgs IH]; intros st w log snap rs Hr Hok Hnp; cbn.
  { intros [= <- <- <-]. exists [], log, snap. split_and!; [done|constructor|done]. }
  destruct (handle_message msg (st, w)) as [[st1 w1] r] eqn:Hm.
  destruct (handle_refines _ _ _ _ _ _ _ _ Hr (session_ok_head _ _ _ Hok) Hm)
    as [(resp & log1 & snap1 & -> & Hs & Hr1)|(_ & -> & Hpan)];
    [|apply recovered_no_panic in Hpan; [done|apply Hnp; by left]].
  destruct (run_commands msgs (st1, w1)) as [[st2 w2] rs1] eqn:Hrun. intros [= <- <- <-].
  destruct (IH _ _ _ _ _ Hr1 (session_ok_tail _ _ _ _ _ _ _ Hok Hs)
              (fun Hin => Hnp (list_elem_of_further _ _ _ Hin)) Hrun)
    as (resps & log2 & snap2 & -> & Hsr & Hr2).
  exists (resp :: resps), log2, snap2. split_and!; [done|by econstructor|done].
Qed.

(** ** Recovery *)

(** C5: When the snapshot is the state after the events up to its counter, recovery answers the
    state after the whole log; it fails with the error of an event that does not apply, or when
    the storage refuses the snapshot that follows the replay. *)
Theorem recovery_replays_the_log st w log p0 p c :
  running st w log (Some (p, c)) ->
  replay p0 (take (S (N.to_nat c)) log) = Ok p ->
  match replay p0 log with
  | Ok p' =>
      (recover (E:=E) (st, w)).2 = Ok (Some p') \/
      exists er, (snapshot p' (at_counters st (counter_of log) c, w)).2 = Err er /\
                 (recover (E:=E) (st, w)).2 = Err er
  | Err er => (recover (E:=E) (st, w)).2 = Err er
  | Panic => (recover (E:=E) (st, w)).2 = Panic
  end.
Proof.
  intros Hr Hp.
  assert (replay p0 log = replay p (drop (S (N.to_nat c)) log)) as ->.
  { pose proof (replay_app p0 (take (S (N.to_nat c)) log) (drop (S (N.to_nat c)) log)) as Ha.
    by rewrite take_drop, Hp in Ha. }
  rewrite !(recover_eq _ _ _ _ Hr). pose proof (r_snap _ _ _ _ Hr) as Hs. cbn in Hs |- *.
  case_decide as Hne.
  2: { rewrite drop_up_to_date by lia. by left. }
  destruct (replay p _) as [p'|er|]; [|done..].
  destruct (snapshot p' _) as [[st1 w1] r1] eqn:Hsn.
  pose proof (snapshot_running _ _ _ _ _ _ _ _ (running_at_counters _ _ _ _ c Hr) Hsn).
  destruct r1 as [u|er|]; cbn; [by left|right; eauto|done].
Qed.

(** The log of a store that was snapshotted before its first event. *)
Lemma persist_all_running es st w log snap st' w' rs :
  running st w log snap -> (N.of_nat (length log + length es) <= u64_size)%N ->
  run_commands (StoreCommand.Persist <$> es) (st, w) = ((st', w'), rs) ->
  rs = replicate (length es) (Ok StoreResponse.Persisted) ->
  running st' w' (log ++ es) snap.
Proof.
  revert st w log rs. induction es as [|e es IH]; intros st w log rs Hr Hl; cbn.
  { intros [= <- <- <-] _. by rewrite app_nil_r. }
  unfold respond. destruct (persist e (st, w)) as [[st1 w1] r1] eqn:Hp.
  cbn in Hl. pose proof (persist_running _ _ _ _ _ _ _ _ Hr ltac:(lia) Hp) as Hr1.
  destruct r1 as [[]|er|]; [| |done]; destruct (run_commands _ (st1, w1)) as [s2 rs2] eqn:Hrun;
    intros [= -> <-]; intros Hrs; [|done].
  injection Hrs as Hrs. rewrite cons_middle, app_assoc.
  eapply IH; [exact Hr1| |exact Hrun|done]. rewrite length_app. cbn. lia.
Qed.

Lemma run_commands_length msgs s s' rs :
  run_commands msgs s = (s', rs) -> (length rs <= length msgs)%nat.
Proof.
  revert s rs. induction msgs as [|msg msgs IH]; intros s rs; cbn; [by intros [= <- <-]|].
  destruct (handle_message msg s) as [s1 [resp|er|]];
    [destruct (run_commands msgs s1) eqn:Hr..|]; intros [= <- <-]; cbn; [..|lia];
    apply IH in Hr; lia.
Qed.

Lemma run_commands_app msgs msgs' s :
  run_commands (msgs ++ msgs') s =
    match run_commands msgs s with
    | (s', rs) =>
        match last rs with
        | Some Panic => (s', rs)
        | _ => let '(s'', rs') := run_commands msgs' s' in (s'', rs ++ rs')
        end
    end.
Proof.
  revert s. induction msgs as [|msg msgs IH]; intros s; cbn.
  { by destruct (run_commands msgs' s). }
  destruct (handle_message msg s) as [s1 [resp|er|]]; [| |done]; rewrite IH;
    destruct (run_commands msgs s1) as [s2 rs]; (destruct rs as [|r rs];
      [by destruct (run_commands msgs' s2)|rewrite last_cons_cons]);
    destruct (last (r :: rs)) as [[| |]|]; by destruct (run_commands msgs' s2).
Qed.

(** A store that is snapshotted before its first event recovers the snapshot with all events but
    the first one: the counter of that snapshot is also the number of the first event. *)
Theorem recovery_skips_the_first_event st w p0 e es st' w' r :
  running (E:=E) st w [] None -> (N.of_nat (S (length es)) <= u64_size)%N ->
  run_commands (StoreCommand.Snapshot p0 :: (StoreCommand.Persist <$> e :: es)
                ++ [StoreCommand.Recover]) (st, w)
    = ((st', w'), Ok StoreResponse.Snapshotted
                  :: replicate (S (length es)) (Ok StoreResponse.Persisted) ++ [r]) ->
  match replay p0 es with
  | Ok p => r = Ok (StoreResponse.State (Some p)) \/ exists er, r = Ok (StoreResponse.Error er)
  | Err er => r = Ok (StoreResponse.Error er)
  | Panic => r = Panic
  end.
Proof.
  intros Hr Hl. cbn [run_commands app].
  destruct (handle_message (StoreCommand.Snapshot p0) (st, w)) as [[st1 w1] r1] eqn:Hs.
  cbn in Hs. unfold respond in Hs.
  destruct (snapshot p0 (st, w)) as [[st1' w1'] r1'] eqn:Hs'.
  pose proof (snapshot_running _ _ _ _ _ _ _ _ Hr Hs') as Hr1.
  destruct r1' as [[]|er|]; injection Hs as <- <- <-;
    [| destruct (run_commands _ _); by intros [=] | done].
  rewrite run_commands_app.
  destruct (run_commands (StoreCommand.Persist <$> e :: es) (st1', w1')) as [[st2 w2] rs] eqn:Hp.
  set (ok := Ok StoreResponse.Persisted).
  pose proof (run_commands_length _ _ _ _ Hp) as Hlen. rewrite length_fmap in Hlen.
  intros Hrun.
  assert (rs = replicate (S (length es)) ok /\
          exists s2, run_commands [StoreCommand.Recover] (st2, w2) = (s2, [r])) as [-> [[st3 w3] Hrec]].
  { destruct (last rs) as [[resp|er|]|] eqn:Hlast.
    3: { injection Hrun as <- <- ->. exfalso.
         assert (length (replicate (S (length es)) ok ++ [r]) <= length (e :: es)) as Hc by done.
         rewrite length_app, length_replicate in Hc. cbn in Hc. lia. }
    all: destruct (run_commands [StoreCommand.Recover] (st2, w2)) as [s2 rs2] eqn:Hrec;
      injection Hrun as -> Hrs.
    all: pose proof Hrec as Hrec'; cbn in Hrec';
      destruct (respond _ _ _) as [s3 [r3|er3|]]; injection Hrec' as <- <-;
      apply (app_inj_tail rs (ok :: replicate (length es) ok)) in Hrs as [-> <-]; eauto. }
  apply (persist_all_running (e :: es) _ _ _ _ _ _ _ Hr1) in Hp; [|done|done]. cbn in Hp.
  cbn in Hrec. unfold respond in Hrec.
  destruct (recover (st2, w2)) as [[st4 w4] r4] eqn:Hr4.
  pose proof (recover_running _ _ _ _ _ _ _ Hp Hr4) as Hrr. cbn in Hrr.
  rewrite drop_0 in Hrr.
  destruct (replay p0 es) as [p|er|]; cbn in Hrr.
  - destruct r4 as [a|er|]; [destruct Hrr as [-> _]| |done]; injection Hrec as _ _ <-; eauto.
  - destruct Hrr as [-> _]. by injection Hrec as _ _ <-.
  - subst r4. by injection Hrec as _ _ <-.
Qed.

(** After a light persistence that succeeded, recovery answers the state that was given with the
    event, the last event is that event, and the counter is as it was. *)
Theorem light_persistence_recovers_the_state st w log snap e p st1 w1 :
  running st w log snap -> persist_state e p (st, w) = ((st1, w1), Ok tt) ->
  (recover (E:=E) (st1, w1)).2 = Ok (Some p) /\
  last_event st1 (db w1) = Ok (Some e) /\
  event_counter st1 = event_counter st.
Proof.
  intros Hr Hp. pose proof (persist_state_running _ _ _ _ _ _ _ _ _ Hr Hp) as Hr1. cbn in Hr1.
  rewrite (recover_eq _ _ _ _ Hr1), (holds_last_event _ _ _ _ (r_holds _ _ _ _ Hr1)).
  rewrite (r_counter _ _ _ _ Hr1), (r_counter _ _ _ _ Hr), counter_of_overwrite.
  cbn. rewrite decide_False by auto. cbn. split_and!; [done| |done].
  unfold overwrite_last. by rewrite last_snoc.
Qed.

(** ** Opening a store *)

(** The key box of a password. *)
Definition box_of (password : option bytes) (kb : option EncryptedMem) : Prop :=
  match password with
  | Some key => exists b, kb = Some b /\ box_encrypt key = Ok b
  | None => kb = None
  end.

Lemma new_eq `{DbManager W M C T} (m : M) name prefix password d d1 d2 c t kb log snap :
  box_of password kb ->
  create_collection d m (name +:+ "_events") prefix = (d1, Ok c) ->
  create_state d1 m (name +:+ "_states") prefix = (d2, Ok t) ->
  holds (mk_store 0 0 c t kb) d2 log snap ->
  new d m name prefix password = (d2, Ok (mk_store (counter_of log) 0 c t kb)).
Proof.
  intros Hkb Hc Ht Hh. unfold new.
  assert (match password with
          | Some key => map_err (fun m => StoreError.Store ("Can't encrypt password: " +:+ m))
                          (fmap Some (box_encrypt key))
          | None => Ok None end = Ok kb) as ->.
  { destruct password as [key|]; cbn in Hkb; [|by subst].
    destruct Hkb as (b & -> & Hb). by rewrite Hb. }
  rewrite Hc, Ht. pose proof (holds_last_entry _ _ _ _ Hh) as Hl. cbn in Hl.
  destruct (last log) as [e|] eqn:He.
  - destruct Hl as (b & -> & _). cbn. pose proof (h_length _ _ _ _ Hh).
    by rewrite parse_fmt020 by (unfold counter_of; u64_lia).
  - apply last_None in He. subst log. by rewrite Hl.
Qed.

(** A store opened on storage that holds a log has the counter of the last event, so that it
    goes on where the log ends. *)
Theorem new_restores_the_counter `{DbManager W M C T} (m : M) name prefix password d d1 d2 c t kb
    log snap rng n :
  box_of password kb ->
  create_collection d m (name +:+ "_events") prefix = (d1, Ok c) ->
  create_state d1 m (name +:+ "_states") prefix = (d2, Ok t) ->
  holds (mk_store 0 0 c t kb) d2 log snap -> snap_ok log snap ->
  rng_ok (mk_sworld d2 rng n) ->
  exists st, new d m name prefix password = (d2, Ok st) /\
    running st (mk_sworld d2 rng n) log snap.
Proof.
  intros Hkb Hc Ht Hh Hs Hrng. exists (mk_store (counter_of log) 0 c t kb).
  split; [by eapply new_eq|]. constructor; [by apply (holds_counters (mk_store 0 0 c t kb))|done..].
Qed.

(** ** Encryption *)

(** What encrypt produces decrypts to the data under the same key, starts with the nonce that
    was drawn, and consumes one nonce of the generator. *)
Theorem encrypted_data_round_trips key data st w s c :
  length key = 32 -> rng_ok w ->
  encrypt key data (st, w) = (s, Ok c) ->
  decrypt key c = Ok data /\ take NONCE_SIZE c = osrng w (drawn w) /\
  s = (st, mk_sworld (db w) (osrng w) (S (drawn w))).
Proof.
  intros Hk Hw. destruct (encrypt_spec key data st w Hk Hw) as (r & Heq & _ & Hd).
  intros Hs. pose proof Hs as Hs'. rewrite Heq in Hs. injection Hs as <- ->.
  split_and!; [by apply Hd| |unfold drew; by rewrite Nat.add_1_r].
  unfold encrypt, cipher_new in Hs'. rewrite decide_True in Hs' by done.
  unfold mbind, stM_bind, liftM, generate_nonce in Hs'. cbn in Hs'.
  destruct (aead_encrypt key _ data); cbn in Hs'; [|done..]. injection Hs' as <-.
  by rewrite take_app_length' by (by rewrite Hw).
Qed.

(** Reading with a password a last event that was stored without one and is shorter than a nonce
    panics instead of failing. *)
Theorem short_plaintext_panics st d kb key k data :
  key_box st = Some kb -> box_decrypt kb = Ok key ->
  last_entry d (events_c st) = Ok (Some (k, data)) -> length data < NONCE_SIZE ->
  last_event (E:=E) st d = Panic.
Proof.
  intros Hkb Hk Hl Hd. unfold last_event. rewrite Hl. cbn.
  unfold open_event, open_sealed. rewrite Hkb, Hk. unfold decrypt, cipher_new.
  destruct (decide (length key = 32)); [cbn|done].
  by destruct (decide (length data < NONCE_SIZE)).
Qed.

(** When the key box of an encrypted store does not open, a snapshot succeeds and stores the
    state unencrypted, whereas persisting an event is refused. *)
Theorem snapshot_fails_open st w p kb m data d1 :
  key_box st = Some kb -> box_decrypt kb = Err m ->
  encode_to_vec (p, event_counter st) = Ok data ->
  st_put (db w) (states_s st) data = (d1, Ok tt) ->
  (snapshot p (st, w)).2 = Ok tt /\ db (snapshot p (st, w)).1.2 = d1 /\
  forall e, (persist e (st, w)).2 = Err (StoreError.Store "Can't decrypt key").
Proof.
  intros Hkb Hm He Hp.
  assert (snapshot p (st, w)
          = ((at_counters st (event_counter st) (event_counter st),
              mk_sworld d1 (osrng w) (drawn w)), Ok tt)) as ->.
  { unfold snapshot, seal_state, on_db, self, set_state_counter, mbind, stM_bind, liftM.
    destruct st as [ec sc ev ss kx]. cbn in *. subst kx.
    by rewrite He; cbn; rewrite Hm; cbn; rewrite Hp. }
  split_and!; [done..|]. intros e.
  unfold persist, seal_event, mbind, stM_bind, self. cbn. by rewrite Hkb, Hm.
Qed.

(** ** Purging *)

(** A purged store holds nothing, but its counter is as it was. *)
Lemma purge_holds st w log snap st1 w1 :
  running st w log snap -> purge (st, w) = ((st1, w1), Ok tt) ->
  st1 = st /\ holds (E:=E) st (db w1) [] None /\ osrng w1 = osrng w.
Proof.
  intros Hr. unfold purge, on_db, mbind, stM_bind.
  pose proof (r_holds _ _ _ _ Hr) as Hh.
  destruct (coll_purge (db w) (events_c st)) as [d1 r1] eqn:Hc.
  destruct (coll_purge_law _ _ _ _ (holds_coll_inv _ _ _ _ Hh) Hc) as [_ Hv].
  destruct (coll_purge_frame _ _ _ _ _ (h_separate _ _ _ _ Hh) Hc) as [Hsep Hst].
  destruct r1 as [[]|er|]; [|done..]. cbn.
  destruct (st_purge d1 (states_s st)) as [d2 r2] eqn:Hs.
  destruct (st_purge_law _ _ _ _ (proj2 (separate_inv _ _ _ Hsep)) Hs) as [_ Hsv].
  destruct (st_purge_frame _ _ _ _ _ Hsep Hs) as [Hsep2 Hcv].
  destruct r2 as [[]|er|]; intros [=]; subst. cbn in *. split_and!; [done| |done].
  constructor; [done|apply Hh|done|done| |done].
  intros k b. by rewrite Hcv, Hv.
Qed.

(** The only entry of a collection is its last event. *)
Lemma sole_last_event st d k b e :
  coll_inv d (events_c st) -> open_event st b = Ok e ->
  (forall k', coll_view d (events_c st) k' = if decide (k' = k) then Some b else None) ->
  last_event st d = Ok (Some e).
Proof.
  intros Hi Ho Hv. pose proof (last_entry_law d (events_c st) Hi) as Hl. unfold last_event.
  destruct (last_entry d (events_c st)) as [[[k' b']|]|er|]; [| |done..].
  - destruct Hl as [Hk _]. rewrite Hv in Hk. case_decide; [|done]. injection Hk as <-. cbn. by rewrite Ho.
  - specialize (Hl k). by rewrite Hv, decide_True in Hl.
Qed.

(** C40: After a purge of a store with at least two events the counter is as before, so the next
    event is stored beyond it: it is the last event, but the range of events from 0 is empty and
    recovery finds no state. *)
Theorem purge_hides_later_events st w log snap st1 w1 e st2 w2 :
  running st w log snap -> 2 <= length log -> (counter_of log + 1 < u64_size)%N ->
  purge (st, w) = ((st1, w1), Ok tt) ->
  persist e (st1, w1) = ((st2, w2), Ok tt) ->
  last_event st1 (db w1) = Ok (@None E) /\
  event_counter st2 = (counter_of log + 1)%N /\
  last_event st2 (db w2) = Ok (Some e) /\
  (forall to, events st2 (db w2) 0 to = Ok (@nil E)) /\
  (recover (P:=P) (E:=E) (st2, w2)).2 = Ok None.
Proof.
  intros Hr Hc' Hb Hp. assert (counter_of log <> 0%N) as Hc by (unfold counter_of; lia).
  destruct (purge_holds _ _ _ _ _ _ Hr Hp) as (-> & Hh & Hrng).
  assert (rng_ok w1) as Hw1 by (intros i; rewrite Hrng; apply Hr).
  unfold persist. unfold mbind at 1, stM_bind at 1.
  destruct (seal_event_spec e st w1 (h_key _ _ _ _ Hh) Hw1) as (n & res & -> & _ & Hop).
  destruct res as [b|er|]; [|done..]. specialize (Hop _ eq_refl).
  unfold next_event_number, mbind, stM_bind, self, liftM, tryM, on_db. cbn.
  rewrite (r_counter _ _ _ _ Hr), decide_True by done. rewrite u64_succ_Ok by done.
  destruct (coll_put (db (drew w1 n)) (events_c st) (fmt020 (counter_of log + 1)) b)
    as [d2 rp] eqn:Hput. cbn in Hput.
  pose proof (fmt020_utf8 (counter_of log + 1)) as Hhd.
  destruct (coll_put_law _ _ _ _ _ _ (holds_coll_inv _ _ _ _ Hh) Hhd Hput) as [Hi Hv].
  destruct (coll_put_frame _ _ _ _ _ _ _ (h_separate _ _ _ _ Hh) Hhd Hput) as [Hsep Hst].
  destruct rp as [[]|er|]; cbn; intros [= <- <-]. cbn in *.
  assert (forall k, coll_view (db w1) (events_c st) k = None) as Hno.
  { intros k. destruct (coll_view _ _ _) eqn:Hx; [|done].
    destruct (h_only _ _ _ _ Hh _ _ Hx) as (i & Hi' & _). cbn in Hi'. lia. }
  split_and!; [by rewrite (holds_last_event _ _ _ _ Hh)|done| | |].
  - apply (sole_last_event st d2 (fmt020 (counter_of log + 1)) b); [done..|].
    intros k. by rewrite Hv, Hno.
  - intros to. unfold events. cbn. destruct (N.to_nat (to + 1 - 0)); [done|]. cbn.
    pose proof (coll_get_law d2 (events_c st) (fmt020 0) Hi) as Hg. rewrite Hv in Hg.
    rewrite decide_False, Hno in Hg; [by destruct Hg as [m ->]|].
    intros Heq%fmt020_inj; u64_lia.
  - unfold recover, mbind, stM_bind, self, world, liftM. cbn.
    unfold get_state. cbn. pose proof (st_get_law d2 (states_s st)) as Hg.
    rewrite Hst in Hg. pose proof (h_snap _ _ _ _ Hh) as Hsn. cbn in Hsn. rewrite Hsn in Hg.
    destruct Hg as [m ->]; [by apply (separate_inv _ _ _ Hsep)|done].
Qed.

End Correct.

(** ** Witnesses

    The actor of the tests over the memory backend, with and without a password. *)

Lemma demo_holds password :
  match password with Some key => length key = 32 | None => True end ->
  holds (P:=TestActor) (E:=TestEvent)
    (mk_store 0 0 (Memory.mk_store "store_events" "prefix" 0)
       (Memory.mk_store "store_states" "prefix" 1) password)
    (demo_open password).1 [] None.
Proof.
  intros Hk.
  assert (trees (demo_open password).1 = {[0 := mk_lock false ∅; 1 := mk_lock false ∅]}) as Ht
    by (destruct password; vm_compute; reflexivity).
  constructor; cbn; [|by destruct password as [key|]; [exists key|]|done|done| |].
  - split_and!; [exists ∅; unfold has_tree; rewrite Ht|exists ∅; unfold has_tree; by rewrite Ht|done].
    split; [done|]. intros k v. by rewrite lookup_empty.
  - intros k b. unfold mem_coll_view, tree_lookup. rewrite Ht. vm_compute. discriminate.
  - unfold mem_st_view, tree_lookup. by rewrite Ht.
Qed.

Lemma demo_running password :
  match password with Some key => length key = 32 | None => True end ->
  running (P:=TestActor) (E:=TestEvent) (demo_store password) (demo_world password) [] None.
Proof.
  intros Hk. constructor; [|done|by destruct password|done].
  replace (demo_store password)
    with (mk_store 0 0 (Memory.mk_store "store_events" "prefix" 0)
            (Memory.mk_store "store_states" "prefix" 1) password)
    by (destruct password; vm_compute; reflexivity).
  by apply demo_holds.
Qed.

Definition demo_state : Store MemoryStore MemoryStore * World MemWorld :=
  (demo_store (Some demo_key), demo_world (Some demo_key)).

Definition demo_session : list (StoreCommand.StoreCommand TestActor TestEvent) :=
  [StoreCommand.Persist 5%Z; StoreCommand.Persist 7%Z; StoreCommand.LastEvent].

Lemma session_refines_log_witness :
  exists resps log' snap',
    (run_commands demo_session demo_state).2 = Ok <$> resps /\
    spec_run ([], None) demo_session resps (log', snap') /\
    last resps = Some (StoreResponse.LastEvent (Some 7%Z)).
Proof.
  destruct (run_commands demo_session demo_state) as [[st w] rs] eqn:Hrun.
  destruct (session_refines_log demo_session (demo_store (Some demo_key))
              (demo_world (Some demo_key)) [] None st w rs
              (demo_running (Some demo_key) eq_refl) ltac:(by split; [|repeat constructor])
              ltac:(done) Hrun) as (resps & log' & snap' & Hrs & Hs & _).
  exists resps, log', snap'. split_and!; [done..|].
  assert (rs = [Ok StoreResponse.Persisted; Ok StoreResponse.Persisted;
                Ok (StoreResponse.LastEvent (Some 7%Z))]) as Hr.
  { change rs with (st, w, rs).2. rewrite <- Hrun. vm_compute. reflexivity. }
  rewrite Hr in Hrs. destruct resps as [|r1 [|r2 [|r3 [|]]]]; by inversion Hrs.
Defined.

(** Two events, a snapshot of their state and a third event. *)
Definition demo_logged : Store MemoryStore MemoryStore * World MemWorld :=
  (run_commands (P:=TestActor) (StoreCommand.Persist <$> [5%Z; 7%Z]) demo_state).1.

Lemma demo_logged_running :
  running (P:=TestActor) (E:=TestEvent) demo_logged.1 demo_logged.2 [5%Z; 7%Z] None.
Proof.
  refine (persist_all_running [5%Z; 7%Z] _ _ [] None _ _
            (replicate 2 (Ok StoreResponse.Persisted)) (demo_running (Some demo_key) eq_refl) _ _ _);
    [done|vm_compute; reflexivity|done].
Qed.

Definition demo_snapped : Store MemoryStore MemoryStore * World MemWorld :=
  (snapshot (mk_test 2 12) demo_logged).1.

Lemma demo_snapped_running :
  running (P:=TestActor) (E:=TestEvent) demo_snapped.1 demo_snapped.2 [5%Z; 7%Z]
    (Some (mk_test 2 12, 1%N)).
Proof.
  assert (snapshot (mk_test 2 12) (demo_logged.1, demo_logged.2)
          = ((demo_snapped.1, demo_snapped.2), Ok tt)) as Hs by (vm_compute; reflexivity).
  exact (snapshot_running _ _ _ _ _ _ _ _ demo_logged_running Hs).
Qed.

Definition demo_third : Store MemoryStore MemoryStore * World MemWorld :=
  (persist 9%Z demo_snapped).1.

Lemma demo_third_running :
  running (P:=TestActor) (E:=TestEvent) demo_third.1 demo_third.2 [5%Z; 7%Z; 9%Z]
    (Some (mk_test 2 12, 1%N)).
Proof.
  assert (persist 9%Z (demo_snapped.1, demo_snapped.2)
          = ((demo_third.1, demo_third.2), Ok tt)) as Hs by (vm_compute; reflexivity).
  exact (persist_running _ _ _ _ _ _ _ _ demo_snapped_running ltac:(done) Hs).
Qed.

Lemma recovery_replays_the_log_witness :
  (recover (P:=TestActor) (E:=TestEvent) (demo_third.1, demo_third.2)).2
    = Ok (Some (mk_test 3 21)).
Proof.
  pose proof (recovery_replays_the_log _ _ _ (mk_test 0 0) _ _ demo_third_running eq_refl) as Hr.
  cbn in Hr. destruct Hr as [Hr|(er & Hr & _)]; [exact Hr|].
  vm_compute in Hr. discriminate.
Defined.

Lemma recovery_skips_the_first_event_witness :
  exists r, (run_commands (P:=TestActor) (E:=TestEvent)
     [StoreCommand.Snapshot (mk_test 0 0); StoreCommand.Persist 5%Z; StoreCommand.Persist 7%Z;
      StoreCommand.Recover] demo_state).2
   = [Ok StoreResponse.Snapshotted; Ok StoreResponse.Persisted; Ok StoreResponse.Persisted; r] /\
   (r = Ok (StoreResponse.State (Some (mk_test 1 7))) \/ exists er, r = Ok (StoreResponse.Error er))
   /\ replay (mk_test 0 0) [5%Z; 7%Z] = Ok (mk_test 2 12).
Proof.
  eexists. split; [vm_compute; reflexivity|]. split; [|reflexivity].
  refine (recovery_skips_the_first_event (demo_store (Some demo_key)) (demo_world (Some demo_key))
            (mk_test 0 0) 5%Z [7%Z] _ _ _ (demo_running (Some demo_key) eq_refl) _ _); [done|].
  vm_compute. reflexivity.
Defined.

Lemma light_persistence_recovers_the_state_witness :
  exists st1 w1, persist_state 9%Z (mk_test 3 21) (demo_logged.1, demo_logged.2)
      = ((st1, w1), Ok tt) /\
    (recover (P:=TestActor) (E:=TestEvent) (st1, w1)).2 = Ok (Some (mk_test 3 21)).
Proof.
  do 2 eexists. split; [vm_compute; reflexivity|].
  refine (proj1 (light_persistence_recovers_the_state demo_logged.1 demo_logged.2 _ _ 9%Z
                   (mk_test 3 21) _ _ demo_logged_running _)).
  vm_compute. reflexivity.
Defined.

Lemma new_restores_the_counter_witness :
  exists st, new demo_mgr.1 demo_mgr.2 "store" "prefix" (Some demo_key)
      = ((demo_open (Some demo_key)).1, Ok st) /\
    running (P:=TestActor) (E:=TestEvent) st (mk_sworld (demo_open (Some demo_key)).1 demo_rng 0)
      [] None.
Proof.
  refine (new_restores_the_counter demo_mgr.2 "store" "prefix" (Some demo_key) demo_mgr.1
            (MemoryManager.create_collection demo_mgr.1 demo_mgr.2 "store_events" "prefix").1 _
            _ _ (Some demo_key) [] None demo_rng 0 _ _ _ (demo_holds (Some demo_key) eq_refl) I _);
    [exists demo_key; done|vm_compute; reflexivity..|done].
Defined.

Lemma encrypted_data_round_trips_witness :
  exists s c, encrypt demo_key [Byte.x01] (demo_store None, demo_world None) = (s, Ok c) /\
    decrypt demo_key c = Ok [Byte.x01].
Proof.
  do 2 eexists. split; [vm_compute; reflexivity|].
  refine (proj1 (encrypted_data_round_trips demo_key [Byte.x01] (demo_store None)
                   (demo_world None) _ _ _ _ _)); [done|done|vm_compute; reflexivity].
Defined.

(** A store written without a password and opened with one. *)
Definition demo_clear : Store MemoryStore MemoryStore * World MemWorld :=
  (persist 5%Z (demo_store None, demo_world None)).1.

Definition demo_locked : Store MemoryStore MemoryStore :=
  mk_store 0 0 (events_c demo_clear.1) (states_s demo_clear.1) (Some demo_key).

Lemma short_plaintext_panics_witness :
  last_event (E:=TestEvent) demo_locked (db demo_clear.2) = Panic.
Proof.
  refine (short_plaintext_panics demo_locked (db demo_clear.2) demo_key demo_key
            (fmt020 0) (bits (encode 5%Z)) _ _ _ _);
    [vm_compute; reflexivity..|vm_compute; lia].
Defined.

(** A key box that does not open. *)
Definition broken_box : MemSecurity := {|
  EncryptedMem := unit;
  box_encrypt := fun _ => Ok tt;
  box_decrypt := fun _ => Err "mac mismatch";
|}.

Definition broken_store : @Store MemoryStore MemoryStore broken_box :=
  @mk_store _ _ broken_box 0 0 (Memory.mk_store "store_events" "prefix" 0)
    (Memory.mk_store "store_states" "prefix" 1) (Some tt).

Lemma snapshot_fails_open_witness :
  (snapshot (mk_test 0 0) (broken_store, demo_world None)).2 = Ok tt /\
  st_get (db (snapshot (mk_test 0 0) (broken_store, demo_world None)).1.2)
    (Memory.mk_store "store_states" "prefix" 1) = Ok (bits (encode (mk_test 0 0, 0%N))).
Proof.
  destruct (snapshot_fails_open (E:=TestEvent) broken_store
              (demo_world None) (mk_test 0 0) tt "mac mismatch" (bits (encode (mk_test 0 0, 0%N)))
              (MemoryState.put (demo_open None).1 (Memory.mk_store "store_states" "prefix" 1)
                 (bits (encode (mk_test 0 0, 0%N)))).1 eq_refl eq_refl)
    as (Hs & Hd & _); [vm_compute; reflexivity..|].
  split; [exact Hs|]. rewrite Hd. vm_compute. reflexivity.
Defined.

Definition demo_purged : Store MemoryStore MemoryStore * World MemWorld := (purge demo_logged).1.

Lemma purge_hides_later_events_witness :
  exists st2 w2, persist 9%Z (demo_purged.1, demo_purged.2) = ((st2, w2), Ok tt) /\
    last_event st2 (db w2) = Ok (Some 9%Z) /\
    (forall to, events st2 (db w2) 0 to = Ok (@nil TestEvent)) /\
    (recover (P:=TestActor) (E:=TestEvent) (st2, w2)).2 = Ok None.
Proof.
  do 2 eexists. split; [vm_compute; reflexivity|].
  refine (proj2 (proj2 (purge_hides_later_events demo_logged.1 demo_logged.2 _ _ demo_purged.1
            demo_purged.2 9%Z _ _ demo_logged_running _ _ _ _)));
    [cbn; lia|vm_compute; reflexivity..].
Defined.
