(* ===== verification/Crash.v ===== *)
(** * Crashes of the storage

    A store whose process dies between two writes leaves the storage as the
    writes before made it. [Fused] is a backend that admits a number of writes
    and refuses the others: its storage after a session is the one that a crash
    leaves, and it satisfies the laws of the backend under it, so what holds of
    every session of [StoreCorrect] holds up to a crash at any write. The store
    is then opened anew on the storage that is left. *)

From S2P Require Import Prelude Path Errors Database Memory Store TestActor StoreSpec StoreCorrect.
Import StoreError.
Import Store.

(** The storage under it and the number of writes before the crash. *)
Record Fused (W : Type) : Type := mk_fused { base : W; fuse : nat }.
Arguments mk_fused {W} _ _.
Arguments base {W} _.
Arguments fuse {W} _.

Section Fused.
Context {W C T : Type} `{Collection W C} `{State W T}.

Definition crashed : Error := StoreError.Store "crashed".

(** A write, while there are writes left. *)
Definition burn (f : Fused W) (write : W -> W * outcome Error unit) : Fused W * outcome Error unit :=
  match fuse f with
  | O => (f, Err crashed)
  | S n => let '(d, r) := write (base f) in (mk_fused d n, r)
  end.

#[export] Instance fused_collection : Collection (Fused W) C := {
  coll_name := coll_name (W:=W);
  coll_get f := coll_get (base f);
  coll_put f c k v := burn f (fun d => coll_put d c k v);
  coll_del f c k := burn f (fun d => coll_del d c k);
  coll_purge f c := burn f (fun d => coll_purge d c);
  coll_iter f := coll_iter (base f);
}.

#[export] Instance fused_state : State (Fused W) T := {
  st_name := st_name (W:=W);
  st_get f := st_get (base f);
  st_put f s v := burn f (fun d => st_put d s v);
  st_del f s := burn f (fun d => st_del d s);
  st_purge f s := burn f (fun d => st_purge d s);
}.

(** A refused write changes nothing; the others are those of the backend. *)
Lemma burn_cases f write f' r :
  burn f write = (f', r) ->
  (f' = f /\ r = Err crashed) \/ (exists d, write (base f) = (d, r) /\ base f' = d).
Proof.
  unfold burn. destruct (fuse f); [intros [= <- <-]; by left|].
  destruct (write (base f)) as [d r'] eqn:Hw. intros [= <- <-]. right. by exists d.
Qed.

End Fused.

#[export] Instance fused_collection_laws `{HC : CollectionLaws W C} : CollectionLaws (Fused W) C.
Proof.
  refine {| coll_inv := fun (f : Fused W) (c : C) => coll_inv (base f) c;
            coll_view := fun f c => coll_view (base f) c |}; cbn.
  - intros f c k. apply coll_get_law.
  - intros f c k v f' r Hi Hk [[-> ->]|(d & Hp & <-)]%burn_cases; [done|by eapply coll_put_law].
  - intros f c k f' r Hi [[-> ->]|(d & Hp & <-)]%burn_cases; [done|by eapply coll_del_law].
  - intros f c f' r Hi [[-> ->]|(d & Hp & <-)]%burn_cases; [by auto|by eapply coll_purge_law].
  - intros f c. apply coll_iter_law.
Defined.

#[export] Instance fused_state_laws `{HS : StateLaws W T} : StateLaws (Fused W) T.
Proof.
  refine {| st_inv := fun (f : Fused W) (s : T) => st_inv (base f) s;
            st_view := fun f s => st_view (base f) s |}; cbn.
  - intros f s. apply st_get_law.
  - intros f s v f' r Hi [[-> ->]|(d & Hp & <-)]%burn_cases; [done|by eapply st_put_law].
  - intros f s f' r Hi [[-> ->]|(d & Hp & <-)]%burn_cases; [done|by eapply st_purge_law].
Defined.

#[export] Instance fused_backend_laws `{HB : BackendLaws W C T} : BackendLaws (Fused W) C T.
Proof.
  refine {| separate := fun (f : Fused W) (c : C) (s : T) => separate (base f) c s |}; cbn.
  - intros f c s. apply separate_inv.
  - intros f c s k v f' r Hs Hk [[-> ->]|(d & Hp & <-)]%burn_cases; [done|by eapply coll_put_frame].
  - intros f c s f' r Hs [[-> ->]|(d & Hp & <-)]%burn_cases; [done|by eapply coll_purge_frame].
  - intros f c s v f' r Hs [[-> ->]|(d & Hp & <-)]%burn_cases; [done|by eapply st_put_frame].
  - intros f c s f' r Hs [[-> ->]|(d & Hp & <-)]%burn_cases; [done|by eapply st_purge_frame].
Defined.

Section Crash.
Context {W M C T P E : Type}.
Context `{BackendLaws W C T, !DbManager W M C T}.
Context `{!MemSecurity, !ChaCha, !ChaChaLaws, !BuildMode}.
Context `{!PersistentActor P E, !Bincode E, !BincodeLaws E, !Bincode (P * N), !BincodeLaws (P * N)}.

Implicit Types (st : Store C T) (w : World W) (log : list E) (snap : option (P * N)).
Implicit Types (msgs : list (StoreCommand.StoreCommand P E)) (es : list E).

(** The world of a store that dies after [n] writes, and what is left of it. *)
Definition dying (n : nat) w : World (Fused W) :=
  mk_sworld (mk_fused (db w) n) (osrng w) (drawn w).

Definition left_over (f : World (Fused W)) : World W :=
  mk_sworld (base (db f)) (osrng f) (drawn f).

Lemma holds_fused st (f : Fused W) log snap :
  holds st f log snap <-> holds st (base f) log snap.
Proof. split; intros []; by constructor. Qed.

Lemma running_dying n st w log snap :
  running st w log snap -> running st (dying n w) log snap.
Proof. intros []. constructor; [by apply holds_fused|done..]. Qed.

Lemma running_left_over st f log snap :
  running st f log snap -> running st (left_over f) log snap.
Proof. intros []. constructor; [by apply holds_fused|done..]. Qed.

(** A session of a running store until the crash. *)
Lemma crashed_session n msgs st w log snap st' f rs :
  running st w log snap -> session_ok log msgs ->
  (StoreCommand.Recover ∈ msgs -> forall p e, (apply p e).2 <> Panic) ->
  run_commands msgs (st, dying n w) = ((st', f), rs) ->
  exists resps log' snap', rs = Ok <$> resps /\
    spec_run (log, snap) msgs resps (log', snap') /\
    running st' (left_over f) log' snap'.
Proof.
  intros Hr Hok Hnp Hrun.
  destruct (session_refines_log _ _ _ _ _ _ _ _ (running_dying n _ _ _ _ Hr) Hok Hnp Hrun)
    as (resps & log' & snap' & Hrs & Hs & Hr').
  exists resps, log', snap'. split_and!; [done..|by apply running_left_over].
Qed.

(** The store is opened on what is left: its collection and its state are there,
    and the random generator is another. *)
Lemma reopened st (f : World (Fused W)) log snap (m : M) name prefix password kb rng k :
  running st (left_over f) log snap ->
  box_of password kb -> box_decrypt <$> kb = box_decrypt <$> key_box st ->
  create_collection (base (db f)) m (name +:+ "_events") prefix = (base (db f), Ok (events_c st)) ->
  create_state (base (db f)) m (name +:+ "_states") prefix = (base (db f), Ok (states_s st)) ->
  rng_ok (mk_sworld (base (db f)) rng k) ->
  exists st2, new (base (db f)) m name prefix password = (base (db f), Ok st2) /\
    running st2 (mk_sworld (base (db f)) rng k) log snap.
Proof.
  intros Hr Hbox Hkb Hc Hs Hrng.
  pose proof (holds_rekey _ _ _ _ 0 0 _ (r_holds _ _ _ _ Hr) Hkb) as Hh.
  eexists. split; [exact (new_eq _ _ _ _ _ _ _ _ _ _ _ _ Hbox Hc Hs Hh)|].
  constructor; [by apply (holds_counters (mk_store 0 0 _ _ kb))|done|done|by apply Hr].
Qed.

(** C7: After a crash of the storage at any write of a session without a purge, with room for
    its events and an apply that does not panic, a store opened on what is left runs on a log
    and a snapshot that the abstract machine reaches with the answers that were given. *)
Theorem crash_leaves_a_state_of_the_log n msgs st w log snap st' f rs (m : M) name prefix password
    kb rng k :
  running st w log snap -> session_ok log msgs -> (forall p e, (apply p e).2 <> Panic) ->
  run_commands msgs (st, dying n w) = ((st', f), rs) ->
  box_of password kb -> box_decrypt <$> kb = box_decrypt <$> key_box st' ->
  create_collection (base (db f)) m (name +:+ "_events") prefix = (base (db f), Ok (events_c st')) ->
  create_state (base (db f)) m (name +:+ "_states") prefix = (base (db f), Ok (states_s st')) ->
  rng_ok (mk_sworld (base (db f)) rng k) ->
  exists resps log' snap' st2, rs = Ok <$> resps /\
    spec_run (log, snap) msgs resps (log', snap') /\
    new (base (db f)) m name prefix password = (base (db f), Ok st2) /\
    running st2 (mk_sworld (base (db f)) rng k) log' snap'.
Proof.
  intros Hr Hok Hnp Hrun Hbox Hkb Hc Hs Hrng.
  destruct (crashed_session _ _ _ _ _ _ _ _ _ Hr Hok (fun _ => Hnp) Hrun)
    as (resps & log' & snap' & Hrs & Hsp & Hr').
  destruct (reopened _ _ _ _ _ _ _ _ _ _ _ Hr' Hbox Hkb Hc Hs Hrng) as (st2 & Hn & Hr2).
  by exists resps, log', snap', st2.
Qed.

(** ** Sessions that only persist *)

(** The events whose command was answered with success. *)
Fixpoint acknowledged es (resps : list (StoreResponse.StoreResponse P E)) : list E :=
  match es, resps with
  | e :: es, StoreResponse.Persisted :: resps => e :: acknowledged es resps
  | _ :: es, _ :: resps => acknowledged es resps
  | _, _ => []
  end.

Lemma spec_persists es log snap resps log' snap' :
  spec_run (log, snap) (StoreCommand.Persist <$> es) resps (log', snap') ->
  log' = log ++ acknowledged es resps /\ snap' = snap.
Proof.
  revert log resps. induction es as [|e es IH]; intros log resps Hs; cbn in Hs.
  { inv Hs. by rewrite app_nil_r. }
  inversion Hs as [|? ? resp [log1 snap1] ? resps1 ? Hst Hrun]; subst. inv Hst.
  - destruct (IH _ _ Hrun) as [-> ->]. by rewrite <- app_assoc.
  - by apply IH.
Qed.

Lemma session_ok_persists log es :
  (N.of_nat (length log + length es) <= u64_size)%N ->
  session_ok log (StoreCommand.Persist (P:=P) <$> es).
Proof.
  intros Hl. split; [by rewrite length_fmap|]. apply Forall_fmap, Forall_forall.
  by intros e _.
Qed.

Lemma recover_not_persisted es :
  StoreCommand.Recover ∈ StoreCommand.Persist (P:=P) <$> es -> forall (p : P) (e : E), (apply p e).2 <> Panic.
Proof. by intros (e & ? & _)%list_elem_of_fmap. Qed.

(** C3: After a crash of the storage at any write of a session that persists events, a store
    opened on what is left holds the old log followed by exactly the events whose persistence
    was answered with success, in order. *)
Theorem acknowledged_events_survive_a_crash n es st w log snap st' f rs (m : M) name prefix password
    kb rng k :
  running st w log snap -> (N.of_nat (length log + length es) <= u64_size)%N ->
  run_commands (StoreCommand.Persist <$> es) (st, dying n w) = ((st', f), rs) ->
  box_of password kb -> box_decrypt <$> kb = box_decrypt <$> key_box st' ->
  create_collection (base (db f)) m (name +:+ "_events") prefix = (base (db f), Ok (events_c st')) ->
  create_state (base (db f)) m (name +:+ "_states") prefix = (base (db f), Ok (states_s st')) ->
  rng_ok (mk_sworld (base (db f)) rng k) ->
  exists resps st2, rs = Ok <$> resps /\
    new (base (db f)) m name prefix password = (base (db f), Ok st2) /\
    running st2 (mk_sworld (base (db f)) rng k) (log ++ acknowledged es resps) snap.
Proof.
  intros Hr Hl Hrun Hbox Hkb Hc Hs Hrng.
  destruct (crashed_session _ _ _ _ _ _ _ _ _ Hr (session_ok_persists _ _ Hl)
              (recover_not_persisted es) Hrun)
    as (resps & log' & snap' & Hrs & Hsp & Hr').
  apply spec_persists in Hsp as [-> ->].
  destruct (reopened _ _ _ _ _ _ _ _ _ _ _ Hr' Hbox Hkb Hc Hs Hrng) as (st2 & Hn & Hr2).
  by exists resps, st2.
Qed.

(** ** Light persistence is two writes *)

Lemma encrypt_dying n key data st w :
  encrypt key data (st, dying n w)
  = (let '((st', w'), r) := encrypt key data (st, w) in ((st', dying n w'), r)).
Proof.
  unfold encrypt, mbind, stM_bind, liftM. destruct (cipher_new key); [|done..]. cbn.
  by destruct (aead_encrypt _ _ data).
Qed.

Lemma seal_event_dying n (e : E) st w :
  seal_event e (st, dying n w)
  = (let '((st', w'), r) := seal_event e (st, w) in ((st', dying n w'), r)).
Proof.
  unfold seal_event, mbind, stM_bind, self, liftM. cbn. destruct (key_box st) as [kb|].
  - destruct (box_decrypt kb) as [key|er|]; [|done..].
    destruct (map_err _ _) as [b|er|]; [apply encrypt_dying|done..].
  - by destruct (map_err _ _).
Qed.

Lemma seal_state_dying n data st w :
  seal_state data (st, dying n w)
  = (let '((st', w'), r) := seal_state data (st, w) in ((st', dying n w'), r)).
Proof.
  unfold seal_state, mbind, stM_bind, self, liftM. cbn. destruct (key_box st) as [kb|]; [|done].
  destruct (box_decrypt kb) as [key|er|]; [apply encrypt_dying|done..].
Qed.

(** A snapshot that succeeds is one write. *)
Lemma snapshot_dying n (p : P) st w st1 w1 :
  snapshot p (st, w) = ((st1, w1), Ok tt) ->
  snapshot p (st, dying (S n) w) = ((st1, dying n w1), Ok tt).
Proof.
  unfold snapshot, mbind, stM_bind, self, liftM, set_state_counter. cbn.
  destruct (map_err _ _) as [d|er|]; [|done..]. rewrite seal_state_dying.
  destruct (seal_state d _) as [[st2 w2] [b|er|]]; [|done..]. unfold on_db. cbn.
  destruct (st_put (db w2) (states_s st2) b) as [d' r]. intros [= <- <- ->]. done.
Qed.

(** One that dies after its first write has written the snapshot. *)
Lemma persist_state_dying st w log snap (e : E) (p : P) st1 w1 :
  running st w log snap -> persist_state e p (st, w) = ((st1, w1), Ok tt) ->
  exists n st2 w2, snapshot p (st, drew w n) = ((st2, w2), Ok tt) /\
    persist_state e p (st, dying 1 w) = ((st2, dying 0 w2), Err crashed).
Proof.
  intros Hr. unfold persist_state.
  destruct (seal_event_spec e st w (h_key _ _ _ _ (r_holds _ _ _ _ Hr)) (r_rng _ _ _ _ Hr))
    as (n & res & Hse & _ & _).
  pose proof (seal_event_dying 1 e st w) as Hsd. rewrite Hse in Hsd.
  destruct res as [b|er|]; [|by unfold mbind, stM_bind; rewrite Hse..].
  rewrite (stM_bind_Ok _ _ _ _ _ Hse), (stM_bind_Ok _ _ _ _ _ Hsd).
  destruct (snapshot p (st, drew w n)) as [[st2 w2] [[]|er|]] eqn:Hsn;
    [|by unfold mbind, stM_bind; rewrite Hsn..].
  intros _. exists n, st2, w2. split; [done|].
  by rewrite (stM_bind_Ok _ _ _ _ _ (snapshot_dying 0 _ _ _ _ _ Hsn)).
Qed.

(** C29: A light persistence that crashes between its two writes answers an error and leaves the
    log without the event, but a store opened afterwards recovers the state that has seen it. *)
Theorem light_crash_keeps_the_refused_state st w log snap (e : E) (p : P) st1 w1 :
  running st w log snap -> persist_state e p (st, w) = ((st1, w1), Ok tt) ->
  exists st' f, persist_state e p (st, dying 1 w) = ((st', f), Err crashed) /\
    forall (m : M) name prefix password kb rng k,
    box_of password kb -> box_decrypt <$> kb = box_decrypt <$> key_box st ->
    create_collection (base (db f)) m (name +:+ "_events") prefix = (base (db f), Ok (events_c st)) ->
    create_state (base (db f)) m (name +:+ "_states") prefix = (base (db f), Ok (states_s st)) ->
    rng_ok (mk_sworld (base (db f)) rng k) ->
    exists st2, new (base (db f)) m name prefix password = (base (db f), Ok st2) /\
      last_event st2 (base (db f)) = Ok (last log) /\
      (recover (E:=E) (st2, mk_sworld (base (db f)) rng k)).2 = Ok (Some p).
Proof.
  intros Hr Hp. destruct (persist_state_dying _ _ _ _ _ _ _ _ Hr Hp) as (n & st2 & w2 & Hsn & Heq).
  exists st2, (dying 0 w2). split; [done|].
  pose proof (snapshot_running _ _ _ _ _ _ _ _ (running_drew _ _ _ _ n Hr) Hsn) as Hr2.
  destruct (snapshot_counter _ _ _ _ _ _ Hsn) as (_ & He & Ht & Hk).
  intros m name prefix password kb rng k Hbox Hkb Hc Hs Hrng. rewrite <- He in Hc.
  rewrite <- Ht in Hs. rewrite <- Hk in Hkb.
  destruct (reopened st2 (dying 0 w2) _ _ _ _ _ _ _ _ _ (running_left_over _ (dying 0 w2) _ _
              (running_dying 0 _ _ _ _ Hr2)) Hbox Hkb Hc Hs Hrng) as (st3 & Hn & Hr3).
  exists st3. split; [done|].
  split; [exact (holds_last_event _ _ _ _ (r_holds _ _ _ _ Hr3))|].
  rewrite (recover_eq _ _ _ _ Hr3), decide_False by auto. done.
Qed.

End Crash.

(** ** Witnesses

    The store of the tests, with two events, dies after one more write. *)

Definition crash_commands : list (StoreCommand.StoreCommand TestActor TestEvent) :=
  StoreCommand.Persist <$> [9%Z; 11%Z].

Definition crash_run : (Store MemoryStore MemoryStore * World (Fused MemWorld))
    * list (outcome ActorError.Error (StoreResponse.StoreResponse TestActor TestEvent)) :=
  run_commands crash_commands (demo_logged.1, dying 1 demo_logged.2).

Lemma crash_run_eq :
  run_commands crash_commands (demo_logged.1, dying 1 demo_logged.2)
    = ((crash_run.1.1, crash_run.1.2), crash_run.2).
Proof. vm_compute. reflexivity. Qed.

Lemma crash_run_answers :
  crash_run.2 = [Ok StoreResponse.Persisted; Ok (StoreResponse.Error crashed)].
Proof. vm_compute. reflexivity. Qed.

Lemma crash_run_handles :
  box_of (Some demo_key) (Some demo_key) /\
  box_decrypt <$> Some demo_key = box_decrypt <$> key_box crash_run.1.1 /\
  create_collection (base (db crash_run.1.2)) demo_mgr.2 ("store" +:+ "_events") "prefix"
    = (base (db crash_run.1.2), Ok (events_c crash_run.1.1)) /\
  create_state (base (db crash_run.1.2)) demo_mgr.2 ("store" +:+ "_states") "prefix"
    = (base (db crash_run.1.2), Ok (states_s crash_run.1.1)) /\
  rng_ok (mk_sworld (base (db crash_run.1.2)) demo_rng 0).
Proof. split_and!; [by exists demo_key|vm_compute; reflexivity..|done]. Qed.

Lemma acknowledged_events_survive_a_crash_witness :
  exists st2, new (base (db crash_run.1.2)) demo_mgr.2 "store" "prefix" (Some demo_key)
      = (base (db crash_run.1.2), Ok st2) /\
    running (P:=TestActor) (E:=TestEvent) st2 (mk_sworld (base (db crash_run.1.2)) demo_rng 0)
      [5%Z; 7%Z; 9%Z] None.
Proof.
  destruct crash_run_handles as (Hbox & Hkb & Hc & Hs & Hrng).
  destruct (acknowledged_events_survive_a_crash 1 [9%Z; 11%Z] demo_logged.1 demo_logged.2
              [5%Z; 7%Z] None crash_run.1.1 crash_run.1.2 crash_run.2 demo_mgr.2 "store" "prefix"
              (Some demo_key) (Some demo_key) demo_rng 0 demo_logged_running ltac:(done)
              crash_run_eq Hbox Hkb Hc Hs Hrng) as (resps & st2 & Hrs & Hn & Hr).
  exists st2. split; [exact Hn|]. apply (eq_trans (eq_sym crash_run_answers)) in Hrs.
  destruct resps as [|r1 [|r2 [|r3 l]]]; [discriminate Hrs..| |discriminate Hrs].
  injection Hrs as <- <-. exact Hr.
Defined.

Lemma crash_leaves_a_state_of_the_log_witness :
  exists resps log' snap' st2,
    [Ok StoreResponse.Persisted; Ok (StoreResponse.Error crashed)] = Ok (E:=ActorError.Error) <$> resps /\
    spec_run (P:=TestActor) ([5%Z; 7%Z], None) crash_commands resps (log', snap') /\
    new (base (db crash_run.1.2)) demo_mgr.2 "store" "prefix" (Some demo_key)
      = (base (db crash_run.1.2), Ok st2) /\
    running st2 (mk_sworld (base (db crash_run.1.2)) demo_rng 0) log' snap'.
Proof.
  destruct crash_run_handles as (Hbox & Hkb & Hc & Hs & Hrng).
  destruct (crash_leaves_a_state_of_the_log 1 crash_commands demo_logged.1 demo_logged.2
              [5%Z; 7%Z] None crash_run.1.1 crash_run.1.2 crash_run.2 demo_mgr.2 "store" "prefix"
              (Some demo_key) (Some demo_key) demo_rng 0 demo_logged_running
              ltac:(by split; [|repeat constructor]) ltac:(done)
              crash_run_eq Hbox Hkb Hc Hs Hrng) as (resps & log' & snap' & st2 & Hrs & Hrest).
  exists resps, log', snap', st2. split; [exact (eq_trans (eq_sym crash_run_answers) Hrs)|exact Hrest].
Defined.

(** The light persistence of a third event dies between its writes: the answer is
    an error, the log ends with 7, and the recovered actor has seen the event. *)
Definition light_run : (Store MemoryStore MemoryStore * World MemWorld) * outcome Error unit :=
  persist_state 9%Z (mk_test 3 21) (demo_logged.1, demo_logged.2).

Lemma light_run_eq :
  persist_state 9%Z (mk_test 3 21) (demo_logged.1, demo_logged.2)
    = ((light_run.1.1, light_run.1.2), Ok tt).
Proof. vm_compute. reflexivity. Qed.

Definition light_crash : (Store MemoryStore MemoryStore * World (Fused MemWorld)) * outcome Error unit :=
  persist_state 9%Z (mk_test 3 21) (demo_logged.1, dying 1 demo_logged.2).

Lemma light_crash_handles :
  box_decrypt <$> Some demo_key = box_decrypt <$> key_box demo_logged.1 /\
  create_collection (base (db light_crash.1.2)) demo_mgr.2 ("store" +:+ "_events") "prefix"
    = (base (db light_crash.1.2), Ok (events_c demo_logged.1)) /\
  create_state (base (db light_crash.1.2)) demo_mgr.2 ("store" +:+ "_states") "prefix"
    = (base (db light_crash.1.2), Ok (states_s demo_logged.1)).
Proof. split_and!; vm_compute; reflexivity. Qed.

Lemma light_crash_keeps_the_refused_state_witness :
  exists st2, light_crash.2 = Err crashed /\
    new (base (db light_crash.1.2)) demo_mgr.2 "store" "prefix" (Some demo_key)
      = (base (db light_crash.1.2), Ok st2) /\
    last_event st2 (base (db light_crash.1.2)) = Ok (Some 7%Z) /\
    (recover (P:=TestActor) (E:=TestEvent)
       (st2, mk_sworld (base (db light_crash.1.2)) demo_rng 0)).2 = Ok (Some (mk_test 3 21)).
Proof.
  destruct (light_crash_keeps_the_refused_state (M:=MemoryManager) demo_logged.1
              demo_logged.2 [5%Z; 7%Z] None 9%Z (mk_test 3 21) light_run.1.1 light_run.1.2
              demo_logged_running light_run_eq) as (st' & f & Hp & Hopen).
  pose proof light_crash_handles as Hh. revert Hh. unfold light_crash. rewrite Hp. cbn [fst snd].
  intros (Hk & Hc & Hs).
  destruct (Hopen demo_mgr.2 "store" "prefix" (Some demo_key) (Some demo_key) demo_rng 0
              (ex_intro _ demo_key (conj eq_refl eq_refl)) Hk Hc Hs (fun _ => eq_refl))
    as (st2 & Hn & Hl & Hr).
  exists st2. split_and!; [reflexivity|exact Hn|exact Hl|exact Hr].
Defined.
