(* ===== verification/Backends.v ===== *)
(** * The event store on the RocksDB and SQLite backends

    The theorems of [StoreCorrect] hold of every backend that satisfies the laws
    of [Database]. This file composes the store with the two persistent backends:
    a store opened on SQLite satisfies the abstract state of [StoreSpec] whatever
    else its tables hold; on RocksDB that fails once another actor has a prefix
    that starts with this one's, and then the counter restarts from zero. *)

From S2P Require Import Prelude Path Errors Database RocksDb Statements Sqlite MapConn Store TestActor StoreSpec StoreCorrect.
Import StoreError Store.

(** ** Text that does not parse *)

Lemma parse_go_dot acc x s : exists e, parse_go acc (x +:+ String "." s) = Err e.
Proof.
  revert acc. induction x as [|c x IH]; intros acc; [by eexists|].
  rewrite append_cons. cbn [parse_go]. destruct (digit_val c); [|by eexists].
  case_decide; [apply IH|by eexists].
Qed.

Lemma parse_u64_dot x s : exists e, parse_u64 (x +:+ String "." s) = Err e.
Proof.
  destruct x as [|c x]; [by eexists|]. rewrite append_cons. unfold parse_u64.
  destruct (decide (c = "+"%char)) as [Hc|Hc].
  - destruct (parse_go_dot 0 x s) as [e He]. exists e. by destruct x.
  - destruct (parse_go_dot 0 (String c x) s) as [e He]. by exists e.
Qed.

(** ** RocksDB: a prefix that starts with another one *)

Section Rocks.
Context {D O P E : Type} `{RocksDBLaws D O}.
Context `{MemSecurity, ChaCha, BuildMode}.
Context `{PersistentActor P E, Bincode E}.

(** The family [cf] holds events of the actors [p] and [p ++ c ++ x] and at least
    one of the second. *)
Record two_prefixes (d : D) (cf p : string) (c : ascii) (x : string) : Prop := {
  tp_char : (46 < N_of_ascii c < 128)%N;
  tp_utf8 : is_utf8 p = true /\ is_utf8 x = true;
  tp_keys : forall k v, cf_view d cf k = Some v -> exists n,
    k = p +:+ "." +:+ fmt020 n \/ k = p +:+ String c (x +:+ "." +:+ fmt020 n);
  tp_other : exists n v, cf_view d cf (p +:+ String c (x +:+ "." +:+ fmt020 n)) = Some v;
}.

Lemma is_utf8_cons c s : (N_of_ascii c < 128)%N -> is_utf8 s = true -> is_utf8 (String c s) = true.
Proof.
  intros Hc Hs. change (String c s) with (String c EmptyString +:+ s).
  rewrite is_utf8_app; [done|]. unfold is_utf8, utf8_error, utf8_width.
  by rewrite (proj2 (N.ltb_lt _ _) Hc).
Qed.

Lemma two_prefixes_key_utf8 d cf p c x n :
  two_prefixes d cf p c x ->
  is_utf8 (p +:+ String c (x +:+ "." +:+ fmt020 n)) = true /\
  str_head_ok (x +:+ "." +:+ fmt020 n) = true.
Proof.
  intros [[_ Hc] [Hp Hx] _ _].
  assert (is_utf8 (x +:+ "." +:+ fmt020 n) = true) as Hr.
  { by rewrite !is_utf8_app, fmt020_utf8. }
  split; [|by apply is_utf8_head]. rewrite is_utf8_app by done. by apply is_utf8_cons.
Qed.

(** The keys of the longer prefix come after those of the shorter one. *)
Lemma longer_prefix_after p c x n m :
  (46 < N_of_ascii c)%N ->
  str_lt (p +:+ "." +:+ fmt020 n) (p +:+ String c (x +:+ "." +:+ fmt020 m)).
Proof.
  intros Hc. apply str_lt_app. unfold str_lt.
  assert (Ascii.compare "." c = Lt) as Ha by by apply N.compare_lt_iff.
  change (String.compare (String "." (fmt020 n)) (String c (x +:+ "." +:+ fmt020 m)) = Lt).
  unfold String.compare. by rewrite Ha.
Qed.

Lemma two_prefixes_last d (s : RocksDbStore) c x :
  db_ok d -> cf_handle d (rs_name s) = true ->
  two_prefixes d (rs_name s) (rs_prefix s) c x ->
  exists n v, last_entry d s = Ok (Some (x +:+ "." +:+ fmt020 n, v)).
Proof.
  intros Hok Hcf Htp.
  destruct (iterator_cf_law d (rs_name s) Hok Hcf) as (l & [Hs Hl] & _ & Hit).
  destruct (tp_other _ _ _ _ _ Htp) as (m & v & Hm).
  destruct l as [|[k0 v0] l _] using rev_ind; [by apply Hl, not_elem_of_nil in Hm|].
  assert (exists n, k0 = rs_prefix s +:+ String c (x +:+ "." +:+ fmt020 n)) as [n ->].
  { destruct (tp_keys _ _ _ _ _ Htp k0 v0) as (n & [->| ->]); [|exfalso|by eexists].
    { apply Hl, elem_of_app. right. by constructor. }
    pose proof (longer_prefix_after (rs_prefix s) c x n m (proj1 (tp_char _ _ _ _ _ Htp))) as Hlt.
    apply Hl, elem_of_app in Hm as [Hm|Hm%list_elem_of_singleton%(f_equal fst)].
    - pose proof (StronglySorted_app_inv _ _ _ Hs _ _ Hm (list_elem_of_here _ _)) as Hgt.
      unfold key_lt in Hgt. cbn in Hgt. apply (irreflexivity str_lt (rs_prefix s +:+ "." +:+ fmt020 n)).
      by etrans.
    - cbn [fst] in Hm. rewrite Hm in Hlt. exact (irreflexivity str_lt _ Hlt). }
  destruct (two_prefixes_key_utf8 _ _ _ _ _ n Htp) as [Hu Hh].
  exists n, v0. unfold last_entry. change (coll_iter d s true) with (RocksDbCollection.iter d s true).
  unfold RocksDbCollection.iter. rewrite Hcf, Hit, reverse_app. cbn [reverse rev_append app fmap list_fmap].
  change (reverse [(rs_prefix s +:+ String c (x +:+ "." +:+ fmt020 n), v0)])
    with [(rs_prefix s +:+ String c (x +:+ "." +:+ fmt020 n), v0)].
  cbn [app fmap list_fmap rocks_next]. rewrite from_utf8_ok by done. rewrite starts_with_app.
  change (String c (x +:+ "." +:+ fmt020 n)) with (String c EmptyString +:+ (x +:+ "." +:+ fmt020 n)).
  rewrite <- append_assoc.
  replace (String.length (rs_prefix s) + 1)
    with (String.length (rs_prefix s +:+ String c EmptyString)) by (by rewrite length_append).
  by rewrite slice_from_app.
Qed.

Lemma open_existing d (m : RocksDbManager O) name prefix :
  cf_handle d name = true ->
  RocksDbManager.open_store d m name prefix = (d, Ok (mk_rocks name prefix)).
Proof. intros Hcf. unfold RocksDbManager.open_store. by rewrite Hcf. Qed.

(** C35: Two actors that are alone in a RocksDB store, without a password, and whose keys are p
    and p followed by an ASCII character that sorts after the dot, as a digit or a letter does
    and the hyphen does not: when the longer key has an event, the store of the shorter one
    takes the last event of the longer one for its own, fails to read its number and starts with
    the counter 0, so that the next event it persists gets the number 0 or 1 again. *)
Theorem rocksdb_longer_prefix_resets_the_counter d (m : RocksDbManager O) name p c x rng n :
  let evs := mk_rocks (name +:+ "_events") p in
  let sts := mk_rocks (name +:+ "_states") p in
  db_ok d -> cf_handle d (rs_name evs) = true -> cf_handle d (rs_name sts) = true ->
  two_prefixes d (rs_name evs) p c x ->
  let st := mk_store 0 0 evs sts None in
  new d m name p None = (d, Ok st) /\
  match (next_event_number (E:=E) (st, mk_sworld d rng n)).2 with
  | Ok next => (next <= 1)%N
  | _ => True
  end.
Proof.
  cbn zeta. cbn [rs_name]. intros Hok He Hs Htp.
  destruct (two_prefixes_last d (mk_rocks (name +:+ "_events") p) c x Hok He Htp) as (i & v & Hl).
  split.
  - unfold new. cbn [create_collection create_state rocks_manager].
    unfold RocksDbManager.create_collection, RocksDbManager.create_state.
    rewrite (open_existing _ _ _ _ He), (open_existing _ _ _ _ Hs). cbv beta iota.
    destruct (parse_u64_dot x (fmt020 i)) as [e Hp].
    change (String "." (fmt020 i)) with ("." +:+ fmt020 i) in Hp.
    rewrite Hl. cbn [mbind outcome_bind]. by rewrite Hp.
  - unfold next_event_number, mbind, stM_bind, self, world. cbn.
    repeat case_match; simplify_eq/=; try done.
    match goal with Hn : u64_succ 0 = Ok _ |- _ => by rewrite u64_succ_Ok in Hn by done; simplify_eq end.
Qed.

End Rocks.

(** ** SQLite: a store beside others *)

Section Sql.
Context {D Row P E : Type} `{RusqliteLaws D Row}.
Context `{MemSecurity, ChaCha, BuildMode, !MemSecurityLaws, !ChaChaLaws}.
Context `{PersistentActor P E, Bincode E, Bincode (P * N), !BincodeLaws E, !BincodeLaws (P * N)}.
Implicit Types (w : SqliteWorld D).

(** C32: Whatever another collection of the same SQLite table with another prefix does, a store
    keeps its log and its snapshot. *)
Theorem sqlite_store_keeps_its_log_beside_others (st : Store SqliteCollection SqliteCollection)
    w log snap (other : SqliteCollection) os :
  holds (P:=P) (E:=E) st w log snap ->
  sqlite_coll_inv w other -> sq_table other = sq_table (events_c st) ->
  sq_prefix other <> sq_prefix (events_c st) ->
  holds (P:=P) (E:=E) st (run_ops (run_op other) w os).1 log snap.
Proof.
  intros [[Hc Hs] Hk Hl He Ho Hsn] Hi Ht Hp.
  pose proof (run_ops_only w other os Hi) as Hon.
  assert (forall k, coll_view (run_ops (run_op other) w os).1 (events_c st) k
                    = coll_view w (events_c st) k) as Hv.
  { intros k. by apply (other_prefix_view _ _ other). }
  destruct Hon as (Hinv & Hstv & _). destruct (Hstv _ Hs) as [Hs' Hst].
  split; [split; [by apply Hinv|done]|done|done| | |].
  - intros i e Hi'. rewrite Hv. by apply He.
  - intros k b. rewrite Hv. apply Ho.
  - change (st_view (run_ops (run_op other) w os).1 (states_s st))
      with (sqlite_st_view (run_ops (run_op other) w os).1 (states_s st)). by rewrite Hst.
Qed.

End Sql.

(** ** Witnesses *)

Import MapDb.

Definition user1_key (n : N) : string := "user1" +:+ "." +:+ fmt020 n.
Definition user10_key (n : N) : string := "user1" +:+ String "0" (EmptyString +:+ "." +:+ fmt020 n).

Definition event_bytes (e : Z) : bytes := bits (encode e).

(** The actor [user1] has three events, the actor [user10] one. *)
Definition two_logs : map_db :=
  <["store_events" := <[user1_key 0 := event_bytes 5]> (<[user1_key 1 := event_bytes 6]>
      (<[user1_key 2 := event_bytes 7]> {[user10_key 0 := event_bytes 1]}))]>
    {["store_states" := ∅]}.

Lemma two_logs_prefixes : two_prefixes two_logs "store_events" "user1" "0" EmptyString.
Proof.
  assert (forall k, cf_view two_logs "store_events" k =
    (<[user1_key 0 := event_bytes 5]> (<[user1_key 1 := event_bytes 6]>
      (<[user1_key 2 := event_bytes 7]> {[user10_key 0 := event_bytes 1]})) : btree) !! k) as Hv.
  { intros k. cbn. unfold map_view, two_logs. by rewrite lookup_insert_eq. }
  split; [by split|by split| |].
  - intros k v. rewrite Hv, !lookup_insert_Some, lookup_singleton_Some.
    intros [[<- _]|[_ [[<- _]|[_ [[<- _]|[_ [<- _]]]]]]]; eexists; [by left..|by right].
  - exists 0%N, (event_bytes 1). rewrite Hv. vm_compute. reflexivity.
Qed.

Lemma rocksdb_longer_prefix_resets_the_counter_witness :
  exists st, new two_logs (mk_rocks_manager tt) "store" "user1" None = (two_logs, Ok st) /\
    event_counter st = 0%N /\
    cf_view two_logs "store_events" (user1_key 1) = Some (event_bytes 6) /\
    cf_view (db (persist 9%Z (st, mk_sworld two_logs demo_rng 0)).1.2) "store_events" (user1_key 1)
      = Some (event_bytes 9).
Proof.
  exists (mk_store 0 0 (mk_rocks "store_events" "user1") (mk_rocks "store_states" "user1") None).
  split; [|split; [reflexivity|split; vm_compute; reflexivity]].
  exact (proj1 (rocksdb_longer_prefix_resets_the_counter (E:=Z) two_logs (mk_rocks_manager tt)
    "store" "user1" "0" EmptyString demo_rng 0 I eq_refl eq_refl two_logs_prefixes)).
Defined.

(** A SQLite store with one event. *)
Import MapConn.

Definition one_log : SqliteWorld database :=
  mk_sqlite_world false
    {["t_events" := shaped EventsShape
        {[[SqlText "user1"; SqlText (fmt020 0)]
          := [SqlText "user1"; SqlText (fmt020 0); SqlBlob (event_bytes 5)]]};
      "t_states" := shaped StatesShape ∅]}.

Definition sqlite_store : Store SqliteCollection SqliteCollection :=
  mk_store 0 0 user1 (mk_sqlite "t_states" "user1") None.

Lemma one_log_events : has_events (conn one_log) "t_events".
Proof.
  eexists. split; [reflexivity|]. apply map_Forall_singleton. by repeat eexists.
Qed.

Lemma one_log_states : has_states (conn one_log) "t_states".
Proof. eexists. split; [reflexivity|]. apply map_Forall_empty. Qed.

Lemma one_log_ok : conn_ok one_log.
Proof.
  split; [done|]. split; [done|]. intros t tb Hl.
  change (conn one_log !! t = Some tb) in Hl. unfold one_log in Hl. cbn [conn] in Hl.
  apply lookup_insert_Some in Hl as [[<- _]|[_ [<- _]%lookup_singleton_Some]].
  - split; [vm_compute; reflexivity|]. exists EventsShape. exact one_log_events.
  - split; [vm_compute; reflexivity|]. exists StatesShape. exact one_log_states.
Qed.

Lemma one_log_holds : holds (P:=TestActor) (E:=TestEvent) sqlite_store one_log [5%Z] None.
Proof.
  constructor; cbn [events_c states_s key_box sqlite_store]; [|done|done| | |].
  - split; split; [exact one_log_ok|exact one_log_events|exact one_log_ok|exact one_log_states].
  - intros [|i] e [= <-]. exists (event_bytes 5). split; vm_compute; reflexivity.
  - intros k b Hk. exists 0. split; [cbn; lia|].
    change (({[[SqlText "user1"; SqlText (fmt020 0)]
                := [SqlText "user1"; SqlText (fmt020 0); SqlBlob (event_bytes 5)]]} : rows_map)
              !! [SqlText "user1"; SqlText k] ≫= row_value = Some b) in Hk.
    apply bind_Some in Hk as (r & [[= <-] _]%lookup_singleton_Some & _). reflexivity.
  - vm_compute. reflexivity.
Qed.

Lemma sqlite_store_keeps_its_log_beside_others_witness :
  holds (P:=TestActor) (E:=TestEvent) sqlite_store
    (run_ops (run_op user10) one_log (sqlite_ops ++ [OpPurge])).1 [5%Z] None.
Proof.
  exact (sqlite_store_keeps_its_log_beside_others sqlite_store one_log [5%Z] None user10
           (sqlite_ops ++ [OpPurge]) one_log_holds (conj one_log_ok one_log_events) eq_refl
           ltac:(discriminate)).
Defined.
