(* ===== verification/Persistent.v ===== *)
(** * Persistent actors (store/src/store.rs, [trait PersistentActor])

    The provided methods [persist], [snapshot], [start_store] and [stop_store] of
    an actor that keeps its events in a child store. The child is an actor of its
    own: the context knows whether it is registered under the path
    [<parent>/store], whether its task is alive (a panic of the handler ends it
    and leaves the registration), and the messages told and not yet handled. *)

From S2P Require Import Prelude Path Errors Database Store.
Import Store.

Module PersistentMethods.

Section Methods.
Context {W M C T P E : Type}.
Context `{Collection W C, State W T, DbManager W M C T}.
Context `{MemSecurity, ChaCha, BuildMode}.
Context `{PersistentActor P E, Bincode E, Bincode (P * N)}.

(** The child actor: its store, whether its task runs, its mailbox. *)
Record Child : Type := mk_child {
  c_store : Store C T;
  c_alive : bool;
  c_mailbox : list (StoreCommand.StoreCommand P E);
}.

(** What the context of the actor gives access to. *)
Record Ctx : Type := mk_ctx {
  ctx_path : ActorPath;
  ctx_child : option Child;
  ctx_world : World W;
}.

Definition set_child (ctx : Ctx) (child : option Child) (w : World W) : Ctx :=
  mk_ctx (ctx_path ctx) child w.

Local Abbreviation ctxM := (stM Ctx ActorError.Error).

(** What a send to a closed channel and a dropped reply channel print. *)
Definition channel_closed : ActorError.Error := ActorError.Send "channel closed".

(** One message on the child's task. *)
Definition child_handle (child : Child) (w : World W) (msg : StoreCommand.StoreCommand P E)
    : Child * World W * outcome ActorError.Error (StoreResponse.StoreResponse P E) :=
  match handle_message msg (c_store child, w) with
  | (s, w, Panic) => (mk_child s false [], w, Panic)
  | (s, w, r) => (mk_child s true (c_mailbox child), w, r)
  end.

(** The first [n] messages of the mailbox, in order. *)
Fixpoint drain (n : nat) (child : Child) (w : World W) : Child * World W :=
  match n with
  | O => (child, w)
  | S n =>
      match c_alive child, c_mailbox child with
      | true, msg :: mailbox =>
          let '(child, w, _) := child_handle (mk_child (c_store child) true mailbox) w msg in
          drain n child w
      | _, _ => (child, w)
      end
  end.

(** [ActorRef::ask]: the messages before this one are handled first; a panic
    drops the reply channel. *)
Definition ask (msg : StoreCommand.StoreCommand P E)
    : ctxM (StoreResponse.StoreResponse P E) := fun ctx =>
  match ctx_child ctx with
  | Some child =>
      let '(child, w) := drain (length (c_mailbox child)) child (ctx_world ctx) in
      if c_alive child then
        match child_handle child w msg with
        | (child, w, Panic) => (set_child ctx (Some child) w, Err channel_closed)
        | (child, w, r) => (set_child ctx (Some child) w, r)
        end
      else (set_child ctx (Some child) w, Err channel_closed)
  | None => (ctx, Err channel_closed)
  end.

(** [ActorRef::tell]: queued, or refused by the closed mailbox. *)
Definition tell (msg : StoreCommand.StoreCommand P E) : ctxM unit := fun ctx =>
  match ctx_child ctx with
  | Some child =>
      if c_alive child then
        (set_child ctx (Some (mk_child (c_store child) true (c_mailbox child ++ [msg])))
           (ctx_world ctx), Ok tt)
      else (ctx, Err channel_closed)
  | None => (ctx, Err channel_closed)
  end.

(** [ActorRef::ask_stop]: the stop races with the queued messages, of which [n]
    are handled before it; the actor then leaves the registry. The stop channel
    of a dead task is closed, which counts as stopped. *)
Definition ask_stop (n : nat) : ctxM unit := fun ctx =>
  match ctx_child ctx with
  | Some child =>
      if c_alive child then
        let '(child, w) := drain n child (ctx_world ctx) in
        if c_alive child then (set_child ctx None w, Ok tt)
        else (set_child ctx (Some child) w, Err channel_closed)
      else (ctx, Ok tt)
  | None => (ctx, Ok tt)
  end.

(** [ctx.get_child::<Store<Self>>("store")] finds the registered child. *)
Definition get_child (ctx : Ctx) : bool :=
  match ctx_child ctx with Some _ => true | None => false end.

(** [ctx.create_child("store", store)]: refused while the path is registered.
    The store has the default [pre_start], which succeeds. *)
Definition create_child (store : Store C T) : ctxM unit := fun ctx =>
  match ctx_child ctx with
  | Some _ => (ctx, Err (ActorError.Exists (ActorPath.div (ctx_path ctx) "store")))
  | None => (set_child ctx (Some (mk_child store true [])) (ctx_world ctx), Ok tt)
  end.

(** ** The methods, over the actor and its context *)

Local Abbreviation actorM := (stM (P * Ctx) ActorError.Error).

(** A call on the context. *)
Definition on_ctx {A} (m : ctxM A) : actorM A := fun '(p, ctx) =>
  let '(ctx, r) := m ctx in ((p, ctx), r).

(** [.map_err(|e| ActorError::Store(e.to_string()))] *)
Definition as_store_error {S A} (m : stM S ActorError.Error A) : stM S ActorError.Error A :=
  fun s => let '(s, r) := m s in
    (s, map_err (fun e => ActorError.Store (ActorError.to_string e)) r).

Definition persist (event : E) : actorM unit := fun '(self, ctx) =>
  if get_child ctx then
    match apply self event with
    | (self', Err e) => ((update self' self, ctx), Err e)
    | (self', Panic) => ((self', ctx), Panic)
    | (self', Ok _) =>
        (response ← on_ctx (as_store_error
           (ask match get_persistence with
                | Light => StoreCommand.PersistLight event self'
                | Full => StoreCommand.Persist event
                end));
         match response with
         | StoreResponse.Persisted => mret tt
         | StoreResponse.Error error => errM (ActorError.Store (StoreError.display error))
         | _ => errM (ActorError.UnexpectedResponse
                        (ActorPath.from (ActorPath.to_string (ctx_path ctx) +:+ "/store"))
                        "StoreResponse::Persisted")
         end) (self', ctx)
    end
  else ((self, ctx), Err (ActorError.Store "Can't get store actor")).

Definition snapshot : actorM unit := fun '(self, ctx) =>
  if get_child ctx then
    (_ ← on_ctx (as_store_error (ask (StoreCommand.Snapshot self))); mret tt) (self, ctx)
  else ((self, ctx), Err (ActorError.Store "Can't get store actor")).

Definition start_store (name : string) (prefix : option string) (manager : M)
    (password : option bytes) : actorM unit := fun '(self, ctx) =>
  let prefix := match prefix with
                | Some prefix => prefix
                | None => ActorPath.key (ctx_path ctx)
                end in
  match new (db (ctx_world ctx)) manager name prefix password with
  | (d, r) =>
      let w := mk_sworld d (osrng (ctx_world ctx)) (drawn (ctx_world ctx)) in
      let ctx := set_child ctx (ctx_child ctx) w in
      match r with
      | Panic => ((self, ctx), Panic)
      | Err e => ((self, ctx), Err (ActorError.Store (StoreError.display e)))
      | Ok store =>
          (_ ← on_ctx (create_child store);
           response ← on_ctx (ask StoreCommand.Recover);
           match response with
           | StoreResponse.State (Some state) => fun '(self, ctx) => ((update self state, ctx), Ok tt)
           | _ => on_ctx (tell (StoreCommand.Snapshot self))
           end) (self, ctx)
      end
  end.

(** [n] is the number of queued messages that the stop lets through. *)
Definition stop_store (n : nat) : actorM unit := fun '(self, ctx) =>
  if get_child ctx then
    (_ ← match get_persistence (P:=P) with
         | Full => _ ← on_ctx (ask (StoreCommand.Snapshot self)); mret tt
         | Light => mret tt
         end;
     on_ctx (ask_stop n)) (self, ctx)
  else ((self, ctx), Err (ActorError.Store "Can't get store")).

End Methods.

End PersistentMethods.
