(* ===== verification/PersistentCorrect.v ===== *)
(** * What persisting, stopping and starting promise to an actor

    The child store is the abstract log of [StoreSpec]; the methods of a
    persistent actor are characterised on every branch over it. *)

From S2P Require Import Prelude Path Errors Database Memory Store TestActor StoreSpec.
From S2P Require Import StoreCorrect Persistent.
Import Store PersistentMethods.

Section Correct.
Context {W M C T P E : Type}.
Context `{BackendLaws W C T}.
Context `{!DbManager W M C T}.
Context `{!MemSecurity, !ChaCha, !ChaChaLaws, !BuildMode}.
Context `{!PersistentActor P E, !Bincode E, !BincodeLaws E, !Bincode (P * N), !BincodeLaws (P * N)}.

Implicit Types (ctx : Ctx (W:=W) (C:=C) (T:=T) (P:=P) (E:=E)) (log : list E) (p q : P) (e : E).
Implicit Types (snap : option (P * N)).

(** The child store is registered, idle, and holds the log. *)
Definition child_running ctx log snap : Prop :=
  exists st, ctx_child ctx = Some (mk_child st true []) /\ running st (ctx_world ctx) log snap.

Lemma ask_running msg ctx log snap ctx' r :
  child_running ctx log snap -> cmd_ok log msg -> msg <> StoreCommand.Recover ->
  ask msg ctx = (ctx', r) ->
  exists resp log' snap', r = Ok resp /\ spec_step (log, snap) msg resp (log', snap') /\
    child_running ctx' log' snap' /\ ctx_path ctx' = ctx_path ctx.
Proof.
  intros (st & Hc & Hr) Hok Hmsg. unfold ask. rewrite Hc. cbn. unfold child_handle. cbn.
  destruct (handle_message msg (st, ctx_world ctx)) as [[st1 w1] r1] eqn:Hm.
  destruct (handle_refines _ _ _ _ _ _ _ _ Hr Hok Hm)
    as [(resp & log1 & snap1 & -> & Hs & Hr1)|(_ & ? & _)]; [|done].
  intros [= <- <-]. exists resp, log1, snap1. split_and!; [done|done| |done].
  by exists st1.
Qed.

(** The log and the snapshot when the storage took the event. *)
Definition persisted log snap p e : list E * option (P * N) :=
  match get_persistence (P:=P) with
  | Full => (log ++ [e], snap)
  | Light => (overwrite_last log e, Some (p, counter_of log))
  end.

(** C4: Persisting an event through a running child store: if the event does not apply, the
    actor is rolled back and nothing else changes; if it applies, the actor has the new state
    and the store's log has the event (with the state, under light persistence) when the answer
    is Ok, and is unchanged when the storage refused it. *)
Theorem persist_outcomes ctx log snap p e p' ctx' r :
  child_running ctx log snap -> (N.of_nat (length log) < u64_size)%N ->
  persist e (p, ctx) = ((p', ctx'), r) ->
  match apply p e with
  | (p1, Ok _) =>
      p' = p1 /\
      match r with
      | Ok _ => child_running ctx' (persisted log snap p1 e).1 (persisted log snap p1 e).2
      | Err _ => exists snap', child_running ctx' log snap'
      | Panic => False
      end
  | (p1, Err er) => p' = update p1 p /\ ctx' = ctx /\ r = Err er
  | (p1, Panic) => r = Panic
  end.
Proof.
  intros Hch Hlen. unfold persist, persisted.
  assert (get_child ctx = true) as -> by (destruct Hch as (st & Hc & _); unfold get_child; by rewrite Hc).
  destruct (apply p e) as [p1 [[]|er|]]; [|by intros [= <- <- <-]..].
  unfold mbind, stM_bind, on_ctx, as_store_error.
  set (msg := match get_persistence with Light => _ | Full => _ end).
  destruct (ask msg ctx) as [ctx1 r1] eqn:Ha.
  assert (cmd_ok log msg /\ msg <> StoreCommand.Recover) as [Hok Hne].
  { unfold msg. by destruct get_persistence. }
  destruct (ask_running _ _ _ _ _ _ Hch Hok Hne Ha)
    as (resp & log1 & snap1 & -> & Hs & Hch1 & _).
  cbn. unfold msg in Hs. destruct get_persistence; inversion Hs; subst; cbn;
    intros [= <- <- <-]; split; eauto.
Qed.

(** When the event applies and the store then fails, in any way, persist reports the error and
    the actor keeps the state with the event that was not stored. *)
Theorem store_failure_is_not_rolled_back ctx p e p1 p' ctx' er :
  apply p e = (p1, Ok tt) -> get_child ctx = true ->
  persist e (p, ctx) = ((p', ctx'), Err er) -> p' = p1.
Proof.
  intros Ha Hc. unfold persist. rewrite Hc, Ha. unfold mbind, stM_bind, on_ctx, as_store_error.
  destruct (ask _ ctx) as [ctx1 [resp|er1|]]; cbn; [|by intros [= <- <- <-]|done].
  destruct resp; by intros [= <- <- <-].
Qed.

(** ** Starting *)

(** The child whose queued snapshot of [q] has been handled, as far as the
    storage takes it. *)
Definition child_snapshotting ctx log q : Prop :=
  exists st snap, ctx_child ctx = Some (mk_child st true [StoreCommand.Snapshot q]) /\
    running st (ctx_world ctx) log snap.

Lemma handle_recover st w log snap st' w' r :
  running st w log snap -> handle_message StoreCommand.Recover (st, w) = ((st', w'), r) ->
  match recovered log snap with
  | Ok res => exists snap', running st' w' log snap' /\
      (r = Ok (StoreResponse.State res) \/ exists er, r = Ok (StoreResponse.Error er))
  | Err er => r = Ok (StoreResponse.Error er) /\ running st' w' log snap
  | Panic => r = Panic
  end.
Proof.
  intros Hr. cbn. unfold respond. destruct (recover (st, w)) as [[st1 w1] r1] eqn:Hrec.
  pose proof (recover_running _ _ _ _ _ _ _ Hr Hrec) as Hr1.
  destruct (recovered log snap) as [res|er|].
  - destruct r1 as [a|er|]; [destruct Hr1 as [-> Hr1]| |done]; intros [= <- <- <-]; [|eauto].
    destruct Hr1 as [Hr1|(p & _ & Hr1)]; eauto.
  - destruct Hr1 as [-> Hr1]. by intros [= <- <- <-].
  - subst r1. by intros [= <- <- <-].
Qed.

(** C22: What start_store does in each case: a recovered state updates the actor; without a
    snapshot, or when the recovery fails, the actor keeps its state and a snapshot of it is
    queued; a panic of the recovery closes the child's channel and is reported as such. *)
Theorem start_store_outcomes ctx name prefix (m : M) password d st log snap q q' ctx' r :
  ctx_child ctx = None ->
  new (db (ctx_world ctx)) m name (default (ActorPath.key (ctx_path ctx)) prefix) password
    = (d, Ok st) ->
  running st (mk_sworld d (osrng (ctx_world ctx)) (drawn (ctx_world ctx))) log snap ->
  start_store name prefix m password (q, ctx) = ((q', ctx'), r) ->
  match recovered log snap with
  | Ok (Some p) =>
      r = Ok tt /\
      ((q' = update q p /\ exists snap', child_running ctx' log snap') \/
       (q' = q /\ child_snapshotting ctx' log q))
  | Ok None | Err _ => r = Ok tt /\ q' = q /\ child_snapshotting ctx' log q
  | Panic => r = Err channel_closed /\ q' = q
  end.
Proof.
  intros Hc Hn Hr. unfold start_store.
  replace (match prefix with Some prefix => prefix | None => ActorPath.key (ctx_path ctx) end)
    with (default (ActorPath.key (ctx_path ctx)) prefix) by (by destruct prefix).
  rewrite Hn. set (w := mk_sworld d _ _) in *.
  unfold mbind, stM_bind, on_ctx, create_child. rewrite Hc. cbn.
  unfold ask, child_handle. cbn [set_child ctx_child c_mailbox length drain c_alive ctx_world c_store].
  destruct (handle_message StoreCommand.Recover (st, w)) as [[st1 w1] r1] eqn:Hm.
  pose proof (handle_recover _ _ _ _ _ _ _ Hr Hm) as Hrec. clear Hm.
  destruct (recovered log snap) as [[p|]|er|].
  - destruct Hrec as (snap' & Hr1 & [->|[er ->]]); cbn; intros [= <- <- <-]; (split; [done|]).
    + left. split; [done|]. exists snap'. by exists st1.
    + right. split; [done|]. by exists st1, snap'.
  - destruct Hrec as (snap' & Hr1 & [->|[er ->]]); cbn; intros [= <- <- <-];
      (split_and!; [done|done|by exists st1, snap']).
  - destruct Hrec as [-> Hr1]. cbn. intros [= <- <- <-]. split_and!; [done|done|by exists st1, snap].
  - subst r1. cbn. by intros [= <- <- <-].
Qed.

(** The snapshot that start_store queues after a failed recovery replaces what could not be
    recovered: from then on recovery answers the fresh actor, without the events of the log. *)
Theorem failed_recovery_is_overwritten ctx st log snap q :
  ctx_child ctx = Some (mk_child st true [StoreCommand.Snapshot q]) ->
  running st (ctx_world ctx) log snap ->
  (Store.snapshot q (st, ctx_world ctx)).2 = Ok tt ->
  exists ctx', ask (E:=E) StoreCommand.Recover ctx = (ctx', Ok (StoreResponse.State (Some q))).
Proof.
  intros Hc Hr Hs. unfold ask. rewrite Hc. cbn.
  unfold child_handle at 1. cbn. unfold respond at 1.
  destruct (Store.snapshot q (st, ctx_world ctx)) as [[st1 w1] r1] eqn:Hsn. cbn in Hs. subst r1.
  cbn. pose proof (snapshot_running _ _ _ _ _ _ _ _ Hr Hsn) as Hr1. cbn in Hr1.
  unfold child_handle. cbn. unfold respond.
  rewrite (recover_eq _ _ _ _ Hr1), decide_False by auto. eauto.
Qed.

(** ** Stopping and starting again *)

(** Stopping leaves the log, with the state of the actor in the snapshot. *)
Lemma stop_store_running ctx st log snap p n p0 ctx1 r0 :
  ctx_child ctx = Some (mk_child st true []) -> running st (ctx_world ctx) log snap ->
  match get_persistence (P:=P) with
  | Full => (Store.snapshot p (st, ctx_world ctx)).2 = Ok tt
  | Light => snap = Some (p, counter_of log)
  end ->
  stop_store n (p, ctx) = ((p0, ctx1), r0) ->
  r0 = Ok tt /\ p0 = p /\ ctx_child ctx1 = None /\
  exists st1, events_c st1 = events_c st /\ states_s st1 = states_s st /\
    key_box st1 = key_box st /\ running st1 (ctx_world ctx1) log (Some (p, counter_of log)).
Proof.
  intros Hc Hr Hs. unfold stop_store, get_child. rewrite Hc.
  assert (forall st w, drain n (mk_child (P:=P) (E:=E) st true []) w = (mk_child st true [], w)) as Hd
    by (by destruct n).
  unfold mbind, stM_bind, on_ctx, ask_stop.
  destruct get_persistence.
  - cbn. rewrite Hc, Hd. cbn. subst snap. intros [= <- <- <-]. split_and!; [done..|].
    by exists st.
  - destruct (Store.snapshot p (st, ctx_world ctx)) as [[st1 w1] r1] eqn:Hsn. cbn in Hs. subst r1.
    pose proof (snapshot_running _ _ _ _ _ _ _ _ Hr Hsn) as Hr1. cbn in Hr1.
    destruct (snapshot_counter _ _ _ _ _ _ Hsn) as (_ & He & Ht & Hk).
    unfold ask. rewrite Hc. cbn. unfold child_handle. cbn. unfold respond. rewrite Hsn. cbn.
    rewrite Hd. cbn. intros [= <- <- <-]. split_and!; [done..|]. by exists st1.
Qed.

(** C6: Stopping the store of an actor, with the final snapshot accepted (or the light snapshot
    up to date), and starting it again over the same storage and password gives the actor the
    state it had, with the same log. *)
Theorem stop_then_start_restores_the_actor ctx st log snap p n p0 ctx1 r0 name prefix (m : M)
    password kb q :
  ctx_child ctx = Some (mk_child st true []) -> running st (ctx_world ctx) log snap ->
  match get_persistence (P:=P) with
  | Full => (Store.snapshot p (st, ctx_world ctx)).2 = Ok tt
  | Light => snap = Some (p, counter_of log)
  end ->
  stop_store n (p, ctx) = ((p0, ctx1), r0) ->
  box_of password kb -> box_decrypt <$> kb = box_decrypt <$> key_box st ->
  create_collection (db (ctx_world ctx1)) m (name +:+ "_events") prefix
    = (db (ctx_world ctx1), Ok (events_c st)) ->
  create_state (db (ctx_world ctx1)) m (name +:+ "_states") prefix
    = (db (ctx_world ctx1), Ok (states_s st)) ->
  r0 = Ok tt /\
  exists ctx2, start_store name (Some prefix) m password (q, ctx1) = ((update q p, ctx2), Ok tt) /\
    child_running ctx2 log (Some (p, counter_of log)).
Proof.
  intros Hc Hr Hs Hstop Hbox Hkb Hcc Hcs.
  destruct (stop_store_running _ _ _ _ _ _ _ _ _ Hc Hr Hs Hstop)
    as (-> & -> & Hc1 & st1 & He & Ht & Hk & Hr1). split; [done|].
  rewrite <- He in Hcc. rewrite <- Ht in Hcs. rewrite <- Hk in Hkb.
  pose proof (holds_rekey _ _ _ _ 0 0 _ (r_holds _ _ _ _ Hr1) Hkb) as Hh.
  unfold start_store. rewrite (new_eq _ _ _ _ _ _ _ _ _ _ _ _ Hbox Hcc Hcs Hh).
  unfold mbind, stM_bind, on_ctx, create_child. cbn. rewrite Hc1. cbn.
  set (st2 := mk_store _ _ _ _ kb). set (w2 := mk_sworld _ _ _).
  assert (running st2 w2 log (Some (p, counter_of log))) as Hr2.
  { constructor; [|apply Hr1|done|cbn; lia]. apply (holds_counters (mk_store 0 0 _ _ kb)), Hh. }
  unfold ask, child_handle. cbn. unfold respond.
  rewrite (recover_eq _ _ _ _ Hr2), decide_False by auto. cbn.
  eexists. split; [done|]. exists (at_counters st2 (counter_of log) (counter_of log)).
  split; [done|]. by apply running_at_counters.
Qed.

End Correct.

(** ** Witnesses *)

Definition demo_path : ActorPath := ActorPath.from "/user/test".

Abbreviation DemoCtx :=
  (Ctx (W:=MemWorld) (C:=MemoryStore) (T:=MemoryStore) (P:=TestActor) (E:=TestEvent)).

Definition demo_ctx : DemoCtx :=
  mk_ctx demo_path (Some (mk_child demo_logged.1 true [])) demo_logged.2.

Lemma demo_ctx_running : child_running demo_ctx [5%Z; 7%Z] None.
Proof. exists demo_logged.1. split; [done|apply demo_logged_running]. Qed.

Definition after_persist : DemoCtx := (persist 9%Z (mk_test 2 12, demo_ctx)).1.2.

Lemma persist_outcomes_witness :
  persist 9%Z (mk_test 2 12, demo_ctx) = ((mk_test 3 21, after_persist), Ok tt) /\
  child_running after_persist [5%Z; 7%Z; 9%Z] None.
Proof.
  assert (persist 9%Z (mk_test 2 12, demo_ctx) = ((mk_test 3 21, after_persist), Ok tt)) as Hp
    by (vm_compute; reflexivity).
  split; [exact Hp|]. revert Hp. generalize after_persist. intros ctx' Hp.
  pose proof (persist_outcomes demo_ctx [5%Z; 7%Z] None (mk_test 2 12) 9%Z (mk_test 3 21)
                ctx' (Ok tt) demo_ctx_running eq_refl Hp) as [_ Hc].
  exact Hc.
Defined.

(** The child's task has panicked: its mailbox is closed. *)
Definition dead_ctx : DemoCtx :=
  mk_ctx demo_path (Some (mk_child demo_logged.1 false [])) demo_logged.2.

Lemma store_failure_is_not_rolled_back_witness :
  exists p' ctx' er, persist 9%Z (mk_test 2 12, dead_ctx) = ((p', ctx'), Err er) /\
    p' = mk_test 3 21.
Proof.
  do 3 eexists. split; [vm_compute; reflexivity|].
  refine (store_failure_is_not_rolled_back dead_ctx (mk_test 2 12) 9%Z _ _ dead_ctx _ _ _ _);
    [reflexivity|reflexivity|vm_compute; reflexivity].
Defined.

(** Before the first start. *)
Definition first_ctx : DemoCtx :=
  mk_ctx demo_path None (mk_sworld demo_mgr.1 demo_rng 0).

Lemma start_store_outcomes_witness :
  exists ctx', start_store "store" (Some "prefix") demo_mgr.2 (Some demo_key)
      (mk_test 0 0, first_ctx) = ((mk_test 0 0, ctx'), Ok tt) /\
    child_snapshotting ctx' [] (mk_test 0 0).
Proof.
  destruct (start_store "store" (Some "prefix") demo_mgr.2 (Some demo_key) (mk_test 0 0, first_ctx))
    as [[q' ctx'] r] eqn:Hs.
  assert (new (db (ctx_world first_ctx)) demo_mgr.2 "store"
            (default (ActorPath.key (ctx_path first_ctx)) (Some "prefix")) (Some demo_key)
          = ((demo_open (Some demo_key)).1, Ok (demo_store (Some demo_key)))) as Hn
    by (vm_compute; reflexivity).
  pose proof (demo_running (Some demo_key) eq_refl) as Hr. unfold demo_world in Hr.
  pose proof (start_store_outcomes first_ctx "store" (Some "prefix") demo_mgr.2 (Some demo_key)
                _ _ [] None (mk_test 0 0) q' ctx' r eq_refl Hn Hr Hs) as (-> & -> & Hc).
  exists ctx'. split; [reflexivity|exact Hc].
Defined.

Definition queued_ctx : DemoCtx :=
  mk_ctx demo_path (Some (mk_child demo_logged.1 true [StoreCommand.Snapshot (mk_test 0 0)]))
    demo_logged.2.

Lemma failed_recovery_is_overwritten_witness :
  exists ctx', ask StoreCommand.Recover queued_ctx
      = (ctx', Ok (StoreResponse.State (Some (mk_test 0 0)))).
Proof.
  refine (failed_recovery_is_overwritten queued_ctx demo_logged.1 _ _ (mk_test 0 0) eq_refl
            demo_logged_running _).
  vm_compute. reflexivity.
Defined.

Definition stopped_ctx : DemoCtx :=
  (stop_store 0 (mk_test 2 12, demo_ctx)).1.2.

Lemma stop_then_start_restores_the_actor_witness :
  exists ctx2, start_store "store" (Some "prefix") demo_mgr.2 (Some demo_key)
      (mk_test 0 0, stopped_ctx) = ((mk_test 2 12, ctx2), Ok tt) /\
    child_running ctx2 [5%Z; 7%Z] (Some (mk_test 2 12, 1%N)).
Proof.
  refine (proj2 (stop_then_start_restores_the_actor demo_ctx demo_logged.1 [5%Z; 7%Z] None
    (mk_test 2 12) 0 (mk_test 2 12) stopped_ctx (Ok tt) "store" "prefix" demo_mgr.2 (Some demo_key)
    (Some demo_key) (mk_test 0 0) eq_refl demo_logged_running _ _ _ _ _ _)).
  - vm_compute. reflexivity.
  - vm_compute. reflexivity.
  - by exists demo_key.
  - vm_compute. reflexivity.
  - vm_compute. reflexivity.
  - vm_compute. reflexivity.
Defined.
