(* ===== verification/Lives.v ===== *)
(** * The lives of a persistent actor (store/src/store.rs, [trait PersistentActor])

    A process starts an actor with [start_store], which finds what the processes
    before it left in the storage, the actor persists events and takes snapshots,
    and the process is killed, at any write or between two of them. [Crash] has
    the storage of a process that dies; here are the actor over it, and any
    number of lives after one another. *)

From S2P Require Import Prelude Path Errors Database RocksDb Sqlite Conformance Store TestActor StoreSpec.
From S2P Require Import StoreCorrect Crash Persistent PersistentCorrect.
Import StoreError MapDb.
Import Store PersistentMethods.

(** ** What the storage and the external code are assumed to do *)

(** Values encode and are encrypted. *)
Class Seals (P E : Type) `{ChaCha, Bincode E, Bincode (P * N)} : Prop := {
  seals_event : forall e : E, exists b, encode_to_vec e = Ok b;
  seals_state : forall pc : P * N, exists b, encode_to_vec pc = Ok b;
  seals_text : forall key nonce m, length key = 32 -> length nonce = NONCE_SIZE ->
    exists c, aead_encrypt key nonce m = Ok c;
}.

(** What a collection and a state hold is the same. *)
Definition keeps_both {W C T : Type} `{BackendLaws W C T} (d d' : W) (c : C) (s : T) : Prop :=
  separate d' c s /\ (forall k, coll_view d' c k = coll_view d c k) /\ st_view d' s = st_view d s.

(** The collection and the state are there, and opening them again finds them. *)
Class Reopens {W M C T : Type} `{BackendLaws W C T, !DbManager W M C T} (opened : W -> Prop)
    (m : M) (name prefix : string) (c : C) (s : T) : Prop := {
  ro_collection : forall d, opened d -> separate d c s -> exists d',
    create_collection d m (name +:+ "_events") prefix = (d', Ok c) /\ opened d' /\ keeps_both d d' c s;
  ro_state : forall d, opened d -> separate d c s -> exists d',
    create_state d m (name +:+ "_states") prefix = (d', Ok s) /\ opened d' /\ keeps_both d d' c s;
  ro_put : forall d k v, opened d -> separate d c s -> opened (coll_put d c k v).1;
  ro_st_put : forall d v, opened d -> separate d c s -> opened (st_put d s v).1;
}.

(** Opening what exists is not counted as a write. *)
#[export] Instance fused_manager {W M C T} `{DbManager W M C T} : DbManager (Fused W) M C T := {
  create_collection f m name prefix :=
    let '(d, r) := create_collection (base f) m name prefix in (mk_fused d (fuse f), r);
  create_state f m name prefix :=
    let '(d, r) := create_state (base f) m name prefix in (mk_fused d (fuse f), r);
}.

(** What the construction of a store fixes. *)
Definition handles {C T : Type} `{MemSecurity} (st : Store C T) : C * T * option EncryptedMem :=
  (events_c st, states_s st, key_box st).

Section Lives.
Context {W M C T P E : Type}.
Context `{BackendLaws W C T, !DbManager W M C T}.
Context {nf nfs : Error} {del_missing : outcome Error unit}.
Context `{!Reliable W C nf del_missing, !ReliableState W T nfs}.
Context `{!MemSecurity, !ChaCha, !ChaChaLaws, !BuildMode}.
Context `{!PersistentActor P E, !Bincode E, !BincodeLaws E, !Bincode (P * N), !BincodeLaws (P * N)}.
Context `{!Seals P E}.

Local Abbreviation ctx_of := (Ctx (W:=Fused W) (C:=C) (T:=T) (P:=P) (E:=E)).
Implicit Types (ctx : ctx_of) (log : list E) (p q : P) (e : E).
Implicit Types (snap : option (P * N)) (st : Store C T) (w : World (Fused W)).

(** ** The lives *)

Inductive act : Type :=
| ActPersist (e : E)
| ActSnapshot
| ActStop (n : nat).

Definition perform (a : act) : stM (P * ctx_of) ActorError.Error unit :=
  match a with
  | ActPersist e => persist e
  | ActSnapshot => PersistentMethods.snapshot
  | ActStop n => stop_store n
  end.

(** The task of the actor panicked. *)
Definition died (r : outcome ActorError.Error unit) : bool := match r with Panic => true | _ => false end.

(** What an actor does, with the results, up to a panic. *)
Fixpoint live (l : list act) (s : P * ctx_of) : (P * ctx_of) * list (outcome ActorError.Error unit) :=
  match l with
  | [] => (s, [])
  | a :: l =>
      let '(s, r) := perform a s in
      if died r then (s, [r]) else let '(s, rs) := live l s in (s, r :: rs)
  end.

(** The events that persist accepted, and those that it refused. *)
Fixpoint acked (l : list act) (rs : list (outcome ActorError.Error unit)) : list E :=
  match l, rs with
  | ActPersist e :: l, Ok _ :: rs => e :: acked l rs
  | _ :: l, _ :: rs => acked l rs
  | _, _ => []
  end.

Fixpoint refused (l : list act) (rs : list (outcome ActorError.Error unit)) : list E :=
  match l, rs with
  | ActPersist e :: l, Err _ :: rs => e :: refused l rs
  | _ :: l, _ :: rs => refused l rs
  | _, _ => []
  end.

(** A life: the writes that the storage makes before the process is killed, its
    random numbers, and what the actor does. *)
Record Life : Type := mk_life {
  l_writes : nat;
  l_rng : nat -> bytes;
  l_acts : list act;
}.

(** The actor, its path, and the arguments of [start_store], the same in every life. *)
Context (fresh : P) (path : ActorPath) (m : M) (name prefix : string) (password : option bytes).

Definition born (l : Life) (d : W) : (P * ctx_of) * outcome ActorError.Error unit :=
  start_store name (Some prefix) m password
    (fresh, mk_ctx path None (mk_sworld (mk_fused d (l_writes l)) (l_rng l) 0)).

(** A life leaves the storage as its writes made it. *)
Definition life (l : Life) (d : W) : W * list (outcome ActorError.Error unit) :=
  match born l d with
  | (s, Ok _) => let '(s, rs) := live (l_acts l) s in (base (db (ctx_world s.2)), rs)
  | (s, _) => (base (db (ctx_world s.2)), [])
  end.

Fixpoint lives (ls : list Life) (d : W) : W * list (list (outcome ActorError.Error unit)) :=
  match ls with
  | [] => (d, [])
  | l :: ls =>
      let '(d, rs) := life l d in
      let '(d, rss) := lives ls d in (d, rs :: rss)
  end.

(** ** Writes of a process that dies *)

Context (opened : W -> Prop) (c : C) (s : T) (kb : option EncryptedMem).
Context `{!Reopens opened m name prefix c s}.

(** The store of the actor, with the log and the snapshot. *)
Record at_store st w log snap : Prop := {
  as_handles : handles st = (c, s, kb);
  as_running : running st w log snap;
  as_opened : opened (base (db w));
}.

Definition dead w : Prop := fuse (db w) = 0.

Lemma key_of st w log snap : at_store st w log snap -> key_ok st /\ rng_ok w.
Proof. intros [_ Hr _]. split; apply Hr. Qed.

Lemma seals_encrypt key data st w :
  length key = 32 -> rng_ok w -> exists b, encrypt key data (st, w) = ((st, drew w 1), Ok b).
Proof.
  intros Hk Hw. unfold encrypt, cipher_new, mbind, stM_bind, liftM. rewrite decide_True by done. cbn.
  destruct (seals_text (P:=P) (E:=E) key (osrng w (drawn w)) data Hk (Hw _)) as [t ->]. by eexists.
Qed.

Lemma seals_seal_event e st w :
  key_ok st -> rng_ok w -> exists n b, seal_event e (st, w) = ((st, drew w n), Ok b).
Proof.
  intros Hk Hw. unfold seal_event, mbind, stM_bind, self, liftM. cbn.
  destruct (seals_event (P:=P) e) as [b ->]. unfold key_ok in Hk.
  destruct (key_box st) as [k|]; cbn.
  - destruct Hk as (key & -> & Hlen). cbn. destruct (seals_encrypt key b st w Hlen Hw) as [t ->].
    by exists 1, t.
  - exists 0, b. by rewrite drew_0.
Qed.

Lemma seals_seal_state data st w :
  key_ok st -> rng_ok w -> exists n b, seal_state data (st, w) = ((st, drew w n), Ok b).
Proof.
  intros Hk Hw. unfold seal_state, mbind, stM_bind, self, liftM. cbn. unfold key_ok in Hk.
  destruct (key_box st) as [k|]; cbn.
  - destruct Hk as (key & -> & Hlen). destruct (seals_encrypt key data st w Hlen Hw) as [t ->].
    by exists 1, t.
  - exists 0, data. by rewrite drew_0.
Qed.

(** One write: the process is dead and it is refused, or it is made. *)
Lemma fused_put st w log snap k v :
  at_store st w log snap -> is_utf8 k = true ->
  exists f r, coll_put (db w) (events_c st) k v = (f, r) /\ opened (base f) /\
    match fuse (db w) with O => r = Err crashed /\ fuse f = 0 | S n => r = Ok tt /\ fuse f = n end.
Proof.
  intros [Hh Hr Ho] Hk. injection Hh as Hc Hs _. cbn. unfold burn. destruct (fuse (db w)) as [|n] eqn:Hf.
  - by eexists _, _.
  - pose proof (coll_put_ok (base (db w)) (events_c st) k v
      (holds_coll_inv _ _ _ _ (proj1 (holds_fused _ _ _ _) (r_holds _ _ _ _ Hr))) Hk) as Hput.
    pose proof (h_separate _ _ _ _ (proj1 (holds_fused _ _ _ _) (r_holds _ _ _ _ Hr))) as Hsep.
    rewrite Hc, Hs in Hsep.
    pose proof (ro_put (base (db w)) k v Ho Hsep) as Ho'. rewrite <- Hc in Ho'.
    destruct (coll_put _ _ _ _) as [d r]. cbn in *. subst r. by eexists _, _.
Qed.

Lemma fused_st_put st w log snap v :
  at_store st w log snap ->
  exists f r, st_put (db w) (states_s st) v = (f, r) /\ opened (base f) /\
    match fuse (db w) with O => r = Err crashed /\ fuse f = 0 | S n => r = Ok tt /\ fuse f = n end.
Proof.
  intros [Hh Hr Ho]. injection Hh as Hc Hs _. cbn. unfold burn. destruct (fuse (db w)) as [|n] eqn:Hf.
  - by eexists _, _.
  - pose proof (st_put_ok (base (db w)) (states_s st) v
      (holds_st_inv _ _ _ _ (proj1 (holds_fused _ _ _ _) (r_holds _ _ _ _ Hr)))) as Hput.
    pose proof (h_separate _ _ _ _ (proj1 (holds_fused _ _ _ _) (r_holds _ _ _ _ Hr))) as Hsep.
    rewrite Hc, Hs in Hsep.
    pose proof (ro_st_put (base (db w)) v Ho Hsep) as Ho'. rewrite <- Hs in Ho'.
    destruct (st_put _ _ _) as [d r]. cbn in *. subst r. by eexists _, _.
Qed.

(** A command that is one write: refused when the process is dead, made otherwise. *)
Definition one_write {A} w (done_ refused_ : Store C T -> World (Fused W) -> Prop)
    (x : (Store C T * World (Fused W)) * outcome Error A) : Prop :=
  match fuse (db w) with
  | O => x.2 = Err crashed /\ dead x.1.2 /\ refused_ x.1.1 x.1.2
  | S n => is_ok x.2 = true /\ fuse (db x.1.2) = n /\ done_ x.1.1 x.1.2
  end.

Lemma persist_at e st w log snap :
  at_store st w log snap -> (N.of_nat (length log) < u64_size)%N ->
  one_write w (fun st' w' => at_store st' w' (log ++ [e]) snap)
    (fun st' w' => at_store st' w' log snap) (Store.persist e (st, w)).
Proof.
  intros Ha Hlen. pose proof Ha as [Hh Hr _]. destruct (key_of _ _ _ _ Ha) as [Hk Hw].
  destruct (Store.persist e (st, w)) as [[st' w'] r] eqn:Hp.
  pose proof (persist_running _ _ _ _ _ _ _ _ Hr Hlen Hp) as Hr'. revert Hp.
  destruct (seals_seal_event e st w Hk Hw) as (n & b & Hse). unfold Store.persist.
  rewrite (stM_bind_Ok _ _ _ _ _ Hse).
  rewrite (stM_bind_Ok _ _ _ _ _ (next_event_number_spec _ _ _ _ (running_drew _ _ _ _ n Hr) Hlen)).
  destruct (fused_put st w log snap (fmt020 (N.of_nat (length log))) b Ha (fmt020_utf8 _))
    as (f & rp & Hput & Ho & Hf).
  unfold mbind, stM_bind, tryM, on_db. cbn [drew db]. rewrite Hput. unfold one_write.
  destruct (fuse (db w)) as [|k]; destruct Hf as [-> Hf]; cbn; intros [= <- <- <-].
  - split_and!; [done|done|]. split; [done|apply Hr'|done].
  - split_and!; [done|done|]. split; [done|apply Hr'|done].
Qed.

Lemma snapshot_at p st w log snap :
  at_store st w log snap ->
  one_write w (fun st' w' => at_store st' w' log (Some (p, counter_of log)))
    (fun st' w' => at_store st' w' log snap) (Store.snapshot p (st, w)).
Proof.
  intros Ha. pose proof Ha as [Hh Hr _]. destruct (key_of _ _ _ _ Ha) as [Hk Hw].
  destruct (Store.snapshot p (st, w)) as [[st' w'] r] eqn:Hp.
  pose proof (snapshot_running _ _ _ _ _ _ _ _ Hr Hp) as Hr'.
  destruct (snapshot_counter _ _ _ _ _ _ Hp) as (_ & He & Hs & Hkb). revert Hp.
  unfold Store.snapshot. unfold mbind at 1 2 3, stM_bind at 1 2 3, self, set_state_counter, liftM. cbn.
  destruct (seals_state (P:=P) (E:=E) (p, event_counter st)) as [data ->]. cbn.
  set (st1 := mk_store _ _ _ _ _).
  destruct (seals_seal_state data st1 w Hk Hw) as (n & b & Hse).
  rewrite (stM_bind_Ok _ _ _ _ _ Hse).
  assert (at_store st1 w log snap) as Ha1 by (split; [done|by apply running_state_counter|apply Ha]).
  destruct (fused_st_put st1 w log snap b Ha1) as (f & rp & Hput & Ho & Hf).
  change (burn (db w) (fun d => st_put d (states_s st1) b) = (f, rp)) in Hput.
  unfold on_db. cbn [drew db]. rewrite Hput. unfold one_write.
  destruct (fuse (db w)) as [|k]; destruct Hf as [-> Hf]; intros [= <- <- <-].
  - split_and!; [done|done|]. by split.
  - split_and!; [done|done|]. by split.
Qed.

(** Light persistence is two. *)
Lemma persist_state_at e p st w log snap :
  at_store st w log snap ->
  let x := persist_state e p (st, w) in
  match fuse (db w) with
  | O => x.2 = Err crashed /\ dead x.1.2 /\ at_store x.1.1 x.1.2 log snap
  | S O => x.2 = Err crashed /\ dead x.1.2 /\ at_store x.1.1 x.1.2 log (Some (p, counter_of log))
  | S (S n) => x.2 = Ok tt /\ at_store x.1.1 x.1.2 (overwrite_last log e) (Some (p, counter_of log))
  end.
Proof.
  intros Ha. cbv zeta. pose proof Ha as [Hh Hr _]. destruct (key_of _ _ _ _ Ha) as [Hk Hw].
  destruct (persist_state e p (st, w)) as [[st' w'] r] eqn:Hp.
  pose proof (persist_state_running _ _ _ _ _ _ _ _ _ Hr Hp) as Hr'. revert Hp.
  destruct (seals_seal_event e st w Hk Hw) as (n & b & Hse). unfold persist_state.
  rewrite (stM_bind_Ok _ _ _ _ _ Hse).
  assert (at_store st (drew w n) log snap) as Han by (split; [done|by apply running_drew|apply Ha]).
  pose proof (snapshot_at p _ _ _ _ Han) as Hs. unfold mbind, stM_bind.
  destruct (Store.snapshot p (st, drew w n)) as [[st1 w1] r1] eqn:Hsn. unfold one_write in Hs.
  cbn [drew db fst snd] in Hs.
  destruct (fuse (db w)) as [|k]; destruct Hs as (Hr1 & Hd & Ha1).
  { subst r1. intros [= <- <- <-]. by split_and!. }
  destruct r1 as [[]|er|]; [|done..].
  destruct (fused_put st1 w1 log _ (fmt020 (event_counter st1)) b Ha1 (fmt020_utf8 _))
    as (f & rp & Hput & Ho & Hf).
  unfold on_db. rewrite Hput. rewrite Hd in Hf.
  assert (forall w2 log' snap', running st1 w2 log' snap' -> opened (base (db w2)) ->
    at_store st1 w2 log' snap') as Hat by (intros; split; [apply Ha1|done..]).
  destruct k as [|k]; destruct Hf as [-> Hf]; intros [= <- <- <-]; cbn [fst snd].
  - split_and!; [done|done|]. apply Hat; [|done].
    constructor; [|apply Ha1..]. eapply holds_put_failed; [apply Ha1|apply fmt020_utf8|exact Hput].
  - split; [done|]. by apply Hat.
Qed.

(** What is recovered stays, and is the answer, or the process is dead. *)
Lemma recover_at st w log snap q :
  at_store st w log snap -> recovered log snap = Ok (Some q) ->
  let x := recover (E:=E) (st, w) in
  (x.2 = Ok (Some q) /\ exists snap', recovered log snap' = Ok (Some q) /\ at_store x.1.1 x.1.2 log snap') \/
  (dead w /\ (exists er, x.2 = Err er) /\ dead x.1.2 /\ at_store x.1.1 x.1.2 log snap).
Proof.
  intros Ha Hq. cbv zeta. rewrite (recover_eq _ _ _ _ (as_running _ _ _ _ Ha)).
  destruct snap as [[p k]|]; [|done]. cbv zeta. pose proof (r_snap _ _ _ _ (as_running _ _ _ _ Ha)) as Hs. cbn in Hs.
  assert (at_store (at_counters st (counter_of log) k) w log (Some (p, k))) as Ha1.
  { destruct Ha. split; [done|by apply running_at_counters|done]. }
  cbn in Hq. case_decide as Hne.
  2: { left. cbn [fst snd]. rewrite drop_up_to_date in Hq by lia. cbn in Hq. injection Hq as ->.
       split; [done|]. exists (Some (q, k)). cbn. by rewrite drop_up_to_date by lia. }
  destruct (replay p _) as [p'|er|]; cbn in Hq; [|done..]. injection Hq as ->.
  pose proof (snapshot_at q _ _ _ _ Ha1) as Hsn. unfold one_write in Hsn.
  destruct (Store.snapshot q _) as [[st2 w2] r]. cbn [fst snd] in Hsn. unfold dead at 1.
  destruct (fuse (db w)) as [|n]; destruct Hsn as (Hr & Hd & Ha2).
  - right. subst r. cbn [fst snd]. split_and!; [done|by eexists|done|done].
  - left. destruct r as [[]|er|]; [|done..]. cbn [fst snd]. split; [done|].
    exists (Some (q, counter_of log)). cbn. by rewrite drop_up_to_date.
Qed.

(** *** The actor that is still at work, and the one that can do nothing *)

Definition is_snapshot (msg : StoreCommand.StoreCommand P E) : Prop := exists p, msg = StoreCommand.Snapshot p.

Definition at_work ctx log snap : Prop :=
  exists st, ctx_child ctx = Some (mk_child st true []) /\ at_store st (ctx_world ctx) log snap.

Definition idle ctx log snap : Prop :=
  exists st, at_store st (ctx_world ctx) log snap /\
    (ctx_child ctx = None \/
     dead (ctx_world ctx) /\ exists pend, ctx_child ctx = Some (mk_child st true pend) /\
       Forall is_snapshot pend).

(** The commands that write. *)
Definition writes (msg : StoreCommand.StoreCommand P E) : Prop :=
  match msg with
  | StoreCommand.Persist _ | StoreCommand.PersistLight _ _ | StoreCommand.Snapshot _ => True
  | _ => False
  end.

Lemma handle_dead msg st w log snap :
  dead w -> at_store st w log snap -> (N.of_nat (length log) < u64_size)%N -> writes msg ->
  exists st' w' er, handle_message msg (st, w) = ((st', w'), Ok (StoreResponse.Error er)) /\
    dead w' /\ at_store st' w' log snap.
Proof.
  intros Hd Ha Hl Hm. unfold dead in Hd. destruct msg as [e|e p|p| | | | | |]; try done; cbn; unfold respond.
  - pose proof (persist_at e _ _ _ _ Ha Hl) as Hp. unfold one_write in Hp. rewrite Hd in Hp.
    destruct (Store.persist e (st, w)) as [[st' w'] r]. destruct Hp as (Hr & Hd' & Ha').
    cbn [fst snd] in *. subst r. by exists st', w', crashed.
  - pose proof (persist_state_at e p _ _ _ _ Ha) as Hp. cbv zeta in Hp. rewrite Hd in Hp.
    destruct (persist_state e p (st, w)) as [[st' w'] r]. destruct Hp as (Hr & Hd' & Ha').
    cbn [fst snd] in *. subst r. by exists st', w', crashed.
  - pose proof (snapshot_at p _ _ _ _ Ha) as Hp. unfold one_write in Hp. rewrite Hd in Hp.
    destruct (Store.snapshot p (st, w)) as [[st' w'] r]. destruct Hp as (Hr & Hd' & Ha').
    cbn [fst snd] in *. subst r. by exists st', w', crashed.
Qed.

Lemma drain_dead n st pend w log snap :
  dead w -> at_store st w log snap -> (N.of_nat (length log) < u64_size)%N -> Forall is_snapshot pend ->
  exists st' w', drain n (mk_child st true pend) w = (mk_child st' true (drop n pend), w') /\
    dead w' /\ at_store st' w' log snap.
Proof.
  intros Hd Ha Hl Hp. revert st w pend Hd Ha Hp. induction n as [|n IH]; intros st w pend Hd Ha Hp; cbn.
  { rewrite drop_0. by exists st, w. }
  destruct Hp as [|msg pend [p ->] Hp]; [by exists st, w|]. unfold child_handle. cbn [c_store].
  destruct (handle_dead (StoreCommand.Snapshot p) _ _ _ _ Hd Ha Hl I) as (st1 & w1 & er & -> & Hd1 & Ha1).
  by apply IH.
Qed.

(** An actor that can do nothing is refused what it asks. *)
Lemma ask_idle msg ctx log snap :
  idle ctx log snap -> (N.of_nat (length log) < u64_size)%N -> writes msg -> get_child ctx = true ->
  exists ctx' er, ask msg ctx = (ctx', Ok (StoreResponse.Error er)) /\ idle ctx' log snap /\
    dead (ctx_world ctx').
Proof.
  intros (st & Ha & [Hc|(Hd & pend & Hc & Hp)]) Hl Hm Hg; [unfold get_child in Hg; by rewrite Hc in Hg|].
  unfold ask. rewrite Hc. cbn [c_mailbox].
  destruct (drain_dead (length pend) _ _ _ _ _ Hd Ha Hl Hp) as (st1 & w1 & -> & Hd1 & Ha1).
  cbn [c_alive]. unfold child_handle. cbn [c_store c_mailbox].
  destruct (handle_dead msg _ _ _ _ Hd1 Ha1 Hl Hm) as (st2 & w2 & er & -> & Hd2 & Ha2).
  eexists _, er. split; [done|]. split; [|done]. exists st2. split; [done|]. right. split; [done|].
  exists []. split; [|done]. cbn. by rewrite drop_all.
Qed.

Lemma ask_stop_idle n ctx log snap ctx' r :
  idle ctx log snap -> (N.of_nat (length log) < u64_size)%N -> ask_stop n ctx = (ctx', r) ->
  idle ctx' log snap.
Proof.
  intros (st & Ha & [Hc|(Hd & pend & Hc & Hp)]) Hl; unfold ask_stop; rewrite Hc.
  - intros [= <- _]. exists st. auto.
  - cbn [c_alive]. destruct (drain_dead n _ _ _ _ _ Hd Ha Hl Hp) as (st1 & w1 & -> & Hd1 & Ha1).
    cbn [c_alive]. intros [= <- _]. exists st1. split; [done|]. by left.
Qed.

Lemma idle_perform a p ctx log snap p' ctx' r :
  idle ctx log snap -> (N.of_nat (length log) < u64_size)%N -> perform a (p, ctx) = ((p', ctx'), r) ->
  idle ctx' log snap /\ acked [a] [r] = [].
Proof.
  intros Hi Hl. destruct a as [e| |n]; cbn [perform].
  - unfold persist. destruct (get_child ctx) eqn:Hg; [|by intros [= <- <- <-]].
    destruct (apply p e) as [p1 [[]|er|]]; [|by intros [= <- <- <-]..].
    unfold mbind, stM_bind, on_ctx, as_store_error.
    match goal with |- context [ask ?msg ctx] =>
      destruct (ask_idle msg ctx log snap Hi Hl) as (ctx1 & er & -> & Hi1 & _);
        [by destruct get_persistence|done|] end.
    cbn. by intros [= <- <- <-].
  - unfold PersistentMethods.snapshot. destruct (get_child ctx) eqn:Hg; [|by intros [= <- <- <-]].
    unfold mbind, stM_bind, on_ctx, as_store_error.
    destruct (ask_idle (StoreCommand.Snapshot p) ctx log snap Hi Hl I Hg) as (ctx1 & er & -> & Hi1 & _).
    cbn. by intros [= <- <- <-].
  - unfold stop_store. destruct (get_child ctx) eqn:Hg; [|by intros [= <- <- <-]].
    unfold mbind, stM_bind, on_ctx. destruct get_persistence; cbn.
    + destruct (ask_stop n ctx) as [ctx1 r1] eqn:Hs. intros [= <- <- <-].
      split; [by eapply ask_stop_idle|done].
    + destruct (ask_idle (StoreCommand.Snapshot p) ctx log snap Hi Hl I Hg) as (ctx1 & er & -> & Hi1 & _).
      cbn. destruct (ask_stop n ctx1) as [ctx2 r2] eqn:Hs. intros [= <- <- <-].
      split; [by eapply ask_stop_idle|done].
Qed.

(** *** A step of the actor at work *)

Context (update_assigns : forall p q, update (PersistentActor:=PersistentActor0) p q = q).

(** Where the first event is not the next one: under full persistence an empty
    log and a log of one event have the same counter. *)
Definition grown log : Prop := get_persistence (P:=P) = Light \/ log <> [].

Lemma recovered_snoc log snap p e p1 :
  log <> [] -> snap_ok log snap -> recovered log snap = Ok (Some p) -> apply p e = (p1, Ok tt) ->
  recovered (log ++ [e]) snap = Ok (Some p1).
Proof.
  intros Hl Hs. destruct snap as [[p0 k]|]; [|done]. cbn. intros Hq Ha.
  rewrite drop_app_le.
  - rewrite replay_app. destruct (replay p0 _) as [p'|er|]; cbn in Hq; [|done..]. injection Hq as ->.
    cbn. by rewrite Ha.
  - unfold snap_ok, counter_of in Hs. destruct log; [done|]. cbn [length] in *. lia.
Qed.

(** What the storage keeps of an act: the event that was accepted, or, of a light
    persistence that died between its writes, the one that was refused. *)
Definition keeps_of (l : list act) (rs : list (outcome ActorError.Error unit)) (k : list E) : Prop :=
  k = acked l rs \/
  get_persistence (P:=P) = Light /\ exists e, e ∈ refused l rs /\ k = acked l rs ++ [e].

(** Nothing more comes of the actor: it is refused everything, or its task panicked. *)
Definition over (rs : list (outcome ActorError.Error unit)) ctx log snap : Prop :=
  idle ctx log snap \/ last rs = Some Panic /\ exists st, at_store st (ctx_world ctx) log snap.

Lemma over_at_store rs ctx log snap : over rs ctx log snap -> exists st, at_store st (ctx_world ctx) log snap.
Proof. intros [(st & Ha & _)|[_ Ha]]; [by exists st|done]. Qed.

Lemma over_cons r rs ctx log snap : over rs ctx log snap -> over (r :: rs) ctx log snap.
Proof. intros [Hi|[Hl Ha]]; [by left|right]. split; [|done]. by destruct rs. Qed.

(** From the durable state [q], with [l] done and answered by [rs]: the new durable
    state is [q] and the events kept, and it is the actor's own while it is at work. *)
Definition after (l : list act) (rs : list (outcome ActorError.Error unit)) q log p' ctx' log' snap' q'
    : Prop :=
  length log' <= length l + length log /\ grown log' /\ recovered log' snap' = Ok (Some q') /\
  exists k, replay q k = Ok q' /\
    (at_work ctx' log' snap' /\ p' = q' /\ k = acked l rs \/ over rs ctx' log' snap' /\ keeps_of l rs k).

Lemma at_work_snap_ok ctx log snap : at_work ctx log snap -> snap_ok log snap.
Proof. intros (st & _ & Ha). apply (as_running _ _ _ _ Ha). Qed.

(** One command on the idle child. *)
Lemma ask_at_work msg ctx st w' resp :
  ctx_child ctx = Some (mk_child st true []) ->
  forall st', handle_message msg (st, ctx_world ctx) = ((st', w'), Ok resp) ->
  ask msg ctx = (set_child ctx (Some (mk_child st' true [])) w', Ok resp).
Proof. intros Hc st' Hm. unfold ask. rewrite Hc. cbn. unfold child_handle. cbn. by rewrite Hm. Qed.

Lemma at_work_idle ctx st w log snap :
  dead w -> at_store st w log snap -> idle (set_child ctx (Some (mk_child st true [])) w) log snap.
Proof. intros Hd Ha. exists st. split; [done|]. right. split; [done|]. exists []. auto. Qed.

Lemma full_persist e p p1 ctx log snap p' ctx' r :
  get_persistence (P:=P) = Full -> at_work ctx log snap -> grown log ->
  recovered log snap = Ok (Some p) -> (N.of_nat (length log) < u64_size)%N ->
  apply p e = (p1, Ok tt) -> persist e (p, ctx) = ((p', ctx'), r) ->
  exists log' snap' q', after [ActPersist e] [r] p log p' ctx' log' snap' q'.
Proof.
  intros Hf Hw [Hg|Hg] Hq Hl Hap; [congruence|].
  pose proof (recovered_snoc _ _ _ _ _ Hg (at_work_snap_ok _ _ _ Hw) Hq Hap) as Hq'.
  destruct Hw as (st & Hc & Ha). unfold persist, get_child. rewrite Hc, Hap, Hf.
  unfold mbind, stM_bind, on_ctx, as_store_error.
  pose proof (persist_at e _ _ _ _ Ha Hl) as Hp. unfold one_write in Hp.
  pose proof (ask_at_work (StoreCommand.Persist e) ctx st) as Hask. cbn in Hask. unfold respond in Hask.
  destruct (Store.persist e (st, ctx_world ctx)) as [[st1 w1] r1]. cbn [fst snd] in Hp.
  destruct (fuse (db (ctx_world ctx))) as [|n]; destruct Hp as (Hr & Hd & Ha1).
  - subst r1. rewrite (Hask _ _ Hc _ eq_refl). cbn. intros [= <- <- <-].
    exists log, snap, p. split_and!; [cbn; lia|by right|done|]. exists []. split; [done|]. right.
    split; [by left; apply at_work_idle|by left].
  - destruct r1 as [[]|er|]; [|done..]. rewrite (Hask _ _ Hc _ eq_refl). cbn. intros [= <- <- <-].
    exists (log ++ [e]), snap, p1. split_and!; [rewrite length_app; cbn; lia|right; by destruct log|done|].
    exists [e]. cbn. rewrite Hap. split; [done|]. left. split; [|done]. by exists st1.
Qed.

Lemma light_persist e p p1 ctx log snap p' ctx' r :
  get_persistence (P:=P) = Light -> at_work ctx log snap ->
  recovered log snap = Ok (Some p) ->
  apply p e = (p1, Ok tt) -> persist e (p, ctx) = ((p', ctx'), r) ->
  exists log' snap' q', after [ActPersist e] [r] p log p' ctx' log' snap' q'.
Proof.
  intros Hf (st & Hc & Ha) Hq Hap. unfold persist, get_child. rewrite Hc, Hap, Hf.
  unfold mbind, stM_bind, on_ctx, as_store_error.
  pose proof (persist_state_at e p1 _ _ _ _ Ha) as Hp. cbv zeta in Hp.
  pose proof (ask_at_work (StoreCommand.PersistLight e p1) ctx st) as Hask. cbn in Hask. unfold respond in Hask.
  destruct (persist_state e p1 (st, ctx_world ctx)) as [[st1 w1] r1]. cbn [fst snd] in Hp.
  assert (forall log', counter_of log' = counter_of log -> recovered log' (Some (p1, counter_of log)) = Ok (Some p1)) as Hrec.
  { intros log' Hc'. cbn. by rewrite drop_up_to_date by lia. }
  destruct (fuse (db (ctx_world ctx))) as [|[|n]]; [destruct Hp as (Hr & Hd & Ha1)..|destruct Hp as (Hr & Ha1)];
    subst r1; rewrite (Hask _ _ Hc _ eq_refl); cbn; intros [= <- <- <-].
  - exists log, snap, p. split_and!; [cbn; lia|by left|done|]. exists []. split; [done|]. right.
    split; [by left; apply at_work_idle|by left].
  - exists log, (Some (p1, counter_of log)), p1. split_and!; [cbn; lia|by left|by apply Hrec|].
    exists [e]. cbn. rewrite Hap. split; [done|]. right. split; [by left; apply at_work_idle|].
    right. split; [done|]. exists e. split; [by left|done].
  - exists (overwrite_last log e), (Some (p1, counter_of log)), p1.
    split_and!; [|by left|apply Hrec, counter_of_overwrite|].
    + unfold overwrite_last. rewrite length_app, length_take. cbn. lia.
    + exists [e]. cbn. rewrite Hap. split; [done|]. left. split; [|done]. by exists st1.
Qed.

(** The snapshot of the durable state. *)
Lemma ask_snapshot q ctx log snap :
  at_work ctx log snap -> recovered log snap = Ok (Some q) ->
  exists ctx' resp snap', ask (StoreCommand.Snapshot q) ctx = (ctx', Ok resp) /\
    recovered log snap' = Ok (Some q) /\ (at_work ctx' log snap' \/ idle ctx' log snap').
Proof.
  intros (st & Hc & Ha) Hq. pose proof (snapshot_at q _ _ _ _ Ha) as Hp. unfold one_write in Hp.
  pose proof (ask_at_work (StoreCommand.Snapshot q) ctx st) as Hask. cbn in Hask. unfold respond in Hask.
  destruct (Store.snapshot q (st, ctx_world ctx)) as [[st1 w1] r1]. cbn [fst snd] in Hp.
  destruct (fuse (db (ctx_world ctx))) as [|n]; destruct Hp as (Hr & Hd & Ha1).
  - subst r1. eexists _, _, snap. split; [exact (Hask _ _ Hc _ eq_refl)|]. split; [done|]. right.
    by apply at_work_idle.
  - destruct r1 as [[]|er|]; [|done..]. eexists _, _, (Some (q, counter_of log)).
    split; [exact (Hask _ _ Hc _ eq_refl)|]. split; [cbn; by rewrite drop_up_to_date|]. left. by exists st1.
Qed.

(** An act that persists nothing and keeps what is durable. *)
Lemma after_none a r p log p' ctx' snap' :
  grown log -> recovered log snap' = Ok (Some p) -> acked [a] [r] = [] ->
  at_work ctx' log snap' /\ p' = p \/ over [r] ctx' log snap' ->
  after [a] [r] p log p' ctx' log snap' p.
Proof.
  intros Hg Hq Ha Hc. split_and!; [cbn; lia|done|done|]. exists []. split; [done|]. rewrite Ha.
  destruct Hc as [[Hc ->]|Hc]; [by left|]. right. split; [done|]. left. by rewrite Ha.
Qed.

Lemma ask_stop_at_work n ctx log snap ctx' r :
  at_work ctx log snap -> ask_stop n ctx = (ctx', r) -> idle ctx' log snap.
Proof.
  intros (st & Hc & Ha). unfold ask_stop. rewrite Hc. cbn [c_alive].
  replace (drain n (mk_child (P:=P) (E:=E) st true []) (ctx_world ctx))
    with (mk_child (P:=P) (E:=E) st true [], ctx_world ctx) by (by destruct n).
  cbn [c_alive]. intros [= <- _]. exists st. split; [done|]. by left.
Qed.

Lemma work_perform a p ctx log snap p' ctx' r :
  at_work ctx log snap -> grown log -> recovered log snap = Ok (Some p) ->
  (N.of_nat (length log) < u64_size)%N -> perform a (p, ctx) = ((p', ctx'), r) ->
  exists log' snap' q', after [a] [r] p log p' ctx' log' snap' q'.
Proof.
  intros Hw Hg Hq Hl. pose proof Hw as (st & Hc & _).
  assert (get_child ctx = true) as Hgc by (unfold get_child; by rewrite Hc).
  destruct a as [e| |n]; cbn [perform].
  - destruct (apply p e) as [p1 [[]|er|]] eqn:Hap.
    + intros Hp. destruct (get_persistence (P:=P)) eqn:Hf.
      * by eapply light_persist.
      * by eapply full_persist.
    + unfold persist. rewrite Hgc, Hap, update_assigns. intros [= <- <- <-].
      exists log, snap, p. apply after_none; auto.
    + unfold persist. rewrite Hgc, Hap. intros [= <- <- <-].
      exists log, snap, p. apply after_none; [done..|]. right. right. split; [done|].
      destruct Hw as (st' & _ & Ha). by exists st'.
  - unfold PersistentMethods.snapshot. rewrite Hgc. unfold mbind, stM_bind, on_ctx, as_store_error.
    destruct (ask_snapshot p ctx log snap Hw Hq) as (ctx1 & resp & snap1 & -> & Hq1 & Hi).
    cbn. intros [= <- <- <-]. exists log, snap1, p. apply after_none; [done..|]. destruct Hi; unfold over; auto.
  - unfold stop_store. rewrite Hgc. unfold mbind, stM_bind, on_ctx.
    destruct get_persistence; cbn.
    + destruct (ask_stop n ctx) as [ctx1 r1] eqn:Hs. intros [= <- <- <-].
      exists log, snap, p. apply after_none; [done..|]. right. left. by eapply ask_stop_at_work.
    + destruct (ask_snapshot p ctx log snap Hw Hq) as (ctx1 & resp & snap1 & -> & Hq1 & Hi).
      cbn. destruct (ask_stop n ctx1) as [ctx2 r2] eqn:Hs. intros [= <- <- <-].
      exists log, snap1, p. apply after_none; [done..|]. right. left.
      destruct Hi; [by eapply ask_stop_at_work|by eapply ask_stop_idle].
Qed.

(** ** A life *)

Lemma acked_nil l : acked l [] = [].
Proof. by destruct l as [|[]]. Qed.


Lemma acked_cons a l r rs : acked (a :: l) (r :: rs) = acked [a] [r] ++ acked l rs.
Proof. by destruct a, r. Qed.

Lemma refused_cons a l r rs : refused (a :: l) (r :: rs) = refused [a] [r] ++ refused l rs.
Proof. by destruct a, r. Qed.

(** After the first acts, of which nothing is lost, or before acts that add nothing. *)
Lemma keeps_of_later a r l rs k :
  keeps_of l rs k -> keeps_of (a :: l) (r :: rs) (acked [a] [r] ++ k).
Proof.
  unfold keeps_of. rewrite (acked_cons a l), (refused_cons a l). intros [->|(Hf & e & He & ->)]; [by left|].
  right. split; [done|]. exists e. rewrite elem_of_app, <- app_assoc. auto.
Qed.

Lemma keeps_of_sooner a r l rs k :
  keeps_of [a] [r] k -> acked l rs = [] -> keeps_of (a :: l) (r :: rs) k.
Proof.
  unfold keeps_of. rewrite (acked_cons a l), (refused_cons a l). intros Hk ->. rewrite app_nil_r.
  destruct Hk as [->|(Hf & e & He & ->)]; [by left|]. right. split; [done|]. exists e.
  rewrite elem_of_app. auto.
Qed.

Lemma live_idle l p ctx log snap p' ctx' rs :
  idle ctx log snap -> (N.of_nat (length log + length l) <= u64_size)%N ->
  live l (p, ctx) = ((p', ctx'), rs) -> idle ctx' log snap /\ acked l rs = [].
Proof.
  revert p ctx rs. induction l as [|a l IH]; intros p ctx rs Hi Hl; cbn [live].
  { by intros [= <- <- <-]. }
  destruct (perform a (p, ctx)) as [[p1 ctx1] r] eqn:Hp.
  cbn [length] in Hl. destruct (idle_perform _ _ _ _ _ _ _ _ Hi ltac:(lia) Hp) as [Hi1 Ha].
  destruct (died r); [by intros [= <- <- <-]; rewrite (acked_cons a l), Ha, acked_nil|].
  destruct (live l (p1, ctx1)) as [[p2 ctx2] rs2] eqn:Hlive. intros [= <- <- <-].
  destruct (IH _ _ _ Hi1 ltac:(lia) Hlive) as [Hi2 Ha2]. split; [done|]. by rewrite (acked_cons a l), Ha, Ha2.
Qed.

Lemma after_live l p ctx log snap p' ctx' rs :
  at_work ctx log snap -> grown log -> recovered log snap = Ok (Some p) ->
  (N.of_nat (length log + length l) <= u64_size)%N -> live l (p, ctx) = ((p', ctx'), rs) ->
  exists log' snap' q', after l rs p log p' ctx' log' snap' q'.
Proof.
  revert p ctx log snap rs. induction l as [|a l IH]; intros p ctx log snap rs Hw Hg Hq Hl; cbn [live].
  { intros [= <- <- <-]. exists log, snap, p. split_and!; [cbn; lia|done|done|]. exists []. auto. }
  destruct (perform a (p, ctx)) as [[p1 ctx1] r] eqn:Hp. cbn [length] in Hl.
  destruct (work_perform _ _ _ _ _ _ _ _ Hw Hg Hq ltac:(lia) Hp)
    as (log1 & snap1 & q1 & Hlen & Hg1 & Hq1 & k1 & Hk1 & Hc). cbn [length] in Hlen.
  destruct (died r) eqn:Hdr.
  { intros [= <- <- <-]. exists log1, snap1, q1. split_and!; [cbn [length]; lia|done|done|]. exists k1.
    split; [done|]. destruct Hc as [(Hw1 & -> & ->)|[Ho1 Hkeep]].
    - left. by rewrite (acked_cons a l), acked_nil, app_nil_r.
    - right. split; [done|]. by apply keeps_of_sooner; [|apply acked_nil]. }
  destruct (live l (p1, ctx1)) as [[p2 ctx2] rs2] eqn:Hlive. intros [= <- <- <-].
  destruct Hc as [(Hw1 & -> & ->)|[Hi1 Hkeep]].
  - destruct (IH _ _ _ _ _ Hw1 Hg1 Hq1 ltac:(lia) Hlive)
      as (log2 & snap2 & q2 & Hlen2 & Hg2 & Hq2 & k2 & Hk2 & Hc).
    exists log2, snap2, q2. split_and!; [cbn [length]; lia|done|done|].
    exists (acked [a] [r] ++ k2). rewrite replay_app, Hk1. split; [done|]. rewrite (acked_cons a l).
    destruct Hc as [(Hw2 & -> & ->)|[Hi2 Hkeep2]]; [by left|]. right.
    split; [by apply over_cons|]. by apply keeps_of_later.
  - assert (idle ctx1 log1 snap1) as Hi1'.
    { destruct Hi1 as [Hi1|[[= ->] _]]; [done|by cbn in Hdr]. }
    destruct (live_idle l _ _ _ _ _ _ _ Hi1' ltac:(lia) Hlive) as [Hi2 Ha2].
    exists log1, snap1, q1. split_and!; [cbn [length]; lia|done|done|]. exists k1. split; [done|]. right.
    split; [by left|]. by apply keeps_of_sooner.
Qed.

(** *** Its start *)

(** Storage with a log and a snapshot, from which [q] is recovered. *)
Record stored (d : W) log snap q : Prop := {
  sd_opened : opened d;
  sd_snap_ok : snap_ok log snap;
  sd_grown : grown log;
  sd_recovered : recovered log snap = Ok (Some q);
  sd_holds : exists st, handles st = (c, s, kb) /\ holds st d log snap;
}.

Context (boxed : box_of password kb).

(** The generator of the life gives nonces. *)
Definition nonces (l : Life) : Prop := forall i, length (l_rng l i) = NONCE_SIZE.

Lemma at_store_stored st w log snap q :
  at_store st w log snap -> grown log -> recovered log snap = Ok (Some q) ->
  stored (base (db w)) log snap q.
Proof.
  intros [Hh Hr Ho] Hg Hq. split; [done|apply Hr|done|done|]. exists st. split; [done|].
  apply holds_fused, Hr.
Qed.

Lemma holds_kept st d d' log snap :
  events_c st = c -> states_s st = s -> holds st d log snap -> keeps_both d d' c s -> holds st d' log snap.
Proof.
  intros Hc Hs Hh (Hsep & Hcv & Hsv). constructor; rewrite ?Hc, ?Hs.
  - done.
  - apply Hh.
  - apply Hh.
  - intros i e Hi. rewrite Hcv, <- Hc. by apply Hh.
  - intros k b. rewrite Hcv, <- Hc. apply Hh.
  - rewrite Hsv, <- Hs. apply Hh.
Qed.

(** The store that start_store opens. *)
Lemma opened_store l d log snap :
  opened d -> snap_ok log snap -> (exists st, handles st = (c, s, kb) /\ holds st d log snap) -> nonces l ->
  exists d' st, new (mk_fused d (l_writes l)) m name prefix password = (mk_fused d' (l_writes l), Ok st) /\
    at_store st (mk_sworld (mk_fused d' (l_writes l)) (l_rng l) 0) log snap.
Proof.
  intros Ho Hs (st0 & [= Hc Ht Hk] & Hh0) Hn.
  assert (holds (mk_store 0 0 c s kb) d log snap) as Hh.
  { rewrite <- Hc, <- Ht. eapply holds_rekey; [exact Hh0|by rewrite Hk]. }
  set (st := mk_store 0 0 c s kb) in *.
  destruct (ro_collection (c:=c) (s:=s) d Ho (h_separate st _ _ _ Hh)) as (d1 & Hcc & Ho1 & Hk1).
  pose proof (holds_kept st d d1 log snap eq_refl eq_refl Hh Hk1) as Hh1.
  destruct (ro_state (c:=c) (s:=s) d1 Ho1 (h_separate st _ _ _ Hh1)) as (d2 & Hcs & Ho2 & Hk2).
  pose proof (holds_kept st d1 d2 log snap eq_refl eq_refl Hh1 Hk2) as Hh2.
  exists d2, (mk_store (counter_of log) 0 c s kb). split.
  - eapply new_eq; [exact boxed|cbn; by rewrite Hcc|cbn; by rewrite Hcs|]. by apply holds_fused.
  - split; [done| |done]. constructor; [|done|done|done]. apply holds_fused.
    by apply (holds_counters (mk_store 0 0 c s kb)).
Qed.

Lemma born_stored l d log snap q p ctx r :
  stored d log snap q -> nonces l -> born l d = ((p, ctx), r) ->
  r = Ok tt /\ exists snap', recovered log snap' = Ok (Some q) /\
    (at_work ctx log snap' /\ p = q \/ l_writes l = 0 /\ idle ctx log snap').
Proof.
  intros [Ho Hs Hg Hq Hh] Hn. destruct (opened_store l d log snap Ho Hs Hh Hn) as (d2 & st & Hnew & Ha).
  unfold born, start_store. cbn [ctx_world db ctx_child set_child osrng drawn]. rewrite Hnew.
  unfold mbind, stM_bind, on_ctx, create_child. cbn [ctx_child set_child ctx_path ctx_world].
  unfold ask. cbn [ctx_child set_child c_mailbox length drain ctx_world c_alive]. unfold child_handle.
  cbn [c_store handle_message]. unfold respond.
  pose proof (recover_at _ _ _ _ _ Ha Hq) as Hrec. cbv zeta in Hrec.
  destruct (recover (E:=E) (st, _)) as [[st1 w1] r1]. cbn [fst snd] in Hrec.
  destruct Hrec as [(-> & snap' & Hq' & Ha')|(Hd & [er ->] & Hd' & Ha')].
  - intros [= <- <- <-]. split; [done|]. exists snap'. split; [done|]. left. rewrite update_assigns.
    split; [|done]. by exists st1.
  - cbn. intros [= <- <- <-]. split; [done|]. exists snap. split; [done|]. right. split; [done|].
    exists st1. split; [done|]. right. split; [done|]. exists [StoreCommand.Snapshot fresh].
    split; [done|]. by repeat econstructor.
Qed.

(** *** Its end *)

Lemma life_stored l d log snap q d' rs :
  stored d log snap q -> nonces l -> (N.of_nat (length log + length (l_acts l)) <= u64_size)%N ->
  life l d = (d', rs) ->
  exists log' snap' q' k, stored d' log' snap' q' /\ length log' <= length (l_acts l) + length log /\
    keeps_of (l_acts l) rs k /\ replay q k = Ok q'.
Proof.
  intros Hs Hn Hl. pose proof (sd_grown _ _ _ _ Hs) as Hg. unfold life.
  destruct (born l d) as [[p ctx] r] eqn:Hb.
  destruct (born_stored _ _ _ _ _ _ _ _ Hs Hn Hb) as (-> & snap1 & Hq1 & Hc).
  destruct (live (l_acts l) (p, ctx)) as [[p' ctx'] rs'] eqn:Hlive. intros [= <- <-].
  destruct Hc as [[Hw ->]|[_ Hi]].
  - destruct (after_live _ _ _ _ _ _ _ _ Hw Hg Hq1 Hl Hlive)
      as (log' & snap' & q' & Hlen & Hg' & Hq' & k & Hk & Hc).
    exists log', snap', q', k. destruct Hc as [((st & _ & Ha) & _ & ->)|[(st & Ha)%over_at_store Hkeep]];
      (split_and!; [by eapply at_store_stored|done| |done]); [by left|done].
  - destruct (live_idle _ _ _ _ _ _ _ _ Hi Hl Hlive) as [(st & Ha & _) Hack].
    exists log, snap1, q, []. split_and!; [by eapply at_store_stored|lia| |done]. left. by rewrite Hack.
Qed.

(** ** Many lives *)

Definition acts_of (ls : list Life) : nat := sum_list_with (fun l => length (l_acts l)) ls.

Lemma lives_stored ls d log snap q d' rss :
  stored d log snap q -> Forall nonces ls -> (N.of_nat (length log + acts_of ls) <= u64_size)%N ->
  lives ls d = (d', rss) ->
  exists log' snap' q' hist, stored d' log' snap' q' /\
    Forall3 (fun l rs k => keeps_of (l_acts l) rs k) ls rss hist /\ replay q (concat hist) = Ok q'.
Proof.
  revert d log snap q rss. induction ls as [|l ls IH]; intros d log snap q rss Hs Hn Hl; cbn [lives].
  { intros [= <- <-]. exists log, snap, q, []. split_and!; [done|constructor|done]. }
  unfold acts_of in Hl. cbn [sum_list_with] in Hl. fold (acts_of ls) in Hl. inv Hn.
  destruct (life l d) as [d1 rs1] eqn:Hlife.
  destruct (life_stored _ _ _ _ _ _ _ Hs ltac:(done) ltac:(lia) Hlife)
    as (log1 & snap1 & q1 & k1 & Hs1 & Hlen & Hk1 & Hr1).
  destruct (lives ls d1) as [d2 rss2] eqn:Hlives. intros [= <- <-].
  destruct (IH _ _ _ _ _ Hs1 ltac:(done) ltac:(lia) Hlives) as (log2 & snap2 & q2 & hist & Hs2 & Hf & Hr2).
  exists log2, snap2, q2, (k1 :: hist). split_and!; [done|by constructor|]. cbn [concat].
  rewrite replay_app, Hr1. done.
Qed.

Lemma full_keeps_acked ls rss hist :
  get_persistence (P:=P) = Full -> Forall3 (fun l rs k => keeps_of (l_acts l) rs k) ls rss hist ->
  hist = zip_with (fun l rs => acked (l_acts l) rs) ls rss.
Proof.
  intros Hf Hh. induction Hh as [|l rs k ls rss hist [->|[Hl _]] _ IH]; [done| |congruence].
  cbn. by f_equal.
Qed.

(** C1: An event-sourced actor whose storage holds a snapshot from which its log recovers a
    state and, under full persistence, at least one event, survives its crashes: however many
    times its process is killed, at whatever writes of the storage, or its apply panics, the
    next start gives it the state after every event that persist accepted, in order and nothing
    else; under light persistence, where a crash may fall between the two writes of an event, a
    life may add the one event that it was refused. Values encode and are encrypted, update
    assigns the recovered state, the storage refuses no write before the kill, and the event
    numbers have room. An actor without such a storage can lose its first event
    (killed_actor_loses_its_first_event). *)
Theorem stored_actor_survives_its_crashes ls d d' rss log snap q :
  stored d log snap q -> Forall nonces ls -> (N.of_nat (length log + acts_of ls) <= u64_size)%N ->
  lives ls d = (d', rss) ->
  exists hist q', Forall3 (fun l rs k => keeps_of (l_acts l) rs k) ls rss hist /\
    (get_persistence (P:=P) = Full -> hist = zip_with (fun l rs => acked (l_acts l) rs) ls rss) /\
    replay q (concat hist) = Ok q' /\
    forall l, nonces l -> l_writes l <> 0 -> exists ctx, born l d' = ((q', ctx), Ok tt).
Proof.
  intros Hs Hn Hl Hlives.
  destruct (lives_stored _ _ _ _ _ _ _ Hs Hn Hl Hlives) as (log' & snap' & q' & hist & Hs' & Hh & Hr).
  exists hist, q'. split_and!; [done|intros; by apply full_keeps_acked|done|].
  intros l Hnl Hw. destruct (born l d') as [[p ctx] r] eqn:Hb.
  destruct (born_stored _ _ _ _ _ _ _ _ Hs' Hnl Hb) as (-> & _ & _ & [[_ ->]|[? _]]); [|done].
  by exists ctx.
Qed.

(** ** The first life *)

(** A full persistence that succeeds, whatever the state of the actor. *)
Lemma persist_ok_at_work e p ctx log snap p' ctx' :
  get_persistence (P:=P) = Full -> at_work ctx log snap -> (N.of_nat (length log) < u64_size)%N ->
  persist e (p, ctx) = ((p', ctx'), Ok tt) -> at_work ctx' (log ++ [e]) snap.
Proof.
  intros Hf (st & Hc & Ha) Hl. unfold persist, get_child. rewrite Hc, Hf.
  destruct (apply p e) as [p1 [[]|er|]]; [|done..]. unfold mbind, stM_bind, on_ctx, as_store_error.
  pose proof (persist_at e _ _ _ _ Ha Hl) as Hp. unfold one_write in Hp.
  pose proof (ask_at_work (StoreCommand.Persist e) ctx st) as Hask. cbn in Hask. unfold respond in Hask.
  destruct (Store.persist e (st, ctx_world ctx)) as [[st1 w1] r1]. cbn [fst snd] in Hp.
  destruct (fuse (db (ctx_world ctx))) as [|n]; destruct Hp as (Hr & Hd & Ha1).
  - subst r1. by rewrite (Hask _ _ Hc _ eq_refl).
  - destruct r1 as [[]|er|]; [|done..]. rewrite (Hask _ _ Hc _ eq_refl). cbn. intros [= _ <-].
    by exists st1.
Qed.

Lemma live_persists es p ctx log snap p' ctx' :
  get_persistence (P:=P) = Full -> at_work ctx log snap ->
  (N.of_nat (length log + length es) <= u64_size)%N ->
  live (ActPersist <$> es) (p, ctx) = ((p', ctx'), replicate (length es) (Ok tt)) ->
  at_work ctx' (log ++ es) snap.
Proof.
  intros Hf. revert p ctx log. induction es as [|e es IH]; intros p ctx log Hw Hl.
  { intros [= <- <-]. by rewrite app_nil_r. }
  rewrite fmap_cons. cbn [live length perform replicate] in *.
  destruct (persist e (p, ctx)) as [[p1 ctx1] r] eqn:Hp.
  destruct (died r) eqn:Hdr; [by intros [= _ _ -> _]|].
  destruct (live (ActPersist <$> es) (p1, ctx1)) as [[p2 ctx2] rs] eqn:Hlive. intros [= <- <- -> ->].
  pose proof (persist_ok_at_work _ _ _ _ _ _ _ Hf Hw ltac:(lia) Hp) as Hw1.
  rewrite cons_middle, app_assoc. eapply IH; [exact Hw1|rewrite length_app; cbn; lia|exact Hlive].
Qed.

(** The snapshot that the first start queues is stored with the first event. *)
Lemma first_persist st e ctx p' ctx' :
  get_persistence (P:=P) = Full ->
  ctx_child ctx = Some (mk_child st true [StoreCommand.Snapshot fresh]) ->
  at_store st (ctx_world ctx) [] None -> persist e (fresh, ctx) = ((p', ctx'), Ok tt) ->
  at_work ctx' [e] (Some (fresh, 0%N)).
Proof.
  intros Hf Hc Ha Hp. destruct (decide (dead (ctx_world ctx))) as [Hd|Hd].
  { destruct (idle_perform (ActPersist e) fresh ctx [] None p' ctx' (Ok tt)) as [_ Hx]; [|done|exact Hp|done].
    exists st. split; [done|]. right. split; [done|]. eexists. split; [exact Hc|]. by repeat econstructor. }
  pose proof (snapshot_at fresh _ _ _ _ Ha) as Hs. unfold one_write in Hs. unfold dead in Hd.
  destruct (Store.snapshot fresh (st, ctx_world ctx)) as [[st1 w1] r1] eqn:Hsn. cbn [fst snd] in Hs.
  destruct (fuse (db (ctx_world ctx))) as [|n]; [done|]. destruct Hs as (Hr & _ & Ha1).
  destruct r1 as [[]|er|]; [|done..].
  set (ctx1 := set_child ctx (Some (mk_child st1 true [])) w1).
  assert (ask (StoreCommand.Persist e) ctx = ask (StoreCommand.Persist e) ctx1) as Hask.
  { unfold ask. rewrite Hc. cbn. unfold child_handle at 1. cbn. unfold respond at 1. by rewrite Hsn. }
  apply (persist_ok_at_work e fresh ctx1 [] _ p' ctx' Hf); [by exists st1|done|].
  rewrite <- Hp. unfold persist, get_child. cbn [ctx_child ctx1 set_child]. rewrite Hc.
  destruct (apply fresh e) as [p1 [[]|er|]] eqn:Hap; [|by unfold persist, get_child in Hp; rewrite Hc, Hap in Hp..].
  rewrite Hf. unfold mbind, stM_bind, on_ctx, as_store_error. by rewrite Hask.
Qed.

(** C36: An event-sourced actor that is killed before its first own snapshot comes back without
    its first event: the snapshot that start_store queued on the empty storage and the first
    event have the same number, and recovery replays the events after it. *)
Theorem killed_actor_loses_its_first_event l d e es d' q :
  get_persistence (P:=P) = Full -> opened d ->
  (exists st, handles st = (c, s, kb) /\ holds (E:=E) (P:=P) st d [] None) ->
  nonces l -> (N.of_nat (S (length es)) <= u64_size)%N ->
  l_acts l = ActPersist <$> e :: es -> life l d = (d', replicate (S (length es)) (Ok tt)) ->
  replay fresh es = Ok q ->
  forall l', nonces l' -> l_writes l' <> 0 -> exists ctx, born l' d' = ((q, ctx), Ok tt).
Proof.
  intros Hf Ho Hh Hn Hl Hacts Hlife Hq l' Hn' Hw'.
  enough (stored d' (e :: es) (Some (fresh, 0%N)) q) as Hs.
  { destruct (born l' d') as [[p ctx] r] eqn:Hb.
    destruct (born_stored _ _ _ _ _ _ _ _ Hs Hn' Hb) as (-> & _ & _ & [[_ ->]|[? _]]); [|done].
    by exists ctx. }
  destruct (opened_store l d [] None Ho I Hh Hn) as (d2 & st & Hnew & Ha).
  assert (exists ctx, born l d = ((fresh, ctx), Ok tt) /\
    ctx_child ctx = Some (mk_child st true [StoreCommand.Snapshot fresh]) /\
    at_store st (ctx_world ctx) [] None) as (ctx & Hb & Hc & Hat).
  { unfold born, start_store. cbn [ctx_world db ctx_child set_child osrng drawn]. rewrite Hnew.
    unfold mbind, stM_bind, on_ctx, create_child. cbn [ctx_child set_child ctx_path ctx_world].
    unfold ask. cbn [ctx_child set_child c_mailbox length drain ctx_world c_alive]. unfold child_handle.
    cbn [c_store handle_message]. unfold respond.
    rewrite (recover_eq _ _ _ _ (as_running _ _ _ _ Ha)). cbn. eexists. split; [done|]. by split. }
  unfold life in Hlife. rewrite Hb, Hacts in Hlife. rewrite fmap_cons in Hlife. cbn [live perform] in Hlife.
  destruct (persist e (fresh, ctx)) as [[p1 ctx1] r1] eqn:Hp.
  destruct (died r1) eqn:Hdr; [cbn [replicate] in Hlife; injection Hlife as _ -> _; done|].
  destruct (live (ActPersist <$> es) (p1, ctx1)) as [[p2 ctx2] rs2] eqn:Hlive.
  cbn [replicate] in Hlife. injection Hlife as <- -> ->.
  pose proof (first_persist _ _ _ _ _ Hf Hc Hat Hp) as Hw.
  destruct (live_persists es p1 ctx1 [e] _ p2 ctx2 Hf Hw ltac:(cbn; lia) Hlive) as (st' & _ & Ha').
  apply (at_store_stored _ _ _ _ _ Ha'); [by right|]. cbn. by rewrite drop_0, Hq.
Qed.

End Lives.

(** ** RocksDB, and the lives of the actor of the tests *)

Lemma rocks_reopens {D O : Type} `{RocksDBLaws D O} (m : RocksDbManager O) name prefix :
  Reopens (fun d : D => db_ok d /\ cf_handle d (name +:+ "_events") = true /\
                    cf_handle d (name +:+ "_states") = true)
    m name prefix (mk_rocks (name +:+ "_events") prefix) (mk_rocks (name +:+ "_states") prefix).
Proof.
  assert (forall d cf k v, db_ok d -> cf_handle d cf = true ->
    exists d', RocksDbStore.put_key d (mk_rocks cf prefix) k v = (d', Ok tt) /\ db_ok d' /\
      forall cf', cf_handle d' cf' = cf_handle d cf') as Hput.
  { intros d cf k v Hok Hcf. unfold RocksDbStore.put_key, callM. cbn [rs_name]. rewrite Hcf.
    destruct (put_cf_law d cf k v Hok Hcf) as (d' & -> & Hok' & Hcf' & _). by exists d'. }
  split; cbn; intros d.
  - intros (Hok & He & Hs) Hsep. unfold RocksDbManager.create_collection, RocksDbManager.open_store.
    rewrite He. by exists d.
  - intros (Hok & He & Hs) Hsep. unfold RocksDbManager.create_state, RocksDbManager.open_store.
    rewrite Hs. by exists d.
  - intros k v (Hok & He & Hs) _. unfold RocksDbCollection.put.
    destruct (Hput d _ (RocksDbCollection.full_key (mk_rocks (name +:+ "_events") prefix) k) v Hok He)
      as (d' & -> & Hok' & Hcf). cbn [fst]. by rewrite !Hcf.
  - intros v (Hok & He & Hs) _. unfold RocksDbState.put.
    destruct (Hput d _ prefix v Hok Hs) as (d' & Hd & Hok' & Hcf). cbn [rs_prefix]. rewrite Hd.
    cbn [fst]. by rewrite !Hcf.
Qed.

Lemma sqlite_kept {D Row : Type} `{RusqliteLaws D Row} (w w' : SqliteWorld D) c s :
  keeps_contents w w' -> separate w c s -> keeps_both w w' c s.
Proof. intros [Hc Hs] [[Hci Hcv]%Hc [Hsi Hsv]%Hs]. by split_and!. Qed.

Lemma sqlite_reopens {D Row : Type} `{RusqliteLaws D Row} name prefix :
  Reopens (fun w : SqliteWorld D => name_ok (name +:+ "_events") = true /\ name_ok (name +:+ "_states") = true)
    tt name prefix (mk_sqlite (name +:+ "_events") prefix) (mk_sqlite (name +:+ "_states") prefix).
Proof.
  split; [| |done..]; intros w [Hn1 Hn2] Hsep; pose proof Hsep as [[Hw He] [_ Hs]].
  - destruct (proj1 (sqlite_open_store w _ prefix Hw Hn1)) as (w' & Hc & _ & Hk & _).
    { by apply one_shape, He; apply Hw. }
    exists w'. split_and!; [exact Hc|done..|]. by apply sqlite_kept.
  - destruct (proj2 (sqlite_open_store w _ prefix Hw Hn2)) as (w' & Hc & _ & Hk & _).
    { intros He'. by apply (one_shape (conn w) _ (proj2 Hw) He'). }
    exists w'. split_and!; [exact Hc|done..|]. by apply sqlite_kept.
Qed.

#[export] Instance test_seals : Seals TestActor TestEvent.
Proof. split; intros; by eexists. Qed.

(** The two families of a store, empty. *)
Definition disk_m : RocksDbManager unit := mk_rocks_manager tt.
Definition disk_c : RocksDbStore := mk_rocks "store_events" "user".
Definition disk_s : RocksDbStore := mk_rocks "store_states" "user".

Definition disk0 : map_db :=
  (RocksDbManager.create_state (RocksDbManager.create_collection (∅ : map_db) disk_m "store_events" "user").1
     disk_m "store_states" "user").1.

Definition on_disk (d : map_db) : Prop :=
  db_ok d /\ cf_handle d ("store" +:+ "_events") = true /\ cf_handle d ("store" +:+ "_states") = true.

#[export] Instance disk_reopens : Reopens on_disk disk_m "store" "user" disk_c disk_s.
Proof. apply rocks_reopens. Qed.

Definition disk_store : Store RocksDbStore RocksDbStore := mk_store 0 0 disk_c disk_s (Some demo_key).

Definition disk_world : World map_db := mk_sworld disk0 demo_rng 0.

Lemma disk0_empty cf k : map_view disk0 cf k = None.
Proof.
  unfold map_view. change disk0 with (<["store_states" := ∅]> (<["store_events" := ∅]> (∅ : map_db))).
  rewrite !lookup_insert. by repeat case_decide.
Qed.

Lemma disk_running : running (P:=TestActor) (E:=TestEvent) disk_store disk_world [] None.
Proof.
  assert (forall s, cf_handle disk0 (rs_name s) = true -> is_utf8 (rs_prefix s) = true -> rocks_st_inv disk0 s)
    as Hi.
  { intros s Hcf Hp. split; [done|done|done|]. intros k v. cbn. by rewrite disk0_empty. }
  constructor; [|done..]. constructor.
  - split; [|split; [by apply Hi|done]]. split; [by apply Hi|]. intros k v. cbn. by rewrite disk0_empty.
  - by exists demo_key.
  - done.
  - done.
  - intros k b. cbn. unfold rocks_coll_view. cbn. by rewrite disk0_empty.
  - apply disk0_empty.
Qed.

(** One event and a snapshot later. *)
Definition disk_persisted : Store RocksDbStore RocksDbStore * World map_db :=
  (Store.persist 5%Z (disk_store, disk_world)).1.

Definition disk_snapped : Store RocksDbStore RocksDbStore * World map_db :=
  (Store.snapshot (mk_test 1 5) (disk_persisted.1, disk_persisted.2)).1.

Definition disk1 : map_db := db disk_snapped.2.

(** A computation by its answer. *)
Lemma answered {A B X} (x : (A * B) * X) r : x.2 = r -> x = ((x.1.1, x.1.2), r).
Proof. intros <-. by destruct x as [[] ?]. Qed.

Lemma disk1_stored :
  stored on_disk disk_c disk_s (Some demo_key) disk1 [5%Z] (Some (mk_test 1 5, 0%N)) (mk_test 1 5).
Proof.
  assert (Store.persist 5%Z (disk_store, disk_world) = ((disk_persisted.1, disk_persisted.2), Ok tt)) as Hp
    by (apply answered; vm_compute; reflexivity).
  assert (Store.snapshot (mk_test 1 5) (disk_persisted.1, disk_persisted.2)
    = ((disk_snapped.1, disk_snapped.2), Ok tt)) as Hs by (apply answered; vm_compute; reflexivity).
  pose proof (persist_running _ _ _ _ _ _ _ _ disk_running ltac:(done) Hp) as Hr1.
  pose proof (snapshot_running _ _ _ _ _ _ _ _ Hr1 Hs) as Hr2. constructor.
  - refine (conj I (conj _ _)); vm_compute; reflexivity.
  - exact (r_snap _ _ _ _ Hr2).
  - by right.
  - reflexivity.
  - exists disk_snapped.1. split; [vm_compute; reflexivity|exact (r_holds _ _ _ _ Hr2)].
Qed.

(** Two lives: the first is killed after two events, and refused the third; the
    second recovers them, which is a write, persists one, and stops. *)
Definition demo_life (n : nat) (l : list act) : Life (E:=TestEvent) := mk_life n demo_rng l.

Definition demo_lives : list (Life (E:=TestEvent)) :=
  [demo_life 2 [ActPersist 9%Z; ActPersist 11%Z; ActPersist 13%Z];
   demo_life 9 [ActPersist 20%Z; ActSnapshot; ActStop 0; ActPersist 1%Z]].

Definition demo_end : map_db * list (list (outcome ActorError.Error unit)) :=
  lives (T:=RocksDbStore) (mk_test 0 0) demo_path disk_m "store" "user" (Some demo_key) demo_lives disk1.

Lemma demo_acked :
  zip_with (fun l rs => acked (l_acts l) rs) demo_lives demo_end.2 = [[9%Z; 11%Z]; [20%Z]].
Proof. vm_compute. reflexivity. Qed.

Definition demo_box : option EncryptedMem := Some demo_key.

Lemma demo_boxed : box_of (Some demo_key) demo_box.
Proof. by exists demo_key. Qed.

Lemma test_update (p q : TestActor) : update (PersistentActor:=test_actor) p q = q.
Proof. done. Qed.

Lemma stored_actor_survives_its_crashes_witness :
  exists ctx, born (T:=RocksDbStore) (mk_test 0 0) demo_path disk_m "store" "user" (Some demo_key)
    (demo_life 1 []) demo_end.1 = ((mk_test 4 45, ctx), Ok tt).
Proof.
  destruct (stored_actor_survives_its_crashes (mk_test 0 0) demo_path disk_m "store" "user" (Some demo_key)
    on_disk disk_c disk_s demo_box test_update demo_boxed
    demo_lives disk1 demo_end.1 demo_end.2 [5%Z] _ (mk_test 1 5) disk1_stored
    ltac:(repeat constructor) ltac:(discriminate) (surjective_pairing _)) as (hist & q' & _ & Hf & Hr & Hb).
  rewrite (Hf eq_refl), demo_acked in Hr. injection Hr as <-.
  exact (Hb (demo_life 1 []) (fun _ => eq_refl) ltac:(discriminate)).
Defined.

(** An actor that starts on the empty families, persists 5 and 7 and is killed. *)
Definition first_life : Life (E:=TestEvent) := demo_life 3 [ActPersist 5%Z; ActPersist 7%Z].

Definition first_end : map_db * list (outcome ActorError.Error unit) :=
  life (T:=RocksDbStore) (mk_test 0 0) demo_path disk_m "store" "user" (Some demo_key) first_life disk0.

Lemma first_end_accepted : first_end = (first_end.1, [Ok tt; Ok tt]).
Proof. rewrite (surjective_pairing first_end) at 1. apply pair_equal_spec. split; [reflexivity|vm_compute; reflexivity]. Qed.

Lemma killed_actor_loses_its_first_event_witness :
  exists ctx, born (T:=RocksDbStore) (mk_test 0 0) demo_path disk_m "store" "user" (Some demo_key)
    (demo_life 1 []) first_end.1 = ((mk_test 1 7, ctx), Ok tt).
Proof.
  refine (killed_actor_loses_its_first_event (mk_test 0 0) demo_path disk_m "store" "user" (Some demo_key)
    on_disk disk_c disk_s demo_box test_update demo_boxed
    first_life disk0 5%Z [7%Z] first_end.1 (mk_test 1 7) eq_refl _ _ (fun _ => eq_refl) ltac:(discriminate)
    eq_refl first_end_accepted eq_refl (demo_life 1 []) (fun _ => eq_refl) ltac:(discriminate)).
  - refine (conj I (conj _ _)); vm_compute; reflexivity.
  - exists disk_store. split; [reflexivity|exact (r_holds _ _ _ _ disk_running)].
Defined.
