(* ===== verification/Supervision.v ===== *)
(** * Supervision strategies (actor/src/supervision.rs)

    What an actor does when its start fails, and how long it waits between two
    attempts. A [Duration] is its number of nanoseconds; [next_backoff] takes
    [&mut self] and returns the strategy it leaves. *)

From S2P Require Import Prelude.

Definition Duration : Type := N.

(** [trait RetryStrategy]. *)
Class RetryStrategy (R : Type) := {
  max_retries : R -> N;
  next_backoff : R -> option Duration * R;
}.

Module NoIntervalStrategy.

Record NoIntervalStrategy : Type := mk { max_retries : N }.

Definition new (n : N) : NoIntervalStrategy := mk n.

Definition default : NoIntervalStrategy := mk 0.

Definition next_backoff (s : NoIntervalStrategy) : option Duration * NoIntervalStrategy := (None, s).

End NoIntervalStrategy.

Module FixedIntervalStrategy.

Record FixedIntervalStrategy : Type := mk { max_retries : N; duration : Duration }.

Definition new (n : N) (d : Duration) : FixedIntervalStrategy := mk n d.

Definition next_backoff (s : FixedIntervalStrategy) : option Duration * FixedIntervalStrategy :=
  (Some (duration s), s).

End FixedIntervalStrategy.

Module CustomIntervalStrategy.

Record CustomIntervalStrategy : Type := mk { durations : list Duration; max_retries : N }.

Definition new (ds : list Duration) : CustomIntervalStrategy := mk ds (N.of_nat (length ds)).

(** [self.durations.pop_front()] *)
Definition next_backoff (s : CustomIntervalStrategy) : option Duration * CustomIntervalStrategy :=
  match durations s with
  | [] => (None, s)
  | d :: ds => (Some d, mk ds (max_retries s))
  end.

End CustomIntervalStrategy.

#[export] Instance no_interval : RetryStrategy NoIntervalStrategy.NoIntervalStrategy := {
  max_retries := NoIntervalStrategy.max_retries;
  next_backoff := NoIntervalStrategy.next_backoff;
}.

#[export] Instance fixed_interval : RetryStrategy FixedIntervalStrategy.FixedIntervalStrategy := {
  max_retries := FixedIntervalStrategy.max_retries;
  next_backoff := FixedIntervalStrategy.next_backoff;
}.

#[export] Instance custom_interval : RetryStrategy CustomIntervalStrategy.CustomIntervalStrategy := {
  max_retries := CustomIntervalStrategy.max_retries;
  next_backoff := CustomIntervalStrategy.next_backoff;
}.

(** [enum Strategy]. *)
Module Strategy.

Inductive Strategy : Type :=
| NoInterval (s : NoIntervalStrategy.NoIntervalStrategy)
| FixedInterval (s : FixedIntervalStrategy.FixedIntervalStrategy)
| CustomInterval (s : CustomIntervalStrategy.CustomIntervalStrategy).

Definition max_retries (s : Strategy) : N :=
  match s with
  | NoInterval s => Supervision.max_retries s
  | FixedInterval s => Supervision.max_retries s
  | CustomInterval s => Supervision.max_retries s
  end.

Definition next_backoff (s : Strategy) : option Duration * Strategy :=
  match s with
  | NoInterval s => let '(d, s) := Supervision.next_backoff s in (d, NoInterval s)
  | FixedInterval s => let '(d, s) := Supervision.next_backoff s in (d, FixedInterval s)
  | CustomInterval s => let '(d, s) := Supervision.next_backoff s in (d, CustomInterval s)
  end.

Definition default : Strategy := NoInterval NoIntervalStrategy.default.

End Strategy.

#[export] Instance strategy : RetryStrategy Strategy.Strategy := {
  max_retries := Strategy.max_retries;
  next_backoff := Strategy.next_backoff;
}.

(** [enum SupervisionStrategy]. *)
Inductive SupervisionStrategy : Type :=
| StopStrategy
| RetryWith (s : Strategy.Strategy).

(** ** The waits of a strategy that is kept between the attempts *)

Fixpoint backoffs (n : nat) (s : Strategy.Strategy) : list (option Duration) :=
  match n with
  | O => []
  | S n => let '(d, s') := next_backoff s in d :: backoffs n s'
  end.

Lemma custom_backoffs ds m n :
  backoffs n (Strategy.CustomInterval (CustomIntervalStrategy.mk ds m))
  = take n ((Some <$> ds) ++ replicate (n - length ds) None).
Proof.
  revert ds. induction n as [|n IH]; intros ds; [done|]. cbn [backoffs].
  destruct ds as [|d ds].
  - change (next_backoff _)
      with (@None Duration, Strategy.CustomInterval (CustomIntervalStrategy.mk [] m)).
    lazy beta iota zeta. rewrite IH. cbn. by rewrite Nat.sub_0_r.
  - change (next_backoff _)
      with (Some d, Strategy.CustomInterval (CustomIntervalStrategy.mk ds m)).
    lazy beta iota zeta. by rewrite IH.
Qed.

(** A fresh custom strategy allows as many retries as it has durations, and waits
    each of them once, in order. *)
Lemma custom_strategy_waits_each_duration_once ds :
  max_retries (Strategy.CustomInterval (CustomIntervalStrategy.new ds)) = N.of_nat (length ds) /\
  forall n, backoffs n (Strategy.CustomInterval (CustomIntervalStrategy.new ds))
    = take n ((Some <$> ds) ++ replicate (n - length ds) None).
Proof. split; [done|]. intros n. apply custom_backoffs. Qed.
