(* ===== verification/Runner.v ===== *)
(** * The task of an actor (actor/src/runner.rs, actor/src/actor.rs)

    [ActorRunner::init] is a loop over the lifecycle whose [Started] state runs
    the [select!] loop of [run]. The runner and the context it owns are one
    record. A computation of the task is a [runM]: it may panic, which ends the
    task, or have to wait for room in the bounded stop channel; what is left of
    the branch is then kept in the record, and a step of its own goes on with it
    once there is room. What the outside observes is the [trace]. The choice of a
    ready [select!] branch and the answers of other actors are the [label] of a
    step. *)

From S2P Require Import Prelude Path Errors Supervision.

(** ** The data of actor.rs and runner.rs *)

(** [enum ActorLifecycle]. *)
Inductive ActorLifecycle : Type :=
| Created | Started | Restarted | Failed | Stopped | Terminated.

#[export] Instance ActorLifecycle_eq_dec : EqDecision ActorLifecycle.
Proof. solve_decision. Defined.

(** [enum ChildAction]. *)
Inductive ChildAction : Type := ActStop | ActRestart | ActDelegate.

(** [enum InnerAction<A>]. *)
Inductive InnerAction (Ev : Type) : Type :=
| InnerEvent (ev : Ev)
| InnerError (e : ActorError.Error)
| InnerFail (e : ActorError.Error).
Arguments InnerEvent {Ev} _.
Arguments InnerError {Ev} _.
Arguments InnerFail {Ev} _.

(** [enum ChildError]; the reply channel of a fault is its number. *)
Inductive ChildError : Type :=
| ChildErr (e : ActorError.Error)
| ChildFault (e : ActorError.Error) (sender : nat).

(** A call that a hook of the actor makes on its context. *)
Inductive ctx_call (Ev : Type) : Type :=
| PublishEvent (ev : Ev)
| EmitError (e : ActorError.Error)
| EmitFail (e : ActorError.Error)
| StopSelf (sender : option nat)
| ChildCreated (stop_sender : nat).
Arguments PublishEvent {Ev} _.
Arguments EmitError {Ev} _.
Arguments EmitFail {Ev} _.
Arguments StopSelf {Ev} _.
Arguments ChildCreated {Ev} _.

(** The outcome of a hook: the actor, the calls on the context in order, the
    result. *)
Definition hook (A Ev X : Type) : Type := A * list (ctx_call Ev) * outcome ActorError.Error X.

(** [trait Actor] and [trait Handler]. *)
Class Actor (A Msg Ev Rsp : Type) := {
  supervision_strategy : SupervisionStrategy;
  pre_start : A -> hook A Ev unit;
  pre_restart : A -> option ActorError.Error -> hook A Ev unit;
  pre_stop : A -> hook A Ev unit;
  post_stop : A -> hook A Ev unit;
  handle_message : A -> ActorPath -> Msg -> hook A Ev Rsp;
  on_child_error : A -> ActorError.Error -> hook A Ev unit;
  on_child_fault : A -> ActorError.Error -> hook A Ev ChildAction;
}.

(** The hooks that are called, for the trace. *)
Inductive hook_name : Type :=
| PreStart | PreRestart | PreStop | PostStop | HandleMessage | OnChildError | OnChildFault.

(** What other tasks see. *)
Inductive obs (Ev Rsp : Type) : Type :=
| Called (h : hook_name)
| StartSignal (b : bool)
| Broadcast (ev : Ev)
| ParentError (e : ActorError.Error)
| ParentFault (e : ActorError.Error)
| ActionSent (sender : nat) (a : ChildAction)
| Replied (rsvp : nat) (r : outcome ActorError.Error Rsp)
| ChildStopped (stop_sender : nat)
| Removed (p : ActorPath)
| StopReplied (sender : nat)
| Backoff (d : Duration).
Arguments Called {Ev Rsp} _.
Arguments StartSignal {Ev Rsp} _.
Arguments Broadcast {Ev Rsp} _.
Arguments ParentError {Ev Rsp} _.
Arguments ParentFault {Ev Rsp} _.
Arguments ActionSent {Ev Rsp} _ _.
Arguments Replied {Ev Rsp} _ _.
Arguments ChildStopped {Ev Rsp} _.
Arguments Removed {Ev Rsp} _.
Arguments StopReplied {Ev Rsp} _.
Arguments Backoff {Ev Rsp} _.

(** Where the task is: at the head of the loop of [init], in the loop of [run],
    finished, unwound by a panic, or waiting for room in its own stop channel. *)
Inductive pc : Type := AtLoop | InRun | Done | Panicked | Blocked.

#[export] Instance pc_eq_dec : EqDecision pc.
Proof. solve_decision. Defined.

(** The capacity of [mpsc::channel(100)]. *)
Definition stop_capacity : nat := 100.

(** A message with the sender's path and the reply channel of an [ask]. *)
Definition envelope (Msg : Type) : Type := Msg * ActorPath * option nat.

(** What a branch has left to do when the calls of its hook on the context are
    done, with the result of the hook; and after a stop that the runner itself
    sends. *)
Inductive after (Rsp : Type) : Type :=
| AfterPreStart (res : outcome ActorError.Error unit)
| AfterPreRestart (res : outcome ActorError.Error unit)
| AfterPreStop (stop : option nat) (res : outcome ActorError.Error unit)
| AfterPostStop (res : outcome ActorError.Error unit)
| AfterChildError (res : outcome ActorError.Error unit)
| AfterChildFault (sender : nat) (res : outcome ActorError.Error ChildAction)
| AfterMessage (rsvp : option nat) (res : outcome ActorError.Error Rsp)
| AfterStop.
Arguments AfterPreStart {Rsp} _.
Arguments AfterPreRestart {Rsp} _.
Arguments AfterPreStop {Rsp} _ _.
Arguments AfterPostStop {Rsp} _.
Arguments AfterChildError {Rsp} _.
Arguments AfterChildFault {Rsp} _ _.
Arguments AfterMessage {Rsp} _ _.
Arguments AfterStop {Rsp}.

(** ** The runner *)

Record Runner (A Msg Ev Rsp : Type) : Type := mk_runner {
  path : ActorPath;
  actor : A;
  lifecycle : ActorLifecycle;
  receiver : list (envelope Msg);
  senders_alive : bool;
  stop_receiver : list (option nat);
  has_parent : bool;
  error_receiver : list ChildError;
  inner_receiver : list (InnerAction Ev);
  stop_signal : bool;
  error : option ActorError.Error;
  child_senders : list nat;
  retries : N;
  start_sender : bool;
  at_pc : pc;
  trace : list (obs Ev Rsp);
  pending : option (list (ctx_call Ev) * after Rsp);
}.
Arguments mk_runner {A Msg Ev Rsp} _ _ _ _ _ _ _ _ _ _ _ _ _ _ _ _ _.
Arguments path {A Msg Ev Rsp} _.
Arguments actor {A Msg Ev Rsp} _.
Arguments lifecycle {A Msg Ev Rsp} _.
Arguments receiver {A Msg Ev Rsp} _.
Arguments senders_alive {A Msg Ev Rsp} _.
Arguments stop_receiver {A Msg Ev Rsp} _.
Arguments has_parent {A Msg Ev Rsp} _.
Arguments error_receiver {A Msg Ev Rsp} _.
Arguments inner_receiver {A Msg Ev Rsp} _.
Arguments stop_signal {A Msg Ev Rsp} _.
Arguments error {A Msg Ev Rsp} _.
Arguments child_senders {A Msg Ev Rsp} _.
Arguments retries {A Msg Ev Rsp} _.
Arguments start_sender {A Msg Ev Rsp} _.
Arguments at_pc {A Msg Ev Rsp} _.
Arguments trace {A Msg Ev Rsp} _.
Arguments pending {A Msg Ev Rsp} _.

(** Why a computation of the task does not return: it panicked, or it waits for
    room in the stop channel with calls of a hook left to make. *)
Inductive halt (Ev Rsp : Type) : Type :=
| Unwound
| Waiting (calls : list (ctx_call Ev)) (k : after Rsp).
Arguments Unwound {Ev Rsp}.
Arguments Waiting {Ev Rsp} _ _.

(** Assignments to one field. *)
Section Fields.
Context {A Msg Ev Rsp : Type}.
Implicit Types (r : Runner A Msg Ev Rsp).

Definition set_actor (x : A) r : Runner A Msg Ev Rsp :=
  mk_runner (path r) x (lifecycle r) (receiver r) (senders_alive r) (stop_receiver r) (has_parent r)
    (error_receiver r) (inner_receiver r) (stop_signal r) (error r) (child_senders r) (retries r)
    (start_sender r) (at_pc r) (trace r) (pending r).

Definition set_lifecycle (x : ActorLifecycle) r : Runner A Msg Ev Rsp :=
  mk_runner (path r) (actor r) x (receiver r) (senders_alive r) (stop_receiver r) (has_parent r)
    (error_receiver r) (inner_receiver r) (stop_signal r) (error r) (child_senders r) (retries r)
    (start_sender r) (at_pc r) (trace r) (pending r).

Definition set_receiver (x : list (envelope Msg)) r : Runner A Msg Ev Rsp :=
  mk_runner (path r) (actor r) (lifecycle r) x (senders_alive r) (stop_receiver r) (has_parent r)
    (error_receiver r) (inner_receiver r) (stop_signal r) (error r) (child_senders r) (retries r)
    (start_sender r) (at_pc r) (trace r) (pending r).

Definition set_senders_alive (x : bool) r : Runner A Msg Ev Rsp :=
  mk_runner (path r) (actor r) (lifecycle r) (receiver r) x (stop_receiver r) (has_parent r)
    (error_receiver r) (inner_receiver r) (stop_signal r) (error r) (child_senders r) (retries r)
    (start_sender r) (at_pc r) (trace r) (pending r).

Definition set_stop_receiver (x : list (option nat)) r : Runner A Msg Ev Rsp :=
  mk_runner (path r) (actor r) (lifecycle r) (receiver r) (senders_alive r) x (has_parent r)
    (error_receiver r) (inner_receiver r) (stop_signal r) (error r) (child_senders r) (retries r)
    (start_sender r) (at_pc r) (trace r) (pending r).

Definition set_error_receiver (x : list ChildError) r : Runner A Msg Ev Rsp :=
  mk_runner (path r) (actor r) (lifecycle r) (receiver r) (senders_alive r) (stop_receiver r) (has_parent r)
    x (inner_receiver r) (stop_signal r) (error r) (child_senders r) (retries r)
    (start_sender r) (at_pc r) (trace r) (pending r).

Definition set_inner_receiver (x : list (InnerAction Ev)) r : Runner A Msg Ev Rsp :=
  mk_runner (path r) (actor r) (lifecycle r) (receiver r) (senders_alive r) (stop_receiver r) (has_parent r)
    (error_receiver r) x (stop_signal r) (error r) (child_senders r) (retries r)
    (start_sender r) (at_pc r) (trace r) (pending r).

Definition set_stop_signal (x : bool) r : Runner A Msg Ev Rsp :=
  mk_runner (path r) (actor r) (lifecycle r) (receiver r) (senders_alive r) (stop_receiver r) (has_parent r)
    (error_receiver r) (inner_receiver r) x (error r) (child_senders r) (retries r)
    (start_sender r) (at_pc r) (trace r) (pending r).

Definition set_error (x : option ActorError.Error) r : Runner A Msg Ev Rsp :=
  mk_runner (path r) (actor r) (lifecycle r) (receiver r) (senders_alive r) (stop_receiver r) (has_parent r)
    (error_receiver r) (inner_receiver r) (stop_signal r) x (child_senders r) (retries r)
    (start_sender r) (at_pc r) (trace r) (pending r).

Definition set_child_senders (x : list nat) r : Runner A Msg Ev Rsp :=
  mk_runner (path r) (actor r) (lifecycle r) (receiver r) (senders_alive r) (stop_receiver r) (has_parent r)
    (error_receiver r) (inner_receiver r) (stop_signal r) (error r) x (retries r)
    (start_sender r) (at_pc r) (trace r) (pending r).

Definition set_retries (x : N) r : Runner A Msg Ev Rsp :=
  mk_runner (path r) (actor r) (lifecycle r) (receiver r) (senders_alive r) (stop_receiver r) (has_parent r)
    (error_receiver r) (inner_receiver r) (stop_signal r) (error r) (child_senders r) x
    (start_sender r) (at_pc r) (trace r) (pending r).

Definition set_start_sender (x : bool) r : Runner A Msg Ev Rsp :=
  mk_runner (path r) (actor r) (lifecycle r) (receiver r) (senders_alive r) (stop_receiver r) (has_parent r)
    (error_receiver r) (inner_receiver r) (stop_signal r) (error r) (child_senders r) (retries r)
    x (at_pc r) (trace r) (pending r).

Definition set_at_pc (x : pc) r : Runner A Msg Ev Rsp :=
  mk_runner (path r) (actor r) (lifecycle r) (receiver r) (senders_alive r) (stop_receiver r) (has_parent r)
    (error_receiver r) (inner_receiver r) (stop_signal r) (error r) (child_senders r) (retries r)
    (start_sender r) x (trace r) (pending r).

Definition set_trace (x : list (obs Ev Rsp)) r : Runner A Msg Ev Rsp :=
  mk_runner (path r) (actor r) (lifecycle r) (receiver r) (senders_alive r) (stop_receiver r) (has_parent r)
    (error_receiver r) (inner_receiver r) (stop_signal r) (error r) (child_senders r) (retries r)
    (start_sender r) (at_pc r) x (pending r).

Definition set_pending (x : option (list (ctx_call Ev) * after Rsp)) r : Runner A Msg Ev Rsp :=
  mk_runner (path r) (actor r) (lifecycle r) (receiver r) (senders_alive r) (stop_receiver r) (has_parent r)
    (error_receiver r) (inner_receiver r) (stop_signal r) (error r) (child_senders r) (retries r)
    (start_sender r) (at_pc r) (trace r) x.

End Fields.

Module ActorRunner.

Section Operations.
Context {A Msg Ev Rsp : Type} `{Actor A Msg Ev Rsp}.

Local Abbreviation runner := (Runner A Msg Ev Rsp).
Local Abbreviation runM := (stM runner (halt Ev Rsp)).

Definition put (f : runner -> runner) : runM unit := modifyM f.

Definition observe (o : obs Ev Rsp) : runM unit := put (fun r => set_trace (trace r ++ [o]) r).

Definition send_inner (a : InnerAction Ev) : runM unit :=
  put (fun r => set_inner_receiver (inner_receiver r ++ [a]) r).

(** [ActorContext::stop]: [send] waits while the channel is full, with the calls
    [rest] and then [k] to follow. *)
Definition ctx_stop (sender : option nat) (rest : list (ctx_call Ev)) (k : after Rsp) : runM unit := fun r =>
  if decide (length (stop_receiver r) < stop_capacity)
  then (set_stop_receiver (stop_receiver r ++ [sender]) r, Ok tt)
  else (r, Err (Waiting (StopSelf sender :: rest) k)).

(** [ActorContext::emit_fail]. *)
Definition emit_fail (e : ActorError.Error) : runM unit :=
  _ ← put (set_error (Some e)); send_inner (InnerFail e).

Definition do_call (c : ctx_call Ev) (rest : list (ctx_call Ev)) (k : after Rsp) : runM unit :=
  match c with
  | PublishEvent ev => send_inner (InnerEvent ev)
  | EmitError e => send_inner (InnerError e)
  | EmitFail e => emit_fail e
  | StopSelf sender => ctx_stop sender rest k
  | ChildCreated s => put (fun r => set_child_senders (child_senders r ++ [s]) r)
  end.

Fixpoint do_calls (cs : list (ctx_call Ev)) (k : after Rsp) : runM unit :=
  match cs with
  | [] => mret tt
  | c :: cs => _ ← do_call c cs k; do_calls cs k
  end.

(** The result of a hook is a value; a panic unwinds the task. *)
Definition returned {X} (res : outcome ActorError.Error X) : runM (outcome ActorError.Error X) :=
  match res with
  | Panic => errM Unwound
  | res => mret res
  end.

(** A hook is called, its calls on the context take effect, and it returns; [k]
    is what follows. *)
Definition call {X} (h : hook_name) (f : A -> hook A Ev X)
    (k : outcome ActorError.Error X -> after Rsp) : runM (outcome ActorError.Error X) :=
  _ ← observe (Called h);
  r ← getM;
  let '(a, cs, res) := f (actor r) in
  _ ← put (set_actor a);
  _ ← do_calls cs (k res);
  returned res.

(** [ActorContext::stop_childs]: from the last child to the first, each one
    waited for. *)
Definition stop_childs : runM unit := fun r =>
  (set_child_senders []
     (set_trace (trace r ++ (ChildStopped <$> reverse (child_senders r))) r), Ok tt).

(** [ctx.remove_actor()] *)
Definition remove_actor : runM unit := r ← getM; observe (Removed (path r)).

(** The oneshot that tells the creator whether the actor started. *)
Definition send_start (b : bool) : runM unit :=
  r ← getM;
  if start_sender r then _ ← observe (StartSignal b); put (set_start_sender false)
  else mret tt.

(** What follows [ctx.restart]. *)
Definition after_pre_restart (res : outcome ActorError.Error unit) : runM unit :=
  match res with
  | Err e => put (set_error (Some e))
  | _ => _ ← put (set_lifecycle Started); put (set_retries 0%N)
  end.

(** [apply_supervision_strategy] *)
Definition apply_supervision_strategy (strategy : SupervisionStrategy) : runM unit :=
  match strategy with
  | StopStrategy => put (set_lifecycle Stopped)
  | RetryWith s =>
      r ← getM;
      if decide (retries r < max_retries s)%N then
        _ ← match (next_backoff s).1 with
            | Some d => observe (Backoff d)
            | None => mret tt
            end;
        _ ← put (set_retries (retries r + 1)%N);
        res ← call PreRestart (fun a => pre_restart a (error r)) AfterPreRestart;
        after_pre_restart res
      else put (set_lifecycle Stopped)
  end.

(** [ctx.stop(None)] and [self.stop_signal = true] *)
Definition stop_and_signal : runM unit := _ ← ctx_stop None [] AfterStop; put (set_stop_signal true).

(** [inner_handle]; [action] is what the parent answers to a fault, nothing when
    it drops the channel. *)
Definition inner_handle (action : option ChildAction) (event : InnerAction Ev) : runM unit :=
  match event with
  | InnerEvent ev => observe (Broadcast ev)
  | InnerError e =>
      r ← getM; if has_parent r then observe (ParentError e) else mret tt
  | InnerFail e =>
      r ← getM;
      _ ← (if has_parent r then
             _ ← observe (ParentFault e);
             match action with
             | Some a =>
                 _ ← put (set_error None);
                 match a with
                 | ActStop => mret tt
                 | ActRestart | ActDelegate => put (set_lifecycle Restarted)
                 end
             | None => mret tt
             end
           else mret tt);
      stop_and_signal
  end.

Definition after_pre_start (res : outcome ActorError.Error unit) : runM unit :=
  match res with
  | Err e => _ ← put (set_error (Some e)); put (set_lifecycle Failed)
  | _ => put (set_lifecycle Started)
  end.

(** One turn of the loop of [init]; the [Started] state enters [run]. *)
Definition init_turn : runM unit :=
  r ← getM;
  match lifecycle r with
  | Created =>
      res ← call PreStart pre_start AfterPreStart; after_pre_start res
  | Started => _ ← send_start true; put (set_at_pc InRun)
  | Restarted => apply_supervision_strategy (supervision_strategy (A:=A))
  | Stopped => _ ← call PostStop post_stop AfterPostStop; put (set_lifecycle Terminated)
  | Failed => put (set_lifecycle (if has_parent r then Terminated else Restarted))
  | Terminated =>
      _ ← remove_actor; _ ← send_start false;
      _ ← put (set_receiver []); put (set_at_pc Done)
  end.

(** The branches of [select!] in [run], each with its guard: [None] when the
    branch is not ready. *)

(** What follows the [break]: [init] looks at the error. *)
Definition leave_run : runM unit :=
  r ← getM;
  _ ← (match error r with Some _ => put (set_lifecycle Failed) | None => mret tt end);
  put (set_at_pc AtLoop).

Definition after_pre_stop (stop : option nat) (res : outcome ActorError.Error unit) : runM unit :=
  _ ← match res with Err _ => emit_fail ActorError.Stop | _ => mret tt end;
  _ ← stop_childs;
  _ ← remove_actor;
  _ ← match stop with Some s => observe (StopReplied s) | None => mret tt end;
  r ← getM;
  _ ← (if decide (lifecycle r = Started) then put (set_lifecycle Stopped) else mret tt);
  leave_run.

Definition on_stop (stop : option nat) : runM unit :=
  res ← call PreStop pre_stop (AfterPreStop stop); after_pre_stop stop res.

Definition after_child_fault (sender : nat) (res : outcome ActorError.Error ChildAction) : runM unit :=
  match res with Ok action => observe (ActionSent sender action) | _ => mret tt end.

Definition on_error (e : ChildError) : runM unit :=
  match e with
  | ChildErr e => _ ← call OnChildError (fun a => on_child_error a e) AfterChildError; mret tt
  | ChildFault e sender =>
      res ← call OnChildFault (fun a => on_child_fault a e) (AfterChildFault sender);
      after_child_fault sender res
  end.

Definition after_message (rsvp : option nat) (res : outcome ActorError.Error Rsp) : runM unit :=
  match rsvp with Some i => observe (Replied i res) | None => mret tt end.

(** [msg.handle(&mut self.actor, ctx)] *)
Definition on_message (m : envelope Msg) : runM unit :=
  let '(msg, sender, rsvp) := m in
  res ← call HandleMessage (fun a => handle_message a sender msg) (AfterMessage rsvp);
  after_message rsvp res.

(** A branch goes on after a wait: the call that waited is made again, then the
    other calls, then what follows the hook. *)
Definition resume (cs : list (ctx_call Ev)) (k : after Rsp) : runM unit :=
  _ ← do_calls cs k;
  match k with
  | AfterPreStart res => res ← returned res; after_pre_start res
  | AfterPreRestart res => res ← returned res; after_pre_restart res
  | AfterPreStop stop res => res ← returned res; after_pre_stop stop res
  | AfterPostStop res => _ ← returned res; put (set_lifecycle Terminated)
  | AfterChildError res => _ ← returned res; mret tt
  | AfterChildFault sender res => res ← returned res; after_child_fault sender res
  | AfterMessage rsvp res => res ← returned res; after_message rsvp res
  | AfterStop => put (set_stop_signal true)
  end.

(** The loop that the branch belongs to. *)
Definition loop_of (k : after Rsp) : pc :=
  match k with
  | AfterPreStart _ | AfterPreRestart _ | AfterPostStop _ => AtLoop
  | _ => InRun
  end.

(** ** Steps *)

Inductive label : Type :=
(* the task *)
| Turn
| SelStop
| SelError
| SelInner (action : option ChildAction)
| SelMsg
| Unblock
(* the outside *)
| Deliver (m : envelope Msg)
| StopRequest (sender : option nat)
| ChildReport (e : ChildError)
| DropSenders.

(** A computation of the task that does not return ends it, or is kept until it
    can go on. *)
Definition run_task (m : runM unit) (r : runner) : runner :=
  match m r with
  | (r', Ok _) => r'
  | (r', Err Unwound) | (r', Panic) => set_at_pc Panicked r'
  | (r', Err (Waiting cs k)) => set_pending (Some (cs, k)) (set_at_pc Blocked r')
  end.

Definition step (l : label) (r : runner) : option runner :=
  match l with
  | Turn => if decide (at_pc r = AtLoop) then Some (run_task init_turn r) else None
  | SelStop =>
      if decide (at_pc r = InRun) then
        match stop_receiver r with
        | stop :: q => Some (run_task (on_stop stop) (set_stop_receiver q r))
        | [] => None
        end
      else None
  | SelError =>
      if decide (at_pc r = InRun /\ stop_signal r = false) then
        match error_receiver r with
        | e :: q => Some (run_task (on_error e) (set_error_receiver q r))
        | [] => None
        end
      else None
  | SelInner action =>
      if decide (at_pc r = InRun /\ stop_signal r = false) then
        match inner_receiver r with
        | a :: q => Some (run_task (inner_handle action a) (set_inner_receiver q r))
        | [] => None
        end
      else None
  | SelMsg =>
      if decide (at_pc r = InRun /\ stop_signal r = false) then
        match receiver r with
        | m :: q => Some (run_task (on_message m) (set_receiver q r))
        | [] => if senders_alive r then None else Some (run_task stop_and_signal r)
        end
      else None
  | Unblock =>
      if decide (at_pc r = Blocked /\ length (stop_receiver r) < stop_capacity) then
        match pending r with
        | Some (cs, k) => Some (run_task (resume cs k) (set_pending None (set_at_pc (loop_of k) r)))
        | None => None
        end
      else None
  | Deliver m =>
      if decide (senders_alive r = true /\ at_pc r <> Done /\ at_pc r <> Panicked)
      then Some (set_receiver (receiver r ++ [m]) r) else None
  | StopRequest s =>
      if decide (length (stop_receiver r) < stop_capacity /\ at_pc r <> Done /\ at_pc r <> Panicked)
      then Some (set_stop_receiver (stop_receiver r ++ [s]) r) else None
  | ChildReport e => Some (set_error_receiver (error_receiver r ++ [e]) r)
  | DropSenders => Some (set_senders_alive false r)
  end.

(** [ActorRunner::create] *)
Definition create (p : ActorPath) (a : A) (parent : bool) : runner :=
  mk_runner p a Created [] true [] parent [] [] false None [] 0%N true AtLoop [] None.

Fixpoint steps (ls : list label) (r : runner) : option runner :=
  match ls with
  | [] => Some r
  | l :: ls => match step l r with Some r' => steps ls r' | None => None end
  end.

(** The turns of [init] up to [n], while the task is at its head. *)
Fixpoint turns (n : nat) (r : runner) : runner :=
  match n with
  | O => r
  | S n => match step Turn r with Some r' => turns n r' | None => r end
  end.

End Operations.

(** The task's own assignments, evaluated. *)
Ltac run_simpl :=
  unfold run_task, remove_actor, send_start, observe, put, modifyM, getM, mbind, stM_bind, mret,
    stM_ret; cbn.

(** The same with the hooks and the children. *)
Ltac run_eval :=
  unfold run_task, remove_actor, send_start, leave_run, stop_childs, send_inner, call, returned,
    after_pre_start, after_pre_restart, after_pre_stop, after_child_fault, after_message, observe, put,
    modifyM, getM, errM, mbind, stM_bind, mret, stM_ret; cbn.

End ActorRunner.
