(* ===== verification/RunnerCorrect.v ===== *)
(** * Starting, failing and stopping

    Invariants of every reachable runner, termination of the start loop, and the
    exact course of a stop, of a failure and of a restart. *)

From S2P Require Import Prelude Path Errors Supervision Runner.
Import ActorRunner.

Section Correct.
Context {A Msg Ev Rsp : Type} `{Actor A Msg Ev Rsp}.

Local Abbreviation runner := (Runner A Msg Ev Rsp).
Implicit Types (r : runner).

(** ** What a hook cannot change *)

(** The part of the runner that only the task's own code assigns. *)
Definition control r : ActorPath * ActorLifecycle * bool * bool * bool * N * bool * pc :=
  (path r, lifecycle r, senders_alive r, has_parent r, stop_signal r, retries r, start_sender r,
   at_pc r).

(** The answers to the creator of the actor. *)
Definition is_start (o : obs Ev Rsp) : bool :=
  match o with StartSignal _ => true | _ => false end.

Definition count_starts (t : list (obs Ev Rsp)) : nat := length (List.filter is_start t).

Definition starts r : nat := count_starts (trace r).

#[local] Arguments count_starts : simpl never.

Lemma count_starts_app t1 t2 : count_starts (t1 ++ t2) = count_starts t1 + count_starts t2.
Proof. unfold count_starts. by rewrite List.filter_app, length_app. Qed.

(** A computation that leaves an observation of the runner as it was. *)
Definition preserves {Y X} (f : runner -> Y) (m : stM runner (halt Ev Rsp) X) : Prop :=
  forall r r' res, m r = (r', res) -> f r' = f r.

Lemma preserves_ret {Y X} (f : runner -> Y) (x : X) : preserves f (mret x).
Proof. by intros r r' res [= <- _]. Qed.

Lemma preserves_err {Y X} (f : runner -> Y) h : preserves f (errM (A:=X) h).
Proof. by intros r r' res [= <- _]. Qed.

Lemma preserves_get {Y} (f : runner -> Y) : preserves f getM.
Proof. by intros r r' res [= <- _]. Qed.

Lemma preserves_bind {Y X Z} (f : runner -> Y) (m : stM runner (halt Ev Rsp) X) (k : X -> stM runner (halt Ev Rsp) Z) :
  preserves f m -> (forall x, preserves f (k x)) -> preserves f (m ≫= k).
Proof.
  intros Hm Hk r r' res. unfold mbind, stM_bind.
  destruct (m r) as [r1 [x|h|]] eqn:Hr; [|by intros [= <- _]; apply Hm in Hr..].
  intros Hr'. transitivity (f r1); [by eapply Hk|by eapply Hm].
Qed.

Lemma preserves_put {Y} (f : runner -> Y) g : (forall r, f (g r) = f r) -> preserves f (put g).
Proof. intros Hf r r' res [= <- _]. apply Hf. Qed.

(** What a hook keeps: the control state and the answers to the creator. *)
Definition kept r := (control r, starts r).

Lemma starts_app r o :
  is_start o = false -> starts (set_trace (trace r ++ [o]) r) = starts r.
Proof.
  intros Ho. unfold starts. cbn [trace set_trace]. rewrite count_starts_app.
  unfold count_starts at 2. cbn. rewrite Ho. cbn. lia.
Qed.

Lemma kept_observe o : is_start o = false -> preserves kept (observe o).
Proof. intros Ho. apply preserves_put. intros r. unfold kept. by rewrite starts_app. Qed.

Lemma kept_ctx_stop s cs k : preserves kept (ctx_stop s cs k).
Proof. intros r r' res. unfold ctx_stop. case_decide; by intros [= <- _]. Qed.

#[local] Hint Resolve preserves_ret preserves_err preserves_get preserves_bind preserves_put
  kept_observe kept_ctx_stop : rush.

Lemma kept_do_calls cs k : preserves kept (do_calls cs k).
Proof.
  induction cs as [|c cs IH]; [apply preserves_ret|]. apply preserves_bind; [|done].
  destruct c; cbn; unfold emit_fail, send_inner; auto 6 with rush.
Qed.

#[local] Hint Resolve kept_do_calls : rush.

Lemma preserves_returned {Y X} (f : runner -> Y) (res : outcome ActorError.Error X) :
  preserves f (returned res).
Proof. destruct res; [apply preserves_ret..|apply preserves_err]. Qed.

#[local] Hint Resolve preserves_returned : rush.

Lemma kept_call {X} h (f : A -> hook A Ev X) k : preserves kept (call h f k).
Proof.
  unfold call. apply preserves_bind; [by apply kept_observe|]. intros _.
  apply preserves_bind; [apply preserves_get|]. intros r. destruct (f (actor r)) as [[a cs] res].
  apply preserves_bind; [by apply preserves_put|]. intros _.
  apply preserves_bind; [apply kept_do_calls|]. auto with rush.
Qed.

#[local] Hint Resolve kept_call : rush.

(** A hook's result is never a panic. *)
Lemma call_no_panic {X} h (f : A -> hook A Ev X) k r r' : call h f k r <> (r', Ok Panic).
Proof.
  unfold call, mbind, stM_bind, observe, put, modifyM, getM. cbn.
  destruct (f _) as [[a cs] res]. cbn.
  destruct (do_calls cs _ _) as [r1 [[]|h'|]]; [|done..]. by destruct res.
Qed.

(** ** The start loop ends *)

Definition max_of (s : SupervisionStrategy) : N :=
  match s with StopStrategy => 0 | RetryWith s => max_retries s end.

(** The turns that are left before [run] or the end. *)
Definition turns_left r : nat :=
  let left := N.to_nat (max_of (supervision_strategy (A:=A)) - retries r) in
  match lifecycle r with
  | Started | Terminated => 1
  | Stopped => 2
  | Restarted => 3 + left
  | Failed => 4 + left
  | Created => 5 + left
  end.

(** The case analysis of a computation that starts with a hook. *)
Lemma run_call {X} h (f : A -> hook A Ev X) fr (k : outcome ActorError.Error X -> stM runner (halt Ev Rsp) unit) r :
  exists r1, control r1 = control r /\ starts r1 = starts r /\
    (run_task (call h f fr ≫= k) r = set_at_pc Panicked r1 \/
     (exists w, run_task (call h f fr ≫= k) r = set_pending w (set_at_pc Blocked r1)) \/
     exists res, res <> Panic /\ run_task (call h f fr ≫= k) r = run_task (k res) r1).
Proof.
  unfold run_task, mbind, stM_bind. destruct (call h f fr r) as [r1 [res|[|cs fr']|]] eqn:Hc;
    pose proof (kept_call _ _ _ _ _ _ Hc) as Hkept; pose proof (f_equal fst Hkept) as Hk;
    pose proof (f_equal snd Hkept) as Hs; exists r1; (split; [done|]); (split; [done|]).
  - right. right. exists res. split; [|done]. intros ->. by apply call_no_panic in Hc.
  - by left.
  - right; left. by eexists.
  - by left.
Qed.

Ltac control_eqs :=
  repeat match goal with
  | Hc : control ?r1 = control ?r |- _ =>
      unfold control in Hc; injection Hc as ? ? ? ? ? ? ? ?
  end.

Lemma run_get (k : runner -> stM runner (halt Ev Rsp) unit) r : run_task (getM ≫= k) r = run_task (k r) r.
Proof. done. Qed.

(** The retry of a failed start, up to the hook. *)
Lemma retry_turn s r :
  (retries r < max_retries s)%N ->
  run_task (apply_supervision_strategy (RetryWith s)) r
  = run_task (res ← call PreRestart (fun a => pre_restart a (error r)) AfterPreRestart;
              after_pre_restart res)
      (set_retries (retries r + 1)%N
         match (next_backoff s).1 with
         | Some d => set_trace (trace r ++ [Backoff d]) r
         | None => r
         end).
Proof.
  intros Hlt. cbn [apply_supervision_strategy]. rewrite run_get, decide_True by done.
  by destruct (next_backoff s).1.
Qed.

Lemma turn_decreases r :
  at_pc r = AtLoop ->
  at_pc (run_task init_turn r) <> AtLoop \/
  turns_left (run_task init_turn r) < turns_left r.
Proof.
  intros Hpc. unfold init_turn. rewrite run_get. unfold turns_left.
  destruct (lifecycle r) eqn:Hl.
  - destruct (run_call PreStart pre_start AfterPreStart (fun res => after_pre_start res) r)
      as (r1 & Hc & _ & [->|[[w ->]|(res & _ & ->)]]); [by left|by left|right].
    control_eqs. destruct res; cbn [after_pre_start]; run_simpl; lia.
  - left. run_simpl. by destruct (start_sender r).
  - destruct (supervision_strategy (A:=A)) as [|s] eqn:Hs; [right; cbn; lia|].
    destruct (decide (retries r < max_retries s)%N) as [Hlt|Hge].
    + rewrite retry_turn by done.
      match goal with |- context [run_task (call ?h ?f ?fr ≫= ?k) ?r0] =>
        destruct (run_call h f fr k r0) as (r1 & Hc & _ & [->|[[w ->]|(res & _ & ->)]]) end;
        [by left|by left|right].
      control_eqs.
      assert (retries r1 = (retries r + 1)%N) as Hr by (by destruct (next_backoff s).1).
      assert (lifecycle r1 = Restarted) as Hl1.
      { match goal with Hx : lifecycle r1 = _ |- _ => rewrite Hx, <- Hl end.
        by case_match. }
      cbn in Hlt. destruct res; cbn [after_pre_restart]; run_simpl; [lia|rewrite Hl1; lia|lia].
    + right. cbn. rewrite run_get, decide_False by done. cbn. lia.
  - right. cbn. destruct (has_parent r); cbn; lia.
  - destruct (run_call PostStop post_stop AfterPostStop (fun _ => put (set_lifecycle Terminated)) r)
      as (r1 & Hc & _ & [->|[[w ->]|(res & _ & ->)]]); [by left|by left|right]. cbn. lia.
  - left. run_simpl. by destruct (start_sender r).
Qed.

(** C10: From any state of the lifecycle the loop of init reaches run, or ends, within the
    number of turns that the lifecycle and the retries left allow: a start that keeps failing is
    not retried for ever. *)
Theorem start_loop_terminates r :
  at_pc r = AtLoop -> at_pc (turns (turns_left r) r) <> AtLoop.
Proof.
  intros Hpc. remember (turns_left r) as n eqn:Hn.
  assert (turns_left r <= n) as Hle by lia. clear Hn.
  revert r Hpc Hle. induction n as [|n IH]; intros r Hpc Hle.
  { unfold turns_left in Hle. destruct (lifecycle r); lia. }
  cbn. rewrite decide_True by done.
  destruct (turn_decreases r Hpc) as [Hne|Hlt].
  - destruct n as [|n]; [done|]. cbn. by rewrite decide_False.
  - destruct (decide (at_pc (run_task init_turn r) = AtLoop)) as [He|He].
    + apply IH; [done|lia].
    + destruct n as [|n]; [done|]. cbn. by rewrite decide_False.
Qed.

(** ** Waiting for room in the stop channel

    Only the stop branch of [run] receives from the channel: a task that waits
    for room in it keeps the channel full. *)

Definition full r : Prop := stop_capacity <= length (stop_receiver r).

Definition blocked_full r : Prop := at_pc r = Blocked -> full r.

(** A computation waits only on a full channel. *)
Definition waits_full {X} (m : stM runner (halt Ev Rsp) X) : Prop := forall r r' res,
  at_pc r <> Blocked -> m r = (r', res) ->
  at_pc r' <> Blocked /\ forall cs k, res = Err (Waiting cs k) -> full r'.

Lemma waits_full_ret {X} (x : X) : waits_full (mret x).
Proof. by intros r r' res Hp [= <- <-]. Qed.

Lemma waits_full_get : waits_full getM.
Proof. by intros r r' res Hp [= <- <-]. Qed.

Lemma waits_full_unwound {X} : waits_full (errM (A:=X) Unwound).
Proof. by intros r r' res Hp [= <- <-]. Qed.

Lemma waits_full_put g : (forall r, at_pc r <> Blocked -> at_pc (g r) <> Blocked) -> waits_full (put g).
Proof. intros Hg r r' res Hp [= <- <-]. split; [by apply Hg|done]. Qed.

Lemma waits_full_bind {X Y} (m : stM runner (halt Ev Rsp) X) (k : X -> stM runner (halt Ev Rsp) Y) :
  waits_full m -> (forall x, waits_full (k x)) -> waits_full (m ≫= k).
Proof.
  intros Hm Hk r r' res Hp. unfold mbind, stM_bind.
  destruct (m r) as [r1 [x|h|]] eqn:Hr; destruct (Hm _ _ _ Hp Hr) as [Hp1 Hf1].
  - by apply Hk.
  - intros [= <- <-]. split; [done|]. intros cs fr [= ->]. by eapply Hf1.
  - by intros [= <- <-].
Qed.

Lemma waits_full_ctx_stop s cs k : waits_full (ctx_stop s cs k).
Proof.
  intros r r' res Hp. unfold ctx_stop. case_decide; intros [= <- <-]; [done|].
  split; [done|]. intros _ _ _. unfold full. lia.
Qed.

Lemma waits_full_stop_childs : waits_full stop_childs.
Proof. by intros r r' res Hp [= <- <-]. Qed.

Ltac waits :=
  repeat first
    [ apply waits_full_ret | apply waits_full_get | apply waits_full_unwound | by apply waits_full_put
    | apply waits_full_ctx_stop | apply waits_full_stop_childs
    | apply waits_full_bind; [|intros ?] | case_match ].

Lemma waits_full_do_calls cs k : waits_full (do_calls cs k).
Proof.
  induction cs as [|c cs IH]; [apply waits_full_ret|]. apply waits_full_bind; [|done].
  destruct c; cbn; unfold emit_fail, send_inner; waits.
Qed.

Lemma waits_full_returned {X} (res : outcome ActorError.Error X) : waits_full (returned res).
Proof. unfold returned. waits. Qed.

Lemma waits_full_call {X} h (f : A -> hook A Ev X) k : waits_full (call h f k).
Proof.
  unfold call, observe. waits. all: apply waits_full_do_calls || apply waits_full_returned.
Qed.

Ltac waits_task :=
  repeat first [ apply waits_full_call | apply waits_full_do_calls | apply waits_full_returned
               | progress waits ].

Lemma waits_full_after_pre_stop stop res : waits_full (after_pre_stop stop res).
Proof. unfold after_pre_stop, leave_run, remove_actor, emit_fail, send_inner, observe. waits. Qed.

Lemma waits_full_init_turn : waits_full init_turn.
Proof.
  unfold init_turn, apply_supervision_strategy, after_pre_start, after_pre_restart, send_start,
    remove_actor, observe. waits_task.
Qed.

Lemma waits_full_on_stop s : waits_full (on_stop s).
Proof. apply waits_full_bind; [apply waits_full_call|]. intros res. apply waits_full_after_pre_stop. Qed.

Lemma waits_full_on_error e : waits_full (on_error e).
Proof. unfold on_error, after_child_fault, observe. waits_task. Qed.

Lemma waits_full_on_message m : waits_full (on_message m).
Proof. unfold on_message, after_message, observe. waits_task. Qed.

Lemma waits_full_inner_handle action ev : waits_full (inner_handle action ev).
Proof. unfold inner_handle, stop_and_signal, observe. waits. Qed.

Lemma waits_full_resume cs k : waits_full (resume cs k).
Proof.
  unfold resume, after_pre_start, after_pre_restart, after_child_fault, after_message, observe.
  waits_task.
Qed.

Lemma blocked_full_task m r :
  waits_full m -> at_pc r <> Blocked -> blocked_full (run_task m r).
Proof.
  intros Hm Hp. unfold blocked_full, run_task.
  destruct (m r) as [r1 [[]|[|cs k]|]] eqn:Hr; destruct (Hm _ _ _ Hp Hr) as [Hp1 Hf]; cbn; try done.
  intros _. by eapply Hf.
Qed.

Lemma loop_of_not_blocked (k : after Rsp) : loop_of k <> Blocked.
Proof. by destruct k. Qed.

Lemma blocked_full_step l r r' : blocked_full r -> step l r = Some r' -> blocked_full r'.
Proof.
  intros Hf. destruct l; cbn [step]; try case_decide as Hc; try done.
  - intros [= <-]. apply blocked_full_task; [apply waits_full_init_turn|congruence].
  - case_match; intros [= <-]. apply blocked_full_task; [apply waits_full_on_stop|cbn; congruence].
  - case_match; intros [= <-].
    apply blocked_full_task; [apply waits_full_on_error|cbn; destruct Hc; congruence].
  - case_match; intros [= <-].
    apply blocked_full_task; [apply waits_full_inner_handle|cbn; destruct Hc; congruence].
  - case_match; [case_match|]; intros [= <-]; (apply blocked_full_task; [|cbn; destruct Hc; congruence]).
    + unfold stop_and_signal. waits.
    + apply waits_full_on_message.
  - destruct (pending r) as [[cs k]|]; [|done]. intros [= <-].
    apply blocked_full_task; [apply waits_full_resume|apply loop_of_not_blocked].
  - by intros [= <-].
  - intros [= <-]. unfold blocked_full, full in *. cbn. rewrite length_app. intros Hp%Hf. lia.
  - by intros [= <-].
  - by intros [= <-].
Qed.

Lemma blocked_full_steps ls r r' : blocked_full r -> steps ls r = Some r' -> blocked_full r'.
Proof.
  revert r. induction ls as [|l ls IH]; intros r Hf; cbn [steps]; [by intros [= <-]|].
  destruct (step l r) as [r1|] eqn:Hs; [|done]. apply IH. by eapply blocked_full_step.
Qed.

(** It has no room, so that the task never goes on. *)
Lemma blocked_full_stays r : blocked_full r -> step Unblock r = None.
Proof.
  intros Hf. cbn. rewrite decide_False; [done|]. intros [Hp Hl]. specialize (Hf Hp). unfold full in Hf. lia.
Qed.

Lemma blocked_full_created p a parent : blocked_full (create p a parent).
Proof. done. Qed.

(** Runs of a task that is not waiting, or waits on a full channel, without the
    steps that never happen. *)
Lemma steps_no_unblock ls r r' : blocked_full r -> steps ls r = Some r' -> Forall (fun l => l <> Unblock) ls.
Proof.
  revert r. induction ls as [|l ls IH]; intros r Hf; cbn [steps]; [constructor|].
  destruct (step l r) as [r1|] eqn:Hs; [|done]. intros Hr. constructor.
  - intros ->. by rewrite blocked_full_stays in Hs.
  - eapply IH; [|exact Hr]. by eapply blocked_full_step.
Qed.

(** ** Reachable runners *)

Inductive reachable (p : ActorPath) (a : A) (parent : bool) : runner -> Prop :=
| reach_create : reachable p a parent (create p a parent)
| reach_step l r r' : reachable p a parent r -> step l r = Some r' -> reachable p a parent r'.

(** ** Runs *)

Lemma run_steps_app ls1 ls2 r :
  steps (ls1 ++ ls2) r
  = match steps ls1 r with Some r' => steps ls2 r' | None => None end.
Proof.
  revert r. induction ls1 as [|l ls1 IH]; intros r; [done|]. cbn [app steps].
  by destruct (step l r).
Qed.

(** [r'] is reached from [r] by the steps of one runner. *)
Definition runs r r' : Prop := exists ls, steps ls r = Some r'.

Lemma runs_refl r : runs r r.
Proof. by exists []. Qed.

Lemma runs_step l r r' : step l r = Some r' -> runs r r'.
Proof. intros Hs. exists [l]. cbn [steps]. by rewrite Hs. Qed.

Lemma runs_trans r1 r2 r3 : runs r1 r2 -> runs r2 r3 -> runs r1 r3.
Proof. intros [l1 H1] [l2 H2]. exists (l1 ++ l2). by rewrite run_steps_app, H1. Qed.

(** The creator has been told once the start signal is taken; inside [run] the
    actor has started, or waits for its stop to restart; at the end it is
    terminated. *)
Record runner_ok r : Prop := {
  ok_starts : starts r = if start_sender r then 0 else 1;
  ok_run : at_pc r = InRun ->
    start_sender r = false /\
    (lifecycle r = Started \/ lifecycle r = Restarted /\ stop_signal r = true);
  ok_done : at_pc r = Done -> start_sender r = false /\ lifecycle r = Terminated;
}.

(** The part of it that the task's code in [run] keeps. *)
Definition told r : nat * bool := (starts r, start_sender r).

Lemma told_kept {X} (m : stM runner (halt Ev Rsp) X) : preserves kept m -> preserves told m.
Proof. intros Hm r r' res Hr. apply Hm in Hr. unfold kept, control in Hr. unfold told. congruence. Qed.

Lemma told_observe o : is_start o = false -> preserves told (observe o).
Proof. intros. by apply told_kept, kept_observe. Qed.

Lemma told_ctx_stop s cs k : preserves told (ctx_stop s cs k).
Proof. apply told_kept, kept_ctx_stop. Qed.

Lemma told_call {X} h (f : A -> hook A Ev X) k : preserves told (call h f k).
Proof. apply told_kept, kept_call. Qed.

#[local] Hint Resolve told_observe told_ctx_stop told_call : rush.

(** Halting or not, the task of [m] keeps what [m] keeps, but for the program
    point. *)
Lemma told_task m r : preserves told m -> told (run_task m r) = told r.
Proof.
  intros Hm. unfold run_task. destruct (m r) as [r1 [x|[|cs k]|]] eqn:Hr; by apply Hm in Hr.
Qed.

Lemma told_stop_childs : preserves told stop_childs.
Proof.
  intros r r' res [= <- _]. unfold told, starts. cbn [trace set_trace set_child_senders start_sender].
  rewrite count_starts_app. f_equal.
  replace (count_starts (ChildStopped <$> reverse (child_senders r))) with 0; [lia|].
  by induction (reverse (child_senders r)).
Qed.

(** The program point is assigned by [init] and [run] themselves. *)
Lemma at_pc_kept {X} (m : stM runner (halt Ev Rsp) X) : preserves kept m -> preserves at_pc m.
Proof. intros Hm r r' res Hr. apply Hm in Hr. unfold kept, control in Hr. congruence. Qed.

Lemma at_pc_observe o : preserves at_pc (observe o).
Proof. by apply preserves_put. Qed.

Lemma at_pc_call {X} h (f : A -> hook A Ev X) k : preserves at_pc (call h f k).
Proof. apply at_pc_kept, kept_call. Qed.

(** A computation preserves what its parts preserve. *)
Ltac preserve :=
  repeat first
    [ apply preserves_ret | apply preserves_err | apply preserves_get | by apply preserves_put
    | by apply told_observe | apply told_ctx_stop | apply told_call | apply told_stop_childs
    | apply at_pc_observe | apply at_pc_call
    | apply preserves_bind; [|intros ?] | case_match ].

Lemma told_on_stop s : preserves told (on_stop s).
Proof. unfold on_stop, after_pre_stop, leave_run, remove_actor, emit_fail, send_inner. preserve. Qed.

Lemma told_on_error e : preserves told (on_error e).
Proof. unfold on_error, after_child_fault. preserve. Qed.

Lemma told_on_message m : preserves told (on_message m).
Proof. destruct m as [[msg s] rsvp]. unfold on_message, after_message. preserve. Qed.

Lemma told_inner_handle action ev : preserves told (inner_handle action ev).
Proof. unfold inner_handle, stop_and_signal. preserve. Qed.

Lemma told_stop_and_signal : preserves told stop_and_signal.
Proof. unfold stop_and_signal. preserve. Qed.

(** A task that ends without a halt, or halts. *)
Lemma run_task_cases m r :
  (exists r1, m r = (r1, Ok tt) /\ run_task m r = r1) \/
  at_pc (run_task m r) = Panicked \/ at_pc (run_task m r) = Blocked.
Proof.
  unfold run_task. destruct (m r) as [r1 [[]|[|cs k]|]]; [left; eauto|right; auto..].
Qed.

(** What [run] needs of its branches, other than the stop. *)
Lemma branch_ok m r :
  at_pc r = InRun -> runner_ok r -> preserves told m ->
  (forall r1, m r = (r1, Ok tt) -> at_pc r1 = InRun /\
     (lifecycle r1 = lifecycle r /\ stop_signal r1 = stop_signal r \/ stop_signal r1 = true /\
      (lifecycle r1 = lifecycle r \/ lifecycle r1 = Restarted))) ->
  runner_ok (run_task m r).
Proof.
  intros Hpc [Hs Hrun _] Hm Hb. destruct (Hrun Hpc) as [Hss Hl].
  pose proof (told_task m r Hm) as Ht. injection Ht as Ht1 Ht2.
  destruct (run_task_cases m r) as [(r1 & Hr1 & He)|Hhalt].
  - rewrite He in *. destruct (Hb _ Hr1) as [Hpc1 Hc].
    split; [by rewrite Ht1, Ht2| |congruence]. intros _. split; [congruence|].
    destruct Hc as [[-> ->]|[-> [->| ->]]]; [done| |by right]. destruct Hl as [?|[? _]]; auto.
  - split; [by rewrite Ht1, Ht2| |]; intros Hx; destruct Hhalt; congruence.
Qed.

(** A branch that only calls hooks and sends. *)
Lemma branch_kept m r :
  at_pc r = InRun -> runner_ok r -> preserves kept m -> runner_ok (run_task m r).
Proof.
  intros Hpc Hok Hm. apply branch_ok; [done|done|by apply told_kept|].
  intros r1 Hr1. apply Hm in Hr1. unfold kept, control in Hr1. injection Hr1 as ? ? ? ? ? ? ? ? ?.
  split; [congruence|]. left. split; congruence.
Qed.

Lemma kept_on_error e : preserves kept (on_error e).
Proof.
  destruct e as [e|e s]; apply preserves_bind; try apply kept_call; intros res.
  - apply preserves_ret.
  - destruct res; [by apply kept_observe|apply preserves_ret..].
Qed.

Lemma kept_on_message m : preserves kept (on_message m).
Proof.
  destruct m as [[msg s] rsvp]. apply preserves_bind; [apply kept_call|]. intros res.
  destruct rsvp; [by apply kept_observe|apply preserves_ret].
Qed.

Lemma inner_handle_ok action ev r :
  at_pc r = InRun -> runner_ok r -> runner_ok (run_task (inner_handle action ev) r).
Proof.
  intros Hpc Hok. apply branch_ok; [done|done|apply told_inner_handle|].
  intros r1. unfold inner_handle, stop_and_signal. destruct ev as [ev|e|e]; run_simpl.
  - intros [= <-]. auto.
  - destruct (has_parent r); cbn; intros [= <-]; auto.
  - destruct (has_parent r); [destruct action as [[]|]|]; cbn;
      unfold ctx_stop; cbn; case_decide; intros [= <-]; cbn; auto.
Qed.

Lemma stop_and_signal_ok r :
  at_pc r = InRun -> runner_ok r -> runner_ok (run_task stop_and_signal r).
Proof.
  intros Hpc Hok. apply branch_ok; [done|done|apply told_stop_and_signal|].
  intros r1. unfold stop_and_signal, ctx_stop. run_simpl. case_decide; intros [= <-]. auto.
Qed.

(** A computation whose last statement establishes [Q]. *)
Definition ends {X} (Q : runner -> Prop) (m : stM runner (halt Ev Rsp) X) : Prop :=
  forall r r1 x, m r = (r1, Ok x) -> Q r1.

Lemma ends_bind {X Y} Q (m : stM runner (halt Ev Rsp) X) (k : X -> stM runner (halt Ev Rsp) Y) :
  (forall x, ends Q (k x)) -> ends Q (m ≫= k).
Proof.
  intros Hk r r1 y. unfold mbind, stM_bind. destruct (m r) as [r' [x|h|]]; [|done..]. apply Hk.
Qed.

(** The stop leads back to [init]. *)
Lemma on_stop_ends s : ends (fun r => at_pc r = AtLoop) (on_stop s).
Proof.
  unfold on_stop, after_pre_stop, leave_run. repeat (apply ends_bind; intros ?).
  by intros ? ? ? [= <-].
Qed.

Lemma on_stop_ok s r : at_pc r = InRun -> runner_ok r -> runner_ok (run_task (on_stop s) r).
Proof.
  intros Hpc [Hs Hrun _]. pose proof (told_task _ r (told_on_stop s)) as Ht. injection Ht as Ht1 Ht2.
  assert (at_pc (run_task (on_stop s) r) <> InRun /\ at_pc (run_task (on_stop s) r) <> Done) as [H1 H2].
  { destruct (run_task_cases (on_stop s) r) as [(r1 & Hr1 & ->)|[-> | ->]]; [|done..].
    by rewrite (on_stop_ends _ _ _ _ Hr1). }
  split; [by rewrite Ht1, Ht2|done..].
Qed.

(** A turn of [init] that does not enter [run] and does not end. *)
Lemma loop_ok m r :
  at_pc r = AtLoop -> runner_ok r -> preserves told m -> preserves at_pc m ->
  runner_ok (run_task m r).
Proof.
  intros Hpc [Hs _ _] Hm Ha. pose proof (told_task m r Hm) as Ht. injection Ht as Ht1 Ht2.
  assert (at_pc (run_task m r) <> InRun /\ at_pc (run_task m r) <> Done) as [H1 H2].
  { destruct (run_task_cases m r) as [(r1 & Hr1 & ->)|[-> | ->]]; [|done..].
    by rewrite (Ha _ _ _ Hr1), Hpc. }
  split; [by rewrite Ht1, Ht2|done..].
Qed.

Lemma init_turn_ok r : at_pc r = AtLoop -> runner_ok r -> runner_ok (run_task init_turn r).
Proof.
  intros Hpc Hok. unfold init_turn. rewrite run_get.
  destruct (lifecycle r) eqn:Hl.
  - apply loop_ok; [done..| |]; unfold after_pre_start; preserve.
  - destruct Hok as [Hs _ _]. run_simpl.
    destruct (start_sender r) eqn:Hss; cbn; split; cbn; auto; try done;
      [|rewrite Hss in *; exact Hs].
    unfold starts in *. cbn [trace set_trace set_start_sender set_at_pc].
    rewrite count_starts_app, Hs. done.
  - apply loop_ok; [done..| |]; unfold apply_supervision_strategy, after_pre_restart; preserve.
  - apply loop_ok; [done..| |]; by apply preserves_put.
  - apply loop_ok; [done..| |]; preserve.
  - destruct Hok as [Hs _ _]. run_simpl.
    destruct (start_sender r) eqn:Hss; cbn; split; cbn; auto; try done;
      unfold starts in *; cbn [trace set_trace set_start_sender set_at_pc set_receiver];
      rewrite !count_starts_app, ?Hs, ?Hss; done.
Qed.

Lemma step_ok l r r' : blocked_full r -> runner_ok r -> step l r = Some r' -> runner_ok r'.
Proof.
  intros Hf Hok. destruct l; try (by rewrite blocked_full_stays); cbn [step].
  - case_decide; intros [= <-]. by apply init_turn_ok.
  - case_decide; [|done]. case_match; intros [= <-].
    apply on_stop_ok; [done|]. by destruct Hok.
  - case_decide as Hc; [|done]. case_match; intros [= <-].
    apply branch_kept; [apply Hc|by destruct Hok|apply kept_on_error].
  - case_decide as Hc; [|done]. case_match; intros [= <-].
    apply inner_handle_ok; [apply Hc|by destruct Hok].
  - case_decide as Hc; [|done]. case_match; [destruct (senders_alive r)|]; intros [= <-].
    + apply stop_and_signal_ok; [apply Hc|done].
    + apply branch_kept; [apply Hc|by destruct Hok|apply kept_on_message].
  - case_decide; intros [= <-]. by destruct Hok.
  - case_decide; intros [= <-]. by destruct Hok.
  - intros [= <-]. by destruct Hok.
  - intros [= <-]. by destruct Hok.
Qed.

Lemma reachable_full p a parent r : reachable p a parent r -> blocked_full r.
Proof. induction 1 as [|l r r' _ IH Hs]; [done|by eapply blocked_full_step]. Qed.

Lemma reachable_ok p a parent r : reachable p a parent r -> runner_ok r.
Proof.
  induction 1 as [|l r r' Hr IH Hs]; [by split|]. eapply step_ok; [by eapply reachable_full|exact IH|exact Hs].
Qed.

(** C13: In every reachable state of an actor's task its creator has been sent one start answer
    if the answer is no longer pending and none before; an actor in run has been answered and is
    started (or is restarting with its stop signal set), and a task that ended is terminated and
    has answered. *)
Theorem creator_is_told_exactly_once p a parent r :
  reachable p a parent r ->
  count_starts (trace r) = (if start_sender r then 0 else 1) /\
  (at_pc r = InRun \/ at_pc r = Done -> start_sender r = false) /\
  (at_pc r = InRun -> lifecycle r = Started \/ lifecycle r = Restarted /\ stop_signal r = true) /\
  (at_pc r = Done -> lifecycle r = Terminated).
Proof.
  intros [Hs Hrun Hd]%reachable_ok. split_and!; [done|..].
  - by intros [?%Hrun|?%Hd]; destruct_and?.
  - intros Hpc. by apply Hrun.
  - intros Hpc. by apply Hd.
Qed.

End Correct.

(** ** Witnesses *)

#[export] Instance plain : Actor nat nat nat nat := {
  supervision_strategy := StopStrategy;
  pre_start a := (a, [ChildCreated 1], Ok tt);
  pre_restart a _ := (a, [], Ok tt);
  pre_stop a := (a, [], Ok tt);
  post_stop a := (a, [], Ok tt);
  handle_message a _ msg := (a + msg, [PublishEvent msg], Ok (a + msg));
  on_child_error a _ := (a, [], Ok tt);
  on_child_fault a _ := (a, [], Ok ActStop);
}.

Definition plain_path : ActorPath := ActorPath.from "/user/plain".

Lemma start_loop_terminates_witness :
  at_pc (turns (turns_left (create plain_path 0 false)) (create plain_path 0 false)) <> AtLoop.
Proof. exact (start_loop_terminates (create plain_path 0 false) eq_refl). Defined.

Definition plain_run : Runner nat nat nat nat := turns 2 (create plain_path 0 false).

Lemma creator_is_told_exactly_once_witness :
  count_starts (trace plain_run) = 1.
Proof.
  assert (reachable plain_path 0 false plain_run) as Hr.
  { eapply (reach_step _ _ _ Turn); [eapply (reach_step _ _ _ Turn); [apply reach_create|]|];
      vm_compute; reflexivity. }
  exact (proj1 (creator_is_told_exactly_once _ _ _ _ Hr)).
Defined.
