(* ===== verification/RunnerStop.v ===== *)
(** * The course of a stop, of a failure and of a restart

    Exact traces of a runner whose hooks are quiet: what the other actors see,
    in order, when it is stopped, when it fails under a parent, when it is
    restarted and when its start keeps failing. *)

From S2P Require Import Prelude Path Errors Supervision Runner RunnerCorrect.
Import ActorRunner.

Section Stop.
Context {A Msg Ev Rsp : Type} `{Actor A Msg Ev Rsp}.

Local Abbreviation runner := (Runner A Msg Ev Rsp).
Implicit Types (r : runner) (a : A).

(** A hook that succeeds and calls nothing on the context, as the defaults. *)
Definition quiet (f : A -> hook A Ev unit) : Prop := forall a, f a = (a, [], Ok tt).

(** The trace of the stop of a runner, up to the end of [run]. *)
Definition stop_trace r (stop : option nat) : list (obs Ev Rsp) :=
  Called PreStop :: (ChildStopped <$> reverse (child_senders r)) ++ Removed (path r) ::
  match stop with Some s => [StopReplied s] | None => [] end.

#[local] Arguments stop_trace : simpl never.

(** The stop of a quiet actor. *)
Lemma sel_stop r stop q :
  quiet pre_stop -> at_pc r = InRun -> stop_receiver r = stop :: q ->
  step SelStop r = Some
    (mk_runner (path r) (actor r)
       (match error r with
        | Some _ => Failed
        | None => if decide (lifecycle r = Started) then Stopped else lifecycle r
        end)
       (receiver r) (senders_alive r) q (has_parent r) (error_receiver r) (inner_receiver r)
       (stop_signal r) (error r) [] (retries r) (start_sender r) AtLoop
       (trace r ++ stop_trace r stop) (pending r)).
Proof.
  intros Hq Hpc Hs. cbn. rewrite decide_True, Hs by done. f_equal.
  destruct r as [p a l rc sa st hp er ir ss err cs ret snd pc tr pd]. cbn in *. subst.
  unfold on_stop, stop_trace. run_eval. rewrite Hq. run_eval.
  destruct stop as [s|]; cbn; destruct (decide (l = Started)); cbn; destruct err; cbn;
    unfold set_at_pc, set_lifecycle; cbn; by rewrite <- !app_assoc.
Qed.

Lemma step_turn r : at_pc r = AtLoop -> step Turn r = Some (run_task init_turn r).
Proof. intros Hpc. cbn. by rewrite decide_True. Qed.

Lemma step_stop_request s r :
  at_pc r = InRun -> stop_receiver r = [] ->
  step (StopRequest s) r = Some (set_stop_receiver [s] r).
Proof.
  intros Hpc Hs. cbn. rewrite Hs, Hpc, decide_True; [done|].
  split_and!; [unfold stop_capacity; cbn; lia|done..].
Qed.

(** ** The turns of [init] *)

Lemma turn_stopped r :
  quiet post_stop -> at_pc r = AtLoop -> lifecycle r = Stopped ->
  step Turn r = Some (set_lifecycle Terminated (set_trace (trace r ++ [Called PostStop]) r)).
Proof.
  intros Hq Hpc Hl. rewrite step_turn by done. unfold init_turn. run_eval. rewrite Hl. run_eval.
  rewrite Hq. by destruct r.
Qed.

Lemma turn_terminated r :
  at_pc r = AtLoop -> lifecycle r = Terminated ->
  step Turn r = Some (set_at_pc Done (set_receiver [] (set_start_sender false
    (set_trace (trace r ++ Removed (path r) :: if start_sender r then [StartSignal false] else [])
       r)))).
Proof.
  intros Hpc Hl. rewrite step_turn by done. unfold init_turn. run_eval. rewrite Hl. run_eval.
  destruct r as [????????????? [] ???]; unfold set_at_pc, set_receiver; cbn; by rewrite <- ?app_assoc.
Qed.

Lemma turn_failed r :
  at_pc r = AtLoop -> lifecycle r = Failed ->
  step Turn r = Some (set_lifecycle (if has_parent r then Terminated else Restarted) r).
Proof.
  intros Hpc Hl. rewrite step_turn by done. unfold init_turn. run_eval. by rewrite Hl.
Qed.

Lemma turn_started r :
  at_pc r = AtLoop -> lifecycle r = Started ->
  step Turn r = Some (set_at_pc InRun (set_start_sender false
    (set_trace (trace r ++ if start_sender r then [StartSignal true] else []) r))).
Proof.
  intros Hpc Hl. rewrite step_turn by done. unfold init_turn. run_eval. rewrite Hl. run_eval.
  destruct r as [????????????? [] ???]; unfold set_at_pc; cbn; by rewrite ?app_nil_r.
Qed.

Lemma turn_created r a1 res :
  pre_start (actor r) = (a1, [], res) -> res <> Panic ->
  at_pc r = AtLoop -> lifecycle r = Created ->
  step Turn r = Some
    (match res with
     | Err e => fun r => set_lifecycle Failed (set_error (Some e) r)
     | _ => set_lifecycle Started
     end (set_actor a1 (set_trace (trace r ++ [Called PreStart]) r))).
Proof.
  intros Hp Hn Hpc Hl. rewrite step_turn by done. unfold init_turn. run_eval. rewrite Hl. run_eval.
  rewrite Hp. by destruct res.
Qed.

(** What is seen of the wait before an attempt. *)
Definition backoff_trace (s : Strategy.Strategy) : list (obs Ev Rsp) :=
  match (next_backoff s).1 with Some d => [Backoff d] | None => [] end.

Lemma turn_restarted r s a1 res :
  supervision_strategy (A:=A) = RetryWith s -> (retries r < max_retries s)%N ->
  pre_restart (actor r) (error r) = (a1, [], res) -> res <> Panic ->
  at_pc r = AtLoop -> lifecycle r = Restarted ->
  step Turn r = Some
    (match res with
     | Err e => fun r => set_error (Some e) (set_retries (retries r + 1)%N r)
     | _ => fun r => set_lifecycle Started (set_retries 0%N r)
     end (set_actor a1 (set_trace (trace r ++ backoff_trace s ++ [Called PreRestart]) r))).
Proof.
  intros Hs Hlt Hp Hn Hpc Hl. rewrite step_turn by done. unfold init_turn. run_eval. rewrite Hl, Hs.
  unfold apply_supervision_strategy, backoff_trace. run_eval. rewrite decide_True by done.
  change (Strategy.next_backoff s) with (next_backoff s).
  destruct r, (next_backoff s).1; cbn in *; rewrite Hp; destruct res; cbn; try done;
    unfold set_lifecycle, set_error; cbn; by rewrite <- ?app_assoc.
Qed.

Lemma turn_exhausted r s :
  supervision_strategy (A:=A) = RetryWith s -> (max_retries s <= retries r)%N ->
  at_pc r = AtLoop -> lifecycle r = Restarted ->
  step Turn r = Some (set_lifecycle Stopped r).
Proof.
  intros Hs Hge Hpc Hl. rewrite step_turn by done. unfold init_turn. run_eval. rewrite Hl, Hs.
  unfold apply_supervision_strategy. run_eval. rewrite decide_False; [done|].
  change (Strategy.max_retries s) with (max_retries s). lia.
Qed.

(** ** A stop *)

Lemma stop_course r stop q :
  quiet pre_stop -> quiet post_stop -> at_pc r = InRun -> lifecycle r = Started -> error r = None ->
  start_sender r = false -> stop_receiver r = stop :: q ->
  exists r', steps [SelStop; Turn; Turn] r = Some r' /\ at_pc r' = Done /\
    trace r' = trace r ++ stop_trace r stop ++ [Called PostStop; Removed (path r)].
Proof.
  intros Hq Hp Hpc Hl He Hss Hs. cbn [steps]. rewrite (sel_stop _ _ _ Hq Hpc Hs), He, Hl.
  rewrite decide_True, turn_stopped, turn_terminated by done. cbn. rewrite Hss.
  eexists. split; [done|]. cbn. split; [done|]. by rewrite <- !app_assoc.
Qed.

(** C14: A stop request to a started actor without an error, whose pre_stop and post_stop
    succeed and call nothing on the context, runs pre_stop, stops the children from the last to
    the first, removes the actor from the registry, confirms the stop, runs post_stop and ends
    the task, in this order and with nothing in between. *)
Theorem graceful_stop r stop q :
  quiet pre_stop -> quiet post_stop -> at_pc r = InRun -> lifecycle r = Started -> error r = None ->
  start_sender r = false -> stop_receiver r = stop :: q ->
  exists r', steps [SelStop; Turn; Turn] r = Some r' /\ at_pc r' = Done /\
    trace r' = trace r ++ stop_trace r stop ++ [Called PostStop; Removed (path r)].
Proof. apply stop_course. Qed.

(** ** A failure under a parent *)

(** The failure of an actor with a parent, once the parent has answered. *)
Lemma sel_fail r e q action :
  at_pc r = InRun -> stop_signal r = false -> has_parent r = true ->
  stop_receiver r = [] -> inner_receiver r = InnerFail e :: q ->
  step (SelInner action) r = Some
    (mk_runner (path r) (actor r)
       (match action with Some ActRestart | Some ActDelegate => Restarted | _ => lifecycle r end)
       (receiver r) (senders_alive r) [None] true (error_receiver r) q true
       (match action with Some _ => None | None => error r end)
       (child_senders r) (retries r) (start_sender r) InRun (trace r ++ [ParentFault e]) (pending r)).
Proof.
  intros Hpc Hss Hp Hs Hi. cbn. rewrite decide_True, Hi by done. f_equal.
  destruct r. cbn in *. subst. unfold inner_handle, stop_and_signal, ctx_stop. run_eval.
  by destruct action as [[]|].
Qed.


(** In [run] with the signal set and no stop queued, only a stop request is
    ever heard. *)
Definition deaf r : Prop := at_pc r = InRun /\ stop_signal r = true /\ stop_receiver r = [].

Lemma deaf_step l r r' :
  deaf r -> (forall s, l <> StopRequest s) -> step l r = Some r' -> deaf r' /\ trace r' = trace r.
Proof.
  intros (Hpc & Hss & Hs) Hl. unfold deaf.
  destruct l as [| | |action| | |m|x|ce|]; cbn; rewrite ?Hpc, ?Hss, ?Hs.
  - by rewrite decide_False.
  - by rewrite decide_True.
  - by rewrite decide_False by (by intros []).
  - by rewrite decide_False by (by intros []).
  - by rewrite decide_False by (by intros []).
  - by rewrite decide_False by (by intros []).
  - case_decide; by intros [= <-].
  - by destruct (Hl x).
  - by intros [= <-].
  - by intros [= <-].
Qed.

Lemma deaf_steps ls r r' :
  deaf r -> Forall (fun l => forall s, l <> StopRequest s) ls -> steps ls r = Some r' ->
  deaf r' /\ trace r' = trace r.
Proof.
  intros Hd Hls. revert r Hd. induction Hls as [|l ls Hl Hls IH]; intros r Hd; cbn.
  { by intros [= <-]. }
  destruct (step l r) as [r1|] eqn:Hs; [|done]. intros Hss.
  destruct (deaf_step _ _ _ Hd Hl Hs) as [Hd1 Ht1].
  destruct (IH _ Hd1 Hss) as [Hd2 Ht2]. split; [done|congruence].
Qed.

(** C38: A started child actor that fails and whose parent answers Restart, with a retry
    strategy that has attempts left, a pre_restart that succeeds and a quiet pre_stop, stops its
    children, leaves the registry, is restarted and enters run again with its stop signal still
    set: whatever happens next, it handles no message, event or error until it is stopped. *)
Theorem restarted_child_is_deaf r s e q :
  quiet pre_stop -> (forall a err, pre_restart a err = (a, [], Ok tt)) ->
  supervision_strategy (A:=A) = RetryWith s -> (retries r < max_retries s)%N ->
  at_pc r = InRun -> lifecycle r = Started -> stop_signal r = false -> has_parent r = true ->
  start_sender r = false -> stop_receiver r = [] -> inner_receiver r = InnerFail e :: q ->
  exists r', steps [SelInner (Some ActRestart); SelStop; Turn; Turn] r = Some r' /\
    at_pc r' = InRun /\ lifecycle r' = Started /\
    trace r' = trace r ++ ParentFault e :: stop_trace r None
                 ++ backoff_trace s ++ [Called PreRestart] /\
    forall ls r'', Forall (fun l => forall x, l <> StopRequest x) ls -> steps ls r' = Some r'' ->
      at_pc r'' = InRun /\ trace r'' = trace r'.
Proof.
  intros Hq Hr Hsv Hlt Hpc Hl Hss Hp Hst Hsr Hi. cbn [steps].
  rewrite (sel_fail _ _ _ _ Hpc Hss Hp Hsr Hi). erewrite sel_stop by done. cbn [error lifecycle].
  rewrite decide_False by done. erewrite turn_restarted; [|done|done|apply Hr|done..].
  cbn [steps]. rewrite turn_started by done. cbn. rewrite Hst.
  eexists. split; [done|]. cbn. split_and!; [done..| |].
  - by rewrite <- !app_assoc, app_nil_r.
  - intros ls r'' Hls Hs. apply deaf_steps in Hs as [(Hpc' & _) Ht]; [|done|done].
    by split.
Qed.

(** ** A root actor whose start failed *)

(** A root actor that started at its second attempt keeps the error of the first: when it is
    stopped it confirms the stop and leaves the registry, and then restarts and runs again
    instead of ending. *)
Theorem recovered_root_restarts_when_stopped p a a1 s e stop :
  quiet pre_stop -> (forall a err, pre_restart a err = (a, [], Ok tt)) ->
  pre_start a = (a1, [], Err e) ->
  supervision_strategy (A:=A) = RetryWith s -> (0 < max_retries s)%N ->
  exists r', steps [Turn; Turn; Turn; Turn; StopRequest stop; SelStop; Turn; Turn; Turn]
               (create p a false) = Some r' /\
    at_pc r' = InRun /\ lifecycle r' = Started /\
    trace r' = Called PreStart :: backoff_trace s ++ Called PreRestart :: StartSignal true
                 :: Called PreStop :: Removed p
                 :: match stop with Some x => [StopReplied x] | None => [] end
                 ++ backoff_trace s ++ [Called PreRestart].
Proof.
  intros Hq Hr Hps Hs Hlt. cbn [steps].
  erewrite turn_created by done. cbn [steps]. rewrite turn_failed by done. cbn [has_parent set_error].
  erewrite turn_restarted; [|done|done|apply Hr|done..]. rewrite turn_started by done.
  rewrite step_stop_request by done. cbn -[step].
  erewrite sel_stop by done. cbn -[step]. rewrite turn_failed by done. cbn -[step].
  erewrite turn_restarted; [|done|done|apply Hr|done..]. rewrite turn_started by done. cbn.
  eexists. split; [done|]. cbn. split_and!; [done..|].
  unfold stop_trace. cbn. by rewrite <- ?app_assoc, ?app_nil_r.
Qed.

(** ** A start that keeps failing *)

(** One attempt, as it is seen. *)
Definition attempt (s : Strategy.Strategy) : list (obs Ev Rsp) := backoff_trace s ++ [Called PreRestart].

Lemma turns_step n r r' : step Turn r = Some r' -> turns (S n) r = turns n r'.
Proof. intros Hs. cbn [turns]. by rewrite Hs. Qed.

Lemma failing_attempts s e n m r :
  supervision_strategy (A:=A) = RetryWith s -> (forall a err, pre_restart a err = (a, [], Err e)) ->
  at_pc r = AtLoop -> lifecycle r = Restarted -> max_retries s = (retries r + N.of_nat n)%N ->
  exists r', turns (n + m) r = turns m r' /\ at_pc r' = AtLoop /\ lifecycle r' = Restarted /\
    retries r' = max_retries s /\ path r' = path r /\ start_sender r' = start_sender r /\
    trace r' = trace r ++ concat (replicate n (attempt s)).
Proof.
  intros Hs Hr. revert r. induction n as [|n IH]; intros r Hpc Hl Hm.
  { exists r. cbn [replicate concat Nat.add]. rewrite app_nil_r. split_and!; [done..|lia|done|done|done]. }
  cbn [Nat.add]. erewrite turns_step by (eapply turn_restarted; [exact Hs|rewrite Hm; lia|apply Hr|done..]).
  edestruct (IH (set_error (Some e) (set_retries (retries r + 1)%N
      (set_actor (actor r) (set_trace (trace r ++ attempt s) r))))) as (r' & Ht & H1 & H2 & H3 & H4 & H5 & H6);
    [done|done|cbn -[max_retries]; lia|].
  exists r'. split; [exact Ht|]. split_and!; [done..|]. rewrite H6. cbn. by rewrite <- app_assoc.
Qed.

(** C27: A root actor that never starts is tried again exactly as many times as its strategy
    allows, each time after the first wait of the strategy, then post_stop runs, the actor
    leaves the registry and the creator is told that it did not start. *)
Theorem failing_start_is_retried_and_given_up p a a1 s e e' :
  quiet post_stop -> pre_start a = (a1, [], Err e) ->
  (forall a err, pre_restart a err = (a, [], Err e')) ->
  supervision_strategy (A:=A) = RetryWith s ->
  let r := turns (N.to_nat (max_retries s) + 5) (create p a false) in
  at_pc r = Done /\
  trace r = Called PreStart :: concat (replicate (N.to_nat (max_retries s)) (attempt s))
            ++ [Called PostStop; Removed p; StartSignal false].
Proof.
  intros Hq Hp Hr Hs. cbn zeta.
  replace (N.to_nat (max_retries s) + 5) with (S (S (N.to_nat (max_retries s) + 3))) by lia.
  erewrite turns_step by (by eapply turn_created). erewrite turns_step by (by apply turn_failed).
  cbn [has_parent set_error set_actor set_trace set_lifecycle create].
  match goal with |- context [turns _ ?r0] =>
    edestruct (failing_attempts s e' (N.to_nat (max_retries s)) 3 r0 Hs Hr eq_refl eq_refl)
      as (r' & -> & H1 & H2 & H3 & H4 & H5 & H6); [cbn -[max_retries]; lia|] end.
  erewrite turns_step by (eapply turn_exhausted; [done|by rewrite H3|done..]).
  erewrite turns_step by (by apply turn_stopped).
  erewrite turns_step by (by apply turn_terminated). cbn in H4, H5, H6. cbn.
  split; [done|]. rewrite H5, H6, H4. cbn. by rewrite <- !app_assoc.
Qed.

(** ** The bounded stop channel *)

(** A task that waits for room in its own full stop channel: what others do adds
    nothing to it that the task could act on, and nobody else receives from it. *)
Lemma blocked_step l r r' :
  at_pc r = Blocked -> full r -> step l r = Some r' ->
  at_pc r' = Blocked /\ full r' /\ trace r' = trace r.
Proof.
  intros Hp Hf Hs. assert (l <> Unblock) as Hl.
  { intros ->. by rewrite (blocked_full_stays r (fun _ => Hf)) in Hs. }
  revert Hs. destruct l; try done; cbn [step]; rewrite ?Hp; try (by rewrite decide_False by (by intros []));
    try case_decide; try done; intros [= <-]; split_and!; try done.
  unfold full in *. cbn. rewrite length_app. lia.
Qed.

Lemma blocked_for_ever ls r r' :
  at_pc r = Blocked -> full r -> steps ls r = Some r' -> at_pc r' = Blocked /\ trace r' = trace r.
Proof.
  revert r. induction ls as [|l ls IH]; intros r Hp Hf; cbn [steps]; [by intros [= <-]|].
  destruct (step l r) as [r1|] eqn:Hs; [|done]. intros Hr.
  destruct (blocked_step _ _ _ Hp Hf Hs) as (Hp1 & Hf1 & Ht1).
  destruct (IH r1 Hp1 Hf1 Hr) as [Hp' Ht']. split; [done|congruence].
Qed.

(** With room the wait would end: the stop is queued and the task goes on. *)
Lemma unblock_with_room r :
  at_pc r = Blocked -> pending r = Some ([StopSelf None], AfterStop) -> ~ full r ->
  exists r', step Unblock r = Some r' /\ at_pc r' = InRun /\ stop_signal r' = true /\
    stop_receiver r' = stop_receiver r ++ [None] /\ pending r' = None.
Proof.
  unfold full. intros Hp Hpd Hf. cbn [step]. rewrite decide_True, Hpd by (split; [done|lia]).
  eexists. split; [done|]. unfold resume. cbn [do_calls do_call]. unfold ctx_stop. run_eval.
  by rewrite decide_True by lia.
Qed.

(** C39: An actor that handles its own failure while its bounded stop channel is full waits for
    room in it, and the wait is for ever: only the stop branch of the same task receives from
    that channel, so that whatever others do it stays full, the task can never go on and does
    nothing more. *)
Theorem fail_with_a_full_stop_queue_deadlocks r e q action :
  at_pc r = InRun -> stop_signal r = false -> inner_receiver r = InnerFail e :: q ->
  length (stop_receiver r) = stop_capacity ->
  exists r', step (SelInner action) r = Some r' /\
    at_pc r' = Blocked /\ pending r' = Some ([StopSelf None], AfterStop) /\
    forall ls r'', steps ls r' = Some r'' ->
      at_pc r'' = Blocked /\ trace r'' = trace r' /\ step Unblock r'' = None.
Proof.
  intros Hpc Hss Hi Hl.
  assert (exists r', step (SelInner action) r = Some r' /\ at_pc r' = Blocked /\
    pending r' = Some ([StopSelf None], AfterStop)) as (r' & Hst & Hb & Hpd).
  { cbn. rewrite decide_True, Hi by done. eexists. split; [done|].
    unfold inner_handle, stop_and_signal, ctx_stop. run_eval.
    destruct (has_parent r); [destruct action as [[]|]|]; cbn;
      rewrite Hl; unfold stop_capacity; rewrite decide_False by lia; done. }
  assert (blocked_full r) as Hbf by (intros Hx; congruence).
  pose proof (blocked_full_step _ _ _ Hbf Hst) as Hf.
  exists r'. split_and!; [done..|]. intros ls r'' Hs.
  destruct (blocked_for_ever _ _ _ Hb (Hf Hb) Hs). split_and!; [done..|].
  apply blocked_full_stays. by eapply blocked_full_steps.
Qed.

End Stop.

(** ** Witnesses

    Two actors whose start fails: one recovers at the first attempt, the other
    never does. *)

Definition waits : Strategy.Strategy :=
  Strategy.CustomInterval (CustomIntervalStrategy.new [5%N; 10%N]).

#[export] Instance flaky : Actor bool nat nat nat := {
  supervision_strategy := RetryWith waits;
  pre_start a := (true, [], Err (ActorError.Start "down"));
  pre_restart a _ := (a, [], Ok tt);
  pre_stop a := (a, [], Ok tt);
  post_stop a := (a, [], Ok tt);
  handle_message a _ msg := (a, [PublishEvent msg], Ok msg);
  on_child_error a _ := (a, [], Ok tt);
  on_child_fault a _ := (a, [], Ok ActStop);
}.

#[export] Instance broken : Actor unit nat nat nat := {
  supervision_strategy := RetryWith waits;
  pre_start a := (a, [], Err (ActorError.Start "down"));
  pre_restart a _ := (a, [], Err (ActorError.Start "still down"));
  pre_stop a := (a, [], Ok tt);
  post_stop a := (a, [], Ok tt);
  handle_message a _ msg := (a, [EmitFail ActorError.Stop], Ok msg);
  on_child_error a _ := (a, [], Ok tt);
  on_child_fault a _ := (a, [], Ok ActStop);
}.

Definition probe : ActorPath := ActorPath.from "/user/probe".

(** An actor that runs, with two children and a queue of stop requests. *)
Definition running_probe (parent : bool) (stops : list (option nat)) (err : option ActorError.Error)
    (inner : list (InnerAction nat)) : Runner bool nat nat nat :=
  mk_runner probe true Started [] true stops parent [] inner false err [1; 2] 0%N false InRun [] None.

Lemma graceful_stop_witness :
  exists r', steps [SelStop; Turn; Turn] (running_probe true [Some 7] None []) = Some r' /\
    at_pc r' = Done /\
    trace r' = [Called PreStop; ChildStopped 2; ChildStopped 1; Removed probe; StopReplied 7;
                Called PostStop; Removed probe].
Proof.
  exact (graceful_stop (running_probe true [Some 7] None []) (Some 7) []
           (fun _ => eq_refl) (fun _ => eq_refl) eq_refl eq_refl eq_refl eq_refl eq_refl).
Defined.

Definition failing_probe : Runner bool nat nat nat :=
  running_probe true [] (Some ActorError.Stop) [InnerFail ActorError.Stop].


Lemma restarted_child_is_deaf_witness :
  exists r', steps [SelInner (Some ActRestart); SelStop; Turn; Turn] failing_probe = Some r' /\
    at_pc r' = InRun /\
    forall r'', steps [Deliver (1, probe, None); SelMsg] r' = Some r'' -> trace r'' = trace r'.
Proof.
  destruct (restarted_child_is_deaf (H:=flaky) failing_probe waits ActorError.Stop []
    (fun _ => eq_refl) (fun _ _ => eq_refl) eq_refl eq_refl eq_refl eq_refl eq_refl eq_refl eq_refl
    eq_refl eq_refl) as (r' & Hs & Hpc & _ & _ & Hdeaf).
  exists r'. split; [exact Hs|]. split; [exact Hpc|]. intros r'' Hr.
  refine (proj2 (Hdeaf _ r'' _ Hr)). by repeat constructor.
Defined.

Lemma recovered_root_restarts_when_stopped_witness :
  exists r', steps [Turn; Turn; Turn; Turn; StopRequest (Some 7); SelStop; Turn; Turn; Turn]
               (create probe false false) = Some r' /\
    at_pc r' = InRun /\ lifecycle r' = Started /\
    trace r' = [Called PreStart; Backoff 5%N; Called PreRestart; StartSignal true;
                Called PreStop; Removed probe; StopReplied 7; Backoff 5%N; Called PreRestart].
Proof.
  exact (recovered_root_restarts_when_stopped (H:=flaky) probe false true waits
           (ActorError.Start "down") (Some 7) (fun _ => eq_refl) (fun _ _ => eq_refl) eq_refl eq_refl eq_refl).
Defined.

Lemma failing_start_is_retried_and_given_up_witness :
  trace (turns (N.to_nat (max_retries waits) + 5) (create probe tt false))
  = [Called PreStart; Backoff 5%N; Called PreRestart; Backoff 5%N; Called PreRestart;
     Called PostStop; Removed probe; StartSignal false].
Proof.
  exact (proj2 (failing_start_is_retried_and_given_up probe tt tt waits (ActorError.Start "down")
    (ActorError.Start "still down") (fun _ => eq_refl) eq_refl (fun _ _ => eq_refl) eq_refl)).
Defined.

Definition flooded_probe : Runner bool nat nat nat :=
  running_probe true (replicate stop_capacity None) (Some ActorError.Stop)
    [InnerFail ActorError.Stop].

Lemma fail_with_a_full_stop_queue_deadlocks_witness :
  exists r', step (SelInner (Some ActStop)) flooded_probe = Some r' /\ at_pc r' = Blocked /\
    forall r'', steps [Deliver (1, probe, None); DropSenders] r' = Some r'' -> step Unblock r'' = None.
Proof.
  destruct (fail_with_a_full_stop_queue_deadlocks (H:=flaky) flooded_probe ActorError.Stop [] (Some ActStop)
              eq_refl eq_refl eq_refl eq_refl) as (r' & Hs & Hd & _ & Hall).
  exists r'. split; [exact Hs|]. split; [exact Hd|]. intros r'' Hr. exact (proj2 (proj2 (Hall _ r'' Hr))).
Defined.
