(* ===== verification/Messaging.v ===== *)
(** * References to an actor and its mailbox (actor/src/handler.rs, [ActorRef] of actor/src/actor.rs)

    What the holder of an [ActorRef] does to the channels of the runner of
    [Runner], and what it gets back: [tell], [ask], the two stops, [is_closed].
    A call that waits is split: the first part sends, the second tells what its
    oneshot gives in the state reached by then, nothing while it waits. The
    mailbox is shown to be a queue that serves each message once and answers it
    with what the handler returned. *)

From S2P Require Import Prelude Path Errors Supervision Runner RunnerCorrect RunnerStop.
Import ActorRunner.

(** The text of a send on a channel without a receiver, and of a oneshot whose
    sender was dropped. *)
Definition channel_closed : string := "channel closed".

(** [struct ActorRef]: the path; its senders are those of the runner at hand. *)
Record ActorRef : Type := mk_ref { ref_path : ActorPath }.

Module HandleHelper.

Section Operations.
Context {A Msg Ev Rsp : Type} `{Actor A Msg Ev Rsp}.

Local Abbreviation runner := (Runner A Msg Ev Rsp).

(** [self.sender.is_closed()]: [init] closes the mailbox when it ends, and a
    panic drops it. *)
Definition is_closed (r : runner) : bool :=
  match at_pc r with Done | Panicked => true | _ => false end.

(** [self.sender.closed().await], which waits while it gives nothing. *)
Definition close (r : runner) : option unit := if is_closed r then Some tt else None.

(** [self.sender.send(Box::new(msg))] *)
Definition send (m : envelope Msg) (r : runner) : runner * outcome string unit :=
  if is_closed r then (r, Err channel_closed)
  else (set_receiver (receiver r ++ [m]) r, Ok tt).

(** [ActorMessage::new] and [HandleHelper::tell]. *)
Definition tell (sender : ActorPath) (message : Msg) (r : runner)
    : runner * outcome ActorError.Error unit :=
  let '(r, res) := send (message, sender, None) r in (r, map_err ActorError.Send res).

(** [HandleHelper::ask] up to its await, on a fresh oneshot [rsvp]. *)
Definition ask_send (rsvp : nat) (sender : ActorPath) (message : Msg) (r : runner)
    : runner * outcome ActorError.Error unit :=
  let '(r, res) := send (message, sender, Some rsvp) r in (r, map_err ActorError.Send res).

(** What a oneshot was sent. *)
Fixpoint reply_to (rsvp : nat) (t : list (obs Ev Rsp)) : option (outcome ActorError.Error Rsp) :=
  match t with
  | [] => None
  | Replied i res :: t => if decide (i = rsvp) then Some res else reply_to rsvp t
  | _ :: t => reply_to rsvp t
  end.

(** [response_receiver.await]: the answer; an error once the sender is dropped,
    with the mailbox or with the task; nothing yet otherwise. *)
Definition ask_await (rsvp : nat) (r : runner) : option (outcome ActorError.Error Rsp) :=
  match reply_to rsvp (trace r) with
  | Some res => Some res
  | None => if is_closed r then Some (Err (ActorError.Send channel_closed)) else None
  end.

End Operations.

End HandleHelper.

Module ActorRefOps.

Section Operations.
Context {A Msg Ev Rsp : Type} `{Actor A Msg Ev Rsp}.

Local Abbreviation runner := (Runner A Msg Ev Rsp).

Definition path (ref : ActorRef) : ActorPath := ref_path ref.

(** The sender that the message carries is the path of the reference. *)
Definition tell (ref : ActorRef) (message : Msg) (r : runner)
    : runner * outcome ActorError.Error unit :=
  HandleHelper.tell (path ref) message r.

Definition ask_send (ref : ActorRef) (rsvp : nat) (message : Msg) (r : runner)
    : runner * outcome ActorError.Error unit :=
  HandleHelper.ask_send rsvp (path ref) message r.

Definition is_closed (ref : ActorRef) (r : runner) : bool := HandleHelper.is_closed r.

(** [self.stop_sender.send(..)]: [None] while the bounded channel is full. *)
Definition stop_send (stop : option nat) (r : runner) : option (runner * outcome string unit) :=
  if HandleHelper.is_closed r then Some (r, Err channel_closed)
  else if decide (length (stop_receiver r) < stop_capacity)
  then Some (set_stop_receiver (stop_receiver r ++ [stop]) r, Ok tt)
  else None.

(** [ask_stop] up to its await: [true] when there is a confirmation to wait for. *)
Definition ask_stop_send (rsvp : nat) (r : runner) : option (runner * bool) :=
  match stop_send (Some rsvp) r with
  | Some (r, Ok _) => Some (r, true)
  | Some (r, _) => Some (r, false)
  | None => None
  end.

Fixpoint stop_confirmed (rsvp : nat) (t : list (obs Ev Rsp)) : bool :=
  match t with
  | [] => false
  | StopReplied i :: t => if decide (i = rsvp) then true else stop_confirmed rsvp t
  | _ :: t => stop_confirmed rsvp t
  end.

(** What [ask_stop] returns after the send. *)
Definition ask_stop_await (rsvp : nat) (r : runner) : option (outcome ActorError.Error unit) :=
  if stop_confirmed rsvp (trace r) then Some (Ok tt)
  else if HandleHelper.is_closed r then Some (Err (ActorError.Send channel_closed)) else None.

Definition tell_stop (r : runner) : option runner := fst <$> stop_send None r.

End Operations.

End ActorRefOps.

(** ** The mailbox is a queue

    Of a trace, the part that the messages leave: that the handler was called and
    what it answered. *)

Section Mailbox.
Context {A Msg Ev Rsp : Type} `{Actor A Msg Ev Rsp}.

Local Abbreviation runner := (Runner A Msg Ev Rsp).
Implicit Types (r : runner) (m : envelope Msg).

Definition is_msg (o : obs Ev Rsp) : bool :=
  match o with Called HandleMessage | Replied _ _ => true | _ => false end.

Definition msg_obs (t : list (obs Ev Rsp)) : list (obs Ev Rsp) := List.filter is_msg t.

(** What serving a message adds to it. *)
Definition served (m : envelope Msg) (res : outcome ActorError.Error Rsp) : list (obs Ev Rsp) :=
  Called HandleMessage :: match m.2 with Some i => [Replied i res] | None => [] end.

(** The answer is the handler's, in some state of the actor. *)
Definition answered (m : envelope Msg) (res : outcome ActorError.Error Rsp) : Prop :=
  exists a : A, (handle_message a m.1.2 m.1.1).2 = res.

(** The messages that the labels deliver, in order. *)
Definition delivered (ls : list (label (Msg:=Msg))) : list (envelope Msg) :=
  omap (fun l => match l with Deliver m => Some m | _ => None end) ls.

(** [sent] is the messages handled with their answers, the one whose handler
    never returned, and those that wait. *)
Record fifo (sent : list (envelope Msg)) r (handled : list (envelope Msg))
    (results : list (outcome ActorError.Error Rsp)) (current rest : list (envelope Msg)) : Prop := {
  ff_sent : sent = handled ++ current ++ rest;
  ff_rest : at_pc r <> Done -> rest = receiver r;
  ff_current : current = [] \/
    (exists m, current = [m]) /\ (at_pc r = Panicked \/ at_pc r = Blocked);
  ff_trace : msg_obs (trace r)
    = concat (zip_with served handled results) ++ (const (Called HandleMessage) <$> current);
  ff_answers : Forall2 answered handled results;
}.

(** What every computation of the task but the handling of a message keeps. *)
Definition mail r : list (envelope Msg) * list (obs Ev Rsp) := (receiver r, msg_obs (trace r)).

Lemma msg_obs_app t1 t2 : msg_obs (t1 ++ t2) = msg_obs t1 ++ msg_obs t2.
Proof. apply List.filter_app. Qed.

Lemma mail_observe o : is_msg o = false -> preserves mail (observe o).
Proof.
  intros Ho. apply preserves_put. intros r. unfold mail. cbn. rewrite msg_obs_app.
  cbn. by rewrite Ho, app_nil_r.
Qed.

Lemma mail_ctx_stop s cs k : preserves mail (ctx_stop s cs k).
Proof. intros r r' res. unfold ctx_stop. case_decide; by intros [= <- _]. Qed.

Lemma mail_do_calls cs k : preserves mail (do_calls cs k).
Proof.
  induction cs as [|c cs IH]; [apply preserves_ret|]. apply preserves_bind; [|done].
  destruct c; cbn; unfold emit_fail, send_inner;
    first [apply mail_ctx_stop | by apply preserves_put
          | apply preserves_bind; [|intros _]; by apply preserves_put].
Qed.

Lemma mail_call {X} h (f : A -> hook A Ev X) k :
  is_msg (Called h) = false -> preserves mail (call h f k).
Proof.
  intros Hh. unfold call. apply preserves_bind; [by apply mail_observe|]. intros _.
  apply preserves_bind; [apply preserves_get|]. intros r. destruct (f (actor r)) as [[a cs] res].
  apply preserves_bind; [by apply preserves_put|]. intros _.
  apply preserves_bind; [apply mail_do_calls|]. intros _. apply preserves_returned.
Qed.

Lemma mail_stop_childs : preserves mail stop_childs.
Proof.
  intros r r' res [= <- _]. unfold mail. cbn. rewrite msg_obs_app.
  replace (msg_obs (ChildStopped <$> reverse (child_senders r))) with (@nil (obs Ev Rsp));
    [by rewrite app_nil_r|].
  by induction (reverse (child_senders r)).
Qed.

Ltac mail_steps :=
  repeat first
    [ apply preserves_ret | apply preserves_err | apply preserves_get | by apply preserves_put
    | by apply mail_observe | apply mail_ctx_stop | by apply mail_call | apply mail_stop_childs
    | apply preserves_bind; [|intros ?] | case_match ].

Lemma mail_on_stop s : preserves mail (on_stop s).
Proof. unfold on_stop, after_pre_stop, leave_run, remove_actor, emit_fail, send_inner. mail_steps. Qed.

Lemma mail_on_error e : preserves mail (on_error e).
Proof. unfold on_error, after_child_fault. mail_steps. Qed.

Lemma mail_inner_handle action ev : preserves mail (inner_handle action ev).
Proof. unfold inner_handle, stop_and_signal. mail_steps. Qed.

Lemma mail_stop_and_signal : preserves mail stop_and_signal.
Proof. unfold stop_and_signal. mail_steps. Qed.

Lemma mail_task (g : stM runner (halt Ev Rsp) unit) r : preserves mail g -> mail (run_task g r) = mail r.
Proof. intros Hg. unfold run_task. destruct (g r) as [r1 [x|[|cs k]|]] eqn:Hr; by apply Hg in Hr. Qed.

Lemma mail_init_turn r : lifecycle r <> Terminated -> mail (run_task init_turn r) = mail r.
Proof.
  intros Hl. unfold init_turn. rewrite run_get.
  destruct (lifecycle r); try done; apply mail_task; unfold apply_supervision_strategy,
    after_pre_start, after_pre_restart, send_start;
    mail_steps.
Qed.

(** Handling a message: served and answered, or interrupted in its handler. *)
Lemma on_message_mail m r :
  receiver (run_task (on_message m) r) = receiver r /\
  ((exists res, at_pc (run_task (on_message m) r) = at_pc r /\ answered m res /\
      msg_obs (trace (run_task (on_message m) r)) = msg_obs (trace r) ++ served m res) \/
   (at_pc (run_task (on_message m) r) = Panicked \/ at_pc (run_task (on_message m) r) = Blocked) /\
      msg_obs (trace (run_task (on_message m) r)) = msg_obs (trace r) ++ [Called HandleMessage]).
Proof.
  destruct m as [[msg sender] rsvp]. unfold on_message, after_message, run_task, call.
  unfold observe, put, modifyM, getM, mbind, stM_bind. cbn [actor set_trace].
  destruct (handle_message (actor r) sender msg) as [[a cs] res] eqn:Hh.
  set (r1 := set_actor a _). destruct (do_calls cs _ r1) as [r2 hr] eqn:Hd.
  pose proof (mail_do_calls cs _ _ _ _ Hd) as [Hrc Htr]%pair_equal_spec.
  pose proof (at_pc_kept _ (kept_do_calls cs _) _ _ _ Hd) as Hpc.
  assert (msg_obs (trace r1) = msg_obs (trace r) ++ [Called HandleMessage]) as Ht1
    by (subst r1; cbn; by rewrite msg_obs_app).
  rewrite Ht1 in Htr. change (receiver r1) with (receiver r) in Hrc.
  change (at_pc r1) with (at_pc r) in Hpc.
  destruct hr as [[]|[|cs' k']|]; cbn; [|by split; [|right; auto]..].
  destruct res as [x|e|]; cbn; [| |by split; [|right; auto]].
  all: destruct rsvp as [i|]; cbn; (split; [done|]); left; eexists; (split; [done|]);
    (split; [exists (actor r); cbn; by rewrite Hh|]); cbn; [|done].
  all: rewrite msg_obs_app, Htr, <- app_assoc; done.
Qed.

Definition fifo_ok (sent : list (envelope Msg)) r : Prop :=
  exists handled results current rest, fifo sent r handled results current rest.

(** Steps that leave the mail alone. *)
Lemma fifo_same sent r r' :
  fifo_ok sent r -> mail r' = mail r -> at_pc r' = at_pc r -> fifo_ok sent r'.
Proof.
  intros (h & res & c & rest & []) [Hrc Htr]%pair_equal_spec Hpc. exists h, res, c, rest.
  split; [done| | |congruence|done]; by rewrite Hpc, ?Hrc.
Qed.

Lemma fifo_task sent r r' :
  fifo_ok sent r -> mail r' = mail r -> at_pc r = AtLoop \/ at_pc r = InRun -> fifo_ok sent r'.
Proof.
  intros (h & res & c & rest & [Hs Hr Hc Ht Ha]) [Hrc Htr]%pair_equal_spec Hpc.
  destruct Hc as [->|[_ Hc]]; [|destruct Hpc, Hc; congruence].
  exists h, res, [], rest. split; [done| |by left|congruence|done].
  intros _. rewrite Hrc. apply Hr. destruct Hpc; congruence.
Qed.

Lemma fifo_terminated sent r :
  fifo_ok sent r -> at_pc r = AtLoop -> lifecycle r = Terminated ->
  fifo_ok sent (run_task init_turn r).
Proof.
  intros (h & res & c & rest & [Hs Hr Hc Ht Ha]) Hpc Hl.
  destruct Hc as [->|[_ Hc]]; [|destruct Hc; congruence].
  exists h, res, [], rest. unfold init_turn. rewrite run_get, Hl. run_simpl.
  destruct (start_sender r); cbn; (split; [done|done|by left| |done]); cbn;
    rewrite !msg_obs_app, Ht; cbn; by rewrite !app_nil_r.
Qed.

Lemma fifo_message sent r m q :
  fifo_ok sent r -> at_pc r = InRun -> receiver r = m :: q ->
  fifo_ok sent (run_task (on_message m) (set_receiver q r)).
Proof.
  intros (h & res & c & rest & [Hs Hr Hc Ht Ha]) Hpc Hq.
  destruct Hc as [->|[_ Hc]]; [|destruct Hc; congruence].
  rewrite Hr, Hq in Hs by congruence. cbn in Hs, Ht. rewrite app_nil_r in Ht.
  destruct (on_message_mail m (set_receiver q r)) as [Hrc [(x & Hpc' & Hx & Htr)|[Hpc' Htr]]].
  - exists (h ++ [m]), (res ++ [x]), [], q. split; [by rewrite <- app_assoc|done|by left| |].
    + rewrite Htr. cbn [trace set_receiver]. rewrite Ht, zip_with_app by by eapply Forall2_length.
      rewrite concat_app. cbn [zip_with concat fmap list_fmap]. by rewrite !app_nil_r.
    + apply Forall2_app; [done|by constructor].
  - exists h, res, [m], q. split; [done|done|by right; eauto| |done].
    rewrite Htr. cbn [trace set_receiver]. by rewrite Ht.
Qed.

Lemma fifo_step l r r' sent :
  blocked_full r -> fifo_ok sent r -> step l r = Some r' -> fifo_ok (sent ++ delivered [l]) r'.
Proof.
  intros Hbf Hf. destruct l as [| | |action| | |m|s|e|];
    try (by rewrite blocked_full_stays); cbn [step delivered omap list_omap];
    rewrite ?app_nil_r.
  - case_decide as Hpc; [|done]. intros [= <-].
    destruct (decide (lifecycle r = Terminated)); [by apply fifo_terminated|].
    eapply fifo_task; [done|by apply mail_init_turn|by left].
  - case_decide as Hpc; [|done]. destruct (stop_receiver r) as [|s q]; intros [= <-].
    eapply fifo_task; [done|by rewrite mail_task by apply mail_on_stop|by right].
  - case_decide as Hpc; [|done]. destruct (error_receiver r) as [|e q]; intros [= <-].
    eapply fifo_task; [done|by rewrite mail_task by apply mail_on_error|right; apply Hpc].
  - case_decide as Hpc; [|done]. destruct (inner_receiver r) as [|e q]; intros [= <-].
    eapply fifo_task; [done|by rewrite mail_task by apply mail_inner_handle|right; apply Hpc].
  - case_decide as Hpc; [|done]. destruct (receiver r) as [|m q] eqn:Hq.
    + destruct (senders_alive r); [done|]. intros [= <-].
      eapply fifo_task; [done|by rewrite mail_task by apply mail_stop_and_signal|right; apply Hpc].
    + intros [= <-]. apply fifo_message; [done|apply Hpc|done].
  - case_decide as Hpc; [|done]. intros [= <-]. destruct Hpc as (_ & Hpc & Hpc').
    destruct Hf as (h & res & c & rest & [Hs Hr Hc Ht Ha]).
    exists h, res, c, (rest ++ [m]). split; [by rewrite Hs, <- !app_assoc|cbn; by intros ->%Hr|done..].
  - case_decide; [|done]. intros [= <-]. by eapply fifo_same.
  - intros [= <-]. by eapply fifo_same.
  - intros [= <-]. by eapply fifo_same.
Qed.

Lemma delivered_cons l ls : delivered (l :: ls) = delivered [l] ++ delivered ls.
Proof. unfold delivered. by rewrite <- omap_app. Qed.

Lemma served_in_order p (a : A) parent ls r :
  steps ls (create p a parent) = Some r -> fifo_ok (delivered ls) r.
Proof.
  assert (forall ls r0 sent, blocked_full r0 -> fifo_ok sent r0 -> steps ls r0 = Some r ->
    fifo_ok (sent ++ delivered ls) r) as Hgen.
  { clear ls. intros ls. induction ls as [|l ls IH]; intros r0 sent Hbf Hf; cbn [steps].
    - intros [= <-]. by rewrite app_nil_r.
    - destruct (step l r0) as [r1|] eqn:Hs; [|done]. intros Hr.
      specialize (IH r1 _ (blocked_full_step _ _ _ Hbf Hs) (fifo_step _ _ _ _ Hbf Hf Hs) Hr). rewrite <- app_assoc in IH.
      by rewrite delivered_cons. }
  intros Hs. apply (Hgen ls (create p a parent) []); [done| |done].
  exists [], [], [], []. split; [done|done|by left|done|constructor].
Qed.

(** C24: In every reachable state of an actor the messages that were accepted are, in order, the
    ones handled and answered with what the handler returned, at most one whose handler never
    returned, and the ones that wait: none is lost, repeated or overtaken while the actor lives. *)
Theorem mailbox_serves_in_order p (a : A) parent ls r :
  steps ls (create p a parent) = Some r ->
  exists handled results current rest,
    delivered ls = handled ++ current ++ rest /\
    (at_pc r <> Done -> rest = receiver r) /\
    (current = [] \/ (exists m, current = [m]) /\ (at_pc r = Panicked \/ at_pc r = Blocked)) /\
    msg_obs (trace r)
      = concat (zip_with served handled results) ++ (const (Called HandleMessage) <$> current) /\
    Forall2 answered handled results.
Proof.
  intros Hs. destruct (served_in_order p a parent ls r Hs) as (h & res & c & rest & []).
  by exists h, res, c, rest.
Qed.

End Mailbox.

(** ** What the callers get *)

Section Callers.
Context {A Msg Ev Rsp : Type} `{Actor A Msg Ev Rsp}.

Local Abbreviation runner := (Runner A Msg Ev Rsp).
Implicit Types (r : runner) (ref : ActorRef).

(** A tell to a closed actor fails and changes nothing; otherwise the message is queued, with
    the path of the target as its sender. *)
Theorem tell_outcomes ref message r :
  senders_alive r = true ->
  if ActorRefOps.is_closed ref r
  then ActorRefOps.tell ref message r = (r, Err (ActorError.Send channel_closed))
  else exists r', ActorRefOps.tell ref message r = (r', Ok tt) /\
         step (Deliver (message, ref_path ref, None)) r = Some r' /\
         receiver r' = receiver r ++ [(message, ref_path ref, None)].
Proof.
  intros Ha. unfold ActorRefOps.tell, HandleHelper.tell, HandleHelper.send, ActorRefOps.is_closed.
  destruct (HandleHelper.is_closed r) eqn:Hc; [done|]. eexists. split; [done|]. split; [|done].
  cbn. rewrite decide_True; [done|]. unfold HandleHelper.is_closed in Hc.
  split; [done|]. by destruct (at_pc r).
Qed.

(** A oneshot's answer is in the part of the trace that the messages leave. *)
Lemma reply_to_msg_obs i (t : list (obs Ev Rsp)) :
  HandleHelper.reply_to i t = HandleHelper.reply_to i (msg_obs t).
Proof.
  induction t as [|o t IH]; [done|]. destruct o as [[]| | | | | | | | | |]; cbn; try done.
  by rewrite IH.
Qed.

Lemma reply_to_served i (handled current : list (envelope Msg)) results res :
  Forall2 answered handled results ->
  HandleHelper.reply_to i
    (concat (zip_with served handled results)
     ++ (const (Called (Ev:=Ev) HandleMessage) <$> current)) = Some res ->
  exists m, m ∈ handled /\ m.2 = Some i /\ answered m res.
Proof.
  intros Ha. induction Ha as [|m x handled results Hm Ha IH]; cbn.
  { by induction current. }
  rewrite <- app_assoc. destruct m as [m' [j|]]; cbn.
  - case_decide as Hj.
    + intros [= <-]. exists (m', Some j). subst. split; [by constructor|done].
    + intros Hr. destruct (IH Hr) as (m & Hin & Hmi & Hma). exists m. split; [by constructor|done].
  - intros Hr. destruct (IH Hr) as (m & Hin & Hmi & Hma). exists m. split; [by constructor|done].
Qed.

Lemma rsvp_unique (l : list (envelope Msg)) m m' i :
  NoDup (omap snd l) -> m ∈ l -> m' ∈ l -> m.2 = Some i -> m'.2 = Some i -> m = m'.
Proof.
  induction l as [|x l IH]; intros Hn Hm Hm' Hi Hi'; [by apply not_elem_of_nil in Hm|].
  cbn in Hn. apply elem_of_cons in Hm as [->|Hm], Hm' as [->|Hm']; [done| | |].
  - rewrite Hi in Hn. apply NoDup_cons in Hn as [Hn _]. exfalso. apply Hn.
    apply list_elem_of_omap. eauto.
  - rewrite Hi' in Hn. apply NoDup_cons in Hn as [Hn _]. exfalso. apply Hn.
    apply list_elem_of_omap. eauto.
  - apply IH; [|done..]. destruct (x.2); [by apply NoDup_cons in Hn as [_ Hn]|done].
Qed.

Lemma reply_to_handled i (handled : list (envelope Msg)) results (t : list (obs Ev Rsp)) m :
  Forall2 answered handled results -> m ∈ handled -> m.2 = Some i ->
  is_Some (HandleHelper.reply_to i (concat (zip_with served handled results) ++ t)).
Proof.
  intros Ha Hm Hi. induction Ha as [|x res handled results Hx Ha IH]; cbn.
  { by apply not_elem_of_nil in Hm. }
  rewrite <- app_assoc. destruct x as [x' [j|]]; cbn.
  - case_decide; [by eexists|]. apply IH.
    apply elem_of_cons in Hm as [->|Hm]; [cbn in Hi; congruence|done].
  - apply IH. apply elem_of_cons in Hm as [->|Hm]; [done|done].
Qed.

(** C19: An ask returns what the handler of the actor returned for its own message, or an error
    once the actor has closed; it waits only while its message waits in an open mailbox or the
    actor is stuck. *)
Theorem ask_gets_the_answer_to_its_message p (a : A) parent ls r m i :
  steps ls (create p a parent) = Some r ->
  NoDup (omap snd (delivered ls)) -> m ∈ delivered ls -> m.2 = Some i ->
  match HandleHelper.ask_await i r with
  | Some res =>
      answered m res \/
      HandleHelper.is_closed r = true /\ res = Err (ActorError.Send channel_closed)
  | None => HandleHelper.is_closed r = false /\ (m ∈ receiver r \/ at_pc r = Blocked)
  end.
Proof.
  intros Hs Hn Hm Hi.
  destruct (served_in_order p a parent ls r Hs) as (h & xs & c & rest & [Hsent Hrest Hc Ht Ha]).
  unfold HandleHelper.ask_await. rewrite reply_to_msg_obs, Ht.
  destruct (HandleHelper.reply_to i _) as [res|] eqn:Hr.
  - left. destruct (reply_to_served _ _ _ _ _ Ha Hr) as (m' & Hin & Hi' & Hres).
    rewrite (rsvp_unique _ m m' i Hn Hm); [done|by rewrite Hsent; apply elem_of_app; left|done..].
  - destruct (HandleHelper.is_closed r) eqn:Hcl; [by right|]. split; [done|].
    rewrite Hsent, !elem_of_app in Hm. destruct Hm as [Hm|[Hm|Hm]].
    + destruct (reply_to_handled i h xs (const (Called HandleMessage) <$> c) m Ha Hm Hi) as [x Hx].
      congruence.
    + destruct Hc as [->|[_ Hpc]]; [by apply not_elem_of_nil in Hm|]. right.
      destruct Hpc as [Hpc|Hpc]; [|done]. unfold HandleHelper.is_closed in Hcl. by rewrite Hpc in Hcl.
    + left. rewrite <- Hrest; [done|]. intros Hpc. unfold HandleHelper.is_closed in Hcl.
      by rewrite Hpc in Hcl.
Qed.

(** *** Two requests to stop *)

Lemma stop_confirmed_app i (t1 t2 : list (obs Ev Rsp)) :
  ActorRefOps.stop_confirmed i (t1 ++ t2)
  = ActorRefOps.stop_confirmed i t1 || ActorRefOps.stop_confirmed i t2.
Proof.
  induction t1 as [|o t1 IH]; [done|]. destruct o; cbn; try done. by case_decide.
Qed.

Lemma stop_trace_confirms i j r :
  ActorRefOps.stop_confirmed i (stop_trace r (Some j)) = bool_decide (j = i).
Proof.
  unfold stop_trace. cbn. rewrite stop_confirmed_app.
  replace (ActorRefOps.stop_confirmed i (ChildStopped <$> reverse (child_senders r))) with false
    by (by induction (reverse (child_senders r))).
  cbn. by case_decide; [rewrite bool_decide_true|rewrite bool_decide_false].
Qed.

(** Two requests to stop a running actor, one before the other: the actor stops once and
    confirms the first; the second caller gets the error of a closed channel, whereas a third
    one that comes after the end gets Ok without waiting. *)
Theorem concurrent_ask_stops r i j :
  quiet pre_stop -> quiet post_stop -> at_pc r = InRun -> lifecycle r = Started -> error r = None ->
  start_sender r = false -> stop_receiver r = [] -> i <> j ->
  ActorRefOps.stop_confirmed i (trace r) = false ->
  ActorRefOps.stop_confirmed j (trace r) = false ->
  exists r1 r2 r', ActorRefOps.ask_stop_send i r = Some (r1, true) /\
    ActorRefOps.ask_stop_send j r1 = Some (r2, true) /\
    steps [SelStop; Turn; Turn] r2 = Some r' /\
    ActorRefOps.ask_stop_await i r' = Some (Ok tt) /\
    ActorRefOps.ask_stop_await j r' = Some (Err (ActorError.Send channel_closed)) /\
    ActorRefOps.ask_stop_send j r' = Some (r', false).
Proof.
  intros Hq Hp Hpc Hl He Hss Hs Hij Hi Hj.
  set (r1 := set_stop_receiver [Some i] r). set (r2 := set_stop_receiver [Some i; Some j] r).
  destruct (stop_course r2 (Some i) [Some j] Hq Hp Hpc Hl He Hss eq_refl) as (r' & Hr & Hd & Ht).
  exists r1, r2, r'.
  assert (HandleHelper.is_closed r' = true) as Hc by (unfold HandleHelper.is_closed; by rewrite Hd).
  unfold ActorRefOps.ask_stop_send, ActorRefOps.stop_send, HandleHelper.is_closed in *.
  change (at_pc r1) with (at_pc r). rewrite Hpc, Hs, Hc. cbn [length].
  rewrite decide_True by (unfold stop_capacity; lia).
  split; [done|]. change (stop_receiver r1) with [Some i]. cbn [length].
  rewrite decide_True by (unfold stop_capacity; lia).
  split; [done|]. split; [done|]. unfold ActorRefOps.ask_stop_await, HandleHelper.is_closed.
  rewrite Ht, Hc, !stop_confirmed_app, !stop_trace_confirms.
  change (trace r2) with (trace r). rewrite Hi, Hj.
  rewrite (bool_decide_true (i = i)), (bool_decide_false (i = j)) by done. done.
Qed.

End Callers.

(** ** Witnesses

    An actor that starts, receives three messages and serves two. *)

Definition asked (msg i : nat) : envelope nat := (msg, plain_path, Some i).

Definition mail_labels : list (label (Msg:=nat)) :=
  [Turn; Turn; Deliver (asked 5 1); Deliver (asked 3 2); SelMsg; Deliver (asked 4 3); SelMsg].

Definition mail_run : Runner nat nat nat nat :=
  default (create plain_path 0 false) (steps mail_labels (create plain_path 0 false)).

Lemma mail_run_steps : steps mail_labels (create plain_path 0 false) = Some mail_run.
Proof. vm_compute. reflexivity. Qed.

Lemma mail_run_sent : delivered mail_labels = [asked 5 1; asked 3 2; asked 4 3].
Proof. reflexivity. Qed.

Lemma mail_run_queue : receiver mail_run = [asked 4 3].
Proof. vm_compute. reflexivity. Qed.

Lemma mail_run_trace :
  msg_obs (trace mail_run)
  = [Called HandleMessage; Replied 1 (Ok 5); Called HandleMessage; Replied 2 (Ok 8)].
Proof. vm_compute. reflexivity. Qed.

Lemma mailbox_serves_in_order_witness :
  exists handled results current rest,
    [asked 5 1; asked 3 2; asked 4 3] = handled ++ current ++ rest /\
    (at_pc mail_run <> Done -> rest = [asked 4 3]) /\
    (current = [] \/
     (exists m, current = [m]) /\ (at_pc mail_run = Panicked \/ at_pc mail_run = Blocked)) /\
    [Called (Ev:=nat) HandleMessage; Replied 1 (Ok 5); Called HandleMessage; Replied 2 (Ok 8)]
      = concat (zip_with served handled results) ++ (const (Called HandleMessage) <$> current) /\
    Forall2 (answered (H:=plain)) handled results.
Proof.
  rewrite <- mail_run_sent, <- mail_run_queue, <- mail_run_trace.
  exact (mailbox_serves_in_order plain_path 0 false mail_labels mail_run mail_run_steps).
Defined.

Lemma tell_outcomes_witness :
  exists r', ActorRefOps.tell (mk_ref plain_path) 9 mail_run = (r', Ok tt) /\
    step (Deliver (9, plain_path, None)) mail_run = Some r' /\
    receiver r' = [asked 4 3; (9, plain_path, None)].
Proof.
  assert (senders_alive mail_run = true) as Ha by (vm_compute; reflexivity).
  assert (ActorRefOps.is_closed (mk_ref plain_path) mail_run = false) as Hc
    by (vm_compute; reflexivity).
  pose proof (tell_outcomes (mk_ref plain_path) 9 mail_run Ha) as Ht.
  rewrite Hc, mail_run_queue in Ht. exact Ht.
Defined.

Lemma ask_gets_the_answer_to_its_message_witness :
  HandleHelper.ask_await 2 mail_run = Some (Ok 8) /\
  (answered (H:=plain) (asked 3 2) (Ok 8) \/
   HandleHelper.is_closed mail_run = true /\
   @Ok ActorError.Error nat 8 = Err (ActorError.Send channel_closed)) /\
  HandleHelper.ask_await 3 mail_run = None.
Proof.
  split; [vm_compute; reflexivity|]. split; [|vm_compute; reflexivity].
  assert (NoDup (omap snd (delivered mail_labels))) as Hn
    by (apply (bool_decide_unpack _); vm_compute; exact I).
  assert (asked 3 2 ∈ delivered mail_labels) as Hm by (right; left).
  exact (ask_gets_the_answer_to_its_message plain_path 0 false mail_labels mail_run
           (asked 3 2) 2 mail_run_steps Hn Hm eq_refl).
Defined.

Lemma concurrent_ask_stops_witness :
  exists r1 r2 r', ActorRefOps.ask_stop_send 1 (running_probe true [] None []) = Some (r1, true) /\
    ActorRefOps.ask_stop_send 2 r1 = Some (r2, true) /\
    steps [SelStop; Turn; Turn] r2 = Some r' /\
    ActorRefOps.ask_stop_await 1 r' = Some (Ok tt) /\
    ActorRefOps.ask_stop_await 2 r' = Some (Err (ActorError.Send channel_closed)) /\
    ActorRefOps.ask_stop_send 2 r' = Some (r', false).
Proof.
  apply (concurrent_ask_stops (H:=flaky)); try reflexivity; [done..|discriminate].
Defined.
