(* ===== verification/Serving.v ===== *)
(** * Actors that only handle messages (the provided methods of [Actor] and [Handler], actor/src/actor.rs)

    Most actors implement [handle_message] alone and take the other hooks from
    the traits. The defaults are here, with what the task of [Runner] makes of
    such an actor: a fold of its handler over the messages that it accepted. *)

From S2P Require Import Prelude Path Errors Supervision Runner RunnerCorrect RunnerStop Messaging.
Import ActorRunner.

(** ** The provided methods *)

Module ActorDefaults.

Section Defaults.
Context {A Ev : Type}.

Definition supervision_strategy : SupervisionStrategy := StopStrategy.

Definition pre_start (a : A) : hook A Ev unit := (a, [], Ok tt).

(** [self.pre_start(ctx).await], of the actor at hand. *)
Definition pre_restart (start : A -> hook A Ev unit) (a : A) (_error : option ActorError.Error)
    : hook A Ev unit := start a.

Definition pre_stop (a : A) : hook A Ev unit := (a, [], Ok tt).

Definition post_stop (a : A) : hook A Ev unit := (a, [], Ok tt).

Definition from_response {Rsp : Type} (_response : Rsp) : outcome ActorError.Error Ev :=
  Err (ActorError.Functional "Not implemented").

(** [Handler::on_event]; the runner does not call it. *)
Definition on_event (a : A) (_event : Ev) : hook A Ev unit := (a, [], Ok tt).

Definition on_child_error (a : A) (_error : ActorError.Error) : hook A Ev unit := (a, [], Ok tt).

Definition on_child_fault (a : A) (_error : ActorError.Error) : hook A Ev ChildAction :=
  (a, [], Ok ActStop).

End Defaults.

End ActorDefaults.

(** An implementation that gives [handle_message] alone. *)
Definition handler_only {A Msg Ev Rsp : Type} (handle : A -> ActorPath -> Msg -> hook A Ev Rsp)
    : Actor A Msg Ev Rsp := {|
  supervision_strategy := ActorDefaults.supervision_strategy;
  pre_start := ActorDefaults.pre_start;
  pre_restart := ActorDefaults.pre_restart ActorDefaults.pre_start;
  pre_stop := ActorDefaults.pre_stop;
  post_stop := ActorDefaults.post_stop;
  handle_message := handle;
  on_child_error := ActorDefaults.on_child_error;
  on_child_fault := ActorDefaults.on_child_fault;
|}.

(** ** The task of such an actor *)

(** What the theorems need of it: the other hooks leave the actor and its context
    alone, and the handler does not use the context. *)
Class Serves (A Msg Ev Rsp : Type) `{Actor A Msg Ev Rsp} : Prop := {
  s_pre_start : quiet pre_start;
  s_pre_restart : forall a e, pre_restart a e = (a, [], Ok tt);
  s_pre_stop : quiet pre_stop;
  s_post_stop : quiet post_stop;
  s_child_error : forall a e, on_child_error a e = (a, [], Ok tt);
  s_child_fault : forall a e, exists action, on_child_fault a e = (a, [], Ok action);
  s_handler : forall a sender msg, (handle_message a sender msg).1.2 = [];
}.

Lemma handler_only_serves {A Msg Ev Rsp : Type} (handle : A -> ActorPath -> Msg -> hook A Ev Rsp) :
  (forall a sender msg, (handle a sender msg).1.2 = []) ->
  Serves A Msg Ev Rsp (H:=handler_only handle).
Proof. intros Hh. split; try done. by eexists. Qed.

Section Serving.
Context {A Msg Ev Rsp : Type} `{Serves A Msg Ev Rsp}.

Local Abbreviation runner := (Runner A Msg Ev Rsp).
Local Abbreviation answer := (outcome ActorError.Error Rsp).
Implicit Types (r : runner) (m : envelope Msg) (a : A).

(** One message on the actor. *)
Definition serve1 a m : A * answer :=
  let '(a, _, res) := handle_message a m.1.2 m.1.1 in (a, res).

Definition panics (res : answer) : bool := match res with Panic => true | _ => false end.

(** The handler over a queue: the actor and the answers; a panic is the last. *)
Fixpoint serve a (ms : list (envelope Msg)) : A * list answer :=
  match ms with
  | [] => (a, [])
  | m :: ms =>
      let '(a, res) := serve1 a m in
      if panics res then (a, [res]) else let '(a, results) := serve a ms in (a, res :: results)
  end.

Definition fine (results : list answer) : Prop := Forall (fun res => panics res = false) results.

Lemma serve_snoc a ms m a1 results :
  serve a ms = (a1, results) -> fine results ->
  serve a (ms ++ [m]) = (let '(a2, res) := serve1 a1 m in (a2, results ++ [res])).
Proof.
  revert a results. induction ms as [|m' ms IH]; intros a results; cbn [serve app].
  { intros [= <- <-] _. destruct (serve1 a m) as [a2 res]. by destruct (panics res). }
  destruct (serve1 a m') as [a2 res]. destruct (panics res) eqn:Hp.
  { intros [= <- <-] Hf. inv Hf. congruence. }
  destruct (serve a2 ms) as [a3 rs] eqn:Hs. intros [= <- <-] Hf. inv Hf.
  rewrite (IH _ _ Hs) by done. by destruct (serve1 a3 m).
Qed.

(** The computations of the task that are not the handling of a message: they
    keep the actor and its mail and do not panic. *)
Definition idle {X} (g : stM runner (halt Ev Rsp) X) : Prop := forall r r' res,
  g r = (r', res) ->
  actor r' = actor r /\ mail r' = mail r /\ (at_pc r <> Panicked -> at_pc r' <> Panicked) /\
  res <> Err Unwound /\ res <> Panic.

Lemma idle_ret {X} (x : X) : idle (mret x).
Proof. by intros r r' res [= <- <-]. Qed.

Lemma idle_get : idle getM.
Proof. by intros r r' res [= <- <-]. Qed.

Lemma idle_put f :
  (forall r, actor (f r) = actor r /\ mail (f r) = mail r /\ (at_pc (f r) = Panicked -> at_pc r = Panicked)) ->
  idle (put f).
Proof.
  intros Hf r r' res [= <- <-]. destruct (Hf r) as (Ha & Hm & Hpc).
  by split_and!; auto.
Qed.

Lemma idle_bind {X Y} (g : stM runner (halt Ev Rsp) X) (k : X -> stM runner (halt Ev Rsp) Y) :
  idle g -> (forall x, idle (k x)) -> idle (g ≫= k).
Proof.
  intros Hg Hk r r' res. unfold mbind, stM_bind. destruct (g r) as [r1 res1] eqn:Hr.
  destruct (Hg _ _ _ Hr) as (Ho & Hm & Hpc & Hu & Hp). destruct res1 as [x|h|]; [|intros [= <- <-]|done].
  - intros Hr'. destruct (Hk _ _ _ _ Hr') as (Ho' & Hm' & Hpc' & Hu' & Hp').
    split_and!; [congruence|congruence|auto|done|done].
  - split_and!; [done|done|done|congruence|done].
Qed.

Lemma idle_observe o : is_msg o = false -> idle (observe o).
Proof.
  intros Ho. apply idle_put. intros r. split_and!; [done| |done].
  unfold mail. cbn [receiver trace set_trace]. rewrite msg_obs_app.
  cbn. by rewrite Ho, app_nil_r.
Qed.

Lemma idle_ctx_stop s cs k : idle (ctx_stop s cs k).
Proof. intros r r' res. unfold ctx_stop. case_decide; by intros [= <- <-]. Qed.

Lemma idle_stop_childs : idle stop_childs.
Proof.
  intros r r' res Hr. pose proof (mail_stop_childs _ _ _ Hr) as Hm. injection Hr as <- <-.
  by split_and!.
Qed.

(** A hook that leaves the actor alone. *)
Lemma idle_call {X} h (f : A -> hook A Ev X) k :
  is_msg (Ev:=Ev) (Rsp:=Rsp) (Called h) = false -> (forall a, exists x, f a = (a, [], Ok x)) ->
  idle (call h f k).
Proof.
  intros Hh Hf r r' res Hr. pose proof (mail_call h f k Hh _ _ _ Hr) as Hm. revert Hr.
  unfold call, returned, after_message. run_simpl. destruct (Hf (actor r)) as [x ->]. intros [= <- <-].
  by split_and!.
Qed.

Lemma quiet_ok (f : A -> hook A Ev unit) : quiet f -> forall a, exists x, f a = (a, [], Ok x).
Proof. intros Hq a. exists tt. apply Hq. Qed.

Ltac idle_hook :=
  apply idle_call; [done|];
  solve [apply quiet_ok; first [apply s_pre_start | apply s_pre_stop | apply s_post_stop]
        | intros ?; eexists; apply s_pre_restart | intros ?; eexists; apply s_child_error
        | intros ?; apply s_child_fault].

Ltac idle_steps :=
  repeat first
    [ apply idle_ret | apply idle_get | by apply idle_put | by apply idle_observe
    | apply idle_ctx_stop | apply idle_stop_childs | idle_hook
    | apply idle_bind; [|intros ?] | case_match ].

Lemma idle_on_stop s : idle (on_stop s).
Proof. unfold on_stop, after_pre_stop, leave_run, remove_actor, emit_fail, send_inner. idle_steps. Qed.

Lemma idle_on_error e : idle (on_error e).
Proof. unfold on_error, after_child_fault. idle_steps. Qed.

Lemma idle_inner_handle action ev : idle (inner_handle action ev).
Proof. unfold inner_handle, stop_and_signal. idle_steps. Qed.

Lemma idle_stop_and_signal : idle stop_and_signal.
Proof. unfold stop_and_signal. idle_steps. Qed.

(** What a runner shows of its actor. *)
Definition seat r : A * (list (envelope Msg) * list (obs Ev Rsp)) := (actor r, mail r).

Lemma idle_task (g : stM runner (halt Ev Rsp) unit) r :
  idle g -> at_pc r <> Panicked ->
  seat (run_task g r) = seat r /\ at_pc (run_task g r) <> Panicked.
Proof.
  intros Hg Hpc. unfold run_task, seat. destruct (g r) as [r1 res] eqn:Hr.
  destruct (Hg _ _ _ Hr) as (Ha & Hm & Hpc1 & Hu & Hp).
  destruct res as [x|[|cs k]|]; [|done| |done]; (split; [by rewrite <- Ha, <- Hm|]); [auto|done].
Qed.

Lemma idle_init_turn r :
  lifecycle r <> Terminated -> at_pc r <> Panicked ->
  seat (run_task init_turn r) = seat r /\ at_pc (run_task init_turn r) <> Panicked.
Proof.
  intros Hl. unfold init_turn. rewrite run_get.
  destruct (lifecycle r); try done; apply idle_task;
    unfold apply_supervision_strategy, after_pre_start, after_pre_restart, send_start; idle_steps.
Qed.

(** A message: the handler's new actor; its answer, or the end of the task. *)
Definition handled_message m r : runner :=
  let '(a, res) := serve1 (actor r) m in
  let r := set_actor a (set_trace
    (trace r ++ if panics res then [Called HandleMessage] else served m res) r) in
  if panics res then set_at_pc Panicked r else r.

Lemma on_message_eq m r : run_task (on_message m) r = handled_message m r.
Proof.
  destruct m as [[msg sender] rsvp]. unfold handled_message, serve1, on_message. cbn [fst snd].
  pose proof (s_handler (actor r) sender msg) as Hc.
  destruct (handle_message (actor r) sender msg) as [[a' cs] res] eqn:Hh. cbn in Hc. subst cs.
  unfold call, returned, after_message. run_simpl. rewrite Hh. cbn.
  destruct res as [x|e|], rsvp as [i|]; cbn; unfold set_at_pc, set_actor, set_trace; cbn;
    by rewrite <- ?app_assoc.
Qed.

(** [sent] is what was handled, the message whose handler panicked, and what waits;
    the actor is the fold of the handler over the first two. *)
Record serving a0 (sent : list (envelope Msg)) r (handled : list (envelope Msg))
    (results : list answer) (current rest : list (envelope Msg)) : Prop := {
  sv_sent : sent = handled ++ current ++ rest;
  sv_rest : at_pc r <> Done -> rest = receiver r;
  sv_fold : serve a0 (handled ++ current) = (actor r, results ++ (const Panic <$> current));
  sv_fine : fine results;
  sv_length : length results = length handled;
  sv_current : current = [] /\ at_pc r <> Panicked \/ (exists m, current = [m]) /\ at_pc r = Panicked;
  sv_trace : msg_obs (trace r)
    = concat (zip_with served handled results) ++ (const (Called HandleMessage) <$> current);
}.

Definition serves a0 (sent : list (envelope Msg)) r : Prop :=
  exists handled results current rest, serving a0 sent r handled results current rest.

Lemma serves_same a0 sent r r' :
  serves a0 sent r -> seat r' = seat r -> at_pc r' = at_pc r -> serves a0 sent r'.
Proof.
  intros (h & res & c & rest & []) [Ha [Hrc Htr]%pair_equal_spec]%pair_equal_spec Hpc.
  exists h, res, c, rest. split; rewrite ?Ha, ?Hpc, ?Hrc, ?Htr; done.
Qed.

Lemma serves_task a0 sent r r' :
  serves a0 sent r -> at_pc r = AtLoop \/ at_pc r = InRun ->
  seat r' = seat r /\ at_pc r' <> Panicked -> serves a0 sent r'.
Proof.
  intros (h & res & c & rest & [Hs Hr Hf Hfi Hl Hc Ht]) Hpc
    [[Ha [Hrc Htr]%pair_equal_spec]%pair_equal_spec Hpc'].
  destruct Hc as [[-> _]|[_ Hc]]; [|destruct Hpc; congruence].
  exists h, res, [], rest. split; rewrite ?Ha, ?Hrc, ?Htr; auto.
  intros _. apply Hr. destruct Hpc; congruence.
Qed.

Lemma serves_terminated a0 sent r :
  serves a0 sent r -> at_pc r = AtLoop -> lifecycle r = Terminated ->
  serves a0 sent (run_task init_turn r).
Proof.
  intros (h & res & c & rest & [Hs Hr Hf Hfi Hl Hc Ht]) Hpc Hlc.
  destruct Hc as [[-> _]|[_ Hc]]; [|congruence].
  exists h, res, [], rest. unfold init_turn. rewrite run_get, Hlc. run_simpl.
  destruct (start_sender r); cbn -[msg_obs serve]; (split; cbn -[msg_obs serve]; try done;
    [by left|]); rewrite !msg_obs_app, Ht; cbn; by rewrite !app_nil_r.
Qed.

Lemma serves_message a0 sent r m q :
  serves a0 sent r -> at_pc r = InRun -> receiver r = m :: q ->
  serves a0 sent (run_task (on_message m) (set_receiver q r)).
Proof.
  intros (h & res & c & rest & [Hs Hr Hf Hfi Hl Hc Ht]) Hpc Hq.
  destruct Hc as [[-> _]|[_ Hc]]; [|congruence].
  rewrite Hr, Hq in Hs by congruence. rewrite !app_nil_r in Hf. rewrite app_nil_r in Ht.
  pose proof (serve_snoc _ _ m _ _ Hf Hfi) as Hsn.
  rewrite on_message_eq. unfold handled_message. cbn [actor set_receiver trace].
  destruct (serve1 (actor r) m) as [a x]. destruct (panics x) eqn:Hp.
  - assert (x = Panic) as -> by by destruct x.
    exists h, res, [m], q. split; try done; [right; eauto|]. cbn -[msg_obs].
    by rewrite msg_obs_app, Ht.
  - exists (h ++ [m]), (res ++ [x]), [], q. split; try done; cbn -[msg_obs serve].
    + by rewrite Hs, <- app_assoc.
    + by rewrite !app_nil_r.
    + apply Forall_app. by split; [|repeat constructor].
    + rewrite !length_app. cbn. lia.
    + left. split; congruence.
    + rewrite msg_obs_app, Ht, zip_with_app, concat_app by done. cbn.
      rewrite !app_nil_r. f_equal. by destruct m as [? [i|]].
Qed.

(** A branch of [select!] other than the mailbox's. *)
Lemma serves_branch a0 sent r r0 g :
  serves a0 sent r -> at_pc r = InRun -> seat r0 = seat r -> at_pc r0 = at_pc r -> idle g ->
  serves a0 sent (run_task g r0).
Proof.
  intros Hs Hpc Hseat Hpc0 Hg. eapply serves_task; [done|by right|]. rewrite <- Hseat.
  apply idle_task; [done|congruence].
Qed.

Lemma serves_step a0 l r r' sent :
  blocked_full r -> serves a0 sent r -> step l r = Some r' -> serves a0 (sent ++ delivered [l]) r'.
Proof.
  intros Hbf Hf. destruct l as [| | |action| | |m|s|e|];
    try (by rewrite blocked_full_stays); cbn [step delivered omap list_omap];
    rewrite ?app_nil_r.
  - case_decide as Hpc; [|done]. intros [= <-].
    destruct (decide (lifecycle r = Terminated)); [by apply serves_terminated|].
    eapply serves_task; [done|by left|apply idle_init_turn; congruence].
  - case_decide as Hpc; [|done]. destruct (stop_receiver r); intros [= <-].
    by apply (serves_branch _ _ r); try apply idle_on_stop.
  - case_decide as Hpc; [|done]. destruct (error_receiver r); intros [= <-].
    by apply (serves_branch _ _ r); [..|apply idle_on_error]; try apply Hpc.
  - case_decide as Hpc; [|done]. destruct (inner_receiver r); intros [= <-].
    by apply (serves_branch _ _ r); [..|apply idle_inner_handle]; try apply Hpc.
  - case_decide as Hpc; [|done]. destruct (receiver r) as [|m q] eqn:Hq.
    + destruct (senders_alive r); [done|]. intros [= <-].
      by apply (serves_branch _ _ r); [..|apply idle_stop_and_signal]; try apply Hpc.
    + intros [= <-]. apply serves_message; [done|apply Hpc|done].
  - case_decide as Hpc; [|done]. intros [= <-]. destruct Hpc as (_ & Hpc & Hpc').
    destruct Hf as (h & res & c & rest & [Hs Hr Hfo Hfi Hl Hc Ht]).
    exists h, res, c, (rest ++ [m]). split; auto; [by rewrite Hs, <- !app_assoc|].
    cbn. by intros ->%Hr.
  - case_decide; [|done]. intros [= <-]. by eapply serves_same.
  - intros [= <-]. by eapply serves_same.
  - intros [= <-]. by eapply serves_same.
Qed.

Lemma serves_steps a0 ls r r' sent :
  blocked_full r -> serves a0 sent r -> steps ls r = Some r' -> serves a0 (sent ++ delivered ls) r'.
Proof.
  revert r sent. induction ls as [|l ls IH]; intros r sent Hbf Hf; cbn [steps].
  { intros [= <-]. by rewrite app_nil_r. }
  destruct (step l r) as [r1|] eqn:Hs; [|done]. intros Hr.
  rewrite delivered_cons, app_assoc. apply (IH r1); [by eapply blocked_full_step|by eapply serves_step|done].
Qed.

Lemma served_by_the_handler p a parent ls r :
  steps ls (create p a parent) = Some r -> serves a (delivered ls) r.
Proof.
  apply (serves_steps a ls (create p a parent) r []); [done|]. exists [], [], [], [].
  split; try done; [constructor|by left].
Qed.

(** C9: An actor that gives only a handler, which does not use the context, is in every run the
    fold of its handler over the messages handled so far, with the answers of the fold; its task
    panics only inside the handler, on the first message for which the handler panics. *)
Theorem actor_is_a_fold_of_its_handler p a parent ls r :
  steps ls (create p a parent) = Some r ->
  exists handled results current rest,
    delivered ls = handled ++ current ++ rest /\
    (at_pc r <> Done -> rest = receiver r) /\
    serve a (handled ++ current) = (actor r, results ++ (const Panic <$> current)) /\
    fine results /\ length results = length handled /\
    (current = [] /\ at_pc r <> Panicked \/ (exists m, current = [m]) /\ at_pc r = Panicked) /\
    msg_obs (trace r)
      = concat (zip_with served handled results) ++ (const (Called HandleMessage) <$> current).
Proof.
  intros Hs. destruct (served_by_the_handler p a parent ls r Hs) as (h & res & c & rest & []).
  by exists h, res, c, rest.
Qed.

(** ** Every accepted message is served

    Nothing but a panic of the handler stands between a message and its answer. *)





End Serving.

(** ** Witnesses

    An actor that sums what it is sent and panics on 0. *)

Definition sum_handle (a : nat) (_ : ActorPath) (n : nat) : hook nat nat nat :=
  if decide (n = 0) then (a, [], Panic) else (a + n, [], Ok (a + n)).

Definition summing : Actor nat nat nat nat := handler_only sum_handle.

Lemma summing_serves : Serves nat nat nat nat (H:=summing).
Proof. apply handler_only_serves. intros a s n. unfold sum_handle. by case_decide. Qed.

Definition adder : ActorPath := ActorPath.from "/user/adder".

Definition add (n i : nat) : envelope nat := (n, adder, Some i).

(** It is stopped by the third message; the fourth waits for ever. *)
Definition sum_labels : list (label (Msg:=nat)) :=
  [Turn; Turn; Deliver (add 5 1); Deliver (add 3 2); SelMsg; Deliver (add 0 3);
   Deliver (add 4 4); SelMsg; SelMsg].

Definition sum_run : Runner nat nat nat nat :=
  default (create adder 0 false) (steps (H:=summing) sum_labels (create adder 0 false)).

Lemma sum_run_steps : steps (H:=summing) sum_labels (create adder 0 false) = Some sum_run.
Proof. vm_compute. reflexivity. Qed.

Lemma sum_run_state : actor sum_run = 8 /\ at_pc sum_run = Panicked /\ receiver sum_run = [add 4 4].
Proof. vm_compute. auto. Qed.

Lemma actor_is_a_fold_of_its_handler_witness :
  exists handled results current rest,
    [add 5 1; add 3 2; add 0 3; add 4 4] = handled ++ current ++ rest /\
    (at_pc sum_run <> Done -> rest = [add 4 4]) /\
    serve (H:=summing) 0 (handled ++ current) = (8, results ++ (const Panic <$> current)) /\
    at_pc sum_run = Panicked.
Proof.
  pose proof summing_serves as Hserves.
  destruct (actor_is_a_fold_of_its_handler (H:=summing) adder 0 false sum_labels sum_run
              sum_run_steps) as (h & res & c & rest & Hs & Hr & Hf & _).
  destruct sum_run_state as (Ha & Hpc & Hq). rewrite Ha in Hf. rewrite Hq in Hr.
  exists h, res, c, rest. split_and!; [exact Hs|exact Hr|exact Hf|exact Hpc].
Defined.

