(* ===== verification/StoreActor.v ===== *)
(** * The store as an actor (store/src/store.rs, [impl Actor for Store<P>] and [impl Handler])

    The store runs in the task of [Runner] with the provided hooks and the
    handler of [Store]; its state is the record with the part of the world that
    it reaches. What any schedule of the task makes of the messages is a session
    of [StoreCorrect], so the clients of the actor see the append-only log. The
    child that [Persistent] reasons with is this actor. *)

From S2P Require Import Prelude Path Errors Database Memory Store TestActor StoreSpec StoreCorrect Persistent Supervision Runner RunnerCorrect RunnerStop Messaging Serving.
Import Store.
Import ActorRunner.

(** [enum StoreEvent]; the handler publishes none. *)
Module StoreEvent.

Inductive StoreEvent : Type := Persisted | Snapshotted.

End StoreEvent.

Section StoreActor.
Context {W M C T P E : Type}.
Context `{BackendLaws W C T}.
Context `{!MemSecurity, !ChaCha, !ChaChaLaws, !BuildMode}.
Context `{!PersistentActor P E, !Bincode E, !BincodeLaws E, !Bincode (P * N), !BincodeLaws (P * N)}.

Local Abbreviation state := (Store C T * World W)%type.
Local Abbreviation command := (StoreCommand.StoreCommand P E).
Local Abbreviation response := (StoreResponse.StoreResponse P E).
Local Abbreviation runner := (Runner state command StoreEvent.StoreEvent response).
Implicit Types (r : runner) (st : Store C T) (w : World W) (log : list E) (snap : option (P * N)).

(** [Handler::handle_message]; the sender and the context are not used. *)
Definition store_handle (s : state) (_sender : ActorPath) (msg : command)
    : hook state StoreEvent.StoreEvent response :=
  let '(s, res) := Store.handle_message msg s in (s, [], res).

(** [impl Actor for Store<P>] gives only its associated types. *)
Definition store_actor : Actor state command StoreEvent.StoreEvent response := handler_only store_handle.

#[local] Existing Instance store_actor.

#[local] Instance store_actor_serves : Serves state command StoreEvent.StoreEvent response.
Proof.
  apply handler_only_serves. intros s sender msg. unfold store_handle.
  by destruct (Store.handle_message msg s).
Qed.

Definition command_of (m : envelope command) : command := m.1.1.

Lemma serve1_eq s m : serve1 s m = Store.handle_message (command_of m) s.
Proof.
  unfold serve1. change (Runner.handle_message s m.1.2 m.1.1) with (store_handle s m.1.2 m.1.1).
  unfold store_handle, command_of. by destruct (Store.handle_message m.1.1 s).
Qed.

(** What the task makes of a queue is a session of the store. *)
Lemma serve_run_commands s ms : serve s ms = run_commands (command_of <$> ms) s.
Proof.
  revert s. induction ms as [|m ms IH]; intros s; [done|].
  cbn [serve fmap list_fmap run_commands]. rewrite serve1_eq.
  destruct (Store.handle_message (command_of m) s) as [s1 [resp|er|]]; cbn [panics];
    [rewrite IH; by destruct (run_commands _ s1)..|done].
Qed.

Lemma session_ok_app log (msgs msgs' : list command) :
  session_ok log (msgs ++ msgs') -> session_ok log msgs.
Proof.
  intros [Hl [Hf _]%Forall_app]. rewrite length_app in Hl. split; [lia|done].
Qed.

(** C2: However the task of a store is scheduled and whatever messages it is sent (any but a
    purge, with room for the events), if the actor's apply does not panic the task never panics
    and handles them in order, each answer and each change of its storage being one that the
    abstract machine allows: a log of events that only grows at its end or has its last event
    replaced, and one snapshot; a refused write leaves the log as it was. *)
Theorem store_actor_refines_log p parent st w log snap ls r :
  running st w log snap -> session_ok log (command_of <$> delivered ls) ->
  (forall p e, (apply p e).2 <> Panic) ->
  steps ls (create p (st, w) parent) = Some r ->
  exists handled resps rest log' snap',
    delivered ls = handled ++ rest /\ (at_pc r <> Done -> rest = receiver r) /\
    at_pc r <> Panicked /\
    msg_obs (trace r) = concat (zip_with served handled (Ok <$> resps)) /\
    spec_run (log, snap) (command_of <$> handled) resps (log', snap') /\
    running (actor r).1 (actor r).2 log' snap'.
Proof.
  intros Hr Hok Hnp Hs.
  destruct (served_by_the_handler p (st, w) parent ls r Hs)
    as (handled & results & current & rest & [Hd Hrest Hf Hfi Hl Hc Ht]).
  rewrite serve_run_commands in Hf. destruct (actor r) as [st1 w1].
  assert (session_ok log (command_of <$> handled ++ current)) as Hok1.
  { rewrite Hd, app_assoc, fmap_app in Hok. by eapply session_ok_app. }
  destruct (session_refines_log _ _ _ _ _ _ _ _ Hr Hok1 (fun _ => Hnp) Hf)
    as (resps & log1 & snap1 & Hrs & Hsp & Hr1).
  destruct Hc as [[-> Hpc]|[[m ->] _]].
  - rewrite !app_nil_r in *. subst results. by exists handled, resps, rest, log1, snap1.
  - exfalso. assert (Panic ∈ Ok (E:=ActorError.Error) <$> resps) as Hin
      by (rewrite <- Hrs; apply elem_of_app; right; left).
    apply list_elem_of_fmap in Hin as (x & ? & _). done.
Qed.

(** ** The child of a persistent actor is this actor

    [Persistent] keeps of the child its store, its mailbox and whether it lives;
    this is what its runner has to show. *)

Local Abbreviation child := (PersistentMethods.Child (C:=C) (T:=T) (P:=P) (E:=E)).
Implicit Types (ch : child) (q : list (envelope command)).

Definition seats ch w q r : Prop :=
  actor r = (PersistentMethods.c_store ch, w) /\
  if PersistentMethods.c_alive ch
  then at_pc r = InRun /\ stop_signal r = false /\ receiver r = q
  else at_pc r = Panicked.

Lemma seats_alive ch w q r :
  PersistentMethods.c_alive ch = true ->
  seats ch w q r <-> actor r = (PersistentMethods.c_store ch, w) /\
    at_pc r = InRun /\ stop_signal r = false /\ receiver r = q.
Proof. unfold seats. by intros ->. Qed.

Lemma seats_dead ch w q r :
  PersistentMethods.c_alive ch = false ->
  seats ch w q r <-> actor r = (PersistentMethods.c_store ch, w) /\ at_pc r = Panicked.
Proof. unfold seats. by intros ->. Qed.

Definition child_view ch w r : Prop :=
  exists q, seats ch w q r /\
    (PersistentMethods.c_alive ch = true -> command_of <$> q = PersistentMethods.c_mailbox ch).

(** The commands that the task handles next, each in a step. *)
Definition serving_run r r' : Prop := exists k, steps (replicate k SelMsg) r = Some r'.

Lemma serving_run_refl r : serving_run r r.
Proof. by exists 0. Qed.

Lemma serving_run_cons r r1 r' : step SelMsg r = Some r1 -> serving_run r1 r' -> serving_run r r'.
Proof. intros Hs [k Hk]. exists (S k). cbn [replicate steps]. by rewrite Hs. Qed.

Lemma serving_run_trans r r1 r' : serving_run r r1 -> serving_run r1 r' -> serving_run r r'.
Proof.
  intros [k Hk] [k' Hk']. exists (k + k'). by rewrite replicate_add, run_steps_app, Hk.
Qed.

(** One command, on the child and on its task. *)
Lemma child_handle_step ch w m q r ch' w' res :
  seats ch w (m :: q) r -> PersistentMethods.c_alive ch = true ->
  PersistentMethods.child_handle ch w (command_of m) = (ch', w', res) ->
  exists r', step SelMsg r = Some r' /\ seats ch' w' q r' /\
    PersistentMethods.c_alive ch' = negb (panics res) /\
    (PersistentMethods.c_alive ch' = true ->
     PersistentMethods.c_mailbox ch' = PersistentMethods.c_mailbox ch) /\
    trace r' = trace r ++ if panics res then [Called HandleMessage] else served m res.
Proof.
  intros Hs Hal Hc. apply seats_alive in Hs as (Ha & Hpc & Hss & Hq); [|done].
  cbn [step]. rewrite decide_True, Hq, on_message_eq by done. unfold handled_message.
  cbn [actor set_receiver trace]. rewrite serve1_eq, Ha. revert Hc.
  unfold PersistentMethods.child_handle.
  destruct (Store.handle_message (command_of m) _) as [[s1 w1] [x|e|]]; intros [= <- <- <-];
    eexists; by repeat split.
Qed.

(** What a message that another asked adds to the trace answers nobody else. *)
Lemma reply_to_app i (t t' : list (obs StoreEvent.StoreEvent response)) :
  HandleHelper.reply_to i t = None ->
  HandleHelper.reply_to i (t ++ t') = HandleHelper.reply_to i t'.
Proof.
  induction t as [|o t IH]; [done|]. destruct o; cbn; try done. by case_decide.
Qed.

Lemma reply_to_other i (m : envelope command) (res : outcome ActorError.Error response) :
  m.2 <> Some i ->
  HandleHelper.reply_to (Ev:=StoreEvent.StoreEvent) i
    (if panics res then [Called HandleMessage] else served m res) = None.
Proof.
  destruct m as [m' [j|]]; cbn; intros Hj; destruct (panics res); cbn; try done.
  rewrite decide_False by congruence. done.
Qed.

(** The commands that wait, before those of [extra]. *)
Lemma drain_runs i q extra ch w r ch' w' :
  seats ch w (q ++ extra) r ->
  (PersistentMethods.c_alive ch = true -> command_of <$> q = PersistentMethods.c_mailbox ch) ->
  i ∉ omap snd q -> HandleHelper.reply_to i (trace r) = None ->
  PersistentMethods.drain (length q) ch w = (ch', w') ->
  exists r', serving_run r r' /\ seats ch' w' extra r' /\
    (PersistentMethods.c_alive ch' = true -> PersistentMethods.c_mailbox ch' = []) /\
    HandleHelper.reply_to i (trace r') = None.
Proof.
  revert ch w r. induction q as [|m q IH]; intros ch w r Hs Hmb Hi Hrep;
    cbn [length PersistentMethods.drain].
  { intros [= <- <-]. exists r. split; [apply serving_run_refl|]. split_and!; [done| |done].
    intros Hal. by rewrite <- Hmb. }
  destruct (PersistentMethods.c_alive ch) eqn:Hal.
  2: { intros [= <- <-]. exists r. split; [apply serving_run_refl|]. split_and!; [|congruence|done].
       by apply seats_dead; [|apply (seats_dead _ _ _ _ Hal) in Hs]. }
  rewrite <- (Hmb eq_refl). cbn [fmap list_fmap].
  set (ch0 := PersistentMethods.mk_child _ _ _).
  destruct (PersistentMethods.child_handle ch0 w (command_of m)) as [[ch1 w1] res] eqn:Hc.
  destruct (child_handle_step ch0 w m (q ++ extra) r ch1 w1 res) as (r1 & Hst & Hs1 & Hal1 & Hmb1 & Ht1);
    [|done|done|].
  { by apply seats_alive; [|apply (seats_alive _ _ _ _ Hal) in Hs]. }
  intros Hd.
  assert (m.2 <> Some i /\ i ∉ omap snd q) as [Hm Hiq].
  { destruct m as [m' [j|]]; cbn in Hi; [|done]. apply not_elem_of_cons in Hi as [Hj Hi].
    split; [cbn; congruence|done]. }
  destruct (IH ch1 w1 r1 Hs1) as (r' & Hrun & Hs' & Hmb' & Hrep'); [|done| |done|].
  { intros Ha. by rewrite Hmb1. }
  { rewrite Ht1, reply_to_app by done. by apply reply_to_other. }
  exists r'. split_and!; [by eapply serving_run_cons|done..].
Qed.

(** C8: The ask that a persistent actor makes of its child is the ask of a reference to the
    running store: the commands before it are handled first, in as many steps of the task, the
    answer is the one the oneshot gets, and when the task has panicked, before or during these
    steps, it is the error of the closed channel. *)
Theorem child_ask_is_the_ask_of_its_actor ref i msg ch (ctx ctx' : PersistentMethods.Ctx) r res :
  PersistentMethods.ctx_child ctx = Some ch ->
  child_view ch (PersistentMethods.ctx_world ctx) r ->
  i ∉ omap snd (receiver r) -> HandleHelper.reply_to i (trace r) = None ->
  PersistentMethods.ask msg ctx = (ctx', res) ->
  exists ch' r0 r', PersistentMethods.ctx_child ctx' = Some ch' /\
    PersistentMethods.ctx_path ctx' = PersistentMethods.ctx_path ctx /\
    child_view ch' (PersistentMethods.ctx_world ctx') r' /\
    if PersistentMethods.c_alive ch
    then ActorRefOps.ask_send ref i msg r = (r0, Ok tt) /\ serving_run r0 r' /\
         HandleHelper.ask_await i r' = Some res
    else exists e, ActorRefOps.ask_send ref i msg r = (r, Err e) /\ res = Err e /\ r' = r.
Proof.
  intros Hch (q & Hs & Hq) Hi Hrep. unfold PersistentMethods.ask. rewrite Hch.
  unfold ActorRefOps.ask_send, HandleHelper.ask_send, HandleHelper.send.
  destruct (PersistentMethods.c_alive ch) eqn:Hal.
  2: { assert (PersistentMethods.drain (length (PersistentMethods.c_mailbox ch)) ch
                 (PersistentMethods.ctx_world ctx) = (ch, PersistentMethods.ctx_world ctx)) as ->
         by (destruct (length _); cbn [PersistentMethods.drain]; by rewrite ?Hal).
       rewrite Hal. intros [= <- <-]. exists ch, r, r. cbn. split_and!; [done|done|exists q; split; [exact Hs|congruence]|].
       apply seats_dead in Hs as [_ Hpc]; [|done]. unfold HandleHelper.is_closed. rewrite Hpc. eauto. }
  pose proof Hs as (_ & Hpc & Hss & Hrq)%seats_alive; [|done].
  specialize (Hq eq_refl). set (m := (msg, ActorRefOps.path ref, Some i)). rewrite <- Hq, length_fmap.
  destruct (PersistentMethods.drain (length q) ch _) as [ch1 w1] eqn:Hd.
  destruct (drain_runs i q [m] ch (PersistentMethods.ctx_world ctx)
              (set_receiver (receiver r ++ [m]) r) ch1 w1)
    as (r1 & Hrun & Hs1 & Hmb1 & Hrep1); [|done|by rewrite <- Hrq|done|done|].
  { apply seats_alive in Hs as (Ha & _); [|done]. apply seats_alive; [done|]. cbn. by rewrite Hrq. }
  assert (HandleHelper.is_closed r = false) as -> by (unfold HandleHelper.is_closed; by rewrite Hpc).
  destruct (PersistentMethods.c_alive ch1) eqn:Hal1.
  - destruct (PersistentMethods.child_handle ch1 w1 msg) as [[ch2 w2] res2] eqn:Hc.
    destruct (child_handle_step ch1 w1 m [] r1 ch2 w2 res2 Hs1 Hal1 Hc)
      as (r2 & Hst & Hs2 & Hal2 & Hmb2 & Ht2).
    intros Heq. assert (ctx' = PersistentMethods.set_child ctx (Some ch2) w2 /\
      res = if panics res2 then Err PersistentMethods.channel_closed else res2) as [-> ->]
      by (destruct res2; by injection Heq as <- <-).
    exists ch2, (set_receiver (receiver r ++ [m]) r), r2. cbn. split_and!; [done|done| |done| |].
    + exists []. split; [done|]. intros Ha. by rewrite Hmb2, Hmb1.
    + by eapply serving_run_trans, serving_run_cons, serving_run_refl.
    + unfold HandleHelper.ask_await. rewrite Ht2, reply_to_app by done.
      destruct (panics res2) eqn:Hp; cbn; [|by rewrite decide_True].
      unfold HandleHelper.is_closed. apply seats_dead in Hs2 as [_ ->]; done.
  - intros [= <- <-]. exists ch1, (set_receiver (receiver r ++ [m]) r), r1. cbn.
    split_and!; [done|done| |done|done|].
    + exists [m]. split; [done|congruence].
    + unfold HandleHelper.ask_await, HandleHelper.is_closed. rewrite Hrep1.
      by apply seats_dead in Hs1 as [_ ->].
Qed.

End StoreActor.

(** ** Witnesses

    The store of the test actor over the memory backend. *)

Definition test_store : Actor (Store MemoryStore MemoryStore * World MemWorld)
    (StoreCommand.StoreCommand TestActor TestEvent) StoreEvent.StoreEvent
    (StoreResponse.StoreResponse TestActor TestEvent) := store_actor.

Definition store_path : ActorPath := ActorPath.from "/user/test/store".

Definition commanded (c : StoreCommand.StoreCommand TestActor TestEvent) (i : nat)
    : envelope (StoreCommand.StoreCommand TestActor TestEvent) := (c, store_path, Some i).

Definition store_labels : list (label (Msg:=StoreCommand.StoreCommand TestActor TestEvent)) :=
  [Turn; Turn; Deliver (commanded (StoreCommand.Persist 5%Z) 1); SelMsg;
   Deliver (commanded (StoreCommand.Persist 7%Z) 2);
   Deliver (commanded StoreCommand.LastEvent 3); SelMsg].

Definition store_run : Runner (Store MemoryStore MemoryStore * World MemWorld)
    (StoreCommand.StoreCommand TestActor TestEvent) StoreEvent.StoreEvent
    (StoreResponse.StoreResponse TestActor TestEvent) :=
  default (create store_path demo_state true)
    (steps (H:=test_store) store_labels (create store_path demo_state true)).

Lemma store_run_steps :
  steps (H:=test_store) store_labels (create store_path demo_state true) = Some store_run.
Proof. vm_compute. reflexivity. Qed.

Lemma store_run_queue :
  at_pc store_run = InRun /\ stop_signal store_run = false /\
  receiver store_run = [commanded StoreCommand.LastEvent 3].
Proof. vm_compute. auto. Qed.

Lemma store_run_trace :
  msg_obs (trace store_run)
  = [Called HandleMessage; Replied 1 (Ok StoreResponse.Persisted);
     Called HandleMessage; Replied 2 (Ok StoreResponse.Persisted)].
Proof. vm_compute. reflexivity. Qed.

Lemma store_actor_refines_log_witness :
  exists handled resps rest log' snap',
    delivered store_labels = handled ++ rest /\
    (at_pc store_run <> Done -> rest = [commanded StoreCommand.LastEvent 3]) /\
    [Called (Ev:=StoreEvent.StoreEvent) HandleMessage; Replied 1 (Ok StoreResponse.Persisted);
     Called HandleMessage; Replied 2 (Ok StoreResponse.Persisted)]
      = concat (zip_with served handled (Ok <$> resps)) /\
    spec_run (P:=TestActor) ([], None) (command_of <$> handled) resps (log', snap') /\
    running (actor store_run).1 (actor store_run).2 log' snap'.
Proof.
  rewrite <- store_run_trace. destruct store_run_queue as (_ & _ & <-).
  destruct (store_actor_refines_log store_path true (demo_store (Some demo_key))
              (demo_world (Some demo_key)) [] None store_labels store_run
              (demo_running (Some demo_key) eq_refl) ltac:(by split; [|repeat constructor])
              ltac:(done) store_run_steps)
    as (handled & resps & rest & log' & snap' & Hd & Hr & _ & Ht & Hs & Hrun).
  exists handled, resps, rest, log', snap'. split_and!; [exact Hd|exact Hr|exact Ht|exact Hs|exact Hrun].
Defined.

(** The child that the parent sees, with the last command still in its mailbox. *)
Definition store_child : PersistentMethods.Child (C:=MemoryStore) (T:=MemoryStore)
    (P:=TestActor) (E:=TestEvent) :=
  PersistentMethods.mk_child (actor store_run).1 true [StoreCommand.LastEvent].

Definition store_ctx : PersistentMethods.Ctx (W:=MemWorld) :=
  PersistentMethods.mk_ctx (ActorPath.from "/user/test") (Some store_child) (actor store_run).2.

Lemma store_child_view : child_view store_child (PersistentMethods.ctx_world store_ctx) store_run.
Proof.
  exists [commanded StoreCommand.LastEvent 3]. split; [|done]. split; [|by apply store_run_queue].
  exact (surjective_pairing (actor store_run)).
Qed.

Lemma child_ask_is_the_ask_of_its_actor_witness :
  exists r0 r', ActorRefOps.ask_send (mk_ref store_path) 4
      StoreCommand.LastEventNumber store_run = (r0, Ok tt) /\
    serving_run r0 r' /\
    HandleHelper.ask_await 4 r' = Some (Ok (StoreResponse.LastEventNumber 1)).
Proof.
  assert ((PersistentMethods.ask StoreCommand.LastEventNumber store_ctx).2
          = Ok (StoreResponse.LastEventNumber 1)) as Hres by (vm_compute; reflexivity).
  destruct (PersistentMethods.ask StoreCommand.LastEventNumber store_ctx) as [ctx' res] eqn:Hask.
  cbn in Hres. subst res.
  assert (4 ∉ omap snd (receiver store_run)) as Hi
    by (rewrite (proj2 (proj2 store_run_queue)); apply (bool_decide_unpack _); vm_compute; exact I).
  assert (HandleHelper.reply_to 4 (trace store_run) = None) as Hrep by (vm_compute; reflexivity).
  destruct (child_ask_is_the_ask_of_its_actor (mk_ref store_path) 4 StoreCommand.LastEventNumber
              store_child store_ctx ctx' store_run _ eq_refl store_child_view Hi Hrep Hask)
    as (ch' & r0 & r' & _ & _ & _ & Hsend & Hrun & Hres).
  exists r0, r'. split_and!; [exact Hsend|exact Hrun|exact Hres].
Defined.
