(* ===== verification/Family.v ===== *)
(** * A parent and its child (actor/src/runner.rs)

    Two tasks of [Runner] joined by their channels: the errors and faults of the
    child go into the error channel of the parent, the parent answers a fault
    on a oneshot, and the stop of the parent waits for the child. Each of the two
    awaits inside a branch of its [select!], so it does nothing else meanwhile.
    Other children, and the parent's own parent, are left to the labels as in
    [Runner]. *)

From S2P Require Import Prelude Path Errors Supervision Runner RunnerCorrect RunnerStop Messaging.
Import ActorRunner.

Module Family.

(** What [stop_childs] of the parent is doing with the stop sender of the child. *)
Inductive stopping : Type :=
| Sending
| Confirming (stop_receiver : nat).

Section Operations.
Context {A Msg Ev Rsp : Type} `{PA : Actor A Msg Ev Rsp}.
Context {B CMsg CEv CRsp : Type} `{PB : Actor B CMsg CEv CRsp}.

Local Abbreviation parent := (Runner A Msg Ev Rsp).
Local Abbreviation child := (Runner B CMsg CEv CRsp).

(** The two tasks, the stop sender of the child in the list of the parent, what
    each waits for, and the number of the next oneshot. A task that waits keeps
    the state that it had before the branch. *)
Record Family : Type := mk_family {
  par : parent;
  kid : child;
  kid_sender : nat;
  par_waits : option stopping;
  kid_waits : option nat;
  fresh : nat;
}.
Implicit Types (f : Family).

Definition set_par (r : parent) f : Family :=
  mk_family r (kid f) (kid_sender f) (par_waits f) (kid_waits f) (fresh f).

Definition set_kid (r : child) f : Family :=
  mk_family (par f) r (kid_sender f) (par_waits f) (kid_waits f) (fresh f).

Definition set_par_waits (w : option stopping) f : Family :=
  mk_family (par f) (kid f) (kid_sender f) w (kid_waits f) (fresh f).

Definition set_kid_waits (w : option nat) f : Family :=
  mk_family (par f) (kid f) (kid_sender f) (par_waits f) w (fresh f).

Definition next_oneshot f : Family :=
  mk_family (par f) (kid f) (kid_sender f) (par_waits f) (kid_waits f) (S (fresh f)).

(** The answer that was sent on a oneshot. *)
Fixpoint action_for (n : nat) (t : list (obs Ev Rsp)) : option ChildAction :=
  match t with
  | [] => None
  | ActionSent i a :: t => if decide (i = n) then Some a else action_for n t
  | _ :: t => action_for n t
  end.

(** The stop branch of the parent for a request, up to [ctx.stop_childs()]. *)
Definition stop_begins (stop : option nat) : stM parent (halt Ev Rsp) unit :=
  res ← call PreStop pre_stop (AfterPreStop stop);
  match res with Err _ => emit_fail ActorError.Stop | _ => mret tt end.

(** Whether handling a stop comes to the child: the task did not unwind nor has to
    wait for room in its stop channel, and the child is among its children. *)
Definition comes_to_child f (stop : option nat) (q : list (option nat)) : bool :=
  match stop_begins stop (set_stop_receiver q (par f)) with
  | (r, Ok _) => bool_decide (kid_sender f ∈ child_senders r)
  | _ => false
  end.

(** Steps of the task itself, which it does not make while it waits. *)
Definition of_task {M : Type} (l : label (Msg:=M)) : bool :=
  match l with Turn | SelStop | SelError | SelInner _ | SelMsg | Unblock => true | _ => false end.

Definition waits {X} (w : option X) : bool := match w with Some _ => true | None => false end.

(** The stop branch of the parent, all at once. *)
Definition stop_parent f : option Family :=
  r ← ActorRunner.step SelStop (par f); Some (set_par_waits None (set_par r f)).

(** The inner branch of the child, all at once. *)
Definition handle_inner (action : option ChildAction) f : option Family :=
  r ← ActorRunner.step (SelInner action) (kid f); Some (set_kid_waits None (set_kid r f)).

(** [parent_helper.send(..)]: an error when the parent is gone. *)
Definition report (e : ChildError) f : Family :=
  if HandleHelper.is_closed (par f) then f
  else set_par (set_error_receiver (error_receiver (par f) ++ [e]) (par f)) f.

Inductive flabel : Type :=
| Par (l : label (Msg:=Msg))
| ParStop
| ParSend
| ParResume
| Kid (l : label (Msg:=CMsg))
| KidInner
| KidResume.

Definition step (l : flabel) f : option Family :=
  match l with
  | Par SelStop | Par (ChildReport _) | Kid (SelInner _) => None
  | Par l =>
      if of_task l && waits (par_waits f) then None
      else r ← ActorRunner.step l (par f); Some (set_par r f)
  | Kid l =>
      if of_task l && waits (kid_waits f) then None
      else r ← ActorRunner.step l (kid f); Some (set_kid r f)
  | ParStop =>
      if decide (at_pc (par f) = InRun /\ par_waits f = None) then
        match stop_receiver (par f) with
        | stop :: q => if comes_to_child f stop q then Some (set_par_waits (Some Sending) f) else stop_parent f
        | [] => None
        end
      else None
  | ParSend =>
      match par_waits f with
      | Some Sending =>
          if HandleHelper.is_closed (kid f) then stop_parent f
          else
            r ← ActorRunner.step (StopRequest (Some (fresh f))) (kid f);
            Some (next_oneshot (set_par_waits (Some (Confirming (fresh f))) (set_kid r f)))
      | _ => None
      end
  | ParResume =>
      match par_waits f with
      | Some (Confirming n) =>
          if ActorRefOps.stop_confirmed n (trace (kid f)) || HandleHelper.is_closed (kid f)
          then stop_parent f else None
      | _ => None
      end
  | KidInner =>
      if decide (at_pc (kid f) = InRun /\ stop_signal (kid f) = false /\ kid_waits f = None) then
        match inner_receiver (kid f) with
        | InnerFail e :: _ =>
            if has_parent (kid f) && negb (HandleHelper.is_closed (par f))
            then Some (next_oneshot (set_kid_waits (Some (fresh f))
                                       (report (ChildFault e (fresh f)) f)))
            else handle_inner None f
        | InnerError e :: _ =>
            f ← handle_inner None f;
            Some (if has_parent (kid f) then report (ChildErr e) f else f)
        | InnerEvent _ :: _ => handle_inner None f
        | [] => None
        end
      else None
  | KidResume =>
      match kid_waits f with
      | Some n =>
          match action_for n (trace (par f)) with
          | Some a => handle_inner (Some a) f
          | None => if HandleHelper.is_closed (par f) then handle_inner None f else None
          end
      | None => None
      end
  end.

Fixpoint steps (ls : list flabel) f : option Family :=
  match ls with
  | [] => Some f
  | l :: ls => match step l f with Some f' => steps ls f' | None => None end
  end.

End Operations.

End Family.

Import Family.

(** ** A family is two runners *)

Section Correct.
Context {A Msg Ev Rsp : Type} `{PA : Actor A Msg Ev Rsp}.
Context {B CMsg CEv CRsp : Type} `{PB : Actor B CMsg CEv CRsp}.
Implicit Types (f : Family (A:=A) (Msg:=Msg) (Ev:=Ev) (Rsp:=Rsp)
                      (B:=B) (CMsg:=CMsg) (CEv:=CEv) (CRsp:=CRsp)).

Definition both_run f f' : Prop := runs (par f) (par f') /\ runs (kid f) (kid f').

Lemma both_run_trans f1 f2 f3 : both_run f1 f2 -> both_run f2 f3 -> both_run f1 f3.
Proof. intros [] []. split; by eapply runs_trans. Qed.

Lemma stop_parent_runs f f' : stop_parent f = Some f' -> both_run f f'.
Proof.
  unfold stop_parent. destruct (ActorRunner.step SelStop (par f)) as [r|] eqn:Hs; [|done].
  intros [= <-]. split; [by eapply runs_step|apply runs_refl].
Qed.

Lemma handle_inner_runs action f f' : handle_inner action f = Some f' -> both_run f f'.
Proof.
  unfold handle_inner. destruct (ActorRunner.step (SelInner action) (kid f)) as [r|] eqn:Hs; [|done].
  intros [= <-]. split; [apply runs_refl|by eapply runs_step].
Qed.

Lemma report_runs e f : both_run f (report e f).
Proof.
  unfold report. case_match; split; try apply runs_refl.
  apply (runs_step (ChildReport e)). done.
Qed.

Lemma family_step_runs l f f' : step l f = Some f' -> both_run f f'.
Proof.
  destruct l as [l| | | |l| |].
  - assert (forall b, (if b : bool then None else r ← ActorRunner.step l (par f); Some (set_par r f))
              = Some f' -> both_run f f') as Hg.
    { intros [] Hs; [done|]. destruct (ActorRunner.step l (par f)) as [r|] eqn:Hl; [|done].
      injection Hs as <-. split; [by eapply runs_step|apply runs_refl]. }
    destruct l; try done; apply Hg.
  - cbn [step]. case_decide; [|done]. destruct (stop_receiver (par f)); [done|]. case_match.
    + intros [= <-]. split; apply runs_refl.
    + apply stop_parent_runs.
  - cbn [step]. destruct (par_waits f) as [[]|]; try done. case_match; [apply stop_parent_runs|].
    destruct (ActorRunner.step _ (kid f)) as [r|] eqn:Hs; [|done].
    cbn [mbind option_bind]. intros [= <-]. split; [apply runs_refl|by eapply runs_step].
  - cbn [step]. destruct (par_waits f) as [[]|]; try done. case_match; [|done]. apply stop_parent_runs.
  - assert (forall b, (if b : bool then None else r ← ActorRunner.step l (kid f); Some (set_kid r f))
              = Some f' -> both_run f f') as Hg.
    { intros [] Hs; [done|]. destruct (ActorRunner.step l (kid f)) as [r|] eqn:Hl; [|done].
      injection Hs as <-. split; [apply runs_refl|by eapply runs_step]. }
    destruct l; try done; apply Hg.
  - cbn [step]. case_decide; [|done]. destruct (inner_receiver (kid f)) as [|[ev|e|e] q]; [done| | |].
    + apply handle_inner_runs.
    + destruct (handle_inner None f) as [f1|] eqn:Hf; [|done]. cbn [mbind option_bind]. intros [= <-].
      apply handle_inner_runs in Hf. case_match; [|done].
      eapply both_run_trans; [exact Hf|apply report_runs].
    + case_match; [|apply handle_inner_runs]. intros [= <-].
      destruct (report_runs (ChildFault e (fresh f)) f). done.
  - cbn [step]. destruct (kid_waits f) as [n|]; [|done].
    destruct (action_for n (trace (par f))); [apply handle_inner_runs|].
    case_match; [|done]. apply handle_inner_runs.
Qed.

(** However a parent and its child interleave, with their channels joined and each waiting for
    the other inside its branches, what each of them does is a run of the single runner: every
    theorem on the runs of an actor holds of the members of a family. *)
Theorem family_runs_are_runner_runs ls f f' :
  steps ls f = Some f' ->
  (exists pls, ActorRunner.steps pls (par f) = Some (par f')) /\
  (exists kls, ActorRunner.steps kls (kid f) = Some (kid f')).
Proof.
  revert f. induction ls as [|l ls IH]; intros f.
  - intros [= <-]. by split; exists [].
  - cbn [steps]. destruct (step l f) as [f1|] eqn:Hl; [|done]. intros Hs.
    destruct (both_run_trans f f1 f' (family_step_runs _ _ _ Hl)); [|done].
    by destruct (IH f1 Hs).
Qed.

(** ** The two awaits *)

(** The oneshots from the next number on are new: nothing was sent on them. *)
Definition oneshots_fresh f : Prop :=
  forall n, fresh f <= n ->
  action_for n (trace (par f)) = None /\ ActorRefOps.stop_confirmed n (trace (kid f)) = false.

(** The child is about to handle its failure. *)
Record failing f (e : ActorError.Error) : Prop := {
  fa_run : at_pc (kid f) = InRun;
  fa_signal : stop_signal (kid f) = false;
  fa_parent : has_parent (kid f) = true;
  fa_inner : exists q, inner_receiver (kid f) = InnerFail e :: q;
  fa_waits : kid_waits f = None;
}.

(** The parent is about to handle a stop request, which comes to the child. *)
Record stopping_parent f : Prop := {
  sp_run : at_pc (par f) = InRun;
  sp_waits : par_waits f = None;
  sp_stop : exists stop q, stop_receiver (par f) = stop :: q /\ comes_to_child f stop q = true;
}.

Lemma step_par_stop f :
  stopping_parent f -> step ParStop f = Some (set_par_waits (Some Sending) f).
Proof.
  intros [Hr Hw (stop & q & Hs & Hc)]. cbn [step]. rewrite decide_True by done. by rewrite Hs, Hc.
Qed.

Lemma step_kid_fails f e :
  failing f e -> HandleHelper.is_closed (par f) = false ->
  step KidInner f
  = Some (next_oneshot (set_kid_waits (Some (fresh f)) (report (ChildFault e (fresh f)) f))).
Proof.
  intros [Hr Hs Hp [q Hi] Hw] Hc. cbn [step]. rewrite decide_True by done. by rewrite Hi, Hp, Hc.
Qed.

Lemma running_open {X M E R : Type} `{Actor X M E R} (r : Runner X M E R) :
  at_pc r = InRun -> HandleHelper.is_closed r = false.
Proof. intros Hr. unfold HandleHelper.is_closed. by rewrite Hr. Qed.

(** *** Both at once *)

(** The parent waits for the confirmation [n] of the child and the child for the
    action [m] of the parent. *)
Record stuck f (n m : nat) (tp : list (obs Ev Rsp)) (tk : list (obs CEv CRsp)) : Prop := {
  sk_par : at_pc (par f) = InRun;
  sk_kid : at_pc (kid f) = InRun;
  sk_par_waits : par_waits f = Some (Confirming n);
  sk_kid_waits : kid_waits f = Some m;
  sk_par_trace : trace (par f) = tp;
  sk_kid_trace : trace (kid f) = tk;
  sk_action : action_for m tp = None;
  sk_confirmed : ActorRefOps.stop_confirmed n tk = false;
}.

(** The steps that others make on a task do not move it. *)
Lemma others_leave_it {X M E R : Type} `{Actor X M E R} l (r r' : Runner X M E R) :
  of_task l = false -> ActorRunner.step l r = Some r' -> at_pc r' = at_pc r /\ trace r' = trace r.
Proof.
  intros Hl Hs. destruct l; try done; cbn [ActorRunner.step] in Hs; try case_decide; by simplify_eq.
Qed.

Lemma stuck_step n m tp tk l f f' : stuck f n m tp tk -> step l f = Some f' -> stuck f' n m tp tk.
Proof.
  intros [Hp Hk Hpw Hkw Htp Htk Ha Hc].
  destruct l as [l| | | |l| |]; cbn [step]; rewrite ?Hpw, ?Hkw; cbn [waits]; rewrite ?andb_true_r.
  - assert ((if of_task l then None else r ← ActorRunner.step l (par f); Some (set_par r f)) = Some f' ->
      stuck f' n m tp tk) as Hg.
    { destruct (of_task l) eqn:Ho; [done|].
      destruct (ActorRunner.step l (par f)) as [r|] eqn:Hl; [|done]. cbn [mbind option_bind].
      intros [= <-]. destruct (others_leave_it _ _ _ Ho Hl) as [Hpc Htr].
      split; cbn; congruence. }
    destruct l; try done; exact Hg.
  - case_decide as Hx; [|done]. destruct Hx. congruence.
  - done.
  - rewrite Htk, Hc, running_open by done. done.
  - assert ((if of_task l then None else r ← ActorRunner.step l (kid f); Some (set_kid r f)) = Some f' ->
      stuck f' n m tp tk) as Hg.
    { destruct (of_task l) eqn:Ho; [done|].
      destruct (ActorRunner.step l (kid f)) as [r|] eqn:Hl; [|done]. cbn [mbind option_bind].
      intros [= <-]. destruct (others_leave_it _ _ _ Ho Hl) as [Hpc Htr].
      split; cbn; congruence. }
    destruct l; try done; exact Hg.
  - case_decide as Hx; [|done]. destruct Hx as (_ & _ & Hx). congruence.
  - rewrite Htp, Ha, running_open by done. done.
Qed.

Lemma stuck_steps n m tp tk ls f f' : stuck f n m tp tk -> steps ls f = Some f' -> stuck f' n m tp tk.
Proof.
  revert f. induction ls as [|l ls IH]; intros f Hf; [by intros [= <-]|]. cbn [steps].
  destruct (step l f) as [f1|] eqn:Hl; [|done]. apply IH. by eapply stuck_step.
Qed.

(** C34: A child that fails while its parent handles a stop request waits for the action of the
    parent, which waits for the child to stop: from then on, whatever others send, neither task
    ever moves. *)
Theorem fault_while_the_parent_stops_deadlocks f e :
  failing f e -> stopping_parent f -> oneshots_fresh f ->
  length (stop_receiver (kid f)) < stop_capacity ->
  exists f1, steps [ParStop; KidInner; ParSend] f = Some f1 /\
    forall ls f', steps ls f1 = Some f' ->
      at_pc (par f') = InRun /\ at_pc (kid f') = InRun /\
      trace (par f') = trace (par f) /\ trace (kid f') = trace (kid f).
Proof.
  intros Hf Hp Hn Hcap. cbn [steps]. rewrite (step_par_stop f Hp). pose proof Hp as [Hpr _ _].
  pose proof Hf as [Hkr _ _ _ _].
  rewrite (step_kid_fails (set_par_waits (Some Sending) f) e);
    [|by destruct Hf; split|by apply running_open].
  unfold report. rewrite running_open by done. cbn [step par_waits kid next_oneshot set_kid_waits
    set_par set_par_waits fresh ActorRunner.step].
  rewrite running_open, decide_True by (by rewrite ?Hkr). cbn [mbind option_bind].
  eexists. split; [done|]. intros ls f' Hs.
  eapply (stuck_steps (S (fresh f)) (fresh f) (trace (par f)) (trace (kid f))) in Hs as [];
    [done|]. split; try done; apply Hn; lia.
Qed.

(** *** One after the other *)

Lemma action_for_app n (t1 t2 : list (obs Ev Rsp)) :
  action_for n (t1 ++ t2)
  = match action_for n t1 with Some a => Some a | None => action_for n t2 end.
Proof. induction t1 as [|o t1 IH]; [done|]. destruct o; cbn; try done. by case_decide. Qed.

(** A running parent answers the fault of its child with the action of its hook, and the child
    goes on with that action. *)
Theorem fault_gets_the_parents_action f e a action :
  failing f e -> oneshots_fresh f ->
  at_pc (par f) = InRun -> stop_signal (par f) = false -> error_receiver (par f) = [] ->
  par_waits f = None -> on_child_fault (actor (par f)) e = (a, [], Ok action) ->
  exists f', steps [KidInner; Par SelError; KidResume] f = Some f' /\
    ActorRunner.step (SelInner (Some action)) (kid f) = Some (kid f') /\
    actor (par f') = a /\ error_receiver (par f') = [] /\ par_waits f' = None /\ kid_waits f' = None /\
    trace (par f') = trace (par f) ++ [Called OnChildFault; ActionSent (fresh f) action].
Proof.
  intros Hf Hn Hp Hs He Hw Ha. cbn [steps]. rewrite (step_kid_fails f e Hf) by by apply running_open.
  unfold report. rewrite running_open, He by done.
  set (r := set_error_receiver _ (par f)).
  assert (ActorRunner.step SelError r = Some (set_trace (trace (par f) ++
    [Called OnChildFault; ActionSent (fresh f) action]) (set_actor a (set_error_receiver [] r)))) as Hr.
  { cbn [ActorRunner.step]. rewrite decide_True by done. subst r. cbn [error_receiver set_error_receiver app].
    unfold on_error. run_eval. rewrite Ha. run_eval. unfold set_trace, set_actor. cbn.
    by rewrite <- app_assoc. }
  cbn [step of_task waits andb par_waits next_oneshot set_kid_waits set_par].
  rewrite Hw. cbn [waits par next_oneshot set_kid_waits set_par]. rewrite Hr. cbn [mbind option_bind].
  cbn [kid_waits next_oneshot set_kid_waits set_par par trace set_trace]. rewrite action_for_app, (proj1 (Hn _ (le_n _))).
  cbn [action_for]. rewrite decide_True by done. unfold handle_inner. cbn [kid set_par next_oneshot set_kid_waits].
  destruct Hf as [Hkr Hks _ [q Hi] _]. cbn [ActorRunner.step]. rewrite decide_True, Hi by done.
  cbn [mbind option_bind]. eexists. split; [done|]. cbn. by rewrite Hw.
Qed.

(** The stop of a parent sends a stop request to its child and does not go on before the child
    has handled it and confirmed; then it ends like the stop of a single runner. *)
Theorem parent_stop_waits_for_its_child f :
  stopping_parent f -> oneshots_fresh f -> quiet (pre_stop (A:=B)) ->
  at_pc (kid f) = InRun -> stop_receiver (kid f) = [] -> kid_waits f = None ->
  exists f2, steps [ParStop; ParSend] f = Some f2 /\ step ParResume f2 = None /\
    exists f', steps [Kid SelStop; ParResume] f2 = Some f' /\
      ActorRunner.step SelStop (par f) = Some (par f') /\ par_waits f' = None /\
      trace (kid f') = trace (kid f) ++ stop_trace (kid f) (Some (fresh f)).
Proof.
  intros Hp Hn Hq Hk Hs Hw. cbn [steps]. rewrite (step_par_stop f Hp).
  cbn [step par_waits set_par_waits kid fresh]. rewrite running_open by done.
  rewrite (step_stop_request _ _ Hk Hs). cbn [mbind option_bind].
  eexists. split; [done|]. cbn [step par_waits next_oneshot set_par_waits kid set_kid trace set_stop_receiver].
  rewrite (proj2 (Hn _ (le_n _))), running_open by done. split; [done|].
  cbn [of_task waits kid_waits next_oneshot set_par_waits set_kid andb]. rewrite Hw. cbn [andb waits].
  rewrite (sel_stop _ (Some (fresh f)) [] Hq) by done.
  cbn [mbind option_bind par_waits set_kid next_oneshot set_par_waits kid trace].
  rewrite stop_confirmed_app, stop_trace_confirms, bool_decide_true, orb_true_r by done. cbn [orb].
  unfold stop_parent. cbn [par set_kid next_oneshot set_par_waits].
  assert (is_Some (ActorRunner.step SelStop (par f))) as [r Hr].
  { destruct Hp as [Hpr _ (stop & q & Hst & _)]. cbn [ActorRunner.step].
    rewrite decide_True, Hst by done. by eexists. }
  rewrite Hr. cbn [mbind option_bind]. by eexists.
Qed.

End Correct.

(** ** A parent with one child *)

Definition family_parent : Runner nat nat nat nat :=
  mk_runner plain_path 0 Started [] true [Some 40] false [] [] false None [9] 0%N false InRun [] None.

Definition family_child (inner : list (InnerAction nat)) : Runner bool nat nat nat :=
  mk_runner (ActorPath.div plain_path "kid") true Started [] true [] true [] inner false None [] 0%N
    false InRun [] None.

Definition family (inner : list (InnerAction nat)) : Family :=
  mk_family family_parent (family_child inner) 9 None None 100.

Lemma family_stopping inner : stopping_parent (PA:=plain) (family inner).
Proof. split; [done..|]. exists (Some 40), []. split; [done|]. vm_compute. reflexivity. Qed.

Lemma family_fresh inner : oneshots_fresh (family inner).
Proof. intros n _. done. Qed.

Lemma family_failing : failing (family [InnerFail ActorError.Stop]) ActorError.Stop.
Proof. split; try done. by exists []. Qed.

Lemma fault_while_the_parent_stops_deadlocks_witness :
  exists f1, steps (PA:=plain) (PB:=flaky) [ParStop; KidInner; ParSend]
      (family [InnerFail ActorError.Stop]) = Some f1 /\
    forall ls f', steps (PA:=plain) (PB:=flaky) ls f1 = Some f' ->
      at_pc (par f') = InRun /\ at_pc (kid f') = InRun /\
      trace (par f') = [] /\ trace (kid f') = [].
Proof.
  apply (fault_while_the_parent_stops_deadlocks (PA:=plain) (PB:=flaky) _ ActorError.Stop
    family_failing (family_stopping _) (family_fresh _)).
  vm_compute. lia.
Defined.

Lemma fault_gets_the_parents_action_witness :
  exists f', steps (PA:=plain) (PB:=flaky) [KidInner; Par SelError; KidResume]
      (family [InnerFail ActorError.Stop]) = Some f' /\
    trace (par f') = [Called OnChildFault; ActionSent 100 ActStop].
Proof.
  destruct (fault_gets_the_parents_action (PA:=plain) (PB:=flaky) _ ActorError.Stop 0 ActStop
    family_failing (family_fresh _) eq_refl eq_refl eq_refl eq_refl eq_refl)
    as (f' & Hs & _ & _ & _ & _ & _ & Ht).
  exists f'. split; [exact Hs|exact Ht].
Defined.

Lemma parent_stop_waits_for_its_child_witness :
  exists f2, steps (PA:=plain) (PB:=flaky) [ParStop; ParSend] (family []) = Some f2 /\
    step (PA:=plain) (PB:=flaky) ParResume f2 = None.
Proof.
  destruct (parent_stop_waits_for_its_child (PA:=plain) (PB:=flaky) (family []) (family_stopping _)
    (family_fresh _) (fun _ => eq_refl) eq_refl eq_refl eq_refl) as (f2 & Hs & Hn & _).
  exists f2. split; [exact Hs|exact Hn].
Defined.

Lemma family_runs_are_runner_runs_witness :
  exists f', steps (PA:=plain) (PB:=flaky) [KidInner; Par SelError; KidResume]
      (family [InnerFail ActorError.Stop]) = Some f' /\
    exists kls, ActorRunner.steps (H:=flaky) kls (family_child [InnerFail ActorError.Stop])
                = Some (kid f').
Proof.
  eexists. split; [vm_compute; reflexivity|].
  exact (proj2 (family_runs_are_runner_runs (PA:=plain) (PB:=flaky)
    [KidInner; Par SelError; KidResume] (family [InnerFail ActorError.Stop]) _
    ltac:(vm_compute; reflexivity))).
Defined.
