(* ===== verification/Tree.v ===== *)
(** * The stop of a tree of actors (actor/src/runner.rs, [stop_childs] of actor/src/actor.rs)

    The runners of any number of actors, joined by their stop channels: an actor
    that handles a stop request pops its children, sends each a request and waits
    until it confirms or ends, and only then leaves its loop. Meanwhile the other
    branches of the actors go on. [Family] has the errors and faults of one child;
    here they are left to the labels, as in [Runner]. *)

From stdpp Require Import functions relations.
From S2P Require Import Prelude Path Errors Supervision Runner RunnerCorrect RunnerStop Messaging Serving Family.
Import ActorRunner.

Module Tree.

(** Where the loop of [stop_childs] is: about to pop a sender, or waiting for the
    oneshot that it sent to a child. *)
Inductive stage : Type :=
| Popping
| Awaiting (child stop_receiver : nat).

Section Operations.
Context {A Msg Ev Rsp : Type} `{PA : Actor A Msg Ev Rsp}.

Local Abbreviation runner := (Runner A Msg Ev Rsp).

(** A task, and the loop of [stop_childs] that it is in with the senders that are
    still to be popped, the last one first. A task in such a loop keeps the state
    that it had before the branch, which ends all at once. *)
Record Task : Type := mk_task {
  runner_of : runner;
  waits_for : option (list nat * stage);
}.

(** The tasks, by the number of their stop sender, and the next oneshot. *)
Record Tree : Type := mk_tree {
  tasks : list Task;
  oneshot : nat;
}.
Implicit Types (t : Tree).

Definition set_runner (n : nat) (r : runner) t : Tree :=
  mk_tree (alter (fun k => mk_task r (waits_for k)) n (tasks t)) (oneshot t).

Definition set_waits (n : nat) (w : option (list nat * stage)) t : Tree :=
  mk_tree (alter (fun k => mk_task (runner_of k) w) n (tasks t)) (oneshot t).

Inductive tlabel : Type :=
| Own (n : nat) (l : label (Msg:=Msg))
| Ask (n : nat)
| StopBegins (n : nat)
| PopChild (n : nat)
| Confirmed (n : nat)
| StopEnds (n : nat).

(** A step of one task; one that waits does none of its own. The registry keeps a
    reference to each actor, so the senders of a mailbox are not all dropped, and
    the oneshots of stop requests are numbered here. *)
Definition own (n : nat) (l : label (Msg:=Msg)) t : option Tree :=
  match l with
  | SelStop | StopRequest (Some _) | DropSenders => None
  | _ =>
      k ← tasks t !! n;
      if Family.of_task l && Family.waits (waits_for k) then None
      else r ← ActorRunner.step l (runner_of k); Some (set_runner n r t)
  end.

(** [stop_sender.send(Some(..))] on a fresh oneshot. *)
Definition send_stop (n : nat) t : option Tree :=
  k ← tasks t !! n;
  r ← ActorRunner.step (StopRequest (Some (oneshot t))) (runner_of k);
  Some (mk_tree (tasks (set_runner n r t)) (S (oneshot t))).

(** The task of a stop sender is gone. *)
Definition closed (n : nat) t : bool :=
  match tasks t !! n with Some k => HandleHelper.is_closed (runner_of k) | None => true end.

(** The end of the stop branch. *)
Definition end_stop (n : nat) t : option Tree :=
  k ← tasks t !! n;
  r ← ActorRunner.step SelStop (runner_of k); Some (set_waits n None (set_runner n r t)).

(** The stop branch up to the loop of [stop_childs]; a task that unwinds or blocks
    before it does not come to the loop. *)
Definition begin_stop (n : nat) t : option Tree :=
  k ← tasks t !! n;
  if decide (at_pc (runner_of k) = InRun /\ waits_for k = None) then
    match stop_receiver (runner_of k) with
    | stop :: q =>
        match Family.stop_begins stop (set_stop_receiver q (runner_of k)) with
        | (r, Ok _) => Some (set_waits n (Some (reverse (child_senders r), Popping)) t)
        | _ => end_stop n t
        end
    | [] => None
    end
  else None.

(** A turn of the loop: a child whose channel is closed is passed over. *)
Definition pop_child (n : nat) t : option Tree :=
  k ← tasks t !! n;
  match waits_for k with
  | Some (child :: todo, Popping) =>
      if closed child t then Some (set_waits n (Some (todo, Popping)) t)
      else
        t' ← send_stop child t; Some (set_waits n (Some (todo, Awaiting child (oneshot t))) t')
  | _ => None
  end.

(** [stop_receiver.await] returns, with or without a confirmation. *)
Definition confirmed (n : nat) t : option Tree :=
  k ← tasks t !! n;
  match waits_for k with
  | Some (todo, Awaiting child i) =>
      if closed child t ||
        match tasks t !! child with
        | Some c => ActorRefOps.stop_confirmed i (trace (runner_of c))
        | None => false
        end
      then Some (set_waits n (Some (todo, Popping)) t) else None
  | _ => None
  end.

(** [pop] has nothing left. *)
Definition finish_stop (n : nat) t : option Tree :=
  k ← tasks t !! n;
  match waits_for k with Some ([], Popping) => end_stop n t | _ => None end.

Definition step (l : tlabel) t : option Tree :=
  match l with
  | Own n l => own n l t
  | Ask n => send_stop n t
  | StopBegins n => begin_stop n t
  | PopChild n => pop_child n t
  | Confirmed n => confirmed n t
  | StopEnds n => finish_stop n t
  end.

Fixpoint steps (ls : list tlabel) t : option Tree :=
  match ls with
  | [] => Some t
  | l :: ls => match step l t with Some t' => steps ls t' | None => None end
  end.

(** The steps of a stop, up to the end of the task. *)
Definition of_stop (l : tlabel) : bool :=
  match l with
  | StopBegins _ | PopChild _ | Confirmed _ | StopEnds _ | Own _ Turn => true
  | _ => false
  end.

End Operations.

End Tree.

Import Tree.

(** ** A tree is so many runners *)

Section Runs.
Context {A Msg Ev Rsp : Type} `{PA : Actor A Msg Ev Rsp}.

Local Abbreviation tree := (Tree (A:=A) (Msg:=Msg) (Ev:=Ev) (Rsp:=Rsp)).
Local Abbreviation task := (Task (A:=A) (Msg:=Msg) (Ev:=Ev) (Rsp:=Rsp)).
Implicit Types (t : tree) (k : task).

(** What happens to the tasks, one by one. *)
Definition evolves (R : task -> task -> Prop) t t' : Prop := Forall2 R (tasks t) (tasks t').

#[export] Instance evolves_trans R `{!Transitive R} : Transitive (evolves R).
Proof. intros t1 t2 t3. unfold evolves. apply (@transitivity _ (Forall2 R) _). Qed.

Lemma evolves_alter R f n i t :
  Reflexive R -> (forall k, tasks t !! n = Some k -> R k (f k)) ->
  evolves R t (mk_tree (alter f n (tasks t)) i).
Proof.
  intros ? Hf. apply Forall2_lookup. intros m. cbn [tasks]. rewrite list_lookup_alter.
  case_decide as Hm; [subst m|]; destruct (tasks t !! _) as [k|] eqn:Hk; cbn; try done; apply Some_Forall2; auto.
Qed.

(** The runner of a task goes on as a runner. *)
Definition goes_on k k' : Prop := runs (runner_of k) (runner_of k').

#[local] Instance goes_on_refl : Reflexive goes_on.
Proof. intros k. apply runs_refl. Qed.

#[local] Instance goes_on_trans : Transitive goes_on.
Proof. intros k1 k2 k3. apply runs_trans. Qed.

Lemma set_waits_runs n w t : evolves goes_on t (set_waits n w t).
Proof. apply evolves_alter; [apply _|]. intros k _. apply runs_refl. Qed.

Lemma set_runner_runs n k r i l t :
  tasks t !! n = Some k -> ActorRunner.step l (runner_of k) = Some r ->
  evolves goes_on t (mk_tree (tasks (set_runner n r t)) i).
Proof.
  intros Hk Hs. apply evolves_alter; [apply _|]. intros k' Hk'. simplify_eq. by eapply runs_step.
Qed.

Lemma send_stop_runs n t t' : send_stop n t = Some t' -> evolves goes_on t t'.
Proof.
  unfold send_stop. destruct (tasks t !! n) as [k|] eqn:Hk; [|done]. cbn [mbind option_bind].
  destruct (ActorRunner.step _ (runner_of k)) as [r|] eqn:Hs; [|done]. intros [= <-].
  by eapply set_runner_runs.
Qed.

Lemma end_stop_runs n t t' : end_stop n t = Some t' -> evolves goes_on t t'.
Proof.
  unfold end_stop. destruct (tasks t !! n) as [k|] eqn:Hk; [|done]. cbn [mbind option_bind].
  destruct (ActorRunner.step _ (runner_of k)) as [r|] eqn:Hs; [|done]. intros [= <-].
  transitivity (set_runner n r t); [|apply set_waits_runs].
  by eapply set_runner_runs.
Qed.

Lemma own_runs n l t t' : own n l t = Some t' -> evolves goes_on t t'.
Proof.
  assert ((k ← tasks t !! n;
           if Family.of_task l && Family.waits (waits_for k) then None
           else r ← ActorRunner.step l (runner_of k); Some (set_runner n r t)) = Some t' ->
          evolves goes_on t t') as Hg.
  { destruct (tasks t !! n) as [k|] eqn:Hk; [|done]. cbn [mbind option_bind]. case_match; [done|].
    destruct (ActorRunner.step _ (runner_of k)) as [r|] eqn:Hs; [|done]. intros [= <-].
    by eapply set_runner_runs. }
  destruct l as [| | | | | | |[s|]| |]; try done; exact Hg.
Qed.

Lemma tree_step_runs l t t' : step l t = Some t' -> evolves goes_on t t'.
Proof.
  destruct l as [n l|n|n|n|n|n]; cbn [step].
  - apply own_runs.
  - apply send_stop_runs.
  - unfold begin_stop. destruct (tasks t !! n) as [k|]; [|done]. cbn [mbind option_bind].
    case_decide; [|done]. destruct (stop_receiver _); [done|].
    destruct (Family.stop_begins _ _) as [r []]; try apply end_stop_runs.
    intros [= <-]. apply set_waits_runs.
  - unfold pop_child. destruct (tasks t !! n) as [k|]; [|done]. cbn [mbind option_bind].
    destruct (waits_for k) as [[[|c todo] []]|]; try done. case_match.
    + intros [= <-]. apply set_waits_runs.
    + destruct (send_stop c t) as [t1|] eqn:Hs; [|done]. intros [= <-].
      transitivity t1; [by eapply send_stop_runs|apply set_waits_runs].
  - unfold confirmed. destruct (tasks t !! n) as [k|]; [|done]. cbn [mbind option_bind].
    destruct (waits_for k) as [[todo []]|]; try done. case_match; [|done].
    intros [= <-]. apply set_waits_runs.
  - unfold finish_stop. destruct (tasks t !! n) as [k|]; [|done]. cbn [mbind option_bind].
    destruct (waits_for k) as [[[|c todo] []]|]; try done. apply end_stop_runs.
Qed.

(** However the actors of a tree interleave, each waiting inside its stop branch for its
    children, what one of them does is a run of the single runner. *)
Theorem tree_runs_are_runner_runs ls t t' n k :
  steps ls t = Some t' -> tasks t !! n = Some k ->
  exists k' own_ls, tasks t' !! n = Some k' /\
    ActorRunner.steps own_ls (runner_of k) = Some (runner_of k').
Proof.
  intros Hs Hk. assert (evolves goes_on t t') as He.
  { clear Hk. revert t Hs. induction ls as [|l ls IH]; intros t; cbn [steps].
    - intros [= <-]. unfold evolves. reflexivity.
    - destruct (step l t) as [t1|] eqn:Hl; [|done]. intros Hs.
      transitivity t1; [by eapply tree_step_runs|by apply IH]. }
  destruct (Forall2_lookup_l _ _ _ _ _ He Hk) as (k' & Hk' & own_ls & Hr). by exists k', own_ls.
Qed.

End Runs.

(** ** Actors that do not fail *)

(** A hook that at most publishes events, and does not panic. *)
Definition mild {A Ev X : Type} (h : hook A Ev X) : Prop :=
  Forall (fun c => exists ev, c = PublishEvent ev) h.1.2 /\ h.2 <> Panic.

(** The hooks of an actor that runs. Its start is left open: [pre_start] is where
    an actor creates its children. *)
Class Mild (A Msg Ev Rsp : Type) `{Actor A Msg Ev Rsp} : Prop := {
  m_handler : forall a sender msg, mild (handle_message a sender msg);
  m_child_error : forall a e, mild (on_child_error a e);
  m_child_fault : forall a e, mild (on_child_fault a e);
  m_pre_stop : forall a, mild (pre_stop a) /\ (pre_stop a).2 = Ok tt;
  m_post_stop : forall a, mild (post_stop a);
}.

Section Steady.
Context {A Msg Ev Rsp : Type} `{Mild A Msg Ev Rsp}.

Local Abbreviation runner := (Runner A Msg Ev Rsp).
Implicit Types (r : runner).

Definition is_event (i : InnerAction Ev) : bool := match i with InnerEvent _ => true | _ => false end.

Definition is_reply (o : obs Ev Rsp) : bool := match o with StopReplied _ => true | _ => false end.

Definition replies r : list (obs Ev Rsp) := List.filter is_reply (trace r).

Definition failures r : list (InnerAction Ev) := List.filter (negb ∘ is_event) (inner_receiver r).

(** What the branches of a mild actor keep, but for the stop. *)
Definition frame r : list nat * option ActorError.Error * bool * ActorLifecycle * bool * pc
    * list (InnerAction Ev) * list (obs Ev Rsp) :=
  (child_senders r, error r, senders_alive r, lifecycle r, stop_signal r, at_pc r, failures r, replies r).

(** The stop requests only grow. *)
Definition grows r r' : Prop :=
  frame r' = frame r /\ exists q, stop_receiver r' = stop_receiver r ++ q.

#[local] Instance grows_refl : Reflexive grows.
Proof. intros r. split; [done|]. exists []. by rewrite app_nil_r. Qed.

#[local] Instance grows_trans : Transitive grows.
Proof.
  intros r1 r2 r3 [Hf12 [q12 Hq12]] [Hf23 [q23 Hq23]]. split; [congruence|].
  exists (q12 ++ q23). by rewrite Hq23, Hq12, app_assoc.
Qed.

(** A computation that returns and keeps the frame. *)
Definition steady {X} (m : stM runner (halt Ev Rsp) X) : Prop := forall r, exists r' x,
  m r = (r', Ok x) /\ grows r r'.

Lemma steady_ret {X} (x : X) : steady (mret x).
Proof. intros r. by exists r, x. Qed.

Lemma steady_get : steady getM.
Proof. intros r. by exists r, r. Qed.

Lemma steady_bind {X Y} (m : stM runner (halt Ev Rsp) X) (g : X -> stM runner (halt Ev Rsp) Y) :
  steady m -> (forall x, steady (g x)) -> steady (m ≫= g).
Proof.
  intros Hm Hg r. destruct (Hm r) as (r1 & x & Hr1 & Hgr1). destruct (Hg x r1) as (r2 & y & Hr2 & Hgr2).
  exists r2, y. unfold mbind, stM_bind. rewrite Hr1. split; [done|by etrans].
Qed.

Lemma steady_put f : (forall r, grows r (f r)) -> steady (put f).
Proof. intros Hf r. by exists (f r), tt. Qed.

Lemma steady_observe o : is_reply o = false -> steady (observe o).
Proof.
  intros Ho. apply steady_put. intros r. split; [|exists []; by rewrite app_nil_r].
  unfold frame, replies. cbn [trace set_trace]. rewrite List.filter_app. cbn. by rewrite Ho, app_nil_r.
Qed.

Lemma steady_publish ev cs k : steady (do_call (PublishEvent ev) cs k).
Proof.
  apply steady_put. intros r. split; [|exists []; by rewrite app_nil_r].
  unfold frame, failures. cbn [inner_receiver set_inner_receiver]. rewrite List.filter_app. cbn.
  by rewrite app_nil_r.
Qed.

Lemma steady_call {X} h (f : A -> hook A Ev X) k : (forall a, mild (f a)) -> steady (call h f k).
Proof.
  intros Hf. unfold call. apply steady_bind; [by apply steady_observe|]. intros _.
  apply steady_bind; [apply steady_get|]. intros r. specialize (Hf (actor r)).
  destruct (f (actor r)) as [[a cs] res]. destruct Hf as [Hcs Hres]. cbn in Hcs, Hres.
  apply steady_bind; [apply steady_put; intros r'; split; [done|exists []; by rewrite app_nil_r]|].
  intros _. apply steady_bind.
  - induction Hcs as [|c cs [ev ->] _ IH]; [apply steady_ret|].
    apply steady_bind; [apply steady_publish|done].
  - intros _. destruct res; [apply steady_ret..|done].
Qed.

Lemma steady_task m r : steady m -> grows r (run_task m r).
Proof. intros Hm. unfold run_task. by destruct (Hm r) as (r' & [] & -> & Hg). Qed.

Lemma steady_on_error e : steady (on_error e).
Proof.
  destruct e as [e|e s]; (apply steady_bind; [apply steady_call; intros a; apply m_child_error || apply m_child_fault|]).
  - intros _. apply steady_ret.
  - intros []; [by apply steady_observe|apply steady_ret..].
Qed.

Lemma steady_on_message m : steady (on_message m).
Proof.
  destruct m as [[msg sender] rsvp]. apply steady_bind; [apply steady_call; intros a; apply m_handler|].
  intros res. destruct rsvp; [by apply steady_observe|apply steady_ret].
Qed.

(** ** The states of a mild actor *)

Definition calm r : Prop :=
  error r = None /\ senders_alive r = true /\ stop_signal r = false /\ failures r = [] /\
  match at_pc r with
  | InRun => lifecycle r = Started
  | AtLoop => lifecycle r = Stopped \/ lifecycle r = Terminated
  | Done => True
  | Panicked | Blocked => False
  end.

Lemma calm_frame r r' : frame r' = frame r -> calm r -> calm r'.
Proof. unfold frame, calm. intros [= _ He Hsa Hl Hss Hpc Hf _]. by rewrite He, Hsa, Hl, Hss, Hpc, Hf. Qed.

Lemma grows_calm r r' : grows r r' -> calm r -> calm r'.
Proof. intros [Hf _]. by apply calm_frame. Qed.

(** The steps of the task, but for the turns of [init] and the stop branch. *)
Lemma branch_grows l r r' :
  calm r -> l <> Turn -> l <> SelStop -> l <> DropSenders ->
  ActorRunner.step l r = Some r' -> grows r r'.
Proof.
  intros (He & Hsa & Hss & Hf & Hpc) Ht Hs Hd. destruct l as [| | |action| | |m|s|ce|]; try done; cbn [ActorRunner.step].
  - case_decide; [|done]. destruct (error_receiver r) as [|e q]; [done|]. intros [= <-].
    apply (steady_task _ (set_error_receiver q r)), steady_on_error.
  - case_decide; [|done]. unfold failures in Hf.
    destruct (inner_receiver r) as [|[ev|e|e] q] eqn:Hq; [done| |done..]. intros [= <-].
    etrans; [|apply steady_task; by apply steady_observe].
    split; [unfold frame, failures; cbn; by rewrite Hq|by exists []; rewrite app_nil_r].
  - case_decide; [|done]. destruct (receiver r) as [|m q]; [by rewrite Hsa|]. intros [= <-].
    apply (steady_task _ (set_receiver q r)), steady_on_message.
  - case_decide as Hb; [|done]. destruct Hb as [Hb _]. by rewrite Hb in Hpc.
  - case_decide; [|done]. intros [= <-]. split; [done|]. exists []. by rewrite app_nil_r.
  - case_decide; [|done]. intros [= <-]. split; [done|]. by exists [s].
  - intros [= <-]. split; [done|]. exists []. by rewrite app_nil_r.
Qed.

Lemma stop_begins_mild stop r :
  exists r', Family.stop_begins stop r = (r', Ok tt) /\ grows r r' /\
    call PreStop pre_stop (AfterPreStop stop) r = (r', Ok (Ok tt)).
Proof.
  destruct (steady_call PreStop pre_stop (AfterPreStop stop) (fun a => proj1 (m_pre_stop a)) r) as (r' & res & Hr & Hg).
  assert (res = Ok tt) as ->.
  { destruct (m_pre_stop (actor r)) as [_ Hok]. revert Hr. unfold call, returned. run_simpl.
    destruct (pre_stop (actor r)) as [[a cs] res']. cbn in Hok. subst res'.
    destruct (do_calls cs _ _) as [r1 []]; [|done..]. by intros [= _ <-]. }
  exists r'. unfold Family.stop_begins. unfold mbind, stM_bind. by rewrite Hr.
Qed.

(** The stop branch leads out of [run]. *)
Lemma stop_leaves_run r s q :
  calm r -> at_pc r = InRun -> stop_receiver r = s :: q ->
  exists r', ActorRunner.step SelStop r = Some r' /\ calm r' /\ at_pc r' = AtLoop /\ lifecycle r' = Stopped.
Proof.
  intros Hc Hpc Hs. cbn [ActorRunner.step]. rewrite decide_True, Hs by done.
  destruct (stop_begins_mild s (set_stop_receiver q r)) as (r1 & _ & Hg & Hr1).
  assert (calm r1) as (He & Hsa & Hss & Hf & Hl) by (by eapply grows_calm).
  destruct Hg as [Hfr _]. assert (at_pc r1 = InRun) as Hpc1 by (unfold frame in Hfr; cbn in Hfr; congruence).
  rewrite Hpc1 in Hl. unfold run_task, on_stop. unfold mbind at 1, stM_bind at 1. rewrite Hr1.
  destruct r1. cbn in *. subst. run_eval.
  destruct s; cbn; rewrite decide_True by done; eexists; (split; [done|]); unfold calm; cbn; auto 10.
Qed.

(** Turns of [init] that are left. *)
Definition turns_to_end r : nat :=
  match lifecycle r with Terminated => 1 | _ => 2 end.

Lemma turn_of_calm r :
  calm r -> at_pc r = AtLoop ->
  exists r', ActorRunner.step Turn r = Some r' /\ calm r' /\
    (turns_to_end r = 1 /\ at_pc r' = Done \/
     turns_to_end r = 2 /\ at_pc r' = AtLoop /\ turns_to_end r' = 1).
Proof.
  intros Hc Hpc. pose proof Hc as (He & Hsa & Hss & Hf & Hl). rewrite Hpc in Hl.
  destruct Hl as [Hl|Hl]; unfold turns_to_end; rewrite Hl.
  - rewrite step_turn by done. unfold init_turn. rewrite run_get, Hl.
    destruct (steady_call PostStop post_stop AfterPostStop m_post_stop r) as (r1 & res & Hr & [Hfr _]).
    assert (calm r1) as (He1 & Hsa1 & Hss1 & Hf1 & Hl1) by (by eapply calm_frame).
    assert (at_pc r1 = AtLoop) as Hpc1 by (unfold frame in Hfr; cbn in Hfr; congruence).
    unfold run_task, mbind, stM_bind. rewrite Hr. eexists. split; [done|].
    unfold calm. destruct r1. cbn in *. subst. auto 10.
  - rewrite turn_terminated by done. eexists. split; [done|]. split; [|by left].
    unfold calm. cbn. auto.
Qed.

End Steady.

(** ** The stop of a tree *)

Section Stop.
Context {A Msg Ev Rsp : Type} `{PA : Actor A Msg Ev Rsp} `{!Mild A Msg Ev Rsp}.

Local Abbreviation tree := (Tree (A:=A) (Msg:=Msg) (Ev:=Ev) (Rsp:=Rsp)).
Local Abbreviation task := (Task (A:=A) (Msg:=Msg) (Ev:=Ev) (Rsp:=Rsp)).
Implicit Types (t : tree) (k : task) (n c : nat).

Definition left_run k : Prop := at_pc (runner_of k) <> InRun.

Definition asked_task k : Prop := left_run k \/ stop_receiver (runner_of k) <> [].

(** The task of a number, if there is one. *)
Definition holds (P : task -> Prop) n t : Prop := forall k, tasks t !! n = Some k -> P k.

(** Leaving [run] and a pending stop request are for good. *)
Definition later k k' : Prop :=
  (left_run k -> left_run k') /\ (asked_task k -> asked_task k').

#[local] Instance later_refl : Reflexive later.
Proof. by intros k. Qed.

#[local] Instance later_trans : Transitive later.
Proof. intros k1 k2 k3 [] []. split; auto. Qed.

Lemma holds_later (P : task -> Prop) n t t' :
  (forall k k', later k k' -> P k -> P k') -> evolves later t t' -> holds P n t -> holds P n t'.
Proof.
  intros HP He Ht k' Hk'. destruct (Forall2_lookup_r _ _ _ _ _ He Hk') as (k & Hk & Hl). eauto.
Qed.

(** *** What is left to do *)

Definition work1 k : nat :=
  match at_pc (runner_of k) with
  | InRun =>
      match waits_for k with
      | None => 4 + 2 * length (child_senders (runner_of k))
      | Some (todo, Popping) => 3 + 2 * length todo
      | Some (todo, Awaiting _ _) => 4 + 2 * length todo
      end
  | AtLoop => turns_to_end (runner_of k)
  | _ => 0
  end.

Definition work t : nat := sum_list_with work1 (tasks t).

(** One task changes. *)
Definition becomes n k k' t t' : Prop :=
  tasks t !! n = Some k /\ tasks t' = <[n := k']> (tasks t).

Lemma alter_becomes f n k i t :
  tasks t !! n = Some k -> becomes n k (f k) t (mk_tree (alter f n (tasks t)) i).
Proof.
  intros Hk. split; [done|]. cbn [tasks]. revert n Hk. generalize (tasks t) as l.
  induction l as [|k' l IH]; intros [|n] Hk; simplify_eq/=; [done|]. f_equal. by apply IH.
Qed.

Lemma becomes_trans n k k1 k2 t t1 t2 :
  becomes n k k1 t t1 -> becomes n k1 k2 t1 t2 -> becomes n k k2 t t2.
Proof.
  intros [Hk H1] [Hk1 H2]. split; [done|]. rewrite H2, H1. by rewrite list_insert_insert_eq.
Qed.

Lemma becomes_lookup n k k' t t' : becomes n k k' t t' -> tasks t' !! n = Some k'.
Proof. intros [Hk ->]. apply list_lookup_insert_eq. by eapply lookup_lt_Some. Qed.

Lemma becomes_evolves n k k' t t' : becomes n k k' t t' -> later k k' -> evolves later t t'.
Proof.
  intros [Hk Ht] Hl. unfold evolves. rewrite Ht. rewrite <- (list_insert_id (tasks t) n k Hk) at 1.
  by apply Forall2_insert; [reflexivity|].
Qed.

Lemma becomes_work n k k' t t' : becomes n k k' t t' -> work t' + work1 k = work t + work1 k'.
Proof.
  intros [Hk Ht]. unfold work. rewrite Ht. clear Ht. revert n Hk. generalize (tasks t) as l.
  induction l as [|k0 l IH]; intros [|n] Hk; simplify_eq/=; [lia|]. specialize (IH n Hk). lia.
Qed.

(** *** The states of a tree *)

Context (kids : nat -> list nat).

Definition awaited (s : stage) : list nat := match s with Popping => [] | Awaiting c _ => [c] end.

(** In the loop of [stop_childs]: each child is still to be popped, or is awaited
    and has its request, or is gone. *)
Definition loop_ok t n k : Prop :=
  match waits_for k with
  | None => True
  | Some (todo, s) =>
      at_pc (runner_of k) = InRun /\ stop_receiver (runner_of k) <> [] /\
      (forall c, c ∈ todo ++ awaited s -> c ∈ kids n) /\
      (forall c, c ∈ kids n -> c ∈ todo ++ awaited s \/ holds left_run c t) /\
      (forall c, c ∈ awaited s -> holds asked_task c t)
  end.

Record task_ok t n k : Prop := {
  ok_calm : calm (runner_of k);
  ok_loop : loop_ok t n k;
  ok_running : at_pc (runner_of k) = InRun ->
    child_senders (runner_of k) = kids n /\ replies (runner_of k) = [];
  ok_left : left_run k -> forall c, c ∈ kids n -> holds left_run c t;
}.

Definition tree_ok t : Prop := forall n k, tasks t !! n = Some k -> task_ok t n k.

Lemma task_ok_later t t' n k : evolves later t t' -> task_ok t n k -> task_ok t' n k.
Proof.
  intros He [Hc Hl Hr Hx].
  assert (forall c, holds left_run c t -> holds left_run c t') as H1.
  { intros c. apply holds_later; [|done]. intros ? ? []. auto. }
  assert (forall c, holds asked_task c t -> holds asked_task c t') as H2.
  { intros c. apply holds_later; [|done]. intros ? ? []. auto. }
  split; [done| |done|auto]. unfold loop_ok in *. destruct (waits_for k) as [[todo s]|]; [|done].
  destruct Hl as (? & ? & ? & Hg & Ha). split_and!; auto. intros c Hkc. destruct (Hg c Hkc); auto.
Qed.

(** A step of the tree, with [b] steps of a stop in it. *)
Definition effect (b : nat) t t' : Prop := tree_ok t' /\ evolves later t t' /\ work t' + b <= work t.

Lemma effect_trans b1 b2 t t1 t2 : effect b1 t t1 -> effect b2 t1 t2 -> effect (b1 + b2) t t2.
Proof. intros (_ & He1 & Hw1) (Ht2 & He2 & Hw2). split; [done|]. split; [by etrans|lia]. Qed.

Lemma effect_becomes b n k k' t t' :
  tree_ok t -> becomes n k k' t t' -> later k k' -> work1 k' + b <= work1 k ->
  (task_ok t n k -> task_ok t n k') -> effect b t t'.
Proof.
  intros Ht Hb Hl Hw Hk. pose proof (becomes_evolves _ _ _ _ _ Hb Hl) as He.
  pose proof (becomes_work _ _ _ _ _ Hb) as Hwt. split; [|split; [done|lia]].
  intros m km Hm. apply (task_ok_later t); [done|]. destruct Hb as [Hn Ht'].
  rewrite Ht' in Hm. apply list_lookup_insert_Some in Hm as [(-> & -> & _)|[_ Hm]]; [|by apply Ht].
  apply Hk. by apply Ht.
Qed.

(** The steps that are not of a stop. *)
Lemma effect_grows n k r t t' :
  tree_ok t -> becomes n k (mk_task r (waits_for k)) t t' -> grows (runner_of k) r -> effect 0 t t'.
Proof.
  intros Ht Hb [Hf [q Hq]]. pose proof Hf as [= Hcs _ _ Hlc _ Hpc _ Hre].
  assert (stop_receiver (runner_of k) <> [] -> stop_receiver r <> []) as Hne.
  { rewrite Hq. by destruct (stop_receiver (runner_of k)). }
  apply (effect_becomes _ n k (mk_task r (waits_for k))); [done|done|..].
  - unfold later, asked_task, left_run. cbn [runner_of]. rewrite Hpc. split; [done|]. intros []; auto.
  - unfold work1, turns_to_end. cbn [runner_of waits_for]. rewrite Hpc, Hcs, Hlc. lia.
  - intros [Hc Hl Hr Hx]. split; unfold left_run in *; cbn [runner_of]; rewrite ?Hpc, ?Hcs, ?Hre;
      [by eapply calm_frame| |done|done].
    unfold loop_ok in *. cbn [waits_for runner_of]. destruct (waits_for k) as [[todo s]|]; [|done].
    rewrite Hpc. destruct Hl as (? & ? & ?). auto.
Qed.

(** The stop loop moves. *)
Lemma effect_waits n k w t :
  tree_ok t -> tasks t !! n = Some k -> at_pc (runner_of k) = InRun ->
  work1 (mk_task (runner_of k) w) < work1 k -> loop_ok t n (mk_task (runner_of k) w) ->
  effect 1 t (set_waits n w t).
Proof.
  intros Ht Hk Hpc Hw Hl. eapply effect_becomes; [done|by apply alter_becomes|done|lia|].
  intros [Hc _ Hr Hx]. by split.
Qed.

(** The task goes on outside [run], with its children gone. *)
Lemma effect_left n k r t t' :
  tree_ok t -> becomes n k (mk_task r None) t t' -> calm r -> at_pc r <> InRun ->
  (forall c, c ∈ kids n -> holds left_run c t) -> work1 (mk_task r None) < work1 k ->
  effect 1 t t'.
Proof.
  intros Ht Hb Hc Hpc Hg Hw. eapply effect_becomes; [done|done| |lia|].
  - split; [done|by left].
  - by split.
Qed.

(** *** Every step *)

Lemma lookup_bind {X} (f : task -> option X) n t x :
  (k ← tasks t !! n; f k) = Some x -> exists k, tasks t !! n = Some k /\ f k = Some x.
Proof. destruct (tasks t !! n) as [k|]; [|done]. by exists k. Qed.

Lemma effect_send n t t' : tree_ok t -> send_stop n t = Some t' ->
  effect 0 t t' /\ holds asked_task n t'.
Proof.
  intros Ht (k & Hk & Hs)%lookup_bind.
  destruct (ActorRunner.step _ (runner_of k)) as [r|] eqn:Hr; [|done]. injection Hs as <-.
  pose proof (alter_becomes (fun k => mk_task r (waits_for k)) n k (S (oneshot t)) t Hk) as Hb. split.
  - eapply effect_grows; [done|exact Hb|]. refine (branch_grows _ _ _ _ _ _ _ Hr); [|done..].
    apply (ok_calm _ _ _ (Ht n k Hk)).
  - intros k' Hk'. apply becomes_lookup in Hb. unfold set_runner in Hk'. cbn [tasks] in *.
    rewrite Hb in Hk'. injection Hk' as <-. right. cbn [runner_of]. revert Hr. cbn [ActorRunner.step].
    case_decide; [|done]. intros [= <-]. cbn. by destruct (stop_receiver (runner_of k)).
Qed.

Lemma effect_end n k t t' :
  tree_ok t -> tasks t !! n = Some k -> at_pc (runner_of k) = InRun ->
  (forall c, c ∈ kids n -> holds left_run c t) -> end_stop n t = Some t' -> effect 1 t t'.
Proof.
  intros Ht Hk Hpc Hg (k0 & Hk0 & Hs)%lookup_bind. simplify_eq.
  destruct (stop_receiver (runner_of k)) as [|s q] eqn:Hq.
  { revert Hs. cbn [ActorRunner.step]. by rewrite decide_True, Hq by done. }
  destruct (stop_leaves_run (runner_of k) s q) as (r & Hr & Hc & Hpc' & Hlc);
    [apply (ok_calm _ _ _ (Ht n k Hk))|done..|].
  rewrite Hr in Hs. injection Hs as <-.
  eapply (effect_left n k r); [done| |done|congruence|done|].
  - pose proof (alter_becomes (fun k => mk_task r (waits_for k)) n k (oneshot t) t Hk) as H1.
    eapply becomes_trans; [exact H1|].
    exact (alter_becomes (fun k => mk_task (runner_of k) None) n _ _ _ (becomes_lookup _ _ _ _ _ H1)).
  - unfold work1, turns_to_end. cbn [runner_of]. rewrite Hpc, Hpc', Hlc.
    destruct (waits_for k) as [[todo []]|]; lia.
Qed.

Lemma effect_turn n k r t :
  tree_ok t -> tasks t !! n = Some k -> ActorRunner.step Turn (runner_of k) = Some r ->
  effect 1 t (set_runner n r t).
Proof.
  intros Ht Hk Hr. destruct (Ht n k Hk) as [Hc Hl _ Hx].
  assert (at_pc (runner_of k) = AtLoop) as Hpc by (revert Hr; cbn; by case_decide).
  destruct (turn_of_calm (runner_of k) Hc Hpc) as (r' & Hr' & Hc' & Hw).
  assert (r' = r) as -> by congruence.
  assert (waits_for k = None) as Hn.
  { unfold loop_ok in Hl. destruct (waits_for k) as [[]|]; [|done]. destruct Hl. congruence. }
  eapply (effect_left n k r); [done| |done| | |].
  - rewrite <- Hn. by apply alter_becomes.
  - by destruct Hw as [[_ ->]|(_ & -> & _)].
  - apply Hx. unfold left_run. congruence.
  - unfold work1. cbn [runner_of]. rewrite Hpc.
    destruct Hw as [[-> ->]|(-> & -> & ->)]; lia.
Qed.

Lemma effect_own n l t t' :
  tree_ok t -> own n l t = Some t' -> effect (if of_stop (Own n l) then 1 else 0) t t'.
Proof.
  intros Ht Hs. assert (l <> SelStop /\ l <> DropSenders /\
    (k ← tasks t !! n; r ← ActorRunner.step l (runner_of k); Some (set_runner n r t)) = Some t')
    as (Hl1 & Hl2 & Ho).
  { destruct l as [| | | | | | |[]| |]; try done; (split_and!; [done..|]); revert Hs; unfold own;
      (destruct (tasks t !! n) as [k|]; [|done]); cbn [mbind option_bind]; (case_match; [done|]);
      by destruct (ActorRunner.step _ _). }
  clear Hs. apply lookup_bind in Ho as (k & Hk & Ho).
  destruct (ActorRunner.step l (runner_of k)) as [r|] eqn:Hr; [|done]. injection Ho as <-.
  assert (l = Turn \/ l <> Turn /\ of_stop (Own n l) = false) as [->|[Hl ->]]
    by (destruct l; auto).
  - by eapply effect_turn.
  - apply (effect_grows n k r); [done|exact (alter_becomes (fun k => mk_task r (waits_for k)) n k _ t Hk)|].
    refine (branch_grows _ _ _ _ _ _ _ Hr); [|done..].
    apply (ok_calm _ _ _ (Ht n k Hk)).
Qed.

Lemma effect_begin n t t' : tree_ok t -> begin_stop n t = Some t' -> effect 1 t t'.
Proof.
  intros Ht (k & Hk & Hs)%lookup_bind. case_decide as Hd; [|done]. destruct Hd as [Hpc Hw].
  destruct (stop_receiver (runner_of k)) as [|s q] eqn:Hq; [done|].
  destruct (stop_begins_mild s (set_stop_receiver q (runner_of k))) as (r & Hr & [Hf _] & _).
  rewrite Hr in Hs. injection Hs as <-. pose proof Hf as [= Hcs _ _ _ _ _ _ _].
  destruct (Ht n k Hk) as [_ _ Hrun _]. destruct (Hrun Hpc) as [Hkids _].
  apply (effect_waits n k); [done..| |].
  - unfold work1. cbn [runner_of waits_for]. rewrite Hpc, Hw, length_reverse, Hcs. cbn. lia.
  - unfold loop_ok. cbn [waits_for runner_of awaited]. rewrite Hq, app_nil_r, Hcs. cbn.
    setoid_rewrite elem_of_reverse. rewrite Hkids. split_and!; auto. by intros c ?%not_elem_of_nil.
Qed.

Lemma closed_left n t : tree_ok t -> closed n t = true -> holds left_run n t.
Proof.
  unfold closed. intros Ht Hc k Hk. rewrite Hk in Hc. unfold left_run, HandleHelper.is_closed in *.
  by destruct (at_pc (runner_of k)).
Qed.

(** A request to another task, or to itself, leaves its loop alone. *)
Lemma send_stop_waits n c t t1 k k1 :
  send_stop c t = Some t1 -> tasks t !! n = Some k -> tasks t1 !! n = Some k1 ->
  waits_for k1 = waits_for k /\ at_pc (runner_of k1) = at_pc (runner_of k) /\
  (stop_receiver (runner_of k) <> [] -> stop_receiver (runner_of k1) <> []).
Proof.
  intros (kc & Hkc & Hs)%lookup_bind Hk.
  destruct (ActorRunner.step _ (runner_of kc)) as [r|] eqn:Hr; [|done]. injection Hs as <-.
  unfold set_runner. cbn [tasks]. rewrite list_lookup_alter. case_decide as Hc.
  - subst n. assert (k = kc) as -> by congruence. rewrite Hkc. intros [= <-]. cbn [waits_for runner_of]. revert Hr.
    cbn [ActorRunner.step]. case_decide; [|done]. intros [= <-]. cbn. split_and!; [done..|].
    by destruct (stop_receiver (runner_of kc)).
  - rewrite Hk. by intros [= <-].
Qed.

(** A confirmation is a reply. *)
Lemma confirmed_replies i (tr : list (obs Ev Rsp)) :
  ActorRefOps.stop_confirmed i tr = true -> List.filter is_reply tr <> [].
Proof. induction tr as [|o tr IH]; [done|]. destruct o; cbn; auto. Qed.

Lemma effect_pop n t t' : tree_ok t -> pop_child n t = Some t' -> effect 1 t t'.
Proof.
  intros Ht (k & Hk & Hs)%lookup_bind.
  destruct (waits_for k) as [[[|c todo] []]|] eqn:Hw; try done.
  destruct (Ht n k Hk) as [_ Hl _ _]. unfold loop_ok in Hl. rewrite Hw in Hl.
  cbn [awaited] in Hl. rewrite app_nil_r in Hl. destruct Hl as (Hpc & Hq & Hin & Hall & _).
  destruct (closed c t) eqn:Hc.
  - injection Hs as <-. apply (effect_waits n k); [done..| |].
    + unfold work1. cbn [runner_of waits_for]. rewrite Hpc, Hw. cbn. lia.
    + unfold loop_ok. cbn [waits_for runner_of awaited]. rewrite app_nil_r.
      split_and!; [done|done|set_solver| |set_solver]. intros d [Hd|?]%Hall; [|auto].
      apply elem_of_cons in Hd as [->|?]; [|auto]. right. by apply closed_left.
  - destruct (send_stop c t) as [t1|] eqn:Hss; [|done]. injection Hs as <-.
    destruct (effect_send c t t1 Ht Hss) as [H1 Hask]. apply (effect_trans 0 1 _ t1); [done|].
    destruct H1 as (Ht1 & He & _).
    destruct (Forall2_lookup_l _ _ _ _ _ He Hk) as (k1 & Hk1 & _).
    pose proof (send_stop_waits _ _ _ _ _ _ Hss Hk Hk1) as (Hw1 & Hpc1 & Hq1).
    apply (effect_waits n k1); [done|done|congruence| |].
    + unfold work1. cbn [runner_of waits_for]. rewrite Hpc1, Hpc, Hw1, Hw. cbn. lia.
    + unfold loop_ok. cbn [waits_for runner_of awaited]. rewrite Hpc1.
      split_and!; [done|auto| | |].
      * intros d [Hd| ->%list_elem_of_singleton]%elem_of_app; apply Hin, elem_of_cons; auto.
      * intros d Hd. rewrite elem_of_app, list_elem_of_singleton.
        destruct (Hall d Hd) as [[]%elem_of_cons|Hg]; [auto..|right].
        by apply (holds_later left_run _ t); [intros ? ? []; auto|..].
      * intros d ->%list_elem_of_singleton. done.
Qed.

Lemma effect_confirmed n t t' : tree_ok t -> confirmed n t = Some t' -> effect 1 t t'.
Proof.
  intros Ht (k & Hk & Hs)%lookup_bind.
  destruct (waits_for k) as [[todo [|c i]]|] eqn:Hw; try done.
  destruct (Ht n k Hk) as [_ Hl _ _]. unfold loop_ok in Hl. rewrite Hw in Hl.
  cbn [awaited] in Hl. destruct Hl as (Hpc & Hq & Hin & Hall & _). case_match eqn:Hd; [|done].
  injection Hs as <-. apply (effect_waits n k); [done..| |].
  - unfold work1. cbn [runner_of waits_for]. rewrite Hpc, Hw. lia.
  - unfold loop_ok. cbn [waits_for runner_of awaited]. rewrite app_nil_r.
    split_and!; [done|done|set_solver| |set_solver].
    intros d [[?|Hd']%elem_of_app|?]%Hall; [auto| |auto]. apply list_elem_of_singleton in Hd' as ->.
    right. apply orb_true_iff in Hd as [Hc|Hc]; [by apply closed_left|].
    intros kc Hkc. rewrite Hkc in Hc. intros Hpcc.
    destruct (Ht c kc Hkc) as [_ _ Hrun _]. destruct (Hrun Hpcc) as [_ Hr].
    by apply (confirmed_replies _ _ Hc).
Qed.

Lemma effect_finish n t t' : tree_ok t -> finish_stop n t = Some t' -> effect 1 t t'.
Proof.
  intros Ht (k & Hk & Hs)%lookup_bind.
  destruct (waits_for k) as [[[|] []]|] eqn:Hw; try done.
  destruct (Ht n k Hk) as [_ Hl _ _]. unfold loop_ok in Hl. rewrite Hw in Hl.
  cbn [awaited] in Hl. destruct Hl as (Hpc & _ & _ & Hall & _).
  eapply effect_end; [done..| |done]. intros c [Hc|?]%Hall; [|done]. by apply not_elem_of_nil in Hc.
Qed.

Lemma effect_step l t t' :
  tree_ok t -> step l t = Some t' -> effect (if of_stop l then 1 else 0) t t'.
Proof.
  intros Ht. destruct l; cbn [step].
  - by apply effect_own.
  - intros Hs. by apply effect_send in Hs as [? _].
  - by apply effect_begin.
  - by apply effect_pop.
  - by apply effect_confirmed.
  - by apply effect_finish.
Qed.

Lemma effect_steps ls t t' :
  tree_ok t -> steps ls t = Some t' -> effect (length (List.filter of_stop ls)) t t'.
Proof.
  revert t. induction ls as [|l ls IH]; intros t Ht; cbn [steps].
  { intros [= <-]. split; [done|]. split; [unfold evolves; reflexivity|cbn; lia]. }
  destruct (step l t) as [t1|] eqn:Hl; [|done]. intros Hs.
  pose proof (effect_step l t t1 Ht Hl) as H1. pose proof (IH t1 (proj1 H1) Hs) as H2.
  pose proof (effect_trans _ _ _ _ _ H1 H2) as H3. cbn [List.filter]. by destruct (of_stop l).
Qed.

(** *** The stop goes on *)

Definition enabled t : Prop := exists l, of_stop l = true /\ is_Some (step l t).

Definition ended : nat -> tree -> Prop := holds (fun k => at_pc (runner_of k) = Done).

Lemma ended_closed n t : ended n t -> closed n t = true.
Proof.
  unfold ended, closed. intros He. destruct (tasks t !! n) as [k|] eqn:Hk; [|done].
  unfold HandleHelper.is_closed. by rewrite (He k Hk).
Qed.

Lemma begin_enabled n k t :
  tasks t !! n = Some k -> at_pc (runner_of k) = InRun -> waits_for k = None ->
  stop_receiver (runner_of k) <> [] -> enabled t.
Proof.
  intros Hk Hpc Hw Hq. exists (StopBegins n). split; [done|]. cbn [step]. unfold begin_stop. rewrite Hk.
  cbn [mbind option_bind]. rewrite decide_True by done.
  destruct (stop_receiver (runner_of k)) as [|s q]; [done|].
  destruct (stop_begins_mild s (set_stop_receiver q (runner_of k))) as (r & -> & _). by eexists.
Qed.

Lemma finish_enabled n k t :
  tree_ok t -> tasks t !! n = Some k -> at_pc (runner_of k) = InRun -> waits_for k = Some ([], Popping) ->
  stop_receiver (runner_of k) <> [] -> enabled t.
Proof.
  intros Ht Hk Hpc Hw Hq. exists (StopEnds n). split; [done|]. cbn [step].
  unfold finish_stop, end_stop. rewrite Hk. cbn [mbind option_bind]. rewrite Hw.
  destruct (stop_receiver (runner_of k)) as [|s q] eqn:Hs; [done|].
  destruct (stop_leaves_run (runner_of k) s q) as (r & -> & _);
    [apply (ok_calm _ _ _ (Ht n k Hk))|done..|]. by eexists.
Qed.

Lemma turn_enabled n k t :
  tree_ok t -> tasks t !! n = Some k -> at_pc (runner_of k) = AtLoop -> enabled t.
Proof.
  intros Ht Hk Hpc. destruct (Ht n k Hk) as [Hc Hl _ _]. exists (Own n Turn). split; [done|].
  cbn [step]. unfold own. rewrite Hk. cbn [mbind option_bind].
  destruct (turn_of_calm (runner_of k) Hc Hpc) as (r & -> & _). unfold loop_ok in Hl.
  destruct (waits_for k) as [[]|]; [destruct Hl; congruence|]. by eexists.
Qed.

(** A child can be popped unless its channel is full, and then it has a request. *)
Lemma pop_enabled n k c todo t :
  tasks t !! n = Some k -> waits_for k = Some (c :: todo, Popping) ->
  enabled t \/ closed c t = false /\ holds asked_task c t.
Proof.
  intros Hk Hw. destruct (closed c t) eqn:Hc.
  - left. exists (PopChild n). split; [done|]. cbn [step]. unfold pop_child. rewrite Hk.
    cbn [mbind option_bind]. rewrite Hw, Hc. by eexists.
  - destruct (tasks t !! c) as [kc|] eqn:Hkc; [|unfold closed in Hc; by rewrite Hkc in Hc].
    destruct (decide (length (stop_receiver (runner_of kc)) < stop_capacity)) as [Hlt|Hge].
    + left. exists (PopChild n). split; [done|]. cbn [step]. unfold pop_child. rewrite Hk.
      cbn [mbind option_bind]. rewrite Hw, Hc. unfold send_stop. rewrite Hkc.
      cbn [mbind option_bind ActorRunner.step].
      unfold closed, HandleHelper.is_closed in Hc. rewrite Hkc in Hc.
      rewrite decide_True by (split_and!; [done|by intros Hp; rewrite Hp in Hc..]). by eexists.
    + right. split; [done|]. intros kc' Hkc'. simplify_eq. right. intros Hn.
      rewrite Hn in Hge. unfold stop_capacity in Hge. cbn in Hge. lia.
Qed.

(** An actor with a request ends, unless a step of a stop can be made. *)
Lemma asked_ends t :
  well_founded (fun c p => c ∈ kids p) -> tree_ok t ->
  forall n, holds asked_task n t -> ended n t \/ enabled t.
Proof.
  intros Hwf Ht. apply (well_founded_induction Hwf (fun n => holds asked_task n t -> ended n t \/ enabled t)).
  intros n IH Ha. destruct (tasks t !! n) as [k|] eqn:Hk; [|left; intros k' Hk'; congruence].
  destruct (Ht n k Hk) as [Hc Hl _ _]. pose proof Hc as (_ & _ & _ & _ & Hpc).
  destruct (at_pc (runner_of k)) eqn:Hp; try done.
  - right. by eapply turn_enabled.
  - destruct (Ha k Hk) as [Hleft|Hq]; [done|].
    destruct (waits_for k) as [[todo s]|] eqn:Hw; [|right; by eapply begin_enabled].
    unfold loop_ok in Hl. rewrite Hw in Hl. destruct Hl as (_ & _ & Hin & _ & Hask).
    destruct s as [|c i]; [destruct todo as [|c todo]|].
    + right. by eapply finish_enabled.
    + destruct (pop_enabled n k c todo t Hk Hw) as [?|[Hcl Hac]]; [by right|].
      destruct (IH c) as [Hd|?]; [apply Hin; left|done| |by right].
      apply ended_closed in Hd. congruence.
    + destruct (IH c) as [Hd|?]; [apply Hin, elem_of_app; right; left|apply Hask; left| |by right].
      right. exists (Confirmed n). split; [done|]. cbn [step]. unfold confirmed. rewrite Hk.
      cbn [mbind option_bind]. rewrite Hw, ended_closed by done. by eexists.
  - left. intros k' Hk'. congruence.
Qed.

Lemma below_left t n c :
  tree_ok t -> (forall p, tasks t !! p = None -> kids p = []) ->
  rtc (fun p c => c ∈ kids p) n c -> holds left_run n t -> holds left_run c t.
Proof.
  intros Ht Hk Hb. induction Hb as [|n c d Hc _ IH]; [done|]. intros Hn. apply IH.
  destruct (tasks t !! n) as [k|] eqn:Hn'; [apply (ok_left _ _ _ (Ht n k Hn')); auto|].
  rewrite Hk in Hc by done. by apply not_elem_of_nil in Hc.
Qed.

End Stop.

(** ** The theorems *)

Section Theorems.
Context {A Msg Ev Rsp : Type} `{PA : Actor A Msg Ev Rsp} `{!Mild A Msg Ev Rsp}.

Local Abbreviation tree := (Tree (A:=A) (Msg:=Msg) (Ev:=Ev) (Rsp:=Rsp)).
Implicit Types (t : tree) (n c : nat).

(** The children of an actor. *)
Definition kids_of t n : list nat :=
  match tasks t !! n with Some k => child_senders (runner_of k) | None => [] end.

(** The actor itself and its descendants. *)
Definition below t : nat -> nat -> Prop := rtc (fun p c => c ∈ kids_of t p).

(** Every actor is in [run], without failures, and none has confirmed a stop. *)
Definition standing t : Prop :=
  Forall (fun k => waits_for k = None /\ at_pc (runner_of k) = InRun /\ calm (runner_of k) /\
                   replies (runner_of k) = []) (tasks t).

Lemma standing_ok t : standing t -> tree_ok (kids_of t) t.
Proof.
  intros Hs n k Hk. destruct (Forall_lookup_1 _ _ _ _ Hs Hk) as (Hw & Hpc & Hc & Hr).
  split; [done|unfold loop_ok; by rewrite Hw| |done].
  intros _. split; [|done]. unfold kids_of. by rewrite Hk.
Qed.

Lemma steps_ok t0 ls t :
  standing t0 -> steps ls t0 = Some t ->
  tree_ok (kids_of t0) t /\ (forall p, tasks t !! p = None -> kids_of t0 p = []) /\
  work t + length (List.filter of_stop ls) <= work t0.
Proof.
  intros Hs%standing_ok Hl. destruct (effect_steps _ ls t0 t Hs Hl) as (Ht & He & Hw).
  split_and!; [done| |done]. intros p Hp. unfold kids_of.
  destruct (tasks t0 !! p) as [k|] eqn:Hk; [|done].
  destruct (Forall2_lookup_l _ _ _ _ _ He Hk) as (k' & Hk' & _). congruence.
Qed.

Lemma asked_in_the_run kids ls t t' n :
  tree_ok kids t -> steps ls t = Some t' -> Ask n ∈ ls -> holds asked_task n t'.
Proof.
  revert t. induction ls as [|l ls IH]; intros t Ht; cbn [steps]; [by intros _ ?%not_elem_of_nil|].
  destruct (step l t) as [t1|] eqn:Hl; [|done]. intros Hs [<-|Hin]%elem_of_cons.
  - cbn [step] in Hl. destruct (effect_send _ _ _ _ Ht Hl) as [(Ht1 & _) Ha].
    destruct (effect_steps _ _ _ _ Ht1 Hs) as (_ & He & _).
    eapply holds_later; [|done..]. intros ? ? []. auto.
  - eapply IH; [|done..]. by apply (effect_step _ _ _ _ Ht Hl).
Qed.

(** C12: In a tree of started actors of which none is stopping or failing yet and all are mild
    (their handlers and stop hooks only publish events, do not panic, fail or stop the actor,
    and create no child, and pre_stop succeeds), however their steps interleave, an actor that
    left run, or that confirmed a stop, has no descendant that is still in run. *)
Theorem stopped_actor_has_no_running_descendant t0 ls t n k c :
  standing t0 -> steps ls t0 = Some t -> tasks t !! n = Some k ->
  at_pc (runner_of k) <> InRun \/
    (exists i, ActorRefOps.stop_confirmed i (trace (runner_of k)) = true) ->
  below t0 n c -> holds (fun k => at_pc (runner_of k) <> InRun) c t.
Proof.
  intros Hs Hl Hk Hn Hb. destruct (steps_ok _ _ _ Hs Hl) as (Ht & Hkids & _).
  apply (below_left (kids_of t0) t n c Ht Hkids Hb). intros k' Hk'.
  assert (k' = k) as -> by congruence. destruct Hn as [Hn|[i Hi]]; [done|]. intros Hpc.
  destruct (ok_running _ _ _ _ (Ht n k Hk) Hpc) as [_ Hr]. by apply (confirmed_replies i _ Hi).
Qed.

(** C11: The stop of a tree of started actors ends, when the tree is well founded, nobody in it
    is stopping or failing yet, and its actors are mild: their handlers and stop hooks only
    publish events, do not panic, fail or stop the actor, and create no child, and pre_stop
    succeeds. However the actors interleave, at most four steps for an actor and two for a child
    are made by stops, and once an actor was asked to stop, as long as it or one below it has
    not ended, one more such step can be made. *)
Theorem stop_of_a_tree_ends t0 ls t n :
  standing t0 -> well_founded (fun c p => c ∈ kids_of t0 p) -> steps ls t0 = Some t ->
  length (List.filter of_stop ls)
    <= sum_list_with (fun k => 4 + 2 * length (child_senders (runner_of k))) (tasks t0) /\
  (Ask n ∈ ls -> forall c k, below t0 n c -> tasks t !! c = Some k ->
     at_pc (runner_of k) = Done \/ exists l, of_stop l = true /\ is_Some (step l t)).
Proof.
  intros Hs Hwf Hl. destruct (steps_ok _ _ _ Hs Hl) as (Ht & Hkids & Hw). split.
  - replace (sum_list_with _ (tasks t0)) with (work t0); [lia|]. unfold work. clear -Hs.
    induction Hs as [|k ks (Hw & Hpc & _) _ IH]; [done|]. cbn [sum_list_with]. rewrite IH. f_equal.
    unfold work1. by rewrite Hpc, Hw.
  - intros Hask c k Hb Hk. pose proof (asked_in_the_run _ _ _ _ _ (standing_ok _ Hs) Hl Hask) as Ha.
    destruct (asked_ends _ t Hwf Ht n Ha) as [He|?]; [|by right].
    assert (holds left_run c t) as Hc.
    { apply (below_left _ t n c Ht Hkids Hb). intros kn Hkn. unfold left_run. by rewrite (He kn Hkn). }
    destruct (asked_ends _ t Hwf Ht c) as [Hd|?]; [|left; by apply Hd|by right].
    intros k' Hk'. left. by apply Hc.
Qed.

End Theorems.

(** ** A tree of four actors *)

(** An actor that creates its children when it starts and publishes what it is told. *)
#[export] Instance branching : Actor (list nat) nat nat nat := {
  supervision_strategy := StopStrategy;
  pre_start a := (a, ChildCreated <$> a, Ok tt);
  pre_restart a _ := (a, [], Ok tt);
  pre_stop a := (a, [PublishEvent 0], Ok tt);
  post_stop a := (a, [], Ok tt);
  handle_message a _ msg := (a, [PublishEvent msg], Ok msg);
  on_child_error a _ := (a, [], Ok tt);
  on_child_fault a _ := (a, [], Ok ActStop);
}.

#[export] Instance branching_mild : Mild (list nat) nat nat nat (H:=branching).
Proof. split; intros; repeat split; try done; cbn; repeat constructor; by eexists. Qed.

(** A task that was started. *)
Definition grown (name : string) (kids : list nat) : Task (A:=list nat) (Msg:=nat) (Ev:=nat) (Rsp:=nat) :=
  mk_task (turns (H:=branching) 2 (create (ActorPath.from name) kids true)) None.

Definition small_tree : Tree :=
  mk_tree [grown "/user/a" [1; 2]; grown "/user/a/b" [3]; grown "/user/a/c" []; grown "/user/a/b/d" []] 0.

Lemma small_tree_standing : standing small_tree.
Proof. repeat constructor. Qed.

Lemma small_tree_kids n :
  kids_of small_tree n = match n with 0 => [1; 2] | 1 => [3] | _ => [] end.
Proof. by destruct n as [|[|[|[|n]]]]. Qed.

Lemma small_tree_founded : well_founded (fun c p => c ∈ kids_of small_tree p).
Proof.
  apply (wf_projected lt (fun n => 4 - n)); [|apply lt_wf].
  intros c p. rewrite small_tree_kids. destruct p as [|[|p]]; rewrite ?elem_of_cons, elem_of_nil; lia.
Qed.

(** A stop of the root in which the leaf [3] handles a message while its parent
    waits for it. *)
Definition small_stop : list tlabel :=
  [Own 3 (Deliver (7, ActorPath.from "/user/x", None)); Ask 0; StopBegins 0; PopChild 0; StopBegins 2;
   StopEnds 2; Confirmed 0; PopChild 0; StopBegins 1; PopChild 1; Own 3 SelMsg; StopBegins 3;
   StopEnds 3; Confirmed 1; StopEnds 1; Confirmed 0; StopEnds 0; Own 3 Turn; Own 3 Turn].

Definition small_stopped : Tree := default small_tree (steps small_stop small_tree).

Lemma small_stop_runs : steps small_stop small_tree = Some small_stopped.
Proof. vm_compute. reflexivity. Qed.

Definition root_stopped : Task := default (grown "" []) (tasks small_stopped !! 0).

Lemma root_stopped_at : tasks small_stopped !! 0 = Some root_stopped.
Proof. vm_compute. reflexivity. Qed.

Lemma leaf_below_root : below small_tree 0 3.
Proof. apply (rtc_l _ _ 1), (rtc_l _ _ 3), rtc_refl; rewrite small_tree_kids; repeat constructor. Qed.

Lemma tree_runs_are_runner_runs_witness :
  exists k own_ls, tasks small_stopped !! 3 = Some k /\
    ActorRunner.steps own_ls (runner_of (grown "/user/a/b/d" [])) = Some (runner_of k).
Proof. exact (tree_runs_are_runner_runs small_stop small_tree small_stopped 3 _ small_stop_runs eq_refl). Defined.

Lemma stopped_actor_has_no_running_descendant_witness :
  holds (fun k => at_pc (runner_of k) <> InRun) 3 small_stopped.
Proof.
  apply (stopped_actor_has_no_running_descendant small_tree small_stop small_stopped 0 root_stopped 3
    small_tree_standing small_stop_runs root_stopped_at); [|apply leaf_below_root].
  right. exists 0. vm_compute. reflexivity.
Defined.

(** The leaf has ended here, and the others have turns left. *)
Lemma stop_of_a_tree_ends_witness :
  length (List.filter of_stop small_stop) = 16 /\
  exists l, of_stop l = true /\ is_Some (step l small_stopped).
Proof.
  destruct (stop_of_a_tree_ends small_tree small_stop small_stopped 0 small_tree_standing
    small_tree_founded small_stop_runs) as [_ Hgo].
  split; [reflexivity|].
  destruct (Hgo ltac:(right; left) 0 root_stopped (rtc_refl _ _) root_stopped_at) as [Hd|Hl]; [|exact Hl].
  vm_compute in Hd. discriminate.
Defined.
