(* ===== verification/Retries.v ===== *)
(** * The retry actor (actor/src/retries.rs)

    A [RetryActor] tells its message to a child again and again; each attempt
    schedules the next one after the backoff of its strategy, which it keeps
    between the attempts. *)

From S2P Require Import Prelude Path Errors Supervision.

(** ** The retry actor *)

Inductive RetryMessage : Type := Retry | End_.

(** What handling a message does outside the actor, in order. *)
Inductive effect (Msg : Type) : Type :=
| TellTarget (m : Msg)
| Schedule (d : Duration)
| EmitError (e : ActorError.Error)
| StopSelf.
Arguments TellTarget {Msg} _.
Arguments Schedule {Msg} _.
Arguments EmitError {Msg} _.
Arguments StopSelf {Msg}.

Record RetryActor (Msg : Type) : Type := mk_retry {
  message : Msg;
  retry_strategy : Strategy.Strategy;
  retries : N;
  is_end : bool;
}.
Arguments mk_retry {Msg} _ _ _ _.
Arguments message {Msg} _.
Arguments retry_strategy {Msg} _.
Arguments retries {Msg} _.
Arguments is_end {Msg} _.

Module RetryOps.

Section Operations.
Context {Msg : Type} `{BuildMode}.

Local Abbreviation retryM := (stM (RetryActor Msg * list (effect Msg)) ActorError.Error).

Definition new (m : Msg) (s : Strategy.Strategy) : RetryActor Msg := mk_retry m s 0 false.

Definition emit (e : effect Msg) : retryM unit := modifyM (fun s => (s.1, s.2 ++ [e])).

Definition self : retryM (RetryActor Msg) := fun s => (s, Ok s.1).

Definition set_retries (n : N) : retryM unit :=
  modifyM (fun s => (mk_retry (message s.1) (retry_strategy s.1) n (is_end s.1), s.2)).

(** [self.retry_strategy.next_backoff()] *)
Definition take_backoff : retryM (option Duration) := fun s =>
  let '(d, st) := next_backoff (retry_strategy s.1) in
  ((mk_retry (message s.1) st (retries s.1) (is_end s.1), s.2), Ok d).

(** [pre_start]: [created] is what [ctx.create_child("target", ..)] returns. *)
Definition pre_start (created : outcome ActorError.Error nat) : retryM unit :=
  _ ← liftM created; mret tt.

(** [child] and [reference] tell whether [ctx.get_child("target")] and
    [ctx.reference()] find the actors. *)
Definition handle_message (child reference : bool) (msg : RetryMessage) : retryM unit :=
  r ← self;
  match msg with
  | Retry =>
      if is_end r then mret tt
      else
        n ← liftM (u64_succ (retries r));
        _ ← set_retries n;
        if decide (n <= max_retries (retry_strategy r))%N then
          _ ← (if child then emit (TellTarget (message r)) else mret tt);
          if reference then
            d ← take_backoff;
            match d with Some d => emit (Schedule d) | None => mret tt end
          else emit (EmitError (ActorError.Send "Cannot get retry actor in"))
        else emit (EmitError ActorError.ReTry)
  | End_ =>
      _ ← modifyM (fun s => (mk_retry (message s.1) (retry_strategy s.1) (retries s.1) true, s.2));
      emit StopSelf
  end.

(** The spawned task sleeps and tells [Retry]: a scheduled attempt is the next
    message. [fuel] bounds the attempts. *)
Fixpoint drive (fuel : nat) (r : RetryActor Msg) : RetryActor Msg * list (effect Msg) :=
  match fuel with
  | O => (r, [])
  | S fuel =>
      let '((r, es), _) := handle_message true true Retry (r, []) in
      match last es with
      | Some (Schedule _) => let '(r, es') := drive fuel r in (r, es ++ es')
      | _ => (r, es)
      end
  end.

(** ** What it delivers *)

(** An attempt: the message, and the wait. *)
Definition attempt (m : Msg) (d : Duration) : list (effect Msg) := [TellTarget m; Schedule d].

Lemma drive_attempt fuel m s n d s' :
  (n + 1 < u64_size)%N -> (n < max_retries s)%N -> next_backoff s = (Some d, s') ->
  drive (S fuel) (mk_retry m s n false)
  = let '(r, es) := drive fuel (mk_retry m s' (n + 1) false) in (r, attempt m d ++ es).
Proof.
  intros Hb Hlt Hn. cbn [drive]. unfold handle_message, mbind, stM_bind, self, liftM. cbn [is_end fst].
  rewrite u64_succ_Ok by done. unfold set_retries, modifyM. cbn [retries fst retry_strategy].
  rewrite decide_True by lia. unfold emit, take_backoff, modifyM. cbn [fst snd retry_strategy].
  rewrite Hn. cbn. by destruct (drive fuel _).
Qed.

Lemma drive_exhausted fuel m s n :
  (n + 1 < u64_size)%N -> (max_retries s <= n)%N ->
  drive (S fuel) (mk_retry m s n false) = (mk_retry m s (n + 1) false, [EmitError ActorError.ReTry]).
Proof.
  intros Hb Hge. cbn [drive]. unfold handle_message, mbind, stM_bind, self, liftM. cbn [is_end fst].
  rewrite u64_succ_Ok by done. unfold set_retries, modifyM. cbn [retries fst retry_strategy].
  rewrite decide_False by lia. done.
Qed.

Lemma drive_custom m ds k n fuel :
  (k = n + N.of_nat (length ds))%N -> (k + 1 < u64_size)%N -> length ds < fuel ->
  (drive fuel (mk_retry m (Strategy.CustomInterval (CustomIntervalStrategy.mk ds k)) n false)).2
  = concat (attempt m <$> ds) ++ [EmitError ActorError.ReTry].
Proof.
  revert n fuel. induction ds as [|d ds IH]; intros n fuel Hk Hb Hf; (destruct fuel as [|fuel]; [lia|]).
  - rewrite drive_exhausted; [done|cbn in Hk; lia|cbn in *; lia].
  - cbn [length] in *.
    rewrite (drive_attempt fuel m _ n d (Strategy.CustomInterval (CustomIntervalStrategy.mk ds k)));
      [|lia|cbn; lia|reflexivity].
    specialize (IH (n + 1)%N fuel). destruct (drive fuel _) as [r es] eqn:Hd.
    cbn [snd] in *. rewrite IH by lia. done.
Qed.

Lemma drive_fixed m d k i fuel :
  (k + 1 < u64_size)%N -> (N.of_nat i <= k)%N -> i < fuel ->
  (drive fuel (mk_retry m (Strategy.FixedInterval (FixedIntervalStrategy.mk k d))
                 (k - N.of_nat i) false)).2
  = concat (replicate i (attempt m d)) ++ [EmitError ActorError.ReTry].
Proof.
  revert fuel. induction i as [|i IH]; intros fuel Hb Hi Hf; (destruct fuel as [|fuel]; [lia|]).
  - rewrite drive_exhausted; [done|lia|cbn; lia].
  - rewrite (drive_attempt fuel m _ _ d (Strategy.FixedInterval (FixedIntervalStrategy.mk k d)));
      [|lia|cbn; lia|reflexivity].
    replace (k - N.of_nat (S i) + 1)%N with (k - N.of_nat i)%N by lia.
    specialize (IH fuel). destruct (drive fuel _) as [r es] eqn:Hd.
    cbn [snd] in *. rewrite IH by lia. done.
Qed.

(** A strategy as its constructors build it: the fields are private. *)
Definition fresh (s : Strategy.Strategy) : Prop :=
  match s with
  | Strategy.CustomInterval s =>
      CustomIntervalStrategy.max_retries s = N.of_nat (length (CustomIntervalStrategy.durations s))
  | _ => True
  end.

(** What the target and the parent of a retry actor see after the first
    [Retry]. *)
Definition course (m : Msg) (s : Strategy.Strategy) : list (effect Msg) :=
  match s with
  | Strategy.NoInterval s =>
      if decide (0 < NoIntervalStrategy.max_retries s)%N then [TellTarget m]
      else [EmitError ActorError.ReTry]
  | Strategy.FixedInterval s =>
      concat (replicate (N.to_nat (FixedIntervalStrategy.max_retries s))
                (attempt m (FixedIntervalStrategy.duration s)))
      ++ [EmitError ActorError.ReTry]
  | Strategy.CustomInterval s =>
      concat (attempt m <$> CustomIntervalStrategy.durations s) ++ [EmitError ActorError.ReTry]
  end.

(** C30: A retry actor with a fixed or custom strategy tells its message exactly as many times
    as the strategy allows, with the waits of the strategy in order, and then emits ReTry;
    without interval it tells the message once, schedules nothing and never reports when at
    least one attempt is allowed, and emits ReTry at once without telling anything when none is,
    as in the default strategy. *)
Theorem retries_are_bounded m s fuel :
  fresh s -> (max_retries s + 1 < u64_size)%N -> (max_retries s < N.of_nat fuel)%N ->
  (drive fuel (new m s)).2 = course m s.
Proof.
  intros Hs Hb Hf. destruct s as [s|[k d]|[ds k]]; cbn in Hs, Hb, Hf |- *.
  - destruct fuel as [|fuel]; [lia|]. unfold new. cbn [drive].
    unfold handle_message, mbind, stM_bind, self, liftM. cbn [is_end fst].
    rewrite u64_succ_Ok by (cbn; u64_lia). unfold set_retries, modifyM. cbn.
    destruct s as [k]. cbn. do 2 case_decide; done || lia.
  - pose proof (drive_fixed m d k (N.to_nat k) fuel Hb) as Hd.
    rewrite N2Nat.id, N.sub_diag in Hd. apply Hd; lia.
  - apply drive_custom; lia.
Qed.

(** After [End], an attempt that was already scheduled does nothing. *)
Lemma ended_retry_actor_is_silent child reference r es msgs :
  is_end r = true -> Forall (fun m => m = Retry) msgs ->
  foldl (fun s m => (handle_message child reference m s).1) (r, es) msgs = (r, es).
Proof.
  intros He Hm. induction Hm as [|m msgs -> _ IH]; [done|]. cbn [foldl].
  unfold handle_message at 2, mbind, stM_bind, self. cbn. by rewrite He.
Qed.

End Operations.

End RetryOps.

(** ** Witnesses *)

#[local] Instance checked : BuildMode := { overflow_checks := true }.

Lemma retries_are_bounded_witness :
  (RetryOps.drive 5 (RetryOps.new 7 (Strategy.FixedInterval (FixedIntervalStrategy.new 2%N 9%N)))).2
  = [TellTarget 7; Schedule 9%N; TellTarget 7; Schedule 9%N; EmitError ActorError.ReTry].
Proof.
  exact (RetryOps.retries_are_bounded 7 (Strategy.FixedInterval (FixedIntervalStrategy.new 2%N 9%N)) 5
           I eq_refl eq_refl).
Defined.
