(* ===== verification/Sinks.v ===== *)
(** * Events and sinks (actor/src/sink.rs, the event channel of actor/src/runner.rs)

    An actor broadcasts its events on a channel of bounded capacity; a [Sink]
    receives them in a task of its own and notifies its subscriber. The channel
    of tokio is a parameter: the class [Broadcast] with the documented laws. *)

From S2P Require Import Prelude Errors.

(** ** The channel *)

(** What [event_receiver.recv()] gives. *)
Inductive received (Ev : Type) : Type :=
| Received (ev : Ev)
| Lagged (missed : nat)
| Closed.
Arguments Received {Ev} _.
Arguments Lagged {Ev} _.
Arguments Closed {Ev}.

(** [tokio::sync::broadcast]: sending, dropping the sender, subscribing again
    from a receiver, and receiving, which waits when it gives nothing. *)
Class Broadcast (B R Ev : Type) := {
  channel : nat -> B * R;
  bsend : B -> Ev -> B * outcome string nat;
  bclose : B -> B;
  resubscribe : B -> R -> R;
  recv : B -> R -> R * option (received Ev);
}.

(** The channel keeps the last [capacity] of the events [history] it accepted;
    a receiver stands before the event of number [cursor]. *)
Class BroadcastLaws (B R Ev : Type) `{Broadcast B R Ev} := {
  history : B -> list Ev;
  capacity : B -> nat;
  closed : B -> bool;
  cursor : R -> nat;
  channel_law : forall n b r, channel n = (b, r) ->
    history b = [] /\ n <= capacity b /\ closed b = false /\ cursor r = 0;
  bsend_law : forall b ev b' res, bsend b ev = (b', res) ->
    capacity b' = capacity b /\ closed b' = closed b /\
    match res with Ok _ => history b' = history b ++ [ev] | _ => history b' = history b end;
  bclose_law : forall b,
    history (bclose b) = history b /\ capacity (bclose b) = capacity b /\ closed (bclose b) = true;
  resubscribe_law : forall b r, cursor (resubscribe b r) = length (history b);
  recv_law : forall b r,
    let oldest := length (history b) - capacity b in
    if decide (cursor r < oldest)
    then exists r', recv b r = (r', Some (Lagged (oldest - cursor r))) /\ cursor r' = oldest
    else match history b !! cursor r with
         | Some ev => exists r', recv b r = (r', Some (Received ev)) /\ cursor r' = S (cursor r)
         | None => recv b r = (r, if closed b then Some Closed else None)
         end;
}.

(** The capacity that [ActorRunner::create] asks for. *)
Definition event_capacity : nat := 10 * 1000.

(** The channel of a new actor, with the receiver that its reference holds. *)
Definition event_channel {B R Ev : Type} `{Broadcast B R Ev} : B * R := channel event_capacity.

(** [ActorRef::subscribe]: a receiver of its own, that starts at the end. *)
Definition subscribe {B R Ev : Type} `{Broadcast B R Ev} (b : B) (event_receiver : R) : R :=
  resubscribe b event_receiver.

(** ** The sink *)

Module Sink.

(** [Sink::run] on what its receiver gives: the events notified to the
    subscriber, and whether the loop has ended; it waits when nothing more is
    received. *)
Fixpoint run {Ev : Type} (rs : list (received Ev)) : list Ev * bool :=
  match rs with
  | [] => ([], false)
  | Received ev :: rs => let '(evs, fin) := run rs in (ev :: evs, fin)
  | Closed :: _ => ([], true)
  | Lagged _ :: rs => run rs
  end.

Section Feed.
Context {B R Ev : Type} `{Broadcast B R Ev}.

(** A channel and whether its sender is alive, the receiver of a sink and what
    it was given so far. *)
Record Feed : Type := mk_feed {
  chan : B;
  sender_alive : bool;
  event_receiver : R;
  given : list (received Ev);
}.

(** [Sink::new], on a receiver of the channel [b] of an actor that runs. *)
Definition new (b : B) (event_receiver : R) : Feed := mk_feed b true event_receiver [].

(** The actor and the sink take turns in any order. *)
Inductive label : Type :=
| Publish (ev : Ev)
| ActorEnds
| Receive.

Definition step (f : Feed) (l : label) : Feed :=
  match l with
  | Publish ev =>
      if sender_alive f then mk_feed (bsend (chan f) ev).1 true (event_receiver f) (given f) else f
  | ActorEnds => mk_feed (bclose (chan f)) false (event_receiver f) (given f)
  | Receive =>
      if (run (given f)).2 then f
      else
        match recv (chan f) (event_receiver f) with
        | (r, Some x) => mk_feed (chan f) (sender_alive f) r (given f ++ [x])
        | (r, None) => mk_feed (chan f) (sender_alive f) r (given f)
        end
  end.

(** What the subscriber was notified of. *)
Definition notified (f : Feed) : list Ev := (run (given f)).1.

Definition ended (f : Feed) : bool := (run (given f)).2.

(** The events that were skipped. *)
Definition missed (f : Feed) : nat :=
  sum_list_with (fun x => match x with Lagged n => n | _ => 0 end) (given f).

End Feed.

End Sink.

(** ** What a subscriber is told *)

#[local] Arguments Sink.missed : simpl never.

Section Correct.
Context {B R Ev : Type} `{BroadcastLaws B R Ev}.

Lemma run_app (rs : list (received Ev)) x :
  (Sink.run rs).2 = false ->
  Sink.run (rs ++ [x]) =
    match x with
    | Received ev => ((Sink.run rs).1 ++ [ev], false)
    | Lagged _ => ((Sink.run rs).1, false)
    | Closed => ((Sink.run rs).1, true)
    end.
Proof.
  induction rs as [|[ev|n|] rs IH]; cbn; intros He; [by destruct x| | |done].
  - destruct (Sink.run rs) as [evs fin]. cbn in *. rewrite IH by done. by destruct x.
  - by apply IH.
Qed.

(** The subscriber has seen a part of the events from number [n0] to the cursor,
    in order; the others are the missed ones; a sink that ended had reached the
    end of a closed channel. *)
Record feed_ok (n0 : nat) (f : Sink.Feed (B:=B) (R:=R) (Ev:=Ev)) : Prop := {
  fo_alive : closed (Sink.chan f) = negb (Sink.sender_alive f);
  fo_cursor : n0 <= cursor (Sink.event_receiver f) <= length (history (Sink.chan f));
  fo_sublist : sublist (Sink.notified f)
    (take (cursor (Sink.event_receiver f) - n0) (drop n0 (history (Sink.chan f))));
  fo_missed : length (Sink.notified f) + Sink.missed f = cursor (Sink.event_receiver f) - n0;
  fo_ended : Sink.ended f = true ->
    Sink.sender_alive f = false /\
    cursor (Sink.event_receiver f) = length (history (Sink.chan f));
}.

Lemma take_drop_snoc (l : list Ev) n0 c ev :
  n0 <= c -> l !! c = Some ev ->
  take (S c - n0) (drop n0 l) = take (c - n0) (drop n0 l) ++ [ev].
Proof.
  intros Hc Hl. replace (S c - n0) with (S (c - n0)) by lia.
  apply take_S_r. rewrite lookup_drop. by replace (n0 + (c - n0)) with c by lia.
Qed.

Lemma sublist_same_length (l1 l2 : list Ev) : sublist l1 l2 -> length l1 = length l2 -> l1 = l2.
Proof.
  induction 1 as [|x l1 l2 Hs IH|x l1 l2 Hs IH]; cbn; intros Hl; [done|f_equal; auto|].
  apply sublist_length in Hs. lia.
Qed.

Lemma take_drop_prefix (l l' : list Ev) n0 c :
  c <= length l -> take (c - n0) (drop n0 (l ++ l')) = take (c - n0) (drop n0 l).
Proof.
  intros Hc. destruct (decide (n0 <= length l)) as [Hn|Hn].
  - rewrite drop_app_le, take_app_le by (rewrite ?length_drop; lia). done.
  - by replace (c - n0) with 0 by lia.
Qed.

Lemma feed_publish n0 f ev : feed_ok n0 f -> feed_ok n0 (Sink.step f (Sink.Publish ev)).
Proof.
  intros [Ha Hc Hs Hm He]. cbn. destruct (Sink.sender_alive f) eqn:Hal; [|by split; rewrite ?Hal].
  destruct (bsend (Sink.chan f) ev) as [b' res] eqn:Hb.
  destruct (bsend_law _ _ _ _ Hb) as (Hcap & Hcl & Hh).
  assert (exists l, history b' = history (Sink.chan f) ++ l) as [l Hl].
  { destruct res; [by exists [ev]|exists []..]; by rewrite app_nil_r. }
  split; cbn [Sink.chan Sink.sender_alive Sink.event_receiver fst].
  - by rewrite Hcl, Ha.
  - rewrite Hl, length_app. lia.
  - rewrite Hl, take_drop_prefix by lia. exact Hs.
  - exact Hm.
  - intros [Hx _]%He. done.
Qed.

Lemma feed_ends n0 f : feed_ok n0 f -> feed_ok n0 (Sink.step f Sink.ActorEnds).
Proof.
  intros [Ha Hc Hs Hm He]. cbn. destruct (bclose_law (Sink.chan f)) as (Hh & Hcap & Hcl).
  split; cbn [Sink.chan Sink.sender_alive Sink.event_receiver]; rewrite ?Hh; [done..|].
  by intros [_ Hx]%He.
Qed.

Lemma feed_receive n0 f : feed_ok n0 f -> feed_ok n0 (Sink.step f Sink.Receive).
Proof.
  intros [Ha Hc Hs Hm He]. cbn.
  destruct (Sink.run (Sink.given f)).2 eqn:Hend; [by split|].
  pose proof (recv_law (Sink.chan f) (Sink.event_receiver f)) as Hr. cbn zeta in Hr.
  assert (forall (b : B) s (r : R) x, Sink.missed (Sink.mk_feed b s r (Sink.given f ++ [x]))
          = Sink.missed f + match x with Lagged n => n | _ => 0 end) as Hmiss.
  { intros b s r x. unfold Sink.missed. cbn. rewrite sum_list_with_app. cbn. lia. }
  unfold Sink.notified, Sink.ended in Hs, Hm, He.
  case_decide as Hlag; [destruct Hr as (r' & -> & Hcur)|
    destruct (history (Sink.chan f) !! cursor (Sink.event_receiver f)) as [ev|] eqn:Hev;
      [destruct Hr as (r' & -> & Hcur)|rewrite Hr]].
  - split; unfold Sink.notified, Sink.ended; cbn; rewrite ?Hmiss, ?run_app, ?Hcur by done; cbn;
      [done|lia| |lia|done].
    etrans; [exact Hs|].
    replace (cursor (Sink.event_receiver f) - n0)
      with (min (cursor (Sink.event_receiver f) - n0)
              (length (history (Sink.chan f)) - capacity (Sink.chan f) - n0)) by lia.
    rewrite <- take_take. apply sublist_take.
  - split; unfold Sink.notified, Sink.ended; cbn; rewrite ?Hmiss, ?run_app, ?Hcur by done; cbn;
      [done| | | |done].
    + apply lookup_lt_Some in Hev. lia.
    + rewrite (take_drop_snoc _ _ _ ev) by (done || lia). by apply sublist_app.
    + rewrite length_app. cbn. lia.
  - destruct (closed (Sink.chan f)) eqn:Hcl.
    + apply lookup_ge_None in Hev.
      split; unfold Sink.notified, Sink.ended; cbn; rewrite ?Hmiss, ?run_app by done; cbn;
        [by rewrite Hcl|exact Hc|exact Hs|lia|].
      intros _. split; [by destruct (Sink.sender_alive f)|lia].
    + split; cbn; [by rewrite Hcl|done|done|done|]. unfold Sink.ended. cbn. by rewrite Hend.
Qed.

Lemma feed_new b of_ref :
  closed b = false ->
  feed_ok (length (history b)) (Sink.new (Ev:=Ev) b (subscribe (Ev:=Ev) b of_ref)).
Proof.
  intros Hcl. pose proof (resubscribe_law b of_ref) as Hr.
  unfold subscribe. split; cbn; rewrite ?Hr; try done.
  - apply sublist_nil_l.
  - unfold Sink.notified, Sink.missed. cbn. lia.
Qed.

Lemma feed_steps n0 f ls : feed_ok n0 f -> feed_ok n0 (foldl Sink.step f ls).
Proof.
  revert f. induction ls as [|l ls IH]; intros f Hf; [done|]. cbn. apply IH.
  destruct l; [by apply feed_publish|by apply feed_ends|by apply feed_receive].
Qed.

(** A sink that waits is at the end of the channel; otherwise a reception takes
    it further or ends it. *)
Lemma receive_advances n0 f :
  feed_ok n0 f -> Sink.sender_alive f = false ->
  let f' := Sink.step f Sink.Receive in
  Sink.ended f' = true \/
  cursor (Sink.event_receiver f) < cursor (Sink.event_receiver f') /\
  Sink.chan f' = Sink.chan f /\ Sink.sender_alive f' = false.
Proof.
  intros [Ha Hc _ _ _] Hal. cbn. destruct (Sink.run (Sink.given f)).2 eqn:Hend; [by left|].
  pose proof (recv_law (Sink.chan f) (Sink.event_receiver f)) as Hr. cbn zeta in Hr.
  rewrite Hal in Ha. cbn in Ha. rewrite Ha in Hr.
  case_decide as Hlag; [destruct Hr as (r' & -> & Hcur)|
    destruct (history (Sink.chan f) !! cursor (Sink.event_receiver f)) as [ev|] eqn:Hev;
      [destruct Hr as (r' & -> & Hcur)|rewrite Hr]].
  - right. cbn. split; [lia|done].
  - right. cbn. split; [lia|done].
  - left. unfold Sink.ended. cbn. by rewrite run_app.
Qed.

Lemma receive_stays_ended f n :
  Sink.ended f = true -> Sink.ended (foldl Sink.step f (replicate n Sink.Receive)) = true.
Proof.
  revert f. induction n as [|n IH]; intros f Hf; [done|]. cbn. apply IH.
  cbn. unfold Sink.ended in Hf. by rewrite Hf.
Qed.

Lemma receptions_end n0 n f :
  feed_ok n0 f -> Sink.sender_alive f = false ->
  length (history (Sink.chan f)) - cursor (Sink.event_receiver f) < n ->
  Sink.ended (foldl Sink.step f (replicate n Sink.Receive)) = true.
Proof.
  revert f. induction n as [|n IH]; intros f Hf Hal Hn; [lia|]. cbn [replicate foldl].
  destruct (receive_advances n0 f Hf Hal) as [He|(Hcur & Hch & Hal')];
    [by apply receive_stays_ended|].
  apply feed_receive in Hf. pose proof (fo_cursor _ _ Hf) as Hc.
  apply IH; [done|done|]. rewrite Hch in *. lia.
Qed.

(** C25: A subscriber is notified of events published after its subscription, each at most once
    and in their order, all of them unless it lagged behind the capacity; when the sink has
    ended every such event was notified or counted as missed, and once the actor has ended the
    sink ends too. *)
Theorem sink_notifies_in_order b of_ref ls :
  closed b = false ->
  let f := foldl Sink.step (Sink.new (Ev:=Ev) b (subscribe (Ev:=Ev) b of_ref)) ls in
  let sent := drop (length (history b)) (history (Sink.chan f)) in
  sublist (Sink.notified f) sent /\
  (Sink.missed f = 0 -> Sink.notified f `prefix_of` sent) /\
  (Sink.ended f = true -> length (Sink.notified f) + Sink.missed f = length sent) /\
  (Sink.sender_alive f = false ->
   Sink.ended (foldl Sink.step f (replicate (S (length sent)) Sink.Receive)) = true).
Proof.
  intros Hcl. cbn zeta. pose proof (feed_steps _ _ ls (feed_new b of_ref Hcl)) as Hf.
  pose proof Hf as [Ha Hc Hs Hm He]. split_and!.
  - etrans; [exact Hs|]. apply sublist_take.
  - intros Hz. rewrite Hz, Nat.add_0_r in Hm.
    apply sublist_same_length in Hs as ->.
    + eexists. symmetry. apply take_drop.
    + rewrite length_take, length_drop. lia.
  - intros [_ Hcur]%He. rewrite length_drop. lia.
  - intros Hal. apply (receptions_end (length (history b))); [done..|]. rewrite length_drop. lia.
Qed.

End Correct.

(** ** A channel in memory *)

Module Ring.

(** The events sent, the capacity and whether the sender was dropped; a
    receiver is the number of its next event. *)
Record ring : Type := mk_ring { sent : list nat; size : nat; shut : bool }.

#[export] Instance ring_broadcast : Broadcast ring nat nat := {|
  channel n := (mk_ring [] n false, 0);
  bsend b ev := (mk_ring (sent b ++ [ev]) (size b) (shut b), Ok 1);
  bclose b := mk_ring (sent b) (size b) true;
  resubscribe b r := length (sent b);
  recv b r :=
    let oldest := length (sent b) - size b in
    if decide (r < oldest) then (oldest, Some (Lagged (oldest - r)))
    else match sent b !! r with
         | Some ev => (S r, Some (Received ev))
         | None => (r, if shut b then Some Closed else None)
         end;
|}.

#[export] Instance ring_laws : BroadcastLaws ring nat nat.
Proof.
  refine {| history := sent; capacity := size; closed := shut; cursor r := r |}; cbn.
  - intros n b r [= <- <-]. cbn. auto.
  - intros b ev b' res [= <- <-]. done.
  - done.
  - done.
  - intros b r. case_decide; [by eexists|]. destruct (sent b !! r); [by eexists|done].
Defined.

End Ring.
Import Ring.

(** Three events on a channel of two: the first is missed, the others notified. *)
Lemma sink_notifies_in_order_witness :
  let f := foldl Sink.step (Sink.new (Ev:=nat) (Ring.mk_ring [7] 2 false) 1)
    [Sink.Publish 1; Sink.Publish 2; Sink.Publish 3; Sink.Receive; Sink.ActorEnds] in
  Sink.missed f = 1 /\ sublist (Sink.notified f) [1; 2; 3] /\
  Sink.notified (foldl Sink.step f (replicate 3 Sink.Receive)) = [2; 3] /\
  Sink.ended (foldl Sink.step f (replicate 4 Sink.Receive)) = true.
Proof.
  cbn zeta. split; [reflexivity|].
  assert (closed (Ring.mk_ring [7] 2 false) = false) as Hc by reflexivity.
  destruct (sink_notifies_in_order (Ring.mk_ring [7] 2 false) 0
    [Sink.Publish 1; Sink.Publish 2; Sink.Publish 3; Sink.Receive; Sink.ActorEnds] Hc)
    as (Hs & _ & _ & He).
  split; [exact Hs|]. split; [reflexivity|]. exact (He eq_refl).
Defined.
