(* ===== verification/System.v ===== *)
(** * The actor system (actor/src/system.rs)

    The registry of actors and of helpers, which several tasks read and write
    through their locks. A lock is held for one access only, so each access is
    one step: [create_actor_path] is a call that checks, inserts and then waits
    for its runner, and the calls interleave. A type-erased [Box<dyn Any>] is a
    type identifier with the value; a reference is the number of its actor. *)

From S2P Require Import Prelude Path Errors.

(** [Box<dyn Any>]: the [TypeId] and the value. *)
Definition any (V : Type) : Type := nat * V.

(** [downcast_ref::<T>]. *)
Definition downcast {V} (ty : nat) (a : any V) : option V :=
  if decide (a.1 = ty) then Some a.2 else None.

(** [struct SystemRef]: what the clones share. *)
Record SystemRef (H : Type) : Type := mk_system {
  actors : gmap ActorPath (any nat);
  helpers : gmap string (any H);
  root_senders : list nat;
  cancelled : bool;
}.
Arguments mk_system {H} _ _ _ _.
Arguments actors {H} _.
Arguments helpers {H} _.
Arguments root_senders {H} _.
Arguments cancelled {H} _.

Module SystemOps.

Section Operations.
Context {H : Type}.
Implicit Types (sys : SystemRef H).

Definition new : SystemRef H := mk_system ∅ ∅ [] false.

Definition get_actor sys (ty : nat) (path : ActorPath) : option nat :=
  any ← actors sys !! path; downcast ty any.

Definition contains_key sys (path : ActorPath) : bool :=
  match actors sys !! path with Some _ => true | None => false end.

Definition insert_actor sys (path : ActorPath) (ty ref : nat) : SystemRef H :=
  mk_system (<[path := (ty, ref)]> (actors sys)) (helpers sys) (root_senders sys) (cancelled sys).

Definition remove_actor sys (path : ActorPath) : SystemRef H :=
  mk_system (delete path (actors sys)) (helpers sys) (root_senders sys) (cancelled sys).

Definition push_root sys (ref : nat) : SystemRef H :=
  mk_system (actors sys) (helpers sys) (root_senders sys ++ [ref]) (cancelled sys).

Definition stop_system sys : SystemRef H :=
  mk_system (actors sys) (helpers sys) (root_senders sys) true.

(** The keys of a [HashMap] come in no particular order. *)
Definition children sys (path : ActorPath) : list ActorPath :=
  List.filter (fun actor => ActorPath.is_child_of actor path) (map_to_list (actors sys)).*1.

Definition add_helper sys (name : string) (ty : nat) (helper : H) : SystemRef H :=
  mk_system (actors sys) (<[name := (ty, helper)]> (helpers sys)) (root_senders sys) (cancelled sys).

Definition get_helper sys (name : string) (ty : nat) : option H :=
  any ← helpers sys !! name; downcast ty any.

(** ** Creating actors *)

(** A call of [create_actor_path], between two of its accesses. *)
Inductive progress : Type :=
| Checking
| Inserting
| Waiting
| Pushing
| Returned (r : outcome ActorError.Error nat).

Record Call : Type := mk_call {
  c_path : ActorPath;
  c_ty : nat;
  c_ref : nat;
  c_root : bool;
  c_progress : progress;
}.

Definition advance (c : Call) (p : progress) : Call :=
  mk_call (c_path c) (c_ty c) (c_ref c) (c_root c) p.

(** The system and the calls in progress, by number. *)
Record Tasks : Type := mk_tasks {
  system : SystemRef H;
  calls : gmap nat Call;
}.

(** [start] is what the oneshot of the runner gives: the boolean it was sent, or
    nothing when the runner was dropped. A runner takes itself out of the
    registry by its path, whatever is stored there by then. [create_root_actor]
    pushes the stop sender in an access of its own. *)
Inductive label : Type :=
| CheckExists (call : nat)
| Insert (call : nat)
| StartAnswer (call : nat) (start : option bool)
| PushRoot (call : nat)
| RunnerRemoves (path : ActorPath).

Definition set_call (ts : Tasks) (i : nat) (c : Call) (sys : SystemRef H) : Tasks :=
  mk_tasks sys (<[i := c]> (calls ts)).

Definition step (l : label) (ts : Tasks) : option Tasks :=
  let sys := system ts in
  match l with
  | CheckExists i =>
      c ← calls ts !! i;
      match c_progress c with
      | Checking =>
          if contains_key sys (c_path c)
          then Some (set_call ts i (advance c (Returned (Err (ActorError.Exists (c_path c))))) sys)
          else Some (set_call ts i (advance c Inserting) sys)
      | _ => None
      end
  | Insert i =>
      c ← calls ts !! i;
      match c_progress c with
      | Inserting =>
          Some (set_call ts i (advance c Waiting) (insert_actor sys (c_path c) (c_ty c) (c_ref c)))
      | _ => None
      end
  | StartAnswer i start =>
      c ← calls ts !! i;
      match c_progress c with
      | Waiting =>
          let p :=
            match start with
            | Some true => if c_root c then Pushing else Returned (Ok (c_ref c))
            | Some false =>
                Returned (Err (ActorError.Start ("Runner can not init "
                                                 +:+ ActorPath.to_string (c_path c))))
            | None => Returned (Err (ActorError.Start "channel closed"))
            end in
          Some (set_call ts i (advance c p) sys)
      | _ => None
      end
  | PushRoot i =>
      c ← calls ts !! i;
      match c_progress c with
      | Pushing => Some (set_call ts i (advance c (Returned (Ok (c_ref c)))) (push_root sys (c_ref c)))
      | _ => None
      end
  | RunnerRemoves path => Some (mk_tasks (remove_actor sys path) (calls ts))
  end.

Fixpoint steps (ls : list label) (ts : Tasks) : option Tasks :=
  match ls with
  | [] => Some ts
  | l :: ls => match step l ts with Some ts' => steps ls ts' | None => None end
  end.

(** The path of [create_root_actor(name)] and of [ctx.create_child(name)]. *)
Definition root_path (name : string) : ActorPath :=
  ActorPath.div (ActorPath.from "/user") name.

Definition create_root_actor (name : string) (ty ref : nat) : Call :=
  mk_call (root_path name) ty ref true Checking.

Definition create_child (parent : ActorPath) (name : string) (ty ref : nat) : Call :=
  mk_call (ActorPath.div parent name) ty ref false Checking.

(** ** Shutting down *)

(** The task that [SystemRef::new] spawns, after the cancellation: it pops the
    stop senders from the last; [alive] tells whether the receiver of a sender
    is still there. The result is the actors that were stopped, in order, and
    whether [StopSystem] was sent before the event sender is dropped. *)
Fixpoint stop_roots (alive : nat -> bool) (popped : list nat) : list nat * bool :=
  match popped with
  | [] => ([], true)
  | sender :: popped =>
      if alive sender
      then let '(stopped, sent) := stop_roots alive popped in (sender :: stopped, sent)
      else ([], false)
  end.

Definition shutdown (alive : nat -> bool) sys : list nat * bool :=
  stop_roots alive (reverse (root_senders sys)).

(** [ActorContext::stop_childs] over the same kind of list. *)
Fixpoint stop_childs (alive : nat -> bool) (popped : list nat) : list nat :=
  match popped with
  | [] => []
  | sender :: popped =>
      if alive sender then sender :: stop_childs alive popped else stop_childs alive popped
  end.

(** [SystemRunner::run]: the only branch of the [select!] needs an event; when
    the sender is dropped without one, [select!] has no branch left. *)
Definition runner_run (event : option unit) : outcome ActorError.Error unit :=
  match event with Some _ => Ok tt | None => Panic end.

End Operations.

End SystemOps.

(** What the context of an actor finds through the registry (actor/src/actor.rs). *)
Module ActorContext.

Section Lookups.
Context {H : Type}.
Implicit Types (sys : SystemRef H).

Definition reference sys (ty : nat) (self : ActorPath) : option nat :=
  SystemOps.get_actor sys ty self.

Definition parent sys (ty : nat) (self : ActorPath) : option nat :=
  SystemOps.get_actor sys ty (ActorPath.parent self).

Definition get_child sys (ty : nat) (self : ActorPath) (name : string) : option nat :=
  SystemOps.get_actor sys ty (ActorPath.div self name).

End Lookups.

End ActorContext.
