(* ===== verification/SystemCorrect.v ===== *)
(** * The registry under interleaving, and the shutdown

    What a call of [create_actor_path] does alone and against another one, what
    the registry can hold in any reachable state, and which root actors a
    shutdown stops. *)

From S2P Require Import Prelude Path Errors System.
Import SystemOps.

Section Correct.
Context {H : Type}.
Implicit Types (sys : SystemRef H) (ts : Tasks (H:=H)) (c : Call).

Lemma get_insert sys path ty ref path' ty' :
  get_actor (insert_actor sys path ty ref) ty' path'
  = if decide (path' = path) then (if decide (ty = ty') then Some ref else None)
    else get_actor sys ty' path'.
Proof.
  unfold get_actor. cbn. case_decide as Hp.
  - subst. rewrite lookup_insert_eq. cbn. unfold downcast. cbn. by repeat case_decide.
  - by rewrite lookup_insert_ne by congruence.
Qed.

Lemma get_remove sys path ty path' :
  get_actor (remove_actor sys path) ty path'
  = if decide (path' = path) then None else get_actor sys ty path'.
Proof.
  unfold get_actor. cbn. case_decide as Hp.
  - subst. by rewrite lookup_delete_eq.
  - by rewrite lookup_delete_ne by congruence.
Qed.

Lemma contains_key_spec sys path : contains_key sys path = true <-> is_Some (actors sys !! path).
Proof.
  unfold contains_key. destruct (actors sys !! path) as [a|] eqn:Ha.
  - split; [by exists a|done].
  - split; [done|by intros [a' ?]].
Qed.

Lemma calls_set ts i c sys j :
  calls (set_call ts i c sys) !! j = if decide (j = i) then Some c else calls ts !! j.
Proof. cbn. rewrite lookup_insert. repeat case_decide; congruence. Qed.

(** ** One call *)

Lemma step_check ts i c :
  calls ts !! i = Some c -> c_progress c = Checking -> contains_key (system ts) (c_path c) = false ->
  step (CheckExists i) ts = Some (set_call ts i (advance c Inserting) (system ts)).
Proof. intros Hc Hp Hk. cbn. by rewrite Hc; cbn; rewrite Hp, Hk. Qed.

Lemma step_insert ts i c :
  calls ts !! i = Some c -> c_progress c = Inserting ->
  step (Insert i) ts
  = Some (set_call ts i (advance c Waiting) (insert_actor (system ts) (c_path c) (c_ty c) (c_ref c))).
Proof. intros Hc Hp. cbn. by rewrite Hc; cbn; rewrite Hp. Qed.

Lemma step_started ts i c :
  calls ts !! i = Some c -> c_progress c = Waiting -> c_root c = false ->
  step (StartAnswer i (Some true)) ts
  = Some (set_call ts i (advance c (Returned (Ok (c_ref c)))) (system ts)).
Proof. intros Hc Hp Hr. cbn. by rewrite Hc; cbn; rewrite Hp, Hr. Qed.

(** A creation of a free path that nothing interrupts. *)
Lemma create_free ts i c :
  calls ts !! i = Some c -> c_progress c = Checking -> c_root c = false ->
  contains_key (system ts) (c_path c) = false ->
  exists ts', steps [CheckExists i; Insert i; StartAnswer i (Some true)] ts = Some ts' /\
    calls ts' !! i = Some (advance c (Returned (Ok (c_ref c)))) /\
    forall ty path, get_actor (system ts') ty path =
      if decide (path = c_path c) then (if decide (c_ty c = ty) then Some (c_ref c) else None)
      else get_actor (system ts) ty path.
Proof.
  intros Hc Hp Hr Hk. cbn [steps]. rewrite (step_check _ _ _ Hc Hp Hk).
  erewrite step_insert by (done || (rewrite calls_set, decide_True; done)).
  erewrite step_started by (done || (rewrite calls_set, decide_True; done)).
  eexists. split; [done|]. split; [by rewrite calls_set, decide_True|].
  intros ty path. apply get_insert.
Qed.

(** A creation that no other one overlaps fails with Exists and changes nothing when the path is
    taken, and otherwise registers its actor, which is found under that path and its type only,
    the other paths being as they were. *)
Theorem create_alone ts i c :
  calls ts !! i = Some c -> c_progress c = Checking -> c_root c = false ->
  if contains_key (system ts) (c_path c) then
    exists ts', step (CheckExists i) ts = Some ts' /\ system ts' = system ts /\
      calls ts' !! i = Some (advance c (Returned (Err (ActorError.Exists (c_path c)))))
  else
    exists ts', steps [CheckExists i; Insert i; StartAnswer i (Some true)] ts = Some ts' /\
      calls ts' !! i = Some (advance c (Returned (Ok (c_ref c)))) /\
      forall ty path, get_actor (system ts') ty path =
        if decide (path = c_path c) then (if decide (c_ty c = ty) then Some (c_ref c) else None)
        else get_actor (system ts) ty path.
Proof.
  intros Hc Hp Hr. destruct (contains_key (system ts) (c_path c)) eqn:Hk.
  - cbn. rewrite Hc. cbn. rewrite Hp, Hk. eexists. split; [done|]. split; [done|].
    cbn. by rewrite lookup_insert_eq.
  - by apply create_free.
Qed.

(** ** Two calls for one path *)

(** C37: Two creations for one path whose existence checks both come before the insertions both
    succeed: the registry knows the second actor only, and when the first one ends it removes
    the entry of the second, which goes on running unregistered. *)
Theorem creation_race ts i j ci cj :
  i <> j -> calls ts !! i = Some ci -> calls ts !! j = Some cj ->
  c_progress ci = Checking -> c_progress cj = Checking -> c_root ci = false -> c_root cj = false ->
  c_path ci = c_path cj -> contains_key (system ts) (c_path ci) = false ->
  exists ts', steps [CheckExists i; CheckExists j; Insert i; Insert j;
                     StartAnswer i (Some true); StartAnswer j (Some true)] ts = Some ts' /\
    calls ts' !! i = Some (advance ci (Returned (Ok (c_ref ci)))) /\
    calls ts' !! j = Some (advance cj (Returned (Ok (c_ref cj)))) /\
    get_actor (system ts') (c_ty cj) (c_path ci) = Some (c_ref cj) /\
    exists ts'', steps [RunnerRemoves (c_path ci)] ts' = Some ts'' /\
      get_actor (system ts'') (c_ty cj) (c_path cj) = None /\
      calls ts'' !! j = calls ts' !! j.
Proof.
  intros Hij Hi Hj Hpi Hpj Hri Hrj Hpath Hk. cbn [steps].
  rewrite (step_check _ _ _ Hi Hpi Hk).
  assert (contains_key (system ts) (c_path cj) = false) as Hk' by congruence.
  erewrite step_check; [|rewrite calls_set, decide_False by done; exact Hj|done|exact Hk'].
  erewrite step_insert;
    [|rewrite calls_set, decide_False, calls_set, decide_True by done; done|done].
  erewrite step_insert;
    [|rewrite calls_set, decide_False, calls_set, decide_True by done; done|done].
  erewrite step_started;
    [|rewrite calls_set, decide_False, calls_set, decide_True by done; done|done|done].
  erewrite step_started;
    [|rewrite calls_set, decide_False, calls_set, decide_True by done; done|done|done].
  eexists. split; [done|].
  split; [by rewrite calls_set, decide_False, calls_set, decide_True by done|].
  split; [by rewrite calls_set, decide_True by done|].
  split; [cbn [system set_call]; rewrite get_insert, !decide_True by done; done|].
  eexists. split; [done|]. cbn [system]. split; [|done].
  rewrite get_remove. by rewrite decide_True.
Qed.

(** ** Reachable registries *)

Inductive reachable (cs : gmap nat Call) : Tasks (H:=H) -> Prop :=
| reach_new : reachable cs (mk_tasks new cs)
| reach_step l ts ts' : reachable cs ts -> step l ts = Some ts' -> reachable cs ts'.

(** A call that has stored its actor. *)
Definition inserted (c : Call) : Prop :=
  match c_progress c with
  | Waiting | Pushing | Returned (Ok _) => True
  | Returned (Err (ActorError.Start _)) => True
  | _ => False
  end.

Definition registry_ok ts : Prop :=
  forall path ty ref, actors (system ts) !! path = Some (ty, ref) ->
    exists i c, calls ts !! i = Some c /\ c_path c = path /\ c_ty c = ty /\ c_ref c = ref /\ inserted c.

(** Moving a call on keeps the registry accounted for. *)
Lemma registry_ok_set ts i c p sys :
  registry_ok ts -> calls ts !! i = Some c -> (inserted c -> inserted (advance c p)) ->
  (forall path ty ref, actors sys !! path = Some (ty, ref) ->
     actors (system ts) !! path = Some (ty, ref) \/
     (path = c_path c /\ ty = c_ty c /\ ref = c_ref c /\ inserted (advance c p))) ->
  registry_ok (set_call ts i (advance c p) sys).
Proof.
  intros Hok Hc Hp Hs path ty ref [Ha|(-> & -> & -> & Hi)]%Hs.
  - destruct (Hok _ _ _ Ha) as (j & cj & Hj & <- & <- & <- & Hi).
    destruct (decide (j = i)) as [->|Hne].
    + rewrite Hc in Hj. injection Hj as <-. exists i, (advance c p).
      rewrite calls_set, decide_True by done. split_and!; [done..|by apply Hp].
    + exists j, cj. rewrite calls_set, decide_False by done. done.
  - exists i, (advance c p). rewrite calls_set, decide_True by done. done.
Qed.

Lemma registry_ok_step l ts ts' : registry_ok ts -> step l ts = Some ts' -> registry_ok ts'.
Proof.
  intros Hok. destruct l as [i|i|i start|i|path]; cbn;
    try (destruct (calls ts !! i) as [c|] eqn:Hc; [|done]; cbn;
         destruct (c_progress c) eqn:Hp; try done).
  - destruct (contains_key (system ts) (c_path c)); intros [= <-];
      (apply registry_ok_set; [done|done|unfold inserted; rewrite Hp; done|by left]).
  - intros [= <-]. apply registry_ok_set; [done|done|done|]. cbn. intros path ty ref.
    rewrite lookup_insert. case_decide; [intros [= <- <-]; right|by left]. by split_and!.
  - intros [= <-].
    apply registry_ok_set; [done|done| |by left].
    intros _. destruct start as [[]|]; cbn; [|done..]. by destruct (c_root c).
  - intros [= <-]. by apply registry_ok_set; [done|done|done|left].
  - intros [= <-] path' ty ref. cbn. rewrite lookup_delete. case_decide; [done|]. apply Hok.
Qed.

(** C21: However the calls that create actors and the removals interleave, what the registry
    returns for a path is the actor of a creation call for that path and type that has passed
    its insertion. *)
Theorem registered_actors_were_created cs ts path ty ref :
  reachable cs ts -> get_actor (system ts) ty path = Some ref ->
  exists i c, calls ts !! i = Some c /\ c_path c = path /\ c_ty c = ty /\ c_ref c = ref /\ inserted c.
Proof.
  intros Hr. assert (registry_ok ts) as Hok.
  { induction Hr as [|l ts ts' _ IH Hs]; [|by eapply registry_ok_step].
    intros path' ty' ref'. cbn. by rewrite lookup_empty. }
  unfold get_actor. intros Hg. destruct (actors (system ts) !! path) as [[ty' ref']|] eqn:Ha; [|done].
  cbn in Hg. unfold downcast in Hg. cbn in Hg. case_decide; [|done]. injection Hg as ->. subst.
  by apply Hok.
Qed.

(** children lists, once each, exactly the registered paths whose parent is the given path. *)
Theorem children_are_the_registered_children sys path :
  NoDup (children sys path) /\
  forall q, q ∈ children sys path <->
    contains_key sys q = true /\ ActorPath.parent q = path.
Proof.
  unfold children. split.
  - pose proof (NoDup_fst_map_to_list (actors sys)) as Hn. rewrite NoDup_ListNoDup in *.
    by apply List.NoDup_filter.
  - intros q. rewrite contains_key_spec, list_elem_of_In, List.filter_In, <- list_elem_of_In.
    rewrite list_elem_of_fmap. unfold ActorPath.is_child_of. rewrite bool_decide_eq_true. split.
    + intros [([k a] & -> & Hk%elem_of_map_to_list) Hp]. split; [by exists a|done].
    + intros [[a Ha] Hp]. split; [|done]. exists (q, a). split; [done|].
      by apply elem_of_map_to_list.
Qed.

(** A helper is found under its name and its type only. *)
Lemma helpers_are_typed sys name ty (h : H) :
  get_helper (add_helper sys name ty h) name ty = Some h /\
  (forall ty', ty' <> ty -> get_helper (add_helper sys name ty h) name ty' = None) /\
  (forall name' ty', name' <> name ->
     get_helper (add_helper sys name ty h) name' ty' = get_helper sys name' ty').
Proof.
  unfold get_helper, downcast. cbn. rewrite lookup_insert_eq. cbn.
  split_and!; [by rewrite decide_True|intros; by rewrite decide_False by congruence|].
  intros. by rewrite lookup_insert_ne.
Qed.

(** ** The shutdown *)

Lemma stop_roots_alive alive l :
  Forall (fun s => alive s = true) l -> stop_roots alive l = (l, true).
Proof. induction 1 as [|s l Hs _ IH]; [done|]. cbn. by rewrite Hs, IH. Qed.

Lemma stop_roots_closed alive l1 s l2 :
  Forall (fun s => alive s = true) l1 -> alive s = false ->
  stop_roots alive (l1 ++ s :: l2) = (l1, false).
Proof. intros Hl Hs. induction Hl as [|x l1 Hx _ IH]; cbn; [by rewrite Hs|]. by rewrite Hx, IH. Qed.

Lemma stop_childs_filter alive l : stop_childs alive l = List.filter alive l.
Proof. induction l as [|s l IH]; [done|]. cbn. by rewrite IH. Qed.

(** When the stop channels of all root actors are open, the shutdown stops them from the last
    created to the first and then tells the system runner, as stop_childs does with children. *)
Theorem shutdown_stops_the_roots_in_reverse alive sys :
  Forall (fun s => alive s = true) (root_senders sys) ->
  shutdown alive sys = (reverse (root_senders sys), true) /\
  stop_childs alive (reverse (root_senders sys)) = reverse (root_senders sys).
Proof.
  intros Ha. unfold shutdown. assert (Forall (fun s => alive s = true) (reverse (root_senders sys)))
    as Hr by (by apply Forall_reverse). split; [by apply stop_roots_alive|].
  by rewrite stop_childs_filter, filter_all.
Qed.

(** A root actor that has ended before the shutdown makes it return: the roots created before it
    are never stopped, StopSystem is not sent and the system runner panics; stop_childs goes on
    with the remaining children in the same situation. *)
Theorem shutdown_gives_up_at_a_closed_root alive sys l1 s l2 :
  root_senders sys = l1 ++ s :: l2 -> alive s = false -> Forall (fun s => alive s = true) l2 ->
  shutdown alive sys = (reverse l2, false) /\
  stop_childs alive (reverse (root_senders sys)) = reverse l2 ++ reverse (List.filter alive l1) /\
  runner_run (if (shutdown alive sys).2 then Some tt else None) = Panic.
Proof.
  intros Hr Hs Hl. assert (shutdown alive sys = (reverse l2, false)) as Hsd.
  { unfold shutdown. rewrite Hr, reverse_app, reverse_cons, <- app_assoc.
    apply stop_roots_closed; [by apply Forall_reverse|done]. }
  rewrite Hsd. split_and!; [done| |done].
  rewrite stop_childs_filter, Hr, reverse_app, reverse_cons, !List.filter_app. cbn. rewrite Hs.
  rewrite app_nil_r. f_equal.
  - by apply filter_all, Forall_reverse.
  - clear. induction l1 as [|x l1 IH]; [done|]. rewrite reverse_cons, List.filter_app, IH. cbn [List.filter].
    destruct (alive x); [by rewrite reverse_cons|by rewrite app_nil_r].
Qed.

End Correct.

(** ** Witnesses *)

(** Two calls of [create_child(parent, "w")] in two tasks. *)
Definition two_calls : Tasks (H:=nat) :=
  mk_tasks new (<[0 := create_child (ActorPath.from "/user/p") "w" 5 100]>
                (<[1 := create_child (ActorPath.from "/user/p") "w" 5 101]> ∅)).

Lemma create_alone_witness :
  exists ts', steps [CheckExists 0; Insert 0; StartAnswer 0 (Some true)] two_calls = Some ts' /\
    get_actor (system ts') 5 (ActorPath.from "/user/p/w") = Some 100.
Proof.
  pose proof (create_alone two_calls 0 (create_child (ActorPath.from "/user/p") "w" 5 100)
    eq_refl eq_refl eq_refl) as Hc.
  change (contains_key _ _) with false in Hc. destruct Hc as (ts' & Hs & _ & Hg).
  exists ts'. split; [exact Hs|]. rewrite Hg. vm_compute. reflexivity.
Defined.

Lemma creation_race_witness :
  exists ts', steps [CheckExists 0; CheckExists 1; Insert 0; Insert 1;
                     StartAnswer 0 (Some true); StartAnswer 1 (Some true)] two_calls = Some ts' /\
    get_actor (system ts') 5 (ActorPath.from "/user/p/w") = Some 101.
Proof.
  destruct (creation_race two_calls 0 1 (create_child (ActorPath.from "/user/p") "w" 5 100)
    (create_child (ActorPath.from "/user/p") "w" 5 101) ltac:(done) eq_refl eq_refl eq_refl eq_refl
    eq_refl eq_refl eq_refl eq_refl) as (ts' & Hs & _ & _ & Hg & _).
  exists ts'. split; [exact Hs|exact Hg].
Defined.

Definition one_created : Tasks (H:=nat) :=
  match steps [CheckExists 0; Insert 0] two_calls with Some ts => ts | None => two_calls end.

Lemma registered_actors_were_created_witness :
  exists i c, calls one_created !! i = Some c /\ c_ref c = 100 /\ inserted c.
Proof.
  assert (reachable (calls two_calls) one_created) as Hr.
  { eapply (reach_step _ (Insert 0)); [eapply (reach_step _ (CheckExists 0)); [apply reach_new|]|];
      vm_compute; reflexivity. }
  destruct (registered_actors_were_created _ _ (ActorPath.from "/user/p/w") 5 100 Hr
              ltac:(vm_compute; reflexivity)) as (i & c & Hc & _ & _ & Href & Hi).
  exists i, c. split; [exact Hc|]. split; [exact Href|exact Hi].
Defined.

Definition three_roots : SystemRef nat := push_root (push_root (push_root new 1) 2) 3.

Lemma shutdown_stops_the_roots_in_reverse_witness :
  shutdown (fun _ => true) three_roots = ([3; 2; 1], true).
Proof.
  refine (proj1 (shutdown_stops_the_roots_in_reverse (fun _ => true) three_roots _)).
  by repeat constructor.
Defined.

Lemma shutdown_gives_up_at_a_closed_root_witness :
  shutdown (fun s => negb (s =? 2)) three_roots = ([3], false).
Proof.
  refine (proj1 (shutdown_gives_up_at_a_closed_root (fun s => negb (s =? 2)) three_roots
                   [1] 2 [3] eq_refl eq_refl _)).
  by repeat constructor.
Defined.
