(* ===== verification/RetryTarget.v ===== *)
(** * A retry actor in the system (actor/src/retries.rs with actor/src/system.rs)

    The retry actor of [Retries] creates its target as its child when it starts
    and finds it, and itself, through the registry of [System] at each attempt. *)

From S2P Require Import Prelude Path Errors Supervision Retries System SystemCorrect.
Import SystemOps.

Module RetryTarget.

Section Operations.
Context {Msg H : Type} `{BuildMode}.

(** The name of the child. *)
Definition target : string := "target".

(** What the call of [create_child] returned, if it did. *)
Definition created (ts : Tasks (H:=H)) (call : nat) : option (outcome ActorError.Error nat) :=
  c ← calls ts !! call;
  match c_progress c with Returned r => Some r | _ => None end.

(** [handle_message] with what the context of the retry actor finds. *)
Definition handle_message (sys : SystemRef H) (self_ty target_ty : nat) (self : ActorPath)
    (msg : RetryMessage) : stM (RetryActor Msg * list (effect Msg)) ActorError.Error unit :=
  RetryOps.handle_message
    (bool_decide (is_Some (ActorContext.get_child sys target_ty self target)))
    (bool_decide (is_Some (ActorContext.reference sys self_ty self))) msg.

End Operations.

End RetryTarget.

Section Correct.
Context {Msg H : Type} `{BuildMode}.

Lemma target_ne self : ActorPath.div self RetryTarget.target <> self.
Proof. by apply ActorPath.div_ne. Qed.

(** A retry actor starts when its target can be created and then finds both the target and
    itself; it fails with Exists when the path is taken; once the target has left the registry
    the attempts go on without telling it. *)
Theorem retry_actor_and_its_target (ts : Tasks (H:=H)) i self self_ty target_ty ref tref
    (r : RetryActor Msg) :
  calls ts !! i = Some (create_child self RetryTarget.target target_ty tref) ->
  get_actor (system ts) self_ty self = Some ref ->
  let path := ActorPath.div self RetryTarget.target in
  if contains_key (system ts) path then
    exists ts', steps [CheckExists i] ts = Some ts' /\
      exists res, RetryTarget.created ts' i = Some res /\
        RetryOps.pre_start (Msg:=Msg) res (r, []) = ((r, []), Err (ActorError.Exists path))
  else
    exists ts', steps [CheckExists i; Insert i; StartAnswer i (Some true)] ts = Some ts' /\
      (exists res, RetryTarget.created ts' i = Some res /\
         RetryOps.pre_start res (r, []) = ((r, []), Ok tt)) /\
      (forall msg, RetryTarget.handle_message (Msg:=Msg) (system ts') self_ty target_ty self msg
         = RetryOps.handle_message true true msg) /\
      exists ts'', step (RunnerRemoves path) ts' = Some ts'' /\
        forall msg, RetryTarget.handle_message (Msg:=Msg) (system ts'') self_ty target_ty self msg
          = RetryOps.handle_message false true msg.
Proof.
  intros Hc Hself. cbn zeta. set (path := ActorPath.div self RetryTarget.target).
  destruct (contains_key (system ts) path) eqn:Hk.
  - cbn [steps step]. rewrite Hc. cbn [c_progress create_child mbind option_bind].
    change (c_path _) with path. rewrite Hk. eexists. split; [done|].
    exists (Err (ActorError.Exists path)). split; [|done].
    unfold RetryTarget.created. cbn. by rewrite lookup_insert_eq.
  - destruct (create_free ts i _ Hc eq_refl eq_refl Hk) as (ts' & Hs & Hret & Hget).
    change (c_path _) with path in Hget. change (c_ty _) with target_ty in Hget.
    exists ts'. split; [done|]. split.
    { exists (Ok tref). split; [|done]. unfold RetryTarget.created. by rewrite Hret. }
    assert (get_actor (system ts') self_ty self = Some ref) as Hself'.
    { rewrite Hget, decide_False by (apply not_eq_sym, target_ne). done. }
    split.
    + intros msg. unfold RetryTarget.handle_message, ActorContext.get_child, ActorContext.reference.
      fold path. rewrite Hself', Hget, !decide_True by done.
      by rewrite !bool_decide_true by by eexists.
    + eexists. split; [done|]. intros msg.
      unfold RetryTarget.handle_message, ActorContext.get_child, ActorContext.reference. fold path.
      cbn [system]. rewrite !get_remove, decide_True, decide_False, Hself' 
        by (done || apply not_eq_sym, target_ne).
      rewrite bool_decide_false by (by intros []). by rewrite bool_decide_true by by eexists.
Qed.

End Correct.

(** ** A retry actor that starts *)

Definition retrier : ActorPath := ActorPath.from "/user/r".

Definition starting : Tasks (H:=nat) :=
  mk_tasks (insert_actor new retrier 3 50)
    {[0 := create_child retrier RetryTarget.target 4 51]}.

#[local] Instance wrapping : BuildMode := { overflow_checks := false }.

Lemma retry_actor_and_its_target_witness :
  exists ts', steps [CheckExists 0; Insert 0; StartAnswer 0 (Some true)] starting = Some ts' /\
    (exists res, RetryTarget.created ts' 0 = Some res /\
       RetryOps.pre_start res (RetryOps.new 7 Strategy.default, [])
         = ((RetryOps.new 7 Strategy.default, []), Ok tt)) /\
    forall msg, RetryTarget.handle_message (Msg:=nat) (system ts') 3 4 retrier msg
      = RetryOps.handle_message true true msg.
Proof.
  assert (contains_key (system starting) (ActorPath.div retrier RetryTarget.target) = false) as Hk
    by (vm_compute; reflexivity).
  assert (get_actor (system starting) 3 retrier = Some 50) as Hs by (vm_compute; reflexivity).
  pose proof (retry_actor_and_its_target starting 0 retrier 3 4 50 51
    (RetryOps.new 7 Strategy.default) eq_refl Hs) as Ht.
  cbn zeta in Ht. rewrite Hk in Ht. destruct Ht as (ts' & Hst & Hc & Hh & _).
  exists ts'. split; [exact Hst|]. split; [exact Hc|exact Hh].
Defined.
