(* ===== verification/Shutdown.v ===== *)
(** * Shutting down among other tasks (actor/src/system.rs)

    The task that [SystemRef::new] spawns holds the write lock of the root
    senders from the first stop to the last, while it waits for each actor.
    Here its accesses interleave with the calls of [System], of which
    [create_root_actor] needs that lock, and with the confirmations and the ends
    of actors, whose handlers may wait for such a call. An actor confirms a stop
    inside its stop branch, before [post_stop] and before its task ends; it may
    even restart afterwards ([RunnerStop]), so that confirming is not ending. *)

From S2P Require Import Prelude Path Errors System.

Module Shutdown.

(** Where the spawned task is: before the cancellation, about to pop a sender,
    sending a request to an actor, waiting for its confirmation, and the two ways
    in which it ends. *)
Inductive phase : Type :=
| Asleep
| Draining
| Offering (sender : nat)
| Stopping (sender : nat)
| GaveUp
| Sent.

#[export] Instance phase_eq_dec : EqDecision phase.
Proof. solve_decision. Defined.

Section Operations.
Context {H : Type}.

(** The registry and the calls, the spawned task, the actors whose tasks have
    ended, the calls that handlers wait for (actor to call), and the actors that
    confirmed a stop of the shutdown, in order. *)
Record World : Type := mk_world {
  tasks : SystemOps.Tasks (H:=H);
  at_phase : phase;
  ended : gset nat;
  awaits : gmap nat nat;
  stopped : list nat;
}.
Implicit Types (w : World).

Definition roots w : list nat := root_senders (SystemOps.system (tasks w)).

Definition set_tasks (ts : SystemOps.Tasks) w : World :=
  mk_world ts (at_phase w) (ended w) (awaits w) (stopped w).

Definition set_phase (ph : phase) w : World :=
  mk_world (tasks w) ph (ended w) (awaits w) (stopped w).

(** [root_senders.write()] is held. *)
Definition locked w : bool :=
  match at_phase w with Draining | Offering _ | Stopping _ => true | _ => false end.

(** [root_senders.pop()] *)
Definition pop_root w : option (nat * World) :=
  match reverse (roots w) with
  | [] => None
  | sender :: rest =>
      let sys := SystemOps.system (tasks w) in
      Some (sender,
            set_tasks (SystemOps.mk_tasks
                         (mk_system (actors sys) (helpers sys) (reverse rest) (cancelled sys))
                         (SystemOps.calls (tasks w))) w)
  end.

(** The condition of the loop of the spawned task. *)
Definition pop w : World :=
  match pop_root w with
  | None => set_phase Sent w
  | Some (sender, w) => set_phase (Offering sender) w
  end.

(** [sender.send(..)] returns, once the channel has room: it fails when the task
    of the actor has ended, and then the spawned task returns. *)
Definition offer (sender : nat) w : World :=
  set_phase (if bool_decide (sender ∈ ended w) then GaveUp else Stopping sender) w.

(** The actor that is asked to stop confirms, and [stop_receiver.await] returns. *)
Definition confirm (ref : nat) w : World :=
  mk_world (tasks w) Draining (ended w) (awaits w) (stopped w ++ [ref]).

(** The end of an actor's task: its oneshot is dropped, so that
    [stop_receiver.await] returns too. *)
Definition end_actor (ref : nat) w : World :=
  mk_world (tasks w) (if decide (at_phase w = Stopping ref) then Draining else at_phase w)
    ({[ref]} ∪ ended w) (awaits w) (stopped w).

Definition returned w (call : nat) : bool :=
  match SystemOps.calls (tasks w) !! call with
  | Some c => match SystemOps.c_progress c with SystemOps.Returned _ => true | _ => false end
  | None => false
  end.

Inductive label : Type :=
| Access (l : SystemOps.label)
| Cancel
| Wake
| Pop
| Offer
| Confirm (ref : nat)
| Ends (ref : nat)
| Await (ref call : nat)
| Resume (ref : nat).

(** Pushing a root sender waits for the lock. *)
Definition needs_lock (l : SystemOps.label) : bool :=
  match l with SystemOps.PushRoot _ => true | _ => false end.

Definition step (l : label) w : option World :=
  match l with
  | Access l =>
      if needs_lock l && locked w then None
      else ts ← SystemOps.step l (tasks w); Some (set_tasks ts w)
  | Cancel =>
      Some (set_tasks (SystemOps.mk_tasks (SystemOps.stop_system (SystemOps.system (tasks w)))
                         (SystemOps.calls (tasks w))) w)
  | Wake =>
      if decide (at_phase w = Asleep /\ cancelled (SystemOps.system (tasks w)) = true)
      then Some (set_phase Draining w) else None
  | Pop => if decide (at_phase w = Draining) then Some (pop w) else None
  | Offer => match at_phase w with Offering sender => Some (offer sender w) | _ => None end
  | Confirm ref =>
      if decide (at_phase w = Stopping ref /\ awaits w !! ref = None /\ ref ∉ ended w)
      then Some (confirm ref w) else None
  | Ends ref =>
      if decide (awaits w !! ref = None) then Some (end_actor ref w) else None
  | Await ref call =>
      if decide (awaits w !! ref = None /\ ref ∉ ended w)
      then Some (mk_world (tasks w) (at_phase w) (ended w) (<[ref := call]> (awaits w)) (stopped w))
      else None
  | Resume ref =>
      call ← awaits w !! ref;
      if returned w call
      then Some (mk_world (tasks w) (at_phase w) (ended w) (delete ref (awaits w)) (stopped w))
      else None
  end.

Fixpoint steps (ls : list label) w : option World :=
  match ls with
  | [] => Some w
  | l :: ls => match step l w with Some w' => steps ls w' | None => None end
  end.

End Operations.

End Shutdown.

Import Shutdown.

(** ** Invariants *)

Section Correct.
Context {H : Type}.
Implicit Types (w : World (H:=H)) (ls : list Shutdown.label).

Lemma steps_app ls1 ls2 w :
  steps (ls1 ++ ls2) w = match steps ls1 w with Some w' => steps ls2 w' | None => None end.
Proof.
  revert w. induction ls1 as [|l ls1 IH]; intros w; [done|]. cbn. by destruct (step l w).
Qed.

(** An invariant that each step keeps. *)
Lemma steps_ind (P : World -> Prop) :
  (forall l w w', P w -> step l w = Some w' -> P w') ->
  forall ls w w', P w -> steps ls w = Some w' -> P w'.
Proof.
  intros Hstep ls. induction ls as [|l ls IH]; intros w w' Hw; cbn; [by intros [= <-]|].
  destruct (step l w) as [w1|] eqn:Hl; [|done]. eauto.
Qed.

(** The calls leave the root senders alone but to push one at the end. *)
Lemma access_roots l (ts ts' : SystemOps.Tasks (H:=H)) :
  SystemOps.step l ts = Some ts' ->
  root_senders (SystemOps.system ts') = root_senders (SystemOps.system ts) \/
  needs_lock l = true /\
  exists ref, root_senders (SystemOps.system ts') = root_senders (SystemOps.system ts) ++ [ref].
Proof.
  destruct l as [i|i|i start|i|p]; cbn; intros Hs; simplify_option_eq; repeat case_match; simplify_eq;
    try (by left).
  right. split; [done|]. by eexists.
Qed.

(** The sender that the spawned task has taken and is busy with. *)
Definition current w : list nat :=
  match at_phase w with Offering s | Stopping s => [s] | _ => [] end.

(** A run of the loop that began with the senders [popped0] and the confirmations
    [stopped0]: the senders that it took are those of actors that confirmed, in
    order, or ended, and the one that it is busy with. *)
Record draining (popped0 stopped0 : list nat) w (taken rest confirmed : list nat) : Prop := {
  dr_split : popped0 = taken ++ rest;
  dr_begun : at_phase w <> Asleep;
  dr_rest : locked w = true -> rest = reverse (roots w);
  dr_sent : at_phase w = Sent -> rest = [];
  dr_taken : forall s, s ∈ taken -> s ∈ ended w \/ s ∈ confirmed \/ s ∈ current w;
  dr_stopped : stopped w = stopped0 ++ confirmed;
  dr_order : sublist (confirmed ++ current w) taken;
}.

Definition draining_ok popped0 stopped0 w : Prop :=
  exists taken rest confirmed, draining popped0 stopped0 w taken rest confirmed.

(** Steps that leave the spawned task alone. *)
Lemma draining_other popped0 stopped0 w w' :
  draining_ok popped0 stopped0 w -> at_phase w' = at_phase w -> ended w' = ended w ->
  stopped w' = stopped w -> (locked w = true -> roots w' = roots w) ->
  draining_ok popped0 stopped0 w'.
Proof.
  intros (taken & rest & l & [Hs Hb Hr Hse Ht Hst Ho]) Hp He Hstp Hro. exists taken, rest, l.
  split; unfold current in *; rewrite ?Hp, ?He, ?Hstp; try done.
  unfold locked in *. rewrite Hp. intros Hl. rewrite Hro by done. auto.
Qed.

Lemma draining_pop popped0 stopped0 w :
  draining_ok popped0 stopped0 w -> at_phase w = Draining -> draining_ok popped0 stopped0 (pop w).
Proof.
  intros (taken & rest & l & [Hs Hb Hr Hse Ht Hst Ho]) Hp. unfold pop, pop_root.
  unfold locked, current in Hr, Ht, Ho. rewrite Hp in Hr, Ht, Ho. specialize (Hr eq_refl).
  rewrite app_nil_r in Ho.
  destruct (reverse (roots w)) as [|s q] eqn:Hroots; subst rest.
  - exists taken, [], l. split; cbn; try done. by rewrite app_nil_r.
  - exists (taken ++ [s]), q, l. split; cbn; [by rewrite <- app_assoc|done| |done| |done|by apply sublist_app].
    + intros _. symmetry. apply reverse_involutive.
    + intros x [Hx|Hx]%elem_of_app; [|by auto]. destruct (Ht x Hx) as [?|[?|?]]; [auto..|].
      by destruct (not_elem_of_nil x).
Qed.

Lemma draining_offer popped0 stopped0 w s :
  draining_ok popped0 stopped0 w -> at_phase w = Offering s -> draining_ok popped0 stopped0 (offer s w).
Proof.
  intros (taken & rest & l & [Hs Hb Hr Hse Ht Hst Ho]) Hp. exists taken, rest, l. unfold offer.
  unfold locked, current in Hr, Ht, Ho. rewrite Hp in Hr, Ht, Ho.
  case_bool_decide as Hd; split; cbn; try done.
  - intros x [?|[?|Hx%list_elem_of_singleton]]%Ht; [auto..|]. subst. auto.
  - rewrite app_nil_r. etrans; [|exact Ho]. by apply sublist_inserts_r.
Qed.

Lemma draining_confirm popped0 stopped0 w ref :
  draining_ok popped0 stopped0 w -> at_phase w = Stopping ref ->
  draining_ok popped0 stopped0 (confirm ref w).
Proof.
  intros (taken & rest & l & [Hs Hb Hr Hse Ht Hst Ho]) Hp. exists taken, rest, (l ++ [ref]).
  unfold locked, current in Hr, Ht, Ho. rewrite Hp in Hr, Ht, Ho.
  split; cbn; [done|done|auto|done| |by rewrite Hst, app_assoc|by rewrite app_nil_r].
  intros x [?|[?|?]]%Ht; rewrite elem_of_app; auto.
Qed.

Lemma draining_end popped0 stopped0 w ref :
  draining_ok popped0 stopped0 w -> draining_ok popped0 stopped0 (end_actor ref w).
Proof.
  intros (taken & rest & l & [Hs Hb Hr Hse Ht Hst Ho]). exists taken, rest, l.
  unfold end_actor, locked, current, roots in *. cbn. destruct (decide (at_phase w = Stopping ref)) as [Hp|Hp].
  - rewrite Hp in Hr, Ht, Ho. split; cbn; try done.
    + intros x Hin. destruct (Ht x Hin) as [?|[?|Hx%list_elem_of_singleton]]; [set_solver|auto|].
      subst. set_solver.
    + rewrite app_nil_r. etrans; [|exact Ho]. by apply sublist_inserts_r.
  - split; cbn; try done. intros x Hin. destruct (Ht x Hin) as [?|[?|?]]; [set_solver|auto..].
Qed.

Lemma draining_step popped0 stopped0 l w w' :
  draining_ok popped0 stopped0 w -> step l w = Some w' -> draining_ok popped0 stopped0 w'.
Proof.
  intros Hw. destruct l as [l| | | | |ref|ref|ref call|ref]; cbn [step].
  - destruct (needs_lock l && locked w) eqn:Hn; [done|].
    destruct (SystemOps.step l (tasks w)) as [ts|] eqn:Hl; [|done]. intros [= <-].
    eapply draining_other; [exact Hw|done..|]. intros Hlk.
    destruct (access_roots _ _ _ Hl) as [Hr|[Hr _]]; [exact Hr|]. by rewrite Hr, Hlk in Hn.
  - intros [= <-]. by eapply draining_other.
  - case_decide as Hp; [|done]. destruct Hw as (t & r & c & Hd). by destruct (dr_begun _ _ _ _ _ _ Hd), Hp.
  - case_decide; [|done]. intros [= <-]. by apply draining_pop.
  - destruct (at_phase w) eqn:Hp; try done. intros [= <-]. by apply draining_offer.
  - case_decide as Hp; [|done]. intros [= <-]. apply draining_confirm; [done|]. by destruct Hp.
  - case_decide; [|done]. intros [= <-]. by apply draining_end.
  - case_decide; [|done]. intros [= <-]. by eapply draining_other.
  - destruct (awaits w !! ref) as [call|]; [|done]. cbn. destruct (returned w call); [|done].
    intros [= <-]. by eapply draining_other.
Qed.

(** C20: However other tasks interleave with a shutdown, the actors that confirm a stop to it
    are roots it found, each once and from the last created to the first, and when it tells the
    runner that the system has stopped, every root that it found has confirmed its stop or its
    task has ended. *)
Theorem shutdown_stops_every_root ls w0 w :
  at_phase w0 = Draining -> steps ls w0 = Some w ->
  exists confirmed, stopped w = stopped w0 ++ confirmed /\ sublist confirmed (reverse (roots w0)) /\
    (at_phase w = Sent -> forall s, s ∈ roots w0 -> s ∈ confirmed \/ s ∈ ended w).
Proof.
  intros Hp Hs.
  assert (draining_ok (reverse (roots w0)) (stopped w0) w0) as H0.
  { exists [], (reverse (roots w0)), []. split; cbn; try done; unfold current; rewrite ?Hp; try done.
    - intros s Hs'. by apply not_elem_of_nil in Hs'.
    - by rewrite app_nil_r. }
  destruct (steps_ind _ (draining_step _ _) ls w0 w H0 Hs)
    as (taken & rest & l & [Hspl _ _ Hse Ht Hst Hl]).
  exists l. split_and!; [done| |].
  - rewrite Hspl. apply sublist_inserts_r. etrans; [|exact Hl]. by apply sublist_inserts_r.
  - intros Hsent s Hin. unfold current in Ht. rewrite Hsent in Ht.
    rewrite Hse, app_nil_r in Hspl by done. rewrite <- elem_of_reverse, Hspl in Hin.
    destruct (Ht s Hin) as [?|[?|?]]; [auto..|]. by destruct (not_elem_of_nil s).
Qed.

(** ** Roots created during and after a shutdown *)

(** The loop is over for good. *)
Definition over w : Prop := at_phase w = Sent \/ at_phase w = GaveUp.

Lemma over_step (st rs : list nat) (ph : phase) l w w' :
  over w /\ at_phase w = ph /\ stopped w = st /\ rs `prefix_of` roots w -> step l w = Some w' ->
  over w' /\ at_phase w' = ph /\ stopped w' = st /\ rs `prefix_of` roots w'.
Proof.
  intros (Ho & Hp & Hst & Hr).
  assert (forall s, at_phase w <> Stopping s) as Hn by (intros s Hs; destruct Ho; congruence).
  assert (at_phase w <> Draining /\ at_phase w <> Asleep /\ forall s, at_phase w <> Offering s)
    as (Hd & Ha & Hof) by (destruct Ho as [-> | ->]; done).
  unfold over in *.
  destruct l as [l| | | | |ref|ref|ref call|ref]; cbn [step].
  - destruct (needs_lock l && locked w); [done|].
    destruct (SystemOps.step l (tasks w)) as [ts|] eqn:Hl; [|done]. intros [= <-].
    split_and!; [done..|]. unfold roots in *. cbn.
    destruct (access_roots _ _ _ Hl) as [->|[_ [ref ->]]]; [done|]. by apply prefix_app_r.
  - by intros [= <-].
  - case_decide as Hx; [|done]. by destruct Hx.
  - by case_decide.
  - destruct (at_phase w) eqn:Hph; try done. by destruct (Hof sender).
  - case_decide as Hx; [|done]. by destruct Hx as [?%Hn _].
  - case_decide; [|done]. intros [= <-]. unfold end_actor, roots. cbn.
    by rewrite decide_False by apply Hn.
  - case_decide; [|done]. by intros [= <-].
  - destruct (awaits w !! ref) as [call|]; [|done]. cbn. destruct (returned w call); [|done].
    by intros [= <-].
Qed.

(** A root actor whose creation pushes its sender after the shutdown has ended stays among the
    root senders for good, and from then on the shutdown stops nobody, whatever happens. *)
Theorem late_root_is_never_stopped w i c ls w' :
  over w -> SystemOps.calls (tasks w) !! i = Some c -> SystemOps.c_progress c = SystemOps.Pushing ->
  steps (Access (SystemOps.PushRoot i) :: ls) w = Some w' ->
  SystemOps.c_ref c ∈ roots w' /\ stopped w' = stopped w /\ at_phase w' = at_phase w.
Proof.
  intros Ho Hc Hpr Hs. cbn [steps step needs_lock SystemOps.step] in Hs.
  assert (locked w = false) as Hl by (unfold locked; by destruct Ho as [-> | ->]).
  rewrite Hl, Hc in Hs. cbn in Hs. rewrite Hpr in Hs. cbn in Hs.
  set (w1 := set_tasks _ w) in Hs.
  destruct (steps_ind _ (over_step (stopped w) (roots w1) (at_phase w)) ls w1 w')
    as (_ & Hph & Hst & Hpre); [done|exact Hs|].
  split_and!; [|done|done]. eapply elem_of_prefix; [|exact Hpre].
  unfold w1, roots. cbn. apply elem_of_app. right. by left.
Qed.

(** The call that creates a root keeps waiting for the lock, the actor for the
    call and the shutdown for the actor. *)
Definition deadlocked (s i : nat) w : Prop :=
  at_phase w = Stopping s /\ awaits w !! s = Some i /\ (s ∉ ended w) /\
  exists c, SystemOps.calls (tasks w) !! i = Some c /\ SystemOps.c_progress c = SystemOps.Pushing.

Lemma pushing_call_waits l (ts ts' : SystemOps.Tasks (H:=H)) i c :
  SystemOps.calls ts !! i = Some c -> SystemOps.c_progress c = SystemOps.Pushing ->
  SystemOps.step l ts = Some ts' -> needs_lock l = false -> SystemOps.calls ts' !! i = Some c.
Proof.
  intros Hc Hp Hs Hn. destruct l as [j|j|j start|j|p]; cbn in Hs, Hn; [| | |done|].
  4: by simplify_eq.
  all: destruct (SystemOps.calls ts !! j) as [c'|] eqn:Hj; cbn in Hs; [|done].
  all: destruct (decide (i = j)) as [->|Hij];
    [rewrite Hc in Hj; simplify_eq; by rewrite Hp in Hs|].
  all: repeat case_match; simplify_eq; cbn; by rewrite lookup_insert_ne.
Qed.

Lemma deadlocked_step s i l w w' :
  deadlocked s i w -> step l w = Some w' -> deadlocked s i w'.
Proof.
  intros (Hp & Ha & He & c & Hc & Hpr).
  destruct l as [l| | | | |ref|ref|ref call|ref]; cbn [step].
  - unfold locked. rewrite Hp, andb_true_r. destruct (needs_lock l) eqn:Hn; [done|].
    destruct (SystemOps.step l (tasks w)) as [ts|] eqn:Hl; [|done]. intros [= <-].
    split_and!; [done..|]. exists c. split; [|done]. by eapply pushing_call_waits.
  - intros [= <-]. split_and!; [done..|]. by exists c.
  - case_decide as Hx; [|done]. destruct Hx as [Hx _]. congruence.
  - case_decide; [|done]. congruence.
  - by rewrite Hp.
  - case_decide as Hx; [|done]. destruct Hx as (Hx & Hx' & _). congruence.
  - case_decide as Hx; [|done]. intros [= <-]. assert (s <> ref) by congruence.
    split_and!; cbn; [|done|set_solver|by exists c]. rewrite decide_False by congruence. done.
  - case_decide as Hx; [|done]. intros [= <-]. destruct Hx as [Hx _].
    split_and!; cbn; [done| |done|by exists c]. rewrite lookup_insert_ne by congruence. done.
  - destruct (awaits w !! ref) as [call|] eqn:Hr; [|done]. cbn.
    destruct (returned w call) eqn:Hret; [|done]. intros [= <-].
    assert (s <> ref) as Hne.
    { intros ->. assert (call = i) as -> by congruence. unfold returned in Hret.
      by rewrite Hc, Hpr in Hret. }
    split_and!; cbn; [done| |done|by exists c]. by rewrite lookup_delete_ne.
Qed.

(** C33: An actor that the shutdown is stopping and whose handler creates a root actor waits for
    the lock that the shutdown holds while it waits for the actor: whatever other tasks do, the
    actor never ends, the call never returns and the shutdown never goes on. *)
Theorem creating_a_root_while_stopping_deadlocks s i c ls w w' :
  at_phase w = Stopping s -> awaits w !! s = Some i -> s ∉ ended w ->
  SystemOps.calls (tasks w) !! i = Some c -> SystemOps.c_progress c = SystemOps.Pushing ->
  steps ls w = Some w' ->
  at_phase w' = Stopping s /\ (s ∉ ended w') /\ returned w' i = false.
Proof.
  intros Hp Ha He Hc Hpr Hs.
  destruct (steps_ind _ (deadlocked_step s i) ls w w') as (Hp' & _ & He' & c' & Hc' & Hpr');
    [by split_and!; eauto|exact Hs|].
  split_and!; [done|done|]. unfold returned. by rewrite Hc', Hpr'.
Qed.

End Correct.

(** ** Witnesses

    Two roots, and a third actor, of number 7, that a call of [create_root_actor] made. *)

Definition third : SystemOps.Call :=
  SystemOps.advance (SystemOps.create_root_actor "late" 1 7) SystemOps.Pushing.

Definition world (ph : phase) (waits : list (nat * nat)) : World (H:=nat) :=
  mk_world (SystemOps.mk_tasks (SystemOps.push_root (SystemOps.push_root SystemOps.new 1) 2)
              {[0 := third]}) ph ∅ (list_to_map waits) [].

Lemma shutdown_stops_every_root_witness :
  exists w confirmed, steps [Pop; Offer; Confirm 2; Pop; Offer; Ends 1; Pop] (world Draining []) = Some w /\
    at_phase w = Sent /\ stopped w = confirmed /\ sublist confirmed [2; 1] /\
    (2 ∈ confirmed \/ 2 ∈ ended w).
Proof.
  destruct (shutdown_stops_every_root [Pop; Offer; Confirm 2; Pop; Offer; Ends 1; Pop]
    (world Draining []) _ eq_refl ltac:(vm_compute; reflexivity)) as (l & Hst & Hl & Hs).
  eexists _, l. split; [vm_compute; reflexivity|]. split; [reflexivity|]. split; [exact Hst|].
  split; [exact Hl|]. apply Hs; [reflexivity|]. right. left.
Defined.

Lemma late_root_is_never_stopped_witness :
  exists w', steps [Access (SystemOps.PushRoot 0); Cancel] (world Sent []) = Some w' /\
    (7 ∈ roots w') /\ stopped w' = [] /\ at_phase w' = Sent.
Proof.
  eexists. split; [vm_compute; reflexivity|].
  exact (late_root_is_never_stopped (world Sent []) 0 third [Cancel] _ (or_introl eq_refl)
    eq_refl eq_refl ltac:(vm_compute; reflexivity)).
Defined.

Lemma creating_a_root_while_stopping_deadlocks_witness :
  step (Access (SystemOps.PushRoot 0)) (world (Stopping 2) [(2, 0)]) = None /\
  exists w', steps [Ends 1; Cancel] (world (Stopping 2) [(2, 0)]) = Some w' /\
    at_phase w' = Stopping 2 /\ (2 ∉ ended w') /\ returned w' 0 = false.
Proof.
  split; [reflexivity|]. eexists. split; [vm_compute; reflexivity|].
  exact (creating_a_root_while_stopping_deadlocks 2 0 third [Ends 1; Cancel]
    (world (Stopping 2) [(2, 0)]) _ eq_refl eq_refl
    ltac:(apply (bool_decide_unpack _); vm_compute; exact I) eq_refl eq_refl
    ltac:(vm_compute; reflexivity)).
Defined.
